(* ===== verification/_CoqProject ===== *)
-Q . S2P
Prelude.v
SqlToken.v
SqlLexer.v
SqlLexSpec.v
SqlAst.v
SqlParser.v
SqlParserTotal.v
SqlTokens.v
SqlStream.v
SqlRoundtrip.v
SqlText.v
SqlWalk.v
SqlWalkSpec.v
ShardKey.v
ShardKeySpec.v
ShardSql.v
ShardSqlSpec.v
ShardTables.v
ShardTablesSpec.v
Redis.v
Md5.v
AsynqBase.v
AsynqStore.v
AsynqRdb.v
AsynqInspect.v
AsynqRegistry.v
AsynqInv.v
AsynqScripts.v
AsynqMoves.v
AsynqInspectSpec.v
AsynqDb.v
AsynqSpec.v
AsynqRefine.v
AsynqMessages.v
AsynqRegistrySpec.v
AsynqKeys.v
AsynqLife.v
AsynqFifo.v
AsynqFrame.v
AsynqLocks.v
AsynqContents.v
AsynqLeases.v
AsynqBroker.v
AsynqClient.v
AsynqServer.v
AsynqServerSpec.v
AsynqWorkers.v
AsynqMux.v
UtilHeap.v
UtilHeapSpec.v
RoutineFuture.v
RoutineFutureSpec.v
RoutineFutureEnd.v
Lock.v
LockSpec.v
LockWithin.v
Payload.v
PayloadSpec.v
RoutinePool.v
WmMessage.v
WmRouter.v
WmRouterSpec.v
WmGoChannel.v
WmGoChannelSpec.v
WmGoChannelDelivery.v
