(* ===== verification/Prelude.v ===== *)
(** * Gofusion: SQL parsing, table sharding, the task queue, messages, locks and goroutines

    Gofusion (src/) is a Go framework over gorm, Redis, MongoDB, message queues and HTTP. This
    development verifies the parts of it that have logic of their own: the one that decides to which table
    a statement goes, which is the SQL parser (src/common/utils/sqlparser) and the table-sharding plugin
    of the database layer (src/db/plugins/table_sharding.go); the task queue on Redis
    (src/common/infra/asynq), with its client, its broker and the goroutines of its server; the message
    router and the in-process Pub/Sub (src/common/infra/watermill); and what these share: locks
    (src/lock), futures and goroutine pools (src/routine), sealed payloads (src/internal/util/payload) and
    the heap (src/common/utils/heap.go).

    ** How the parts work together

    Before a statement is executed, the plugin parses its text, takes the values of the sharding
    keys out of the tree (from the rows of an INSERT, from the equalities of a condition
    otherwise), computes a table suffix from them, renames the tables and columns of the tree, and
    prints it again; for an INSERT it first creates the table when it is new. At start-up, a
    migration creates the tables of all suffixes. The chain is correct when the parser and printer
    agree, when the rewriting changes what it should and nothing else, and when the suffixes that
    are routed to are those that are migrated.

    A client adds tasks to queues; a task is a hash in Redis and an entry of one list or sorted set
    of its queue, which says what is to become of it. Everything that happens to tasks is a Lua
    script run by the broker. The processor of a server takes pending tasks, with a lease that
    the heartbeater extends, gives each to the handler that the multiplexer finds for its type, and
    settles it when the handler ends; the forwarder moves tasks
    that are due to the pending list, the recoverer takes back tasks whose lease ended, the
    aggregator combines the tasks of a group, the janitor deletes old results; operators move and
    delete tasks through the inspector. The queue is correct when a task is in one place at a
    time, moves only along its life cycle, is not lost while it is due, and is worked on by one
    worker at a time.

    A publisher gives messages to the Pub/Sub, which starts a goroutine per subscriber that sends copies until
    one is acknowledged. The router runs a handler, wrapped in middlewares, on every message of a
    subscription, publishes what the handler returns, and settles the message. This is correct when no
    goroutine panics, when a message is sent until it is acknowledged, and when a message is
    acknowledged exactly when it was handled and its output was published.

    Goroutines of the framework are counted by the routine package, return their results through futures, and
    exclude each other across processes with the lockers of the lock package; messages between processes
    carry their context and their data in a sealed payload.

    ** Files

    - [Prelude] (this file): Go data (runes, strings, decimal printing), the outcomes of Go calls
      ([outcome]: value, error, panic, or the model's lack of fuel), state-passing methods ([stM]),
      methods whose effects survive an error ([stE]), and a weakest-precondition calculus ([wp]).
    - [SqlToken]: token.go. The tokens in the order of the Go constants, [Lookup], [Precedence],
      positions.
    - [SqlLexer]: lexer.go. The push-back state machine ([read], [unread], [peek]) and one
      definition per lexing routine; [Lex] is the entry point. [SqlLexSpec]: a reference lexer
      ([lex_runes]), structural on the text, and the proof that the machine implements it.
    - [SqlAst]: ast.go. The node types, the [String] methods (which may panic), and the helpers on
      sources and expressions.
    - [SqlParser]: parser.go. Every parse routine, over the interface [TokenSource]; the lexer is
      its instance. [SqlParserTotal]: termination and absence of panics, against the class
      [LawfulSource] of token sources that make progress.
    - [SqlTokens], [SqlStream], [SqlRoundtrip], [SqlText]: the tokens of an expression, running the
      parser on known tokens, the parser reads the tokens of an expression back, and the lexer
      reads the tokens of a printed expression. Together: parsing a printed expression gives the
      expression.
    - [SqlWalk]: walk.go. [walk] with visitors that may fail, keep state, replace nodes, or skip a
      node. [SqlWalkSpec]: the visiting order, rewriting visitors as maps over the tree, the
      nodes that are never reached.
    - [ShardKey]: the configuration ([DefaultTableSharding], [suffixFormat]), the three sharding
      functions ([shardingFunc]: raw value, expression, checksum) and the suffixes of a migration.
      What is not under src/ (cast, uuid, gval) is the record [External], with the laws that the
      proofs rely on as the class [ExternalLaws]. [ShardKeySpec]: its theorems.
    - [ShardSql]: [dispatchTableBySQL] with everything it calls. The primary-key generator and the
      migrator are the classes [Generator] and [Migrator]. [ShardSqlSpec]: its theorems.
    - [ShardTables]: [ShardingByValues], [ShardingIDGen], and the sharding dialector and migrator
      ([Dialector_AutoMigrate], [Dialector_DropTable]) over gorm's migrator, the class [Schema]
      with its documented laws [SchemaLaws]. [ShardTablesSpec]: its theorems.
    - [Redis]: the Redis commands that the task queue uses, on sorted sets, lists and string keys with
      a time to live, by their documentation. [Md5]: crypto/md5, for the keys of unique tasks.
    - [AsynqBase]: pkg/errors and pkg/base (errors, keys, states, messages and their encoding, leases).
      Protobuf is the class [Proto] with the law [ProtoLaws]. [AsynqMessages]: round trips of
      messages, and a concrete wire format for examples. [AsynqKeys]: the keys do not collide.
    - [AsynqStore]: the database, and scripts as state-passing functions on the store of a queue.
      [AsynqRdb]: pkg/rdb/rdb.go, one definition per Lua script and per method. [AsynqInspect]:
      pkg/rdb/inspect.go. [AsynqRegistry]: what servers, workers and schedulers publish;
      [AsynqRegistrySpec]: its theorems.
    - [AsynqInv]: the invariant of a queue for a given place of every task. [AsynqScripts],
      [AsynqMoves], [AsynqInspectSpec]: every script keeps it, with the moves it makes. [AsynqDb]:
      from scripts to methods. [AsynqSpec]: the operations ([Op]), their life cycle ([lifecycle]) and
      reachable databases; [AsynqRefine]: every operation follows its life cycle. [AsynqLife],
      [AsynqFifo], [AsynqLocks]: delivery, order, unique tasks. [AsynqFrame], [AsynqContents],
      [AsynqLeases]: what an operation leaves as it is.
    - [AsynqBroker]: the interface [Broker] of base.go as a class with its laws [BrokerLaws], and the
      Redis broker as an instance. [AsynqClient]: client.go. [AsynqServer]: one definition per round of
      the goroutines of a server. [AsynqServerSpec]: what the client, a worker and the recoverer
      do, the first two against [BrokerLaws] (what a broker stores, which message is leased, what an archive
      holds, and the effect of every method on these). [AsynqWorkers]: servers, clients, operators, clocks and
      crashes as a step relation, and the exclusion of workers. [AsynqMux]: servemux.go, with its theorems.
    - [WmMessage]: messages of watermill (message.go, metadata.go, read.go). [WmRouter]: router.go and the
      middlewares, as code on a store of messages that are shared by pointer; [WmRouterSpec]: its
      theorems, over the class of code that respects messages ([behaved]).
    - [WmGoChannel]: pubsub/gochannel/pubsub.go, one definition per step of a goroutine ([exec]) and the step
      relation of the system ([gstep]). [WmGoChannelSpec]: its invariant and the possible panics;
      [WmGoChannelDelivery]: delivery, and the executions that go wrong.
    - [UtilHeap]: heap.go with container/heap; [UtilHeapSpec]: it is a priority queue.
    - [RoutineFuture]: future.go and promise.go of routine as goroutines on shared memory; [RoutineFutureSpec]: one result
      for all; [RoutineFutureEnd]: termination and the calls of callbacks. [RoutinePool]: pool.go and the
      accounting of goroutines.
    - [Lock]: the lockers of redis.go and mongo.go over the commands of their servers, with the class
      [LockableLaws] of what a locker promises in [LockSpec]; [LockWithin]: candy.go.
    - [Payload]: seal.go and unseal.go over the libraries for serialization and compression ([Codecs], laws
      [CodecLaws]); [PayloadSpec]: the round trip.

    ** Correspondence

    A definition carries the name of the Go function; a suffix names the part of it that became a
    definition of its own (a loop, a closure, a case of a switch). Structs are records with the
    fields of the source, prefixed where Go's names would clash. A pointer that may be nil is an
    [option]. A string is the list of its runes. Errors are constructors ([GoError],
    [ShardError]), panics are outcomes. On an error the partially built node that a Go routine
    returns beside the error is dropped. Integers are [Z]; where the width matters (narrowing of
    keys, big-endian bytes, CRC-32) it is written out.

    ** What the theorems show

    - Lexer: however often it is called, it delivers the tokens and positions of the reference
      lexer ([Lex_calls_reference]).
    - Parser: it terminates on every text; [ParseStatement] panics exactly on DELETE without FROM
      ([ParseStatementString_total]), [ParseExprString] never ([ParseExprString_total]).
    - Printer and parser: printed expressions are read back ([Expr_String_roundtrip]); the
      precedence of two-word operators and ranges takes in a conjunction that follows
      ([conjunction_swallowed]).
    - Walk: pre-order, each node once ([Walk_VisitFunc_preorder]); it terminates ([walk_total]);
      result columns are never visited ([Walk_skips_result_columns]).
    - Choice of the shard: by checksum, routed suffixes are migrated exactly with fewer than 10000 shards, or with a
      verb in the configured suffix ([checksum_suffix_migrated]); by expression and by raw value under the
      conditions of [expr_suffix_migrated] and [raw_suffix_migrated]; migrated tables are distinct
      ([suffixes_distinct]); and the cases in which the source does not have these properties
      ([many_shards_not_migrated], [raw_custom_suffix_diverges], [int_width_changes_shard],
      [int_slice_rejected]).
    - Rewriting: a rewritten statement is the parsed one with its table replaced by the table of its keys, printed, and
      that table is migrated ([dispatch_routes_to_shards], by the relation [rerouted] and under
      [well_sharded]); the rows of an INSERT, with generated keys or without, belong to the table they are
      sent to ([insert_rows_one_table], by [rows_routed]); the condition decides by its last equality
      ([nonInsertValue_last_equality]); renaming changes the intended columns and nothing else
      ([replaceCondition_renames], [replaceConstraint_renames]); a failure leaves the statement
      alone ([dispatch_failure_keeps_statement]); recorded tables exist ([created_tables_exist]);
      and the known gaps ([disjunction_uses_last_key], [alias_replaces_table],
      [right_side_keeps_table], [later_statements_dropped], [generated_key_single_row]).

    - Tables: after a migration of a [well_sharded] table every table a row can be routed to exists
      ([migrated_tables_exist]); dropping drops exactly the shards ([dropped_tables_exact]); the
      ignore flags are restored ([migrations_restore_flags]); rows are grouped by table
      ([ShardingByValues_partition]).

    - Task queue, store: every operation ends, keeps the invariant and moves tasks along its life cycle
      ([lifecycle_refinement]), so that on every reachable database a task is in one place
      ([task_in_one_place]); tasks that are due are forwarded ([forward_delivers]) and delivered in
      order ([dequeue_takes_oldest], [fifo_delivery]); unique tasks exclude each other
      ([unique_exclusion]); messages survive the wire ([message_roundtrip]); keys do not collide
      ([keys_distinct]); what servers and schedulers publish is listed until it expires
      ([server_state_roundtrip], [history_keeps_latest]).
    - Task queue, client and server: the client adds the message that its task and options describe
      ([described_task]), due when they say ([client_adds_task]); a worker settles its task
      ([worker_settles_task]); the recoverer puts every abandoned task among the retries or the archived
      ones ([recover_progress]); two workers with valid leases never have the same task, whatever the
      interleaving, with clocks up to 7.25 seconds off ([lease_exclusion]); the multiplexer chooses the
      longest pattern ([mux_longest_pattern]).
    - Messages: a handled message is settled the way its handling ended ([handled_message_settled]); a handler is
      retried as often as configured, and at least once ([retry_outcome]); for every list of produced messages,
      what those marked against acknowledgement do ([marker_only_at_the_end], by [marks_outcome]); what the
      timeout and the order of middlewares do ([timeout_refuses_output], [panic_not_salvaged]). Wrapping in
      these middlewares keeps a handler within the conditions of these theorems ([wrapped_handler_behaved]).
    - In-process Pub/Sub: the only places where a goroutine can panic ([gochannel_panics]), why a group that lost its
      members gets there ([empty_group_panics]), and an execution for the other one
      ([publish_after_close_panics]); one message at a time for a subscriber ([one_delivery_at_a_time]); a
      waiting publisher goes on when the subscribers that its topic has are served
      ([waiting_publisher_served]).
    - Futures: one result, seen by all ([future_assigned_once]); without pipes executions end, and callbacks that one
      goroutine registers are called once ([callbacks_called_once]); of two that are registered at once, one
      may be lost, in every open future ([concurrent_registration_loses_callback]).
      Pools: the budget is kept ([pool_accounting]).
    - Locks: a locker that keeps its laws excludes ([lock_exclusion]), and so does [Within] for calls with different
      reentrant keys ([within_exclusion]); the NX locker does not, since every [Unlock] frees the key
      ([nx_unlock_frees_other]).
    - Payloads are unsealed to what was sealed ([seal_unseal_roundtrip]); the heap is a priority queue
      ([heap_is_priority_queue]).

    ** Fuel

    Loops that are not structural take fuel. Lexer loops get two more than the runes left
    ([lex_fuel]), the parser two more than the runes of the text ([parse_fuel]), a walk the size
    of the tree ([node_size]); the totality theorems show that these are enough, so
    [OutOfFuel] is no outcome of a modelled call. The loops of the broker that forward or delete in
    batches get one more than the elements of the set ([forwardFuel]), which [lifecycle_refinement]
    shows to be enough; the loop of [gcd2] one more than its second argument, which decreases. The loops
    of the heap get the length of the array, those of the binary search of the multiplexer the number of
    entries, and the retries of a handler one more than their limit ([retryFuel]); the theorems about
    them hold without a condition on fuel.

    ** Time

    A call of the broker and a round of a goroutine read the clock once; instants and durations are
    nanoseconds. [time.AddDate] by days is a multiple of 24 hours.

    ** Not modelled

    Reader errors of the lexer (its input is a string); the dispatch by gorm model, which works by
    reflection; the mutex around the set of created tables (calls are
    sequential); pointers as sharding values. Of the task queue: lost connections to Redis (and so
    the requests of workers to the syncer in [AsynqWorkers]), the cancellation channel, memory usage,
    the start and stop of goroutines, the cron scheduler and the wrappers of the inspector. Of messages: the
    start and stop of the router, the contexts of delivered messages, brokers other than the in-process
    one. Of locks: the MySQL locker, whose lock belongs to a connection of a pool, and
    differences of clocks. Of goroutines: the combinators over several futures and the pool library. The
    other packages of src/ are adapters to external services, configuration, or work by reflection;
    caches, soft deletion and the containers of common/utils are not part of this development. *)

From stdpp Require Import base list strings numbers option.

#[global] Set Default Goal Selector "!".
#[global] Set Warnings "-clear-no-such-hyp".

(** ** Go data shared by every component *)

(** A Go [rune] (an [int32] code point); [-1] is what the lexer uses for end of input. *)
Abbreviation rune := Z.

(** A Go [string], as the sequence of its runes. *)
Abbreviation gostring := (list Z).

(** The rune sequence of an ASCII literal. *)
Definition str (s : string) : gostring :=
  map (fun c => Z.of_N (Ascii.N_of_ascii c)) (String.list_ascii_of_string s).

(** The rune of a one-character literal. *)
Definition chr (s : string) : rune := List.hd 0%Z (str s).

Declare Scope go_scope.
Delimit Scope go_scope with go.
#[global] Open Scope go_scope.
#[global] Open Scope Z_scope.

(** Go's comparison of strings as a boolean. *)
Definition streqb (a b : gostring) : bool := bool_decide (a = b).

Notation "a =s b" := (streqb a b) (at level 70, no associativity) : go_scope.

(** [strconv.Itoa] / the [%d] verb: decimal digits, least significant last. *)
Fixpoint udigits (fuel : nat) (n : Z) (acc : gostring) : gostring :=
  match fuel with
  | O => acc
  | S f =>
      let acc := (48 + n mod 10) :: acc in
      if n <? 10 then acc else udigits f (n / 10) acc
  end.

Definition utoa (n : Z) : gostring := udigits (S (Z.to_nat (Z.log2 n))) n [].

Definition itoa (n : Z) : gostring := if n <? 0 then 45 :: utoa (- n) else utoa n.

(** UTF-8 encoding of a rune, and the bytes of a string ([]byte(s)). *)
Definition utf8 (c : rune) : list Z :=
  if c <? 128 then [c]
  else if c <? 2048 then [192 + c / 64; 128 + c mod 64]
  else if c <? 65536 then [224 + c / 4096; 128 + c / 64 mod 64; 128 + c mod 64]
  else [240 + c / 262144; 128 + c / 4096 mod 64; 128 + c / 64 mod 64; 128 + c mod 64].

Definition bytes_of (s : gostring) : list Z := s ≫= utf8.

Lemma utf8_length c : (0 < length (utf8 c))%nat.
Proof. unfold utf8. repeat case_match; cbn; lia. Qed.

Lemma bytes_of_app s t : bytes_of (s ++ t) = bytes_of s ++ bytes_of t.
Proof. apply bind_app. Qed.

Lemma bytes_of_length s : (length s <= length (bytes_of s))%nat.
Proof.
  induction s as [|c s IH]; [done|]. cbn. rewrite length_app. pose proof (utf8_length c).
  unfold bytes_of in IH. cbn in IH. lia.
Qed.

(** ** Results of Go calls

    A call returns a value, returns an error, panics, or (in the model only) runs out of the
    fuel that bounds its loops; the last one is what the totality theorems exclude. *)
Inductive outcome (E A : Type) : Type :=
  | Ok (a : A)
  | Err (e : E)
  | Panic (msg : gostring)
  | OutOfFuel.

Arguments Ok {E A} a.
Arguments Err {E A} e.
Arguments Panic {E A} msg.
Arguments OutOfFuel {E A}.

Lemma Ok_inj {E A} (a b : A) : Ok (E := E) a = Ok b -> a = b.
Proof. by intros [= ->]. Qed.

Definition out_bind {E A B} (m : outcome E A) (f : A -> outcome E B) : outcome E B :=
  match m with
  | Ok a => f a
  | Err e => Err e
  | Panic msg => Panic msg
  | OutOfFuel => OutOfFuel
  end.

Notation "x ⇐ m ; k" := (out_bind m (fun x => k))
  (at level 20, m at level 100, k at level 200, only parsing) : go_scope.
Notation "' x ⇐ m ; k" := (out_bind m (fun x => k))
  (at level 20, x pattern, m at level 100, k at level 200, only parsing) : go_scope.

(** A stateful Go method: the receiver's state is threaded explicitly. *)
Definition stM (S E A : Type) : Type := S -> outcome E (A * S).

Definition ret {S E A} (a : A) : stM S E A := fun s => Ok (a, s).

Definition bind {S E A B} (m : stM S E A) (f : A -> stM S E B) : stM S E B := fun s =>
  match m s with
  | Ok (a, s') => f a s'
  | Err e => Err e
  | Panic msg => Panic msg
  | OutOfFuel => OutOfFuel
  end.

Notation "x ← m ; k" := (bind m (fun x => k))
  (at level 20, m at level 100, k at level 200, only parsing) : go_scope.
Notation "' x ← m ; k" := (bind m (fun x => k))
  (at level 20, x pattern, m at level 100, k at level 200, only parsing) : go_scope.

Definition throw {S E A} (e : E) : stM S E A := fun _ => Err e.
Definition panic {S E A} (msg : gostring) : stM S E A := fun _ => Panic msg.
Definition out_of_fuel {S E A} : stM S E A := fun _ => OutOfFuel.
Definition gets {S E A} (f : S -> A) : stM S E A := fun s => Ok (f s, s).
Definition modify {S E} (f : S -> S) : stM S E unit := fun s => Ok (tt, f s).

(** A method whose state survives errors: what it did before failing stays done. *)
Definition stE (S E A : Type) : Type := S -> outcome E A * S.

Definition ebind {S E A B} (m : stE S E A) (f : A -> stE S E B) : stE S E B := fun s =>
  let '(r, s) := m s in
  match r with
  | Ok a => f a s
  | Err e => (Err e, s)
  | Panic msg => (Panic msg, s)
  | OutOfFuel => (OutOfFuel, s)
  end.

Notation "x ↞ m ; k" := (ebind m (fun x => k))
  (at level 20, m at level 100, k at level 200, only parsing) : go_scope.
Notation "' x ↞ m ; k" := (ebind m (fun x => k))
  (at level 20, x pattern, m at level 100, k at level 200, only parsing) : go_scope.

(** A call that does not touch the state. *)
Definition elift {S E A} (r : outcome E A) : stE S E A := fun s => (r, s).

(** ** A weakest-precondition predicate for stateful methods

    [wp m EP PP Q s]: from state [s], [m] does not run out of fuel; a result satisfies [Q], an
    error satisfies [EP], and a panic can happen only when [PP] holds. *)
Definition wp {S E A} (m : stM S E A) (EP : E -> Prop) (PP : Prop)
    (Q : A -> S -> Prop) (s : S) : Prop :=
  match m s with
  | Ok (a, s') => Q a s'
  | Err e => EP e
  | Panic _ => PP
  | OutOfFuel => False
  end.

Section wp_rules.
Context {S E : Type}.
Implicit Types (s : S) (EP : E -> Prop) (PP : Prop).

Lemma wp_ret {A} (a : A) EP PP (Q : A -> S -> Prop) s :
  Q a s -> wp (ret a) EP PP Q s.
Proof. done. Qed.

Lemma wp_bind {A B} (m : stM S E A) (f : A -> stM S E B) EP PP Q s :
  wp m EP PP (fun a s' => wp (f a) EP PP Q s') s -> wp (bind m f) EP PP Q s.
Proof. unfold wp, bind. by destruct (m s) as [[a s']|e|msg|]. Qed.

Lemma wp_mono {A} (m : stM S E A) (EP EP' : E -> Prop) (PP PP' : Prop) Q Q' s :
  wp m EP PP Q s -> (forall e, EP e -> EP' e) -> (PP -> PP') ->
  (forall a s', Q a s' -> Q' a s') -> wp m EP' PP' Q' s.
Proof. unfold wp. destruct (m s) as [[a s']|e|msg|]; naive_solver. Qed.

Lemma wp_throw {A} e EP PP (Q : A -> S -> Prop) s : EP e -> wp (throw e) EP PP Q s.
Proof. done. Qed.

Lemma wp_panic {A} msg EP PP (Q : A -> S -> Prop) s : PP -> wp (panic msg) EP PP Q s.
Proof. done. Qed.

Lemma wp_gets {A} (f : S -> A) EP PP Q s : Q (f s) s -> wp (gets f) EP PP Q s.
Proof. done. Qed.

Lemma wp_modify (f : S -> S) EP PP Q s : Q tt (f s) -> wp (modify f) EP PP Q s.
Proof. done. Qed.

(** Executing a step whose result is known. *)
Lemma wp_bind_ok {A B} (m : stM S E A) (f : A -> stM S E B) EP PP Q s a s' :
  m s = Ok (a, s') -> wp (f a) EP PP Q s' -> wp (bind m f) EP PP Q s.
Proof. intros H HQ. unfold wp, bind. by rewrite H. Qed.

(** A method that satisfies [wp] without errors and panics returns. *)
Lemma wp_returns {A} (m : stM S E A) Q s :
  wp m (fun _ => False) False Q s -> exists a s', m s = Ok (a, s') /\ Q a s'.
Proof. unfold wp. destruct (m s) as [[a s']|e|msg|]; naive_solver. Qed.
End wp_rules.

(** The next rule of a symbolic execution. *)
Ltac wp_step :=
  lazymatch goal with
  | |- wp (ret _) _ _ _ _ => apply wp_ret
  | |- wp (bind _ _) _ _ _ _ => apply wp_bind
  | |- wp (throw _) _ _ _ _ => apply wp_throw
  | |- wp (panic _) _ _ _ _ => apply wp_panic
  | |- wp (gets _) _ _ _ _ => apply wp_gets
  | |- wp (modify _) _ _ _ _ => apply wp_modify
  end.

(** ** Lists of threads

    A step of thread [i] replaces it and starts threads behind the others. *)
Section threads.
Context {A : Type}.
Implicit Types (ts st : list A) (i j k : nat) (t u : A).

Lemma lookup_next ts st i t t' j u :
  ts !! i = Some t -> (<[i := t']> ts ++ st) !! j = Some u ->
  (j = i /\ u = t') \/ (j <> i /\ ts !! j = Some u) \/ (exists k, j = (length ts + k)%nat /\ st !! k = Some u).
Proof.
  intros Hi Hj. apply lookup_lt_Some in Hi. apply lookup_app_Some in Hj as [Hj|[Hge Hj]].
  - apply list_lookup_insert_Some in Hj as [(-> & -> & _)|[? ?]]; eauto.
  - rewrite length_insert in *. right. right. exists (j - length ts)%nat. split; [lia|done].
Qed.

Lemma lookup_next_self ts st i t t' : ts !! i = Some t -> (<[i := t']> ts ++ st) !! i = Some t'.
Proof.
  intros Hi. apply lookup_lt_Some in Hi. rewrite lookup_app_l by (by rewrite length_insert). by apply list_lookup_insert_eq.
Qed.

Lemma lookup_next_other ts st i t' j u : j <> i -> ts !! j = Some u -> (<[i := t']> ts ++ st) !! j = Some u.
Proof.
  intros Hne Hj. rewrite lookup_app_l by (rewrite length_insert; by eapply lookup_lt_Some). by rewrite list_lookup_insert_ne.
Qed.

Lemma lookup_next_started ts st i t' k u : st !! k = Some u -> (<[i := t']> ts ++ st) !! (length ts + k)%nat = Some u.
Proof.
  intros Hk. rewrite lookup_app_r by (rewrite length_insert; lia). rewrite length_insert.
  by replace (length ts + k - length ts)%nat with k by lia.
Qed.

Lemma sum_next (f : A -> nat) ts st i t t' :
  ts !! i = Some t -> (sum_list_with f (<[i := t']> ts ++ st) + f t = sum_list_with f ts + f t' + sum_list_with f st)%nat.
Proof.
  intros Hi. rewrite <- (take_drop_middle ts i t Hi) at 2.
  rewrite insert_take_drop by (by eapply lookup_lt_Some). rewrite !sum_list_with_app. cbn. lia.
Qed.
End threads.
