(* ===== verification/SqlToken.v ===== *)
(** * SQL tokens (common/utils/sqlparser/token.go)

    The token enumeration, its printed names, the keyword table, operator precedence and source
    positions. A Go [Token] is an [int] numbered by [iota]; [all_tokens] lists the constants in
    that order and [tok_index] is the number Go gives them, so that the range tests of the source
    ([tok > literal_beg && tok < literal_end]) are range tests on the same numbers here. *)

From stdpp Require Import base list strings numbers option.
From S2P Require Import Prelude.

(** ** The enumeration *)

Inductive Token : Type :=
  | ILLEGAL | EOF | COMMENT | SPACE | literal_beg | IDENT | QIDENT | STRING | BLOB | FLOAT
  | INTEGER | MLCOMMENT | NULL | TRUE | FALSE | BIND | literal_end | operator_beg | SEMI | LP
  | RP | COMMA | NE | EQ | LE | LG | LT | GT | GE | BITAND | BITOR | BITNOT | LSHIFT | RSHIFT
  | PLUS | MINUS | STAR | SLASH | REM | CONCAT | DOT | operator_end | keyword_beg | ABORT
  | ACTION | ADD | AFTER | AGG_COLUMN | AGG_FUNCTION | ALL | ALTER | ANALYZE | AND | AS | ASC
  | ASTERISK | ATTACH | AUTOINCREMENT | BEFORE | BEGIN | BETWEEN | BY | CASCADE | CASE | CAST
  | CHECK | COLUMN | COLUMNKW | COMMIT | CONFLICT | CONSTRAINT | CREATE | CROSS | CTIME_KW
  | CURRENT | CURRENT_TIME | CURRENT_DATE | CURRENT_TIMESTAMP | DATABASE | DEFAULT | DEFERRABLE
  | DEFERRED | DELETE | DESC | DETACH | DISTINCT | DO | DROP | EACH | ELSE | END | ESCAPE
  | EXCEPT | EXCLUDE | EXCLUSIVE | EXISTS | EXPLAIN | FAIL | FILTER | FIRST | FOLLOWING | FOR
  | FOREIGN | FROM | FUNCTION | GLOB | GROUP | GROUPS | HAVING | IF | IF_NULL_ROW | IGNORE
  | IMMEDIATE | IN | INDEX | INDEXED | INITIALLY | INNER | INSERT | INSTEAD | INTERSECT | INTO
  | IS | ISNOT | ISNULL | JOIN | KEY | LAST | LEFT | LIKE | LIMIT | MATCH | NATURAL | NO | NOT
  | NOTBETWEEN | NOTEXISTS | NOTGLOB | NOTHING | NOTIN | NOTLIKE | NOTMATCH | NOTNULL
  | NOTREGEXP | NULLS | OF | OFFSET | ON | ONLY | OR | ORDER | OTHERS | OUTER | OVER
  | OVERRIDING | PARTITION | PLAN | PRAGMA | PRECEDING | PRIMARY | QUERY | RAISE | RANGE
  | RECURSIVE | REFERENCES | REGEXP | REGISTER | REINDEX | RELEASE | RENAME | RESTRICT
  | RETURNING | ROLLBACK | ROW | ROWS | SELECT | SELECT_COLUMN | SET | SPAN | SYSTEM | TABLE
  | TEMP | THEN | TIES | TO | TRANSACTION | TRIGGER | TRUTH | UNBOUNDED | UNION | UNIQUE
  | UPDATE | USER | USING | VACUUM | VALUE | VALUES | VARIABLE | VECTOR | VIEW | VIRTUAL | WHEN
  | WHERE | WINDOW | WITH | WITHOUT | FETCH | NEXT | keyword_end | ANY | token_end.

Definition all_tokens : list Token :=
  [
   ILLEGAL; EOF; COMMENT; SPACE; literal_beg; IDENT; QIDENT; STRING; BLOB; FLOAT; INTEGER;
   MLCOMMENT; NULL; TRUE; FALSE; BIND; literal_end; operator_beg; SEMI; LP; RP; COMMA; NE; EQ;
   LE; LG; LT; GT; GE; BITAND; BITOR; BITNOT; LSHIFT; RSHIFT; PLUS; MINUS; STAR; SLASH; REM;
   CONCAT; DOT; operator_end; keyword_beg; ABORT; ACTION; ADD; AFTER; AGG_COLUMN; AGG_FUNCTION;
   ALL; ALTER; ANALYZE; AND; AS; ASC; ASTERISK; ATTACH; AUTOINCREMENT; BEFORE; BEGIN; BETWEEN;
   BY; CASCADE; CASE; CAST; CHECK; COLUMN; COLUMNKW; COMMIT; CONFLICT; CONSTRAINT; CREATE;
   CROSS; CTIME_KW; CURRENT; CURRENT_TIME; CURRENT_DATE; CURRENT_TIMESTAMP; DATABASE; DEFAULT;
   DEFERRABLE; DEFERRED; DELETE; DESC; DETACH; DISTINCT; DO; DROP; EACH; ELSE; END; ESCAPE;
   EXCEPT; EXCLUDE; EXCLUSIVE; EXISTS; EXPLAIN; FAIL; FILTER; FIRST; FOLLOWING; FOR; FOREIGN;
   FROM; FUNCTION; GLOB; GROUP; GROUPS; HAVING; IF; IF_NULL_ROW; IGNORE; IMMEDIATE; IN; INDEX;
   INDEXED; INITIALLY; INNER; INSERT; INSTEAD; INTERSECT; INTO; IS; ISNOT; ISNULL; JOIN; KEY;
   LAST; LEFT; LIKE; LIMIT; MATCH; NATURAL; NO; NOT; NOTBETWEEN; NOTEXISTS; NOTGLOB; NOTHING;
   NOTIN; NOTLIKE; NOTMATCH; NOTNULL; NOTREGEXP; NULLS; OF; OFFSET; ON; ONLY; OR; ORDER;
   OTHERS; OUTER; OVER; OVERRIDING; PARTITION; PLAN; PRAGMA; PRECEDING; PRIMARY; QUERY; RAISE;
   RANGE; RECURSIVE; REFERENCES; REGEXP; REGISTER; REINDEX; RELEASE; RENAME; RESTRICT;
   RETURNING; ROLLBACK; ROW; ROWS; SELECT; SELECT_COLUMN; SET; SPAN; SYSTEM; TABLE; TEMP; THEN;
   TIES; TO; TRANSACTION; TRIGGER; TRUTH; UNBOUNDED; UNION; UNIQUE; UPDATE; USER; USING;
   VACUUM; VALUE; VALUES; VARIABLE; VECTOR; VIEW; VIRTUAL; WHEN; WHERE; WINDOW; WITH; WITHOUT;
   FETCH; NEXT; keyword_end; ANY; token_end
  ].

Fixpoint index_from {A} (eqb : A -> A -> bool) (x : A) (l : list A) (i : Z) : Z :=
  match l with
  | [] => -1
  | y :: l => if eqb x y then i else index_from eqb x l (i + 1)
  end.

(** Boolean equality generated from the enumeration. *)
Scheme Boolean Equality for Token.

Definition tok_index (t : Token) : Z := index_from Token_beq t all_tokens 0.

(** The [tokens] array; the range markers and [ANY] have no entry. *)
Definition tokens (t : Token) : gostring :=
  match t with
  | ILLEGAL => str "ILLEGAL"
  | EOF => str "EOF"
  | COMMENT => str "COMMENT"
  | SPACE => str "SPACE"
  | IDENT => str "IDENT"
  | QIDENT => str "QIDENT"
  | STRING => str "STRING"
  | BLOB => str "BLOB"
  | FLOAT => str "FLOAT"
  | INTEGER => str "INTEGER"
  | MLCOMMENT => str "MLCOMMENT"
  | NULL => str "NULL"
  | TRUE => str "TRUE"
  | FALSE => str "FALSE"
  | BIND => str "BIND"
  | SEMI => str ";"
  | LP => str "("
  | RP => str ")"
  | COMMA => str ","
  | NE => str "!="
  | EQ => str "="
  | LE => str "<="
  | LG => str "<>"
  | LT => str "<"
  | GT => str ">"
  | GE => str ">="
  | BITAND => str "&"
  | BITOR => str "|"
  | BITNOT => str "!"
  | LSHIFT => str "<<"
  | RSHIFT => str ">>"
  | PLUS => str "+"
  | MINUS => str "-"
  | STAR => str "*"
  | SLASH => str "/"
  | REM => str "%"
  | CONCAT => str "||"
  | DOT => str "."
  | ABORT => str "ABORT"
  | ACTION => str "ACTION"
  | ADD => str "ADD"
  | AFTER => str "AFTER"
  | AGG_COLUMN => str "AGG_COLUMN"
  | AGG_FUNCTION => str "AGG_FUNCTION"
  | ALL => str "ALL"
  | ALTER => str "ALTER"
  | ANALYZE => str "ANALYZE"
  | AND => str "AND"
  | AS => str "AS"
  | ASC => str "ASC"
  | ASTERISK => str "ASTERISK"
  | ATTACH => str "ATTACH"
  | AUTOINCREMENT => str "AUTOINCREMENT"
  | BEFORE => str "BEFORE"
  | BEGIN => str "BEGIN"
  | BETWEEN => str "BETWEEN"
  | BY => str "BY"
  | CASCADE => str "CASCADE"
  | CASE => str "CASE"
  | CAST => str "CAST"
  | CHECK => str "CHECK"
  | COLUMN => str "COLUMN"
  | COLUMNKW => str "COLUMNKW"
  | COMMIT => str "COMMIT"
  | CONFLICT => str "CONFLICT"
  | CONSTRAINT => str "CONSTRAINT"
  | CREATE => str "CREATE"
  | CROSS => str "CROSS"
  | CTIME_KW => str "CTIME_KW"
  | CURRENT => str "CURRENT"
  | CURRENT_TIME => str "CURRENT_TIME"
  | CURRENT_DATE => str "CURRENT_DATE"
  | CURRENT_TIMESTAMP => str "CURRENT_TIMESTAMP"
  | DATABASE => str "DATABASE"
  | DEFAULT => str "DEFAULT"
  | DEFERRABLE => str "DEFERRABLE"
  | DEFERRED => str "DEFERRED"
  | DELETE => str "DELETE"
  | DESC => str "DESC"
  | DETACH => str "DETACH"
  | DISTINCT => str "DISTINCT"
  | DO => str "DO"
  | DROP => str "DROP"
  | EACH => str "EACH"
  | ELSE => str "ELSE"
  | END => str "END"
  | ESCAPE => str "ESCAPE"
  | EXCEPT => str "EXCEPT"
  | EXCLUDE => str "EXCLUDE"
  | EXCLUSIVE => str "EXCLUSIVE"
  | EXISTS => str "EXISTS"
  | EXPLAIN => str "EXPLAIN"
  | FAIL => str "FAIL"
  | FILTER => str "FILTER"
  | FIRST => str "FIRST"
  | FOLLOWING => str "FOLLOWING"
  | FOR => str "FOR"
  | FOREIGN => str "FOREIGN"
  | FROM => str "FROM"
  | FUNCTION => str "FUNCTION"
  | GLOB => str "GLOB"
  | GROUP => str "GROUP"
  | GROUPS => str "GROUPS"
  | HAVING => str "HAVING"
  | IF => str "IF"
  | IF_NULL_ROW => str "IF_NULL_ROW"
  | IGNORE => str "IGNORE"
  | IMMEDIATE => str "IMMEDIATE"
  | IN => str "IN"
  | INDEX => str "INDEX"
  | INDEXED => str "INDEXED"
  | INITIALLY => str "INITIALLY"
  | INNER => str "INNER"
  | INSERT => str "INSERT"
  | INSTEAD => str "INSTEAD"
  | INTERSECT => str "INTERSECT"
  | INTO => str "INTO"
  | IS => str "IS"
  | ISNOT => str "ISNOT"
  | ISNULL => str "ISNULL"
  | JOIN => str "JOIN"
  | KEY => str "KEY"
  | LAST => str "LAST"
  | LEFT => str "LEFT"
  | LIKE => str "LIKE"
  | LIMIT => str "LIMIT"
  | MATCH => str "MATCH"
  | NATURAL => str "NATURAL"
  | NO => str "NO"
  | NOT => str "NOT"
  | NOTBETWEEN => str "NOTBETWEEN"
  | NOTEXISTS => str "NOTEXISTS"
  | NOTGLOB => str "NOTGLOB"
  | NOTHING => str "NOTHING"
  | NOTIN => str "NOTIN"
  | NOTLIKE => str "NOTLIKE"
  | NOTMATCH => str "NOTMATCH"
  | NOTNULL => str "NOTNULL"
  | NOTREGEXP => str "NOTREGEXP"
  | NULLS => str "NULLS"
  | OF => str "OF"
  | OFFSET => str "OFFSET"
  | ON => str "ON"
  | ONLY => str "ONLY"
  | OR => str "OR"
  | ORDER => str "ORDER"
  | OTHERS => str "OTHERS"
  | OUTER => str "OUTER"
  | OVER => str "OVER"
  | OVERRIDING => str "OVERRIDING"
  | PARTITION => str "PARTITION"
  | PLAN => str "PLAN"
  | PRAGMA => str "PRAGMA"
  | PRECEDING => str "PRECEDING"
  | PRIMARY => str "PRIMARY"
  | QUERY => str "QUERY"
  | RAISE => str "RAISE"
  | RANGE => str "RANGE"
  | RECURSIVE => str "RECURSIVE"
  | REFERENCES => str "REFERENCES"
  | REGEXP => str "REGEXP"
  | REGISTER => str "REGISTER"
  | REINDEX => str "REINDEX"
  | RELEASE => str "RELEASE"
  | RENAME => str "RENAME"
  | RESTRICT => str "RESTRICT"
  | RETURNING => str "RETURNING"
  | ROLLBACK => str "ROLLBACK"
  | ROW => str "ROW"
  | ROWS => str "ROWS"
  | SELECT => str "SELECT"
  | SELECT_COLUMN => str "SELECT_COLUMN"
  | SET => str "SET"
  | SPAN => str "SPAN"
  | SYSTEM => str "SYSTEM"
  | TABLE => str "TABLE"
  | TEMP => str "TEMP"
  | THEN => str "THEN"
  | TIES => str "TIES"
  | TO => str "TO"
  | TRANSACTION => str "TRANSACTION"
  | TRIGGER => str "TRIGGER"
  | TRUTH => str "TRUTH"
  | UNBOUNDED => str "UNBOUNDED"
  | UNION => str "UNION"
  | UNIQUE => str "UNIQUE"
  | UPDATE => str "UPDATE"
  | USER => str "USER"
  | USING => str "USING"
  | VACUUM => str "VACUUM"
  | VALUE => str "VALUE"
  | VALUES => str "VALUES"
  | VARIABLE => str "VARIABLE"
  | VECTOR => str "VECTOR"
  | VIEW => str "VIEW"
  | VIRTUAL => str "VIRTUAL"
  | WHEN => str "WHEN"
  | WHERE => str "WHERE"
  | WINDOW => str "WINDOW"
  | WITH => str "WITH"
  | WITHOUT => str "WITHOUT"
  | FETCH => str "FETCH"
  | NEXT => str "NEXT"
  | _ => []
  end.

(** ** Equality *)

Definition tok_of_index (i : Z) : option Token :=
  if i <? 0 then None else all_tokens !! Z.to_nat i.

Lemma tok_of_index_index t : tok_of_index (tok_index t) = Some t.
Proof. destruct t; vm_compute; reflexivity. Qed.

#[global] Instance tok_index_inj : Inj (=) (=) tok_index.
Proof.
  intros t1 t2 Heq. apply (inj Some). by rewrite <- !tok_of_index_index, Heq.
Qed.

#[global] Instance Token_eq_dec : EqDecision Token.
Proof.
  intros t1 t2. destruct (decide (tok_index t1 = tok_index t2)) as [Heq|Hne].
  - left. by apply (inj tok_index).
  - right. congruence.
Defined.

(** Go's [==] on tokens. *)
Definition tokeqb (a b : Token) : bool := tok_index a =? tok_index b.

Notation "a =t b" := (tokeqb a b) (at level 70, no associativity) : go_scope.

Lemma tokeqb_spec a b : reflect (a = b) (a =t b).
Proof.
  unfold tokeqb. destruct (Z.eqb_spec (tok_index a) (tok_index b)) as [Heq|Hne]; constructor.
  - by apply (inj tok_index).
  - congruence.
Qed.

(** A [case] with several tokens. *)
Definition tok_in (t : Token) (l : list Token) : bool := existsb (tokeqb t) l.

Lemma tokeqb_refl a : (a =t a) = true.
Proof. unfold tokeqb. apply Z.eqb_refl. Qed.

(** ** Names, literals and keywords *)

(** [len(tokens)]: the array literal's last key is [NEXT]. *)
Definition len_tokens : Z := tok_index NEXT + 1.

(** [Token.String] *)
Definition Token_String (tok : Token) : gostring :=
  let s := if (0 <=? tok_index tok) && (tok_index tok <? len_tokens) then tokens tok else [] in
  if s =s [] then str "token(" ++ itoa (tok_index tok) ++ str ")" else s.

(** The keys of the [keywords] map built by [init], in the order they are stored. *)
Definition keywords : list Token :=
  filter (fun t => Is_true ((tok_index keyword_beg + 1 <=? tok_index t)
                            && (tok_index t <? tok_index keyword_end))) all_tokens
  ++ [NULL; TRUE; FALSE].

(** [strings.ToUpper] on ASCII text. [Lookup] is only called by the lexer, on text made of
    ASCII letters, digits and underscores. *)
Definition upper_rune (c : rune) : rune := if (97 <=? c) && (c <=? 122) then c - 32 else c.
Definition ToUpper (s : gostring) : gostring := map upper_rune s.

(** [Lookup]: the keyword an identifier spells, [IDENT] otherwise. A later store in the map
    replaces an earlier one, so the last match is taken. *)
Definition Lookup (ident : gostring) : Token :=
  match List.find (fun t => tokens t =s ToUpper ident) (rev keywords) with
  | Some tok => tok
  | None => IDENT
  end.

Definition IsLiteral (tok : Token) : bool :=
  (tok_index literal_beg <? tok_index tok) && (tok_index tok <? tok_index literal_end).

Definition IsBinaryOp (tok : Token) : bool :=
  match tok with
  | PLUS | MINUS | STAR | SLASH | REM | CONCAT | NOT | BETWEEN
  | LSHIFT | RSHIFT | BITAND | BITOR | LT | LG | LE | GT | GE | EQ | NE
  | IS | IN | LIKE | GLOB | MATCH | REGEXP | AND | OR => true
  | _ => false
  end.

Definition isIdentToken (tok : Token) : bool := (tok =t IDENT) || (tok =t QIDENT).

(** ** Precedence *)

Definition LowestPrec : Z := 0.
Definition UnaryPrec : Z := 13.
Definition HighestPrec : Z := 14.

Definition Precedence (op : Token) : Z :=
  match op with
  | OR => 1
  | AND => 2
  | NOT => 3
  | IS | MATCH | LIKE | GLOB | REGEXP | BETWEEN | IN | ISNULL | NOTNULL | NE | LG | EQ => 4
  | GT | LE | LT | GE => 5
  | ESCAPE => 6
  | BITAND | BITOR | LSHIFT | RSHIFT => 7
  | PLUS | MINUS => 8
  | STAR | SLASH | REM => 9
  | CONCAT => 10
  | BITNOT => 11
  | _ => LowestPrec
  end.

(** ** Positions *)

Record Pos := mkPos { Offset : Z; Line : Z; Column : Z }.

#[global] Instance Pos_eq_dec : EqDecision Pos.
Proof. solve_decision. Defined.

(** The zero value [Pos{}]. *)
Definition zeroPos : Pos := mkPos 0 0 0.

Definition Pos_IsValid (p : Pos) : bool := bool_decide (p ≠ zeroPos).

Definition Pos_String (p : Pos) : gostring :=
  if Pos_IsValid p then
    itoa (Line p) ++ (if Column p =? 0 then [] else str ":" ++ itoa (Column p))
  else str "-".

(** ** The keyword table *)

(** No two keywords are spelled alike, so the order of the stores in [init] is irrelevant. *)
Lemma keywords_nodup : NoDup (map tokens keywords).
Proof. apply (bool_decide_unpack _). by vm_compute. Qed.

(** A keyword's name, in any case, is looked up to that keyword. *)
Lemma Lookup_keyword t s :
  t ∈ keywords -> ToUpper s = tokens t -> Lookup s = t.
Proof.
  intros Hin Heq. unfold Lookup. rewrite Heq. clear Heq.
  assert (Hall : Forall (fun t => match List.find (fun t' => tokens t' =s tokens t) (rev keywords)
    with Some tok => tok | None => IDENT end = t) keywords).
  { apply (bool_decide_unpack _). by vm_compute. }
  apply list_elem_of_In in Hin. exact (proj1 (Forall_forall _ _) Hall t Hin).
Qed.

(** What [Lookup] returns is a keyword or [IDENT]. *)
Lemma Lookup_range s : Lookup s = IDENT \/ Lookup s ∈ keywords.
Proof.
  unfold Lookup. destruct (List.find _ _) eqn:Hf; [right|by left].
  apply find_some in Hf as [Hin _]. by apply list_elem_of_In, in_rev.
Qed.

(** Precedence is zero exactly for the tokens that cannot continue an expression, and never
    exceeds [UnaryPrec]. *)
Lemma Precedence_bounds t : LowestPrec <= Precedence t < UnaryPrec.
Proof. destruct t; unfold Precedence, LowestPrec, UnaryPrec; lia. Qed.

#[global] Opaque Lookup.
#[global] Arguments tok_index : simpl never.
#[global] Arguments tokeqb : simpl never.

(** Evaluates the token comparisons between constants in the goal. *)
Ltac tok_eval :=
  repeat match goal with
  | |- context [tokeqb ?a ?b] =>
      is_constructor a; is_constructor b;
      let r := eval vm_compute in (tokeqb a b) in
      change (tokeqb a b) with r
  | H : context [tokeqb ?a ?b] |- _ =>
      is_constructor a; is_constructor b;
      let r := eval vm_compute in (tokeqb a b) in
      change (tokeqb a b) with r in H
  end.

Lemma Lookup_not t s : t ∉ keywords -> t ≠ IDENT -> Lookup s ≠ t.
Proof. intros Hk Hi <-. destruct (Lookup_range s) as [H|H]; [exact (Hi H)|exact (Hk H)]. Qed.
