(* ===== verification/SqlLexer.v ===== *)
(** * The SQL lexer (common/utils/sqlparser/lexer.go)

    The lexer is a buffered reader: [read] takes the next rune from the underlying reader (or the
    one pushed back), [unread] pushes the last rune back, [peek] is a read followed by an unread.
    It is modelled as that state machine: [Lexer] has the fields of the Go struct (the runes the
    reader still holds, the last rune, its position and the push-back flag). The field [buf] is
    reset at the entry of every routine that uses it, so it is a local accumulator here.

    The reader delivers the runes of the input and then fails with [io.EOF] forever, as
    [bufio.Reader] over a [strings.Reader] does.

    [SqlLexSpec] defines the same language as a structural function on the rune sequence and shows
    that this machine implements it. *)

From stdpp Require Import base list strings numbers option.
From S2P Require Import Prelude SqlToken.

(** ** State *)

Record Lexer := mkLexer {
  l_r : list rune;      (* runes not yet taken from the reader *)
  l_ch : rune;          (* last rune read, -1 at end of input *)
  l_pos : Pos;
  l_full : bool         (* the last rune was pushed back *)
}.

(** Lexer methods return no error values. *)
Abbreviation LexM := (stM Lexer Empty_set).

Definition NewLexer (input : gostring) : Lexer :=
  mkLexer input 0 (mkPos (-1) 1 0) false.

(** ** Rune classes *)

(** [unicode.IsSpace]: the Latin-1 spaces and the Unicode White_Space table. *)
Definition IsSpace (ch : rune) : bool :=
  ((9 <=? ch) && (ch <=? 13)) || (ch =? 32) || (ch =? 0x85) || (ch =? 0xA0)
  || (ch =? 0x1680) || ((0x2000 <=? ch) && (ch <=? 0x200a)) || (ch =? 0x2028) || (ch =? 0x2029)
  || (ch =? 0x202f) || (ch =? 0x205f) || (ch =? 0x3000).

Definition isDigit (ch : rune) : bool := (chr "0" <=? ch) && (ch <=? chr "9").

Definition isAlpha (ch : rune) : bool :=
  ((chr "a" <=? ch) && (ch <=? chr "z")) || ((chr "A" <=? ch) && (ch <=? chr "Z")).

Definition isHex (ch : rune) : bool :=
  isDigit ch || ((chr "a" <=? ch) && (ch <=? chr "f")) || ((chr "A" <=? ch) && (ch <=? chr "F")).

Definition isUnquotedIdent (ch : rune) : bool := isAlpha ch || isDigit ch || (ch =? chr "_").

(** [IsInteger]: non-empty and made of digits. *)
Definition IsInteger (s : gostring) : bool := forallb isDigit s && negb (s =s []).

(** [strings.Trim(s, " ")] *)
Fixpoint trim_left (s : gostring) : gostring :=
  match s with
  | c :: s' => if c =? chr " " then trim_left s' else s
  | [] => []
  end.

Definition Trim_spaces (s : gostring) : gostring := rev (trim_left (rev (trim_left s))).

(** ** Reading runes *)

Definition assert {S E} (condition : bool) : stM S E unit :=
  if condition then ret tt else panic (str "assert failed").

(** The position after one more rune. *)
Definition advance (p : Pos) (ch : rune) : Pos :=
  if ch =? 10 then mkPos (Offset p + 1) (Line p + 1) 0
  else mkPos (Offset p + 1) (Line p) (Column p + 1).

Definition read : LexM (rune * Pos) := fun l =>
  if l_full l then Ok ((l_ch l, l_pos l), mkLexer (l_r l) (l_ch l) (l_pos l) false)
  else match l_r l with
  | [] => Ok ((-1, l_pos l), mkLexer [] (-1) (l_pos l) false)
  | ch :: r =>
      let pos := advance (l_pos l) ch in
      Ok ((ch, pos), mkLexer r ch pos false)
  end.

Definition unread : LexM unit :=
  full ← gets l_full;
  _ ← assert (negb full);
  modify (fun l => mkLexer (l_r l) (l_ch l) (l_pos l) true).

Definition peek : LexM rune :=
  full ← gets l_full;
  _ ← (if full then ret tt else (_ ← read; unread));
  gets l_ch.

(** Enough iterations for every loop below: each one takes a rune, the buffered one included. *)
Definition lex_fuel (l : Lexer) : nat := S (S (length (l_r l))).

(** ** Token routines *)

(** [for f(l.peek()) { ch, _ := l.read(); l.buf.WriteRune(ch) }] *)
Fixpoint readWhile (f : rune -> bool) (n : nat) (buf : gostring) : LexM gostring :=
  match n with
  | O => out_of_fuel
  | S n =>
      ch ← peek;
      if f ch then
        '(ch, _) ← read;
        readWhile f n (buf ++ [ch])
      else ret buf
  end.

(** [for ch, _ := l.read(); isUnquotedIdent(ch); ch, _ = l.read() { WriteRune(ch) }] *)
Fixpoint readIdent (n : nat) (buf : gostring) : LexM gostring :=
  match n with
  | O => out_of_fuel
  | S n =>
      '(ch, _) ← read;
      if isUnquotedIdent ch then readIdent n (buf ++ [ch]) else ret buf
  end.

Definition lexUnquotedIdent (pos : Pos) (prefix : gostring) : LexM (Pos * Token * gostring) :=
  ch ← peek;
  _ ← assert (isUnquotedIdent ch);
  n ← gets lex_fuel;
  lit ← readIdent n prefix;
  _ ← unread;
  ret (pos, Lookup lit, lit).

Fixpoint lexQuotedIdent_loop (char : rune) (pos : Pos) (n : nat) (buf : gostring)
    : LexM (Pos * Token * gostring) :=
  match n with
  | O => out_of_fuel
  | S n =>
      '(ch, _) ← read;
      if ch =? -1 then ret (pos, ILLEGAL, buf)
      else if ch =? char then
        nxt ← peek;
        if nxt =? char then (* escaped quote *)
          _ ← read;
          lexQuotedIdent_loop char pos n (buf ++ [char])
        else ret (pos, QIDENT, buf ++ [char])
      else lexQuotedIdent_loop char pos n (buf ++ [ch])
  end.

Definition lexQuotedIdent (char : rune) : LexM (Pos * Token * gostring) :=
  '(ch, pos) ← read;
  _ ← assert (ch =? char);
  n ← gets lex_fuel;
  lexQuotedIdent_loop char pos n [char].

Fixpoint lexString_loop (pos : Pos) (n : nat) (buf : gostring) : LexM (Pos * Token * gostring) :=
  match n with
  | O => out_of_fuel
  | S n =>
      '(ch, _) ← read;
      if ch =? -1 then ret (pos, ILLEGAL, str "'" ++ buf)
      else if ch =? chr "'" then
        nxt ← peek;
        if nxt =? chr "'" then (* escaped quote *)
          _ ← read;
          lexString_loop pos n (buf ++ [chr "'"])
        else ret (pos, STRING, buf)
      else lexString_loop pos n (buf ++ [ch])
  end.

Definition lexString : LexM (Pos * Token * gostring) :=
  '(ch, pos) ← read;
  _ ← assert (ch =? chr "'");
  n ← gets lex_fuel;
  lexString_loop pos n [].

Fixpoint lexMultilineComment_loop (pos : Pos) (n : nat) (buf : gostring)
    : LexM (Pos * Token * gostring) :=
  match n with
  | O => out_of_fuel
  | S n =>
      '(ch, _) ← read;
      if ch =? -1 then ret (pos, ILLEGAL, str "/*" ++ buf)
      else if ch =? chr "*" then
        nxt ← peek;
        if nxt =? chr "/" then
          _ ← read;
          _ ← read;
          ret (pos, MLCOMMENT, Trim_spaces buf)
        else lexMultilineComment_loop pos n (buf ++ [ch])
      else lexMultilineComment_loop pos n (buf ++ [ch])
  end.

Definition lexMultilineComment : LexM (Pos * Token * gostring) :=
  '(ch, pos) ← read;
  _ ← assert (ch =? chr "*");
  n ← gets lex_fuel;
  lexMultilineComment_loop pos n [].

Definition lexBind : LexM (Pos * Token * gostring) :=
  '(start, pos) ← read;
  n ← gets lex_fuel;
  if start =? chr "?" then
    buf ← readWhile isDigit n [start];
    ret (pos, BIND, buf)
  else
    _ ← assert ((start =? chr ":") || (start =? chr "@") || (start =? chr "$"));
    buf ← readWhile isUnquotedIdent n [start];
    ret (pos, BIND, buf).

Fixpoint lexBlob_loop (start : rune) (pos : Pos) (n : nat) (buf : gostring)
    : LexM (Pos * Token * gostring) :=
  match n with
  | O => out_of_fuel
  | S n =>
      '(ch, _) ← read;
      if ch =? chr "'" then ret (pos, BLOB, buf)
      else if ch =? -1 then ret (pos, ILLEGAL, [start] ++ str "'" ++ buf)
      else if negb (isHex ch) then ret (pos, ILLEGAL, [start] ++ str "'" ++ buf ++ [ch])
      else lexBlob_loop start pos n (buf ++ [ch])
  end.

Definition lexBlob : LexM (Pos * Token * gostring) :=
  '(start, pos) ← read;
  _ ← assert ((start =? chr "x") || (start =? chr "X"));
  (* If the next character is not a quote, it's an IDENT. *)
  nxt ← peek;
  if isUnquotedIdent nxt then lexUnquotedIdent pos [start]
  else
    nxt ← peek;
    if negb (nxt =? chr "'") then ret (pos, IDENT, [start])
    else
      '(ch, _) ← read;
      _ ← assert (ch =? chr "'");
      n ← gets lex_fuel;
      lexBlob_loop start pos n [].

(** The exponent part of a number: the sign, the digits, and whether they are well formed. *)
Definition lexExponent (pos : Pos) (buf : gostring) : LexM (Token * gostring) :=
  n ← gets lex_fuel;
  '(ch, _) ← read;
  let buf := buf ++ [ch] in
  nxt ← peek;
  if (nxt =? chr "+") || (nxt =? chr "-") then
    '(ch, _) ← read;
    let buf := buf ++ [ch] in
    nxt ← peek;
    if negb (isDigit nxt) then ret (ILLEGAL, buf)
    else
      buf ← readWhile isDigit n buf;
      ret (FLOAT, buf)
  else if isDigit nxt then
    buf ← readWhile isDigit n buf;
    ret (FLOAT, buf)
  else ret (ILLEGAL, buf).

Definition lexNumber : LexM (Pos * Token * gostring) :=
  ch ← peek;
  _ ← assert (isDigit ch || (ch =? chr "."));
  pos ← gets l_pos;
  n ← gets lex_fuel;
  (* Read whole number if starting with a digit. *)
  buf ← readWhile isDigit n [];
  (* Read decimal and successive digits. *)
  nxt ← peek;
  '(tok, buf) ← (if nxt =? chr "." then
      '(ch, _) ← read;
      buf ← readWhile isDigit n (buf ++ [ch]);
      ret (FLOAT, buf)
    else ret (INTEGER, buf));
  (* Read exponent with optional +/- sign. *)
  nxt ← peek;
  '(tok, lit) ← (if (nxt =? chr "e") || (nxt =? chr "E") then lexExponent pos buf
    else ret (tok, buf));
  if tok =t ILLEGAL then ret (pos, ILLEGAL, lit)
  else if lit =s str "." then ret (pos, DOT, lit)
  else ret (pos, tok, lit).

(** The [switch ch, pos := l.read(); ch] of [Lex]: punctuation. *)
Definition lexOperator : LexM (Pos * Token * gostring) :=
  '(ch, pos) ← read;
  if ch =? chr ";" then ret (pos, SEMI, str ";")
  else if ch =? chr "(" then ret (pos, LP, str "(")
  else if ch =? chr ")" then ret (pos, RP, str ")")
  else if ch =? chr "," then ret (pos, COMMA, str ",")
  else if ch =? chr "!" then
    nxt ← peek;
    if nxt =? chr "=" then (_ ← read; ret (pos, NE, str "!="))
    else ret (pos, BITNOT, str "!")
  else if ch =? chr "=" then ret (pos, EQ, str "=")
  else if ch =? chr "<" then
    nxt ← peek;
    if nxt =? chr "=" then (_ ← read; ret (pos, LE, str "<="))
    else if nxt =? chr "<" then (_ ← read; ret (pos, LSHIFT, str "<<"))
    else if nxt =? chr ">" then (_ ← read; ret (pos, LG, str "<>"))
    else ret (pos, LT, str "<")
  else if ch =? chr ">" then
    nxt ← peek;
    if nxt =? chr "=" then (_ ← read; ret (pos, GE, str ">="))
    else if nxt =? chr ">" then (_ ← read; ret (pos, RSHIFT, str ">>"))
    else ret (pos, GT, str ">")
  else if ch =? chr "&" then ret (pos, BITAND, str "&")
  else if ch =? chr "|" then
    nxt ← peek;
    if nxt =? chr "|" then (_ ← read; ret (pos, CONCAT, str "||"))
    else ret (pos, BITOR, str "|")
  else if ch =? chr "+" then ret (pos, PLUS, str "+")
  else if ch =? chr "-" then ret (pos, MINUS, str "-")
  else if ch =? chr "*" then ret (pos, STAR, str "*")
  else if ch =? chr "/" then
    nxt ← peek;
    if nxt =? chr "*" then lexMultilineComment
    else ret (pos, SLASH, str "/")
  else if ch =? chr "%" then ret (pos, REM, str "%")
  else ret (pos, ILLEGAL, [ch]).

Fixpoint Lex_loop (n : nat) : LexM (Pos * Token * gostring) :=
  match n with
  | O => out_of_fuel
  | S n =>
      ch ← peek;
      if ch =? -1 then (pos ← gets l_pos; ret (pos, EOF, []))
      else if IsSpace ch then (_ ← read; Lex_loop n)
      else if isDigit ch || (ch =? chr ".") then lexNumber
      else if (ch =? chr "x") || (ch =? chr "X") then lexBlob
      else if isAlpha ch || (ch =? chr "_") then (pos ← gets l_pos; lexUnquotedIdent pos [])
      else if (ch =? 34) || (ch =? chr "`") then lexQuotedIdent ch
      else if ch =? chr "'" then lexString
      else if (ch =? chr "?") || (ch =? chr ":") || (ch =? chr "@") || (ch =? chr "$") then lexBind
      else lexOperator
  end.

Definition Lex : LexM (Pos * Token * gostring) :=
  n ← gets lex_fuel;
  Lex_loop n.
