(* ===== verification/SqlLexSpec.v ===== *)
(** * The SQL lexer refines a reference lexer

    [lex_runes] is the token language of lexer.go as a structural function on runes: it returns
    how many runes were taken when the token's position was recorded, the token, its literal and
    the remaining runes. [Lex_refines] relates it to the push-back state machine of
    [SqlLexer]: same tokens, same remaining input, positions computed from the consumed prefix;
    the machine always returns (no assertion fails, no loop runs out of its fuel). *)

From stdpp Require Import base list strings numbers option.
From S2P Require Import Prelude SqlToken SqlLexer.

(** ** The reference lexer *)

Abbreviation hdr s := (List.hd (-1) s).

Fixpoint span (f : rune -> bool) (s : gostring) : gostring * gostring :=
  match s with
  | c :: s' => if f c then let '(a, b) := span f s' in (c :: a, b) else ([], s)
  | [] => ([], [])
  end.

(** The text of a literal delimited by [q] where a doubled [q] stands for itself, and what
    follows the closing delimiter; [None] when it is missing. *)
Fixpoint quoted (q : rune) (s : gostring) : gostring * option gostring :=
  match s with
  | [] => ([], None)
  | c :: s' =>
      if c =? q then
        match s' with
        | c' :: s'' =>
            if c' =? q then let '(a, r) := quoted q s'' in (q :: a, r) else ([], Some s')
        | [] => ([], Some [])
        end
      else let '(a, r) := quoted q s' in (c :: a, r)
  end.

(** The text of a comment after its opening. The machine takes one more rune after the closing. *)
Fixpoint comment (s : gostring) : gostring * option gostring :=
  match s with
  | [] => ([], None)
  | c :: s' =>
      if (c =? chr "*") && (hdr s' =? chr "/") then ([], Some (tail (tail s')))
      else let '(a, r) := comment s' in (c :: a, r)
  end.

(** Hexadecimal digits up to the closing quote, or the offending rune ([-1]: end of input). *)
Fixpoint hexes (s : gostring) : gostring * (rune * gostring) :=
  match s with
  | [] => ([], (-1, []))
  | c :: s' =>
      if c =? chr "'" then ([], (c, s'))
      else if isHex c then let '(a, r) := hexes s' in (c :: a, r) else ([], (c, s'))
  end.

Definition lex_exponent (buf s : gostring) : Token * gostring * gostring :=
  let buf := buf ++ [hdr s] in
  let s := tail s in
  if (hdr s =? chr "+") || (hdr s =? chr "-") then
    let buf := buf ++ [hdr s] in
    let s := tail s in
    if isDigit (hdr s) then
      let '(ds, s) := span isDigit s in (FLOAT, buf ++ ds, s)
    else (ILLEGAL, buf, s)
  else if isDigit (hdr s) then
    let '(ds, s) := span isDigit s in (FLOAT, buf ++ ds, s)
  else (ILLEGAL, buf, s).

Definition lex_number (s : gostring) : Token * gostring * gostring :=
  let '(ds, s) := span isDigit s in
  let '(tok, buf, s) :=
    if hdr s =? chr "." then
      let '(ds', s) := span isDigit (tail s) in (FLOAT, (ds ++ [hdr (str ".")]) ++ ds', s)
    else (INTEGER, ds, s) in
  let '(tok, lit, s) :=
    if (hdr s =? chr "e") || (hdr s =? chr "E") then lex_exponent buf s else (tok, buf, s) in
  if tok =t ILLEGAL then (ILLEGAL, lit, s)
  else if lit =s str "." then (DOT, lit, s)
  else (tok, lit, s).

Definition lex_ident (prefix s : gostring) : Token * gostring * gostring :=
  let '(a, s) := span isUnquotedIdent s in (Lookup (prefix ++ a), prefix ++ a, s).

Definition lex_blob (start : rune) (s : gostring) : Token * gostring * gostring :=
  if isUnquotedIdent (hdr s) then lex_ident [start] s
  else if negb (hdr s =? chr "'") then (IDENT, [start], s)
  else
    let '(a, (c, s)) := hexes (tail s) in
    if c =? chr "'" then (BLOB, a, s)
    else if c =? -1 then (ILLEGAL, [start] ++ str "'" ++ a, s)
    else (ILLEGAL, [start] ++ str "'" ++ a ++ [c], s).

Definition lex_quoted (q : rune) (s : gostring) : Token * gostring * gostring :=
  match quoted q s with
  | (a, Some s) => (QIDENT, q :: a ++ [q], s)
  | (a, None) => (ILLEGAL, q :: a, [])
  end.

Definition lex_string (s : gostring) : Token * gostring * gostring :=
  match quoted (chr "'") s with
  | (a, Some s) => (STRING, a, s)
  | (a, None) => (ILLEGAL, str "'" ++ a, [])
  end.

Definition lex_comment (s : gostring) : Token * gostring * gostring :=
  match comment s with
  | (a, Some s) => (MLCOMMENT, Trim_spaces a, s)
  | (a, None) => (ILLEGAL, str "/*" ++ a, [])
  end.

Definition lex_bind (start : rune) (s : gostring) : Token * gostring * gostring :=
  let '(a, s) := span (if start =? chr "?" then isDigit else isUnquotedIdent) s in
  (BIND, start :: a, s).

(** Operators: a table of the two-rune ones, then the one-rune ones. *)
Definition two_rune_op (c d : rune) : option Token :=
  if (c =? chr "!") && (d =? chr "=") then Some NE
  else if (c =? chr "<") && (d =? chr "=") then Some LE
  else if (c =? chr "<") && (d =? chr "<") then Some LSHIFT
  else if (c =? chr "<") && (d =? chr ">") then Some LG
  else if (c =? chr ">") && (d =? chr "=") then Some GE
  else if (c =? chr ">") && (d =? chr ">") then Some RSHIFT
  else if (c =? chr "|") && (d =? chr "|") then Some CONCAT
  else None.

Definition one_rune_ops : list (rune * Token) :=
  [(chr ";", SEMI); (chr "(", LP); (chr ")", RP); (chr ",", COMMA); (chr "!", BITNOT);
   (chr "=", EQ); (chr "<", LT); (chr ">", GT); (chr "&", BITAND); (chr "|", BITOR);
   (chr "+", PLUS); (chr "-", MINUS); (chr "*", STAR); (chr "/", SLASH); (chr "%", REM)].

Definition lex_operator (c : rune) (s : gostring) : Token * gostring * gostring :=
  match two_rune_op c (hdr s) with
  | Some tok => (tok, [c; hdr s], tail s)
  | None =>
      match List.find (fun p => c =? p.1) one_rune_ops with
      | Some p => (p.2, [c], s)
      | None => (ILLEGAL, [c], s)
      end
  end.

(** One token starting at rune [c], which is not a space. *)
Definition lex_token (c : rune) (s : gostring) : nat * (Token * gostring * gostring) :=
  if isDigit c || (c =? chr ".") then (1%nat, lex_number (c :: s))
  else if (c =? chr "x") || (c =? chr "X") then (1%nat, lex_blob c s)
  else if isAlpha c || (c =? chr "_") then (1%nat, lex_ident [] (c :: s))
  else if (c =? 34) || (c =? chr "`") then (1%nat, lex_quoted c s)
  else if c =? chr "'" then (1%nat, lex_string s)
  else if (c =? chr "?") || (c =? chr ":") || (c =? chr "@") || (c =? chr "$") then
    (1%nat, lex_bind c s)
  else if (c =? chr "/") && (hdr s =? chr "*") then (2%nat, lex_comment (tail s))
  else (1%nat, lex_operator c s).

Fixpoint lex_runes (s : gostring) : nat * (Token * gostring * gostring) :=
  match s with
  | [] => (0%nat, (EOF, [], []))
  | c :: s' =>
      if IsSpace c then let '(k, r) := lex_runes s' in (S k, r) else lex_token c s'
  end.

(** ** The machine's state against the input *)

(** The position reached after a prefix of the input. *)
Definition pos_after (pre : gostring) : Pos := foldl advance (mkPos (-1) 1 0) pre.

(** [lexer_at pre l s]: lexer [l] has consumed [pre] and will deliver [s], the rune it holds
    pushed back included. *)
Definition lexer_at (pre : gostring) (l : Lexer) (s : gostring) : Prop :=
  Forall (fun c => 0 <= c) s /\
  if l_full l then
    l_pos l = pos_after (pre ++ take 1 s) /\
    match s with
    | [] => l_ch l = -1 /\ l_r l = []
    | c :: s' => l_ch l = c /\ l_r l = s'
    end
  else l_pos l = pos_after pre /\ l_r l = s.

Lemma NewLexer_at s : Forall (fun c => 0 <= c) s -> lexer_at [] (NewLexer s) s.
Proof. by intros. Qed.

Lemma pos_after_snoc pre c : pos_after (pre ++ [c]) = advance (pos_after pre) c.
Proof. unfold pos_after. by rewrite foldl_app. Qed.

Lemma lexer_at_fuel pre l s : lexer_at pre l s -> (length s < lex_fuel l)%nat.
Proof.
  unfold lexer_at, lex_fuel. intros [_ H]. destruct (l_full l).
  - destruct s; simpl; destruct_and!; subst; simpl; lia.
  - destruct_and!; subst; lia.
Qed.

Abbreviation lwp m Q l := (wp (S := Lexer) (E := Empty_set) m (fun _ => False) False Q l).

Lemma wp_read pre l s (Q : rune * Pos -> Lexer -> Prop) :
  lexer_at pre l s ->
  (forall l', lexer_at (pre ++ take 1 s) l' (tail s) -> l_full l' = false -> l_ch l' = hdr s ->
    Q (hdr s, pos_after (pre ++ take 1 s)) l') ->
  lwp read Q l.
Proof.
  intros [Hs H] HQ. unfold wp, read. destruct (l_full l) eqn:Hf.
  - destruct H as [Hp H]. rewrite Hp.
    destruct s as [|c s]; destruct H as [Hc Hr]; rewrite Hc, Hr; apply HQ; try done.
    split; [by inversion Hs|done].
  - destruct H as [Hp Hr]. rewrite Hr, Hp.
    destruct s as [|c s]; simpl.
    + rewrite <- (app_nil_r pre) at 1. apply HQ; simpl; rewrite ?app_nil_r; done.
    + rewrite <- pos_after_snoc. apply HQ; try done. split; [by inversion Hs|done].
Qed.

Lemma wp_unread pre l s (Q : unit -> Lexer -> Prop) :
  lexer_at (pre ++ take 1 s) l (tail s) -> Forall (fun c => 0 <= c) s ->
  l_full l = false -> l_ch l = hdr s ->
  (forall l', lexer_at pre l' s -> l_full l' = true -> l_ch l' = hdr s ->
    l_pos l' = pos_after (pre ++ take 1 s) -> Q tt l') ->
  lwp unread Q l.
Proof.
  intros [_ H] Hs Hf Hc HQ. rewrite Hf in H. destruct H as [Hp Hr].
  unfold unread, wp, bind, gets, assert. rewrite Hf. apply HQ; try done.
  split; [done|]. simpl. split; [done|]. by destruct s.
Qed.

Lemma wp_peek pre l s (Q : rune -> Lexer -> Prop) :
  lexer_at pre l s ->
  (forall l', lexer_at pre l' s -> l_full l' = true ->
    l_pos l' = pos_after (pre ++ take 1 s) -> Q (hdr s) l') ->
  lwp peek Q l.
Proof.
  intros H HQ. unfold peek. wp_step. apply wp_gets. wp_step.
  destruct (l_full l) eqn:Hf.
  - apply wp_ret, wp_gets. pose proof H as [_ H']. rewrite Hf in H'.
    destruct H' as [Hp H']. replace (l_ch l) with (hdr s) by (by destruct s; destruct_and!).
    by apply HQ.
  - wp_step. eapply wp_read; [done|]. intros l' Hl' Hf' Hc'.
    eapply wp_unread; try done; [by destruct H|]. intros l2 Hl2 Hf2 Hc2 Hp2.
    apply wp_gets. rewrite Hc2. by apply HQ.
Qed.

(** ** Loops *)

Lemma span_app f s : (span f s).1 ++ (span f s).2 = s.
Proof.
  induction s as [|c s IH]; simpl; [done|]. destruct (f c); [|done].
  destruct (span f s); simpl in *. by rewrite IH.
Qed.

(** The rune a lexer holds is not a rune of class [f] once a maximal span was taken. *)
Lemma readWhile_spec f n buf pre l s :
  f (-1) = false -> lexer_at pre l s -> (length s < n)%nat ->
  lwp (readWhile f n buf) (fun r l' =>
    r = buf ++ (span f s).1 /\ lexer_at (pre ++ (span f s).1) l' (span f s).2) l.
Proof.
  intros Hf1. revert buf pre l s. induction n as [|n IH]; intros buf pre l s Hl Hn; [lia|].
  simpl. wp_step. eapply wp_peek; [done|]. intros l1 Hl1 Hf _.
  destruct s as [|c s]; simpl.
  { rewrite Hf1. apply wp_ret. by rewrite !app_nil_r. }
  destruct (f c) eqn:Hc; [|apply wp_ret; by rewrite !app_nil_r].
  wp_step. eapply wp_read; [done|]. intros l2 Hl2 _ _. simpl in *.
  eapply wp_mono; [apply IH; [done|lia]| done | done |].
  intros r l'. destruct (span f s) as [a b]. simpl. rewrite <- !app_assoc. done.
Qed.

Lemma readIdent_spec n buf pre l s :
  lexer_at pre l s -> (length s < n)%nat ->
  lwp (readIdent n buf) (fun r l' =>
    r = buf ++ (span isUnquotedIdent s).1 /\
    let t := (span isUnquotedIdent s).2 in
    lexer_at ((pre ++ (span isUnquotedIdent s).1) ++ take 1 t) l' (tail t) /\
    l_full l' = false /\ l_ch l' = hdr t /\ Forall (fun c => 0 <= c) t) l.
Proof.
  revert buf pre l s. induction n as [|n IH]; intros buf pre l s Hl Hn; [lia|].
  pose proof (proj1 Hl) as Hs.
  simpl. wp_step. eapply wp_read; [done|]. intros l1 Hl1 Hf Hc1.
  destruct s as [|c s]; simpl.
  { apply wp_ret. rewrite !app_nil_r in *. done. }
  destruct (isUnquotedIdent c) eqn:Hc; [|apply wp_ret; by rewrite !app_nil_r].
  simpl in *. eapply wp_mono; [apply IH; [done|lia]| done | done |].
  intros r l'. destruct (span isUnquotedIdent s) as [a b]. simpl.
  rewrite <- !app_assoc. done.
Qed.

Lemma at_not_eof pre l c s : lexer_at pre l (c :: s) -> (c =? -1) = false.
Proof. intros [Hs _]. inversion Hs. apply Z.eqb_neq. lia. Qed.

Lemma take1_tail (s : gostring) : take 1 s ++ tail s = s.
Proof. by destruct s. Qed.

(** The outcome of a token routine that started with [whole] as consumed and remaining input. *)
Definition lexed (whole : gostring) (pos : Pos) (res : Token * gostring * gostring)
    (r : Pos * Token * gostring) (l' : Lexer) : Prop :=
  r = (pos, res.1.1, res.1.2) /\ exists pre', pre' ++ res.2 = whole /\ lexer_at pre' l' res.2.

Lemma lexUnquotedIdent_spec pos prefix pre l s :
  lexer_at pre l s -> isUnquotedIdent (hdr s) = true ->
  lwp (lexUnquotedIdent pos prefix) (lexed (pre ++ s) pos (lex_ident prefix s)) l.
Proof.
  intros Hl Hid. unfold lexUnquotedIdent, lex_ident.
  wp_step. eapply wp_peek; [done|]. intros l1 Hl1 _ _. rewrite Hid. simpl.
  wp_step. apply wp_ret. wp_step. apply wp_gets. wp_step.
  eapply wp_mono; [eapply readIdent_spec; [done|by eapply lexer_at_fuel]|done|done|].
  intros r l2 (-> & Hl2 & Hf & Hc & Hs). wp_step. eapply wp_unread; try done.
  intros l3 Hl3 _ _ _. apply wp_ret. pose proof (span_app isUnquotedIdent s) as Happ.
  destruct (span isUnquotedIdent s) as [a t]. simpl in *. subst s.
  split; [done|]. exists (pre ++ a). by rewrite <- app_assoc.
Qed.

Ltac rune_case :=
  lazymatch goal with
  | |- context [Z.eqb ?a ?b] =>
      let E := fresh "E" in destruct (Z.eqb_spec a b) as [E|E]; [try subst a|]
  end.

Lemma lexQuotedIdent_loop_spec q pos n buf pre l s :
  0 <= q -> lexer_at pre l s -> (length s < n)%nat ->
  lwp (lexQuotedIdent_loop q pos n buf) (lexed (pre ++ s) pos
    match quoted q s with
    | (a, Some s) => (QIDENT, buf ++ a ++ [q], s)
    | (a, None) => (ILLEGAL, buf ++ a, [])
    end) l.
Proof.
  intros Hq. revert buf pre l s. induction n as [|n IH]; intros buf pre l s Hl Hn; [lia|].
  cbn [lexQuotedIdent_loop]. wp_step. eapply wp_read; [done|]. intros l1 Hl1 _ _.
  destruct s as [|c s]; cbn [quoted hd take tail length] in *.
  { apply wp_ret. rewrite ?app_nil_r in *. split; [by rewrite ?app_nil_r|]. exists pre. by rewrite ?app_nil_r. }
  rewrite (at_not_eof _ _ _ _ Hl). rune_case.
  - wp_step. eapply wp_peek; [done|]. intros l2 Hl2 _ _. destruct s as [|d s]; cbn [hd take tail length] in *.
    { destruct (Z.eqb_spec (-1) q) as [?|_]; [lia|].
      apply wp_ret. split; [done|]. exists (pre ++ [q]). by rewrite app_nil_r. }
    destruct (Z.eqb_spec d q) as [->|Hd]; [|apply wp_ret; split; [done|]; exists (pre ++ [q]);
      by rewrite <- app_assoc].
    wp_step. eapply wp_read; [done|]. intros l3 Hl3 _ _. simpl in *.
    eapply wp_mono; [apply IH; [done|lia]|done|done|]. intros r l'. rewrite <- !app_assoc. simpl.
    by destruct (quoted q s) as [a [t|]]; simpl; rewrite <- ?app_assoc.
  - eapply wp_mono; [apply IH; [done|lia]|done|done|]. intros r l'. rewrite <- !app_assoc. simpl.
    by destruct (quoted q s) as [a [t|]]; simpl; rewrite <- ?app_assoc.
Qed.

Lemma lexString_loop_spec pos n buf pre l s :
  lexer_at pre l s -> (length s < n)%nat ->
  lwp (lexString_loop pos n buf) (lexed (pre ++ s) pos
    match quoted (chr "'") s with
    | (a, Some s) => (STRING, buf ++ a, s)
    | (a, None) => (ILLEGAL, str "'" ++ buf ++ a, [])
    end) l.
Proof.
  revert buf pre l s. induction n as [|n IH]; intros buf pre l s Hl Hn; [lia|].
  cbn [lexString_loop]. wp_step. eapply wp_read; [done|]. intros l1 Hl1 _ _.
  destruct s as [|c s]; cbn [quoted hd take tail length] in *.
  { apply wp_ret. rewrite ?app_nil_r in *. split; [by rewrite ?app_nil_r|]. exists pre. by rewrite ?app_nil_r. }
  rewrite (at_not_eof _ _ _ _ Hl). rune_case.
  - wp_step. eapply wp_peek; [done|]. intros l2 Hl2 _ _. destruct s as [|d s].
    { apply wp_ret. split; [by rewrite app_nil_r|]. exists (pre ++ [chr "'"]).
      by rewrite app_nil_r. }
    cbn [hd take tail length] in *.
    destruct (Z.eqb_spec d (chr "'")) as [->|Hd];
      [|apply wp_ret; split; [by rewrite app_nil_r|]; exists (pre ++ [chr "'"]);
      by rewrite <- app_assoc].
    wp_step. eapply wp_read; [done|]. intros l3 Hl3 _ _. cbn [hd take tail] in *.
    eapply wp_mono; [apply IH; [done|lia]|done|done|]. intros r l'. rewrite <- !app_assoc.
    by destruct (quoted (chr "'") s) as [a [t|]]; rewrite <- ?app_assoc.
  - eapply wp_mono; [apply IH; [done|lia]|done|done|]. intros r l'. rewrite <- !app_assoc.
    by destruct (quoted (chr "'") s) as [a [t|]]; rewrite <- ?app_assoc.
Qed.

Lemma lexMultilineComment_loop_spec pos n buf pre l s :
  lexer_at pre l s -> (length s < n)%nat ->
  lwp (lexMultilineComment_loop pos n buf) (lexed (pre ++ s) pos
    match comment s with
    | (a, Some s) => (MLCOMMENT, Trim_spaces (buf ++ a), s)
    | (a, None) => (ILLEGAL, str "/*" ++ buf ++ a, [])
    end) l.
Proof.
  revert buf pre l s. induction n as [|n IH]; intros buf pre l s Hl Hn; [lia|].
  cbn [lexMultilineComment_loop]. wp_step. eapply wp_read; [done|]. intros l1 Hl1 _ _.
  destruct s as [|c s]; cbn [comment hd take tail length] in *.
  { apply wp_ret. rewrite ?app_nil_r in *. split; [by rewrite ?app_nil_r|]. exists pre. by rewrite ?app_nil_r. }
  rewrite (at_not_eof _ _ _ _ Hl).
  assert (Hrec : forall l2, lexer_at (pre ++ [c]) l2 s ->
    lwp (lexMultilineComment_loop pos n (buf ++ [c])) (lexed (pre ++ c :: s) pos
      match (let '(a, r) := comment s in (c :: a, r)) with
      | (a, Some s) => (MLCOMMENT, Trim_spaces (buf ++ a), s)
      | (a, None) => (ILLEGAL, str "/*" ++ buf ++ a, [])
      end) l2).
  { intros l2 Hl2. eapply wp_mono; [apply IH; [done|lia]|done|done|]. intros r l'.
    rewrite <- !app_assoc. by destruct (comment s) as [a [t|]]; rewrite <- ?app_assoc. }
  destruct (c =? chr "*") eqn:Hstar; cbn [andb]; [|by apply Hrec].
  wp_step. eapply wp_peek; [done|]. intros l2 Hl2 _ _.
  destruct (hdr s =? chr "/") eqn:Hsl; [|by apply Hrec].
  wp_step. eapply wp_read; [done|]. intros l3 Hl3 _ _.
  wp_step. eapply wp_read; [done|]. intros l4 Hl4 _ _.
  apply wp_ret. split; [by rewrite app_nil_r|]. eexists. split; [|done]. simpl.
  by destruct s as [|d [|e s]]; rewrite <- !app_assoc.
Qed.

Lemma lexBlob_loop_spec start pos n buf pre l s :
  lexer_at pre l s -> (length s < n)%nat ->
  lwp (lexBlob_loop start pos n buf) (lexed (pre ++ s) pos
    (let '(a, (c, s)) := hexes s in
     if c =? chr "'" then (BLOB, buf ++ a, s)
     else if c =? -1 then (ILLEGAL, [start] ++ str "'" ++ buf ++ a, s)
     else (ILLEGAL, [start] ++ str "'" ++ (buf ++ a) ++ [c], s))) l.
Proof.
  revert buf pre l s. induction n as [|n IH]; intros buf pre l s Hl Hn; [lia|].
  cbn [lexBlob_loop]. wp_step. eapply wp_read; [done|]. intros l1 Hl1 _ _.
  destruct s as [|c s]; cbn [hexes hd take tail length] in *.
  { apply wp_ret. rewrite ?app_nil_r in *. split; [by rewrite ?app_nil_r|]. exists pre. by rewrite ?app_nil_r. }
  rewrite (at_not_eof _ _ _ _ Hl).
  destruct (c =? chr "'") eqn:Hq.
  { rewrite Hq. apply wp_ret. split; [by rewrite app_nil_r|]. exists (pre ++ [c]).
    by rewrite <- app_assoc. }
  destruct (isHex c) eqn:Hx; cbn [negb].
  - eapply wp_mono; [apply IH; [done|lia]|done|done|]. intros r l'.
    rewrite <- !app_assoc. destruct (hexes s) as [a [d t]].
    by repeat (case_match; rewrite <- ?app_assoc).
  - rewrite Hq. rewrite (at_not_eof _ _ _ _ Hl). apply wp_ret.
    split; [by rewrite app_nil_r|]. exists (pre ++ [c]). by rewrite <- app_assoc.
Qed.

(** ** Token routines *)

Ltac wp_read_as l H := wp_step; eapply wp_read; [eassumption|]; intros l H _ _;
  cbn [hd take tail] in *; rewrite ?take_0 in *.
Ltac wp_peek_as l H := wp_step; eapply wp_peek; [eassumption|]; intros l H _ _;
  cbn [hd take tail] in *; rewrite ?take_0 in *.
Ltac wp_fuel := wp_step; apply wp_gets.

Lemma lexQuotedIdent_spec q pre l s :
  lexer_at pre l (q :: s) ->
  lwp (lexQuotedIdent q) (lexed (pre ++ q :: s) (pos_after (pre ++ [q])) (lex_quoted q s)) l.
Proof.
  intros Hl. assert (0 <= q) by (by destruct Hl as [Hs _]; inversion Hs).
  unfold lexQuotedIdent, lex_quoted. wp_read_as l1 Hl1. rewrite Z.eqb_refl.
  wp_step. apply wp_ret. wp_fuel.
  eapply wp_mono; [apply lexQuotedIdent_loop_spec;
    [done|done|by eapply lexer_at_fuel]|done|done|].
  intros r l'. rewrite <- app_assoc. by destruct (quoted q s) as [a [t|]].
Qed.

Lemma lexString_spec pre l s :
  lexer_at pre l (chr "'" :: s) ->
  lwp lexString (lexed (pre ++ chr "'" :: s) (pos_after (pre ++ [chr "'"])) (lex_string s)) l.
Proof.
  intros Hl. unfold lexString, lex_string. wp_read_as l1 Hl1. rewrite Z.eqb_refl.
  wp_step. apply wp_ret. wp_fuel.
  eapply wp_mono; [apply lexString_loop_spec; [done|by eapply lexer_at_fuel]|done|done|].
  intros r l'. rewrite <- app_assoc. by destruct (quoted (chr "'") s) as [a [t|]].
Qed.

Lemma lexMultilineComment_spec pre l s :
  lexer_at pre l (chr "*" :: s) ->
  lwp lexMultilineComment
    (lexed (pre ++ chr "*" :: s) (pos_after (pre ++ [chr "*"])) (lex_comment s)) l.
Proof.
  intros Hl. unfold lexMultilineComment, lex_comment. wp_read_as l1 Hl1. rewrite Z.eqb_refl.
  wp_step. apply wp_ret. wp_fuel.
  eapply wp_mono; [apply lexMultilineComment_loop_spec; [done|by eapply lexer_at_fuel]|done|done|].
  intros r l'. rewrite <- app_assoc. by destruct (comment s) as [a [t|]].
Qed.

Lemma lexBind_spec start pre l s :
  (start =? chr "?") || (start =? chr ":") || (start =? chr "@") || (start =? chr "$") = true ->
  lexer_at pre l (start :: s) ->
  lwp lexBind (lexed (pre ++ start :: s) (pos_after (pre ++ [start])) (lex_bind start s)) l.
Proof.
  intros Hst Hl. unfold lexBind, lex_bind. wp_read_as l1 Hl1. wp_fuel.
  assert (Hfin : forall f, f (-1) = false ->
    lwp (buf ← readWhile f (lex_fuel l1) [start]; ret (pos_after (pre ++ [start]), BIND, buf))
      (lexed (pre ++ start :: s) (pos_after (pre ++ [start]))
        (let '(a, s) := span f s in (BIND, start :: a, s))) l1).
  { intros f Hf. wp_step. eapply wp_mono;
      [apply readWhile_spec; [done|done|by eapply lexer_at_fuel]|done|done|].
    intros r l' [-> Hl']. apply wp_ret. pose proof (span_app f s) as Happ.
    destruct (span f s) as [a t]. simpl in *. subst s. split; [done|].
    eexists. split; [|done]. by rewrite <- !app_assoc. }
  destruct (start =? chr "?"); [by apply Hfin|].
  simpl in Hst. rewrite Hst. wp_step. apply wp_ret. by apply Hfin.
Qed.

Lemma lexBlob_spec start pre l s :
  (start =? chr "x") || (start =? chr "X") = true ->
  lexer_at pre l (start :: s) ->
  lwp lexBlob (lexed (pre ++ start :: s) (pos_after (pre ++ [start])) (lex_blob start s)) l.
Proof.
  intros Hst Hl. unfold lexBlob, lex_blob. wp_read_as l1 Hl1. rewrite Hst.
  wp_step. apply wp_ret. wp_peek_as l2 Hl2.
  destruct (isUnquotedIdent (hdr s)) eqn:Hid.
  { eapply wp_mono; [by apply lexUnquotedIdent_spec|done|done|].
    intros r l'. by rewrite <- app_assoc. }
  wp_peek_as l3 Hl3. destruct (hdr s =? chr "'") eqn:Hq; cbn [negb].
  2:{ apply wp_ret. split; [done|]. eexists. split; [|done]. by rewrite <- app_assoc. }
  wp_read_as l4 Hl4. rewrite Hq. wp_step. apply wp_ret. wp_fuel.
  eapply wp_mono; [apply lexBlob_loop_spec; [done|by eapply lexer_at_fuel]|done|done|].
  intros r l'. rewrite <- !app_assoc. destruct s as [|c s]; [done|]. cbn [tail take app].
  destruct (hexes s) as [a [d t]]. simpl. by repeat case_match.
Qed.

Lemma lexDigits_spec n buf pre l s tok :
  lexer_at pre l s -> (length s < n)%nat ->
  lwp (buf ← readWhile isDigit n buf; ret (tok, buf)) (fun (r : Token * gostring) l' =>
    let '(ds, t) := span isDigit s in
    r = (tok, buf ++ ds) /\ exists pre', pre' ++ t = pre ++ s /\ lexer_at pre' l' t) l.
Proof.
  intros Hl Hn. wp_step. eapply wp_mono; [by apply readWhile_spec|done|done|].
  intros r l' [-> Hl']. apply wp_ret. pose proof (span_app isDigit s) as Happ.
  destruct (span isDigit s) as [ds t]. simpl in *. subst s. split; [done|].
  eexists. split; [|done]. by rewrite <- app_assoc.
Qed.

Lemma length_tail_lt {A} (s : list A) n : (length s < n)%nat -> (length (tail s) < n)%nat.
Proof. destruct s; simpl; lia. Qed.

Lemma lexExponent_spec pos buf pre l s :
  lexer_at pre l s ->
  lwp (lexExponent pos buf) (fun (r : Token * gostring) l' =>
    let '(tok, lit, t) := lex_exponent buf s in
    r = (tok, lit) /\ exists pre', pre' ++ t = pre ++ s /\ lexer_at pre' l' t) l.
Proof.
  intros Hl. unfold lexExponent, lex_exponent. pose proof (lexer_at_fuel _ _ _ Hl) as Hn.
  wp_fuel. wp_read_as l1 Hl1. wp_peek_as l2 Hl2.
  pose proof (length_tail_lt _ _ Hn) as Hn1.
  destruct ((hdr (tail s) =? chr "+") || (hdr (tail s) =? chr "-")).
  - wp_read_as l3 Hl3. wp_peek_as l4 Hl4.
    destruct (isDigit (hdr (tail (tail s)))); cbn [negb].
    + eapply wp_mono; [apply lexDigits_spec; [done|by apply length_tail_lt]|done|done|].
      intros r l'. destruct (span isDigit (tail (tail s))) as [ds t].
      intros (-> & pre' & Hp & Hl'). split; [done|]. exists pre'. split; [|done].
      rewrite Hp, <- !app_assoc. by rewrite !take1_tail.
    + apply wp_ret. split; [done|]. eexists. split; [|done].
      rewrite <- !app_assoc. by rewrite !take1_tail.
  - destruct (isDigit (hdr (tail s))).
    + eapply wp_mono; [by apply lexDigits_spec|done|done|].
      intros r l'. destruct (span isDigit (tail s)) as [ds t].
      intros (-> & pre' & Hp & Hl'). split; [done|]. exists pre'. split; [|done].
      rewrite Hp, <- !app_assoc. by rewrite !take1_tail.
    + apply wp_ret. split; [done|]. eexists. split; [|done].
      rewrite <- !app_assoc. by rewrite !take1_tail.
Qed.

Lemma lexNumber_spec c pre l s :
  isDigit c || (c =? chr ".") = true ->
  lexer_at pre l (c :: s) ->
  lwp lexNumber (lexed (pre ++ c :: s) (pos_after (pre ++ [c])) (lex_number (c :: s))) l.
Proof.
  intros Hc Hl. unfold lexNumber, lex_number.
  wp_step. eapply wp_peek; [done|]. intros l1 Hl1 _ Hpos.
  change (pre ++ take 1 (c :: s)) with (pre ++ [c]) in Hpos. cbn [hd]. rewrite Hc.
  wp_step. apply wp_ret. wp_step. apply wp_gets. rewrite Hpos. wp_fuel.
  pose proof (lexer_at_fuel _ _ _ Hl1) as Hn. clear Hc Hpos Hl.
  set (pos := pos_after (pre ++ [c])). set (n := lex_fuel l1) in *. clearbody pos n.
  remember (c :: s) as s0 eqn:Hs0. clear Hs0 c s.
  wp_step. eapply wp_mono; [by apply readWhile_spec|done|done|].
  intros r l2 [-> Hl2]. simpl app. pose proof (span_app isDigit s0) as Happ.
  assert (Hn2 : (length (span isDigit s0).2 < n)%nat).
  { rewrite <- Happ in Hn. rewrite length_app in Hn. lia. }
  destruct (span isDigit s0) as [ds s1]. cbn [fst snd] in *. subst s0.
  wp_peek_as l3 Hl3. wp_step.
  eapply wp_mono with (Q := fun r l' => let '(tok, buf, s) :=
      if hdr s1 =? chr "." then
        let '(ds', s) := span isDigit (tail s1) in (FLOAT, (ds ++ [hdr (str ".")]) ++ ds', s)
      else (INTEGER, ds, s1) in
    r = (tok, buf) /\ exists pre', pre' ++ s = pre ++ ds ++ s1 /\ lexer_at pre' l' s);
    [|done|done|].
  { destruct (Z.eqb_spec (hdr s1) (chr ".")) as [Hdot|Hdot].
    - wp_read_as l4 Hl4. rewrite Hdot.
      eapply wp_mono; [apply lexDigits_spec; [done|by apply length_tail_lt]|done|done|].
      intros r l'. destruct (span isDigit (tail s1)) as [ds' t].
      intros (-> & pre' & Hp & Hl'). split; [done|]. exists pre'. split; [|done].
      by rewrite Hp, <- !app_assoc, take1_tail.
    - apply wp_ret. split; [done|]. eexists. split; [|done]. by rewrite <- app_assoc. }
  intros r l4. destruct (if hdr s1 =? chr "." then _ else _) as [[tok buf] s2].
  intros (-> & pre2 & Hw & Hl4). rewrite <- Hw. clear Hw.
  wp_peek_as l5 Hl5. wp_step.
  eapply wp_mono with (Q := fun r l' => let '(tok, lit, s) :=
      if (hdr s2 =? chr "e") || (hdr s2 =? chr "E") then lex_exponent buf s2
      else (tok, buf, s2) in
    r = (tok, lit) /\ exists pre', pre' ++ s = pre2 ++ s2 /\ lexer_at pre' l' s);
    [|done|done|].
  { destruct ((hdr s2 =? chr "e") || (hdr s2 =? chr "E")).
    - by apply lexExponent_spec.
    - apply wp_ret. by eauto. }
  intros r l6. destruct (if (hdr s2 =? chr "e") || (hdr s2 =? chr "E") then _ else _)
    as [[tok' lit] s3].
  intros (-> & pre3 & Hw & Hl6).
  destruct (tok' =t ILLEGAL); [|destruct (lit =s str ".")]; apply wp_ret; (split; [done|]); eauto.
Qed.

(** ** Operators and the dispatch *)

(** Evaluates comparisons between rune constants. *)
Ltac rune_eval :=
  repeat match goal with
  | |- context [Z.eqb (chr ?a) (chr ?b)] =>
      let r := eval vm_compute in (Z.eqb (chr a) (chr b)) in
      change (Z.eqb (chr a) (chr b)) with r
  end; cbn [andb orb].

Ltac rune_split c :=
  match goal with
  | |- context [Z.eqb c (chr ?x)] =>
      let E := fresh "E" in
      destruct (Z.eqb c (chr x)) eqn:E; [apply Z.eqb_eq in E; subst c; rune_eval|cbn [andb orb]]
  end.

Ltac hdr_split :=
  match goal with
  | |- context [Z.eqb (hdr ?s) (chr ?x)] =>
      let E := fresh "E" in destruct (Z.eqb_spec (hdr s) (chr x)) as [E|E]; rune_eval
  end.

Lemma lexOperator_spec c pre l s :
  lexer_at pre l (c :: s) ->
  lwp lexOperator (fun r l' =>
    if (c =? chr "/") && (hdr s =? chr "*") then
      lexed (pre ++ c :: s) (pos_after (pre ++ [c; chr "*"])) (lex_comment (tail s)) r l'
    else lexed (pre ++ c :: s) (pos_after (pre ++ [c])) (lex_operator c s) r l') l.
Proof.
  intros Hl. unfold lexOperator, lex_operator, two_rune_op. wp_read_as l1 Hl1.
  cbn [one_rune_ops List.find fst snd].
  assert (Hone : forall l' tok, lexer_at (pre ++ [c]) l' s ->
    lexed (pre ++ c :: s) (pos_after (pre ++ [c])) (tok, [c], s)
      (pos_after (pre ++ [c]), tok, [c]) l').
  { intros l' tok Hl'. split; [done|]. eexists. split; [|done]. by rewrite <- app_assoc. }
  assert (Htwo : forall l' tok d, hdr s = d -> 0 <= d ->
    lexer_at ((pre ++ [c]) ++ take 1 s) l' (tail s) ->
    lexed (pre ++ c :: s) (pos_after (pre ++ [c])) (tok, [c; hdr s], tail s)
      (pos_after (pre ++ [c]), tok, [c; d]) l').
  { intros l' tok d Hd _ Hl'. split; [by rewrite Hd|]. eexists. split; [|done].
    by rewrite <- !app_assoc, take1_tail. }
  repeat rune_split c; try (apply wp_ret; by apply Hone).
  all: wp_peek_as l2 Hl2; repeat hdr_split; try (apply wp_ret; by apply Hone).
  all: try (wp_step; eapply wp_read; [done|]; intros l3 Hl3 _ _; apply wp_ret; by apply Htwo).
  match goal with H : hdr s = chr "*" |- _ => rename H into Hst end.
  destruct s as [|d s]; [done|]. cbn [hd] in Hst. subst d.
  eapply wp_mono; [by apply lexMultilineComment_spec|done|done|].
  intros r l'. by rewrite <- !app_assoc.
Qed.

Lemma Lex_loop_spec n pre l s :
  lexer_at pre l s -> (length s < n)%nat ->
  lwp (Lex_loop n) (fun r l' =>
    let '(k, res) := lex_runes s in
    lexed (pre ++ s) (pos_after (pre ++ take k s)) res r l') l.
Proof.
  revert pre l s. induction n as [|n IH]; intros pre l s Hl Hn; [lia|].
  cbn [Lex_loop]. wp_step. eapply wp_peek; [done|]. intros l1 Hl1 _ Hpos.
  destruct s as [|c s]; cbn [lex_runes hd length] in *.
  { rewrite Z.eqb_refl. wp_step. apply wp_gets. rewrite Hpos. apply wp_ret. by split; eauto. }
  rewrite (at_not_eof _ _ _ _ Hl).
  change (pre ++ take 1 (c :: s)) with (pre ++ [c]) in Hpos.
  destruct (IsSpace c).
  { wp_read_as l2 Hl2. eapply wp_mono; [apply IH; [done|lia]|done|done|].
    intros r l'. destruct (lex_runes s) as [k res]. by rewrite <- !app_assoc. }
  unfold lex_token.
  destruct (isDigit c || (c =? chr ".")) eqn:Hnum; [by apply lexNumber_spec|].
  destruct ((c =? chr "x") || (c =? chr "X")) eqn:Hx; [by apply lexBlob_spec|].
  destruct (isAlpha c || (c =? chr "_")) eqn:Hid.
  { wp_step. apply wp_gets. rewrite Hpos. apply lexUnquotedIdent_spec; [done|].
    unfold isUnquotedIdent. simpl hd. destruct (isAlpha c); [done|].
    simpl in *. rewrite Hid. by rewrite orb_true_r. }
  destruct ((c =? 34) || (c =? chr "`")); [by apply lexQuotedIdent_spec|].
  destruct (Z.eqb_spec c (chr "'")) as [->|_]; [by apply lexString_spec|].
  destruct ((c =? chr "?") || (c =? chr ":") || (c =? chr "@") || (c =? chr "$")) eqn:Hb;
    [by apply lexBind_spec|].
  eapply wp_mono; [by apply lexOperator_spec|done|done|]. intros r l'. simpl.
  destruct ((c =? chr "/") && (hdr s =? chr "*")) eqn:Hcm; [|done].
  apply andb_true_iff in Hcm as [_ Hs]. destruct s as [|d s]; [done|].
  apply Z.eqb_eq in Hs. simpl in Hs. subst d. done.
Qed.

(** ** The refinement theorem *)

(** From any reachable state, [Lex] returns the token the reference lexer assigns to the
    remaining runes, leaves exactly the runes the reference lexer leaves, and reports the position
    at which the token starts; it never panics and always terminates. *)
Lemma Lex_refines pre l s :
  lexer_at pre l s ->
  let '(k, (tok, lit, rest)) := lex_runes s in
  exists l' pre', Lex l = Ok ((pos_after (pre ++ take k s), tok, lit), l') /\
    pre' ++ rest = pre ++ s /\ lexer_at pre' l' rest.
Proof.
  intros Hl. pose proof (Lex_loop_spec _ _ _ _ Hl (lexer_at_fuel _ _ _ Hl)) as H.
  destruct (lex_runes s) as [k [[tok lit] rest]].
  apply wp_returns in H as (r & l' & Hr & -> & pre' & Hw & Hl'). by exists l', pre'.
Qed.

(** Every token other than [EOF] takes at least one rune. *)
Lemma span_length f s : (length (span f s).2 <= length s)%nat.
Proof. rewrite <- (span_app f s) at 2. rewrite length_app. lia. Qed.

Lemma span_cons_length f c s : f c = true -> (length (span f (c :: s)).2 <= length s)%nat.
Proof.
  intros Hc. simpl. rewrite Hc. pose proof (span_length f s). by destruct (span f s).
Qed.

Lemma Lookup_not_EOF s : Lookup s ≠ EOF.
Proof.
  apply Lookup_not; [|done]. intros H. apply list_elem_of_In in H.
  revert H. vm_compute. intuition discriminate.
Qed.

Lemma quoted_length q s r : (quoted q s).2 = Some r -> (length r <= length s)%nat.
Proof.
  revert r. induction s as [s IH] using (induction_ltof1 _ (@length rune)); unfold ltof in IH.
  intros r. destruct s as [|c s]; simpl; [done|]. destruct (c =? q).
  - destruct s as [|d s]; [intros [= <-]; simpl; lia|]. destruct (d =? q); [|intros [= <-]; simpl; lia].
    pose proof (IH s ltac:(simpl; lia) r) as IH'. destruct (quoted q s) as [a t]. simpl in *.
    intros Hr. specialize (IH' Hr). lia.
  - pose proof (IH s ltac:(simpl; lia) r) as IH'. destruct (quoted q s) as [a t]. simpl in *.
    intros Hr. specialize (IH' Hr). lia.
Qed.

Lemma comment_length s r : (comment s).2 = Some r -> (length r <= length s)%nat.
Proof.
  revert r. induction s as [|c s IH]; simpl; [done|]. intros r.
  destruct (_ && _).
  - intros [= <-]. pose proof (length_tail_lt s (S (length s)) ltac:(lia)).
    pose proof (length_tail_lt (tail s) (S (length s)) ltac:(lia)). lia.
  - destruct (comment s) as [a t]. simpl in *. intros Hr. specialize (IH _ Hr). lia.
Qed.

Lemma hexes_length s : (length (hexes s).2.2 <= length s)%nat.
Proof.
  induction s as [|c s IH]; simpl; [done|]. destruct (c =? _); [simpl; lia|].
  destruct (isHex c); [|simpl; lia]. destruct (hexes s) as [a [d t]]. simpl in *. lia.
Qed.

Lemma length_tail_le {A} (s : list A) : (length (tail s) <= length s)%nat.
Proof. destruct s; simpl; lia. Qed.

Ltac goal_if :=
  match goal with |- context [if ?b then _ else _] => destruct b eqn:? end.

(** Shorthand for the progress statements: the token is not [EOF], at most [n] runes remain. *)
Definition progress (n : nat) (res : Token * gostring * gostring) : Prop :=
  res.1.1 ≠ EOF /\ (length res.2 <= n)%nat.

Lemma lex_exponent_progress buf s : progress (length s) (lex_exponent buf s).
Proof.
  unfold lex_exponent, progress. pose proof (length_tail_le s).
  pose proof (length_tail_le (tail s)).
  pose proof (span_length isDigit (tail s)). pose proof (span_length isDigit (tail (tail s))).
  goal_if; [|destruct (isDigit (hdr (tail s)))].
  - destruct (isDigit (hdr (tail (tail s)))); [|by split; simpl; [|lia]].
    destruct (span isDigit (tail (tail s))); split; simpl in *; [done|lia].
  - destruct (span isDigit (tail s)); split; simpl in *; [done|lia].
  - by split; simpl; [|lia].
Qed.

Lemma lex_number_progress c s :
  isDigit c || (c =? chr ".") = true -> progress (length s) (lex_number (c :: s)).
Proof.
  intros Hc. unfold lex_number.
  set (r1 := (span isDigit (c :: s))) in *.
  assert (H1 : (length r1.2 <= S (length s))%nat /\
    (hdr r1.2 = chr "." \/ (length r1.2 <= length s)%nat)).
  { subst r1. destruct (isDigit c) eqn:Hd.
    - pose proof (span_cons_length isDigit c s Hd). split; [lia|]. by right.
    - simpl in *. rewrite Hd. simpl. split; [lia|]. left. by apply Z.eqb_eq. }
  destruct r1 as [ds s1]. simpl in H1.
  assert (Hfin : forall tok buf s2, tok ≠ EOF -> (length s2 <= length s)%nat ->
    progress (length s) (let '(tok, lit, s) :=
      if (hdr s2 =? chr "e") || (hdr s2 =? chr "E") then lex_exponent buf s2 else (tok, buf, s2) in
      if tok =t ILLEGAL then (ILLEGAL, lit, s)
      else if lit =s str "." then (DOT, lit, s) else (tok, lit, s))).
  { intros tok buf s2 Ht Hs2.
    assert (Hp : progress (length s) (if (hdr s2 =? chr "e") || (hdr s2 =? chr "E")
      then lex_exponent buf s2 else (tok, buf, s2))).
    { goal_if; [|done]. destruct (lex_exponent_progress buf s2). split; [done|lia]. }
    destruct (if (_ =? chr "e") || _ then _ else _) as [[tok' lit] s3]. destruct Hp as [Ht' Hs3].
    unfold progress in *. simpl in *. by repeat case_match. }
  destruct (Z.eqb_spec (hdr s1) (chr ".")) as [Hdot|Hdot].
  - pose proof (span_length isDigit (tail s1)) as Hsp.
    assert (Ht1 : (length (tail s1) <= length s)%nat).
    { destruct s1; [done|]. simpl in *. lia. }
    destruct (span isDigit (tail s1)). apply Hfin; [done|]. simpl in *. lia.
  - apply Hfin; [done|]. destruct H1 as [? [?|?]]; [done|lia].
Qed.

Lemma lex_ident_progress prefix s : progress (length s) (lex_ident prefix s).
Proof.
  unfold lex_ident. pose proof (span_length isUnquotedIdent s).
  destruct (span isUnquotedIdent s). split; [apply Lookup_not_EOF|done].
Qed.

Lemma lex_token_progress c s : progress (length s) (lex_token c s).2.
Proof.
  unfold lex_token. pose proof (length_tail_le s) as Htl.
  destruct (isDigit c || _) eqn:Hnum; [by apply lex_number_progress|].
  goal_if.
  { unfold lex_blob. cbn [snd]. destruct (isUnquotedIdent _); [apply lex_ident_progress|].
    destruct (negb _); [done|]. pose proof (hexes_length (tail s)).
    destruct (hexes (tail s)) as [a [d t]]. simpl in *.
    repeat case_match; split; simpl; (done || lia). }
  destruct (isAlpha c || (c =? chr "_")) eqn:Hid.
  { unfold lex_ident. cbn [snd].
    pose proof (span_cons_length isUnquotedIdent c s) as Hsp.
    destruct (span isUnquotedIdent (c :: s)) as [a t]. split; [apply Lookup_not_EOF|].
    apply Hsp. unfold isUnquotedIdent. apply orb_true_iff in Hid as [-> | ->]; [done|].
    apply orb_true_r. }
  goal_if.
  { unfold lex_quoted. cbn [snd]. pose proof (quoted_length c s) as Hq.
    destruct (quoted c s) as [a [t|]]; split; simpl; try done; [by apply Hq|lia]. }
  destruct (c =? chr "'").
  { unfold lex_string. cbn [snd]. pose proof (quoted_length (chr "'") s) as Hq.
    destruct (quoted (chr "'") s) as [a [t|]]; split; try done; [by apply Hq|simpl; lia]. }
  goal_if.
  { unfold lex_bind. cbn [snd].
    pose proof (span_length (if c =? chr "?" then isDigit else isUnquotedIdent) s).
    by destruct (span _ s). }
  goal_if.
  { unfold lex_comment. cbn [snd]. pose proof (comment_length (tail s)) as Hq.
    destruct (comment (tail s)) as [a [t|]]; split; try done; [|simpl; lia].
    specialize (Hq t eq_refl). simpl. lia. }
  unfold lex_operator. cbn [snd]. destruct (two_rune_op c (hdr s)) as [tok|] eqn:Htwo.
  - split; [|done]. revert Htwo. unfold two_rune_op. repeat case_match; intros [= <-]; done.
  - destruct (List.find _ _) as [[d tok]|] eqn:Hf; [|done]. apply find_some in Hf as [Hin _].
    split; [|done]. simpl in *. intuition congruence.
Qed.

(** [EOF] is returned at the end of the input only; any other token takes at least one rune. *)
Lemma lex_runes_progress s :
  let '(_, (tok, _, rest)) := lex_runes s in
  (tok = EOF /\ forallb IsSpace s = true /\ rest = []) \/
  (tok ≠ EOF /\ (length rest < length s)%nat).
Proof.
  induction s as [|c s IH]; simpl; [by left|]. destruct (IsSpace c) eqn:Hsp.
  - destruct (lex_runes s) as [k [[tok lit] rest]].
    destruct IH as [(-> & Hs & ->)|[Ht Hl]]; [by left|right; split; [done|lia]].
  - pose proof (lex_token_progress c s) as [Ht Hl].
    destruct (lex_token c s) as [k [[tok lit] rest]]. simpl in *. right. split; [done|lia].
Qed.

(** ** Whole texts *)

(** [n] successive calls of [Lex], as the parser makes them. *)
Fixpoint lex_calls (n : nat) : LexM (list (Pos * Token * gostring)) :=
  match n with
  | O => ret []
  | S n => x ← Lex; xs ← lex_calls n; ret (x :: xs)
  end.

(** The first [n] tokens of [s] after the prefix [pre], by the reference lexer. *)
Fixpoint reference_tokens (n : nat) (pre s : gostring) : list (Pos * Token * gostring) :=
  match n with
  | O => []
  | S n =>
      let '(k, (tok, lit, rest)) := lex_runes s in
      (pos_after (pre ++ take k s), tok, lit) ::
      reference_tokens n (take (length (pre ++ s) - length rest) (pre ++ s)) rest
  end.

Lemma lex_calls_from n pre l s :
  lexer_at pre l s -> exists l', lex_calls n l = Ok (reference_tokens n pre s, l').
Proof.
  revert pre l s. induction n as [|n IH]; intros pre l s Hl; [by eexists|].
  pose proof (Lex_refines _ _ _ Hl) as H. simpl.
  destruct (lex_runes s) as [k [[tok lit] rest]]. destruct H as (l1 & pre1 & HL & Heq & Hl1).
  assert (take (length (pre ++ s) - length rest) (pre ++ s) = pre1) as ->.
  { rewrite <- Heq, length_app. replace (_ - _)%nat with (length pre1) by lia.
    apply take_app_length. }
  destruct (IH _ _ _ Hl1) as [l2 H2]. exists l2. unfold bind. by rewrite HL, H2.
Qed.

(** C39: on every text, however often it is called, the lexer delivers the tokens of the reference
    lexer with the positions of their first runes (of the second one for a comment): its push-back
    machine never fails an assertion, never loses or repeats a rune, and every call terminates. *)
Theorem Lex_calls_reference n s :
  Forall (fun c => 0 <= c) s ->
  exists l, lex_calls n (NewLexer s) = Ok (reference_tokens n [] s, l).
Proof. intros Hs. apply lex_calls_from. by apply NewLexer_at. Qed.

Lemma Lex_calls_reference_witness :
  exists l, lex_calls 4 (NewLexer (str "a <= 'b'")) =
    Ok (reference_tokens 4 [] (str "a <= 'b'"), l).
Proof. apply Lex_calls_reference. repeat constructor; vm_compute; discriminate. Defined.
