(* ===== verification/SqlAst.v ===== *)
(** * The SQL syntax tree and its printer (common/utils/sqlparser/ast.go)

    The node types of ast.go, with the source's field order, and their [String] methods. Pointers
    that the source documents as optional, or that some code path leaves nil, are [option]s;
    the others are never nil in a tree built by the parser. A [String] method that panics (an
    operator it does not know, a nil column) is [Panic] here. *)

From stdpp Require Import base list strings numbers option.
From S2P Require Import Prelude SqlToken.

(** Predicates over the elements of the containers the nodes are nested in; the induction
    principles of the node types use them. *)
Scheme All for option.
Scheme All for list.

(** ** Nodes *)

Record Ident := mkIdent {
  Name : gostring;
  Quoted : bool;
  QuoteChar : gostring
}.

#[global] Instance Ident_eq_dec : EqDecision Ident.
Proof. solve_decision. Defined.

Record JoinOperator := mkJoinOperator {
  jo_Comma : bool;
  jo_Natural : bool;
  jo_Left : bool;
  jo_Outer : bool;
  jo_Inner : bool;
  jo_Cross : bool
}.

Record TableName := mkTableName {
  tn_Name : Ident;
  tn_Alias : option Ident
}.

Inductive Expr : Type :=
  | EIdent (i : Ident)
  | EStringLit (Value : gostring)
  | EBlobLit (Value : gostring)
  | ENumberLit (Value : gostring)
  | ENullLit
  | EBoolLit (Value : bool)
  | EBindExpr (Name : gostring) (Pos : Z)
  | EUnaryExpr (Op : Token) (X : Expr)
  | EBinaryExpr (X : Expr) (Op : Token) (Y : Expr)
  | ECaseExpr (Operand : option Expr) (Blocks : list CaseBlock) (ElseExpr : option Expr)
  | EExists (Not : bool) (Select : SelectStatement)
  | EExprs (Exprs : list Expr)
  | ERange (X Y : Expr)
  | EQualifiedRef (Table : Ident) (Star : bool) (Column : option Ident)
  | ECall (Name : Ident) (Star Distinct : bool) (Args : list Expr) (Filter : option FilterClause)
  | EParenExpr (X : Expr)
with CaseBlock : Type :=
  | mkCaseBlock (Condition Body : Expr)
with FilterClause : Type :=
  | mkFilterClause (X : Expr)
with OrderingTerm : Type :=
  | mkOrderingTerm (X : Expr) (Asc Desc NullsFirst NullsLast : bool)
with ResultColumn : Type :=
  | mkResultColumn (Star : bool) (Expr_ : option Expr) (Alias : option Ident)
with JoinConstraint : Type :=
  | OnConstraint (X : Expr)
  | UsingConstraint (Columns : list Ident)
with Source : Type :=
  | SJoinClause (X : Source) (Operator : JoinOperator) (Y : Source)
      (Constraint_ : option JoinConstraint)
  | SParenSource (X : Source) (Alias : option Ident)
  | STableName (t : TableName)
  | SSelect (s : SelectStatement)
with SelectStatement : Type :=
  | mkSelect
      (Hint : option gostring) (All Distinct : bool) (Columns : list ResultColumn)
      (FromItems : option Source) (Condition : option Expr)
      (GroupingElements : list Expr) (HavingCondition : option Expr)
      (Union UnionAll Intersect Except : bool) (Compound : option SelectStatement)
      (OrderBy : list OrderingTerm) (Limit Fetch Offset : option Expr).

(** Field access on a [SelectStatement]. *)
Definition sel_Hint '(mkSelect h _ _ _ _ _ _ _ _ _ _ _ _ _ _ _ _) := h.
Definition sel_Columns '(mkSelect _ _ _ cs _ _ _ _ _ _ _ _ _ _ _ _ _) := cs.
Definition sel_FromItems '(mkSelect _ _ _ _ f _ _ _ _ _ _ _ _ _ _ _ _) := f.
Definition sel_Condition '(mkSelect _ _ _ _ _ c _ _ _ _ _ _ _ _ _ _ _) := c.
Definition sel_Compound '(mkSelect _ _ _ _ _ _ _ _ _ _ _ _ c _ _ _ _) := c.
Definition sel_OrderBy '(mkSelect _ _ _ _ _ _ _ _ _ _ _ _ _ o _ _ _) := o.

Record Assignment := mkAssignment {
  as_Columns : list Ident;
  as_Expr : Expr
}.

Record IndexedColumn := mkIndexedColumn {
  ic_X : Expr;
  ic_Asc : bool;
  ic_Desc : bool
}.

Record UpsertClause := mkUpsert {
  uc_Columns : list IndexedColumn;
  uc_WhereExpr : option Expr;
  uc_DoNothing : bool;
  uc_DoUpdate : bool;
  uc_Assignments : list Assignment;
  uc_UpdateWhereExpr : option Expr
}.

(** [Expressions] is a list of [*Exprs]; each one is its list of expressions here. *)
Record InsertStatement := mkInsert {
  ins_TableName : TableName;
  ins_ColumnNames : list Ident;
  ins_Overriding : gostring;
  ins_DefaultValues : bool;
  ins_Expressions : list (list Expr);
  ins_Query : option SelectStatement;
  ins_UpsertClause : option UpsertClause;
  ins_OutputExpressions : option (list ResultColumn)
}.

Record UpdateStatement := mkUpdate {
  upd_Only : bool;
  upd_TableName : TableName;
  upd_TableStar : bool;
  upd_Alias : option Ident;
  upd_Assignments : list Assignment;
  upd_FromList : list TableName;
  upd_Condition : option Expr;
  upd_CursorName : option Ident;
  upd_OutputExpressions : option (list ResultColumn)
}.

Record DeleteStatement := mkDelete {
  del_Only : bool;
  del_TableName : TableName;
  del_TableStar : bool;
  del_Alias : option Ident;
  del_UsingList : list TableName;
  del_Condition : option Expr;
  del_CursorName : option Ident;
  del_OutputExpressions : option (list ResultColumn)
}.

Inductive Statement : Type :=
  | StInsert (s : InsertStatement)
  | StSelect (s : SelectStatement)
  | StUpdate (s : UpdateStatement)
  | StDelete (s : DeleteStatement).

(** A column type with optional precision and scale ([Type] in the source). *)
Record ColumnType := mkColumnType {
  ty_Name : Ident;
  ty_Precision : option gostring;
  ty_Scale : option gostring
}.

(** ** Printing *)

(** What a [String] method yields: its text, or a panic. *)
Abbreviation printed := (outcome Empty_set gostring).

Definition pcat (a b : printed) : printed := x ⇐ a; y ⇐ b; Ok (x ++ y).
Notation "a +s b" := (pcat a b) (at level 60, right associativity) : go_scope.

Definition lit (s : string) : printed := Ok (str s).

(** [for i, x := range l { if i != 0 { buf.WriteString(sep) }; buf.WriteString(f(x)) }] *)
Definition join_with {A} (sep : printed) (f : A -> printed) : list A -> printed :=
  fix go (l : list A) : printed :=
    match l with
    | [] => Ok []
    | [x] => f x
    | x :: l' => f x +s sep +s go l'
    end.

Definition nil_deref : gostring :=
  str "runtime error: invalid memory address or nil pointer dereference".

(** [strings.ReplaceAll(s, q, qq)] for a one-rune [q] doubled. *)
Definition double_rune (q : rune) (s : gostring) : gostring :=
  s ≫= (fun c => if c =? q then [q; q] else [c]).

Definition Ident_String (i : Ident) : gostring :=
  if Quoted i then
    if QuoteChar i =s [34] then QuoteChar i ++ double_rune 34 (Name i) ++ QuoteChar i
    else QuoteChar i ++ Name i ++ QuoteChar i
  else Name i.

(** [IdentName]: blank for nil. *)
Definition IdentName (i : option Ident) : gostring :=
  match i with Some i => Name i | None => [] end.

Definition ColumnType_String (t : ColumnType) : gostring :=
  match ty_Precision t, ty_Scale t with
  | Some p, Some s => Name (ty_Name t) ++ str "(" ++ p ++ str "," ++ s ++ str ")"
  | Some p, None => Name (ty_Name t) ++ str "(" ++ p ++ str ")"
  | None, _ => Name (ty_Name t)
  end.

Definition StringLit_String (v : gostring) : gostring :=
  str "'" ++ double_rune (chr "'") v ++ str "'".

Definition Hint_String (v : gostring) : gostring := str "/* " ++ v ++ str " */".

Definition BlobLit_String (v : gostring) : gostring := str "x'" ++ v ++ str "'".

(** The text [BinaryExpr.String] writes between its operands. *)
Definition binop_text (op : Token) : option gostring :=
  match op with
  | PLUS => Some (str " + ")
  | MINUS => Some (str " - ")
  | STAR => Some (str " * ")
  | SLASH => Some (str " / ")
  | REM => Some (str " % ")
  | CONCAT => Some (str " || ")
  | BETWEEN => Some (str " BETWEEN ")
  | NOTBETWEEN => Some (str " NOT BETWEEN ")
  | LSHIFT => Some (str " << ")
  | RSHIFT => Some (str " >> ")
  | BITAND => Some (str " & ")
  | BITOR => Some (str " | ")
  | LT => Some (str " < ")
  | LG => Some (str " <> ")
  | LE => Some (str " <= ")
  | GT => Some (str " > ")
  | GE => Some (str " >= ")
  | EQ => Some (str " = ")
  | NE => Some (str " != ")
  | IS => Some (str " IS ")
  | ISNOT => Some (str " IS NOT ")
  | IN => Some (str " IN ")
  | NOTIN => Some (str " NOT IN ")
  | LIKE => Some (str " LIKE ")
  | NOTLIKE => Some (str " NOT LIKE ")
  | GLOB => Some (str " GLOB ")
  | NOTGLOB => Some (str " NOT GLOB ")
  | MATCH => Some (str " MATCH ")
  | NOTMATCH => Some (str " NOT MATCH ")
  | REGEXP => Some (str " REGEXP ")
  | NOTREGEXP => Some (str " NOT REGEXP ")
  | AND => Some (str " AND ")
  | OR => Some (str " OR ")
  | _ => None
  end.

Definition invalid_op (node : string) (op : Token) : gostring :=
  str "sqlparser." ++ str node ++ str ".String(): invalid op " ++ Token_String op.

Definition JoinOperator_String (op : JoinOperator) : gostring :=
  if jo_Comma op then str ", "
  else
    (if jo_Natural op then str " NATURAL" else []) ++
    (if jo_Left op then str " LEFT" ++ (if jo_Outer op then str " OUTER" else [])
     else if jo_Inner op then str " INNER"
     else if jo_Cross op then str " CROSS" else []) ++
    str " JOIN ".

Definition TableName_String (n : TableName) : gostring :=
  Ident_String (tn_Name n) ++
  match tn_Alias n with Some a => str " AS " ++ Ident_String a | None => [] end.

Definition ident_list_String (cols : list Ident) : printed :=
  join_with (lit ", ") (fun c => Ok (Ident_String c)) cols.

Fixpoint Expr_String (e : Expr) : printed :=
  match e with
  | EIdent i => Ok (Ident_String i)
  | EStringLit v => Ok (StringLit_String v)
  | EBlobLit v => Ok (BlobLit_String v)
  | ENumberLit v => Ok v
  | ENullLit => lit "NULL"
  | EBoolLit v => if v then lit "TRUE" else lit "FALSE"
  | EBindExpr name _ => Ok name
  | EUnaryExpr op x =>
      match op with
      | PLUS => lit "+" +s Expr_String x
      | MINUS => lit "-" +s Expr_String x
      | _ => Panic (invalid_op "UnaryExpr" op)
      end
  | EBinaryExpr x op y =>
      match binop_text op with
      | Some t => Expr_String x +s Ok t +s Expr_String y
      | None => Panic (invalid_op "BinaryExpr" op)
      end
  | ECaseExpr operand blocks els =>
      lit "CASE" +s
      (match operand with Some x => lit " " +s Expr_String x | None => Ok [] end) +s
      join_with (Ok []) (fun b => lit " " +s CaseBlock_String b) blocks +s
      (match els with Some x => lit " ELSE " +s Expr_String x | None => Ok [] end) +s
      lit " END"
  | EExists not_ sel =>
      (if not_ then lit "NOT EXISTS (" else lit "EXISTS (") +s SelectStatement_String sel +s lit ")"
  | EExprs es => lit "(" +s join_with (lit ", ") Expr_String es +s lit ")"
  | ERange x y => Expr_String x +s lit " AND " +s Expr_String y
  | EQualifiedRef table star column =>
      if star then Ok (Ident_String table) +s lit ".*"
      else match column with
           | Some c => Ok (Ident_String table) +s lit "." +s Ok (Ident_String c)
           | None => Panic nil_deref
           end
  | ECall name star distinct args filter =>
      Ok (Name name) +s lit "(" +s
      (if star then lit "*"
       else (if distinct then
               lit "DISTINCT" +s (match args with [] => Ok [] | _ => lit " " end)
             else Ok []) +s
            join_with (lit ", ") Expr_String args) +s
      lit ")" +s
      (match filter with Some f => lit " " +s FilterClause_String f | None => Ok [] end)
  | EParenExpr x => lit "(" +s Expr_String x +s lit ")"
  end

with CaseBlock_String (b : CaseBlock) : printed :=
  match b with
  | mkCaseBlock c body => lit "WHEN " +s Expr_String c +s lit " THEN " +s Expr_String body
  end

with FilterClause_String (c : FilterClause) : printed :=
  match c with
  | mkFilterClause x => lit "FILTER (WHERE " +s Expr_String x +s lit ")"
  end

with OrderingTerm_String (t : OrderingTerm) : printed :=
  match t with
  | mkOrderingTerm x asc desc nf nl =>
      Expr_String x +s
      (if asc then lit " ASC" else if desc then lit " DESC" else Ok []) +s
      (if nf then lit " NULLS FIRST" else if nl then lit " NULLS LAST" else Ok [])
  end

with ResultColumn_String (c : ResultColumn) : printed :=
  match c with
  | mkResultColumn star x alias =>
      if star then lit "*"
      else match x with
           | None => Panic nil_deref
           | Some x =>
               match alias with
               | Some a => Expr_String x +s lit " AS " +s Ok (Ident_String a)
               | None => Expr_String x
               end
           end
  end

with JoinConstraint_String (c : JoinConstraint) : printed :=
  match c with
  | OnConstraint x => lit "ON " +s Expr_String x
  | UsingConstraint cols => lit "USING (" +s ident_list_String cols +s lit ")"
  end

with Source_String (s : Source) : printed :=
  match s with
  | SJoinClause x op y con =>
      Source_String x +s Ok (JoinOperator_String op) +s Source_String y +s
      (match con with Some c => lit " " +s JoinConstraint_String c | None => Ok [] end)
  | SParenSource x alias =>
      match alias with
      | Some a => lit "(" +s Source_String x +s lit ") AS " +s Ok (Ident_String a)
      | None => lit "(" +s Source_String x +s lit ")"
      end
  | STableName t => Ok (TableName_String t)
  | SSelect sel => SelectStatement_String sel
  end

with SelectStatement_String (s : SelectStatement) : printed :=
  match s with
  | mkSelect hint all_ distinct columns from cond grouping having
      union unionall intersect except compound orderby limit fetch offset =>
      lit "SELECT " +s
      (match hint with Some h => Ok (Hint_String h) +s lit " " | None => Ok [] end) +s
      (if all_ then lit "ALL " else if distinct then lit "DISTINCT " else Ok []) +s
      join_with (lit ", ") ResultColumn_String columns +s
      (match from with Some f => lit " FROM " +s Source_String f | None => Ok [] end) +s
      (match cond with Some c => lit " WHERE " +s Expr_String c | None => Ok [] end) +s
      (match grouping with
       | [] => Ok []
       | _ => lit " GROUP BY " +s join_with (lit ", ") Expr_String grouping +s
           (match having with Some h => lit " HAVING " +s Expr_String h | None => Ok [] end)
       end) +s
      (match compound with
       | Some c =>
           (if union then lit " UNION" +s (if unionall then lit " ALL" else Ok [])
            else if intersect then lit " INTERSECT"
            else if except then lit " EXCEPT" else Ok []) +s
           lit " " +s SelectStatement_String c
       | None => Ok []
       end) +s
      (match orderby with
       | [] => Ok []
       | _ => lit " ORDER BY " +s join_with (lit ", ") OrderingTerm_String orderby
       end) +s
      (match limit with
       | Some l => lit " LIMIT " +s Expr_String l +s
           (match offset with Some o => lit " OFFSET " +s Expr_String o | None => Ok [] end)
       | None => Ok []
       end) +s
      (match limit, offset with
       | None, Some o => lit " OFFSET " +s Expr_String o +s lit " ROWS" +s
           (match fetch with
            | Some f => lit " FETCH NEXT " +s Expr_String f +s lit " ROWS ONLY"
            | None => Ok []
            end)
       | _, _ => Ok []
       end)
  end.

Definition OutputNames_String (on : list ResultColumn) : printed :=
  join_with (lit ", ") ResultColumn_String on.

(** [ExprString]: blank for nil. *)
Definition ExprString (e : option Expr) : printed :=
  match e with Some e => Expr_String e | None => Ok [] end.

Definition IndexedColumn_String (c : IndexedColumn) : printed :=
  if ic_Asc c then Expr_String (ic_X c) +s lit " ASC"
  else if ic_Desc c then Expr_String (ic_X c) +s lit " DESC"
  else Expr_String (ic_X c).

Definition Assignment_String (a : Assignment) : printed :=
  (match as_Columns a with
   | [] => Ok []
   | [c] => Ok (Ident_String c)
   | cols => lit "(" +s ident_list_String cols +s lit ")"
   end) +s
  lit " = " +s Expr_String (as_Expr a).

Definition UpsertClause_String (c : UpsertClause) : printed :=
  lit "ON CONFLICT" +s
  (match uc_Columns c with
   | [] => Ok []
   | cols =>
       lit " (" +s join_with (lit ", ") IndexedColumn_String cols +s lit ")" +s
       (match uc_WhereExpr c with Some w => lit " WHERE " +s Expr_String w | None => Ok [] end)
   end) +s
  lit " DO" +s
  (if uc_DoNothing c then lit " NOTHING"
   else
     lit " UPDATE SET " +s join_with (lit ", ") Assignment_String (uc_Assignments c) +s
     (match uc_UpdateWhereExpr c with
      | Some w => lit " WHERE " +s Expr_String w
      | None => Ok []
      end)).

(** The shared tail of the statements: [WHERE ...] or [WHERE CURRENT OF ...]. *)
Definition where_String (cond : option Expr) (cursor : option Ident) : printed :=
  match cond with
  | Some c => lit " WHERE " +s Expr_String c
  | None =>
      match cursor with
      | Some c => lit " WHERE CURRENT OF " +s Ok (Ident_String c)
      | None => Ok []
      end
  end.

Definition returning_String (out : option (list ResultColumn)) : printed :=
  match out with Some o => lit " RETURNING " +s OutputNames_String o | None => Ok [] end.

Definition InsertStatement_String (s : InsertStatement) : printed :=
  lit "INSERT" +s lit " INTO " +s Ok (TableName_String (ins_TableName s)) +s
  (match ins_ColumnNames s with
   | [] => Ok []
   | cols => lit " (" +s ident_list_String cols +s lit ")"
   end) +s
  (if ins_DefaultValues s then lit " DEFAULT VALUES"
   else match ins_Query s with
   | Some q => lit " " +s SelectStatement_String q
   | None =>
       lit " VALUES" +s
       join_with (lit ",") (fun es => lit " (" +s join_with (lit ", ") Expr_String es +s lit ")")
         (ins_Expressions s)
   end) +s
  (match ins_UpsertClause s with Some u => lit " " +s UpsertClause_String u | None => Ok [] end) +s
  returning_String (ins_OutputExpressions s).

(** [FROM]/[USING] table lists. *)
Definition table_list_String (kw : string) (ts : list TableName) : printed :=
  match ts with
  | [] => Ok []
  | _ => lit kw +s join_with (lit ", ") (fun t => Ok (TableName_String t)) ts
  end.

Definition UpdateStatement_String (s : UpdateStatement) : printed :=
  lit "UPDATE " +s (if upd_Only s then lit "ONLY " else Ok []) +s
  Ok (TableName_String (upd_TableName s)) +s
  (if upd_TableStar s then lit " *" else Ok []) +s
  (match upd_Alias s with Some a => lit " AS " +s Ok (Ident_String a) | None => Ok [] end) +s
  lit " SET " +s join_with (lit ", ") Assignment_String (upd_Assignments s) +s
  table_list_String " From " (upd_FromList s) +s
  where_String (upd_Condition s) (upd_CursorName s) +s
  returning_String (upd_OutputExpressions s).

Definition DeleteStatement_String (s : DeleteStatement) : printed :=
  lit "DELETE FROM " +s (if del_Only s then lit "ONLY " else Ok []) +s
  Ok (TableName_String (del_TableName s)) +s
  (if del_TableStar s then lit " *" else Ok []) +s
  (match del_Alias s with Some a => lit " AS " +s Ok (Ident_String a) | None => Ok [] end) +s
  table_list_String " USING " (del_UsingList s) +s
  where_String (del_Condition s) (del_CursorName s) +s
  returning_String (del_OutputExpressions s).

Definition Statement_String (s : Statement) : printed :=
  match s with
  | StInsert s => InsertStatement_String s
  | StSelect s => SelectStatement_String s
  | StUpdate s => UpdateStatement_String s
  | StDelete s => DeleteStatement_String s
  end.

(** ** Conjuncts of a condition *)

Fixpoint splitExprTree (e : Expr) (a : list Expr) : list Expr :=
  match e with
  | EBinaryExpr x op y =>
      if negb (op =t AND) then a ++ [e]
      else splitExprTree y (splitExprTree x a)
  | EParenExpr x => splitExprTree x a
  | _ => a ++ [e]
  end.

Definition SplitExprTree (e : option Expr) : list Expr :=
  match e with None => [] | Some e => splitExprTree e [] end.

(** ** Sources *)

(** [TableName.TableName]: the alias when it is not blank, the name otherwise. *)
Definition TableName_TableName (n : TableName) : gostring :=
  let s := IdentName (tn_Alias n) in
  if negb (s =s []) then s else Name (tn_Name n).

(** [StatementSource]; an insert has none. *)
Definition StatementSource (s : Statement) : option Source :=
  match s with
  | StSelect s => sel_FromItems s
  | StUpdate s => Some (STableName (upd_TableName s))
  | StDelete s => Some (STableName (del_TableName s))
  | StInsert _ => None
  end.

Definition SourceName (src : option Source) : gostring :=
  match src with
  | Some (SParenSource _ alias) => IdentName alias
  | Some (STableName t) => TableName_TableName t
  | _ => []
  end.

(** [forEachSource]: [fn] reads and updates the state its closure captures; [false] stops the
    iteration. A nil source is passed to [fn] as well. *)
Section ForEach.
Context {S : Type} (fn : option Source -> S -> bool * S).

Fixpoint forEachSource_go (src : Source) (s : S) : bool * S :=
  let '(continue, s) := fn (Some src) s in
  if negb continue then (false, s)
  else match src with
  | SJoinClause x _ y _ =>
      let '(c, s) := forEachSource_go x s in
      if negb c then (false, s)
      else let '(c, s) := forEachSource_go y s in
           if negb c then (false, s) else (true, s)
  | SSelect sel => forEachSelect sel s
  | _ => (true, s)
  end
with forEachSelect (sel : SelectStatement) (s : S) : bool * S :=
  match sel with
  | mkSelect _ _ _ _ from _ _ _ _ _ _ _ _ _ _ _ _ =>
      match from with
      | Some f => forEachSource_go f s
      | None => fn None s
      end
  end.

Definition forEachSource (src : option Source) (s : S) : bool * S :=
  match src with
  | Some src => forEachSource_go src s
  | None => fn None s
  end.
End ForEach.

Definition SourceList (src : option Source) : list (option Source) :=
  (forEachSource (fun x a => (true, a ++ [x])) src []).2.

Definition ResolveSource (root : option Source) (name : gostring) : option Source :=
  (forEachSource (fun src ret =>
     let ret := match src with
       | Some (SParenSource _ alias) => if IdentName alias =s name then src else ret
       | Some (STableName t) => if TableName_TableName t =s name then src else ret
       | _ => ret
       end in
     (match ret with None => true | Some _ => false end, ret)) root None).2.
