(* ===== verification/SqlParser.v ===== *)
(** * The SQL parser (common/utils/sqlparser/parser.go)

    The recursive-descent parser over a token source. The source of tokens is an interface,
    [TokenSource]; the lexer implements it ([lexer_source]), and the theorems about the parser are
    proved against the interface. [Parser] has the fields of the Go struct: the lexer, the last
    token with its position and literal, the push-back flag and the bind counter.

    The parse routines of the source call each other recursively. Here every routine takes the
    record [Rec] of the four entry points through which the recursion goes (an expression at a
    given precedence, an operand, a SELECT, a source) and a bound [n] for its own loops;
    [parserAt] ties the knot by recursion on fuel. On an error, the partially built node that the
    Go routine returns next to the error is dropped. *)

From stdpp Require Import base list strings numbers option.
From S2P Require Import Prelude SqlToken SqlLexer SqlAst.

(** ** Errors *)

(** [Error] of parser.go, [ErrNotImplemented], and [io.EOF]. *)
Inductive GoError : Type :=
  | ErrEOF
  | ErrNotImplemented
  | ErrParse (pos : Pos) (msg : gostring).

Definition Error_Error (e : GoError) : gostring :=
  match e with
  | ErrEOF => str "EOF"
  | ErrNotImplemented => str "not implemented"
  | ErrParse pos msg => if Pos_IsValid pos then Pos_String pos ++ str ": " ++ msg else msg
  end.

(** ** Token sources *)

Class TokenSource (L : Type) := ts_lex : stM L Empty_set (Pos * Token * gostring).

#[global] Instance lexer_source : TokenSource Lexer := Lex.

(** ** Parser state *)

Record Parser (L : Type) := mkParser {
  p_l : L;
  p_pos : Pos;
  p_tok : Token;
  p_lit : gostring;
  p_full : bool;
  p_binds : Z
}.

Arguments mkParser {L} _ _ _ _ _ _.
Arguments p_l {L} _.
Arguments p_pos {L} _.
Arguments p_tok {L} _.
Arguments p_lit {L} _.
Arguments p_full {L} _.
Arguments p_binds {L} _.

(** [NewParser], over a given token source. *)
Definition newParser {L} (l : L) : Parser L := mkParser l zeroPos ILLEGAL [] false 0.

Definition NewParser (s : gostring) : Parser Lexer := newParser (NewLexer s).

Section Parse.
Context {L : Type} {TS : TokenSource L}.

Abbreviation PM := (stM (Parser L) GoError).

(** *** Tokens *)

Definition lex : PM (Pos * Token * gostring) := fun p =>
  if p_full p then
    Ok ((p_pos p, p_tok p, p_lit p),
        mkParser (p_l p) (p_pos p) (p_tok p) (p_lit p) false (p_binds p))
  else match ts_lex (p_l p) with
  | Ok ((pos, tok, lit), l) => Ok ((pos, tok, lit), mkParser l pos tok lit false (p_binds p))
  | Err e => match e with end
  | Panic msg => Panic msg
  | OutOfFuel => OutOfFuel
  end.

Definition unlex : PM unit :=
  full ← gets p_full;
  _ ← assert (negb full);
  modify (fun p => mkParser (p_l p) (p_pos p) (p_tok p) (p_lit p) true (p_binds p)).

Definition peek : PM Token :=
  full ← gets p_full;
  _ ← (if full then ret tt else (_ ← lex; unlex));
  gets p_tok.

Definition errorExpected {A} (pos : Pos) (tok : Token) (msg : gostring) : PM A :=
  p ← gets (fun p => p);
  let msg := str "expected " ++ msg in
  let msg :=
    if bool_decide (pos = p_pos p) then
      if IsLiteral (p_tok p) then msg ++ str ", found " ++ p_lit p
      else msg ++ str ", found '" ++ Token_String (p_tok p) ++ str "'"
    else msg in
  throw (ErrParse pos msg).

(** [p.errorExpected(p.pos, p.tok, msg)] *)
Definition expected {A} (msg : string) : PM A :=
  pos ← gets p_pos;
  tok ← gets p_tok;
  errorExpected pos tok (str msg).

(** [if p.peek() != t { return ..., p.errorExpected(p.pos, p.tok, msg) }; p.lex()] *)
Definition expect (t : Token) (msg : string) : PM unit :=
  tok ← peek;
  if tok =t t then (_ ← lex; ret tt) else expected msg.

Definition identByNameAndTok (lit : gostring) (tok : Token) : Ident :=
  let quoted := tok =t QIDENT in
  if quoted then
    mkIdent (take (length lit - 2) (drop 1 lit)) quoted (take 1 lit)
  else mkIdent lit false [].

Definition parseIdent (desc : string) : PM Ident :=
  '(pos, tok, lit) ← lex;
  if isIdentToken tok then ret (identByNameAndTok lit tok)
  else errorExpected pos tok (str desc).

(** [lexBinaryOp]: combines multi-word operators into one token. *)
Definition lexBinaryOp : PM (Pos * Token) :=
  '(pos, tok, _) ← lex;
  if tok =t IS then
    nxt ← peek;
    if nxt =t NOT then (_ ← lex; ret (pos, ISNOT)) else ret (pos, IS)
  else if tok =t NOT then
    nxt ← peek;
    if nxt =t IN then (_ ← lex; ret (pos, NOTIN))
    else if nxt =t LIKE then (_ ← lex; ret (pos, NOTLIKE))
    else if nxt =t GLOB then (_ ← lex; ret (pos, NOTGLOB))
    else if nxt =t REGEXP then (_ ← lex; ret (pos, NOTREGEXP))
    else if nxt =t MATCH then (_ ← lex; ret (pos, NOTMATCH))
    else if nxt =t BETWEEN then (_ ← lex; ret (pos, NOTBETWEEN))
    else expected "IN, LIKE, GLOB, REGEXP, MATCH, or BETWEEN"
  else ret (pos, tok).

(** *** Comma-separated lists *)

(** [for { x := item(); l = append(l, x); if peek == RP { break } else if peek != COMMA {
    error }; lex() }; lex()] *)
Fixpoint commaUntilRP {A} (item : PM A) (n : nat) (acc : list A) : PM (list A) :=
  match n with
  | O => out_of_fuel
  | S n =>
      x ← item;
      let acc := acc ++ [x] in
      tok ← peek;
      if tok =t RP then (_ ← lex; ret acc)
      else
        tok ← peek;
        if negb (tok =t COMMA) then expected "comma or right paren"
        else (_ ← lex; commaUntilRP item n acc)
  end.

(** [for { x := item(); l = append(l, x); if peek != COMMA { break }; lex() }] *)
Fixpoint commaSeparated {A} (item : PM A) (n : nat) (acc : list A) : PM (list A) :=
  match n with
  | O => out_of_fuel
  | S n =>
      x ← item;
      let acc := acc ++ [x] in
      tok ← peek;
      if negb (tok =t COMMA) then ret acc
      else (_ ← lex; commaSeparated item n acc)
  end.

(** The entry points of the recursion. *)
Record Rec := mkRec {
  r_expr : Z -> PM Expr;
  r_operand : PM Expr;
  r_select : bool -> PM SelectStatement;
  r_source : PM Source
}.

Section WithRec.
Context (rec : Rec) (n : nat).

(** [ParseExpr] is [parseBinaryExpr(LowestPrec + 1)]. *)
Definition ParseExpr : PM Expr := r_expr rec (LowestPrec + 1).

(** *** Operands *)

Definition parseQualifiedRef (table : Ident) : PM Expr :=
  tok ← peek;
  _ ← assert (tok =t DOT);
  _ ← lex;
  tok ← peek;
  if tok =t STAR then (_ ← lex; ret (EQualifiedRef table true None))
  else if isIdentToken tok then
    '(_, tok, lit) ← lex;
    ret (EQualifiedRef table false (Some (identByNameAndTok lit tok)))
  else expected "column name".

Definition parseFilterClause : PM FilterClause :=
  tok ← peek;
  _ ← assert (tok =t FILTER);
  _ ← lex;
  _ ← expect LP "left paren";
  _ ← expect WHERE "WHERE";
  x ← ParseExpr;
  _ ← expect RP "right paren";
  ret (mkFilterClause x).

(** [for p.peek() != RP { arg; append; if COMMA { lex } else if != RP { error } }] *)
Fixpoint parseCall_args (n : nat) (acc : list Expr) : PM (list Expr) :=
  match n with
  | O => out_of_fuel
  | S n =>
      tok ← peek;
      if tok =t RP then ret acc
      else
        arg ← ParseExpr;
        let acc := acc ++ [arg] in
        tok ← peek;
        if tok =t COMMA then (_ ← lex; parseCall_args n acc)
        else if negb (tok =t RP) then expected "comma or right paren"
        else parseCall_args n acc
  end.

Definition parseCall (name : Ident) : PM Expr :=
  tok ← peek;
  _ ← assert (tok =t LP);
  _ ← lex;
  tok ← peek;
  '(star, distinct, args) ← (
    if tok =t STAR then (_ ← lex; ret (true, false, []))
    else
      distinct ← (if tok =t DISTINCT then (_ ← lex; ret true) else ret false);
      args ← parseCall_args n [];
      ret (false, distinct, args));
  _ ← expect RP "right paren";
  tok ← peek;
  filter ← (if tok =t FILTER then (f ← parseFilterClause; ret (Some f)) else ret None);
  ret (ECall name star distinct args filter).

(** The closing token is read without being looked at. *)
Definition parseParenExpr : PM Expr :=
  _ ← lex;
  x ← ParseExpr;
  _ ← lex;
  ret (EParenExpr x).

Fixpoint parseCase_blocks (n : nat) (acc : list CaseBlock) : PM (list CaseBlock) :=
  match n with
  | O => out_of_fuel
  | S n =>
      _ ← expect WHEN "WHEN";
      cond ← ParseExpr;
      _ ← expect THEN "THEN";
      body ← ParseExpr;
      let acc := acc ++ [mkCaseBlock cond body] in
      tok ← peek;
      if (tok =t ELSE) || (tok =t END) then ret acc
      else if negb (tok =t WHEN) then expected "WHEN, ELSE or END"
      else parseCase_blocks n acc
  end.

Definition parseCaseExpr : PM Expr :=
  tok ← peek;
  _ ← assert (tok =t CASE);
  _ ← lex;
  tok ← peek;
  operand ← (if negb (tok =t WHEN) then (x ← ParseExpr; ret (Some x)) else ret None);
  blocks ← parseCase_blocks n [];
  tok ← peek;
  els ← (if tok =t ELSE then (_ ← lex; x ← ParseExpr; ret (Some x)) else ret None);
  _ ← expect END "END";
  ret (ECaseExpr operand blocks els).

Definition parseExists : PM Expr :=
  tok ← peek;
  _ ← assert ((tok =t NOT) || (tok =t EXISTS));
  not_ ← (if tok =t NOT then (_ ← lex; ret true) else ret false);
  _ ← expect EXISTS "EXISTS";
  _ ← expect LP "left paren";
  sel ← r_select rec false;
  _ ← expect RP "right paren";
  ret (EExists not_ sel).

Definition parseOperand : PM Expr :=
  '(_, tok, lit) ← lex;
  if tok_in tok [IDENT; QIDENT] then
    let ident := identByNameAndTok lit tok in
    nxt ← peek;
    if nxt =t DOT then parseQualifiedRef ident
    else if nxt =t LP then parseCall ident
    else ret (EIdent ident)
  else if tok =t STRING then ret (EStringLit lit)
  else if tok =t BLOB then ret (EBlobLit lit)
  else if tok_in tok [FLOAT; INTEGER] then ret (ENumberLit lit)
  else if tok =t NULL then ret ENullLit
  else if tok_in tok [TRUE; FALSE] then ret (EBoolLit (tok =t TRUE))
  else if tok =t BIND then
    _ ← modify (fun p =>
      mkParser (p_l p) (p_pos p) (p_tok p) (p_lit p) (p_full p) (p_binds p + 1));
    binds ← gets p_binds;
    ret (EBindExpr lit (binds - 1))
  else if tok_in tok [PLUS; MINUS] then
    x ← r_operand rec;
    ret (EUnaryExpr tok x)
  else if tok =t LP then (_ ← unlex; parseParenExpr)
  else if tok =t CASE then (_ ← unlex; parseCaseExpr)
  else if tok_in tok [NOT; EXISTS] then (_ ← unlex; parseExists)
  else expected "expression".

(** *** Binary expressions *)

(** [for p.peek() != RP { x; append; if RP { break } else if != COMMA { error }; lex }; lex] *)
Fixpoint parseExprs_items (n : nat) (acc : list Expr) : PM (list Expr) :=
  match n with
  | O => out_of_fuel
  | S n =>
      tok ← peek;
      if tok =t RP then (_ ← lex; ret acc)
      else
        x ← ParseExpr;
        let acc := acc ++ [x] in
        tok ← peek;
        if tok =t RP then (_ ← lex; ret acc)
        else if negb (tok =t COMMA) then expected "comma or right paren"
        else (_ ← lex; parseExprs_items n acc)
  end.

Definition parseExprs : PM Expr :=
  _ ← expect LP "left paren";
  l ← parseExprs_items n [];
  ret (EExprs l).

Fixpoint parseBinaryExpr_loop (n : nat) (prec1 : Z) (x : Expr) : PM Expr :=
  match n with
  | O => out_of_fuel
  | S n =>
      tok ← peek;
      if Precedence tok <? prec1 then ret x
      else
        '(_, op) ← lexBinaryOp;
        if tok_in op [IN; NOTIN] then
          y ← parseExprs;
          parseBinaryExpr_loop n prec1 (EBinaryExpr x op y)
        else if tok_in op [BETWEEN; NOTBETWEEN] then
          rng ← r_expr rec (LowestPrec + 1);
          match rng with
          | EBinaryExpr a rop b =>
              if rop =t AND then
                parseBinaryExpr_loop n prec1 (EBinaryExpr x op (ERange a b))
              else expected "range expression"
          | _ => expected "range expression"
          end
        else
          y ← r_expr rec (Precedence op + 1);
          parseBinaryExpr_loop n prec1 (EBinaryExpr x op y)
  end.

Definition parseBinaryExpr (prec1 : Z) : PM Expr :=
  x ← parseOperand;
  parseBinaryExpr_loop n prec1 x.

(** *** Sources *)

Definition parseTableName : PM TableName :=
  tok ← peek;
  if negb (isIdentToken tok) then expected "table name"
  else
    name ← parseIdent "table name";
    tok ← peek;
    alias ← (
      if (tok =t AS) || isIdentToken tok then
        _ ← (if tok =t AS then (_ ← lex; ret tt) else ret tt);
        a ← parseIdent "table alias";
        ret (Some a)
      else ret None);
    ret (mkTableName name alias).

Definition parseJoinOperator : PM JoinOperator :=
  tok ← peek;
  if tok =t COMMA then
    _ ← lex;
    ret (mkJoinOperator true false false false false false)
  else
    natural ← (if tok =t NATURAL then (_ ← lex; ret true) else ret false);
    tok ← peek;
    '(left_, outer, inner, cross) ← (
      if tok =t LEFT then
        _ ← lex;
        nxt ← peek;
        outer ← (if nxt =t OUTER then (_ ← lex; ret true) else ret false);
        ret (true, outer, false, false)
      else if tok =t INNER then (_ ← lex; ret (false, false, true, false))
      else if tok =t CROSS then (_ ← lex; ret (false, false, false, true))
      else ret (false, false, false, false));
    _ ← expect JOIN "JOIN";
    ret (mkJoinOperator false natural left_ outer inner cross).

Definition parseOnConstraint : PM JoinConstraint :=
  tok ← peek;
  _ ← assert (tok =t ON);
  _ ← lex;
  x ← ParseExpr;
  ret (OnConstraint x).

Definition parseUsingConstraint : PM JoinConstraint :=
  tok ← peek;
  _ ← assert (tok =t USING);
  _ ← lex;
  _ ← expect LP "left paren";
  cols ← commaUntilRP (parseIdent "column name") n [];
  ret (UsingConstraint cols).

Definition parseJoinConstraint : PM (option JoinConstraint) :=
  tok ← peek;
  if tok =t ON then (c ← parseOnConstraint; ret (Some c))
  else if tok =t USING then (c ← parseUsingConstraint; ret (Some c))
  else ret None.

(** Only a nested SELECT may have an alias. *)
Definition parseParenSource : PM Source :=
  tok ← peek;
  _ ← assert (tok =t LP);
  _ ← lex;
  tok ← peek;
  x ← (if tok =t SELECT then (s ← r_select rec false; ret (SSelect s)) else r_source rec);
  _ ← expect RP "right paren";
  match x with
  | SSelect _ =>
      tok ← peek;
      if (tok =t AS) || isIdentToken tok then
        _ ← (if tok =t AS then (_ ← lex; ret tt) else ret tt);
        a ← parseIdent "table alias";
        ret (SParenSource x (Some a))
      else ret (SParenSource x None)
  | _ => ret (SParenSource x None)
  end.

Definition parseUnarySource : PM Source :=
  tok ← peek;
  if tok =t LP then parseParenSource
  else if tok_in tok [IDENT; QIDENT] then (t ← parseTableName; ret (STableName t))
  else expected "table name or left paren".

(** The next join is nested on the right side of the previous one. *)
Definition join_source (source : Source) (op : JoinOperator) (y : Source)
    (con : option JoinConstraint) : Source :=
  match source with
  | SJoinClause x0 op0 y0 con0 => SJoinClause x0 op0 (SJoinClause y0 op y con) con0
  | _ => SJoinClause source op y con
  end.

Fixpoint parseSource_loop (n : nat) (source : Source) : PM Source :=
  match n with
  | O => out_of_fuel
  | S n =>
      tok ← peek;
      if tok_in tok [COMMA; NATURAL; LEFT; INNER; CROSS; JOIN] then
        op ← parseJoinOperator;
        y ← parseUnarySource;
        con ← parseJoinConstraint;
        parseSource_loop n (join_source source op y con)
      else ret source
  end.

Definition parseSource : PM Source :=
  source ← parseUnarySource;
  parseSource_loop n source.

(** *** SELECT *)

Definition parseResultColumn : PM ResultColumn :=
  tok ← peek;
  if tok =t STAR then (_ ← lex; ret (mkResultColumn true None None))
  else
    x ← ParseExpr;
    match x with
    | EQualifiedRef _ true _ => ret (mkResultColumn false (Some x) None)
    | _ =>
        tok ← peek;
        if tok =t AS then
          _ ← lex;
          tok ← peek;
          if negb (isIdentToken tok) then expected "column alias"
          else (a ← parseIdent "column alias"; ret (mkResultColumn false (Some x) (Some a)))
        else if isIdentToken tok then
          a ← parseIdent "column alias";
          ret (mkResultColumn false (Some x) (Some a))
        else ret (mkResultColumn false (Some x) None)
    end.

Definition parseOutputNames : PM (list ResultColumn) := commaSeparated parseResultColumn n [].

Definition parseOrderingTerm : PM OrderingTerm :=
  x ← ParseExpr;
  tok ← peek;
  '(asc, desc) ← (
    if tok =t ASC then (_ ← lex; ret (true, false))
    else if tok =t DESC then (_ ← lex; ret (false, true))
    else ret (false, false));
  tok ← peek;
  '(nf, nl) ← (
    if tok =t NULLS then
      _ ← lex;
      tok ← peek;
      if tok =t FIRST then (_ ← lex; ret (true, false))
      else if tok =t LAST then (_ ← lex; ret (false, true))
      else expected "FIRST or LAST"
    else ret (false, false));
  ret (mkOrderingTerm x asc desc nf nl).

(** [if p.peek() == kw { p.lex(); x = ParseExpr() }] *)
Definition optionalExpr (kw : Token) : PM (option Expr) :=
  tok ← peek;
  if tok =t kw then (_ ← lex; x ← ParseExpr; ret (Some x)) else ret None.

Definition parseGroupBy : PM (list Expr * option Expr) :=
  tok ← peek;
  if tok =t GROUP then
    _ ← lex;
    _ ← expect BY "BY";
    grouping ← commaSeparated ParseExpr n [];
    having ← optionalExpr HAVING;
    ret (grouping, having)
  else ret ([], None).

(** The four compound flags and the compounded SELECT. *)
Definition parseCompound : PM (bool * bool * bool * bool * option SelectStatement) :=
  tok ← peek;
  if tok_in tok [UNION; INTERSECT; EXCEPT] then
    '(union, unionall, intersect, except) ← (
      if tok =t UNION then
        _ ← lex;
        nxt ← peek;
        unionall ← (if nxt =t ALL then (_ ← lex; ret true) else ret false);
        ret (true, unionall, false, false)
      else if tok =t INTERSECT then (_ ← lex; ret (false, false, true, false))
      else (_ ← lex; ret (false, false, false, true)));
    c ← r_select rec true;
    ret (union, unionall, intersect, except, Some c)
  else ret (false, false, false, false, None).

Definition parseOrderBy (compounded : bool) : PM (list OrderingTerm) :=
  tok ← peek;
  if negb compounded && (tok =t ORDER) then
    _ ← lex;
    _ ← expect BY "BY";
    commaSeparated parseOrderingTerm n []
  else ret [].

(** [if tok != ROW && tok != ROWS { error }; p.lex()] *)
Definition expectRows : PM unit :=
  tok ← peek;
  if negb (tok =t ROW) && negb (tok =t ROWS) then expected "ROW/ROWS"
  else (_ ← lex; ret tt).

(** LIMIT, FETCH and OFFSET, in the order of the struct's fields. *)
Definition parseLimit (compounded : bool) : PM (option Expr * option Expr * option Expr) :=
  tok ← peek;
  if negb compounded && ((tok =t LIMIT) || (tok =t OFFSET)) then
    if tok =t LIMIT then
      _ ← lex;
      limit ← ParseExpr;
      tok ← peek;
      offset ← (
        if (tok =t OFFSET) || (tok =t COMMA) then
          _ ← lex; x ← ParseExpr; ret (Some x)
        else ret None);
      ret (Some limit, None, offset)
    else
      _ ← lex;
      offset ← ParseExpr;
      _ ← expectRows;
      tok ← peek;
      fetch ← (
        if tok =t FETCH then
          _ ← lex;
          tok ← peek;
          if negb (tok =t NEXT) && negb (tok =t FIRST) then expected "NEXT/FIRST"
          else
            _ ← lex;
            x ← ParseExpr;
            _ ← expectRows;
            _ ← expect ONLY "ONLY";
            ret (Some x)
        else ret None);
      ret (None, fetch, Some offset)
  else ret (None, None, None).

Definition parseSelectStatement (compounded : bool) : PM SelectStatement :=
  _ ← expect SELECT "SELECT";
  tok ← peek;
  hint ← (
    if tok =t MLCOMMENT then ('(_, _, lit) ← lex; ret (Some lit)) else ret None);
  tok ← peek;
  '(all_, distinct) ← (
    if tok =t ALL then (_ ← lex; ret (true, false))
    else if tok =t DISTINCT then (_ ← lex; ret (false, true))
    else ret (false, false));
  columns ← parseOutputNames;
  tok ← peek;
  from ← (
    if tok =t FROM then (_ ← lex; s ← parseSource; ret (Some s)) else ret None);
  cond ← optionalExpr WHERE;
  '(grouping, having) ← parseGroupBy;
  '(union, unionall, intersect, except, compound) ← parseCompound;
  orderby ← parseOrderBy compounded;
  '(limit, fetch, offset) ← parseLimit compounded;
  ret (mkSelect hint all_ distinct columns from cond grouping having
         union unionall intersect except compound orderby limit fetch offset).

(** *** INSERT, UPDATE, DELETE *)

Definition parseAssignment : PM Assignment :=
  tok ← peek;
  cols ← (
    if isIdentToken tok then (c ← parseIdent "column name"; ret [c])
    else if tok =t LP then (_ ← lex; commaUntilRP (parseIdent "column name") n [])
    else expected "column name or column list");
  _ ← expect EQ "=";
  x ← ParseExpr;
  ret (mkAssignment cols x).

Definition parseIndexedColumn : PM IndexedColumn :=
  x ← ParseExpr;
  tok ← peek;
  if tok =t ASC then (_ ← lex; ret (mkIndexedColumn x true false))
  else if tok =t DESC then (_ ← lex; ret (mkIndexedColumn x false true))
  else ret (mkIndexedColumn x false false).

Definition parseUpsertClause : PM UpsertClause :=
  tok ← peek;
  _ ← assert (tok =t ON);
  _ ← lex;
  _ ← expect CONFLICT "CONFLICT";
  tok ← peek;
  '(cols, where_) ← (
    if tok =t LP then
      _ ← lex;
      cols ← commaUntilRP parseIndexedColumn n [];
      w ← optionalExpr WHERE;
      ret (cols, w)
    else ret ([], None));
  _ ← expect DO "DO";
  tok ← peek;
  if tok =t NOTHING then
    _ ← lex;
    ret (mkUpsert cols where_ true false [] None)
  else if negb (tok =t UPDATE) then expected "NOTHING or UPDATE SET"
  else
    _ ← lex;
    _ ← expect SET "SET";
    assignments ← commaSeparated parseAssignment n [];
    uw ← optionalExpr WHERE;
    ret (mkUpsert cols where_ false true assignments uw).

(** [OVERRIDING]: the SYSTEM/USER token is looked at but not read. *)
Definition parseOverriding : PM gostring :=
  tok ← peek;
  if tok =t OVERRIDING then
    _ ← lex;
    tok ← peek;
    ov ← (
      if tok =t SYSTEM then ret (str "system")
      else if tok =t USER then ret (str "user")
      else expected "SYSTEM or USER");
    _ ← expect VALUE "VALUE";
    ret ov
  else ret [].

Definition parseReturning : PM (option (list ResultColumn)) :=
  tok ← peek;
  if tok =t RETURNING then (_ ← lex; out ← parseOutputNames; ret (Some out)) else ret None.

(** One parenthesized row of [VALUES]. *)
Definition parseValuesRow : PM (list Expr) :=
  _ ← expect LP "left paren";
  commaUntilRP ParseExpr n [].

Definition parseInsertStatement : PM InsertStatement :=
  tok ← peek;
  _ ← assert (tok =t INSERT);
  _ ← lex;
  _ ← expect INTO "INTO";
  table ← parseTableName;
  tok ← peek;
  cols ← (
    if tok =t LP then (_ ← lex; commaUntilRP (parseIdent "column name") n []) else ret []);
  ov ← parseOverriding;
  tok ← peek;
  '(dflt, rows, query) ← (
    if tok =t DEFAULT then
      _ ← lex;
      _ ← expect VALUES "VALUES";
      ret (true, [], None)
    else if tok =t VALUES then
      _ ← lex;
      rows ← commaSeparated parseValuesRow n [];
      ret (false, rows, None)
    else if tok =t SELECT then
      q ← r_select rec false;
      ret (false, [], Some q)
    else expected "DEFAULT VALUES, VALUES or SELECT");
  tok ← peek;
  upsert ← (if tok =t ON then (u ← parseUpsertClause; ret (Some u)) else ret None);
  out ← parseReturning;
  ret (mkInsert table cols ov dflt rows query upsert out).

(** [WHERE CURRENT OF cursor] or [WHERE condition]. *)
Definition parseWhereOrCursor : PM (option Expr * option Ident) :=
  tok ← peek;
  if tok =t WHERE then
    _ ← lex;
    tok ← peek;
    if tok =t CURRENT then
      _ ← lex;
      _ ← expect OF "OF";
      c ← parseIdent "cursor name";
      ret (None, Some c)
    else (x ← ParseExpr; ret (Some x, None))
  else ret (None, None).

Definition parseUpdateStatement : PM UpdateStatement :=
  tok ← peek;
  _ ← assert (tok =t UPDATE);
  _ ← lex;
  table ← parseTableName;
  _ ← expect SET "SET";
  assignments ← commaSeparated parseAssignment n [];
  '(cond, cursor) ← parseWhereOrCursor;
  out ← parseReturning;
  ret (mkUpdate false table false None assignments [] cond cursor out).

Definition parseDeleteStatement : PM DeleteStatement :=
  tok ← peek;
  _ ← assert (tok =t DELETE);
  _ ← lex;
  tok ← peek;
  _ ← assert (tok =t FROM);
  _ ← lex;
  tok ← peek;
  only ← (if tok =t ONLY then (_ ← lex; ret true) else ret false);
  table ← parseTableName;
  tok ← peek;
  star ← (if tok =t STAR then (_ ← lex; ret true) else ret false);
  tok ← peek;
  _ ← (if tok =t AS then (_ ← lex; ret tt) else ret tt);
  tok ← peek;
  alias ← (if isIdentToken tok then (a ← parseIdent "alias"; ret (Some a)) else ret None);
  tok ← peek;
  if tok =t USING then (_ ← lex; throw ErrNotImplemented)
  else
    '(cond, cursor) ← parseWhereOrCursor;
    out ← parseReturning;
    ret (mkDelete only table star alias [] cond cursor out).

Definition parseStatement : PM Statement :=
  tok ← peek;
  if tok =t SELECT then (s ← r_select rec false; ret (StSelect s))
  else if tok =t INSERT then (s ← parseInsertStatement; ret (StInsert s))
  else if tok =t UPDATE then (s ← parseUpdateStatement; ret (StUpdate s))
  else if tok =t DELETE then (s ← parseDeleteStatement; ret (StDelete s))
  else expected "statement".
End WithRec.

(** The recursive entry points with a given fuel. *)
Fixpoint parserAt (fuel : nat) : Rec :=
  match fuel with
  | O => mkRec (fun _ => out_of_fuel) out_of_fuel (fun _ => out_of_fuel) out_of_fuel
  | S f =>
      let rec := parserAt f in
      mkRec (parseBinaryExpr rec f) (parseOperand rec f) (parseSelectStatement rec f)
        (parseSource rec f)
  end.

(** [ParseStatement], with the parser's fuel. *)
Definition ParseStatement (fuel : nat) : PM Statement :=
  tok ← peek;
  stmt ← (if tok =t EOF then throw ErrEOF else parseStatement (parserAt fuel) fuel);
  tok ← peek;
  if negb (tok =t EOF) && negb (tok =t SEMI) then expected "semicolon or EOF"
  else (_ ← lex; ret stmt).
End Parse.

Arguments Rec L : clear implicits.

(** ** Parsing text *)

(** Fuel for an input: more than the number of its runes. *)
Definition parse_fuel (s : gostring) : nat := S (S (length s)).

Definition ParseStatementString (s : gostring) : outcome GoError Statement :=
  '(stmt, _) ⇐ ParseStatement (parse_fuel s) (NewParser s);
  Ok stmt.

(** [ParseExprString]: nil for a blank string. *)
Definition ParseExprString (s : gostring) : outcome GoError (option Expr) :=
  if s =s [] then Ok None
  else
    '(e, _) ⇐ ParseExpr (parserAt (parse_fuel s)) (NewParser s);
    Ok (Some e).

(** [MustParseExprString]: panics with the error. *)
Definition MustParseExprString (s : gostring) : outcome GoError (option Expr) :=
  match ParseExprString s with Err e => Panic (Error_Error e) | r => r end.
