(* ===== verification/SqlParserTotal.v ===== *)
(** * The SQL parser terminates

    For every token source that delivers its tokens without panicking and makes progress on each
    one but [EOF] ([LawfulSource], which the lexer satisfies by its refinement theorem), parsing
    with a fuel larger than the number of tokens left never runs out of fuel. No assertion of the
    parse routines can fail, with one exception: [parseDeleteStatement] asserts that [DELETE] is
    followed by [FROM]. *)

From stdpp Require Import base list strings numbers option.
From S2P Require Import Prelude SqlToken SqlLexer SqlLexSpec SqlAst SqlParser.

(** ** What the parser relies on *)

Class LawfulSource (L : Type) {TS : TokenSource L} := {
  ts_inv : L -> Prop;
  ts_left : L -> nat;
  ts_lex_ok l : ts_inv l ->
    exists pos tok lit l', ts_lex l = Ok ((pos, tok, lit), l') /\ ts_inv l' /\
      (ts_left l' <= ts_left l)%nat /\ (tok ≠ EOF -> (ts_left l' < ts_left l)%nat)
}.

(** The runes a lexer has left, the one pushed back included. *)
Definition lexer_left (l : Lexer) : nat :=
  if l_full l then (if (l_ch l =? -1)%Z then 0 else S (length (l_r l)))%nat else length (l_r l).

Lemma lexer_at_left pre l s : lexer_at pre l s -> lexer_left l = length s.
Proof.
  intros [Hs H]. unfold lexer_left. destruct (l_full l).
  - destruct s as [|c s]; destruct H as (_ & -> & ->); [done|].
    replace (c =? -1) with false; [done|]. symmetry. apply Z.eqb_neq. inversion Hs. lia.
  - by destruct H as [_ ->].
Qed.

Definition lexer_inv (l : Lexer) : Prop := exists pre s, lexer_at pre l s.

Lemma Lex_lawful l :
  lexer_inv l ->
  exists pos tok lit l', ts_lex l = Ok ((pos, tok, lit), l') /\ lexer_inv l' /\
    (lexer_left l' <= lexer_left l)%nat /\ (tok ≠ EOF -> (lexer_left l' < lexer_left l)%nat).
Proof.
  intros (pre & s & Hl). pose proof (Lex_refines _ _ _ Hl) as H.
  pose proof (lex_runes_progress s) as Hp.
  destruct (lex_runes s) as [k [[tok lit] rest]].
  destruct H as (l' & pre' & HL & _ & Hl'). do 4 eexists. split; [exact HL|].
  split; [by eexists _, _|].
  rewrite (lexer_at_left _ _ _ Hl), (lexer_at_left _ _ _ Hl').
  destruct Hp as [(-> & _ & ->)|[? ?]]; simpl; (split; [lia|]); [done|lia].
Qed.

#[global] Instance lexer_lawful : LawfulSource Lexer :=
  {| ts_inv := lexer_inv; ts_left := lexer_left; ts_lex_ok := Lex_lawful |}.

(** ** Token operations *)

Lemma tokeqb_true a b : (a =t b) = true -> a = b.
Proof. by destruct (tokeqb_spec a b). Qed.

Lemma tok_in_true t l : tok_in t l = true -> t ∈ l.
Proof.
  unfold tok_in. intros H. apply existsb_exists in H as (x & Hin & Hx).
  apply tokeqb_true in Hx as ->. by apply list_elem_of_In.
Qed.

Section Total.
Context {L : Type} {TS : TokenSource L} {LS : LawfulSource L}.
Implicit Types (p : Parser L).

(** Tokens left: those of the source and the one pushed back. *)
Definition psize (p : Parser L) : nat :=
  ts_left (p_l p) + (if p_full p && negb (p_tok p =t EOF) then 1 else 0).

Definition pinv (p : Parser L) : Prop := ts_inv (p_l p).

(** No panic, no lack of fuel; an error is a legitimate outcome. *)
Abbreviation twp m Q p := (wp (S := Parser L) (E := GoError) m (fun _ => True) False Q p).

Lemma twp_lex p (Q : Pos * Token * gostring -> Parser L -> Prop) :
  pinv p ->
  (forall pos tok lit p', pinv p' -> p_full p' = false -> p_tok p' = tok ->
    (p_full p = true -> tok = p_tok p) ->
    (psize p' + (if tok =t EOF then 0 else 1) <= psize p)%nat -> Q (pos, tok, lit) p') ->
  twp lex Q p.
Proof.
  intros Hp HQ. unfold wp, lex. destruct (p_full p) eqn:Hf.
  - apply HQ; simpl; try done. unfold psize. simpl. rewrite Hf. simpl.
    destruct (p_tok p =t EOF); simpl; lia.
  - destruct (ts_lex_ok _ Hp) as (pos & tok & lit & l' & -> & Hl' & Hle & Hlt).
    apply HQ; simpl; try done. unfold psize. simpl. rewrite Hf. simpl.
    destruct (tokeqb_spec tok EOF); [lia|]. specialize (Hlt ltac:(done)). lia.
Qed.

Lemma twp_unlex p tok (Q : unit -> Parser L -> Prop) :
  pinv p -> p_full p = false -> p_tok p = tok ->
  (forall p', pinv p' -> p_full p' = true -> p_tok p' = tok ->
    psize p' = (psize p + if tok =t EOF then 0 else 1)%nat -> Q tt p') ->
  twp unlex Q p.
Proof.
  intros Hp Hf Ht HQ. unfold unlex. do 2 wp_step. rewrite Hf. wp_step. apply wp_ret.
  apply wp_modify. apply HQ; try done. unfold psize. simpl. rewrite Hf, Ht. simpl.
  destruct (tok =t EOF); simpl; lia.
Qed.

Lemma twp_peek p (Q : Token -> Parser L -> Prop) :
  pinv p ->
  (forall tok p', pinv p' -> p_full p' = true -> p_tok p' = tok ->
    (p_full p = true -> tok = p_tok p) -> (psize p' <= psize p)%nat -> Q tok p') ->
  twp peek Q p.
Proof.
  intros Hp HQ. unfold peek. do 2 wp_step. wp_step. destruct (p_full p) eqn:Hf.
  - apply wp_ret, wp_gets. by apply HQ.
  - wp_step. eapply twp_lex; [done|]. intros pos tok lit p1 Hp1 Hf1 Ht1 _ Hs1.
    eapply twp_unlex; [done..|]. intros p2 Hp2 Hf2 Ht2 Hs2. apply wp_gets.
    apply HQ; [done|done|done|congruence|]. destruct (tok =t EOF); lia.
Qed.

Lemma twp_expected {A} msg (Q : A -> Parser L -> Prop) p : twp (expected msg) Q p.
Proof. done. Qed.

Lemma twp_errorExpected {A} pos tok msg (Q : A -> Parser L -> Prop) p :
  twp (errorExpected pos tok msg) Q p.
Proof. done. Qed.

Lemma twp_expect t msg p (Q : unit -> Parser L -> Prop) :
  t ≠ EOF -> pinv p ->
  (forall p', pinv p' -> p_full p' = false -> (psize p' < psize p)%nat -> Q tt p') ->
  twp (expect t msg) Q p.
Proof.
  intros Ht Hp HQ. unfold expect. wp_step. apply twp_peek; [done|].
  intros tok p1 Hp1 Hf1 Ht1 _ Hs1. destruct (tokeqb_spec tok t) as [->|]; [|done].
  wp_step. apply twp_lex; [done|]. intros pos tok lit p2 Hp2 Hf2 _ Hk Hs2.
  apply wp_ret. apply HQ; [done|done|]. rewrite Hk in Hs2 by done. rewrite Ht1 in Hs2.
  destruct (tokeqb_spec t EOF); [done|lia].
Qed.

(** Reading the token that was just looked at. *)
Lemma twp_lex_full p tok (Q : Pos * Token * gostring -> Parser L -> Prop) :
  pinv p -> p_full p = true -> p_tok p = tok ->
  (forall pos lit p', pinv p' -> p_full p' = false -> p_tok p' = tok ->
    (psize p' <= psize p)%nat -> (tok ≠ EOF -> (psize p' < psize p)%nat) ->
    Q (pos, tok, lit) p') ->
  twp lex Q p.
Proof.
  intros Hp Hf Ht HQ. eapply twp_lex; [done|]. intros pos tok' lit p' Hp' Hf' Ht' Hk Hs.
  rewrite (Hk Hf), Ht in *. apply HQ; try done; destruct (tokeqb_spec tok EOF); done || lia.
Qed.

Lemma twp_peek_full p tok (Q : Token -> Parser L -> Prop) :
  p_full p = true -> p_tok p = tok -> Q tok p -> twp peek Q p.
Proof. intros Hf Ht HQ. unfold wp, peek, bind, gets, ret. rewrite Hf. simpl. by rewrite Ht. Qed.

Lemma peek_returns p :
  pinv p -> exists tok p', peek p = Ok (tok, p') /\ pinv p' /\ p_full p' = true /\
    p_tok p' = tok /\ (psize p' <= psize p)%nat.
Proof.
  intros Hp. pose proof (twp_peek p (fun tok p' => pinv p' /\ p_full p' = true /\
    p_tok p' = tok /\ (psize p' <= psize p)%nat) Hp ltac:(naive_solver)) as H.
  unfold wp in H. destruct (peek p) as [[tok p']|e|msg|] eqn:Hpk; [by eauto| |done|done].
  exfalso. revert Hpk. unfold peek, bind, gets, ret, lex, unlex, assert, modify.
  destruct (p_full p) eqn:Hf; simpl; [done|]. rewrite Hf.
  by destruct (ts_lex (p_l p)) as [[[[? ?] ?] ?]|[]|?|].
Qed.

Lemma lex_full_returns p :
  pinv p -> p_full p = true -> p_tok p ≠ EOF ->
  exists x p', lex p = Ok (x, p') /\ pinv p' /\ (psize p' < psize p)%nat.
Proof.
  intros Hp Hf Hne. unfold lex. rewrite Hf. do 2 eexists. split; [done|]. split; [done|].
  unfold psize. simpl. rewrite Hf. destruct (tokeqb_spec (p_tok p) EOF); [done|simpl; lia].
Qed.

Lemma twp_unlex_neof p tok (Q : unit -> Parser L -> Prop) :
  pinv p -> p_full p = false -> p_tok p = tok -> tok ≠ EOF ->
  (forall p', pinv p' -> p_full p' = true -> p_tok p' = tok ->
    psize p' = S (psize p) -> Q tt p') ->
  twp unlex Q p.
Proof.
  intros Hp Hf Ht Hne HQ. eapply twp_unlex; [done..|]. intros p' ? ? ? Hs.
  apply HQ; try done. destruct (tokeqb_spec tok EOF); [done|lia].
Qed.

Lemma twp_assert b p (Q : unit -> Parser L -> Prop) : b = true -> Q tt p -> twp (assert b) Q p.
Proof. by intros ->. Qed.

(** The two kinds of routines: those that take at least one token, those that take any number. *)
Definition consumes {A} (p : Parser L) (_ : A) (p' : Parser L) : Prop :=
  pinv p' /\ (psize p' < psize p)%nat.
Definition keeps {A} (p : Parser L) (_ : A) (p' : Parser L) : Prop :=
  pinv p' /\ (psize p' <= psize p)%nat.

(** [rec] is total on the parsers with fewer than [k] tokens left. *)
Record rec_ok (k : nat) (rec : Rec L) : Prop := {
  ok_expr prec p : (1 <= prec)%Z -> pinv p -> (psize p < k)%nat ->
    twp (r_expr rec prec) (consumes p) p;
  ok_operand p : pinv p -> (psize p < k)%nat -> twp (r_operand rec) (consumes p) p;
  ok_select b p : pinv p -> (psize p < k)%nat -> twp (r_select rec b) (consumes p) p;
  ok_source p : pinv p -> (psize p < k)%nat -> twp (r_source rec) (consumes p) p
}.
End Total.

Abbreviation twp m Q p := (wp m (fun _ => True) False Q p).

Lemma tok_in_neof t l : tok_in t l = true -> tok_in EOF l = false -> t ≠ EOF.
Proof. intros H1 H2 ->. congruence. Qed.

Lemma prec_neof t prec : (Precedence t <? prec) = false -> 1 <= prec -> t ≠ EOF.
Proof. intros H Hp ->. apply Z.ltb_ge in H. simpl in H. unfold LowestPrec in H. lia. Qed.

(** Closes [tok ≠ EOF] from what is known about [tok]. *)
Ltac neof :=
  first
  [ assumption
  | discriminate
  | match goal with
    | H : (?t =t ?x) = true |- ?t ≠ EOF =>
        apply tokeqb_true in H; rewrite H; discriminate
    | H : tok_in ?t ?l = true |- ?t ≠ EOF => exact (tok_in_neof t l H eq_refl)
    | H : (Precedence ?t <? _) = false |- ?t ≠ EOF =>
        eapply prec_neof; [exact H|first [assumption|lia]]
    | H : isIdentToken ?t = true |- ?t ≠ EOF =>
        intros ->; vm_compute in H; discriminate
    | H : (?a || ?b) = true |- _ =>
        apply orb_true_iff in H; destruct H as [H|H]; neof
    | H : (?a && ?b) = true |- _ =>
        apply andb_true_iff in H; destruct H as [? H]; neof
    end ].

Create HintDb total.
#[export] Hint Extern 1 (_ < _)%nat => lia : total.
#[export] Hint Extern 1 (_ <= _)%nat => lia : total.
#[export] Hint Extern 1 (_ <= _)%Z => (unfold LowestPrec in *; lia) : total.
#[export] Hint Resolve ok_operand ok_select ok_source ok_expr : total.

(** One step of a totality proof. *)
Ltac tstep :=
  lazymatch goal with
  | |- wp (ret _) _ _ _ _ => apply wp_ret
  | |- wp (bind _ _) _ _ _ _ => apply wp_bind
  | |- wp (throw _) _ _ _ _ => exact I
  | |- wp (expected _) _ _ _ _ => apply twp_expected
  | |- wp (errorExpected _ _ _) _ _ _ _ => apply twp_errorExpected
  | |- wp (gets _) _ _ _ _ => apply wp_gets
  | |- wp (modify _) _ _ _ _ => apply wp_modify
  | |- wp (assert _) _ _ _ _ => apply twp_assert; [solve [assumption|by rewrite ?tokeqb_refl]|]
  | |- wp lex _ _ _ ?p =>
      first
      [ eapply twp_lex_full; [eassumption|eassumption|eassumption|];
        let H := fresh "Hlt" in
        intros ? ? ? ? ? ? ? H; try (specialize (H ltac:(neof)))
      | eapply twp_lex; [eassumption|]; intros ? ? ? ? ? ? ? ? ? ]
  | |- wp peek _ _ _ _ =>
      first
      [ eapply twp_peek_full; [eassumption|eassumption|]
      | eapply twp_peek; [eassumption|]; intros ? ? ? ? ? _ ? ]
  | |- wp unlex _ _ _ _ =>
      eapply twp_unlex_neof; [eassumption|eassumption|eassumption|neof|]; intros ? ? ? ? ?
  | |- wp (expect _ _) _ _ _ _ =>
      eapply twp_expect; [discriminate|eassumption|]; intros ? ? ? ?
  | |- wp (if ?b then _ else _) _ _ _ _ =>
      let H := fresh "Hb" in
      destruct b eqn:H; try (apply tokeqb_true in H; try rewrite -> H in * |-)
  | |- wp (match ?x with _ => _ end) _ _ _ _ => destruct x
  | |- consumes _ _ _ => split; [assumption|lia]
  | |- keeps _ _ _ => split; [assumption|lia]
  | |- wp _ _ _ _ _ =>
      eapply wp_mono;
      [solve [eauto 3 with total]|done|done|cbv beta; intros ? ? [? ?]]
  end.

Ltac trun := repeat (tstep; try rewrite -> negb_true_iff in *; try rewrite -> negb_false_iff in *).

Section Routines.
Context {L : Type} {TS : TokenSource L} {LS : LawfulSource L}.
Implicit Types (p : Parser L).

Lemma parseIdent_total desc p : pinv p -> twp (parseIdent desc) (consumes p) p.
Proof.
  intros Hp. unfold parseIdent. tstep. tstep. tstep; [|tstep].
  tstep. split; [done|]. destruct (tokeqb_spec tok EOF) as [->|]; [done|lia].
Qed.
Hint Resolve parseIdent_total : total.

Lemma lexBinaryOp_total p tok :
  pinv p -> p_full p = true -> p_tok p = tok -> tok ≠ EOF -> twp lexBinaryOp (consumes p) p.
Proof. intros Hp Hf Ht Hne. unfold lexBinaryOp. trun. Qed.
Hint Resolve lexBinaryOp_total : total.

Lemma commaUntilRP_total {A} (item : stM (Parser L) GoError A) k n acc p :
  (forall p, pinv p -> (psize p < k)%nat -> twp item (consumes p) p) ->
  pinv p -> (psize p < n)%nat -> (psize p < k)%nat ->
  twp (commaUntilRP item n acc) (consumes p) p.
Proof.
  intros Hitem. revert acc p. induction n as [|n IH]; intros acc p Hp Hn Hk; [lia|].
  simpl. trun.
Qed.

Lemma commaSeparated_total {A} (item : stM (Parser L) GoError A) k n acc p :
  (forall p, pinv p -> (psize p < k)%nat -> twp item (consumes p) p) ->
  pinv p -> (psize p < n)%nat -> (psize p < k)%nat ->
  twp (commaSeparated item n acc) (consumes p) p.
Proof.
  intros Hitem. revert acc p. induction n as [|n IH]; intros acc p Hp Hn Hk; [lia|].
  simpl. trun.
Qed.

Context (k : nat) (rec : Rec L) (Hrec : rec_ok k rec).
Hint Resolve Hrec : total.

Lemma ParseExpr_total p : pinv p -> (psize p < k)%nat -> twp (ParseExpr rec) (consumes p) p.
Proof. intros Hp Hk. unfold ParseExpr. trun. Qed.
Hint Resolve ParseExpr_total : total.

Lemma parseQualifiedRef_total i p :
  pinv p -> p_full p = true -> p_tok p = DOT -> twp (parseQualifiedRef i) (consumes p) p.
Proof. intros Hp Hf Ht. unfold parseQualifiedRef. trun. Qed.
Hint Resolve parseQualifiedRef_total : total.

Lemma parseFilterClause_total p :
  pinv p -> p_full p = true -> p_tok p = FILTER -> (psize p < k)%nat ->
  twp (parseFilterClause rec) (consumes p) p.
Proof. intros Hp Hf Ht Hk. unfold parseFilterClause. trun. Qed.
Hint Resolve parseFilterClause_total : total.

Lemma parseCall_args_total n acc p :
  pinv p -> (psize p < n)%nat -> (psize p < k)%nat ->
  twp (parseCall_args rec n acc) (keeps p) p.
Proof.
  revert acc p. induction n as [|n IH]; intros acc p Hp Hn Hk; [lia|].
  simpl. trun.
Qed.
Hint Resolve parseCall_args_total : total.

Lemma parseCall_total i p :
  pinv p -> p_full p = true -> p_tok p = LP -> (psize p <= k)%nat ->
  twp (parseCall rec k i) (consumes p) p.
Proof. intros Hp Hf Ht Hk. unfold parseCall. trun. Qed.
Hint Resolve parseCall_total : total.

Lemma parseParenExpr_total p :
  pinv p -> p_full p = true -> p_tok p = LP -> (psize p <= k)%nat ->
  twp (parseParenExpr rec) (consumes p) p.
Proof. intros Hp Hf Ht Hk. unfold parseParenExpr. trun. Qed.
Hint Resolve parseParenExpr_total : total.

Lemma parseCase_blocks_total n acc p :
  pinv p -> (psize p < n)%nat -> (psize p <= k)%nat ->
  twp (parseCase_blocks rec n acc) (consumes p) p.
Proof.
  revert acc p. induction n as [|n IH]; intros acc p Hp Hn Hk; [lia|].
  simpl. trun.
Qed.
Hint Resolve parseCase_blocks_total : total.

Lemma parseCaseExpr_total p :
  pinv p -> p_full p = true -> p_tok p = CASE -> (psize p <= k)%nat ->
  twp (parseCaseExpr rec k) (consumes p) p.
Proof. intros Hp Hf Ht Hk. unfold parseCaseExpr. trun. Qed.
Hint Resolve parseCaseExpr_total : total.

Lemma parseExists_total p tok :
  pinv p -> p_full p = true -> p_tok p = tok -> tok_in tok [NOT; EXISTS] = true ->
  (psize p <= k)%nat -> twp (parseExists rec) (consumes p) p.
Proof.
  intros Hp Hf Ht Hin Hk. unfold parseExists. tstep. tstep. tstep.
  eapply twp_assert; [simpl in Hin; by rewrite orb_false_r in Hin|]. trun.
Qed.
Hint Resolve parseExists_total : total.

Lemma parseOperand_total p :
  pinv p -> (psize p <= k)%nat -> twp (parseOperand rec k) (consumes p) p.
Proof.
  intros Hp Hk. unfold parseOperand. tstep. tstep.
  destruct (tokeqb_spec tok EOF) as [->|Hne]; [done|]. trun.
  split; [done|]. change (psize p' < psize p)%nat. lia.
Qed.
Hint Resolve parseOperand_total : total.

Lemma parseExprs_items_total n acc p :
  pinv p -> (psize p < n)%nat -> (psize p < k)%nat ->
  twp (parseExprs_items rec n acc) (consumes p) p.
Proof.
  revert acc p. induction n as [|n IH]; intros acc p Hp Hn Hk; [lia|].
  simpl. trun.
Qed.
Hint Resolve parseExprs_items_total : total.

Lemma parseExprs_total p :
  pinv p -> (psize p <= k)%nat -> twp (parseExprs rec k) (consumes p) p.
Proof. intros Hp Hk. unfold parseExprs. trun. Qed.
Hint Resolve parseExprs_total : total.

Lemma parseBinaryExpr_loop_total n prec x p :
  1 <= prec -> pinv p -> (psize p < n)%nat -> (psize p <= k)%nat ->
  twp (parseBinaryExpr_loop rec k n prec x) (keeps p) p.
Proof.
  intros Hprec. revert x p. induction n as [|n IH]; intros x p Hp Hn Hk; [lia|].
  simpl. tstep. tstep. tstep; [trun|]. tstep.
  eapply wp_mono; [eapply lexBinaryOp_total; [eassumption..|neof]|done|done|].
  intros [q op] p1 [? ?]. pose proof (Precedence_bounds op). trun.
Qed.

Lemma parseBinaryExpr_total prec p :
  1 <= prec -> pinv p -> (psize p <= k)%nat ->
  twp (parseBinaryExpr rec k prec) (consumes p) p.
Proof.
  intros Hprec Hp Hk. unfold parseBinaryExpr. tstep. tstep.
  eapply wp_mono; [eapply parseBinaryExpr_loop_total; [done|done|lia|lia]|done|done|].
  intros ? ? [? ?]. tstep.
Qed.

(** *** Sources *)

Lemma parseTableName_total p : pinv p -> twp parseTableName (consumes p) p.
Proof. intros Hp. unfold parseTableName. trun. Qed.
Hint Resolve parseTableName_total : total.

Lemma parseJoinOperator_total p tok :
  pinv p -> p_full p = true -> p_tok p = tok -> twp parseJoinOperator (consumes p) p.
Proof. intros Hp Hf Ht. unfold parseJoinOperator. trun. Qed.
Hint Resolve parseJoinOperator_total : total.

Lemma parseOnConstraint_total p :
  pinv p -> p_full p = true -> p_tok p = ON -> (psize p <= k)%nat ->
  twp (parseOnConstraint rec) (consumes p) p.
Proof. intros Hp Hf Ht Hk. unfold parseOnConstraint. trun. Qed.
Hint Resolve parseOnConstraint_total : total.

Lemma column_names_total desc acc p :
  pinv p -> (psize p < k)%nat -> twp (commaUntilRP (parseIdent desc) k acc) (consumes p) p.
Proof. intros Hp Hk. eapply commaUntilRP_total; eauto with total. Qed.
Hint Resolve column_names_total : total.

Lemma parseUsingConstraint_total p :
  pinv p -> p_full p = true -> p_tok p = USING -> (psize p <= k)%nat ->
  twp (parseUsingConstraint k) (consumes p) p.
Proof. intros Hp Hf Ht Hk. unfold parseUsingConstraint. trun. Qed.
Hint Resolve parseUsingConstraint_total : total.

Lemma parseJoinConstraint_total p :
  pinv p -> (psize p <= k)%nat -> twp (parseJoinConstraint rec k) (keeps p) p.
Proof. intros Hp Hk. unfold parseJoinConstraint. trun. Qed.
Hint Resolve parseJoinConstraint_total : total.

Lemma parseParenSource_total p :
  pinv p -> p_full p = true -> p_tok p = LP -> (psize p <= k)%nat ->
  twp (parseParenSource rec) (consumes p) p.
Proof. intros Hp Hf Ht Hk. unfold parseParenSource. trun. Qed.
Hint Resolve parseParenSource_total : total.

Lemma parseUnarySource_total p :
  pinv p -> (psize p <= k)%nat -> twp (parseUnarySource rec) (consumes p) p.
Proof. intros Hp Hk. unfold parseUnarySource. trun. Qed.
Hint Resolve parseUnarySource_total : total.

Lemma parseSource_loop_total n src p :
  pinv p -> (psize p < n)%nat -> (psize p <= k)%nat ->
  twp (parseSource_loop rec k n src) (keeps p) p.
Proof.
  revert src p. induction n as [|n IH]; intros src p Hp Hn Hk; [lia|].
  simpl. trun.
Qed.

Lemma parseSource_total p :
  pinv p -> (psize p <= k)%nat -> twp (parseSource rec k) (consumes p) p.
Proof.
  intros Hp Hk. unfold parseSource. tstep. tstep.
  eapply wp_mono; [eapply parseSource_loop_total; [done|lia|lia]|done|done|].
  intros ? ? [? ?]. tstep.
Qed.
Hint Resolve parseSource_total : total.

(** *** SELECT *)

Lemma parseResultColumn_total p :
  pinv p -> (psize p < k)%nat -> twp (parseResultColumn rec) (consumes p) p.
Proof. intros Hp Hk. unfold parseResultColumn. trun. Qed.
Hint Resolve parseResultColumn_total : total.

Lemma parseOutputNames_total p :
  pinv p -> (psize p < k)%nat -> twp (parseOutputNames rec k) (consumes p) p.
Proof. intros Hp Hk. eapply commaSeparated_total; eauto with total. Qed.
Hint Resolve parseOutputNames_total : total.

Lemma parseOrderingTerm_total p :
  pinv p -> (psize p < k)%nat -> twp (parseOrderingTerm rec) (consumes p) p.
Proof. intros Hp Hk. unfold parseOrderingTerm. trun. Qed.
Hint Resolve parseOrderingTerm_total : total.

Lemma optionalExpr_total kw p :
  kw ≠ EOF -> pinv p -> (psize p <= k)%nat -> twp (optionalExpr rec kw) (keeps p) p.
Proof. intros Hkw Hp Hk. unfold optionalExpr. trun. Qed.
Hint Extern 1 (_ ≠ EOF) => discriminate : total.
Hint Resolve optionalExpr_total : total.

Lemma parseGroupBy_total p :
  pinv p -> (psize p <= k)%nat -> twp (parseGroupBy rec k) (keeps p) p.
Proof.
  intros Hp Hk. unfold parseGroupBy. trun.
  eapply wp_mono; [eapply (commaSeparated_total _ k); eauto with total|done|done|].
  intros ? ? [? ?]. trun.
Qed.
Hint Resolve parseGroupBy_total : total.

Lemma parseCompound_total p :
  pinv p -> (psize p <= k)%nat -> twp (parseCompound rec) (keeps p) p.
Proof. intros Hp Hk. unfold parseCompound. trun. Qed.
Hint Resolve parseCompound_total : total.

Lemma parseOrderBy_total b p :
  pinv p -> (psize p <= k)%nat -> twp (parseOrderBy rec k b) (keeps p) p.
Proof.
  intros Hp Hk. unfold parseOrderBy. trun.
  eapply wp_mono; [eapply (commaSeparated_total _ k); eauto with total|done|done|].
  intros ? ? [? ?]. trun.
Qed.
Hint Resolve parseOrderBy_total : total.

Lemma expectRows_total p : pinv p -> twp expectRows (keeps p) p.
Proof. intros Hp. unfold expectRows. trun. Qed.
Hint Resolve expectRows_total : total.

Lemma parseLimit_total b p :
  pinv p -> (psize p <= k)%nat -> twp (parseLimit rec b) (keeps p) p.
Proof. intros Hp Hk. unfold parseLimit. trun. Qed.
Hint Resolve parseLimit_total : total.

Lemma parseSelectStatement_total b p :
  pinv p -> (psize p <= k)%nat -> twp (parseSelectStatement rec k b) (consumes p) p.
Proof. intros Hp Hk. unfold parseSelectStatement. trun. Qed.
Hint Resolve parseSelectStatement_total : total.

(** *** INSERT, UPDATE, DELETE *)

Lemma parseAssignment_total p :
  pinv p -> (psize p < k)%nat -> twp (parseAssignment rec k) (consumes p) p.
Proof. intros Hp Hk. unfold parseAssignment. trun. Qed.
Hint Resolve parseAssignment_total : total.

Lemma assignments_total acc p :
  pinv p -> (psize p < k)%nat ->
  twp (commaSeparated (parseAssignment rec k) k acc) (consumes p) p.
Proof. intros Hp Hk. eapply commaSeparated_total; eauto with total. Qed.
Hint Resolve assignments_total : total.

Lemma parseIndexedColumn_total p :
  pinv p -> (psize p < k)%nat -> twp (parseIndexedColumn rec) (consumes p) p.
Proof. intros Hp Hk. unfold parseIndexedColumn. trun. Qed.
Hint Resolve parseIndexedColumn_total : total.

Lemma indexed_columns_total acc p :
  pinv p -> (psize p < k)%nat ->
  twp (commaUntilRP (parseIndexedColumn rec) k acc) (consumes p) p.
Proof. intros Hp Hk. eapply commaUntilRP_total; eauto with total. Qed.
Hint Resolve indexed_columns_total : total.

Lemma parseUpsertClause_total p :
  pinv p -> p_full p = true -> p_tok p = ON -> (psize p <= k)%nat ->
  twp (parseUpsertClause rec k) (consumes p) p.
Proof. intros Hp Hf Ht Hk. unfold parseUpsertClause. trun. Qed.
Hint Resolve parseUpsertClause_total : total.

Lemma parseOverriding_total p : pinv p -> twp parseOverriding (keeps p) p.
Proof. intros Hp. unfold parseOverriding. trun. Qed.
Hint Resolve parseOverriding_total : total.

Lemma parseReturning_total p :
  pinv p -> (psize p <= k)%nat -> twp (parseReturning rec k) (keeps p) p.
Proof. intros Hp Hk. unfold parseReturning. trun. Qed.
Hint Resolve parseReturning_total : total.

Lemma parseValuesRow_total p :
  pinv p -> (psize p < k)%nat -> twp (parseValuesRow rec k) (consumes p) p.
Proof.
  intros Hp Hk. unfold parseValuesRow. trun.
  eapply wp_mono; [eapply (commaUntilRP_total _ k); eauto with total|done|done|].
  intros ? ? [? ?]. trun.
Qed.
Hint Resolve parseValuesRow_total : total.

Lemma values_total acc p :
  pinv p -> (psize p < k)%nat ->
  twp (commaSeparated (parseValuesRow rec k) k acc) (consumes p) p.
Proof. intros Hp Hk. eapply commaSeparated_total; eauto with total. Qed.
Hint Resolve values_total : total.

Lemma parseInsertStatement_total p :
  pinv p -> p_full p = true -> p_tok p = INSERT -> (psize p <= k)%nat ->
  twp (parseInsertStatement rec k) (consumes p) p.
Proof. intros Hp Hf Ht Hk. unfold parseInsertStatement. trun. Qed.
Hint Resolve parseInsertStatement_total : total.

Lemma parseWhereOrCursor_total p :
  pinv p -> (psize p <= k)%nat -> twp (parseWhereOrCursor rec) (keeps p) p.
Proof. intros Hp Hk. unfold parseWhereOrCursor. trun. Qed.
Hint Resolve parseWhereOrCursor_total : total.

Lemma parseUpdateStatement_total p :
  pinv p -> p_full p = true -> p_tok p = UPDATE -> (psize p <= k)%nat ->
  twp (parseUpdateStatement rec k) (consumes p) p.
Proof. intros Hp Hf Ht Hk. unfold parseUpdateStatement. trun. Qed.
Hint Resolve parseUpdateStatement_total : total.

(** The token after the next one is not [FROM]. *)
Definition second_not_from (p : Parser L) : Prop :=
  exists x p1 tok p2, lex p = Ok (x, p1) /\ peek p1 = Ok (tok, p2) /\ tok ≠ FROM.

Lemma parseDeleteStatement_total p :
  pinv p -> p_full p = true -> p_tok p = DELETE -> (psize p <= k)%nat ->
  wp (parseDeleteStatement rec k) (fun _ => True) (second_not_from p) (consumes p) p.
Proof.
  intros Hp Hf Ht Hk. unfold parseDeleteStatement. tstep.
  unfold wp at 1. unfold peek at 1, bind at 1, gets at 1. rewrite Hf. simpl. rewrite Ht. simpl.
  destruct (lex_full_returns p Hp Hf ltac:(congruence)) as (x & p1 & Hlex & Hp1 & Hs1).
  eapply wp_bind_ok; [done|]. eapply wp_bind_ok; [done|].
  destruct (peek_returns p1 Hp1) as (tok & p2 & Hpk & Hp2 & Hf2 & Ht2 & Hs2).
  eapply wp_bind_ok; [done|]. destruct (tokeqb_spec tok FROM) as [->|Hne].
  - eapply wp_mono with (PP := False); [|done|by intros []|done]. trun.
  - apply wp_bind. unfold wp at 1, assert. simpl. by do 4 eexists.
Qed.

Lemma parseStatement_total p tok :
  pinv p -> p_full p = true -> p_tok p = tok -> (psize p < k)%nat ->
  wp (parseStatement rec k) (fun _ => True) (tok = DELETE /\ second_not_from p) (consumes p) p.
Proof.
  intros Hp Hf Ht Hk. unfold parseStatement. eapply wp_bind_ok.
  { unfold peek, bind, gets, ret. rewrite Hf. simpl. by rewrite Ht. }
  repeat (match goal with |- wp (if ?b then _ else _) _ _ _ _ => destruct b eqn:Hb end;
    [apply tokeqb_true in Hb; rewrite -> Hb in * |-;
     apply wp_bind; (eapply wp_mono; [solve [eauto 3 with total]|done|by intros []|cbv beta;
       intros ? ? [? ?]; trun])|clear Hb]).
  destruct (tok =t DELETE) eqn:Hb; [|done].
  apply tokeqb_true in Hb. rewrite -> Hb in * |-. apply wp_bind.
  eapply wp_mono; [by apply parseDeleteStatement_total; [..|lia]|done|naive_solver|].
  cbv beta. intros ? ? [? ?]. by trun.
Qed.
End Routines.

(** ** The fuel is enough *)

Section Fuel.
Context {L : Type} {TS : TokenSource L} {LS : LawfulSource L}.
Implicit Types (p : Parser L).

Lemma parserAt_ok fuel : rec_ok fuel (parserAt (L := L) fuel).
Proof.
  induction fuel as [|f IH]; split; intros; try lia.
  - eapply parseBinaryExpr_total; [done|done|done|lia].
  - eapply parseOperand_total; [done|done|lia].
  - eapply parseSelectStatement_total; [done|done|lia].
  - eapply parseSource_total; [done|done|lia].
Qed.

Lemma ParseExpr_returns fuel p :
  pinv p -> (psize p < fuel)%nat -> twp (ParseExpr (parserAt fuel)) (consumes p) p.
Proof. intros Hp Hk. eapply ParseExpr_total; [apply parserAt_ok|done|done]. Qed.

(** The tokens at which [ParseStatement] panics: [DELETE] and then not [FROM]. *)
Definition delete_not_from (p : Parser L) : Prop :=
  exists p', peek p = Ok (DELETE, p') /\ second_not_from p'.

Lemma ParseStatement_returns fuel p :
  pinv p -> (psize p < fuel)%nat ->
  wp (ParseStatement fuel) (fun _ => True) (delete_not_from p) (keeps p) p.
Proof.
  intros Hp Hk. unfold ParseStatement.
  destruct (peek_returns p Hp) as (tok & p1 & Hpk & Hp1 & Hf1 & Ht1 & Hs1).
  eapply wp_bind_ok; [done|]. apply wp_bind.
  destruct (tok =t EOF) eqn:?; [done|].
  eapply wp_mono;
    [eapply (parseStatement_total fuel); [apply parserAt_ok|done|done|done|lia]|done| |].
  - intros [-> H]. by exists p1.
  - cbv beta. intros stmt p2 [? ?]. eapply wp_mono with (PP := False); [|done|by intros []|done]. by trun.
Qed.

Lemma ParseStatement_panics fuel p :
  delete_not_from p -> ParseStatement fuel p = Panic (str "assert failed").
Proof.
  intros (p1 & Hpk & x & p2 & tok & p3 & Hlex & Hpk2 & Hne).
  assert (Hfull : peek p1 = Ok (DELETE, p1)).
  { revert Hpk. clear. unfold peek, bind, gets, ret, unlex, assert, modify.
    destruct (p_full p) eqn:Hf; simpl.
    - intros [= Ht <-]. rewrite Hf. simpl. by rewrite Ht.
    - destruct (lex p) as [[a q]| | |]; simpl; [|done..].
      unfold bind. simpl. destruct (p_full q); simpl; [done|]. intros [= Ht <-]. simpl.
      by rewrite Ht. }
  unfold ParseStatement, bind at 1. rewrite Hpk. unfold bind at 1. simpl.
  unfold parseStatement, bind at 1. rewrite Hfull. simpl.
  unfold bind at 1, parseDeleteStatement, bind at 1. rewrite Hfull. simpl.
  unfold bind at 1, assert at 1. simpl. unfold bind at 1. rewrite Hlex.
  unfold bind at 1. rewrite Hpk2. destruct (tokeqb_spec tok FROM); [done|]. reflexivity.
Qed.
End Fuel.

(** ** Parsing text *)

(** The first token of the text is [DELETE] and the second is not [FROM]. *)
Definition delete_without_from (s : gostring) : bool :=
  let '(_, (t1, _, rest)) := lex_runes s in
  let '(_, (t2, _, _)) := lex_runes rest in
  (t1 =t DELETE) && negb (t2 =t FROM).

Lemma peek_text p pre s :
  p_full p = false -> lexer_at pre (p_l p) s ->
  let '(_, (tok, lit, rest)) := lex_runes s in
  exists pos l' pre', peek p = Ok (tok, mkParser l' pos tok lit true (p_binds p)) /\
    lexer_at pre' l' rest.
Proof.
  intros Hf Hl. pose proof (Lex_refines _ _ _ Hl) as H.
  destruct (lex_runes s) as [k [[tok lit] rest]]. destruct H as (l' & pre' & HL & _ & Hl').
  do 3 eexists. split; [|exact Hl']. unfold peek, bind, gets, ret. rewrite Hf.
  unfold bind, lex. rewrite Hf. simpl. unfold ts_lex, lexer_source. by rewrite HL.
Qed.

Lemma delete_without_from_spec s :
  Forall (fun c => 0 <= c) s -> delete_not_from (NewParser s) <-> delete_without_from s = true.
Proof.
  intros Hs. pose proof (peek_text (NewParser s) [] s eq_refl (NewLexer_at s Hs)) as H.
  unfold delete_without_from. destruct (lex_runes s) as [k [[t1 lit1] rest]].
  destruct H as (pos & l' & pre' & Hpk & Hl').
  pose proof (peek_text (mkParser l' pos t1 lit1 false 0) pre' rest eq_refl Hl') as H2.
  destruct (lex_runes rest) as [k2 [[t2 lit2] rest2]]. destruct H2 as (pos2 & l2 & pre2 & Hpk2 & _).
  rewrite andb_true_iff, negb_true_iff. unfold delete_not_from, second_not_from. split.
  - intros (p' & Hp' & x & p1 & tok & p2 & Hx & Ht & Hne).
    rewrite Hpk in Hp'. injection Hp' as -> <-.
    unfold lex in Hx. simpl in Hx. injection Hx as <- <-. rewrite Hpk2 in Ht.
    injection Ht as -> <-. split; [apply tokeqb_refl|]. by destruct (tokeqb_spec tok FROM).
  - intros [H1 H2]. apply tokeqb_true in H1 as ->. eexists. split; [exact Hpk|].
    do 4 eexists. split; [reflexivity|]. split; [exact Hpk2|]. intros ->. done.
Qed.

Lemma NewParser_inv s :
  Forall (fun c => 0 <= c) s -> pinv (NewParser s) /\ psize (NewParser s) = length s.
Proof.
  intros Hs. pose proof (NewLexer_at s Hs) as H. split; [by eexists _, _|].
  unfold psize. simpl. rewrite (lexer_at_left _ _ _ H). lia.
Qed.

(** C2: parsing a text terminates: the fuel computed from its length is enough, and the outcome
    is a statement, an error, or a panic, the last exactly when the text starts with [DELETE] not
    followed by [FROM]. *)
Theorem ParseStatementString_total s :
  Forall (fun c => 0 <= c) s ->
  match ParseStatementString s with
  | Ok _ | Err _ => delete_without_from s = false
  | Panic _ => delete_without_from s = true
  | OutOfFuel => False
  end.
Proof.
  intros Hs. destruct (NewParser_inv s Hs) as [Hp Hn].
  pose proof (delete_without_from_spec s Hs) as Hd. unfold ParseStatementString.
  pose proof (ParseStatement_returns (parse_fuel s) (NewParser s) Hp
    ltac:(rewrite Hn; unfold parse_fuel; lia)) as H. unfold wp in H.
  destruct (delete_without_from s) eqn:Hdel.
  - by rewrite (ParseStatement_panics _ _ (proj2 Hd eq_refl)).
  - destruct (ParseStatement (parse_fuel s) (NewParser s)) as [[stmt p']|e|msg|]; simpl; try done.
    by apply Hd in H.
Qed.

Lemma ParseStatementString_total_witness :
  match ParseStatementString (str "DELETE users") with
  | Ok _ | Err _ => delete_without_from (str "DELETE users") = false
  | Panic _ => delete_without_from (str "DELETE users") = true
  | OutOfFuel => False
  end.
Proof.
  apply ParseStatementString_total. repeat constructor; vm_compute; discriminate.
Defined.

(** Parsing an expression terminates with an expression or an error; it never panics. *)
Theorem ParseExprString_total s :
  Forall (fun c => 0 <= c) s ->
  (exists e, ParseExprString s = Ok e) \/ (exists err, ParseExprString s = Err err).
Proof.
  intros Hs. destruct (NewParser_inv s Hs) as [Hp Hn]. unfold ParseExprString.
  destruct (s =s []); [by eauto|].
  pose proof (ParseExpr_returns (parse_fuel s) (NewParser s) Hp
    ltac:(rewrite Hn; unfold parse_fuel; lia)) as H. unfold wp in H.
  destruct (ParseExpr (parserAt (parse_fuel s)) (NewParser s)) as [[stmt p']|e|msg|];
    simpl; eauto; done.
Qed.

Lemma ParseExprString_total_witness :
  (exists e, ParseExprString (str "a = ? AND") = Ok e) \/
  (exists err, ParseExprString (str "a = ? AND") = Err err).
Proof. apply ParseExprString_total. repeat constructor; vm_compute; discriminate. Defined.
