(* ===== verification/SqlTokens.v ===== *)
(** * The tokens of an expression

    [etoks] lists the tokens that an expression prints to, and [wf] the expressions that the
    grammar of the parser can produce at a given precedence: every operand of an operator binds
    tighter than the operator, as the parser's precedences have it. [follows] says that the token
    after an expression does not extend it. Subqueries are outside this fragment. *)

From stdpp Require Import base list strings numbers option.
From S2P Require Import Prelude SqlToken SqlAst.

(** A token: its kind, its literal where it matters, and the number of a bind parameter. *)
Record tokl := mkTok {
  t_tok : Token;
  t_lit : option gostring;
  t_num : option Z
}.

Definition tk (t : Token) : tokl := mkTok t None None.
Definition tkl (t : Token) (l : gostring) : tokl := mkTok t (Some l) None.

(** The text between quotes, as the lexer delivers it. *)
Definition ident_tok (i : Ident) : tokl :=
  if Quoted i then tkl QIDENT (QuoteChar i ++ Name i ++ QuoteChar i) else tkl IDENT (Name i).

(** A quoted identifier has a one-rune quote, an unquoted one has none. *)
Definition wf_ident (i : Ident) : bool :=
  if Quoted i then (length (QuoteChar i) =? 1)%nat else (length (QuoteChar i) =? 0)%nat.

Definition number_tok (v : gostring) : Token :=
  if forallb (fun c => (48 <=? c) && (c <=? 57)) v then INTEGER else FLOAT.

(** The words of an operator. *)
Definition op_words (op : Token) : list Token :=
  match op with
  | ISNOT => [IS; NOT]
  | NOTIN => [NOT; IN]
  | NOTLIKE => [NOT; LIKE]
  | NOTGLOB => [NOT; GLOB]
  | NOTREGEXP => [NOT; REGEXP]
  | NOTMATCH => [NOT; MATCH]
  | NOTBETWEEN => [NOT; BETWEEN]
  | _ => [op]
  end.

Definition first_word (op : Token) : Token := List.hd op (op_words op).

(** Token lists separated by commas. *)
Definition sep_toks {A} (f : A -> list tokl) : list A -> list tokl :=
  fix go (l : list A) : list tokl :=
    match l with
    | [] => []
    | [x] => f x
    | x :: l' => f x ++ tk COMMA :: go l'
    end.

Fixpoint etoks (e : Expr) : list tokl :=
  match e with
  | EIdent i => [ident_tok i]
  | EStringLit v => [tkl STRING v]
  | EBlobLit v => [tkl BLOB v]
  | ENumberLit v => [tkl (number_tok v) v]
  | ENullLit => [tk NULL]
  | EBoolLit v => [tk (if v then TRUE else FALSE)]
  | EBindExpr name pos => [mkTok BIND (Some name) (Some pos)]
  | EUnaryExpr op x => tk op :: etoks x
  | EBinaryExpr x op y => etoks x ++ map tk (op_words op) ++ etoks y
  | ECaseExpr operand blocks els =>
      tk CASE :: (match operand with Some x => etoks x | None => [] end) ++
      concat (map btoks blocks) ++
      (match els with Some x => tk ELSE :: etoks x | None => [] end) ++ [tk END]
  | EExists _ _ => []
  | EExprs l => tk LP :: sep_toks etoks l ++ [tk RP]
  | ERange x y => etoks x ++ tk AND :: etoks y
  | EQualifiedRef table star column =>
      [ident_tok table; tk DOT] ++
      (if star then [tk STAR] else match column with Some c => [ident_tok c] | None => [] end)
  | ECall name star distinct args filter =>
      [ident_tok name; tk LP] ++
      (if star then [tk STAR]
       else (if distinct then [tk DISTINCT] else []) ++ sep_toks etoks args) ++
      [tk RP] ++ (match filter with Some f => ftoks f | None => [] end)
  | EParenExpr x => tk LP :: etoks x ++ [tk RP]
  end
with btoks (b : CaseBlock) : list tokl :=
  match b with mkCaseBlock c x => tk WHEN :: etoks c ++ tk THEN :: etoks x end
with ftoks (f : FilterClause) : list tokl :=
  match f with mkFilterClause x => [tk FILTER; tk LP; tk WHERE] ++ etoks x ++ [tk RP] end.

(** The operators that take an expression on their right. *)
Definition plain_ops : list Token :=
  [PLUS; MINUS; STAR; SLASH; REM; CONCAT; LSHIFT; RSHIFT; BITAND; BITOR; LT; LG; LE; GT; GE; EQ; NE;
   IS; ISNOT; LIKE; NOTLIKE; GLOB; NOTGLOB; MATCH; NOTMATCH; REGEXP; NOTREGEXP; AND; OR].

Definition plain_op (op : Token) : bool := tok_in op plain_ops.
Definition list_op (op : Token) : bool := tok_in op [IN; NOTIN].
Definition range_op (op : Token) : bool := tok_in op [BETWEEN; NOTBETWEEN].

(** What [parseOperand] reads. *)
Definition is_operand (e : Expr) : bool :=
  match e with EBinaryExpr _ _ _ | EExprs _ | ERange _ _ | EExists _ _ => false | _ => true end.

(** The token after an expression does not extend it. *)
Fixpoint follows (e : Expr) (tok : Token) : bool :=
  match e with
  | EIdent _ => negb (tok_in tok [DOT; LP])
  | EUnaryExpr _ x => follows x tok
  | EBinaryExpr x op y =>
      if list_op op then true
      else if range_op op then
        (Precedence tok <? 1) && match y with ERange _ b => follows b tok | _ => true end
      else (Precedence tok <? Precedence op + 1) && follows y tok
  | ECall _ _ _ _ None => negb (tok =t FILTER)
  | _ => true
  end.

(** A token that ends every expression. *)
Definition stops (tok : Token) : bool :=
  (Precedence tok =? 0) && negb (tok_in tok [DOT; LP; FILTER]).

Fixpoint wf (m : Z) (e : Expr) : bool :=
  match e with
  | EIdent i => wf_ident i
  | EStringLit _ | EBlobLit _ | ENumberLit _ | ENullLit | EBoolLit _ => true
  | EBindExpr _ _ => true
  | EUnaryExpr op x => tok_in op [PLUS; MINUS] && is_operand x && wf 1 x
  | EBinaryExpr x op y =>
      (m <=? Precedence (first_word op)) && wf m x && follows x (first_word op) &&
      (if list_op op then
         match y with EExprs l => forallb (wf 1) l | _ => false end
       else if range_op op then
         match y with
         | ERange a b => wf 1 a && follows a AND && wf (Precedence AND + 1) b
         | _ => false
         end
       else plain_op op && wf (Precedence op + 1) y)
  | ECaseExpr operand blocks els =>
      (match operand with Some x => wf 1 x | None => true end) &&
      negb (length blocks =? 0)%nat && forallb wf_block blocks &&
      (match els with Some x => wf 1 x | None => true end)
  | EExists _ _ | EExprs _ | ERange _ _ => false
  | EQualifiedRef table star column =>
      wf_ident table &&
      (if star then match column with None => true | Some _ => false end
       else match column with Some c => wf_ident c | None => false end)
  | ECall name star distinct args filter =>
      wf_ident name &&
      (if star then negb distinct && (length args =? 0)%nat else forallb (wf 1) args) &&
      (match filter with Some f => wf_filter f | None => true end)
  | EParenExpr x => wf 1 x
  end
with wf_block (b : CaseBlock) : bool :=
  match b with mkCaseBlock c x => wf 1 c && wf 1 x end
with wf_filter (f : FilterClause) : bool :=
  match f with mkFilterClause x => wf 1 x end.

(** The bind parameters of a token list are numbered from [b] on. *)
Fixpoint numbered (b : Z) (ts : list tokl) : Prop :=
  match ts with
  | [] => True
  | t :: ts =>
      match t_num t with
      | Some n => t_tok t = BIND /\ n = b /\ numbered (b + 1) ts
      | None => t_tok t ≠ BIND /\ numbered b ts
      end
  end.
