(* ===== verification/SqlStream.v ===== *)
(** * Running the parser on a known list of tokens

    [Stream p ts]: parser [p] will deliver the tokens [ts]. The rules below execute the token
    operations of the parser on such a state; the routines of the parser are then specified by
    what they return and which tokens they leave. *)

From stdpp Require Import base list strings numbers option.
From S2P Require Import Prelude SqlToken SqlLexer SqlAst SqlParser SqlTokens.

Section Stream.
Context {L : Type} {TS : TokenSource L}.
Implicit Types (p : Parser L).

Definition lit_is (l : gostring) (o : option gostring) : Prop :=
  match o with Some l' => l = l' | None => True end.

Fixpoint Emits (l : L) (ts : list tokl) : Prop :=
  match ts with
  | [] => True
  | t :: ts => exists pos lit l', ts_lex l = Ok ((pos, t_tok t, lit), l') /\
      lit_is lit (t_lit t) /\ Emits l' ts
  end.

Definition Stream (p : Parser L) (ts : list tokl) : Prop :=
  numbered (p_binds p) ts /\
  if p_full p then
    match ts with
    | [] => False
    | t :: ts => p_tok p = t_tok t /\ lit_is (p_lit p) (t_lit t) /\ Emits (p_l p) ts
    end
  else Emits (p_l p) ts.

(** Returns, without error. *)
Abbreviation runs m Q p := (wp (S := Parser L) (E := GoError) m (fun _ => False) False Q p).

(** After a token has been read: it can be pushed back. *)
Definition Just (p : Parser L) (t : tokl) (ts : list tokl) : Prop :=
  p_full p = false /\ p_tok p = t_tok t /\ lit_is (p_lit p) (t_lit t) /\ Emits (p_l p) ts.

Lemma run_lex_just p t ts (Q : Pos * Token * gostring -> Parser L -> Prop) :
  Stream p (t :: ts) ->
  (forall pos lit p', Just p' t ts -> lit_is lit (t_lit t) -> p_binds p' = p_binds p ->
    Q (pos, t_tok t, lit) p') ->
  runs lex Q p.
Proof.
  intros [Hn Hp] HQ. unfold wp, lex. destruct (p_full p).
  - destruct Hp as (Ht & Hl & He). rewrite Ht. by apply HQ.
  - destruct Hp as (pos & lit & l' & -> & Hl & He). by apply HQ.
Qed.

Lemma run_lex p t ts (Q : Pos * Token * gostring -> Parser L -> Prop) :
  Stream p (t :: ts) -> t_tok t ≠ BIND ->
  (forall pos lit p', Stream p' ts -> lit_is lit (t_lit t) -> Q (pos, t_tok t, lit) p') ->
  runs lex Q p.
Proof.
  intros Hp Ht HQ. eapply run_lex_just; [exact Hp|]. intros pos lit p' (Hf & _ & _ & He) Hl Hb.
  apply HQ; [|done]. destruct Hp as [Hn _]. split; [|by rewrite Hf]. rewrite Hb.
  simpl in Hn. destruct (t_num t); [by destruct Hn|by destruct Hn].
Qed.

Lemma run_unlex p t ts (Q : unit -> Parser L -> Prop) :
  Just p t ts -> numbered (p_binds p) (t :: ts) ->
  (forall p', Stream p' (t :: ts) -> p_tok p' = t_tok t -> Q tt p') -> runs unlex Q p.
Proof.
  intros (Hf & Ht & Hl & He) Hn HQ. unfold unlex. do 2 wp_step. rewrite Hf. wp_step. apply wp_ret.
  apply wp_modify. by apply HQ.
Qed.

Lemma run_peek p t ts (Q : Token -> Parser L -> Prop) :
  Stream p (t :: ts) -> (forall p', Stream p' (t :: ts) -> Q (t_tok t) p') -> runs peek Q p.
Proof.
  intros Hp HQ. unfold peek. do 2 wp_step. wp_step. destruct (p_full p) eqn:Hf.
  - apply wp_ret, wp_gets. pose proof Hp as [_ Hp']. rewrite Hf in Hp'. destruct Hp' as [Ht _].
    rewrite Ht. by apply HQ.
  - wp_step. eapply run_lex_just; [exact Hp|]. intros pos lit p' Hj Hl Hb.
    pose proof Hp as [Hn _]. rewrite <- Hb in Hn.
    eapply run_unlex; [exact Hj|done|]. intros p'' Hp'' Ht. apply wp_gets. rewrite Ht. by apply HQ.
Qed.

Lemma run_expect p t msg ts (Q : unit -> Parser L -> Prop) :
  Stream p (tk t :: ts) -> t ≠ BIND -> (forall p', Stream p' ts -> Q tt p') ->
  runs (expect t msg) Q p.
Proof.
  intros Hp Ht HQ. unfold expect. wp_step. eapply run_peek; [exact Hp|]. intros p1 Hp1.
  simpl. rewrite tokeqb_refl. wp_step. eapply run_lex; [exact Hp1|done|].
  intros pos lit p2 Hp2 _. by apply wp_ret, HQ.
Qed.

Lemma run_assert b p (Q : unit -> Parser L -> Prop) : b = true -> Q tt p -> runs (assert b) Q p.
Proof. by intros ->. Qed.

(** A bind parameter takes the next number. *)
Lemma run_lex_bind p name n ts (Q : Pos * Token * gostring -> Parser L -> Prop) :
  Stream p (mkTok BIND (Some name) (Some n) :: ts) ->
  (forall pos p', p_binds p' = n ->
    Stream (mkParser (p_l p') (p_pos p') (p_tok p') (p_lit p') (p_full p') (n + 1)) ts ->
    Q (pos, BIND, name) p') ->
  runs lex Q p.
Proof.
  intros Hp HQ. eapply run_lex_just; [exact Hp|]. intros pos lit p' (Hf & _ & _ & He) Hl Hb.
  simpl in Hl. subst lit. destruct Hp as [(_ & Hn & Hnum) _]. apply HQ; [congruence|].
  split; simpl; [by subst n|by rewrite Hf].
Qed.
End Stream.

Abbreviation runs m Q p := (wp m (fun _ => False) False Q p).

(** The routine returned [e] and left [ts]. *)
Definition returns {L A} {TS : TokenSource L} (e : A) (ts : list tokl) (x : A) (p : Parser L) :
    Prop := x = e /\ Stream p ts.

(** Decides the conditions on the tokens in sight. *)
Ltac tok_simpl :=
  cbn [t_tok t_lit t_num tk tkl negb andb orb];
  cbv beta iota;
  repeat match goal with
  | |- context [tok_in ?a ?l] =>
      is_constructor a; let r := eval vm_compute in (tok_in a l) in change (tok_in a l) with r
  | |- context [?a =t ?b] =>
      first
      [ is_constructor a; is_constructor b;
        let r := eval vm_compute in (a =t b) in change (a =t b) with r
      | match goal with H : (a =t b) = _ |- _ => rewrite H end ]
  end; cbn [negb andb orb]; cbv iota.

(** One step of an execution on known tokens. *)
Ltac sstep :=
  lazymatch goal with
  | |- wp (ret _) _ _ _ _ => apply wp_ret
  | |- wp (bind _ _) _ _ _ _ => apply wp_bind
  | |- wp (gets _) _ _ _ _ => apply wp_gets
  | |- wp (modify _) _ _ _ _ => apply wp_modify
  | |- wp (assert _) _ _ _ _ => apply run_assert; [reflexivity|]
  | H : Stream ?p (_ :: _) |- wp peek _ _ _ ?p =>
      eapply run_peek; [exact H|]; clear H; intros ? H; tok_simpl
  | H : Stream ?p (_ :: _) |- wp lex _ _ _ ?p =>
      eapply run_lex; [exact H|first [discriminate|assumption]|]; clear H; intros ? ? ? H ?; tok_simpl
  | H : Stream ?p (_ :: _) |- wp (expect _ _) _ _ _ ?p =>
      eapply run_expect; [exact H|discriminate|]; clear H; intros ? H; tok_simpl
  end.
