(* ===== verification/SqlRoundtrip.v ===== *)
(** * The parser reads back the tokens of an expression

    For every expression of the grammar ([wf]), parsing its tokens ([etoks]) gives the expression
    back and leaves what follows: the parser is complete for its grammar and its precedence rules
    are those of [wf]. *)

From stdpp Require Import base list strings numbers option.
From S2P Require Import Prelude SqlToken SqlLexer SqlAst SqlParser SqlParserTotal SqlTokens SqlStream.

(** ** First and next tokens *)

(** The tokens an expression can start with. *)
Definition starts (tok : Token) : bool :=
  tok_in tok [IDENT; QIDENT; STRING; BLOB; INTEGER; FLOAT; NULL; TRUE; FALSE; BIND; PLUS; MINUS; LP;
    CASE].

Lemma ident_tok_starts i : starts (t_tok (ident_tok i)) = true.
Proof. unfold ident_tok. by destruct (Quoted i). Qed.

Lemma etoks_head m e : wf m e = true ->
  exists t ts, etoks e = t :: ts /\ starts (t_tok t) = true.
Proof.
  revert m. induction e; intros m Hwf; simpl in *; try discriminate; try (by do 2 eexists).
  - do 2 eexists. split; [done|]. apply ident_tok_starts.
  - do 2 eexists. split; [done|]. simpl. unfold number_tok. by destruct (forallb _ _).
  - do 2 eexists. split; [done|]. simpl. by destruct Value.
  - do 2 eexists. split; [done|]. apply andb_true_iff in Hwf as [[Hop _]%andb_true_iff _].
    simpl. unfold tok_in in Hop. simpl in Hop. unfold starts.
    destruct (tokeqb_spec Op PLUS) as [->|]; [done|].
    destruct (tokeqb_spec Op MINUS) as [->|]; done.
  - apply andb_true_iff in Hwf as [[[_ Hx]%andb_true_iff _]%andb_true_iff _].
    destruct (IHe1 _ Hx) as (t & ts & -> & Ht). do 2 eexists. split; [done|exact Ht].
  - do 2 eexists. split; [done|]. apply ident_tok_starts.
  - do 2 eexists. split; [done|]. apply ident_tok_starts.
Qed.

Lemma starts_neq t u : starts t = true -> starts u = false -> (t =t u) = false.
Proof. intros Ht Hu. destruct (tokeqb_spec t u); congruence. Qed.

(** The operators [parseBinaryExpr] reads. *)
Definition binary_ops : list Token := plain_ops ++ [IN; NOTIN] ++ [BETWEEN; NOTBETWEEN].

Lemma stops_follows e tok : stops tok = true -> follows e tok = true.
Proof.
  intros Hs. pose proof Hs as [Hp Hn]%andb_true_iff. apply Z.eqb_eq in Hp.
  apply negb_true_iff in Hn. unfold tok_in in Hn. simpl in Hn.
  apply orb_false_iff in Hn as [Hd [Hl [Hf _]%orb_false_iff]%orb_false_iff].
  assert (Hfol : follows e tok = true /\
    match e with ERange _ b => follows b tok = true | _ => True end).
  { induction e; simpl; (split; [|by try apply IHe2]); try done.
    - unfold tok_in. simpl. by rewrite Hd, Hl.
    - apply IHe.
    - destruct (list_op Op); [done|]. rewrite Hp. destruct (range_op Op).
      + simpl. by destruct e2; try done; apply IHe2.
      + apply andb_true_iff. split; [|apply IHe2]. pose proof (Precedence_bounds Op).
        unfold LowestPrec in *. apply Z.ltb_lt. lia.
    - destruct Filter; [done|]. by rewrite Hf. }
  apply Hfol.
Qed.

Lemma wf_operand m m' e : is_operand e = true -> wf m e = true -> wf m' e = true.
Proof. by destruct e. Qed.

(** A token is read as the identifier it comes from. *)
Lemma identByNameAndTok_ident i lit :
  wf_ident i = true -> lit_is lit (t_lit (ident_tok i)) ->
  identByNameAndTok lit (t_tok (ident_tok i)) = i.
Proof.
  destruct i as [name quoted q]. unfold wf_ident, ident_tok, identByNameAndTok. simpl.
  destruct quoted; simpl; intros Hw ->; apply Nat.eqb_eq in Hw.
  - destruct q as [|c [|]]; try done. simpl. rewrite length_app, drop_0. simpl.
    replace (length name + 1 - 1)%nat with (length name) by lia.
    by rewrite take_app_length.
  - by destruct q.
Qed.

Lemma ident_tok_nbind i : t_tok (ident_tok i) ≠ BIND.
Proof. unfold ident_tok. by destruct (Quoted i). Qed.

Lemma op_words_head op rest : exists ts, map tk (op_words op) ++ rest = tk (first_word op) :: ts.
Proof. destruct op; by eexists. Qed.

Lemma op_words_pos op : (1 <= length (map tk (op_words op)))%nat.
Proof.
  destruct (op_words_head op []) as [ts H]. rewrite app_nil_r in H. rewrite H. simpl. lia.
Qed.

Section Roundtrip.
Context {L : Type} {TS : TokenSource L}.
Implicit Types (p : Parser L).

(** [rec] reads back what has fewer than [k] tokens. *)
Record rt (k : nat) (rec : Rec L) : Prop := {
  rt_expr m e r rest p :
    1 <= m -> wf m e = true -> follows e (t_tok r) = true -> Precedence (t_tok r) < m ->
    (length (etoks e) < k)%nat -> Stream p (etoks e ++ r :: rest) ->
    runs (r_expr rec m) (returns e (r :: rest)) p;
  rt_operand e r rest p :
    is_operand e = true -> wf 1 e = true -> follows e (t_tok r) = true ->
    (length (etoks e) < k)%nat -> Stream p (etoks e ++ r :: rest) ->
    runs (r_operand rec) (returns e (r :: rest)) p
}.

Context (k : nat) (rec : Rec L) (Hrec : rt k rec).

(** An expression in parentheses, a list or a clause: what follows it ends it. *)
Lemma ParseExpr_rt e r rest p :
  wf 1 e = true -> stops (t_tok r) = true -> (length (etoks e) < k)%nat ->
  Stream p (etoks e ++ r :: rest) -> runs (ParseExpr rec) (returns e (r :: rest)) p.
Proof.
  intros Hwf Hs Hk Hp. unfold ParseExpr. eapply rt_expr; try done.
  - by apply stops_follows.
  - apply andb_true_iff in Hs as [Hs _]. apply Z.eqb_eq in Hs. unfold LowestPrec. lia.
Qed.

(** Runs [ParseExpr] on the tokens of an expression that is followed by [tk t]. *)
Ltac parse_expr :=
  match goal with
  | H : Stream ?p _ |- wp (ParseExpr rec) _ _ _ ?p =>
      rewrite <- ?app_assoc in H; cbn [app] in H;
      eapply wp_mono; [eapply ParseExpr_rt; [| | |exact H]|done|done|];
      [try assumption|try reflexivity|try (simpl in *; rewrite ?length_app in *; simpl in *; lia)|];
      clear H; intros ? ? [-> H]
  end.

Lemma parseQualifiedRef_rt t star c rest p :
  wf 1 (EQualifiedRef t star c) = true ->
  Stream p (drop 1 (etoks (EQualifiedRef t star c)) ++ rest) ->
  runs (parseQualifiedRef t) (returns (EQualifiedRef t star c) rest) p.
Proof.
  simpl. intros [Ht Hc]%andb_true_iff Hp. unfold parseQualifiedRef. do 4 sstep. do 2 sstep.
  destruct star; [destruct c; [done|]|destruct c as [c|]; [|done]]; simpl in Hp.
  - do 2 sstep. do 2 sstep. by sstep.
  - do 2 sstep.
    assert (Hn : t_tok (ident_tok c) ≠ BIND) by apply ident_tok_nbind.
    assert ((t_tok (ident_tok c) =t STAR) = false) as ->
      by (unfold ident_tok; by destruct (Quoted c)).
    assert (isIdentToken (t_tok (ident_tok c)) = true) as ->
      by (unfold ident_tok; by destruct (Quoted c)).
    do 2 sstep. sstep. rewrite identByNameAndTok_ident by done. done.
Qed.

(** States what holds after the first part of a sequence. *)
Ltac scut Q := eapply (wp_mono _ (fun _ => False) _ False _ Q); [|done|done|].

(** The first token of an expression. *)
Lemma run_peek_expr m e rest p (Q : Token -> Parser L -> Prop) :
  wf m e = true -> Stream p (etoks e ++ rest) ->
  (forall tok p', starts tok = true -> Stream p' (etoks e ++ rest) -> Q tok p') ->
  runs peek Q p.
Proof.
  intros Hwf Hp HQ. destruct (etoks_head m e Hwf) as (t & ts & He & Hs). rewrite He in *.
  simpl in *. eapply run_peek; [exact Hp|]. intros p' Hp'. by apply HQ.
Qed.

Lemma parseFilterClause_rt f rest p :
  wf_filter f = true -> (length (ftoks f) <= k)%nat -> Stream p (ftoks f ++ rest) ->
  runs (parseFilterClause rec) (returns f rest) p.
Proof.
  destruct f as [x]. intros Hwf Hk Hp. simpl in Hwf, Hp. unfold parseFilterClause.
  repeat sstep. parse_expr. repeat sstep. done.
Qed.

(** The first element of a list that a right parenthesis ends. *)
Lemma sep_toks_split x l rest :
  exists r rest', sep_toks etoks (x :: l) ++ tk RP :: rest = etoks x ++ r :: rest' /\
    stops (t_tok r) = true /\ (length (etoks x) <= length (sep_toks etoks (x :: l)))%nat /\
    (l = [] /\ r = tk RP /\ rest' = rest \/
     l ≠ [] /\ r = tk COMMA /\ rest' = sep_toks etoks l ++ tk RP :: rest /\
     (length (sep_toks etoks l) <= length (sep_toks etoks (x :: l)))%nat).
Proof.
  destruct l as [|y l]; simpl.
  - do 2 eexists. split_and!; [done|done|done|]. by left.
  - rewrite <- app_assoc, length_app. cbn [app length]. do 2 eexists.
    split_and!; [done|done|lia|]. right. split_and!; try done. lia.
Qed.

(** The first element of such a list is read. *)
Ltac list_head Hx Hp :=
  match type of Hp with
  | Stream _ (sep_toks etoks (?x :: ?l) ++ tk RP :: ?rest) =>
      let r := fresh "r" in let rest' := fresh "rest" in
      let Heq := fresh in let Hs := fresh "Hs" in let Hkx := fresh "Hkx" in
      destruct (sep_toks_split x l rest) as (r & rest' & Heq & Hs & Hkx & Hr);
      rewrite Heq in Hp; clear Heq;
      eapply run_peek_expr; [exact Hx|exact Hp|]; clear Hp;
      intros ? ? ? Hp; rewrite (starts_neq _ RP) by done; sstep;
      eapply wp_mono; [eapply ParseExpr_rt; [exact Hx|exact Hs|lia|exact Hp]|done|done|];
      clear Hp; intros ? ? [-> Hp]; cbv zeta;
      destruct Hr as [(-> & -> & ->)|(? & -> & -> & ?)]
  end.

(** Lists of expressions up to a right parenthesis. *)
Lemma parseCall_args_rt l n acc rest p :
  forallb (wf 1) l = true -> (length l < n)%nat -> (length (sep_toks etoks l) < k)%nat ->
  Stream p (sep_toks etoks l ++ tk RP :: rest) ->
  runs (parseCall_args rec n acc) (returns (acc ++ l) (tk RP :: rest)) p.
Proof.
  revert n acc p. induction l as [|x l IH]; intros n acc p Hwf Hn Hk Hp;
    (destruct n as [|n]; [simpl in Hn; lia|]); simpl parseCall_args; sstep.
  - simpl in Hp. sstep. sstep. by rewrite app_nil_r.
  - simpl in Hwf. apply andb_true_iff in Hwf as [Hx Hl]. simpl in Hn. list_head Hx Hp.
    + do 2 sstep. specialize (IH n (acc ++ [x])). rewrite app_nil_r in IH.
      eapply IH; [done|lia|simpl; lia|done].
    + repeat sstep. eapply wp_mono; [eapply IH; [done|lia|lia|done]|done|done|].
      intros ? ? [-> ?]. by rewrite <- app_assoc.
Qed.

Lemma parseExprs_items_rt l n acc rest p :
  forallb (wf 1) l = true -> (length l < n)%nat -> (length (sep_toks etoks l) < k)%nat ->
  Stream p (sep_toks etoks l ++ tk RP :: rest) ->
  runs (parseExprs_items rec n acc) (returns (acc ++ l) rest) p.
Proof.
  revert n acc p. induction l as [|x l IH]; intros n acc p Hwf Hn Hk Hp;
    (destruct n as [|n]; [simpl in Hn; lia|]); simpl parseExprs_items; sstep.
  - simpl in Hp. sstep. repeat sstep. by rewrite app_nil_r.
  - simpl in Hwf. apply andb_true_iff in Hwf as [Hx Hl]. simpl in Hn. list_head Hx Hp.
    + repeat sstep. done.
    + repeat sstep. eapply wp_mono; [eapply IH; [done|lia|lia|done]|done|done|].
      intros ? ? [-> ?]. by rewrite <- app_assoc.
Qed.

Lemma etoks_nonempty m e : wf m e = true -> (1 <= length (etoks e))%nat.
Proof. intros H. destruct (etoks_head m e H) as (t & ts & -> & _). simpl. lia. Qed.

Lemma sep_toks_length l : forallb (wf 1) l = true -> (length l <= length (sep_toks etoks l))%nat.
Proof.
  induction l as [|x [|y l] IH]; [done|..]; cbn [forallb];
    intros [Hx Hl]%andb_true_iff; pose proof (etoks_nonempty _ _ Hx).
  - simpl. lia.
  - specialize (IH Hl). cbn [sep_toks length] in *. rewrite length_app. simpl length. lia.
Qed.

Context (n : nat) (Hn : (k <= n)%nat).

Lemma parseExprs_rt l rest p :
  forallb (wf 1) l = true -> (length (etoks (EExprs l)) < k)%nat ->
  Stream p (etoks (EExprs l) ++ rest) -> runs (parseExprs rec n) (returns (EExprs l) rest) p.
Proof.
  simpl. rewrite length_app, <- app_assoc. simpl. intros Hl Hk Hp.
  pose proof (sep_toks_length _ Hl). unfold parseExprs. repeat sstep.
  eapply wp_mono; [eapply parseExprs_items_rt; [done| | |exact Hp]; lia|done|done|].
  intros ? ? [-> ?]. by apply wp_ret.
Qed.

(** The arguments of a call: a star, or a list that [DISTINCT] may precede. *)
Lemma call_args_head (distinct : bool) l rest p (Q : Token -> Parser L -> Prop) :
  forallb (wf 1) l = true ->
  Stream p ((if distinct then [tk DISTINCT] else []) ++ sep_toks etoks l ++ tk RP :: rest) ->
  (forall tok p', (tok =t STAR) = false -> (tok =t DISTINCT) = distinct ->
    Stream p' ((if distinct then [tk DISTINCT] else []) ++ sep_toks etoks l ++ tk RP :: rest) ->
    Q tok p') ->
  runs peek Q p.
Proof.
  intros Hl Hp HQ. destruct distinct; simpl in *; [sstep; by apply HQ|].
  destruct l as [|x l]; [simpl in *; sstep; by apply HQ|].
  simpl in Hl. apply andb_true_iff in Hl as [Hx _].
  destruct (sep_toks_split x l rest) as (r & rest' & Heq & _). rewrite Heq in *.
  eapply run_peek_expr; [exact Hx|exact Hp|]. intros tok p' Hs Hp'.
  apply HQ; [by apply starts_neq..|done].
Qed.

Lemma parseCall_rt name star distinct args filter r rest p :
  let e := ECall name star distinct args filter in
  wf 1 e = true -> follows e (t_tok r) = true -> (length (etoks e) <= k)%nat ->
  Stream p (drop 1 (etoks e) ++ r :: rest) ->
  runs (parseCall rec n name) (returns e (r :: rest)) p.
Proof.
  intros e. subst e. simpl. intros [[Hname Hargs]%andb_true_iff Hfil]%andb_true_iff Hfol Hk Hp.
  rewrite !length_app in Hk. simpl in Hk.
  unfold parseCall. do 7 sstep.
  set (tail := (match filter with Some f => ftoks f | None => [] end) ++ r :: rest).
  scut (fun tok p' =>
    runs (if tok =t STAR then (_ ← lex; ret (true, false, []))
      else (distinct ← (if tok =t DISTINCT then (_ ← lex; ret true) else ret false);
            args ← parseCall_args rec n []; ret (false, distinct, args)))
      (returns (star, distinct, args) (tk RP :: tail)) p').
  - destruct star.
    + apply andb_true_iff in Hargs as [Hd Ha]. destruct distinct; [done|].
      destruct args; [|done]. cbn [app] in Hp. repeat sstep. done.
    + rewrite <- !app_assoc in Hp. cbn [app] in Hp. fold tail in Hp.
      rewrite !length_app in Hk. pose proof (sep_toks_length _ Hargs).
      eapply call_args_head; [exact Hargs|exact Hp|]. clear Hp. intros tok q Hs Hdis Hp.
      rewrite Hdis.
      rewrite Hs. sstep.
      scut (returns distinct (sep_toks etoks args ++ tk RP :: tail)).
      { destruct distinct; simpl in Hp; repeat sstep; done. }
      clear Hp. intros ? ? [-> Hp]. sstep.
      eapply wp_mono; [eapply parseCall_args_rt; [done| | |exact Hp]; lia|done|done|].
      intros ? ? [-> ?]. by sstep.
  - clear Hp. intros tok q Hrun. sstep. eapply wp_mono; [exact Hrun|done|done|].
    clear Hrun. intros ? ? [-> Hp]. sstep. sstep. sstep.
    unfold tail in Hp. destruct filter as [[x]|].
    + cbn [ftoks app] in Hp. do 3 sstep.
      eapply wp_mono; [eapply (parseFilterClause_rt (mkFilterClause x)); [done|simpl in *; lia|exact Hp]
        |done|done|].
      intros ? ? [-> ?]. sstep. by sstep.
    + apply negb_true_iff in Hfol. cbn [app] in Hp. do 3 sstep. by sstep.
Qed.

Lemma parseParenExpr_rt x rest p :
  wf 1 x = true -> (length (etoks x) < k)%nat -> Stream p (etoks (EParenExpr x) ++ rest) ->
  runs (parseParenExpr rec) (returns (EParenExpr x) rest) p.
Proof.
  intros Hwf Hk Hp. unfold parseParenExpr. simpl in Hp. do 2 sstep. sstep. parse_expr.
  repeat sstep. done.
Qed.

Definition else_toks (els : option Expr) : list tokl :=
  (match els with Some x => tk ELSE :: etoks x | None => [] end) ++ [tk END].

(** The WHEN blocks of a CASE, up to its ELSE or END. *)
Lemma parseCase_blocks_rt blocks i acc els rest p :
  forallb wf_block blocks = true -> blocks ≠ [] -> (length blocks <= i)%nat ->
  (length (concat (map btoks blocks)) < k)%nat ->
  Stream p (concat (map btoks blocks) ++ else_toks els ++ rest) ->
  runs (parseCase_blocks rec i acc) (returns (acc ++ blocks) (else_toks els ++ rest)) p.
Proof.
  revert i acc p. induction blocks as [|[c x] blocks IH]; [done|].
  intros i acc p Hwf _ Hi Hk Hp. destruct i as [|i]; [simpl in Hi; lia|].
  simpl in Hwf. apply andb_true_iff in Hwf as [[Hc Hx]%andb_true_iff Hbs].
  cbn [map concat btoks] in Hp, Hk. cbn [parseCase_blocks]. cbn [app] in Hp, Hk. sstep. sstep. sstep.
  rewrite <- !app_assoc in Hp. cbn [app length] in Hp, Hk. rewrite !length_app in Hk. simpl in Hk.
  parse_expr. do 3 sstep. destruct blocks as [|b blocks].
  - cbn [map concat app] in Hp. destruct els as [y|]; unfold else_toks in *; cbn [app] in Hp |- *.
    all: parse_expr; do 2 sstep; sstep; rewrite <- ?app_assoc; done.
  - destruct b as [c' x']. cbn [map concat btoks app] in Hp. parse_expr. do 2 sstep.
    eapply wp_mono; [eapply IH; [done|done|simpl in *; lia| |]|done|done|].
    + simpl in *. lia.
    + cbn [map concat btoks app]. rewrite <- ?app_assoc. cbn [app]. rewrite <- ?app_assoc. exact Hp.
    + intros ? ? [-> ?]. by rewrite <- app_assoc.
Qed.

Lemma blocks_head blocks : blocks ≠ [] ->
  exists ts, concat (map btoks blocks) = tk WHEN :: ts.
Proof. destruct blocks as [|[c x] blocks]; [done|]. intros _. by eexists. Qed.

Lemma blocks_length blocks : (length blocks <= length (concat (map btoks blocks)))%nat.
Proof.
  induction blocks as [|[c x] blocks IH]; [done|]. cbn [map concat]. rewrite length_app.
  simpl length. lia.
Qed.

Lemma parseCaseExpr_rt operand blocks els rest p :
  let e := ECaseExpr operand blocks els in
  wf 1 e = true -> (length (etoks e) <= k)%nat -> Stream p (etoks e ++ rest) ->
  runs (parseCaseExpr rec n) (returns e rest) p.
Proof.
  simpl. intros [[[Hop Hne]%andb_true_iff Hbs]%andb_true_iff Hels]%andb_true_iff Hk Hp.
  unfold parseCaseExpr. do 6 sstep. rewrite !length_app in Hk. simpl in Hk.
  fold (else_toks els) in Hp. rewrite <- !app_assoc in Hp.
  assert (Hne' : blocks ≠ []) by (by intros ->). pose proof (blocks_length blocks).
  destruct (blocks_head _ Hne') as [ts Hts]. sstep.
  scut (fun tok p => runs (if negb (tok =t WHEN) then (x ← ParseExpr rec; ret (Some x)) else ret None)
    (returns operand (concat (map btoks blocks) ++ else_toks els ++ rest)) p).
  { rewrite Hts in *. destruct operand as [x|].
    - eapply run_peek_expr; [exact Hop|exact Hp|]. clear Hp. intros tok q Hs Hp.
      rewrite (starts_neq tok WHEN) by done. cbn [negb]. sstep. parse_expr. by sstep.
    - cbn [app] in Hp. sstep. by sstep. }
  clear Hp. intros tok q Hrun. sstep. eapply wp_mono; [exact Hrun|done|done|].
  clear Hrun. intros ? ? [-> Hp]. sstep.
  eapply wp_mono; [eapply parseCase_blocks_rt; [done|done| | |exact Hp]; lia|done|done|].
  clear Hp. intros ? ? [-> Hp]. cbn [app]. unfold else_toks in Hp. rewrite <- app_assoc in Hp.
  destruct els as [y|]; cbn [app] in Hp; repeat sstep; [parse_expr; repeat sstep|]; done.
Qed.

(** An operand that starts with an identifier. *)
Lemma operand_ident i r rest p (Q : Expr -> Parser L -> Prop) :
  wf_ident i = true -> Stream p (ident_tok i :: r :: rest) ->
  (forall p', Stream p' (r :: rest) ->
    runs (if t_tok r =t DOT then parseQualifiedRef i
          else if t_tok r =t LP then parseCall rec n i else ret (EIdent i)) Q p') ->
  runs (parseOperand rec n) Q p.
Proof.
  intros Hi Hp HQ. unfold parseOperand. sstep.
  eapply run_lex; [exact Hp|apply ident_tok_nbind|]. clear Hp. intros pos lit p1 Hp Hl.
  cbv beta iota.
  replace (tok_in (t_tok (ident_tok i)) [IDENT; QIDENT]) with true
    by (unfold ident_tok; by destruct (Quoted i)).
  rewrite identByNameAndTok_ident by done. sstep.
  eapply run_peek; [exact Hp|]. intros p2 Hp2. by apply HQ.
Qed.

(** An operand whose first token is pushed back. *)
Lemma operand_pushed t ts p (Q : Expr -> Parser L -> Prop) :
  t ∈ [LP; CASE] -> Stream p (tk t :: ts) ->
  (forall p', Stream p' (tk t :: ts) ->
    runs (if t =t LP then parseParenExpr rec else parseCaseExpr rec n) Q p') ->
  runs (parseOperand rec n) Q p.
Proof.
  intros Ht Hp HQ. unfold parseOperand. sstep. eapply run_lex_just; [exact Hp|].
  intros pos lit p1 Hj _ Hb.
  assert (Hun : forall K, (forall p', Stream p' (tk t :: ts) -> runs K Q p') ->
    runs (_ ← unlex; K) Q p1).
  { intros K HK. sstep. eapply run_unlex; [exact Hj| |intros p2 Hp2 _; by apply HK].
    rewrite Hb. apply Hp. }
  repeat (apply elem_of_cons in Ht as [->|Ht]); [..|by apply elem_of_nil in Ht];
    tok_simpl; by apply Hun.
Qed.

Lemma operand_bind name b r rest p :
  Stream p (mkTok BIND (Some name) (Some b) :: r :: rest) ->
  runs (parseOperand rec n) (returns (EBindExpr name b) (r :: rest)) p.
Proof.
  intros Hp. unfold parseOperand. sstep. eapply run_lex_bind; [exact Hp|].
  intros pos p1 Hb Hp1. tok_simpl. repeat sstep. simpl. rewrite Hb.
  split; [f_equal; lia|done].
Qed.

Lemma parseOperand_rt e r rest p :
  is_operand e = true -> wf 1 e = true -> follows e (t_tok r) = true ->
  (length (etoks e) <= k)%nat -> Stream p (etoks e ++ r :: rest) ->
  runs (parseOperand rec n) (returns e (r :: rest)) p.
Proof.
  intros Hop Hwf Hfol Hk Hp. destruct e; try done; cbn [etoks app] in Hp.
  - eapply operand_ident; [exact Hwf|exact Hp|]. intros p' Hp'. simpl in Hfol.
    apply negb_true_iff in Hfol. unfold tok_in in Hfol. simpl in Hfol.
    apply orb_false_iff in Hfol as [-> [-> _]%orb_false_iff]. by sstep.
  - unfold parseOperand. do 2 sstep. simpl in *. subst. by sstep.
  - unfold parseOperand. do 2 sstep. simpl in *. subst. by sstep.
  - unfold parseOperand, number_tok in *.
    destruct (forallb _ _); do 2 sstep; simpl in *; subst; by sstep.
  - unfold parseOperand. do 2 sstep. by sstep.
  - unfold parseOperand. destruct Value; do 2 sstep; by sstep.
  - by apply operand_bind.
  - simpl in Hwf. apply andb_true_iff in Hwf as [[Hpm Hx]%andb_true_iff Hwf].
    unfold tok_in in Hpm. simpl in Hpm, Hk. rewrite orb_false_r in Hpm. unfold parseOperand.
    apply orb_true_iff in Hpm as [Hpm|Hpm]; apply tokeqb_true in Hpm as ->; do 3 sstep.
    all: eapply wp_mono; [eapply rt_operand; [exact Hrec|exact Hx|exact Hwf|exact Hfol|lia|exact Hp]
      |done|done|].
    all: intros ? ? [-> ?]; by sstep.
  - eapply operand_pushed; [by right; left|exact Hp|]. intros p' Hp'. by eapply parseCaseExpr_rt.
  - pose proof Hwf as Hwf'. simpl in Hwf. apply andb_true_iff in Hwf as [Ht _].
    eapply operand_ident; [exact Ht|exact Hp|]. intros p' Hp'. by eapply parseQualifiedRef_rt.
  - pose proof Hwf as Hwf'. simpl in Hwf. apply andb_true_iff in Hwf as [[Ht _]%andb_true_iff _].
    eapply operand_ident; [exact Ht|exact Hp|]. intros p' Hp'. by eapply parseCall_rt.
  - eapply operand_pushed; [by left|exact Hp|]. intros p' Hp'. eapply parseParenExpr_rt; try done.
    simpl in Hk. rewrite length_app in Hk. simpl in Hk. lia.
Qed.

(** A multi-word operator is read as one token. *)
Lemma lexBinaryOp_rt op r rest p :
  op ∈ binary_ops -> (t_tok r =t NOT) = false -> Stream p (map tk (op_words op) ++ r :: rest) ->
  runs lexBinaryOp (fun x p' => returns op (r :: rest) x.2 p') p.
Proof.
  intros Hop Hr Hp. unfold lexBinaryOp. cbn in Hop.
  repeat (apply elem_of_cons in Hop as [->|Hop]); [..|by apply elem_of_nil in Hop].
  all: cbn [op_words map app] in Hp; repeat sstep; done.
Qed.

(** The left operands of the operators that the loop reads in turn. *)
Fixpoint spine (e : Expr) : nat :=
  match e with EBinaryExpr x _ _ => S (spine x) | _ => O end.

(** What follows an operator: its first token is not [NOT]. *)
Lemma right_head m x op y rest :
  wf m (EBinaryExpr x op y) = true ->
  op ∈ binary_ops /\
  exists t ts, etoks y ++ rest = t :: ts /\ (t_tok t =t NOT) = false.
Proof.
  cbn [wf]. intros [_ Hy]%andb_true_iff. unfold binary_ops.
  destruct (list_op op) eqn:Hl; [|destruct (range_op op) eqn:Hr].
  - apply tok_in_true in Hl. split; [rewrite !elem_of_app; tauto|].
    destruct y; try done. by do 2 eexists.
  - apply tok_in_true in Hr. split; [rewrite !elem_of_app; tauto|].
    destruct y; try done. apply andb_true_iff in Hy as [[Ha _]%andb_true_iff _].
    destruct (etoks_head _ _ Ha) as (t & ts & He & Hs). simpl. rewrite He. do 2 eexists.
    split; [done|]. by apply starts_neq.
  - apply andb_true_iff in Hy as [Hp Hy]. apply tok_in_true in Hp.
    split; [rewrite !elem_of_app; tauto|].
    destruct (etoks_head _ _ Hy) as (t & ts & -> & Hs). do 2 eexists.
    split; [done|]. by apply starts_neq.
Qed.

(** One turn of the loop reads an operator and its right operand. *)
Lemma loop_step m x op y r rest i p (Q : Expr -> Parser L -> Prop) :
  let e := EBinaryExpr x op y in
  1 <= m -> wf m e = true -> follows e (t_tok r) = true -> (length (etoks e) <= k)%nat ->
  Stream p (map tk (op_words op) ++ etoks y ++ r :: rest) ->
  (forall p', Stream p' (r :: rest) -> runs (parseBinaryExpr_loop rec n i m e) Q p') ->
  runs (parseBinaryExpr_loop rec n (S i) m x) Q p.
Proof.
  intros e Hm Hwf Hfol Hk Hp HQ. subst e.
  destruct (right_head _ _ _ _ (r :: rest) Hwf) as (Hop & t & ts & Heq & Ht).
  cbn [wf etoks follows] in Hwf, Hk, Hfol.
  apply andb_true_iff in Hwf as [[[Hprec Hx]%andb_true_iff Hfx]%andb_true_iff Hy].
  pose proof (etoks_nonempty _ _ Hx). rewrite !length_app in Hk.
  cbn [parseBinaryExpr_loop]. sstep.
  destruct (op_words_head op (etoks y ++ r :: rest)) as [ts' Heq']. rewrite Heq' in Hp.
  eapply run_peek; [exact Hp|]. clear Hp. intros p1 Hp. cbn [t_tok tk].
  apply Z.leb_le in Hprec. replace (Precedence (first_word op) <? m) with false
    by (symmetry; apply Z.ltb_ge; lia).
  rewrite <- Heq', Heq in Hp. sstep.
  eapply wp_mono; [eapply lexBinaryOp_rt; [exact Hop|exact Ht|exact Hp]|done|done|].
  clear Hp. intros [pos op'] p2 [Hop' Hp]. simpl in Hop'. subst op'. rewrite <- Heq in Hp.
  change (tok_in op [IN; NOTIN]) with (list_op op).
  change (tok_in op [BETWEEN; NOTBETWEEN]) with (range_op op).
  destruct (list_op op) eqn:Hl; [|destruct (range_op op) eqn:Hr].
  - destruct y as [| | | | | | | | | | |l| | | |]; try done. sstep.
    eapply wp_mono; [eapply parseExprs_rt; [exact Hy|lia|exact Hp]|done|done|].
    intros ? p3 [-> Hp3]. by apply HQ.
  - destruct y as [| | | | | | | | | | | |a b| | |]; try done.
    apply andb_true_iff in Hy as [[Ha Hfa]%andb_true_iff Hb].
    apply andb_true_iff in Hfol as [Hpr Hfb]. apply Z.ltb_lt in Hpr. sstep.
    eapply wp_mono;
      [eapply (rt_expr _ _ Hrec _ (EBinaryExpr a AND b)); [| | | | |exact Hp]|done|done|].
    + done.
    + change (LowestPrec + 1) with 1. cbn [wf].
      change (first_word AND) with AND. by rewrite Ha, Hfa, Hb.
    + cbn [follows]. rewrite Hfb. apply andb_true_iff. split; [|done]. apply Z.ltb_lt.
      change (Precedence AND) with 2. lia.
    + done.
    + change (etoks (EBinaryExpr a AND b)) with (etoks (ERange a b)). lia.
    + intros ? p3 [-> Hp3]. cbv iota. by apply HQ.
  - apply andb_true_iff in Hy as [_ Hy]. apply andb_true_iff in Hfol as [Hpr Hfy].
    apply Z.ltb_lt in Hpr. pose proof (Precedence_bounds op). unfold LowestPrec in *. sstep.
    eapply wp_mono; [eapply rt_expr; [exact Hrec|lia|exact Hy|exact Hfy|done|lia|exact Hp]|done|done|].
    intros ? p3 [-> Hp3]. by apply HQ.
Qed.

(** An expression is read by an operand and as many turns of the loop as it has operators on its
    left spine. *)
Lemma spine_rt e m r rest j p (Q : Expr -> Parser L -> Prop) :
  1 <= m -> wf m e = true -> follows e (t_tok r) = true -> (length (etoks e) <= k)%nat ->
  Stream p (etoks e ++ r :: rest) ->
  (forall p', Stream p' (r :: rest) -> runs (parseBinaryExpr_loop rec n j m e) Q p') ->
  runs (x ← parseOperand rec n; parseBinaryExpr_loop rec n (spine e + j) m x) Q p.
Proof.
  revert r rest j p Q. induction e; intros r rest j p Q Hm Hwf Hfol Hk Hp HQ.
  9: { pose proof Hwf as Hwf'. cbn [wf] in Hwf'.
    apply andb_true_iff in Hwf' as [[[_ Hx]%andb_true_iff Hfx]%andb_true_iff _].
    pose proof Hp as Hp'. pose proof Hk as Hk'. cbn [etoks] in Hp', Hk'. rewrite <- !app_assoc in Hp'.
    rewrite length_app in Hk'. cbn [spine].
    destruct (op_words_head Op (etoks e2 ++ r :: rest)) as [ts Heq]. rewrite Heq in Hp'.
    replace (S (spine e1) + j)%nat with (spine e1 + S j)%nat by lia.
    eapply (IHe1 (tk (first_word Op))); [done|done|exact Hfx|lia|exact Hp'|]. intros p' Hp''. rewrite <- Heq in Hp''.
    by eapply loop_step. }
  all: try discriminate Hwf.
  all: match type of Hwf with wf _ ?e = true =>
    sstep; (eapply wp_mono; [eapply (parseOperand_rt e); [| | | |exact Hp]|done|done|]);
    [done|exact (wf_operand m 1 e eq_refl Hwf)|done|done|]; intros ? ? [-> ?]; by apply HQ end.
Qed.
End Roundtrip.

Lemma spine_length m e : wf m e = true -> (2 * spine e + 1 <= length (etoks e))%nat.
Proof.
  revert m. induction e; intros m Hwf; pose proof (etoks_nonempty _ _ Hwf); try (simpl spine; lia).
  cbn [wf] in Hwf.
  apply andb_true_iff in Hwf as [[[_ Hx]%andb_true_iff _]%andb_true_iff Hy].
  specialize (IHe1 _ Hx). cbn [spine etoks]. rewrite !length_app.
  pose proof (op_words_pos Op).
  enough (1 <= length (etoks e2))%nat by lia.
  destruct (list_op Op); [destruct e2; simpl; try done; lia|]. destruct (range_op Op).
  - destruct e2; try done. simpl. rewrite length_app. simpl. lia.
  - apply andb_true_iff in Hy as [_ Hy]. by eapply etoks_nonempty.
Qed.

(** With a fuel larger than the number of tokens, the parser reads back every expression. *)
Lemma parserAt_rt {L} {TS : TokenSource L} fuel : rt fuel (parserAt (L := L) fuel).
Proof.
  induction fuel as [|f IH]; split; try (intros; lia).
  - intros m e r rest p Hm Hwf Hfol Hr Hk Hp. cbn [parserAt r_expr]. unfold parseBinaryExpr.
    pose proof (spine_length _ _ Hwf).
    assert (Hf : (spine e + S (f - spine e - 1))%nat = f) by lia.
    pattern f at 5. rewrite <- Hf.
    eapply spine_rt; [exact IH|done|exact Hm|exact Hwf|exact Hfol|lia|exact Hp|].
    clear Hp. intros p' Hp. cbn [parseBinaryExpr_loop]. sstep. sstep.
    apply Z.ltb_lt in Hr. rewrite Hr. by sstep.
  - intros e r rest p Hop Hwf Hfol Hk Hp. cbn [parserAt r_operand].
    eapply parseOperand_rt; try done. lia.
Qed.
