(* ===== verification/SqlText.v ===== *)
(** * Printed expressions are read back

    The text that [Expr_String] writes for an expression of the grammar is lexed into the tokens
    of the expression ([SqlTokens.etoks]), and so parsing it gives the expression back: what the
    sharding plugin prints after rewriting a condition means what it rewrote. [lexical] collects
    what the leaves must satisfy for their text to be one token: it excludes, among others, the
    quoted identifiers and qualified columns whose text the lexer reads differently. *)

From Stdlib Require Import ZifyBool Lia.
From stdpp Require Import base list strings numbers option.
From S2P Require Import Prelude SqlToken SqlLexer SqlLexSpec SqlAst SqlParser SqlParserTotal.
From S2P Require Import SqlTokens SqlStream SqlRoundtrip.

(** ** Tokens of a text *)

Fixpoint Lexes (s : gostring) (ts : list tokl) : Prop :=
  match ts with
  | [] => True
  | t :: ts => exists k lit rest,
      lex_runes s = (k, (t_tok t, lit, rest)) /\ lit_is lit (t_lit t) /\ Lexes rest ts
  end.

(** The lexer delivers the tokens of its text. *)
Lemma Lexes_Emits ts pre l s : lexer_at pre l s -> Lexes s ts -> Emits l ts.
Proof.
  revert pre l s. induction ts as [|t ts IH]; intros pre l s Hl; [done|].
  intros (k & lit & rest & Heq & Hlit & Hts). pose proof (Lex_refines _ _ _ Hl) as H.
  rewrite Heq in H. destruct H as (l' & pre' & HL & _ & Hl'). do 3 eexists.
  split; [exact HL|]. split; [done|]. by eapply IH.
Qed.

(** No token is the end of the input. *)
Definition inside (ts : list tokl) : bool := forallb (fun t => negb (t_tok t =t EOF)) ts.

(** Every token but the end of the input takes a rune. *)
Lemma Lexes_length ts s :
  Lexes s ts -> inside ts = true -> (length ts <= length s)%nat.
Proof.
  revert s. induction ts as [|t ts IH]; intros s; simpl; [lia|].
  intros (k & lit & rest & Heq & _ & Hts) [Ht Hall2]%andb_true_iff.
  pose proof (lex_runes_progress s) as Hp. rewrite Heq in Hp. specialize (IH _ Hts Hall2).
  destruct Hp as [(Heof & _)|[? ?]]; [by rewrite Heof in Ht|lia].
Qed.

Lemma Lexes_prefix s ts ts' : Lexes s (ts ++ ts') -> Lexes s ts.
Proof.
  revert s. induction ts as [|t ts IH]; intros s; [done|].
  intros (k & lit & rest & Heq & Hlit & Hts). exists k, lit, rest. auto.
Qed.

Lemma Lexes_space s ts : Lexes s ts -> Lexes (32 :: s) ts.
Proof.
  destruct ts as [|t ts]; [done|]. intros (k & lit & rest & Heq & H). exists (S k), lit, rest.
  split; [|done]. simpl. by rewrite Heq.
Qed.

(** One token with a known reading. *)
Lemma Lexes_cons k s t lit rest ts :
  lex_runes s = (k, (t_tok t, lit, rest)) -> lit_is lit (t_lit t) -> Lexes rest ts ->
  Lexes s (t :: ts).
Proof. intros. by exists k, lit, rest. Qed.

(** The runes of the constants in sight, and what follows a constant prefix. *)
Ltac open_text :=
  repeat match goal with
  | |- context [str ?x] => let v := eval vm_compute in (str x) in change (str x) with v
  end; rewrite <- ?app_assoc; cbn [app]; rewrite <- ?app_assoc.

Ltac after_const s := lazymatch s with _ :: ?s' => after_const s' | _ => s end.

(** A constant text at the front is read by evaluation. *)
Ltac lex_const :=
  open_text;
  lazymatch goal with
  | |- Lexes ?s _ =>
      let r := after_const s in let x := fresh in let E := fresh in
      remember r as x eqn:E; eapply Lexes_cons;
      [vm_compute; reflexivity|first [exact I|reflexivity]|subst x]
  end.

(** ** Where a token ends *)

Definition quote_rune (c : rune) : bool := (c =? 39) || (c =? 34) || (c =? 96).

(** The rune after a word ends it; after a number, it is not a point either. *)
Definition ends_word (c : rune) : bool := negb (isUnquotedIdent c) && negb (quote_rune c).
Definition ends (c : rune) : bool := ends_word c && negb (c =? chr ".").

Lemma span_end f s tail :
  forallb f s = true -> f (hdr tail) = false -> span f (s ++ tail) = (s, tail).
Proof.
  intros Hs Ht. induction s as [|c s IH]; simpl in *.
  - destruct tail as [|c tail]; [done|]. simpl in *. by rewrite Ht.
  - apply andb_true_iff in Hs as [-> Hs]. by rewrite IH.
Qed.

Lemma double_rune_cons q c s :
  double_rune q (c :: s) = (if c =? q then [q; q] else [c]) ++ double_rune q s.
Proof. done. Qed.

(** A doubled quote stands for itself: the literal is read back, whatever it contains. *)
Lemma quoted_double q s tail :
  hdr tail ≠ q -> quoted q (double_rune q s ++ q :: tail) = (s, Some tail).
Proof.
  intros Ht. induction s as [|c s IH].
  - simpl. rewrite Z.eqb_refl. destruct tail as [|c tail]; [done|]. simpl in Ht.
    by destruct (Z.eqb_spec c q).
  - rewrite double_rune_cons. destruct (Z.eqb_spec c q) as [->|Hne]; simpl.
    + by rewrite Z.eqb_refl, IH.
    + rewrite (proj2 (Z.eqb_neq c q)) by done. by rewrite IH.
Qed.

Lemma double_rune_id q s : forallb (fun c => negb (c =? q)) s = true -> double_rune q s = s.
Proof.
  induction s as [|c s IH]; [done|]. cbn [forallb].
  intros [Hc Hs]%andb_true_iff. apply negb_true_iff in Hc. rewrite double_rune_cons, Hc.
  simpl. by rewrite IH.
Qed.

(** ** Leaves *)

(** A word that is not a keyword. *)
Definition is_word (w : gostring) : bool :=
  match w with
  | [] => false
  | c :: w' => (isAlpha c || (c =? chr "_")) && forallb isUnquotedIdent w' && (Lookup w =t IDENT)
  end.

Definition lexical_ident (i : Ident) : bool :=
  if Quoted i then
    match QuoteChar i with
    | [q] => (q =? 34) || ((q =? 96) && forallb (fun c => negb (c =? 96)) (Name i))
    | _ => false
    end
  else is_word (Name i) && (length (QuoteChar i) =? 0)%nat.

(** What can follow the point of a qualified name: a column starting with [e] is read as the
    exponent of a number. *)
Definition after_point (i : Ident) : bool :=
  Quoted i || negb ((hdr (Name i) =? chr "e") || (hdr (Name i) =? chr "E")).

Lemma ends_word_inv c : ends_word c = true ->
  isUnquotedIdent c = false /\ isDigit c = false /\ c ≠ 39 /\ c ≠ 34 /\ c ≠ 96.
Proof.
  unfold ends_word, quote_rune. intros [Hi Hq]%andb_true_iff.
  apply negb_true_iff in Hi, Hq. apply orb_false_iff in Hq as [[H1 H2]%orb_false_iff H3].
  apply Z.eqb_neq in H1, H2, H3. split_and!; try done. unfold isUnquotedIdent in Hi.
  by apply orb_false_iff in Hi as [[_ ?]%orb_false_iff _].
Qed.

(** Decides the classes of a rune. *)
Ltac rune_class :=
  unfold isUnquotedIdent, isHex, isAlpha, isDigit, IsSpace in *;
  cbv [chr str map List.hd String.list_ascii_of_string Z.of_N Ascii.N_of_ascii
    Ascii.N_of_digits N.add N.mul Pos.add Pos.mul] in *; lia.

Lemma word_rune_class c : (isAlpha c || (c =? chr "_")) = true ->
  IsSpace c = false /\ (isDigit c || (c =? chr ".")) = false /\ isUnquotedIdent c = true.
Proof. rune_class. Qed.

(** A word is one token: its keyword, or an identifier. *)
Lemma Lexes_lookup c w t tail ts :
  (isAlpha c || (c =? chr "_")) = true -> forallb isUnquotedIdent w = true ->
  Lookup (c :: w) = t_tok t -> lit_is (c :: w) (t_lit t) -> ends_word (hdr tail) = true ->
  Lexes tail ts -> Lexes (c :: w ++ tail) (t :: ts).
Proof.
  intros Hc Hw Hk Hlit (He & _ & Hq & _)%ends_word_inv Hts.
  destruct (word_rune_class _ Hc) as (Hs & Hd & Hi).
  eapply (Lexes_cons 1 _ _ (c :: w)); [|done|exact Hts].
  cbn [lex_runes]. rewrite Hs. unfold lex_token. rewrite Hd, Hc.
  assert (Hspan : span isUnquotedIdent (w ++ tail) = (w, tail)) by (by apply span_end).
  destruct ((c =? chr "x") || (c =? chr "X")) eqn:Hx.
  - unfold lex_blob. destruct w as [|d w].
    + cbn [app]. rewrite He. apply Z.eqb_neq in Hq. change (chr "'") with 39. rewrite Hq.
      cbn [negb]. rewrite <- Hk. f_equal. f_equal. f_equal.
      apply orb_true_iff in Hx as [->%Z.eqb_eq | ->%Z.eqb_eq]; vm_compute; reflexivity.
    + cbn [app List.hd]. cbn [forallb] in Hw. apply andb_true_iff in Hw as [Hd' _]. rewrite Hd'.
      unfold lex_ident. cbn [app] in Hspan. rewrite Hspan. cbn [app]. by rewrite Hk.
  - unfold lex_ident. cbn [span]. rewrite Hi, Hspan. cbn [app]. by rewrite Hk.
Qed.

Lemma Lexes_word w tail ts :
  is_word w = true -> ends_word (hdr tail) = true -> Lexes tail ts ->
  Lexes (w ++ tail) (tkl IDENT w :: ts).
Proof.
  destruct w as [|c w]; [done|]. cbn [is_word]. intros [[Hc Hw]%andb_true_iff Hk]%andb_true_iff.
  apply tokeqb_true in Hk. intros. by apply Lexes_lookup.
Qed.

Lemma ends_ends_word c : ends c = true -> ends_word c = true.
Proof. by intros [? _]%andb_true_iff. Qed.

(** A constant keyword that the text after it ends. *)
Ltac lex_keyword :=
  open_text;
  lazymatch goal with
  | |- Lexes (?c :: ?s) _ =>
      let w := word_of s in let r := after_const s in
      apply (Lexes_lookup c w _ r);
      [reflexivity|reflexivity|vm_compute; reflexivity|exact I|try by apply ends_ends_word|]
  end
with word_of s := lazymatch s with
  | ?c :: ?s' => let w := word_of s' in constr:(c :: w)
  | _ => constr:(@nil Z)
  end.

Lemma Lexes_ident i tail ts :
  lexical_ident i = true -> ends_word (hdr tail) = true -> Lexes tail ts ->
  Lexes (Ident_String i ++ tail) (ident_tok i :: ts).
Proof.
  destruct i as [name quo q]. unfold lexical_ident, Ident_String, ident_tok. simpl.
  destruct quo.
  - intros Hq He%ends_word_inv Hts. destruct q as [|q [|]]; try done.
    assert (Htext : (if [q] =s [34] then [q] ++ double_rune 34 name ++ [q] else [q] ++ name ++ [q]) =
      q :: double_rune q name ++ [q]).
    { apply orb_true_iff in Hq as [Hq|[Hq Hn]%andb_true_iff]; apply Z.eqb_eq in Hq as ->; [done|].
      by rewrite (double_rune_id 96). }
    rewrite Htext. cbn [app]. rewrite <- app_assoc. cbn [app].
    assert (Hqv : q = 34 \/ q = 96).
    { apply orb_true_iff in Hq as [Hq|[Hq _]%andb_true_iff]; apply Z.eqb_eq in Hq; auto. }
    assert (Hlex : quoted q (double_rune q name ++ q :: tail) = (name, Some tail)).
    { apply quoted_double. destruct Hqv as [-> | ->]; tauto. }
    eapply (Lexes_cons 1 _ _ (q :: name ++ [q]) tail); [|done|exact Hts].
    destruct Hqv as [-> | ->]; cbn [lex_runes].
    all: match goal with |- context [lex_token ?c ?s] =>
      change (lex_token c s) with (1%nat, lex_quoted c s) end; cbn.
    all: unfold lex_quoted; by rewrite Hlex.
  - intros [Hw _]%andb_true_iff. by apply Lexes_word.
Qed.

(** A string literal is read back, whatever it contains. *)
Lemma Lexes_string v tail ts :
  hdr tail ≠ 39 -> Lexes tail ts ->
  Lexes (StringLit_String v ++ tail) (tkl STRING v :: ts).
Proof.
  intros He Hts. unfold StringLit_String. rewrite <- !app_assoc.
  eapply (Lexes_cons 1 _ _ v tail); [|done|exact Hts].
  change (lex_runes (str "'" ++ double_rune (chr "'") v ++ str "'" ++ tail)) with
    (1%nat, lex_string (double_rune 39 v ++ 39 :: tail)).
  unfold lex_string. change (chr "'") with 39. by rewrite quoted_double.
Qed.

Lemma hexes_end v tail :
  forallb isHex v = true -> hexes (v ++ 39 :: tail) = (v, (39, tail)).
Proof.
  induction v as [|c v IH]; simpl; [done|]. intros [Hc Hv]%andb_true_iff.
  replace (c =? chr "'") with false by (clear -Hc; rune_class). by rewrite Hc, IH.
Qed.

Lemma Lexes_blob v tail ts :
  forallb isHex v = true -> Lexes tail ts -> Lexes (BlobLit_String v ++ tail) (tkl BLOB v :: ts).
Proof.
  intros Hv Hts. unfold BlobLit_String. rewrite <- !app_assoc.
  eapply (Lexes_cons 1 _ _ v tail); [|done|exact Hts].
  change (lex_runes (str "x'" ++ v ++ str "'" ++ tail)) with
    (1%nat, lex_blob 120 (39 :: v ++ 39 :: tail)).
  unfold lex_blob. change (isUnquotedIdent (hdr (39 :: v ++ 39 :: tail))) with false.
  change (negb (hdr (39 :: v ++ 39 :: tail) =? chr "'")) with false. cbn [List.tl].
  by rewrite hexes_end.
Qed.

(** A numeric literal: a text the lexer takes as one number, of the kind [number_tok] says. *)
Definition is_number (v : gostring) : bool :=
  (isDigit (hdr v) || (hdr v =? chr ".")) &&
  let '(tok, lit, rest) := lex_number v in
  (tok =t number_tok v) && (lit =s v) && (rest =s []).

Lemma span_append f s tail :
  f (hdr tail) = false -> span f (s ++ tail) = ((span f s).1, (span f s).2 ++ tail).
Proof.
  intros Ht. induction s as [|c s IH]; simpl.
  - destruct tail as [|c tail]; [done|]. simpl in *. by rewrite Ht.
  - destruct (f c); [|done]. rewrite IH. by destruct (span f s).
Qed.

(** The next rune is the same, or it is the first one after the number and not of interest. *)
Lemma hdr_append (x : rune) s tail :
  x ≠ -1 -> hdr tail ≠ x -> (hdr (s ++ tail) =? x) = (hdr s =? x).
Proof.
  intros H1 Ht. destruct s as [|c s]; [|done]. cbn [app List.hd].
  rewrite (proj2 (Z.eqb_neq _ _) Ht). symmetry. apply Z.eqb_neq. lia.
Qed.

Lemma lex_exponent_append buf s tail lit rest :
  s ≠ [] -> isDigit (hdr tail) = false -> lex_exponent buf s = (FLOAT, lit, rest) ->
  lex_exponent buf (s ++ tail) = (FLOAT, lit, rest ++ tail).
Proof.
  intros Hs Hd. destruct s as [|e s]; [done|]. unfold lex_exponent. cbn [List.hd List.tl app].
  destruct s as [|c s]; [done|]. cbn [List.hd List.tl app].
  assert (Hdig : forall b s, isDigit (hdr s) = true ->
    (let '(ds, s) := span isDigit s in (FLOAT, b ++ ds, s)) = (FLOAT, lit, rest) ->
    (let '(ds, s) := span isDigit (s ++ tail) in (FLOAT, b ++ ds, s)) = (FLOAT, lit, rest ++ tail)).
  { intros b s0 _. rewrite span_append by done. destruct (span isDigit s0). simpl.
    by intros [= -> ->]. }
  destruct ((c =? chr "+") || (c =? chr "-")).
  - destruct s as [|d s]; [done|]. cbn [List.hd app]. destruct (isDigit d) eqn:Hdd; [|done].
    by apply (Hdig _ (d :: s)).
  - destruct (isDigit c) eqn:Hdc; [|done]. by apply (Hdig _ (c :: s)).
Qed.

Lemma lex_number_append v tail tok lit rest :
  ends (hdr tail) = true -> tok ≠ ILLEGAL -> lex_number v = (tok, lit, rest) ->
  lex_number (v ++ tail) = (tok, lit, rest ++ tail).
Proof.
  intros [He Hp]%andb_true_iff Htok. apply ends_word_inv in He as (Hi & Hd & _).
  apply negb_true_iff, Z.eqb_neq in Hp.
  assert (hdr tail ≠ chr "e" /\ hdr tail ≠ chr "E") as [HeL HeU].
  { split; intros Heq; rewrite Heq in Hi; by vm_compute in Hi. }
  unfold lex_number. rewrite span_append by done. destruct (span isDigit v) as [ds s] eqn:Hds.
  cbn [fst snd]. rewrite hdr_append by done.
  assert (Hexp : forall t b s0,
    (let '(tok, lit, s) := if (hdr s0 =? chr "e") || (hdr s0 =? chr "E") then lex_exponent b s0
       else (t, b, s0) in
     if tok =t ILLEGAL then (ILLEGAL, lit, s) else if lit =s str "." then (DOT, lit, s)
     else (tok, lit, s)) = (tok, lit, rest) ->
    (let '(tok, lit, s) := if (hdr (s0 ++ tail) =? chr "e") || (hdr (s0 ++ tail) =? chr "E")
       then lex_exponent b (s0 ++ tail) else (t, b, s0 ++ tail) in
     if tok =t ILLEGAL then (ILLEGAL, lit, s) else if lit =s str "." then (DOT, lit, s)
     else (tok, lit, s)) = (tok, lit, rest ++ tail)).
  { intros t b s0. rewrite !hdr_append by done.
    destruct ((hdr s0 =? chr "e") || (hdr s0 =? chr "E")) eqn:Hexp.
    - destruct (lex_exponent b s0) as [[t1 l1] s1] eqn:Hl.
      destruct (tokeqb_spec t1 ILLEGAL) as [->|Hne]; [congruence|]. intros H.
      assert (t1 = FLOAT) as ->.
      { unfold lex_exponent in Hl. repeat case_match; simplify_eq; done. }
      rewrite (lex_exponent_append _ _ _ l1 s1); [|by intros ->|done|done].
      by destruct (l1 =s str "."); simplify_eq.
    - destruct (t =t ILLEGAL), (b =s str "."); intros; by simplify_eq. }
  destruct (hdr s =? chr ".") eqn:Hpt.
  - destruct s as [|c s]; [done|]. cbn [List.tl app]. rewrite span_append by done.
    destruct (span isDigit s) as [ds' s1]. cbn [fst snd]. apply Hexp.
  - apply Hexp.
Qed.

Lemma Lexes_number v tail ts :
  is_number v = true -> ends (hdr tail) = true -> Lexes tail ts ->
  Lexes (v ++ tail) (tkl (number_tok v) v :: ts).
Proof.
  unfold is_number. intros [Hc Hv]%andb_true_iff He Hts.
  destruct (lex_number v) as [[tok lit] rest] eqn:Hl.
  apply andb_true_iff in Hv as [[Ht Hlit]%andb_true_iff Hr]. apply tokeqb_true in Ht.
  apply bool_decide_eq_true in Hlit, Hr. subst tok lit rest.
  apply (lex_number_append _ tail) in Hl; [|done|by unfold number_tok; destruct (forallb _ _)].
  destruct v as [|c v]; [done|]. cbn [List.hd] in Hc.
  eapply (Lexes_cons 1 _ _ (c :: v) tail); [|done|exact Hts].
  cbn [app lex_runes]. replace (IsSpace c) with false by (clear -Hc; rune_class).
  unfold lex_token. rewrite Hc. by f_equal.
Qed.

(** A bind parameter: a question mark with digits, or a sigil with a name. *)
Definition is_bind (v : gostring) : bool :=
  match v with
  | [] => false
  | c :: v' =>
      ((c =? chr "?") && forallb isDigit v') ||
      (((c =? chr ":") || (c =? chr "@") || (c =? chr "$")) && forallb isUnquotedIdent v')
  end.

Lemma Lexes_bind v n tail ts :
  is_bind v = true -> ends_word (hdr tail) = true -> Lexes tail ts ->
  Lexes (v ++ tail) (mkTok BIND (Some v) n :: ts).
Proof.
  destruct v as [|c v]; [done|]. cbn [is_bind]. intros Hv (Hi & Hd & _)%ends_word_inv Hts.
  eapply (Lexes_cons 1 _ _ (c :: v) tail); [|done|exact Hts].
  assert (Hc : c = chr "?" \/ c = chr ":" \/ c = chr "@" \/ c = chr "$") by
    (clear -Hv; rewrite !orb_true_iff, !andb_true_iff, !orb_true_iff, !Z.eqb_eq in Hv; tauto).
  assert (Hspan : span (if c =? chr "?" then isDigit else isUnquotedIdent) (v ++ tail) = (v, tail)).
  { apply span_end; [|by destruct (c =? chr "?")].
    destruct (Z.eqb_spec c (chr "?")) as [->|]; simpl in Hv.
    - by rewrite orb_false_r in Hv.
    - by apply andb_true_iff in Hv as [_ ?]. }
  cbn [app lex_runes].
  replace (lex_token c (v ++ tail)) with (1%nat, lex_bind c (v ++ tail))
    by (by destruct Hc as [-> |[-> |[-> | ->]]]).
  replace (IsSpace c) with false by (by destruct Hc as [-> |[-> |[-> | ->]]]).
  unfold lex_bind. by rewrite Hspan.
Qed.

(** A point before a name. *)
Lemma Lexes_point s ts :
  isDigit (hdr s) = false -> hdr s ≠ chr "e" -> hdr s ≠ chr "E" -> Lexes s ts ->
  Lexes (46 :: s) (tk DOT :: ts).
Proof.
  intros Hd He HE Hts. eapply (Lexes_cons 1 _ _ (str ".") s); [|done|exact Hts].
  change (lex_runes (46 :: s)) with (1%nat, lex_number (46 :: s)). unfold lex_number.
  change (span isDigit (46 :: s)) with (@nil Z, 46 :: s). cbn [List.hd List.tl].
  pose proof (span_append isDigit [] s Hd) as Hspan. cbn [app] in Hspan. rewrite Hspan.
  change (46 =? chr ".") with true. cbn [span fst snd app].
  rewrite (proj2 (Z.eqb_neq _ _) He), (proj2 (Z.eqb_neq _ _) HE). done.
Qed.

Lemma ident_hd i : lexical_ident i = true -> after_point i = true ->
  forall tail, isDigit (hdr (Ident_String i ++ tail)) = false /\
    hdr (Ident_String i ++ tail) ≠ chr "e" /\ hdr (Ident_String i ++ tail) ≠ chr "E".
Proof.
  destruct i as [name quo q]. unfold lexical_ident, after_point, Ident_String. simpl.
  destruct quo; simpl; intros Hl Ha tail.
  - destruct q as [|q [|]]; try done.
    assert (q = 34 \/ q = 96) as [-> | ->].
    { apply orb_true_iff in Hl as [Hl|[Hl _]%andb_true_iff]; apply Z.eqb_eq in Hl; auto. }
    all: by case_match.
  - apply andb_true_iff in Hl as [Hl _]. destruct name as [|c name]; [done|]. cbn [app List.hd].
    cbn [is_word] in Hl. apply andb_true_iff in Hl as [[Hc _]%andb_true_iff _].
    cbn [List.hd] in Ha. apply negb_true_iff, orb_false_iff in Ha as [H1 H2].
    apply Z.eqb_neq in H1, H2. split_and!; [clear -Hc; rune_class|done|done].
Qed.

(** ** Expressions *)

Fixpoint lexical (e : Expr) : bool :=
  match e with
  | EIdent i => lexical_ident i
  | EStringLit _ | ENullLit | EBoolLit _ => true
  | EBlobLit v => forallb isHex v
  | ENumberLit v => is_number v
  | EBindExpr name _ => is_bind name
  | EUnaryExpr _ x => lexical x
  | EBinaryExpr x _ y => lexical x && lexical y
  | ECaseExpr operand blocks els =>
      (match operand with Some x => lexical x | None => true end) &&
      forallb lexical_block blocks &&
      (match els with Some x => lexical x | None => true end)
  | EExists _ _ => false
  | EExprs l => forallb lexical l
  | ERange x y => lexical x && lexical y
  | EQualifiedRef table _ column =>
      lexical_ident table &&
      (match column with Some c => lexical_ident c && after_point c | None => true end)
  | ECall name _ _ args filter =>
      negb (Quoted name) && lexical_ident name && forallb lexical args &&
      (match filter with Some f => lexical_filter f | None => true end)
  | EParenExpr x => lexical x
  end
with lexical_block (b : CaseBlock) : bool :=
  match b with mkCaseBlock c x => lexical c && lexical x end
with lexical_filter (f : FilterClause) : bool :=
  match f with mkFilterClause x => lexical x end.

(** [o] prints a text that is read as [ts] wherever a token can end. *)
Definition prints (o : printed) (ts : list tokl) : Prop :=
  exists s, o = Ok s /\
    forall tail ts', ends (hdr tail) = true -> Lexes tail ts' -> Lexes (s ++ tail) (ts ++ ts').

(** The operators with an expression on both sides, as [BinaryExpr.String] prints them. *)
Lemma Lexes_binop op t s ts :
  binop_text op = Some t -> Lexes s ts -> Lexes (t ++ s) (map tk (op_words op) ++ ts).
Proof.
  intros Ht Hs. destruct op; try discriminate Ht; injection Ht as <-.
  all: cbn [op_words map app].
  all: repeat lex_const; by apply Lexes_space.
Qed.

Section Prints.
Context (k : nat) (IH : forall m e, (length (etoks e) < k)%nat -> wf m e = true ->
  lexical e = true -> prints (Expr_String e) (etoks e)).

(** Expressions separated by commas. *)
Lemma prints_list l :
  forallb (wf 1) l = true -> forallb lexical l = true -> (length (sep_toks etoks l) < k)%nat ->
  prints (join_with (lit ", ") Expr_String l) (sep_toks etoks l).
Proof.
  induction l as [|x l IHl]; [by exists []|]. cbn [forallb].
  intros [Hx Hl]%andb_true_iff [Lx Ll]%andb_true_iff Hk.
  destruct l as [|y l]; [by eapply IH|].
  cbn [sep_toks join_with] in *. rewrite length_app in Hk. simpl length in Hk.
  destruct (IH 1 x) as (s & Hs & Ps); [lia|done|done|].
  destruct IHl as (s' & Hs' & Ps'); [done|done|lia|].
  rewrite Hs, Hs'. eexists. split; [reflexivity|]. intros tail ts He Ht.
  rewrite <- !app_assoc. apply Ps; [done|]. lex_const. apply Lexes_space. by apply Ps'.
Qed.

Lemma prints_filter f :
  wf_filter f = true -> lexical_filter f = true -> (length (ftoks f) < k)%nat ->
  prints (FilterClause_String f) (ftoks f).
Proof.
  destruct f as [x]. simpl. rewrite length_app. intros Hx Lx Hk.
  destruct (IH 1 x) as (s & Hs & Ps); [lia|done|done|].
  rewrite Hs. eexists. split; [reflexivity|]. intros tail ts He Ht.
  do 3 lex_const. apply Lexes_space. apply Ps; [done|]. by lex_const.
Qed.

(** The blocks of a CASE, each after a space. *)
Lemma prints_blocks blocks :
  forallb wf_block blocks = true -> forallb lexical_block blocks = true ->
  (length (concat (map btoks blocks)) < k)%nat ->
  exists s, join_with (Ok []) (fun b => lit " " +s CaseBlock_String b) blocks = Ok s /\
    (forall tail, hdr (s ++ 32 :: tail) = 32) /\
    forall tail ts', Lexes (32 :: tail) ts' ->
      Lexes (s ++ 32 :: tail) (concat (map btoks blocks) ++ ts').
Proof.
  assert (Hone : forall b, wf_block b = true -> lexical_block b = true ->
    (length (btoks b) < k)%nat ->
    exists s, lit " " +s CaseBlock_String b = Ok (32 :: s) /\
      forall tail ts', Lexes (32 :: tail) ts' -> Lexes (32 :: s ++ 32 :: tail) (btoks b ++ ts')).
  { intros [c x] [Hc Hx]%andb_true_iff [Lc Lx]%andb_true_iff Hk.
    cbn [btoks length] in Hk. rewrite length_app in Hk. cbn [length] in Hk.
    destruct (IH 1 c) as (s & Hs & Ps); [lia|done|done|].
    destruct (IH 1 x) as (s' & Hs' & Ps'); [lia|done|done|].
    cbn [CaseBlock_String]. rewrite Hs, Hs'.
    exists (str "WHEN " ++ s ++ str " THEN " ++ s'). split; [reflexivity|].
    intros tail ts Ht. cbn [btoks].
    lex_const. apply Lexes_space. apply Ps; [done|].
    lex_const. apply Lexes_space. by apply Ps'. }
  induction blocks as [|b blocks IHb]; [by exists []|]. cbn [forallb map concat].
  intros [Hb Hbs]%andb_true_iff [Lb Lbs]%andb_true_iff Hk. rewrite length_app in Hk.
  destruct (Hone b) as (s & Hs & Ps); [done|done|lia|].
  destruct blocks as [|b' blocks].
  - cbn [join_with]. rewrite Hs. eexists. split; [reflexivity|]. split; [done|].
    rewrite app_nil_r. intros tail ts Ht. by apply Ps.
  - destruct IHb as (s' & Hs' & Hh & Ps'); [done|done|lia|].
    change (join_with (Ok []) (fun b => lit " " +s CaseBlock_String b) (b :: b' :: blocks)) with
      ((lit " " +s CaseBlock_String b) +s Ok [] +s
       join_with (Ok []) (fun b => lit " " +s CaseBlock_String b) (b' :: blocks)).
    rewrite Hs, Hs'. eexists. split; [reflexivity|]. split; [done|].
    intros tail ts Ht. cbn [app]. rewrite <- !app_assoc. specialize (Ps' _ _ Ht).
    specialize (Hh tail). destruct (s' ++ 32 :: tail) as [|h rest]; [done|]. simpl in Hh. subst h.
    by apply Ps.
Qed.

Lemma prints_case operand blocks els :
  let e := ECaseExpr operand blocks els in
  wf 1 e = true -> lexical e = true -> (length (etoks e) <= k)%nat ->
  prints (Expr_String e) (etoks e).
Proof.
  intros e. subst e. cbn [wf lexical etoks Expr_String length].
  intros [[[Hop _]%andb_true_iff Hbs]%andb_true_iff Hels]%andb_true_iff
    [[Lop Lbs]%andb_true_iff Lels]%andb_true_iff Hk. rewrite !length_app in Hk. cbn [length] in Hk.
  destruct (prints_blocks blocks) as (sb & Hsb & Hh & Pb); [done|done|lia|]. rewrite Hsb.
  assert (exists se, (match els with Some x => lit " ELSE " +s Expr_String x | None => Ok [] end) +s
      lit " END" = Ok (32 :: se) /\ forall tail ts, ends (hdr tail) = true -> Lexes tail ts ->
      Lexes (32 :: se ++ tail)
        (((match els with Some x => tk ELSE :: etoks x | None => [] end) ++ [tk END]) ++ ts))
    as (se & Hse & Pe).
  { destruct els as [x|].
    - destruct (IH 1 x) as (s & Hs & Ps); [simpl length in Hk; lia|done|done|]. rewrite Hs.
      exists (str "ELSE " ++ s ++ str " END"). split; [reflexivity|]. intros tail ts He Ht.
      lex_const. apply Lexes_space. apply Ps; [done|]. apply Lexes_space. by lex_keyword.
    - exists (str "END"). split; [reflexivity|]. intros tail ts He Ht.
      apply Lexes_space. by lex_keyword. }
  rewrite Hse. clear Hse.
  set (etail := _ ++ [tk END]) in *. clearbody etail.
  assert (Hrest : forall tail ts, ends (hdr tail) = true -> Lexes tail ts ->
    exists rest, sb ++ 32 :: se ++ tail = 32 :: rest /\
      Lexes (32 :: rest) (concat (map btoks blocks) ++ etail ++ ts)).
  { intros tail ts He Ht. specialize (Pe _ _ He Ht). specialize (Pb _ _ Pe).
    specialize (Hh (se ++ tail)). destruct (sb ++ 32 :: se ++ tail) as [|h rest]; [done|].
    simpl in Hh. subst h. by exists rest. }
  destruct operand as [x|].
  - destruct (IH 1 x) as (s & Hs & Ps); [lia|done|done|]. rewrite Hs.
    exists (str "CASE " ++ s ++ sb ++ 32 :: se). split; [reflexivity|]. intros tail ts He Ht.
    destruct (Hrest tail ts He Ht) as (rest & Heq & HL). lex_const. apply Lexes_space.
    apply Ps; rewrite Heq; [done|exact HL].
  - exists (str "CASE" ++ sb ++ 32 :: se). split; [reflexivity|]. intros tail ts He Ht.
    destruct (Hrest tail ts He Ht) as (rest & Heq & HL). open_text. rewrite Heq. by lex_const.
Qed.

Lemma prints_qualified table star column :
  let e := EQualifiedRef table star column in
  wf 1 e = true -> lexical e = true -> prints (Expr_String e) (etoks e).
Proof.
  intros e. subst e. cbn [wf lexical etoks Expr_String].
  intros [_ Hc]%andb_true_iff [Lt Lc]%andb_true_iff.
  destruct star; [|destruct column as [c|]; [|done]].
  - exists (Ident_String table ++ str ".*"). split; [done|]. intros tail ts He Ht. open_text.
    apply Lexes_ident; [done|done|]. apply Lexes_point; [done|done|done|]. by lex_const.
  - apply andb_true_iff in Lc as [Lc Ha].
    exists (Ident_String table ++ str "." ++ Ident_String c). split; [done|]. intros tail ts He Ht.
    open_text. apply Lexes_ident; [done|done|].
    destruct (ident_hd c Lc Ha tail) as (Hd & H1 & H2). apply Lexes_point; [done|done|done|].
    apply Lexes_ident; [done|by apply ends_ends_word|done].
Qed.

Lemma binary_text op : op ∈ binary_ops -> exists t, binop_text op = Some (32 :: t).
Proof.
  intros Hop. cbn in Hop.
  repeat (apply elem_of_cons in Hop as [->|Hop]); [..|by apply elem_of_nil in Hop].
  all: by eexists.
Qed.

(** The right side of an operator: an expression, a list or a range. *)
Lemma prints_right m x op y :
  wf m (EBinaryExpr x op y) = true -> lexical y = true -> (length (etoks y) < k)%nat ->
  prints (Expr_String y) (etoks y).
Proof.
  cbn [wf]. intros [_ Hy]%andb_true_iff Ly Hk.
  destruct (list_op op); [|destruct (range_op op)].
  - destruct y as [| | | | | | | | | | |l| | | |]; try done.
    cbn [etoks length Expr_String lexical] in *. rewrite length_app in Hk.
    destruct (prints_list l) as (s & Hs & Ps); [done|done|lia|]. rewrite Hs.
    exists (40 :: s ++ [41]). split; [reflexivity|]. intros tail ts He Ht. lex_const.
    apply Ps; [done|]. by lex_const.
  - destruct y as [| | | | | | | | | | | |a b| | |]; try done.
    apply andb_true_iff in Hy as [[Ha _]%andb_true_iff Hb].
    cbn [etoks Expr_String lexical] in *. rewrite length_app in Hk. cbn [length] in Hk.
    apply andb_true_iff in Ly as [La Lb].
    destruct (IH _ a ltac:(lia) Ha La) as (s & Hs & Ps).
    destruct (IH _ b ltac:(lia) Hb Lb) as (s' & Hs' & Ps'). rewrite Hs, Hs'.
    exists (s ++ str " AND " ++ s'). split; [reflexivity|]. intros tail ts He Ht. open_text.
    apply Ps; [done|]. lex_const. apply Lexes_space. by apply Ps'.
  - apply andb_true_iff in Hy as [_ Hy]. by eapply IH.
Qed.

Lemma prints_binary m x op y :
  let e := EBinaryExpr x op y in
  wf m e = true -> lexical e = true -> (length (etoks e) <= k)%nat ->
  prints (Expr_String e) (etoks e).
Proof.
  intros e Hwf Hlex Hk. subst e. destruct (right_head _ _ _ _ [] Hwf) as [Hop _].
  destruct (binary_text op Hop) as [t Ht].
  cbn [lexical etoks Expr_String] in *. rewrite Ht. rewrite !length_app in Hk.
  apply andb_true_iff in Hlex as [Lx Ly].
  pose proof (op_words_pos op).
  destruct (prints_right _ _ _ _ Hwf Ly) as (s' & Hs' & Ps').
  { cbn [wf] in Hwf. apply andb_true_iff in Hwf as [[[_ Hx]%andb_true_iff _]%andb_true_iff _].
    pose proof (etoks_nonempty _ _ Hx). lia. }
  cbn [wf] in Hwf. apply andb_true_iff in Hwf as [[[_ Hx]%andb_true_iff _]%andb_true_iff _].
  destruct (IH _ x ltac:(lia) Hx Lx) as (s & Hs & Ps). rewrite Hs, Hs'.
  exists (s ++ (32 :: t) ++ s'). split; [reflexivity|]. intros tail ts He Htail.
  rewrite <- !app_assoc. apply Ps; [done|]. eapply Lexes_binop; [exact Ht|]. by apply Ps'.
Qed.

(** The arguments of a call between its parentheses. *)
Lemma prints_call name star distinct args filter :
  let e := ECall name star distinct args filter in
  wf 1 e = true -> lexical e = true -> (length (etoks e) <= k)%nat ->
  prints (Expr_String e) (etoks e).
Proof.
  intros e. subst e. cbn [wf lexical etoks Expr_String].
  intros [[Hname Hargs]%andb_true_iff Hfil]%andb_true_iff
    [[[Hq Lname]%andb_true_iff Largs]%andb_true_iff Lfil]%andb_true_iff Hk.
  rewrite !length_app in Hk. cbn [length] in Hk. apply negb_true_iff in Hq.
  assert (exists sf, (lit ")" +s match filter with Some f => lit " " +s FilterClause_String f
      | None => Ok [] end) = Ok (41 :: sf) /\ forall tail ts, ends (hdr tail) = true ->
      Lexes tail ts -> Lexes (41 :: sf ++ tail)
        (tk RP :: (match filter with Some f => ftoks f | None => [] end) ++ ts))
    as (sf & Hsf & Pf).
  { destruct filter as [f|].
    - destruct (prints_filter f) as (s & Hs & Ps); [done|done|lia|]. rewrite Hs.
      exists (32 :: s). split; [reflexivity|]. intros tail ts He Ht. lex_const.
      apply Lexes_space. by apply Ps.
    - exists []. split; [reflexivity|]. intros tail ts He Ht. by lex_const. }
  rewrite Hsf. clear Hsf.
  set (ftail := match filter with Some f => ftoks f | None => [] end) in *. clearbody ftail.
  assert (exists sm, (if star then lit "*" else (if distinct then lit "DISTINCT" +s
      match args with [] => Ok [] | _ :: _ => lit " " end else Ok []) +s
      join_with (lit ", ") Expr_String args) = Ok sm /\ forall tail ts, Lexes (41 :: tail) ts ->
      Lexes (sm ++ 41 :: tail) ((if star then [tk STAR]
        else (if distinct then [tk DISTINCT] else []) ++ sep_toks etoks args) ++ ts))
    as (sm & Hsm & Pm).
  { destruct star; [exists (str "*"); split; [done|]; intros; by lex_const|].
    rewrite length_app in Hk.
    destruct (prints_list args) as (s & Hs & Ps); [done|done|lia|]. rewrite Hs.
    destruct distinct; [|exists s; split; [done|]; intros; by apply Ps].
    destruct args as [|x args].
    - injection Hs as <-. exists (str "DISTINCT"). split; [done|]. intros. by lex_const.
    - exists (str "DISTINCT " ++ s). split; [done|]. intros tail ts Ht. lex_const.
      apply Lexes_space. by apply Ps. }
  rewrite Hsm. clear Hsm. exists (Name name ++ 40 :: sm ++ 41 :: sf). split; [reflexivity|].
  intros tail ts He Ht.
  assert (Hn : Ident_String name = Name name) by (unfold Ident_String; by rewrite Hq).
  rewrite <- Hn. open_text. apply Lexes_ident; [done|done|]. lex_const. apply Pm.
  by apply Pf.
Qed.
End Prints.

(** Every expression of the grammar prints to its tokens. *)
Lemma prints_expr m e : wf m e = true -> lexical e = true -> prints (Expr_String e) (etoks e).
Proof.
  remember (length (etoks e)) as n eqn:Hn. revert m e Hn.
  induction n as [n IHn] using lt_wf_ind. intros m e -> Hwf Hlex.
  assert (IH : forall m e', (length (etoks e') < length (etoks e))%nat -> wf m e' = true ->
    lexical e' = true -> prints (Expr_String e') (etoks e')) by (intros; by eapply IHn).
  clear IHn. destruct e.
  - exists (Ident_String i). split; [done|]. intros tail ts He Ht.
    apply Lexes_ident; [done|by apply ends_ends_word|done].
  - exists (StringLit_String Value). split; [done|]. intros tail ts He Ht.
    apply Lexes_string; [|done]. by apply ends_ends_word, ends_word_inv in He as (_ & _ & ? & _).
  - exists (BlobLit_String Value). split; [done|]. intros tail ts He Ht. by apply Lexes_blob.
  - exists Value. split; [done|]. intros tail ts He Ht. by apply Lexes_number.
  - exists (str "NULL"). split; [done|]. intros tail ts He Ht. cbn [etoks]. by lex_keyword.
  - destruct Value; [exists (str "TRUE")|exists (str "FALSE")]; (split; [done|]);
      intros tail ts He Ht; cbn [etoks]; by lex_keyword.
  - exists Name. split; [done|]. intros tail ts He Ht.
    apply Lexes_bind; [done|by apply ends_ends_word|done].
  - cbn [wf lexical etoks length] in *.
    apply andb_true_iff in Hwf as [[Hop _]%andb_true_iff Hwf].
    destruct (IH 1 e) as (s & Hs & Ps); [lia|done|done|].
    unfold tok_in in Hop. simpl in Hop. rewrite orb_false_r in Hop. cbn [Expr_String]. rewrite Hs.
    apply orb_true_iff in Hop as [->%tokeqb_true| ->%tokeqb_true];
      [exists (43 :: s)|exists (45 :: s)]; (split; [reflexivity|]); intros tail ts He Ht.
    all: lex_const; by apply Ps.
  - by apply (prints_binary (length (etoks (EBinaryExpr e1 Op e2))) IH m).
  - by apply (prints_case (length (etoks (ECaseExpr Operand Blocks ElseExpr)))).
  - done.
  - done.
  - done.
  - by apply prints_qualified.
  - by apply (prints_call (length (etoks (ECall Name Star Distinct Args Filter)))).
  - cbn [wf lexical Expr_String etoks] in *.
    destruct (IH 1 e) as (s & Hs & Ps); [cbn [length]; rewrite length_app; lia|done|done|]. rewrite Hs.
    exists (40 :: s ++ [41]). split; [reflexivity|]. intros tail ts He Ht. lex_const.
    apply Ps; [done|]. by lex_const.
Qed.

(** ** Parsing what was printed *)

Lemma numbered_app b ts t : numbered b ts -> t_tok t ≠ BIND -> t_num t = None ->
  numbered b (ts ++ [t]).
Proof.
  revert b. induction ts as [|u ts IH]; intros b; simpl.
  - intros _ ? ->. done.
  - destruct (t_num u); intros; destruct_and!; split_and!; auto.
Qed.

Lemma inside_app ts ts' : inside (ts ++ ts') = inside ts && inside ts'.
Proof. apply forallb_app. Qed.

Lemma inside_ident i : inside [ident_tok i] = true.
Proof. unfold ident_tok. by destruct (Quoted i). Qed.

Lemma inside_op op : op ∈ binary_ops -> inside (map tk (op_words op)) = true.
Proof.
  intros Hop. cbn in Hop.
  repeat (apply elem_of_cons in Hop as [->|Hop]); [done..|by apply elem_of_nil in Hop].
Qed.

Section Inside.
Context (k : nat) (IH : forall m e, (length (etoks e) < k)%nat -> wf m e = true ->
  inside (etoks e) = true).

Lemma inside_list l :
  forallb (wf 1) l = true -> (length (sep_toks etoks l) < k)%nat ->
  inside (sep_toks etoks l) = true.
Proof.
  induction l as [|x l IHl]; [done|]. cbn [forallb]. intros [Hx Hl]%andb_true_iff Hk.
  destruct l as [|y l]; [by eapply IH|]. cbn [sep_toks] in *. rewrite length_app in Hk.
  simpl length in Hk. rewrite inside_app. rewrite (IH 1 x) by (done || lia).
  apply IHl; [done|simpl; lia].
Qed.

Lemma inside_right m x op y :
  wf m (EBinaryExpr x op y) = true -> (length (etoks y) < k)%nat -> inside (etoks y) = true.
Proof.
  cbn [wf]. intros [_ Hy]%andb_true_iff Hk.
  destruct (list_op op); [|destruct (range_op op)].
  - destruct y as [| | | | | | | | | | |l| | | |]; try done. cbn [etoks length] in *.
    rewrite length_app in Hk. change (inside ([tk LP] ++ sep_toks etoks l ++ [tk RP]) = true).
    rewrite !inside_app, inside_list by (done || lia). done.
  - destruct y as [| | | | | | | | | | | |a b| | |]; try done.
    apply andb_true_iff in Hy as [[Ha _]%andb_true_iff Hb]. cbn [etoks] in *.
    rewrite length_app in Hk. cbn [length] in Hk.
    change (inside (etoks a ++ [tk AND] ++ etoks b) = true).
    rewrite !inside_app, (IH _ a), (IH _ b) by (done || lia). done.
  - apply andb_true_iff in Hy as [_ Hy]. by eapply IH.
Qed.

Lemma inside_blocks bs :
  forallb wf_block bs = true -> (length (concat (map btoks bs)) < k)%nat ->
  inside (concat (map btoks bs)) = true.
Proof.
  induction bs as [|[c x] bs IHb]; [done|].
  cbn [map concat btoks forallb]. rewrite length_app. cbn [length]. rewrite length_app.
  cbn [length]. intros [[Hc Hx]%andb_true_iff Hbs]%andb_true_iff Hk.
  change (inside (([tk WHEN] ++ etoks c ++ [tk THEN] ++ etoks x) ++ concat (map btoks bs)) = true).
  rewrite !inside_app, (IH _ c), (IH _ x), IHb by (done || lia). done.
Qed.

Lemma inside_case operand blocks els :
  let e := ECaseExpr operand blocks els in
  wf 1 e = true -> (length (etoks e) <= k)%nat -> inside (etoks e) = true.
Proof.
  cbn [wf etoks length]. intros [[[Hop _]%andb_true_iff Hbs]%andb_true_iff Hels]%andb_true_iff Hk.
  rewrite !length_app in Hk. cbn [length] in Hk.
  change (inside ([tk CASE] ++ (match operand with Some x => etoks x | None => [] end) ++
    concat (map btoks blocks) ++
    (match els with Some x => [tk ELSE] ++ etoks x | None => [] end) ++ [tk END]) = true).
  rewrite !inside_app, inside_blocks by (done || lia).
  repeat (apply andb_true_iff; split); try done.
  - destruct operand as [x|]; [|done]. eapply IH; [lia|done].
  - destruct els as [x|]; [|done]. rewrite inside_app, (IH 1 x); [done|simpl in Hk; lia|done].
Qed.

Lemma inside_call name star distinct args filter :
  let e := ECall name star distinct args filter in
  wf 1 e = true -> (length (etoks e) <= k)%nat -> inside (etoks e) = true.
Proof.
  cbn [wf etoks]. intros [[_ Hargs]%andb_true_iff Hfil]%andb_true_iff Hk.
  rewrite !length_app in Hk. cbn [length] in Hk.
  change (inside ([ident_tok name] ++ [tk LP] ++ (if star then [tk STAR] else
    (if distinct then [tk DISTINCT] else []) ++ sep_toks etoks args) ++ [tk RP] ++
    match filter with Some f => ftoks f | None => [] end) = true).
  rewrite !inside_app, inside_ident. repeat (apply andb_true_iff; split); try done.
  - destruct star; [done|]. rewrite length_app in Hk. rewrite inside_app, inside_list by (done || lia).
    by destruct distinct.
  - destruct filter as [[x]|]; [|done]. cbn [ftoks wf_filter] in *.
    rewrite !length_app in Hk. rewrite !inside_app, (IH _ x) by (done || lia). done.
Qed.
End Inside.

(** No token of an expression is the end of the input. *)
Lemma etoks_inside m e : wf m e = true -> inside (etoks e) = true.
Proof.
  remember (length (etoks e)) as n eqn:Hn. revert m e Hn.
  induction n as [n IHn] using lt_wf_ind. intros m e -> Hwf.
  assert (IH : forall m e', (length (etoks e') < length (etoks e))%nat -> wf m e' = true ->
    inside (etoks e') = true) by (intros; by eapply IHn).
  clear IHn. pose proof Hwf as Hwf0. destruct e; try done; cbn [wf] in Hwf.
  - apply inside_ident.
  - simpl. unfold number_tok. by destruct (forallb _ _).
  - by destruct Value.
  - apply andb_true_iff in Hwf as [[Hop _]%andb_true_iff Hwf]. apply tok_in_true in Hop.
    change (inside ([tk Op] ++ etoks e) = true). rewrite inside_app, (IH 1 e) by (done || (simpl; lia)).
    repeat (apply elem_of_cons in Hop as [->|Hop]); [done..|by apply elem_of_nil in Hop].
  - pose proof (inside_op _ (proj1 (right_head _ _ _ _ [] Hwf0))) as Hop.
    apply andb_true_iff in Hwf as [[[_ Hx]%andb_true_iff _]%andb_true_iff _].
    pose proof (etoks_nonempty _ _ Hx). pose proof (inside_right _ IH _ _ _ _ Hwf0) as Hy.
    cbn [etoks] in *. rewrite !length_app in *.
    pose proof (op_words_pos Op).
    rewrite !inside_app, Hop, (IH _ e1), Hy by (done || lia). done.
  - by apply (inside_case _ IH).
  - cbn [etoks]. change (inside ([ident_tok Table] ++ [tk DOT] ++ if Star then [tk STAR]
      else match Column with Some c => [ident_tok c] | None => [] end) = true).
    rewrite !inside_app, inside_ident. destruct Star; [done|]. destruct Column; [|done].
    by rewrite inside_ident.
  - by apply (inside_call _ IH).
  - cbn [etoks length] in *. rewrite length_app in *. change (inside ([tk LP] ++ etoks e ++ [tk RP]) = true).
    rewrite !inside_app, (IH _ e) by (done || lia). done.
Qed.

(** A text whose tokens are those of an expression is parsed into it. *)
Lemma ParseExprString_lexed e s :
  wf 1 e = true -> numbered 0 (etoks e) -> Forall (fun c => 0 <= c) s ->
  Lexes s (etoks e ++ [tk EOF]) -> ParseExprString s = Ok (Some e).
Proof.
  intros Hwf Hnum Hs HL. unfold ParseExprString. pose proof (etoks_nonempty _ _ Hwf).
  assert (Hlen : (length (etoks e) <= length s)%nat).
  { eapply Lexes_length; [by eapply Lexes_prefix|by eapply etoks_inside]. }
  destruct (s =s []) eqn:Hnil; [apply bool_decide_eq_true in Hnil; subst s; simpl in *; lia|].
  assert (HS : Stream (NewParser s) (etoks e ++ [tk EOF])).
  { split; [by apply numbered_app|]. simpl. eapply Lexes_Emits; [by apply NewLexer_at|done]. }
  pose proof (rt_expr _ _ (parserAt_rt (L := Lexer) (parse_fuel s)) 1 e (tk EOF) [] (NewParser s)
    ltac:(done) Hwf ltac:(by apply stops_follows) ltac:(done) ltac:(unfold parse_fuel; lia) HS) as Hp.
  apply wp_returns in Hp as (e' & p' & Hrun & -> & _). unfold ParseExpr.
  change (LowestPrec + 1) with 1. by rewrite Hrun.
Qed.


(** [name = 'O''Brien' AND (age + 1) * 2 NOT BETWEEN ? AND ?] *)
Definition sample_expr : Expr :=
  EBinaryExpr (EBinaryExpr (EIdent (mkIdent (str "name") false [])) EQ (EStringLit (str "O'Brien")))
    AND
    (EBinaryExpr
       (EBinaryExpr (EParenExpr (EBinaryExpr (EQualifiedRef (mkIdent (str "u") true [96]) false
          (Some (mkIdent (str "age") false []))) PLUS (ENumberLit (str "1.5e3")))) STAR
          (ECall (mkIdent (str "count") false []) true false [] None))
       NOTBETWEEN (ERange (EBindExpr (str "?") 0) (EBindExpr (str "?") 1))).


(** A conjunction after [IS NOT] or after a range is taken into the right operand:
    [a IS NOT NULL AND b = 1] is read as [a IS NOT (NULL AND b = 1)], and
    [a BETWEEN 1 AND 2 AND b = 3] as a range from [1 AND 2] to [b = 3]. *)
Theorem conjunction_swallowed :
  let id s := EIdent (mkIdent (str s) false []) in
  let num s := ENumberLit (str s) in
  ParseExprString (str "a IS NOT NULL AND b = 1") =
    Ok (Some (EBinaryExpr (id "a") ISNOT
      (EBinaryExpr ENullLit AND (EBinaryExpr (id "b") EQ (num "1"))))) /\
  ParseExprString (str "a BETWEEN 1 AND 2 AND b = 3") =
    Ok (Some (EBinaryExpr (id "a") BETWEEN
      (ERange (EBinaryExpr (num "1") AND (num "2")) (EBinaryExpr (id "b") EQ (num "3"))))).
Proof. split; vm_compute; reflexivity. Qed.
