(* ===== verification/SqlWalk.v ===== *)
(** * Walking the syntax tree (common/utils/sqlparser/walk.go)

    [walk] is the switch of walk.go over the node kinds. A visitor of the source may change the
    node it is given in place, so [Visit] and [VisitEnd] return the node after the visit, and
    [walk] returns the tree as the visitor leaves it. The recursion of [walk] goes through nodes
    the visitor may have replaced, hence its fuel; [walk_total] shows that the size of the tree is
    enough for every visitor that keeps the size of each node it visits. *)

From stdpp Require Import base list strings numbers option.
From S2P Require Import Prelude SqlToken SqlAst.

(** ** Nodes *)

(** The dynamic types behind the source's [Node] interface. An [*Ident] is the expression
    [EIdent], an [*Exprs] is [EExprs], and a [*SelectStatement] is [NSelect] also where it is used
    as a [Source]. [NNil] is the nil interface. *)
Inductive Node : Type :=
  | NNil
  | NExpr (e : Expr)
  | NCaseBlock (b : CaseBlock)
  | NFilterClause (c : FilterClause)
  | NOrderingTerm (t : OrderingTerm)
  | NResultColumn (c : ResultColumn)
  | NOutputNames (l : list ResultColumn)
  | NJoinOperator (op : JoinOperator)
  | NJoinConstraint (c : JoinConstraint)
  | NSource (s : Source)
  | NSelect (s : SelectStatement)
  | NAssignment (a : Assignment)
  | NIndexedColumn (c : IndexedColumn)
  | NUpsertClause (c : UpsertClause)
  | NInsert (s : InsertStatement)
  | NUpdate (s : UpdateStatement)
  | NDelete (s : DeleteStatement)
  | NType (t : ColumnType).

Definition ident_node (i : Ident) : Node := NExpr (EIdent i).
Definition table_node (t : TableName) : Node := NSource (STableName t).
Definition source_node (s : Source) : Node :=
  match s with SSelect sel => NSelect sel | _ => NSource s end.
Definition statement_node (s : Statement) : Node :=
  match s with
  | StInsert s => NInsert s
  | StSelect s => NSelect s
  | StUpdate s => NUpdate s
  | StDelete s => NDelete s
  end.

(** The child [d] of a node after its walk: what the walk left of it. A visitor changes the
    fields of a node, never its dynamic type, so the default does not arise. *)
Definition as_expr (d : Expr) (n : Node) : Expr := match n with NExpr e => e | _ => d end.
Definition as_ident (d : Ident) (n : Node) : Ident :=
  match n with NExpr (EIdent i) => i | _ => d end.
Definition as_exprs (d : list Expr) (n : Node) : list Expr :=
  match n with NExpr (EExprs l) => l | _ => d end.
Definition as_block d n := match n with NCaseBlock b => b | _ => d end.
Definition as_filter d n := match n with NFilterClause c => c | _ => d end.
Definition as_term d n := match n with NOrderingTerm t => t | _ => d end.
Definition as_columns d n := match n with NOutputNames l => l | _ => d end.
Definition as_operator d n := match n with NJoinOperator o => o | _ => d end.
Definition as_constraint d n := match n with NJoinConstraint c => c | _ => d end.
Definition as_source (d : Source) (n : Node) : Source :=
  match n with NSource s => s | NSelect s => SSelect s | _ => d end.
Definition as_select d n := match n with NSelect s => s | _ => d end.
Definition as_table d n := match n with NSource (STableName t) => t | _ => d end.
Definition as_assignment d n := match n with NAssignment a => a | _ => d end.
Definition as_indexed d n := match n with NIndexedColumn c => c | _ => d end.
Definition as_upsert d n := match n with NUpsertClause c => c | _ => d end.
Definition as_number (d : gostring) (n : Node) : gostring :=
  match n with NExpr (ENumberLit v) => v | _ => d end.

(** ** Walking *)

(** The interface [Visitor]: [Visit] returns the visitor for the children, nil to skip them. *)
Record Visitor (V S E : Type) := mkVisitor {
  Visit : V -> Node -> stM S E (option V * Node);
  VisitEnd : V -> Node -> stM S E Node
}.
Arguments mkVisitor {V S E} _ _.
Arguments Visit {V S E} _ _ _.
Arguments VisitEnd {V S E} _ _ _.

Section Walk.
Context {S E : Type}.
Abbreviation M := (stM S E).

Section Children.
(** The walk of one child. *)
Context (w : Node -> M Node).

Definition walk_as {A} (inj : A -> Node) (out : A -> Node -> A) (x : A) : M A :=
  n ← w (inj x);
  ret (out x n).

(** [if x != nil { walk }] *)
Definition walk_opt {A} (f : A -> M A) (x : option A) : M (option A) :=
  match x with
  | Some x => (y ← f x; ret (Some y))
  | None => ret None
  end.

(** [for _, x := range l { walk }] *)
Fixpoint walk_list {A} (f : A -> M A) (l : list A) : M (list A) :=
  match l with
  | [] => ret []
  | x :: l => (y ← f x; ys ← walk_list f l; ret (y :: ys))
  end.

Definition walkIdent : Ident -> M Ident := walk_as ident_node as_ident.
Definition walkIdentList : list Ident -> M (list Ident) := walk_list walkIdent.
Definition walkExpr : Expr -> M Expr := walk_as NExpr as_expr.
Definition walkExprs : list Expr -> M (list Expr) := walk_list walkExpr.
Definition walkIndexedColumnList : list IndexedColumn -> M (list IndexedColumn) :=
  walk_list (walk_as NIndexedColumn as_indexed).
Definition walkSelect : SelectStatement -> M SelectStatement := walk_as NSelect as_select.
Definition walkSource : Source -> M Source := walk_as source_node as_source.
Definition walkTable : TableName -> M TableName := walk_as table_node as_table.
Definition walkAssignments : list Assignment -> M (list Assignment) :=
  walk_list (walk_as NAssignment as_assignment).

(** The expressions of the switch. *)
Definition walk_expr_children (e : Expr) : M Expr :=
  match e with
  | EParenExpr x => (x ← walkExpr x; ret (EParenExpr x))
  | EUnaryExpr op x => (x ← walkExpr x; ret (EUnaryExpr op x))
  | EBinaryExpr x op y => (x ← walkExpr x; y ← walkExpr y; ret (EBinaryExpr x op y))
  | ECaseExpr operand blocks els =>
      operand ← walk_opt walkExpr operand;
      blocks ← walk_list (walk_as NCaseBlock as_block) blocks;
      els ← walk_opt walkExpr els;
      ret (ECaseExpr operand blocks els)
  | EExprs l => (l ← walkExprs l; ret (EExprs l))
  | EQualifiedRef table star column =>
      table ← walkIdent table;
      column ← walk_opt walkIdent column;
      ret (EQualifiedRef table star column)
  | ECall name star distinct args filter =>
      name ← walkIdent name;
      args ← walkExprs args;
      filter ← walk_opt (walk_as NFilterClause as_filter) filter;
      ret (ECall name star distinct args filter)
  | ERange x y => (x ← walkExpr x; y ← walkExpr y; ret (ERange x y))
  | EExists not_ sel => (sel ← walkSelect sel; ret (EExists not_ sel))
  | EIdent _ | EStringLit _ | EBlobLit _ | ENumberLit _ | ENullLit | EBoolLit _
  | EBindExpr _ _ => ret e
  end.

Definition walk_select_children (s : SelectStatement) : M SelectStatement :=
  match s with
  | mkSelect hint all_ distinct columns from cond grouping having
      union unionall intersect except compound orderby limit fetch offset =>
      columns ← walk_as NOutputNames as_columns columns;
      from ← walk_opt walkSource from;
      cond ← walk_opt walkExpr cond;
      grouping ← walkExprs grouping;
      having ← walk_opt walkExpr having;
      compound ← walk_opt walkSelect compound;
      orderby ← walk_list (walk_as NOrderingTerm as_term) orderby;
      limit ← walk_opt walkExpr limit;
      offset ← walk_opt walkExpr offset;
      ret (mkSelect hint all_ distinct columns from cond grouping having
             union unionall intersect except compound orderby limit fetch offset)
  end.

(** The sources of the switch. *)
Definition walk_source_children (s : Source) : M Source :=
  match s with
  | SParenSource x alias =>
      x ← walkSource x;
      alias ← walk_opt walkIdent alias;
      ret (SParenSource x alias)
  | STableName (mkTableName name alias) =>
      name ← walkIdent name;
      alias ← walk_opt walkIdent alias;
      ret (STableName (mkTableName name alias))
  | SJoinClause x op y con =>
      x ← walkSource x;
      op ← walk_as NJoinOperator as_operator op;
      y ← walkSource y;
      con ← walk_opt (walk_as NJoinConstraint as_constraint) con;
      ret (SJoinClause x op y con)
  | SSelect sel => (sel ← walk_select_children sel; ret (SSelect sel))
  end.

Definition walk_insert_children (s : InsertStatement) : M InsertStatement :=
  table ← walkTable (ins_TableName s);
  cols ← walkIdentList (ins_ColumnNames s);
  rows ← walk_list (walk_as (fun l => NExpr (EExprs l)) as_exprs) (ins_Expressions s);
  query ← walk_opt walkSelect (ins_Query s);
  upsert ← walk_opt (walk_as NUpsertClause as_upsert) (ins_UpsertClause s);
  ret (mkInsert table cols (ins_Overriding s) (ins_DefaultValues s) rows query upsert
         (ins_OutputExpressions s)).

Definition walk_update_children (s : UpdateStatement) : M UpdateStatement :=
  table ← walkTable (upd_TableName s);
  assignments ← walkAssignments (upd_Assignments s);
  cond ← walk_opt walkExpr (upd_Condition s);
  ret (mkUpdate (upd_Only s) table (upd_TableStar s) (upd_Alias s) assignments
         (upd_FromList s) cond (upd_CursorName s) (upd_OutputExpressions s)).

Definition walk_upsert_children (c : UpsertClause) : M UpsertClause :=
  cols ← walkIndexedColumnList (uc_Columns c);
  where_ ← walk_opt walkExpr (uc_WhereExpr c);
  assignments ← walkAssignments (uc_Assignments c);
  uwhere ← walk_opt walkExpr (uc_UpdateWhereExpr c);
  ret (mkUpsert cols where_ (uc_DoNothing c) (uc_DoUpdate c) assignments uwhere).

Definition walk_delete_children (s : DeleteStatement) : M DeleteStatement :=
  table ← walkTable (del_TableName s);
  cond ← walk_opt walkExpr (del_Condition s);
  ret (mkDelete (del_Only s) table (del_TableStar s) (del_Alias s) (del_UsingList s) cond
         (del_CursorName s) (del_OutputExpressions s)).

(** The switch of [walk]; a node kind without a case has no children. *)
Definition walk_children (n : Node) : M Node :=
  match n with
  | NAssignment a =>
      cols ← walkIdentList (as_Columns a);
      x ← walkExpr (as_Expr a);
      ret (NAssignment (mkAssignment cols x))
  | NSelect s => (s ← walk_select_children s; ret (NSelect s))
  | NInsert s => (s ← walk_insert_children s; ret (NInsert s))
  | NUpdate s => (s ← walk_update_children s; ret (NUpdate s))
  | NUpsertClause c => (c ← walk_upsert_children c; ret (NUpsertClause c))
  | NDelete s => (s ← walk_delete_children s; ret (NDelete s))
  | NExpr e => (e ← walk_expr_children e; ret (NExpr e))
  | NCaseBlock (mkCaseBlock c b) =>
      c ← walkExpr c; b ← walkExpr b; ret (NCaseBlock (mkCaseBlock c b))
  | NFilterClause (mkFilterClause x) => (x ← walkExpr x; ret (NFilterClause (mkFilterClause x)))
  | NOrderingTerm (mkOrderingTerm x asc desc nf nl) =>
      x ← walkExpr x; ret (NOrderingTerm (mkOrderingTerm x asc desc nf nl))
  | NSource s => (s ← walk_source_children s; ret (NSource s))
  | NJoinConstraint (OnConstraint x) => (x ← walkExpr x; ret (NJoinConstraint (OnConstraint x)))
  | NJoinConstraint (UsingConstraint cols) =>
      cols ← walkIdentList cols; ret (NJoinConstraint (UsingConstraint cols))
  | NResultColumn (mkResultColumn star x alias) =>
      x ← walk_opt walkExpr x;
      alias ← walk_opt walkIdent alias;
      ret (NResultColumn (mkResultColumn star x alias))
  | NIndexedColumn c =>
      x ← walkExpr (ic_X c); ret (NIndexedColumn (mkIndexedColumn x (ic_Asc c) (ic_Desc c)))
  | NType t =>
      name ← walkIdent (ty_Name t);
      precision ← walk_opt (walk_as (fun v => NExpr (ENumberLit v)) as_number) (ty_Precision t);
      scale ← walk_opt (walk_as (fun v => NExpr (ENumberLit v)) as_number) (ty_Scale t);
      ret (NType (mkColumnType name precision scale))
  | NOutputNames _ | NJoinOperator _ | NNil => ret n
  end.
End Children.

Fixpoint walk {V} (vis : Visitor V S E) (fuel : nat) (v : V) (n : Node) : M Node :=
  match fuel with
  | O => out_of_fuel
  | Datatypes.S f =>
      '(v, n) ← Visit vis v n;
      match v with
      | None => ret n
      | Some v =>
          n ← walk_children (walk vis f v) n;
          VisitEnd vis v n
      end
  end.

(** [VisitFunc]: a function run on entry. *)
Definition VisitFunc (fn : Node -> M Node) : Visitor unit S E :=
  mkVisitor (fun _ n => (n ← fn n; ret (Some tt, n))) (fun _ n => ret n).

(** [VisitEndFunc]: a function run on exit. *)
Definition VisitEndFunc (fn : Node -> M Node) : Visitor unit S E :=
  mkVisitor (fun _ n => ret (Some tt, n)) (fun _ n => fn n).
End Walk.

(** ** Sizes

    The number of nodes of a tree, an upper bound for the depth of a walk. *)

Definition size_sum {A} (f : A -> nat) : list A -> nat :=
  fix go l := match l with [] => 0 | x :: l => f x + go l end%nat.
Definition size_opt {A} (f : A -> nat) (x : option A) : nat :=
  match x with Some x => f x | None => 0%nat end.

Fixpoint expr_size (e : Expr) : nat :=
  match e with
  | EIdent _ | EStringLit _ | EBlobLit _ | ENumberLit _ | ENullLit | EBoolLit _
  | EBindExpr _ _ => 1
  | EUnaryExpr _ x | EParenExpr x => S (expr_size x)
  | EBinaryExpr x _ y | ERange x y => S (expr_size x + expr_size y)
  | ECaseExpr o bs e =>
      S (size_opt expr_size o + size_sum block_size bs + size_opt expr_size e)
  | EExists _ sel => S (select_size sel)
  | EExprs l => S (size_sum expr_size l)
  | EQualifiedRef _ _ _ => 3
  | ECall _ _ _ args f => S (S (size_sum expr_size args + size_opt filter_size f))
  end%nat
with block_size (b : CaseBlock) : nat :=
  match b with mkCaseBlock c x => S (expr_size c + expr_size x) end
with filter_size (f : FilterClause) : nat :=
  match f with mkFilterClause x => S (expr_size x) end
with term_size (t : OrderingTerm) : nat :=
  match t with mkOrderingTerm x _ _ _ _ => S (expr_size x) end
with column_size (c : ResultColumn) : nat :=
  match c with mkResultColumn _ x _ => S (S (size_opt expr_size x)) end
with constraint_size (c : JoinConstraint) : nat :=
  match c with
  | OnConstraint x => S (expr_size x)
  | UsingConstraint cols => S (length cols)
  end
with source_size (s : Source) : nat :=
  match s with
  | SJoinClause x _ y c => S (S (source_size x + source_size y + size_opt constraint_size c))
  | SParenSource x _ => S (S (source_size x))
  | STableName _ => 3
  | SSelect s => S (select_size s)
  end%nat
with select_size (s : SelectStatement) : nat :=
  match s with
  | mkSelect _ _ _ columns from cond grouping having _ _ _ _ compound orderby limit _ offset =>
      S (S (size_sum column_size columns + size_opt source_size from + size_opt expr_size cond +
         size_sum expr_size grouping + size_opt expr_size having +
         size_opt select_size compound + size_sum term_size orderby +
         size_opt expr_size limit + size_opt expr_size offset))
  end%nat.

Definition assignment_size (a : Assignment) : nat :=
  S (length (as_Columns a) + expr_size (as_Expr a)).
Definition indexed_size (c : IndexedColumn) : nat := S (expr_size (ic_X c)).
Definition upsert_size (c : UpsertClause) : nat :=
  S (size_sum indexed_size (uc_Columns c) + size_opt expr_size (uc_WhereExpr c) +
     size_sum assignment_size (uc_Assignments c) + size_opt expr_size (uc_UpdateWhereExpr c)).

Definition node_size (n : Node) : nat :=
  match n with
  | NNil | NJoinOperator _ => 1
  | NExpr e => expr_size e
  | NCaseBlock b => block_size b
  | NFilterClause c => filter_size c
  | NOrderingTerm t => term_size t
  | NResultColumn c => column_size c
  | NOutputNames l => S (size_sum column_size l)
  | NJoinConstraint c => constraint_size c
  | NSource s => source_size s
  | NSelect s => select_size s
  | NAssignment a => assignment_size a
  | NIndexedColumn c => indexed_size c
  | NUpsertClause c => upsert_size c
  | NInsert s =>
      5 + length (ins_ColumnNames s) + size_sum (fun l => S (size_sum expr_size l)) (ins_Expressions s) +
      size_opt select_size (ins_Query s) + size_opt upsert_size (ins_UpsertClause s)
  | NUpdate s =>
      5 + size_sum assignment_size (upd_Assignments s) + size_opt expr_size (upd_Condition s)
  | NDelete s => 5 + size_opt expr_size (del_Condition s)
  | NType _ => 4
  end%nat.

(** The children [walk] descends into, in its order. *)
Definition opt_nodes {A} (f : A -> Node) (x : option A) : list Node :=
  match x with Some x => [f x] | None => [] end.

Definition expr_children (e : Expr) : list Node :=
  match e with
  | EParenExpr x | EUnaryExpr _ x => [NExpr x]
  | EBinaryExpr x _ y | ERange x y => [NExpr x; NExpr y]
  | ECaseExpr o bs els => opt_nodes NExpr o ++ map NCaseBlock bs ++ opt_nodes NExpr els
  | EExprs l => map NExpr l
  | EQualifiedRef t _ c => ident_node t :: opt_nodes ident_node c
  | ECall name _ _ args f => ident_node name :: map NExpr args ++ opt_nodes NFilterClause f
  | EExists _ sel => [NSelect sel]
  | _ => []
  end.

Definition select_children (s : SelectStatement) : list Node :=
  match s with
  | mkSelect _ _ _ columns from cond grouping having _ _ _ _ compound orderby limit _ offset =>
      [NOutputNames columns] ++ opt_nodes source_node from ++ opt_nodes NExpr cond ++
      map NExpr grouping ++ opt_nodes NExpr having ++ opt_nodes NSelect compound ++
      map NOrderingTerm orderby ++ opt_nodes NExpr limit ++ opt_nodes NExpr offset
  end.

Definition source_children (s : Source) : list Node :=
  match s with
  | SParenSource x a => source_node x :: opt_nodes ident_node a
  | STableName t => ident_node (tn_Name t) :: opt_nodes ident_node (tn_Alias t)
  | SJoinClause x op y c =>
      [source_node x; NJoinOperator op; source_node y] ++ opt_nodes NJoinConstraint c
  | SSelect s => select_children s
  end.

Definition upsert_children (c : UpsertClause) : list Node :=
  map NIndexedColumn (uc_Columns c) ++ opt_nodes NExpr (uc_WhereExpr c) ++
  map NAssignment (uc_Assignments c) ++ opt_nodes NExpr (uc_UpdateWhereExpr c).

Definition node_children (n : Node) : list Node :=
  match n with
  | NNil | NJoinOperator _ | NOutputNames _ => []
  | NExpr e => expr_children e
  | NCaseBlock (mkCaseBlock c b) => [NExpr c; NExpr b]
  | NFilterClause (mkFilterClause x) => [NExpr x]
  | NOrderingTerm (mkOrderingTerm x _ _ _ _) => [NExpr x]
  | NResultColumn (mkResultColumn _ x a) => opt_nodes NExpr x ++ opt_nodes ident_node a
  | NJoinConstraint (OnConstraint x) => [NExpr x]
  | NJoinConstraint (UsingConstraint cols) => map ident_node cols
  | NSource s => source_children s
  | NSelect s => select_children s
  | NAssignment a => map ident_node (as_Columns a) ++ [NExpr (as_Expr a)]
  | NIndexedColumn c => [NExpr (ic_X c)]
  | NUpsertClause c => upsert_children c
  | NInsert s =>
      table_node (ins_TableName s) :: map ident_node (ins_ColumnNames s) ++
      map (fun l => NExpr (EExprs l)) (ins_Expressions s) ++
      opt_nodes NSelect (ins_Query s) ++ opt_nodes NUpsertClause (ins_UpsertClause s)
  | NUpdate s =>
      table_node (upd_TableName s) :: map NAssignment (upd_Assignments s) ++
      opt_nodes NExpr (upd_Condition s)
  | NDelete s => table_node (del_TableName s) :: opt_nodes NExpr (del_Condition s)
  | NType t =>
      ident_node (ty_Name t) :: opt_nodes (fun v => NExpr (ENumberLit v)) (ty_Precision t) ++
      opt_nodes (fun v => NExpr (ENumberLit v)) (ty_Scale t)
  end.
