(* ===== verification/SqlWalkSpec.v ===== *)
(** * What a walk visits

    [walk] visits a node, then its children from left to right, then the node again on exit. The
    general lemma is [walk_children_spec]: when walking a child has effect [eff] and leaves the
    child as [g child], walking all the children performs the effects in order and applies [g] to
    each child. It gives, for a visitor that only reads, the pre-order traversal ([preorder]) of
    the tree, and, for the renaming visitors of the sharding plugin, a structural function. *)

From Stdlib Require Import Setoid Morphisms.
From stdpp Require Import base list strings numbers option.
From S2P Require Import Prelude SqlToken SqlAst SqlWalk.

(** ** Equality of computations *)

Section Equiv.
Context {S E : Type}.

(** Two methods that agree from every state. *)
Definition eqM {A} (m1 m2 : stM S E A) : Prop := forall s, m1 s = m2 s.

#[global] Instance eqM_equiv {A} : Equivalence (@eqM A).
Proof.
  split; [by intros m s|by intros m1 m2 H s; rewrite H|].
  intros m1 m2 m3 H1 H2 s. by rewrite H1.
Qed.

#[global] Instance bind_proper {A B} :
  Proper (eqM ==> pointwise_relation A eqM ==> eqM) (@bind S E A B).
Proof.
  intros m1 m2 Hm f1 f2 Hf s. unfold bind. rewrite Hm. destruct (m2 s) as [[a s']| | |]; [|done..].
  apply Hf.
Qed.

Lemma bind_ret_l {A B} (a : A) (f : A -> stM S E B) : eqM (bind (ret a) f) (f a).
Proof. done. Qed.

Lemma bind_ret_r {A} (m : stM S E A) : eqM (bind m ret) m.
Proof. intros s. unfold bind, ret. by destruct (m s) as [[]| | |]. Qed.

Lemma bind_assoc {A B C} (m : stM S E A) (f : A -> stM S E B) (g : B -> stM S E C) :
  eqM (bind (bind m f) g) (bind m (fun a => bind (f a) g)).
Proof. intros s. unfold bind. by destruct (m s) as [[]| | |]. Qed.
End Equiv.

Infix "≡M" := eqM (at level 70, no associativity) : go_scope.

(** ** Rebuilding a node from its children *)

Section MapChildren.
Context (g : Node -> Node).

Definition map_as {A} (inj : A -> Node) (out : A -> Node -> A) (x : A) : A := out x (g (inj x)).

Definition mIdent := map_as ident_node as_ident.
Definition mExpr := map_as NExpr as_expr.
Definition mSelect := map_as NSelect as_select.
Definition mSource := map_as source_node as_source.
Definition mTable := map_as table_node as_table.
Definition mAssignment := map_as NAssignment as_assignment.
Definition mNumber := map_as (fun v => NExpr (ENumberLit v)) as_number.

Definition map_expr (e : Expr) : Expr :=
  match e with
  | EParenExpr x => EParenExpr (mExpr x)
  | EUnaryExpr op x => EUnaryExpr op (mExpr x)
  | EBinaryExpr x op y => EBinaryExpr (mExpr x) op (mExpr y)
  | ECaseExpr o bs els =>
      ECaseExpr (mExpr <$> o) (map (map_as NCaseBlock as_block) bs) (mExpr <$> els)
  | EExprs l => EExprs (map mExpr l)
  | EQualifiedRef t star c => EQualifiedRef (mIdent t) star (mIdent <$> c)
  | ECall name star distinct args f =>
      ECall (mIdent name) star distinct (map mExpr args) (map_as NFilterClause as_filter <$> f)
  | ERange x y => ERange (mExpr x) (mExpr y)
  | EExists not_ sel => EExists not_ (mSelect sel)
  | _ => e
  end.

Definition map_select (s : SelectStatement) : SelectStatement :=
  match s with
  | mkSelect hint all_ distinct columns from cond grouping having
      union unionall intersect except compound orderby limit fetch offset =>
      mkSelect hint all_ distinct (map_as NOutputNames as_columns columns) (mSource <$> from)
        (mExpr <$> cond) (map mExpr grouping) (mExpr <$> having) union unionall intersect except
        (mSelect <$> compound) (map (map_as NOrderingTerm as_term) orderby) (mExpr <$> limit)
        fetch (mExpr <$> offset)
  end.

Definition map_source (s : Source) : Source :=
  match s with
  | SParenSource x a => SParenSource (mSource x) (mIdent <$> a)
  | STableName (mkTableName name a) => STableName (mkTableName (mIdent name) (mIdent <$> a))
  | SJoinClause x op y c =>
      SJoinClause (mSource x) (map_as NJoinOperator as_operator op) (mSource y)
        (map_as NJoinConstraint as_constraint <$> c)
  | SSelect s => SSelect (map_select s)
  end.

Definition map_upsert (c : UpsertClause) : UpsertClause :=
  mkUpsert (map (map_as NIndexedColumn as_indexed) (uc_Columns c)) (mExpr <$> uc_WhereExpr c)
    (uc_DoNothing c) (uc_DoUpdate c) (map mAssignment (uc_Assignments c))
    (mExpr <$> uc_UpdateWhereExpr c).

Definition map_children (n : Node) : Node :=
  match n with
  | NAssignment a => NAssignment (mkAssignment (map mIdent (as_Columns a)) (mExpr (as_Expr a)))
  | NSelect s => NSelect (map_select s)
  | NInsert s =>
      NInsert (mkInsert (mTable (ins_TableName s)) (map mIdent (ins_ColumnNames s))
        (ins_Overriding s) (ins_DefaultValues s)
        (map (map_as (fun l => NExpr (EExprs l)) as_exprs) (ins_Expressions s))
        (mSelect <$> ins_Query s) (map_as NUpsertClause as_upsert <$> ins_UpsertClause s)
        (ins_OutputExpressions s))
  | NUpdate s =>
      NUpdate (mkUpdate (upd_Only s) (mTable (upd_TableName s)) (upd_TableStar s) (upd_Alias s)
        (map mAssignment (upd_Assignments s)) (upd_FromList s) (mExpr <$> upd_Condition s)
        (upd_CursorName s) (upd_OutputExpressions s))
  | NUpsertClause c => NUpsertClause (map_upsert c)
  | NDelete s =>
      NDelete (mkDelete (del_Only s) (mTable (del_TableName s)) (del_TableStar s) (del_Alias s)
        (del_UsingList s) (mExpr <$> del_Condition s) (del_CursorName s)
        (del_OutputExpressions s))
  | NExpr e => NExpr (map_expr e)
  | NCaseBlock (mkCaseBlock c b) => NCaseBlock (mkCaseBlock (mExpr c) (mExpr b))
  | NFilterClause (mkFilterClause x) => NFilterClause (mkFilterClause (mExpr x))
  | NOrderingTerm (mkOrderingTerm x asc desc nf nl) =>
      NOrderingTerm (mkOrderingTerm (mExpr x) asc desc nf nl)
  | NSource s => NSource (map_source s)
  | NJoinConstraint (OnConstraint x) => NJoinConstraint (OnConstraint (mExpr x))
  | NJoinConstraint (UsingConstraint cols) => NJoinConstraint (UsingConstraint (map mIdent cols))
  | NResultColumn (mkResultColumn star x a) =>
      NResultColumn (mkResultColumn star (mExpr <$> x) (mIdent <$> a))
  | NIndexedColumn c =>
      NIndexedColumn (mkIndexedColumn (mExpr (ic_X c)) (ic_Asc c) (ic_Desc c))
  | NType t =>
      NType (mkColumnType (mIdent (ty_Name t)) (mNumber <$> ty_Precision t)
        (mNumber <$> ty_Scale t))
  | NOutputNames _ | NJoinOperator _ | NNil => n
  end.
End MapChildren.

(** ** Walking the children *)

Section Children.
Context {S E : Type}.
Abbreviation M := (stM S E).

(** The effects of a list of nodes, in order. *)
Fixpoint iter (eff : Node -> M unit) (l : list Node) : M unit :=
  match l with
  | [] => ret tt
  | m :: l => (_ ← eff m; iter eff l)
  end.

Lemma iter_app eff l1 l2 : iter eff (l1 ++ l2) ≡M (_ ← iter eff l1; iter eff l2).
Proof.
  induction l1 as [|m l1 IH]; simpl; [done|]. rewrite bind_assoc. by setoid_rewrite IH.
Qed.

Context (w : Node -> M Node) (eff : Node -> M unit) (g : Node -> Node).

(** Walking [m] performs [eff m] and leaves [g m]. *)
Definition walks (m : Node) : Prop := w m ≡M (_ ← eff m; ret (g m)).

(** [walk_part f nodes y]: computation [f] performs the effects of [nodes] and returns [y]. *)
Definition walk_part {A} (f : M A) (nodes : list Node) (y : A) : Prop :=
  Forall walks nodes -> f ≡M (_ ← iter eff nodes; ret y).

Lemma part_ret {A} (y : A) : walk_part (ret y) [] y.
Proof. intros _. done. Qed.

Lemma part_bind {A B} (f : M A) (k : A -> M B) l1 l2 x y :
  walk_part f l1 x -> walk_part (k x) l2 y -> walk_part (bind f k) (l1 ++ l2) y.
Proof.
  intros Hf Hk Hl. apply Forall_app in Hl as [Hl1 Hl2]. rewrite (Hf Hl1), iter_app, !bind_assoc.
  setoid_rewrite bind_ret_l. by setoid_rewrite (Hk Hl2).
Qed.

Lemma part_as {A} (inj : A -> Node) (out : A -> Node -> A) (x : A) :
  walk_part (walk_as w inj out x) [inj x] (map_as g inj out x).
Proof.
  intros Hl. inversion Hl as [|? ? Hx _]; subst. unfold walks in Hx. unfold walk_as. rewrite Hx, bind_assoc. simpl.
  rewrite bind_assoc. by setoid_rewrite bind_ret_l.
Qed.

Lemma part_opt {A} (inj : A -> Node) (out : A -> Node -> A) (x : option A) :
  walk_part (walk_opt (walk_as w inj out) x) (opt_nodes inj x) (map_as g inj out <$> x).
Proof.
  destruct x as [x|]; simpl; [|apply part_ret].
  change [inj x] with ([inj x] ++ []). eapply part_bind; [apply part_as|apply part_ret].
Qed.

Lemma part_list {A} (inj : A -> Node) (out : A -> Node -> A) (l : list A) :
  walk_part (walk_list (walk_as w inj out) l) (map inj l) (map (map_as g inj out) l).
Proof.
  induction l as [|x l IH]; simpl; [apply part_ret|].
  change (inj x :: map inj l) with ([inj x] ++ map inj l).
  eapply part_bind; [apply part_as|].
  rewrite <- (app_nil_r (map inj l)). eapply part_bind; [exact IH|apply part_ret].
Qed.

Lemma part_eq {A} (f : M A) l l' y : walk_part f l y -> l = l' -> walk_part f l' y.
Proof. by intros ? <-. Qed.

(** The parts of one case of the switch, left to right. *)
Ltac parts :=
  eapply part_eq;
  [ repeat (eapply part_bind; [first [apply part_as|apply part_opt|apply part_list]|]);
    apply part_ret
  | simpl; rewrite ?app_nil_r, <- ?app_assoc; try done ].

Lemma walk_expr_part e : walk_part (walk_expr_children w e) (expr_children e) (map_expr g e).
Proof. destruct e; parts. Qed.

Lemma walk_select_part s :
  walk_part (walk_select_children w s) (select_children s) (map_select g s).
Proof. destruct s; parts. Qed.

Lemma walk_source_part s :
  walk_part (walk_source_children w s) (source_children s) (map_source g s).
Proof.
  destruct s as [x op y c|x a|[name a]|s]; [parts|parts|parts|].
  simpl. rewrite <- (app_nil_r (select_children s)).
  eapply part_bind; [apply walk_select_part|apply part_ret].
Qed.

Lemma part_map {A} (f : M A) (k : A -> Node) l y :
  walk_part f l y -> walk_part (x ← f; ret (k x)) l (k y).
Proof.
  intros H. rewrite <- (app_nil_r l). eapply part_bind; [exact H|apply part_ret].
Qed.

Lemma walk_children_spec n :
  walk_part (walk_children w n) (node_children n) (map_children g n).
Proof.
  destruct n as [|e|[]|[]|[]|[]| | |[]|s|s|a|c|c|s|s|s|t]; try by parts.
  - apply (part_map _ NExpr), walk_expr_part.
  - apply (part_map _ NSource), walk_source_part.
  - apply (part_map _ NSelect), walk_select_part.
  - apply (part_map _ NUpsertClause). parts.
  - apply (part_map _ NInsert _ (mkInsert _ _ _ _ _ _ _ _)). parts.
  - apply (part_map _ NUpdate _ (mkUpdate _ _ _ _ _ _ _ _ _)). parts.
  - apply (part_map _ NDelete _ (mkDelete _ _ _ _ _ _ _ _)). parts.
Qed.
End Children.

(** ** Children are smaller *)

Lemma size_sum_in {A} (f : A -> nat) l x : x ∈ l -> (f x <= size_sum f l)%nat.
Proof. induction 1; simpl; lia. Qed.

Lemma expr_size_pos e : (1 <= expr_size e)%nat.
Proof. destruct e; simpl; lia. Qed.

Lemma source_node_size s : (node_size (source_node s) <= source_size s)%nat.
Proof. destruct s; simpl; lia. Qed.

Lemma size_sum_app {A} (f : A -> nat) l1 l2 :
  size_sum f (l1 ++ l2) = (size_sum f l1 + size_sum f l2)%nat.
Proof. induction l1; simpl; lia. Qed.

Lemma nodes_map {A} (inj : A -> Node) (h : A -> nat) l :
  (forall a, node_size (inj a) = h a) -> size_sum node_size (map inj l) = size_sum h l.
Proof. intros H. induction l; simpl; rewrite ?H; congruence. Qed.

Lemma nodes_opt {A} (inj : A -> Node) (h : A -> nat) x :
  (forall a, node_size (inj a) = h a) -> size_sum node_size (opt_nodes inj x) = size_opt h x.
Proof. intros H. destruct x; simpl; rewrite ?H; lia. Qed.

Lemma idents_size l : size_sum node_size (map ident_node l) = length l.
Proof. induction l; simpl in *; congruence. Qed.

Lemma opt_ident_size x : (size_sum node_size (opt_nodes ident_node x) <= 1)%nat.
Proof. by destruct x; simpl; lia. Qed.

Lemma opt_source_size x :
  (size_sum node_size (opt_nodes source_node x) <= size_opt source_size x)%nat.
Proof. destruct x as [s|]; simpl; [|done]. pose proof (source_node_size s). lia. Qed.

Lemma opt_number_size x :
  (size_sum node_size (opt_nodes (fun v => NExpr (ENumberLit v)) x) <= 1)%nat.
Proof. by destruct x; simpl; lia. Qed.

(** Rewrites the sizes of the child lists into the terms [node_size] is made of. *)
Ltac child_sizes :=
  rewrite ?size_sum_app, ?idents_size;
  rewrite ?(nodes_map NExpr expr_size), ?(nodes_opt NExpr expr_size),
    ?(nodes_map NCaseBlock block_size), ?(nodes_opt NFilterClause filter_size),
    ?(nodes_opt NSelect select_size), ?(nodes_map NOrderingTerm term_size),
    ?(nodes_opt NJoinConstraint constraint_size), ?(nodes_map NIndexedColumn indexed_size),
    ?(nodes_map NAssignment assignment_size), ?(nodes_opt NUpsertClause upsert_size),
    ?(nodes_map (fun l => NExpr (EExprs l)) (fun l => S (size_sum expr_size l))) by done;
  repeat match goal with
  | |- context [size_sum node_size (opt_nodes ident_node ?x)] =>
      lazymatch goal with
      | _ : (size_sum node_size (opt_nodes ident_node x) <= 1)%nat |- _ => fail
      | _ => pose proof (opt_ident_size x)
      end
  end.

Lemma expr_children_size e : (size_sum node_size (expr_children e) < expr_size e)%nat.
Proof. destruct e; simpl; child_sizes; simpl; try lia. Qed.

Lemma select_children_size s : (size_sum node_size (select_children s) < select_size s)%nat.
Proof.
  destruct s as [? ? ? ? from]. simpl. child_sizes. pose proof (opt_source_size from). simpl. lia.
Qed.

Lemma source_children_size s : (size_sum node_size (source_children s) < source_size s)%nat.
Proof.
  destruct s as [x op y c|x a|t|s]; simpl; child_sizes; simpl;
    repeat match goal with
    | |- context [source_node ?x] =>
        lazymatch goal with
        | _ : (node_size (source_node x) <= _)%nat |- _ => fail
        | _ => pose proof (source_node_size x)
        end
    end; try lia.
  pose proof (select_children_size s). lia.
Qed.

Lemma upsert_children_size c : (size_sum node_size (upsert_children c) < upsert_size c)%nat.
Proof. unfold upsert_children, upsert_size. child_sizes. lia. Qed.

Lemma node_children_size n : (size_sum node_size (node_children n) < node_size n)%nat.
Proof.
  destruct n as [|e|[]|[]|[]|[]| | |[]|s|s|a|c|c|s|s|s|t]; simpl;
    unfold assignment_size, indexed_size; child_sizes; simpl; try lia.
  all: try solve [auto using expr_children_size, source_children_size, select_children_size,
    upsert_children_size].
  pose proof (opt_number_size (ty_Precision t)). pose proof (opt_number_size (ty_Scale t)). lia.
Qed.

(** A node is bigger than each of its children. *)
Lemma children_smaller n : Forall (fun m => node_size m < node_size n)%nat (node_children n).
Proof.
  apply Forall_forall. intros m Hm%list_elem_of_In. pose proof (size_sum_in node_size _ _ Hm).
  pose proof (node_children_size n). lia.
Qed.

(** ** A walk terminates *)

Section Total.
Context {S E V : Type} (vis : Visitor V S E) (EP : E -> Prop) (PP : Prop).

Abbreviation safe m := (forall s, wp m EP PP (fun _ _ => True) s).

Lemma safe_bind {A B} (m : stM S E A) (f : A -> stM S E B) :
  safe m -> (forall a, safe (f a)) -> safe (bind m f).
Proof.
  intros Hm Hf s. apply wp_bind. eapply wp_mono; [apply Hm|done|done|]. intros a s' _. apply Hf.
Qed.

Lemma safe_ret {A} (a : A) : safe (ret (S := S) (E := E) a).
Proof. by intros s. Qed.

Section Children.
Context (w : Node -> stM S E Node).
Abbreviation safe_all l := (Forall (fun m => safe (w m)) l).

Lemma safe_as {A} (inj : A -> Node) out x : safe (w (inj x)) -> safe (walk_as w inj out x).
Proof. intros H. apply safe_bind; [done|]. intros. apply safe_ret. Qed.

Lemma safe_opt {A} (inj : A -> Node) out x :
  safe_all (opt_nodes inj x) -> safe (walk_opt (walk_as w inj out) x).
Proof.
  destruct x as [x|]; [|intros; apply safe_ret]. intros H. inversion H; subst.
  apply safe_bind; [by apply safe_as|]. intros. apply safe_ret.
Qed.

Lemma safe_list {A} (inj : A -> Node) out l :
  safe_all (map inj l) -> safe (walk_list (walk_as w inj out) l).
Proof.
  induction l as [|x l IH]; simpl; intros H; [apply safe_ret|]. inversion H; subst.
  apply safe_bind; [by apply safe_as|]. intros. apply safe_bind; [by apply IH|].
  intros. apply safe_ret.
Qed.

Ltac safe_parts :=
  repeat match goal with
  | H : Forall _ (_ ++ _) |- _ => apply Forall_app in H as [? ?]
  | H : Forall _ (_ :: _) |- _ => apply Forall_cons_iff in H as [? ?]
  end;
  repeat (first [apply safe_ret | by apply safe_as | by apply safe_opt | by apply safe_list
    | apply safe_bind; [|intros ?]]).

Lemma safe_select s : safe_all (select_children s) -> safe (walk_select_children w s).
Proof. destruct s; cbn [select_children walk_select_children]; intros H. safe_parts. Qed.

Lemma safe_expr e : safe_all (expr_children e) -> safe (walk_expr_children w e).
Proof. destruct e; cbn [expr_children walk_expr_children]; intros H; safe_parts. Qed.

Lemma safe_source s : safe_all (source_children s) -> safe (walk_source_children w s).
Proof.
  destruct s as [x op y c|x a|[name a]|s]; cbn [source_children walk_source_children];
    intros H; [safe_parts..|]. apply safe_bind; [by apply safe_select|]. intros. apply safe_ret.
Qed.

Lemma safe_children n : safe_all (node_children n) -> safe (walk_children w n).
Proof.
  destruct n as [|e|[]|[]|[]|[]| | |[]|s|s|a|c|c|s|s|s|t];
    cbn [node_children walk_children]; intros H; try solve [safe_parts];
    (apply safe_bind; [|intros ?; apply safe_ret]).
  - by apply safe_expr.
  - by apply safe_source.
  - by apply safe_select.
  - unfold upsert_children in H. unfold walk_upsert_children. safe_parts.
Qed.
End Children.

(** Every node is visited without running out of fuel, and keeps its size. *)
Context (Hvisit : forall v n s, wp (Visit vis v n) EP PP
  (fun r _ => node_size r.2 = node_size n) s).
Context (Hend : forall v n, safe (VisitEnd vis v n)).

Lemma walk_safe fuel v n : (node_size n <= fuel)%nat -> safe (walk vis fuel v n).
Proof.
  revert v n. induction fuel as [|f IH]; intros v n Hn.
  { pose proof (node_children_size n). lia. }
  intros s. simpl. apply wp_bind. eapply wp_mono; [apply Hvisit|done|done|].
  intros [[v'|] n'] s' Hsz; simpl in *; [|done]. revert s'. apply safe_bind; [|done].
  apply safe_children. eapply Forall_impl; [|apply children_smaller].
  intros m Hm. simpl. intros s'. apply IH. simpl in Hm. lia.
Qed.
End Total.

(** ** Order of visits *)

Section Identity.
(** [out] undoes [inj]. *)
Context {A : Type} (inj : A -> Node) (out : A -> Node -> A) (H : forall x, out x (inj x) = x).

Lemma map_as_id x : map_as (fun m => m) inj out x = x.
Proof. apply H. Qed.

Lemma map_list_id l : map (map_as (fun m => m) inj out) l = l.
Proof. induction l as [|x l IH]; simpl; [done|]. by rewrite IH, map_as_id. Qed.

Lemma map_opt_id (x : option A) : map_as (fun m => m) inj out <$> x = x.
Proof. destruct x; simpl; by rewrite ?map_as_id. Qed.
End Identity.

Lemma as_source_node s : as_source s (source_node s) = s.
Proof. by destruct s. Qed.

Ltac map_id :=
  unfold mIdent, mExpr, mSelect, mSource, mTable, mAssignment, mNumber;
  rewrite ?map_list_id, ?map_opt_id by (done || apply as_source_node);
  unfold map_as; rewrite ?as_source_node; simpl.

Lemma map_select_id s : map_select (fun m => m) s = s.
Proof. destruct s. simpl. map_id. done. Qed.

Lemma map_children_id n : map_children (fun m => m) n = n.
Proof.
  destruct n as [|e|[]|[]|[]|[]| | |[]|s|s|a|c|c|s|s|s|t]; simpl; try solve [map_id; done].
  - f_equal. by destruct e; simpl; map_id.
  - f_equal. destruct s as [x op y c|x a|[name a]|s]; simpl; map_id; rewrite ?map_select_id; done.
  - by rewrite map_select_id.
  - destruct a; simpl; map_id; done.
  - destruct c; simpl; map_id; done.
  - destruct c; simpl; unfold map_upsert; map_id; done.
  - destruct s; simpl; map_id; done.
  - destruct s; simpl; map_id; done.
  - destruct s; simpl; map_id; done.
  - destruct t; simpl; map_id; done.
Qed.

Fixpoint preorder (fuel : nat) (n : Node) : list Node :=
  match fuel with
  | O => []
  | S f => n :: flat_map (preorder f) (node_children n)
  end.

Fixpoint postorder (fuel : nat) (n : Node) : list Node :=
  match fuel with
  | O => []
  | S f => flat_map (postorder f) (node_children n) ++ [n]
  end.

(** All the nodes under [n], itself included: parents first, parents last. *)
Definition visited (n : Node) : list Node := preorder (node_size n) n.
Definition left_nodes (n : Node) : list Node := postorder (node_size n) n.

Section Order.
Context {S E : Type} (eff : Node -> stM S E unit).

(** A function that only reads the node it is given. *)
Definition reader (fn : Node -> stM S E Node) : Prop := forall n, fn n ≡M (_ ← eff n; ret n).

Lemma iter_flat_map (h : Node -> list Node) l :
  iter eff (flat_map h l) ≡M iter (fun m => iter eff (h m)) l.
Proof. induction l as [|m l IH]; simpl; [done|]. rewrite iter_app. by setoid_rewrite IH. Qed.

Lemma walk_preorder fn fuel n :
  reader fn -> (node_size n <= fuel)%nat ->
  walk (VisitFunc fn) fuel tt n ≡M (_ ← iter eff (preorder fuel n); ret n).
Proof.
  intros Hfn. revert n. induction fuel as [|f IH]; intros n Hn.
  { pose proof (node_children_size n). lia. }
  assert (Hch : walk_children (walk (VisitFunc fn) f tt) n
    ≡M (_ ← iter eff (flat_map (preorder f) (node_children n)); ret n)).
  { rewrite iter_flat_map.
    pose proof (walk_children_spec (walk (VisitFunc fn) f tt)
      (fun m => iter eff (preorder f m)) (fun m => m) n) as H.
    rewrite map_children_id in H. apply H.
    eapply Forall_impl; [|apply children_smaller]. intros m Hm. apply IH. simpl in Hm. lia. }
  simpl. rewrite !bind_assoc, (Hfn n), !bind_assoc. setoid_rewrite bind_ret_l.
  apply bind_proper; [reflexivity|]. intros _.
  change (bind (walk_children (walk (VisitFunc fn) f ()) n) ret
    ≡M (_ ← iter eff (flat_map (preorder f) (node_children n)); ret n)).
  by rewrite bind_ret_r.
Qed.

Lemma walk_postorder fn fuel n :
  reader fn -> (node_size n <= fuel)%nat ->
  walk (VisitEndFunc fn) fuel tt n ≡M (_ ← iter eff (postorder fuel n); ret n).
Proof.
  intros Hfn. revert n. induction fuel as [|f IH]; intros n Hn.
  { pose proof (node_children_size n). lia. }
  assert (Hch : walk_children (walk (VisitEndFunc fn) f tt) n
    ≡M (_ ← iter eff (flat_map (postorder f) (node_children n)); ret n)).
  { rewrite iter_flat_map.
    pose proof (walk_children_spec (walk (VisitEndFunc fn) f tt)
      (fun m => iter eff (postorder f m)) (fun m => m) n) as H.
    rewrite map_children_id in H. apply H.
    eapply Forall_impl; [|apply children_smaller]. intros m Hm. apply IH. simpl in Hm. lia. }
  cbn [walk VisitEndFunc Visit VisitEnd postorder]. rewrite bind_ret_l, Hch, bind_assoc, iter_app,
    bind_assoc.
  setoid_rewrite bind_ret_l. apply bind_proper; [reflexivity|]. intros _.
  rewrite (Hfn n). simpl. by rewrite bind_assoc.
Qed.
End Order.

Lemma flat_map_ext_in {A B} (h1 h2 : A -> list B) l :
  Forall (fun x => h1 x = h2 x) l -> flat_map h1 l = flat_map h2 l.
Proof. induction 1 as [|x l Hx _ IH]; simpl; [done|]. by rewrite Hx, IH. Qed.

(** More fuel than the size changes nothing. *)
Lemma preorder_fuel f n : (node_size n <= f)%nat -> preorder f n = visited n.
Proof.
  unfold visited. remember (node_size n) as k eqn:Hk. assert (node_size n <= k)%nat as Hn by lia.
  clear Hk. revert n f Hn. induction k as [|k IH]; intros n f Hn Hf.
  { pose proof (node_children_size n). lia. }
  destruct f as [|f]; [lia|]. simpl. f_equal. apply flat_map_ext_in.
  eapply Forall_impl; [|apply children_smaller]. intros m Hm. simpl in Hm. apply IH; lia.
Qed.

Lemma visited_eq n : visited n = n :: flat_map visited (node_children n).
Proof.
  pose proof (node_children_size n). unfold visited at 1.
  destruct (node_size n) as [|k] eqn:Hk; [lia|]. simpl. f_equal. apply flat_map_ext_in.
  eapply Forall_impl; [|apply children_smaller]. intros m Hm. simpl in Hm. apply preorder_fuel. lia.
Qed.

(** [m] is [n] or is reached from it through children. *)
Inductive under : Node -> Node -> Prop :=
  | under_refl n : under n n
  | under_child n c m : c ∈ node_children n -> under m c -> under m n.

Lemma visited_under n m : m ∈ visited n <-> under m n.
Proof.
  split.
  - remember (node_size n) as k eqn:Hk. assert (node_size n <= k)%nat as Hn by lia. clear Hk.
    revert n Hn. induction k as [|k IH]; intros n Hn.
    { pose proof (node_children_size n). lia. }
    rewrite visited_eq. intros [->|Hm]%elem_of_cons; [constructor|].
    apply list_elem_of_In, in_flat_map in Hm as (c & Hc%list_elem_of_In & Hm%list_elem_of_In).
    econstructor; [exact Hc|]. apply IH; [|done].
    pose proof (children_smaller n) as Hs. rewrite Forall_forall in Hs.
    specialize (Hs c ltac:(by apply list_elem_of_In)). simpl in Hs. lia.
  - induction 1 as [n|n c m Hc _ IH]; rewrite visited_eq; [apply elem_of_cons; by left|].
    apply elem_of_cons. right. apply list_elem_of_In, in_flat_map. exists c.
    split; by apply list_elem_of_In.
Qed.

(** ** Visitors that change nodes in place *)

(** The dynamic type of a node. *)
Definition expr_kind (e : Expr) : Z :=
  match e with
  | EIdent _ => 0 | EStringLit _ => 1 | EBlobLit _ => 2 | ENumberLit _ => 3 | ENullLit => 4
  | EBoolLit _ => 5 | EBindExpr _ _ => 6 | EUnaryExpr _ _ => 7 | EBinaryExpr _ _ _ => 8
  | ECaseExpr _ _ _ => 9 | EExists _ _ => 10 | EExprs _ => 11 | ERange _ _ => 12
  | EQualifiedRef _ _ _ => 13 | ECall _ _ _ _ _ => 14 | EParenExpr _ => 15
  end.

Definition kind (n : Node) : Z :=
  match n with
  | NExpr e => expr_kind e
  | NSource (SJoinClause _ _ _ _) => 20 | NSource (SParenSource _ _) => 21
  | NSource (STableName _) => 22 | NSource (SSelect _) => 23
  | NNil => 30 | NCaseBlock _ => 31 | NFilterClause _ => 32 | NOrderingTerm _ => 33
  | NResultColumn _ => 34 | NOutputNames _ => 35 | NJoinOperator _ => 36 | NJoinConstraint _ => 37
  | NSelect _ => 38 | NAssignment _ => 39 | NIndexedColumn _ => 40 | NUpsertClause _ => 41
  | NInsert _ => 42 | NUpdate _ => 43 | NDelete _ => 44 | NType _ => 45
  end.

Section Rewrite.
Context (v : Node -> Node).

(** Every node changed by [v] on entry, the tree rebuilt. *)
Fixpoint rewrite_fuel (fuel : nat) (n : Node) : Node :=
  match fuel with
  | O => n
  | S f => map_children (rewrite_fuel f) (v n)
  end.

Definition rewrite_node (n : Node) : Node := rewrite_fuel (node_size n) n.

Lemma map_children_kind g n : kind (map_children g n) = kind n.
Proof. by destruct n as [|[]|[]|[]|[]|[]| | |[]|[| |[]|]|[]| | | | | | |]. Qed.

Section Kinds.
Context (g : Node -> Node) (Hkind : forall m, kind (g m) = kind m).

(** [out] reads what [inj] builds, for nodes of the same kind. *)
Definition fits {A} (inj : A -> Node) (out : A -> Node -> A) : Prop :=
  forall x m, kind m = kind (inj x) -> inj (out x m) = m.

Lemma fits_list {A} (inj : A -> Node) out l :
  fits inj out -> map inj (map (map_as g inj out) l) = map g (map inj l).
Proof. intros H. rewrite !map_map. apply map_ext. intros x. apply H, Hkind. Qed.

Lemma fits_opt {A} (inj : A -> Node) out x :
  fits inj out -> opt_nodes inj (map_as g inj out <$> x) = map g (opt_nodes inj x).
Proof. intros H. destruct x; simpl; [|done]. f_equal. apply H, Hkind. Qed.

Lemma fits_one {A} (inj : A -> Node) out x :
  fits inj out -> inj (map_as g inj out x) = g (inj x).
Proof. intros H. apply H, Hkind. Qed.

Ltac fit := intros x m; destruct m as [|[]| | | | | | | |[]| | | | | | | |]; done.

Lemma fits_expr : fits NExpr as_expr.
Proof.
  intros x m. destruct m as [|e| | | | | | | |[]| | | | | | | |]; [|done|..];
    simpl; destruct x; done.
Qed.
Lemma fits_ident : fits ident_node as_ident. Proof. fit. Qed.
Lemma fits_exprs : fits (fun l => NExpr (EExprs l)) as_exprs. Proof. fit. Qed.
Lemma fits_number : fits (fun v => NExpr (ENumberLit v)) as_number. Proof. fit. Qed.
Lemma fits_block : fits NCaseBlock as_block. Proof. fit. Qed.
Lemma fits_filter : fits NFilterClause as_filter. Proof. fit. Qed.
Lemma fits_term : fits NOrderingTerm as_term. Proof. fit. Qed.
Lemma fits_columns : fits NOutputNames as_columns. Proof. fit. Qed.
Lemma fits_operator : fits NJoinOperator as_operator. Proof. fit. Qed.
Lemma fits_constraint : fits NJoinConstraint as_constraint. Proof. fit. Qed.
Lemma fits_select : fits NSelect as_select. Proof. fit. Qed.
Lemma fits_table : fits table_node as_table. Proof. fit. Qed.
Lemma fits_assignment : fits NAssignment as_assignment. Proof. fit. Qed.
Lemma fits_indexed : fits NIndexedColumn as_indexed. Proof. fit. Qed.
Lemma fits_upsert : fits NUpsertClause as_upsert. Proof. fit. Qed.
Lemma fits_source : fits source_node as_source.
Proof. intros [] m; destruct m as [|[]| | | | | | | |[]| | | | | | | |]; done. Qed.

(** The children of a rebuilt node are the changed children. *)
Ltac refit :=
  unfold mIdent, mExpr, mSelect, mSource, mTable, mAssignment, mNumber;
  rewrite ?map_app; cbn [map];
  rewrite ?fits_list, ?fits_opt, ?fits_one
    by auto using fits_expr, fits_ident, fits_exprs, fits_number, fits_block, fits_filter,
      fits_term, fits_columns, fits_operator, fits_constraint, fits_select, fits_table,
      fits_assignment, fits_indexed, fits_upsert, fits_source; try done.

Lemma select_children_map s : select_children (map_select g s) = map g (select_children s).
Proof. destruct s. cbn [map_select select_children]. refit. Qed.

Lemma node_children_map n : node_children (map_children g n) = map g (node_children n).
Proof.
  destruct n as [|[]|[]|[]|[]|[]| | |[]|[| |[]|]|s|a|c|c|s|s|s|t];
    cbn [map_children node_children map_expr expr_children map_source source_children
      map_upsert upsert_children]; rewrite ?select_children_map; try done;
    try (unfold upsert_children; cbn); refit.
Qed.
End Kinds.

Context (Hsize : forall n, node_size (v n) = node_size n).

Lemma map_children_ext g1 g2 n :
  Forall (fun m => g1 m = g2 m) (node_children n) -> map_children g1 n = map_children g2 n.
Proof.
  intros H.
  pose proof (walk_children_spec (S := unit) (E := unit) (fun m => ret (g1 m))
    (fun _ => ret tt) g1 n) as H1.
  pose proof (walk_children_spec (S := unit) (E := unit) (fun m => ret (g1 m))
    (fun _ => ret tt) g2 n) as H2.
  assert (Hiter : forall l, iter (S := unit) (E := unit) (fun _ => ret tt) l tt = Ok (tt, tt)).
  { induction l as [|m l IH]; [done|]. simpl. unfold bind. simpl. done. }
  specialize (H1 ltac:(apply Forall_forall; done) tt).
  specialize (H2 ltac:(eapply Forall_impl; [|exact H]; intros m Hm s; simpl in Hm;
    unfold bind, ret; by rewrite Hm) tt).
  rewrite H1 in H2. unfold bind in H2. rewrite !Hiter in H2. unfold ret in H2. by injection H2.
Qed.

Lemma rewrite_fuel_enough f n :
  (node_size n <= f)%nat -> rewrite_fuel f n = rewrite_node n.
Proof.
  unfold rewrite_node. remember (node_size n) as k eqn:Hk.
  assert (node_size n <= k)%nat as Hn by lia. clear Hk. revert n f Hn.
  induction k as [|k IH]; intros n f Hn Hf.
  { pose proof (node_children_size n). lia. }
  destruct f as [|f]; [lia|]. simpl. apply map_children_ext.
  eapply Forall_impl; [|apply children_smaller]. intros m Hm. simpl in Hm. rewrite Hsize in Hm.
  apply IH; lia.
Qed.

(** [rewrite_node] changes a node, then its children. *)
Lemma rewrite_node_eq n : rewrite_node n = map_children rewrite_node (v n).
Proof.
  pose proof (node_children_size n). unfold rewrite_node at 1.
  destruct (node_size n) as [|k] eqn:Hk; [lia|]. simpl. apply map_children_ext.
  eapply Forall_impl; [|apply children_smaller]. intros m Hm. simpl in Hm. rewrite Hsize in Hm.
  apply rewrite_fuel_enough. lia.
Qed.

(** A walk with a visitor that changes nodes and does nothing else. *)
Lemma walk_rewrite {S E} fuel n :
  (node_size n <= fuel)%nat ->
  walk (S := S) (E := E) (VisitFunc (fun n => ret (v n))) fuel tt n ≡M ret (rewrite_node n).
Proof.
  revert n. induction fuel as [|f IH]; intros n Hn.
  { pose proof (node_children_size n). lia. }
  rewrite rewrite_node_eq. cbn [walk VisitFunc Visit VisitEnd]. rewrite !bind_ret_l.
  assert (Hc : walk_children (walk (VisitFunc (fun n => ret (v n))) f tt) (v n)
    ≡M (_ ← iter (S := S) (E := E) (fun _ => ret tt) (node_children (v n));
        ret (map_children rewrite_node (v n)))).
  { apply walk_children_spec. eapply Forall_impl; [|apply children_smaller].
    intros m Hm. simpl in Hm. rewrite Hsize in Hm. unfold walks. rewrite bind_ret_l.
    apply IH. lia. }
  rewrite Hc, bind_assoc. setoid_rewrite bind_ret_l. clear Hc. intros s.
  induction (node_children (v n)) as [|m l IHl]; [done|exact IHl].
Qed.

(** A tree with no node to change is left as it is. *)
Lemma rewrite_node_id n : (forall m, m ∈ visited n -> v m = m) -> rewrite_node n = n.
Proof.
  remember (node_size n) as k eqn:Hk.
  assert (node_size n <= k)%nat as Hn by lia. clear Hk. revert n Hn.
  induction k as [|k IH]; intros n Hn Hid.
  { pose proof (node_children_size n). lia. }
  rewrite rewrite_node_eq, (Hid n) by (rewrite visited_eq; left).
  rewrite <- (map_children_id n) at 2. apply map_children_ext. apply Forall_forall. intros m Hm.
  pose proof (children_smaller n) as Hs. rewrite Forall_forall in Hs. specialize (Hs m Hm).
  simpl in Hs. apply IH; [lia|]. intros m' Hm'. apply Hid. rewrite visited_eq. right.
  apply list_elem_of_In, in_flat_map. exists m. split; [done|by apply list_elem_of_In].
Qed.

Context (Hkind : forall n, kind (v n) = kind n).

Lemma rewrite_node_kind n : kind (rewrite_node n) = kind n.
Proof. by rewrite rewrite_node_eq, map_children_kind. Qed.

(** What holds of every rebuilt node holds of every node of the rewritten tree. *)
Lemma rewrite_all (P : Node -> Prop) :
  (forall n, P (map_children rewrite_node (v n))) ->
  forall n m, m ∈ visited (rewrite_node n) -> P m.
Proof.
  intros HP n. remember (node_size n) as k eqn:Hk.
  assert (node_size n <= k)%nat as Hn by lia. clear Hk. revert n Hn.
  induction k as [|k IH]; intros n Hn m.
  { pose proof (node_children_size n). lia. }
  rewrite rewrite_node_eq, visited_eq. intros [->|Hm]%elem_of_cons; [apply HP|].
  rewrite (node_children_map rewrite_node rewrite_node_kind) in Hm.
  apply list_elem_of_In, in_flat_map in Hm as (c' & Hc & Hm%list_elem_of_In).
  apply in_map_iff in Hc as (c & <- & Hc). apply (IH c); [|done].
  pose proof (children_smaller (v n)) as Hs. rewrite Forall_forall in Hs.
  specialize (Hs c Hc). simpl in Hs. rewrite Hsize in Hs. lia.
Qed.
End Rewrite.

(** ** Claims *)

(** With a function that only reads nodes, [Walk] runs it once on every node under the
    root, parents before children and children from left to right, stops at the first error, and
    leaves the tree as it was; the size of the tree is fuel enough. *)
Theorem Walk_VisitFunc_preorder {S E} (eff : Node -> stM S E unit) fn n fuel :
  reader eff fn -> (node_size n <= fuel)%nat ->
  walk (VisitFunc fn) fuel tt n ≡M (_ ← iter eff (visited n); ret n).
Proof. intros Hfn Hn. rewrite <- (preorder_fuel fuel n Hn). by apply walk_preorder. Qed.

(** A visitor that appends the text of each identifier to a log. *)
Definition log_idents (n : Node) : stM (list gostring) Empty_set unit :=
  match n with
  | NExpr (EIdent i) => modify (fun l => l ++ [Name i])
  | _ => ret tt
  end.

Definition sample_cond : Node :=
  NExpr (EBinaryExpr (EIdent (mkIdent (str "a") false [])) AND
    (EParenExpr (EQualifiedRef (mkIdent (str "t") false []) false
      (Some (mkIdent (str "b") false []))))).

Lemma Walk_VisitFunc_preorder_witness :
  walk (VisitFunc (fun n => (_ ← log_idents n; ret n))) 7 tt sample_cond
    ≡M (_ ← iter log_idents (visited sample_cond); ret sample_cond) /\
  walk (VisitFunc (fun n => (_ ← log_idents n; ret n))) 7 tt sample_cond [] =
    Ok (sample_cond, [str "a"; str "t"; str "b"]).
Proof.
  split; [|reflexivity]. apply Walk_VisitFunc_preorder; [intros m; reflexivity|]. vm_compute. lia.
Defined.

(** A walk terminates for every visitor that keeps the size of the nodes it visits: it does
    not run out of fuel, and returns, fails or panics only as the visitor's methods do. *)
Theorem walk_total {S E V} (vis : Visitor V S E) EP PP fuel v n s :
  (forall v n s, wp (Visit vis v n) EP PP (fun r _ => node_size r.2 = node_size n) s) ->
  (forall v n s, wp (VisitEnd vis v n) EP PP (fun _ _ => True) s) ->
  (node_size n <= fuel)%nat ->
  wp (walk vis fuel v n) EP PP (fun _ _ => True) s.
Proof. intros Hv He Hn. by apply walk_safe. Qed.

Lemma walk_total_witness :
  wp (walk (VisitEndFunc (fun n => (_ ← log_idents n; ret n))) 7 tt sample_cond)
    (fun _ => False) False (fun _ _ => True) [].
Proof.
  apply walk_total; [done| |vm_compute; lia]. intros v n s.
  destruct n as [|[]| | | | | | | | | | | | | | | |]; exact I.
Defined.

Definition is_result_column (n : Node) : Prop :=
  match n with NResultColumn _ => True | _ => False end.

Lemma no_column_child n : Forall (fun m => ~ is_result_column m) (node_children n).
Proof.
  assert (Hm : forall A (f : A -> Node) l, (forall a, ~ is_result_column (f a)) ->
    Forall (fun m => ~ is_result_column m) (map f l)).
  { intros A f l H. induction l; simpl; constructor; auto. }
  assert (Ho : forall A (f : A -> Node) x, (forall a, ~ is_result_column (f a)) ->
    Forall (fun m => ~ is_result_column m) (opt_nodes f x)).
  { intros A f [x|] H; simpl; constructor; auto. }
  assert (Hsrc : forall s, ~ is_result_column (source_node s)) by (intros []; simpl; tauto).
  assert (Hsel : forall s, Forall (fun m => ~ is_result_column m) (select_children s)).
  { intros []. cbn [select_children]. repeat (apply Forall_app; split); auto. }
  destruct n as [|[]|[]|[]|[]|[]| | |[]|[]|s|a|c|c|s|s|s|t];
    cbn [node_children expr_children source_children upsert_children]; unfold upsert_children;
    repeat first [apply Forall_app; split | constructor]; auto.
Qed.

(** A walk from a statement never reaches a result column: [walk] has no case for the column
    list, so the expressions of a SELECT list or a RETURNING list are not visited. *)
Theorem Walk_skips_result_columns st m :
  m ∈ visited (statement_node st) -> ~ is_result_column m.
Proof.
  rewrite visited_under. intros H.
  assert (Hroot : ~ is_result_column (statement_node st)) by (destruct st; simpl; tauto).
  revert Hroot. induction H as [n|n c m Hc _ IH]; [done|]. intros _. apply IH.
  pose proof (no_column_child n) as Hn. rewrite Forall_forall in Hn.
  by apply Hn, list_elem_of_In.
Qed.

(** [SELECT a FROM t] *)
Definition sample_select : SelectStatement :=
  mkSelect None false false
    [mkResultColumn false (Some (EIdent (mkIdent (str "a") false []))) None]
    (Some (STableName (mkTableName (mkIdent (str "t") false []) None)))
    None [] None false false false false None [] None None None.

Lemma Walk_skips_result_columns_witness :
  ident_node (mkIdent (str "t") false []) ∈ visited (NSelect sample_select) /\
  ~ is_result_column (ident_node (mkIdent (str "t") false [])).
Proof.
  assert (H : ident_node (mkIdent (str "t") false []) ∈ visited (NSelect sample_select))
    by (vm_compute; apply list_elem_of_In; simpl; tauto).
  split; [exact H|exact (Walk_skips_result_columns (StSelect sample_select) _ H)].
Defined.
