(* ===== verification/ShardKey.v ===== *)
(** * Choosing a shard (db/plugins/table_sharding.go)

    The configuration of a sharded table, its validation, and the function that maps the values of
    the sharding keys to the suffix of a physical table: by raw value, by an expression, or by a
    CRC-32 checksum of the values' bytes. Also what that function uses of the Go standard library
    ([fmt.Sprintf] with one argument, [hash/crc32], [encoding/binary], UTF-8) and of common/utils
    (number.go, compare.go, string.go, candy.go).

    [External] collects what is not in this repository: the [cast] and [uuid] packages, the
    expression evaluator behind [ShardingKeyExpr], and [math/big]'s decimal parsing and encoding. *)

From stdpp Require Import base list strings numbers option gmap.
From S2P Require Import Prelude SqlToken SqlLexer SqlParser.

(** ** Values *)

(** A finite [float64] is [m * 2^e]. *)
Inductive float64 : Type :=
  | FFin (m e : Z)
  | FNaN
  | FInf (neg : bool).

(** The dynamic values ([any]) that reach the sharding function. [VInt] and [VUint] are Go's
    64-bit [int] and [uint]; [VIntN w] and [VUintN w] the sized types of [w] bytes; [VOther]
    stands for the types [encoding/binary] cannot write (structs with pointers, maps, nil). *)
Inductive GoValue : Type :=
  | VInt (n : Z)
  | VUint (n : Z)
  | VIntN (w : nat) (n : Z)
  | VUintN (w : nat) (n : Z)
  | VFloat (w : nat) (bits : Z)
  | VBool (b : bool)
  | VString (s : gostring)
  | VBytes (b : list Z)
  | VUUID (b : list Z)
  | VInts (l : list Z)
  | VUints (l : list Z)
  | VOther.

Inductive ShardError : Type :=
  | ErrInvalidID
  | ErrIDGeneratorNotFound
  | ErrShardingModelNotFound
  | ErrDiffSuffixDML
  | ErrMissingShardingKey
  | ErrColumnAndExprMisMatch
  | ErrSql (e : GoError)              (* an error of the SQL parser or of a walk *)
  | ErrExternal (msg : gostring)      (* an error of a library call *)
  | ErrParseID (e : ShardError)       (* "parse id as uint64 failed", wrapped *)
  | ErrKeyNotFound (k : gostring)     (* "sharding key not found" *)
  | ErrNoMigratingKeys                (* raw values, no keys for migrating *)
  | ErrNoSuffixes (table : gostring). (* "suffixes are empty" *)

(** ** Strings *)

Definition IsStrBlank (s : gostring) : bool := forallb IsSpace s.
Definition IsStrNotBlank (s : gostring) : bool := negb (IsStrBlank s).

(** [strings.Join]. *)
Fixpoint Join (l : list gostring) (sep : gostring) : gostring :=
  match l with
  | [] => []
  | [x] => x
  | x :: l => x ++ sep ++ Join l sep
  end.

Definition Underline : gostring := str "_".

(** ** fmt.Sprintf with one argument *)

Inductive FmtArg : Type :=
  | FmtInt (type : gostring) (n : Z)
  | FmtString (s : gostring).

Definition pad_left (c : rune) (w : nat) (s : gostring) : gostring :=
  replicate (w - length s) c ++ s.

(** [%d] with an optional [0] flag and width; the sign counts for the width. *)
Definition fmt_int (zero : bool) (width : nat) (n : Z) : gostring :=
  if zero then
    if n <? 0 then chr "-" :: pad_left (chr "0") (width - 1) (utoa (- n))
    else pad_left (chr "0") width (utoa n)
  else pad_left (chr " ") width (itoa n).

Definition arg_text (a : FmtArg) : gostring :=
  match a with FmtInt _ n => itoa n | FmtString s => s end.
Definition arg_type (a : FmtArg) : gostring :=
  match a with FmtInt t _ => t | FmtString _ => str "string" end.

(** [type=value], as [fmt] reports an argument it could not use. *)
Definition arg_report (a : FmtArg) : gostring := arg_type a ++ str "=" ++ arg_text a.

(** A verb: flag [0], width, letter. [None]: flags, precisions and verbs outside this model. *)
Definition fmt_verb (zero : bool) (width : nat) (verb : rune) (a : option FmtArg) :
    option gostring :=
  if verb =? chr "%" then Some (str "%")
  else if (verb =? chr "d") || (verb =? chr "s") || (verb =? chr "v") then
    match a with
    | None => Some (str "%!" ++ [verb] ++ str "(MISSING)")
    | Some (FmtInt t n) =>
        if verb =? chr "s" then Some (str "%!s(" ++ arg_report (FmtInt t n) ++ str ")")
        else Some (fmt_int zero width n)
    | Some (FmtString s) =>
        if verb =? chr "d" then Some (str "%!d(" ++ arg_report (FmtString s) ++ str ")")
        else if zero then None
        else Some (pad_left (chr " ") width s)
    end
  else None.

(** Reads the width of a verb. *)
Fixpoint fmt_width (s : gostring) (w : nat) : nat * gostring :=
  match s with
  | c :: s' => if isDigit c then fmt_width s' (10 * w + Z.to_nat (c - 48))%nat else (w, s)
  | [] => (w, [])
  end.

(** [a] is the argument while it has not been used; an unused argument is reported at the end. *)
Fixpoint sprintf_go (fuel : nat) (s : gostring) (a : option FmtArg) : option gostring :=
  match fuel with
  | O => None
  | S f =>
      match s with
      | [] =>
          match a with
          | None => Some []
          | Some a => Some (str "%!(EXTRA " ++ arg_report a ++ str ")")
          end
      | c :: s =>
          if c =? chr "%" then
            let zero := match s with d :: _ => d =? chr "0" | [] => false end in
            let '(w, s) := fmt_width s 0 in
            match s with
            | [] => Some (str "%!(NOVERB)" ++
                match a with
                | None => []
                | Some a => str "%!(EXTRA " ++ arg_report a ++ str ")"
                end)
            | v :: s =>
                t ← fmt_verb zero w v a;
                r ← sprintf_go f s (if v =? chr "%" then a else None);
                Some (t ++ r)
            end
          else
            r ← sprintf_go f s a;
            Some (c :: r)
      end
  end%stdpp.

Definition Sprintf (format : gostring) (a : FmtArg) : option gostring :=
  sprintf_go (S (length format)) format (Some a).

(** ** Bytes of a value *)

(** [encoding/binary], big endian: the [w] low bytes of [n], most significant first. *)
Fixpoint be_bytes (w : nat) (n : Z) : list Z :=
  match w with
  | O => []
  | S w' => (n / 2 ^ (8 * Z.of_nat w')) mod 256 :: be_bytes w' n
  end.

Definition IsInRange (num min max : Z) : bool := negb ((num <? min) || (num >? max)).

(** [IfAny] over functions that set [result] and report success: the first that succeeds, or the
    last one when none does. *)
Fixpoint first_ok {A} (d : A) (l : list (A * bool)) : A :=
  match l with
  | [] => d
  | (x, ok) :: l => if ok : bool then x else first_ok x l
  end.

(** The narrowest sized type that holds the number. *)
Definition IntNarrow (num : Z) : GoValue :=
  first_ok VOther
    [(VIntN 1 num, IsInRange num (-128) 127);
     (VIntN 2 num, IsInRange num (-32768) 32767);
     (VIntN 4 num, IsInRange num (-2147483648) 2147483647);
     (VIntN 8 num, IsInRange num (-9223372036854775808) 9223372036854775807)].

Definition UintNarrow (num : Z) : GoValue :=
  first_ok VOther
    [(VUintN 1 num, IsInRange num 0 255);
     (VUintN 2 num, IsInRange num 0 65535);
     (VUintN 4 num, IsInRange num 0 4294967295);
     (VUintN 8 num, IsInRange num 0 18446744073709551615)].

(** [binary.Write(w, binary.BigEndian, data)]: the bytes appended, or its error on values that are
    not of a fixed size. *)
Definition binary_Write (v : GoValue) : outcome ShardError (list Z) :=
  match v with
  | VIntN w n | VUintN w n => Ok (be_bytes w n)
  | VFloat w bits => Ok (be_bytes w bits)
  | VBool b => Ok [if b then 1 else 0]
  | VBytes b | VUUID b => Ok b
  | VInt _ | VUint _ | VString _ | VInts _ | VUints _ | VOther =>
      Err (ErrExternal (str "binary.Write: some values are not fixed-sized"))
  end.

(** ** CRC-32 (IEEE) *)

Fixpoint crc_bits (n : nat) (c : Z) : Z :=
  match n with
  | O => c
  | S n =>
      crc_bits n (if Z.odd c then Z.lxor (Z.shiftr c 1) 3988292384 else Z.shiftr c 1)
  end.

Definition ChecksumIEEE (data : list Z) : Z :=
  Z.lxor 4294967295 (foldl (fun c b => crc_bits 8 (Z.lxor c b)) 4294967295 data).

(** ** Configuration *)

(** Code outside the repository. *)
Record External := mkExternal {
  cast_ToInt : GoValue -> Z;
  cast_ToUint : GoValue -> Z;
  cast_ToStringE : GoValue -> outcome ShardError gostring;
  cast_ToFloat64 : GoValue -> float64;
  cast_ToUint64E : GoValue -> outcome ShardError Z;
  uuid_Parse : list Z -> option (list Z);
  big_Float_gob : list Z -> option (list Z)   (* SetString, then GobEncode *)
}.

(** [cast] on values that need no conversion. *)
Class ExternalLaws (ext : External) : Prop := {
  cast_ToInt_int n : cast_ToInt ext (VInt n) = n;
  cast_ToUint_uint n : cast_ToUint ext (VUint n) = n;
  cast_ToStringE_string s : cast_ToStringE ext (VString s) = Ok s;
  cast_ToStringE_uint64 n : 0 <= n -> cast_ToStringE ext (VUintN 8 n) = Ok (utoa n);
  cast_ToUint64E_uint64 n : cast_ToUint64E ext (VUintN 8 n) = Ok n
}.

(** A [gval.Evaluable], on the map from columns to values. *)
Abbreviation Evaluable := (gmap gostring GoValue -> outcome ShardError GoValue).

Record TableShardingConfig := mkConfig {
  Database : gostring;
  Table : gostring;
  ShardingKeys : list gostring;
  ShardingKeyExpr : option Evaluable;
  ShardingKeyByRawValue : bool;
  ShardingKeysForMigrating : list gostring;
  NumberOfShards : Z;
  CustomSuffix : gostring;
  HasPrimaryKeyGenerator : bool
}.

(** The fields [DefaultTableSharding] computes. *)
Record tableSharding := mkTableSharding {
  config : TableShardingConfig;
  isShardingPrimaryKey : bool;
  shardingPrimaryKey : gostring
}.

Definition is_id (key : gostring) : bool :=
  (key =s str "id") || (key =s str "ID") || (key =s str "Id") || (key =s str "iD").

Definition DefaultTableSharding (c : TableShardingConfig) : outcome Empty_set tableSharding :=
  if IsStrBlank (Table c) then Panic (str "missing sharding table name")
  else if (length (ShardingKeys c) =? 0)%nat then Panic (str "missing sharding keys")
  else if negb (ShardingKeyByRawValue c) &&
      ((NumberOfShards c <=? 0) || (NumberOfShards c >=? 100000)) then
    Panic (str "invalid number of shards")
  else if existsb is_id (ShardingKeys c) then
    if negb (HasPrimaryKeyGenerator c) then
      Panic (str "sharding by primary key but primary key generator not found")
    else
      Ok (mkTableSharding c true
        (match List.find is_id (ShardingKeys c) with Some k => k | None => [] end))
  else Ok (mkTableSharding c false []).

(** [Name] of the plugin. *)
Definition sharding_Name (t : tableSharding) : gostring :=
  str "gorm:sharding:" ++ Database (config t) ++ str ":" ++ Table (config t).

(** ** The sharding function *)

Definition has_percent (s : gostring) : bool := existsb (fun c => c =? chr "%") s.

(** The format [defaultShardingFunc] leaves in [t.suffixFormat]. *)
Definition suffixFormat (c : TableShardingConfig) : gostring :=
  let f := Underline ++
    (if IsStrNotBlank (CustomSuffix c) then CustomSuffix c
     else if ShardingKeyByRawValue c then str "%s"
     else Join (ShardingKeys c) Underline) in
  let n := NumberOfShards c in
  if negb (has_percent f) then
    f ++ (if ShardingKeyByRawValue c then str "_%s"
          else if n <? 10 then str "_%01d"
          else if n <? 100 then str "_%02d"
          else if n <? 1000 then str "_%03d"
          else if n <? 10000 then str "_%04d"
          else [])
  else f.

(** A [Sprintf] whose format is outside the modelled subset yields no outcome of the code; it is
    reported as [Panic] and excluded by the hypotheses of the theorems. *)
Definition format (f : gostring) (a : FmtArg) : outcome ShardError gostring :=
  match Sprintf f a with
  | Some s => Ok s
  | None => Panic (str "format outside the model")
  end.

Section ShardingFunc.
Context (ext : External) (c : TableShardingConfig).

(** By raw value. *)
Fixpoint raw_data (values : list GoValue) : outcome ShardError (list gostring) :=
  match values with
  | [] => Ok []
  | v :: values => (s ⇐ cast_ToStringE ext v; l ⇐ raw_data values; Ok (s :: l))
  end.

Definition shard_by_raw (values : list GoValue) : outcome ShardError gostring :=
  data ⇐ raw_data values;
  format (str "_%s") (FmtString (Join data Underline)).

(** By expression: [int64(math.Mod(x, n))]. *)
Definition trunc_float (m e : Z) : Z := if 0 <=? e then m * 2 ^ e else Z.quot m (2 ^ (- e)).

(** The conversion of NaN to [int64] is the value amd64 gives. *)
Definition float_mod (x : float64) (n : Z) : Z :=
  match x with
  | FFin m e => Z.rem (trunc_float m e) n
  | FNaN | FInf _ => -9223372036854775808
  end.

(** [params[column] = values[idx]], an index out of range panics. *)
Fixpoint expr_params (keys : list gostring) (values : list GoValue)
    (params : gmap gostring GoValue) : outcome ShardError (gmap gostring GoValue) :=
  match keys, values with
  | [], _ => Ok params
  | k :: keys, v :: values => expr_params keys values (<[k := v]> params)
  | _ :: _, [] => Panic (str "runtime error: index out of range")
  end.

Definition shard_by_expr (eval : Evaluable) (values : list GoValue) :
    outcome ShardError gostring :=
  params ⇐ expr_params (ShardingKeys c) values ∅;
  result ⇐ eval params;
  let shardingKey := float_mod (cast_ToFloat64 ext result) (NumberOfShards c) in
  format (suffixFormat c) (FmtInt (str "int64") shardingKey).

(** By checksum. *)
Definition stringToByteSlice (v : list Z) : list Z :=
  match big_Float_gob ext v with
  | Some data => data
  | None => match uuid_Parse ext v with Some uid => uid | None => v end
  end.

Definition value_data (value : GoValue) : GoValue :=
  match value with
  | VInt _ => IntNarrow (cast_ToInt ext value)
  | VUint _ => UintNarrow (cast_ToUint ext value)
  | VInts _ | VUints _ => VOther          (* a []any *)
  | VString s => VBytes (stringToByteSlice (bytes_of s))
  | VBytes b => VBytes (stringToByteSlice b)
  | VUUID b => VBytes b
  | _ => value
  end.

Fixpoint write_values (values : list GoValue) : outcome ShardError (list Z) :=
  match values with
  | [] => Ok []
  | v :: values => (b ⇐ binary_Write (value_data v); bs ⇐ write_values values; Ok (b ++ bs))
  end.

Definition shard_by_checksum (values : list GoValue) : outcome ShardError gostring :=
  w ⇐ write_values values;
  let shardingKey := ChecksumIEEE w mod NumberOfShards c in
  format (suffixFormat c) (FmtInt (str "uint64") shardingKey).

(** The function [defaultShardingFunc] returns. *)
Definition shardingFunc (values : list GoValue) : outcome ShardError gostring :=
  if ShardingKeyByRawValue c then shard_by_raw values
  else match ShardingKeyExpr c with
  | Some eval => shard_by_expr eval values
  | None => shard_by_checksum values
  end.

(** [defaultShardingFunc]: the function above, or a panic on a configuration without shards. *)
Definition defaultShardingFunc :
    outcome Empty_set (list GoValue -> outcome ShardError gostring) :=
  if negb (ShardingKeyByRawValue c) && (NumberOfShards c =? 0) then
    Panic (str "missing number_of_shards config")
  else Ok shardingFunc.

(** [suffixes]: every suffix a migration creates a table for. *)
Fixpoint format_all (args : list FmtArg) : outcome ShardError (list gostring) :=
  match args with
  | [] => Ok []
  | a :: args => (s ⇐ format (suffixFormat c) a; l ⇐ format_all args; Ok (s :: l))
  end.

Definition suffixes : outcome ShardError (list gostring) :=
  if ShardingKeyByRawValue c then
    if (length (ShardingKeysForMigrating c) =? 0)%nat then Err ErrNoMigratingKeys
    else format_all (map FmtString (ShardingKeysForMigrating c))
  else format_all (map (fun i => FmtInt (str "int") (Z.of_nat i))
    (seq 0 (Z.to_nat (NumberOfShards c)))).
End ShardingFunc.

Example crc_check : ChecksumIEEE (str "123456789") = 3421780262.
Proof. vm_compute. reflexivity. Qed.

Example sprintf_check :
  Sprintf (str "_user_%03d") (FmtInt (str "int") 7) = Some (str "_user_007") /\
  Sprintf (str "_user") (FmtInt (str "uint64") 7) = Some (str "_user%!(EXTRA uint64=7)").
Proof. split; vm_compute; reflexivity. Qed.
