(* ===== verification/ShardKeySpec.v ===== *)
(** * Routing and migration agree on the tables

    The suffix that [shardingFunc] computes for a row must be the suffix of a table that a
    migration creates ([suffixes]). This holds when the suffix format has one integer verb
    ([IntFormat]), which is the case for fewer than 10000 shards; the tables are then pairwise
    distinct. The remaining theorems delimit this: 10000 shards or more, negative expression
    results, a custom suffix with raw values. *)

From stdpp Require Import base list strings numbers option gmap.
From S2P Require Import Prelude SqlToken SqlLexer SqlParser ShardKey.

(** ** Formats *)

Definition no_percent (s : gostring) : Prop := Forall (fun c => c ≠ chr "%") s.

Lemma no_percent_spec s : has_percent s = false <-> no_percent s.
Proof.
  unfold has_percent, no_percent. induction s as [|c s IH]; simpl; [by split|].
  rewrite orb_false_iff, IH, Z.eqb_neq, Forall_cons_iff. done.
Qed.

(** One integer verb, possibly with a width, between texts without verbs. *)
Inductive IntFormat (f : gostring) : Prop :=
  | int_format pre ds post :
      f = pre ++ chr "%" :: ds ++ chr "d" :: post ->
      no_percent pre -> Forall (fun c => isDigit c = true) ds -> no_percent post -> IntFormat f.

Lemma sprintf_text fuel s a :
  no_percent s -> (length s < fuel)%nat ->
  sprintf_go fuel s None = Some s /\
  sprintf_go fuel s (Some a) = Some (s ++ str "%!(EXTRA " ++ arg_report a ++ str ")").
Proof.
  revert fuel. induction s as [|c s IH]; intros fuel Hs Hf; destruct fuel as [|fuel]; simpl in *;
    try lia; [done|].
  inversion Hs as [|? ? Hc Hs']; subst. apply Z.eqb_neq in Hc.
  change (c =? chr "%") with (c =? chr "%") in Hc. rewrite Hc.
  destruct (IH fuel Hs' ltac:(lia)) as [-> ->]. done.
Qed.

Lemma sprintf_prefix fuel pre s a :
  no_percent pre -> (length pre < fuel)%nat ->
  sprintf_go fuel (pre ++ s) a = (fun r => pre ++ r) <$> sprintf_go (fuel - length pre) s a.
Proof.
  revert fuel. induction pre as [|c pre IH]; intros fuel Hp Hf; simpl in *.
  { rewrite Nat.sub_0_r. by destruct (sprintf_go fuel s a). }
  destruct fuel as [|fuel]; [lia|]. inversion Hp as [|? ? Hc Hp']; subst. simpl.
  apply Z.eqb_neq in Hc. rewrite Hc, (IH fuel Hp' ltac:(lia)).
  by destruct (sprintf_go (fuel - length pre) s a).
Qed.

Fixpoint digits_value (w : nat) (ds : gostring) : nat :=
  match ds with [] => w | d :: ds => digits_value (10 * w + Z.to_nat (d - 48)) ds end.

Lemma fmt_width_digits ds s w :
  Forall (fun c => isDigit c = true) ds -> fmt_width (ds ++ chr "d" :: s) w =
    (digits_value w ds, chr "d" :: s).
Proof.
  revert w. induction ds as [|d ds IH]; intros w Hd; [done|]. inversion Hd as [|? ? H1 H2]; subst.
  cbn [app fmt_width digits_value]. rewrite H1. by apply IH.
Qed.

(** The result does not depend on the integer type of the argument. *)
Lemma Sprintf_int f :
  IntFormat f -> exists pre zero w post, forall t n,
    Sprintf f (FmtInt t n) = Some (pre ++ fmt_int zero w n ++ post).
Proof.
  intros [pre ds post -> Hpre Hds Hpost].
  exists pre, (match ds with d :: _ => d =? chr "0" | [] => false end), (digits_value 0 ds), post.
  intros t n. unfold Sprintf.
  rewrite sprintf_prefix; [|done|rewrite length_app; simpl; lia].
  set (fuel := (S _ - _)%nat).
  assert (exists k, fuel = S k /\ (length post < k)%nat) as (k & -> & Hk).
  { exists (fuel - 1)%nat. unfold fuel. rewrite length_app. simpl. rewrite length_app. simpl. lia. }
  cbn [sprintf_go]. change (chr "%" =? chr "%") with true. cbv iota.
  rewrite (fmt_width_digits ds post 0 Hds).
  replace (match ds ++ chr "d" :: post with d :: _ => d =? chr "0" | [] => false end)
    with (match ds with d :: _ => d =? chr "0" | [] => false end) by by destruct ds.
  cbn [fmt_verb]. change (sprintf_go k post _) with (sprintf_go k post None).
  destruct (sprintf_text k post (FmtInt t n) Hpost Hk) as [-> _]. done.
Qed.

Lemma format_int f :
  IntFormat f -> exists pre zero w post, forall t n,
    format f (FmtInt t n) = Ok (pre ++ fmt_int zero w n ++ post).
Proof.
  intros H. destruct (Sprintf_int f H) as (pre & zero & w & post & Hs).
  exists pre, zero, w, post. intros t n. unfold format. by rewrite Hs.
Qed.

(** ** The default formats *)

Lemma no_percent_app a b : no_percent (a ++ b) <-> no_percent a /\ no_percent b.
Proof. apply Forall_app. Qed.

Lemma Join_no_percent l sep :
  no_percent sep -> Forall no_percent l -> no_percent (Join l sep).
Proof.
  intros Hsep. induction 1 as [|x l Hx _ IH]; [by constructor|]. simpl.
  destruct l; [done|]. by rewrite !no_percent_app.
Qed.

(** The configurations whose suffix is the one the plugin chooses. *)
Definition plain_suffix (c : TableShardingConfig) : Prop :=
  no_percent (CustomSuffix c) /\ Forall no_percent (ShardingKeys c).

Definition format_base (c : TableShardingConfig) : gostring :=
  Underline ++ (if IsStrNotBlank (CustomSuffix c) then CustomSuffix c
                else Join (ShardingKeys c) Underline).

Lemma format_base_no_percent c : plain_suffix c -> no_percent (format_base c).
Proof.
  intros [H1 H2]. unfold format_base. apply no_percent_app. split; [by repeat constructor|].
  destruct (IsStrNotBlank _); [done|]. apply Join_no_percent; [by repeat constructor|done].
Qed.

Lemma suffixFormat_plain c :
  ShardingKeyByRawValue c = false -> plain_suffix c ->
  suffixFormat c = format_base c ++
    (if NumberOfShards c <? 10 then str "_%01d"
     else if NumberOfShards c <? 100 then str "_%02d"
     else if NumberOfShards c <? 1000 then str "_%03d"
     else if NumberOfShards c <? 10000 then str "_%04d" else []).
Proof.
  intros Hr Hp. unfold suffixFormat. rewrite Hr. fold (format_base c).
  by rewrite (proj2 (no_percent_spec _) (format_base_no_percent c Hp)).
Qed.

Lemma suffixFormat_int c :
  ShardingKeyByRawValue c = false -> plain_suffix c -> NumberOfShards c < 10000 ->
  IntFormat (suffixFormat c).
Proof.
  intros Hr Hp Hn. rewrite (suffixFormat_plain c Hr Hp). apply Z.ltb_lt in Hn. rewrite Hn.
  assert (H : forall ds, Forall (fun c => isDigit c = true) ds ->
    IntFormat (format_base c ++ str "_%" ++ ds ++ str "d")).
  { intros ds Hds. apply (int_format _ (format_base c ++ str "_") ds []); [|  |done|by constructor].
    - by rewrite <- app_assoc.
    - apply no_percent_app. split; [by apply format_base_no_percent|by repeat constructor]. }
  destruct (_ <? 10); [apply (H (str "01")); by repeat constructor|].
  destruct (_ <? 100); [apply (H (str "02")); by repeat constructor|].
  destruct (_ <? 1000); [apply (H (str "03")); by repeat constructor|].
  apply (H (str "04")); by repeat constructor.
Qed.

(** ** Decimal numerals *)

(** Reads the digits of a text, whatever stands between them. *)
Definition numeral (s : gostring) (a : Z) : Z :=
  foldl (fun a d => if isDigit d then 10 * a + (d - 48) else a) a s.

Lemma numeral_app s1 s2 a : numeral (s1 ++ s2) a = numeral s2 (numeral s1 a).
Proof. apply foldl_app. Qed.

Lemma udigits_numeral fuel n acc :
  0 <= n < 10 ^ Z.of_nat fuel -> (0 < fuel)%nat -> numeral (udigits fuel n acc) 0 = numeral acc n.
Proof.
  revert n acc. induction fuel as [|f IH]; intros n acc Hn Hf; [lia|].
  pose proof (Z.mod_pos_bound n 10 ltac:(lia)).
  assert (Hd : isDigit (48 + n mod 10) = true).
  { unfold isDigit. apply andb_true_iff. change (chr "0") with 48. change (chr "9") with 57.
    rewrite !Z.leb_le. lia. }
  cbn [udigits]. destruct (n <? 10) eqn:Hlt.
  - apply Z.ltb_lt in Hlt. unfold numeral. cbn [foldl]. rewrite Hd.
    rewrite Z.mod_small by lia. f_equal. lia.
  - apply Z.ltb_ge in Hlt. destruct f as [|f].
    { change (10 ^ Z.of_nat 1) with 10 in Hn. lia. }
    rewrite IH; [|split|lia].
    + unfold numeral. cbn [foldl]. rewrite Hd. f_equal.
      pose proof (Z.div_mod n 10 ltac:(lia)). lia.
    + apply Z.div_pos; lia.
    + apply Z.div_lt_upper_bound; [lia|]. rewrite Nat2Z.inj_succ, Z.pow_succ_r in Hn by lia. lia.
Qed.

Lemma utoa_numeral n : 0 <= n -> numeral (utoa n) 0 = n.
Proof.
  intros Hn. unfold utoa. rewrite udigits_numeral; [done| |lia]. split; [done|].
  rewrite Nat2Z.inj_succ, Z2Nat.id by apply Z.log2_nonneg.
  destruct (Z.eq_dec n 0) as [->|Hne]; [reflexivity|].
  apply Z.lt_le_trans with (2 ^ Z.succ (Z.log2 n)); [apply Z.log2_spec; lia|].
  apply Z.pow_le_mono_l. lia.
Qed.

Lemma numeral_pad c w s :
  isDigit c = false \/ c = 48 -> numeral (pad_left c w s) 0 = numeral s 0.
Proof.
  intros Hc. unfold pad_left. rewrite numeral_app. f_equal.
  induction (w - length s)%nat as [|k IH]; [done|]. cbn [replicate].
  unfold numeral in *. cbn [foldl]. destruct Hc as [Hc| ->]; [by rewrite Hc|done].
Qed.

Lemma fmt_int_numeral zero w n : 0 <= n -> numeral (fmt_int zero w n) 0 = n.
Proof.
  intros Hn. unfold fmt_int, itoa. replace (n <? 0) with false by lia.
  destruct zero; rewrite numeral_pad; auto using utoa_numeral.
Qed.

(** ** Suffixes *)

Lemma format_all_spec c l (g : FmtArg -> gostring) :
  (forall a, a ∈ l -> format (suffixFormat c) a = Ok (g a)) -> format_all c l = Ok (map g l).
Proof.
  induction l as [|a l IH]; intros H; [done|]. simpl. rewrite H by left. simpl.
  rewrite IH; [done|]. intros b Hb. apply H. by right.
Qed.

Lemma suffixes_int c :
  ShardingKeyByRawValue c = false -> IntFormat (suffixFormat c) ->
  exists g : Z -> gostring,
    (forall t n, format (suffixFormat c) (FmtInt t n) = Ok (g n)) /\
    suffixes c = Ok (map (fun i => g (Z.of_nat i)) (seq 0 (Z.to_nat (NumberOfShards c)))) /\
    (forall m n, 0 <= m -> 0 <= n -> g m = g n -> m = n).
Proof.
  intros Hr Hf. destruct (format_int _ Hf) as (pre & zero & w & post & Hg).
  exists (fun n => pre ++ fmt_int zero w n ++ post). split; [exact Hg|]. split.
  - unfold suffixes. rewrite Hr.
    erewrite (format_all_spec c _ (fun a =>
      match a with FmtInt _ n => pre ++ fmt_int zero w n ++ post | _ => [] end)).
    + by rewrite map_map.
    + intros a Ha. apply list_elem_of_fmap in Ha as (i & -> & _). apply Hg.
  - intros m n Hm Hn H. apply app_inv_head, app_inv_tail in H.
    apply (f_equal (fun s => numeral s 0)) in H. by rewrite !fmt_int_numeral in H.
Qed.

(** The suffix of shard [k] is the [k]-th one of a migration. *)
Lemma shard_in_suffixes c t k l s :
  ShardingKeyByRawValue c = false -> IntFormat (suffixFormat c) ->
  0 <= k < NumberOfShards c ->
  format (suffixFormat c) (FmtInt t k) = Ok s -> suffixes c = Ok l -> s ∈ l.
Proof.
  intros Hr Hf Hk Hs Hl. destruct (suffixes_int c Hr Hf) as (g & Hg & Hsuf & _).
  rewrite Hg in Hs. injection Hs as <-. rewrite Hsuf in Hl. injection Hl as <-.
  apply list_elem_of_fmap. exists (Z.to_nat k). split; [f_equal; lia|].
  apply list_elem_of_In, in_seq. lia.
Qed.

Lemma utoa_digits n : 0 <= n -> Forall (fun c => 48 <= c <= 57) (utoa n).
Proof.
  unfold utoa. intros Hn.
  assert (H : forall fuel n acc, Forall (fun c => 48 <= c <= 57) acc ->
    Forall (fun c => 48 <= c <= 57) (udigits fuel n acc)).
  { clear. induction fuel as [|f IH]; intros n acc H; [done|]. cbn [udigits].
    assert (Forall (fun c => 48 <= c <= 57) (48 + n mod 10 :: acc)).
    { constructor; [|done]. pose proof (Z.mod_pos_bound n 10 ltac:(lia)). lia. }
    destruct (n <? 10); [done|]. by apply IH. }
  apply H. constructor.
Qed.

(** Only a negative number is printed with a sign. *)
Lemma fmt_int_sign zero w n : chr "-" ∈ fmt_int zero w n <-> n < 0.
Proof.
  assert (Hpad : forall c w n, c ≠ chr "-" -> 0 <= n -> chr "-" ∉ pad_left c w (utoa n)).
  { intros c w' m Hc Hm Hin. apply elem_of_app in Hin as [Hin|Hin].
    - apply elem_of_replicate in Hin as [Heq _]. by apply Hc.
    - pose proof (utoa_digits m Hm) as Hd. rewrite Forall_forall in Hd.
      specialize (Hd (chr "-") Hin). change (chr "-") with 45 in Hd. lia. }
  unfold fmt_int, itoa. destruct (n <? 0) eqn:Hn.
  - apply Z.ltb_lt in Hn. split; [done|]. intros _. destruct zero; [left|].
    unfold pad_left. apply elem_of_app. right. left.
  - apply Z.ltb_ge in Hn. split; [|lia].
    destruct zero; intros H; exfalso; revert H; apply Hpad; done.
Qed.

(** The configurations for which routing and migration agree. *)
Record well_sharded (c : TableShardingConfig) : Prop := {
  ws_raw : ShardingKeyByRawValue c = false;
  ws_expr : ShardingKeyExpr c = None;
  ws_shards : 0 < NumberOfShards c;
  ws_format : IntFormat (suffixFormat c)
}.

Lemma well_sharded_suffix ext c values s l :
  well_sharded c -> shardingFunc ext c values = Ok s -> suffixes c = Ok l -> s ∈ l.
Proof.
  intros [Hr He Hn Hf] Hs Hl. unfold shardingFunc, shard_by_checksum in Hs.
  rewrite Hr, He in Hs. destruct (write_values ext values) as [w| | |]; simpl in Hs; [|done..].
  eapply (shard_in_suffixes c _ (ChecksumIEEE w mod NumberOfShards c)); [done|done| |exact Hs|done].
  apply Z.mod_pos_bound. lia.
Qed.

Lemma well_sharded_suffixes c : well_sharded c -> exists l, suffixes c = Ok l.
Proof. intros [Hr _ _ Hf]. destruct (suffixes_int c Hr Hf) as (g & _ & H & _). by eexists. Qed.

(** ** Claims *)

(** A table [orders] sharded by [user_id] over 16 tables. *)
Definition sample_config : TableShardingConfig :=
  mkConfig (str "db") (str "orders") [str "user_id"] None false [] 16 [] false.

(** A [cast] library restricted to values that need no conversion. *)
Definition sample_ext : External := {|
  cast_ToInt := fun v => match v with VInt n => n | _ => 0 end;
  cast_ToUint := fun v => match v with VUint n => n | _ => 0 end;
  cast_ToStringE := fun v => match v with
    | VString s => Ok s
    | VUintN 8 n => Ok (utoa n)
    | _ => Err (ErrExternal [])
    end;
  cast_ToFloat64 := fun v => match v with VInt n => FFin n 0 | _ => FNaN end;
  cast_ToUint64E := fun v => match v with VUintN 8 n => Ok n | _ => Err (ErrExternal []) end;
  uuid_Parse := fun _ => None;
  big_Float_gob := fun _ => None
|}.

#[global] Instance sample_ext_laws : ExternalLaws sample_ext.
Proof. by split. Qed.

Lemma sample_config_int : IntFormat (suffixFormat sample_config).
Proof. apply suffixFormat_int; [done| |done]. split; repeat constructor; done. Qed.

Lemma sample_config_ok : well_sharded sample_config.
Proof. split; [done|done|done|apply sample_config_int]. Qed.

(** The tables of a migration are pairwise distinct and as many as there are shards. *)
Theorem suffixes_distinct c l :
  ShardingKeyByRawValue c = false -> IntFormat (suffixFormat c) -> suffixes c = Ok l ->
  NoDup l /\ length l = Z.to_nat (NumberOfShards c).
Proof.
  intros Hr Hf Hl. destruct (suffixes_int c Hr Hf) as (g & _ & Hsuf & Hinj).
  rewrite Hsuf in Hl. injection Hl as <-. rewrite length_map, length_seq. split; [|done].
  apply (NoDup_fmap_2_strong (fun i => g (Z.of_nat i))); [|apply NoDup_ListNoDup, seq_NoDup].
  intros i j _ _ H. apply Hinj in H; lia.
Qed.

Lemma suffixes_distinct_witness :
  exists l, suffixes sample_config = Ok l /\ NoDup l /\ length l = 16%nat.
Proof.
  eexists. split; [vm_compute; reflexivity|].
  apply (suffixes_distinct sample_config); [done|apply sample_config_int|vm_compute; reflexivity].
Defined.

(** Fewer than 10000 shards and no verb in the configured names give a format with one integer
    verb, so the tables of such a configuration satisfy the two properties above. *)
Theorem default_format_int c :
  ShardingKeyByRawValue c = false -> plain_suffix c -> NumberOfShards c < 10000 ->
  IntFormat (suffixFormat c).
Proof. apply suffixFormat_int. Qed.

Lemma default_format_int_witness : IntFormat (suffixFormat sample_config).
Proof. apply default_format_int; [done| |done]. split; repeat constructor; done. Defined.

(** With 10000 shards or more, which [DefaultTableSharding] accepts, the suffix format has no
    verb; rows are then routed to tables that no migration creates. *)
Theorem many_shards_not_migrated ext c values s :
  ShardingKeyByRawValue c = false -> ShardingKeyExpr c = None -> plain_suffix c ->
  10000 <= NumberOfShards c -> shardingFunc ext c values = Ok s ->
  exists l, suffixes c = Ok l /\ s ∉ l.
Proof.
  intros Hr He Hp Hn Hs.
  assert (Hfmt : suffixFormat c = format_base c).
  { rewrite (suffixFormat_plain c Hr Hp). repeat match goal with
    | |- context [NumberOfShards c <? ?k] => replace (NumberOfShards c <? k) with false by lia
    end. apply app_nil_r. }
  assert (Hformat : forall a,
    format (suffixFormat c) a = Ok (format_base c ++ str "%!(EXTRA " ++ arg_report a ++ str ")")).
  { intros a. unfold format, Sprintf. rewrite Hfmt.
    destruct (sprintf_text (S (length (format_base c))) (format_base c) a
      (format_base_no_percent c Hp) ltac:(lia)) as [_ ->]. done. }
  unfold shardingFunc, shard_by_checksum in Hs. rewrite Hr, He in Hs.
  destruct (write_values ext values) as [w| | |]; cbn [out_bind] in Hs; [|done..].
  rewrite Hformat in Hs. apply Ok_inj in Hs as <-. unfold suffixes. rewrite Hr.
  eexists. split; [exact (format_all_spec c _ _ (fun a _ => Hformat a))|].
  rewrite map_map. intros Hin. apply list_elem_of_fmap in Hin as (i & Heq & _).
  apply app_inv_head in Heq. discriminate Heq.
Qed.

Definition many_config : TableShardingConfig :=
  mkConfig (str "db") (str "orders") [str "user_id"] None false [] 10000 [] false.

Lemma many_shards_not_migrated_witness :
  DefaultTableSharding many_config = Ok (mkTableSharding many_config false []) /\
  exists s, shardingFunc sample_ext many_config [VInt 42] = Ok s /\
    exists l, suffixes many_config = Ok l /\ s ∉ l.
Proof.
  split; [reflexivity|]. eexists. split; [vm_compute; reflexivity|].
  apply (many_shards_not_migrated sample_ext many_config [VInt 42]);
    [done|done|split; repeat constructor; done|done|vm_compute; reflexivity].
Defined.

(** C36: by checksum, a row is routed to a table that the migration creates, whenever the suffix format has one
    integer verb (written in [CustomSuffix], or added by the code); when the configured names contain no
    verb, this is so for every row with fewer than 10000 shards and for no row with 10000 or more. *)
Theorem checksum_suffix_migrated ext c values s :
  ShardingKeyByRawValue c = false -> ShardingKeyExpr c = None -> 0 < NumberOfShards c ->
  shardingFunc ext c values = Ok s ->
  (IntFormat (suffixFormat c) -> exists l, suffixes c = Ok l /\ s ∈ l) /\
  (plain_suffix c -> exists l, suffixes c = Ok l /\ (s ∈ l <-> NumberOfShards c < 10000)).
Proof.
  intros Hr He Hn Hs.
  assert (Hint : IntFormat (suffixFormat c) -> exists l, suffixes c = Ok l /\ s ∈ l).
  { intros Hf. assert (Hc : well_sharded c) by by split. destruct (well_sharded_suffixes c Hc) as [l Hl].
    exists l. split; [done|]. by eapply well_sharded_suffix. }
  split; [exact Hint|]. intros Hp. destruct (Z_lt_le_dec (NumberOfShards c) 10000) as [Hlt|Hge].
  - destruct (Hint (suffixFormat_int c Hr Hp Hlt)) as (l & Hl & Hin). by exists l.
  - destruct (many_shards_not_migrated ext c values s Hr He Hp Hge Hs) as (l & Hl & Hnot). exists l.
    split; [done|]. split; [done|lia].
Qed.

Lemma checksum_suffix_migrated_witness :
  shardingFunc sample_ext sample_config [VInt 42] = Ok (str "_user_id_11") /\
  (exists l, suffixes sample_config = Ok l /\ str "_user_id_11" ∈ l) /\
  exists s, shardingFunc sample_ext many_config [VInt 42] = Ok s /\
    exists l, suffixes many_config = Ok l /\ (s ∈ l <-> 10000 < 10000).
Proof.
  assert (H : shardingFunc sample_ext sample_config [VInt 42] = Ok (str "_user_id_11"))
    by (vm_compute; reflexivity).
  split; [exact H|]. split.
  - refine (proj1 (checksum_suffix_migrated sample_ext sample_config _ _ eq_refl eq_refl _ H) _); [done|exact sample_config_int].
  - eexists. split; [vm_compute; reflexivity|].
    refine (proj2 (checksum_suffix_migrated sample_ext many_config [VInt 42] _ eq_refl eq_refl _ _) _); [done|vm_compute; reflexivity|].
    split; repeat constructor; done.
Defined.

(** By expression, a row is routed to a table of the migration exactly when the remainder of
    the (truncated) result is not negative; [math.Mod] keeps the sign of the result. *)
Theorem expr_suffix_migrated ext c eval values params r m e s l :
  ShardingKeyByRawValue c = false -> ShardingKeyExpr c = Some eval ->
  0 < NumberOfShards c -> IntFormat (suffixFormat c) ->
  expr_params (ShardingKeys c) values ∅ = Ok params -> eval params = Ok r ->
  cast_ToFloat64 ext r = FFin m e ->
  shardingFunc ext c values = Ok s -> suffixes c = Ok l ->
  s ∈ l <-> 0 <= Z.rem (trunc_float m e) (NumberOfShards c).
Proof.
  intros Hr He Hn Hf Hps Hev Hfl Hs Hl.
  unfold shardingFunc, shard_by_expr in Hs. rewrite Hr, He, Hps in Hs. cbn [out_bind] in Hs.
  rewrite Hev in Hs. cbn [out_bind] in Hs. rewrite Hfl in Hs. cbn [float_mod] in Hs.
  set (k := Z.rem _ _) in *. split.
  - intros Hin. destruct (format_int _ Hf) as (pre & zero & w & post & Hg).
    destruct (suffixes_int c Hr Hf) as (g & Hg' & Hsuf & _). rewrite Hsuf in Hl. injection Hl as <-.
    apply list_elem_of_fmap in Hin as (i & -> & _). rewrite Hg in Hs. apply Ok_inj in Hs.
    pose proof (Hg' (str "int64") (Z.of_nat i)) as Hi. rewrite Hg in Hi. apply Ok_inj in Hi.
    rewrite <- Hi in Hs. apply app_inv_head, app_inv_tail in Hs.
    destruct (Z_lt_le_dec k 0) as [Hk|Hk]; [|done].
    apply (fmt_int_sign zero w) in Hk. rewrite Hs in Hk. apply fmt_int_sign in Hk. lia.
  - intros Hk. eapply shard_in_suffixes; [done|done| |exact Hs|done].
    split; [done|]. unfold k.
    pose proof (Z.rem_bound_abs (trunc_float m e) (NumberOfShards c) ltac:(lia)). lia.
Qed.

(** [user_id - 10] over the tables of [sample_config]. *)
Definition sample_expr_config : TableShardingConfig :=
  mkConfig (str "db") (str "orders") [str "user_id"]
    (Some (fun params => match params !! str "user_id" with
       | Some (VInt n) => Ok (VInt (n - 10))
       | _ => Err (ErrExternal [])
       end)) false [] 16 [] false.

Lemma expr_suffix_migrated_witness :
  (exists l, shardingFunc sample_ext sample_expr_config [VInt 3] = Ok (str "_user_id_-7") /\
    suffixes sample_expr_config = Ok l /\
    (str "_user_id_-7" ∈ l <-> 0 <= Z.rem (trunc_float (-7) 0) 16)).
Proof.
  eexists. split; [vm_compute; reflexivity|]. split; [vm_compute; reflexivity|].
  apply (expr_suffix_migrated sample_ext sample_expr_config
    (match ShardingKeyExpr sample_expr_config with Some f => f | None => fun _ => Panic [] end)
    [VInt 3] {[str "user_id" := VInt 3]} (VInt (-7))); try (vm_compute; reflexivity).
  apply suffixFormat_int; [done| |done]. split; repeat constructor; done.
Defined.

(** By raw value and without a custom suffix, a row is routed to a table of the migration when
    its joined key values are among the keys configured for migrating. *)
Theorem raw_suffix_migrated ext c values data s :
  ShardingKeyByRawValue c = true -> IsStrBlank (CustomSuffix c) = true ->
  raw_data ext values = Ok data -> Join data Underline ∈ ShardingKeysForMigrating c ->
  shardingFunc ext c values = Ok s ->
  s = Underline ++ Join data Underline /\ exists l, suffixes c = Ok l /\ s ∈ l.
Proof.
  intros Hr Hc Hd Hin Hs.
  assert (Hfmt : suffixFormat c = str "_%s").
  { unfold suffixFormat, IsStrNotBlank. by rewrite Hr, Hc. }
  assert (Hformat : forall k, format (str "_%s") (FmtString k) = Ok (Underline ++ k)).
  { intros k. unfold format. cbn. unfold pad_left. simpl. by rewrite app_nil_r. }
  unfold shardingFunc, shard_by_raw in Hs. rewrite Hr, Hd in Hs. cbn [out_bind] in Hs.
  rewrite Hformat in Hs. apply Ok_inj in Hs as <-. split; [done|].
  unfold suffixes. rewrite Hr.
  destruct (ShardingKeysForMigrating c) as [|k0 ks] eqn:Hks; [by apply elem_of_nil in Hin|].
  cbn [length Nat.eqb]. eexists. split.
  - apply (format_all_spec c _ (fun a => match a with FmtString k => Underline ++ k | _ => [] end)).
    intros a Ha. apply list_elem_of_fmap in Ha as (k & -> & _). by rewrite Hfmt, Hformat.
  - rewrite map_map. apply list_elem_of_fmap. by eexists.
Qed.

(** Rows in a table per region. *)
Definition raw_config (custom : gostring) : TableShardingConfig :=
  mkConfig (str "db") (str "orders") [str "region"] None true [str "eu"; str "us"] 0 custom false.

Lemma raw_suffix_migrated_witness :
  str "_eu" = Underline ++ Join [str "eu"] Underline /\
  exists l, suffixes (raw_config []) = Ok l /\ str "_eu" ∈ l.
Proof.
  apply (raw_suffix_migrated sample_ext (raw_config []) [VString (str "eu")]); try reflexivity.
  vm_compute. left.
Defined.

(** By raw value, a custom suffix changes the names of the migrated tables but not the routing:
    the row of region [eu] goes to [orders_eu], the migration creates [orders_user_eu]. *)
Theorem raw_custom_suffix_diverges :
  shardingFunc sample_ext (raw_config (str "user")) [VString (str "eu")] = Ok (str "_eu") /\
  suffixes (raw_config (str "user")) = Ok [str "_user_eu"; str "_user_us"].
Proof. split; vm_compute; reflexivity. Qed.

(** The width of the Go type takes part in the checksum: the number 42 as an [int] and as an
    [int64] are routed to different tables. *)
Theorem int_width_changes_shard ext :
  ExternalLaws ext ->
  shardingFunc ext sample_config [VInt 42] = Ok (str "_user_id_11") /\
  shardingFunc ext sample_config [VIntN 8 42] = Ok (str "_user_id_15").
Proof.
  intros Hext. unfold shardingFunc, shard_by_checksum. cbn [sample_config ShardingKeyByRawValue
    ShardingKeyExpr write_values value_data]. rewrite cast_ToInt_int.
  split; vm_compute; reflexivity.
Qed.

Lemma int_width_changes_shard_witness :
  shardingFunc sample_ext sample_config [VInt 42] = Ok (str "_user_id_11") /\
  shardingFunc sample_ext sample_config [VIntN 8 42] = Ok (str "_user_id_15").
Proof. apply int_width_changes_shard. apply sample_ext_laws. Defined.

(** A slice of numbers as a sharding value is always an error: its elements are boxed in a
    [[]any], which [binary.Write] refuses. *)
Theorem int_slice_rejected ext c l :
  ShardingKeyByRawValue c = false -> ShardingKeyExpr c = None ->
  exists e, shardingFunc ext c [VInts l] = Err e.
Proof. intros Hr He. unfold shardingFunc. rewrite Hr, He. by eexists. Qed.

Lemma int_slice_rejected_witness : exists e, shardingFunc sample_ext sample_config [VInts [1]] = Err e.
Proof. by apply int_slice_rejected. Defined.
