(* ===== verification/ShardSql.v ===== *)
(** * Rewriting SQL for a sharded table (db/plugins/table_sharding.go)

    [dispatchTableBySQL] parses the statement gorm has built, finds the values of the sharding keys
    in it ([insertValue], [nonInsertValue]), computes the suffix and writes the statement back with
    the physical table name. The helpers that look for equalities or rename qualified columns are
    walks of the syntax tree with the closures of the source as visitors.

    The plugin's surroundings are parameters: the migrator of gorm ([Migrator]) and the generator of
    primary keys ([Generator]). Calls of [db.AddError] append to [db_errors]. *)

From stdpp Require Import base list strings numbers option gmap.
From S2P Require Import Prelude SqlToken SqlLexer SqlAst SqlParser SqlWalk ShardKey.

(** ** Surroundings *)

(** [idgen.Generator]. *)
Class Generator (G : Type) := Next : G -> outcome ShardError Z * G.

(** [gorm.Migrator], over the state [W] of the database; a model is a value of [Model]. *)
Class Migrator (W Model : Type) := {
  HasTable : W -> gostring -> bool;
  AutoMigrate : gostring -> option Model -> W -> outcome ShardError W
}.

(** [gorm.DB] with the fields of its [Statement] that the plugin uses. *)
Record DB (Model : Type) := mkDB {
  db_SQL : gostring;
  db_Vars : list GoValue;
  db_Table : gostring;
  db_Model : option Model;
  db_errors : list ShardError
}.
Arguments mkDB {Model} _ _ _ _ _.
Arguments db_SQL {Model} _.
Arguments db_Vars {Model} _.
Arguments db_Table {Model} _.
Arguments db_Model {Model} _.
Arguments db_errors {Model} _.

(** The mutable state of the plugin and of its surroundings. *)
Record Plugin (W G Model : Type) := mkPlugin {
  shardingTableCreated : gset gostring;
  shardingTableModel : option Model;
  pl_world : W;
  pl_gen : G
}.
Arguments mkPlugin {W G Model} _ _ _ _.
Arguments shardingTableCreated {W G Model} _.
Arguments shardingTableModel {W G Model} _.
Arguments pl_world {W G Model} _.
Arguments pl_gen {W G Model} _.

Definition AddError {Model} (e : ShardError) (db : DB Model) : DB Model :=
  mkDB (db_SQL db) (db_Vars db) (db_Table db) (db_Model db) (db_errors db ++ [e]).

Definition set_SQL {Model} (sql : gostring) (db : DB Model) : DB Model :=
  mkDB sql (db_Vars db) (db_Table db) (db_Model db) (db_errors db).

(** [args[i]]; an index out of range panics. *)
Definition arg_at (args : list GoValue) (i : Z) : outcome ShardError GoValue :=
  if i <? 0 then Panic (str "runtime error: index out of range")
  else match args !! Z.to_nat i with
  | Some v => Ok v
  | None => Panic (str "runtime error: index out of range")
  end.

(** ** Values of an INSERT *)

(** [strconv.ParseUint(s, 10, 64)]. *)
Definition ParseUint (s : gostring) : outcome ShardError Z :=
  if (length s =? 0)%nat || negb (forallb isDigit s) then
    Err (ErrExternal (str "invalid syntax"))
  else
    let n := foldl (fun a d => 10 * a + (d - 48)) 0 s in
    if n <? 2 ^ 64 then Ok n else Err (ErrExternal (str "value out of range")).

(** [if err != nil { return nil, 0, errors.Wrapf(err, ...) }] *)
Definition wrap_id (r : outcome ShardError Z) : outcome ShardError Z :=
  match r with Err e => Err (ErrParseID e) | _ => r end.

Section Values.
Context (ext : External) (t : tableSharding).

(** The value of one column: the values to append and the id. *)
Definition insert_one (isPrimaryKey : bool) (args : list GoValue) (x : Expr) (id : Z) :
    outcome ShardError (list GoValue * Z) :=
  match x with
  | EBindExpr _ pos =>
      v ⇐ arg_at args pos;
      if negb isPrimaryKey then Ok ([v], id)
      else
        id ⇐ match v with
          | VInt _ | VUint _ | VIntN _ _ | VUintN _ _ | VFloat _ _ | VString _ =>
              wrap_id (cast_ToUint64E ext v)
          | _ => Err ErrInvalidID
          end;
        Ok (if id =? 0 then [] else [v], id)
  | EStringLit v =>
      if negb isPrimaryKey then Ok ([VString v], id)
      else
        id ⇐ wrap_id (cast_ToUint64E ext (VString v));
        Ok (if id =? 0 then [] else [VString v], id)
  | ENumberLit v =>
      if negb isPrimaryKey then Ok ([VString v], id)
      else
        id ⇐ wrap_id (ParseUint v);
        Ok (if id =? 0 then [] else [VString v], id)
  | _ => Err (ErrSql ErrNotImplemented)
  end.

(** The first column called [key], with its expression. *)
Fixpoint find_column (key : gostring) (names : list Ident) (exprs : list Expr) : option Expr :=
  match names, exprs with
  | name :: names, x :: exprs => if Name name =s key then Some x else find_column key names exprs
  | _, _ => None
  end.

Fixpoint insert_keys (keys : list gostring) (names : list Ident) (exprs : list Expr)
    (args : list GoValue) (values : list GoValue) (id : Z) :
    outcome ShardError (list GoValue * Z) :=
  match keys with
  | [] => Ok (values, id)
  | key :: keys =>
      let isPrimaryKey := key =s shardingPrimaryKey t in
      match find_column key names exprs with
      | Some x =>
          '(vs, id) ⇐ insert_one isPrimaryKey args x id;
          insert_keys keys names exprs args (values ++ vs) id
      | None =>
          if isPrimaryKey then insert_keys keys names exprs args values id
          else Err ErrMissingShardingKey
      end
  end.

Definition insertValue (keys : list gostring) (names : list Ident) (exprs : list Expr)
    (args : list GoValue) : outcome ShardError (list GoValue * Z) :=
  if negb (length names =? length exprs)%nat then Err ErrColumnAndExprMisMatch
  else insert_keys keys names exprs args [] 0.

(** ** Value of a condition *)

(** What the closure of [nonInsertValue] captures: [found] and [value]. *)
Abbreviation Found := (bool * option GoValue)%type.

Definition equality_visit (key tableName : gostring) (args : list GoValue) (n : Node) :
    stM Found ShardError unit :=
  match n with
  | NExpr (EBinaryExpr x op y) =>
      if negb (op =t EQ) then ret tt
      else
        let matched := fun s : Found =>
          match y with
          | EBindExpr _ pos =>
              match arg_at args pos with
              | Ok v => Ok (tt, (true, Some v))
              | Err e => Err e
              | Panic msg => Panic msg
              | OutOfFuel => OutOfFuel
              end
          | EStringLit v | ENumberLit v => Ok (tt, (true, Some (VString v)))
          | _ => Err (ErrSql ErrNotImplemented)
          end in
        match x with
        | EIdent i => if negb (Name i =s key) then ret tt else matched
        | EQualifiedRef table _ column =>
            if negb (Name table =s tableName) then ret tt
            else match column with
            | None => panic nil_deref
            | Some c => if negb (Name c =s key) then ret tt else matched
            end
        | _ => matched
        end
  | _ => ret tt
  end.

Definition cond_node (condition : option Expr) : Node :=
  match condition with Some e => NExpr e | None => NNil end.

(** [fn] as a visitor that leaves the nodes as they are. *)
Definition read_visit {S E} (fn : Node -> stM S E unit) : Node -> stM S E Node := fun n =>
  (_ ← fn n; ret n).

Definition nonInsertValue (condition : option Expr) (key tableName : gostring)
    (args : list GoValue) : outcome ShardError (option GoValue) :=
  let n := cond_node condition in
  '(_, (found, value)) ⇐
    walk (VisitFunc (read_visit (equality_visit key tableName args))) (node_size n) tt n
      (false, None);
  if negb found then Err ErrMissingShardingKey else Ok value.
End Values.

(** ** Renaming the table in qualified columns *)

Definition rename_ident (old new : gostring) (i : Ident) : Ident :=
  if Name i =s old then mkIdent new (Quoted i) (QuoteChar i) else i.

(** The closure of [replaceCondition]: a qualified column on the left of a binary operator. *)
Definition condition_visit (old new : gostring) (n : Node) : Node :=
  match n with
  | NExpr (EBinaryExpr (EQualifiedRef table star column) op y) =>
      NExpr (EBinaryExpr (EQualifiedRef (rename_ident old new table) star column) op y)
  | _ => n
  end.

Definition replaceCondition (condition : option Expr) (old new : gostring) :
    outcome ShardError (option Expr) :=
  let n := cond_node condition in
  '(n, _) ⇐ walk (VisitFunc (fun n => ret (condition_visit old new n))) (node_size n) tt n tt;
  Ok (match n with NExpr e => Some e | _ => condition end).

(** The closure of [replaceConstraint]: every qualified column. *)
Definition constraint_visit (old new : gostring) (n : Node) : Node :=
  match n with
  | NExpr (EQualifiedRef table star column) =>
      NExpr (EQualifiedRef (rename_ident old new table) star column)
  | _ => n
  end.

Definition replaceConstraint (con : option JoinConstraint) (old new : gostring) :
    outcome ShardError (option JoinConstraint) :=
  let n := match con with Some c => NJoinConstraint c | None => NNil end in
  '(n, _) ⇐ walk (VisitFunc (fun n => ret (constraint_visit old new n))) (node_size n) tt n tt;
  Ok (match n with NJoinConstraint c => Some c | _ => con end).

Definition replaceOrderByTableName (orderBy : list OrderingTerm) (old new : gostring) :
    list OrderingTerm :=
  map (fun term => match term with
    | mkOrderingTerm (EQualifiedRef table star column) asc desc nf nl =>
        mkOrderingTerm (EQualifiedRef (rename_ident old new table) star column) asc desc nf nl
    | _ => term
    end) orderBy.

(** ** Dispatching a statement *)

Section Dispatch.
Context {W G Model : Type} {GEN : Generator G} {MIG : Migrator W Model}.
Context (ext : External) (t : tableSharding).

Abbreviation Pl := (Plugin W G Model).

Definition set_created (name : gostring) (p : Pl) : Pl :=
  mkPlugin ({[name]} ∪ shardingTableCreated p) (shardingTableModel p) (pl_world p) (pl_gen p).
Definition set_world (w : W) (p : Pl) : Pl :=
  mkPlugin (shardingTableCreated p) (shardingTableModel p) w (pl_gen p).
Definition set_gen (g : G) (p : Pl) : Pl :=
  mkPlugin (shardingTableCreated p) (shardingTableModel p) (pl_world p) g.

(** The migration is given the model of the statement, also when only the plugin's model is
    known. *)
Definition createTableIfNotExists (db : DB Model) (tableName suffix : gostring) (p : Pl) :
    outcome ShardError Pl :=
  let shardingTableName := tableName ++ suffix in
  if bool_decide (shardingTableName ∈ shardingTableCreated p) then Ok p
  else if HasTable (pl_world p) shardingTableName then Ok (set_created shardingTableName p)
  else
    let model := match db_Model db with Some m => Some m | None => shardingTableModel p end in
    match model with
    | None => Err ErrShardingModelNotFound
    | Some _ =>
        w ⇐ AutoMigrate shardingTableName (db_Model db) (pl_world p);
        Ok (set_created shardingTableName (set_world w p))
    end.

(** The closure [getSuffix]. *)
Fixpoint condition_values (keys : list gostring) (condition : option Expr)
    (tableName : gostring) (vars : list GoValue) : outcome ShardError (list GoValue) :=
  match keys with
  | [] => Ok []
  | key :: keys =>
      val ⇐ nonInsertValue condition key tableName vars;
      vals ⇐ condition_values keys condition tableName vars;
      Ok (default VOther val :: vals)
  end.

Definition getSuffix (condition : option Expr) (tableName : gostring) (vars : list GoValue) :
    outcome ShardError gostring :=
  values ⇐ condition_values (ShardingKeys (config t)) condition tableName vars;
  shardingFunc ext (config t) values.

Definition named (name : gostring) : TableName := mkTableName (mkIdent name false []) None.

(** *** INSERT *)

(** [t.config.PrimaryKeyGenerator.Next(...)] *)
Definition next_id : stE Pl ShardError Z := fun p =>
  let '(r, g) := Next (pl_gen p) in (r, set_gen g p).

(** [cast.ToString(id)] *)
Definition id_text (id : Z) : gostring :=
  match cast_ToStringE ext (VUintN 8 id) with Ok s => s | _ => [] end.

(** One row: the values of its keys. A missing or zero primary key is generated, and a column
    [id] is appended to the statement's columns [names] and to the row. *)
Definition insert_row (vars : list GoValue) (names : list Ident) (row : list Expr) :
    stE Pl ShardError (list Ident * list Expr * list GoValue) :=
  '(values, id) ↞ elift (insertValue ext t (ShardingKeys (config t)) names row vars);
  if isShardingPrimaryKey t && (id =? 0) then
    if negb (HasPrimaryKeyGenerator (config t)) then elift (Err ErrIDGeneratorNotFound)
    else
      id ↞ next_id;
      let names := names ++ [mkIdent (str "id") false []] in
      let row := row ++ [ENumberLit (id_text id)] in
      '(values, _) ↞ elift (match insertValue ext t (ShardingKeys (config t)) names row vars with
        | Err _ => Ok ([], 0)
        | r => r
        end);
      elift (Ok (names, row, values))
  else elift (Ok (names, row, values)).

(** The rows: all must have the same suffix. *)
Fixpoint insert_rows (vars : list GoValue) (names : list Ident) (rows : list (list Expr))
    (suffix : gostring) : stE Pl ShardError (list Ident * list (list Expr) * gostring) :=
  match rows with
  | [] => elift (Ok (names, [], suffix))
  | row :: rows =>
      '(names, row, values) ↞ insert_row vars names row;
      subSuffix ↞ elift (shardingFunc ext (config t) values);
      if negb (suffix =s []) && negb (suffix =s subSuffix) then elift (Err ErrDiffSuffixDML)
      else
        '(names, rows, suffix) ↞ insert_rows vars names rows subSuffix;
        elift (Ok (names, row :: rows, suffix))
  end.

(** [createTableIfNotExists] changes the plugin's state only when it succeeds. *)
Definition create_table (db : DB Model) (suffix : gostring) : stE Pl ShardError unit := fun p =>
  match createTableIfNotExists db (db_Table db) suffix p with
  | Ok p => (Ok tt, p)
  | Err e => (Err e, p)
  | Panic msg => (Panic msg, p)
  | OutOfFuel => (OutOfFuel, p)
  end.

(** The statement with its new table, or an error to report with [AddError]. *)
Definition dispatch_insert (stmt : InsertStatement) (db : DB Model) :
    stE Pl ShardError InsertStatement :=
  '(names, rows, suffix) ↞
    insert_rows (db_Vars db) (ins_ColumnNames stmt) (ins_Expressions stmt) [];
  _ ↞ create_table db suffix;
  elift (Ok (mkInsert (named (TableName_TableName (ins_TableName stmt) ++ suffix)) names
    (ins_Overriding stmt) (ins_DefaultValues stmt) rows (ins_Query stmt)
    (ins_UpsertClause stmt) (ins_OutputExpressions stmt))).

(** *** SELECT *)

(** Qualified columns of the select list. *)
Definition replace_columns (columns : list ResultColumn) (old new : gostring) :
    list ResultColumn :=
  map (fun c => match c with
    | mkResultColumn star (Some (EQualifiedRef table qstar column)) alias =>
        mkResultColumn star (Some (EQualifiedRef (rename_ident old new table) qstar column)) alias
    | _ => c
    end) columns.

Definition is_sharded (s : Source) : bool :=
  match s with STableName n => TableName_TableName n =s Table (config t) | _ => false end.

(** [tbl.Name.Name = newTableName] *)
Definition set_table (s : Source) (name : gostring) : Source :=
  match s with
  | STableName (mkTableName i alias) =>
      STableName (mkTableName (mkIdent name (Quoted i) (QuoteChar i)) alias)
  | _ => s
  end.

(** [parseSelectStatementFunc]: [None] when the statement is not for this table. *)
Definition dispatch_select (vars : list GoValue) (s : SelectStatement) :
    outcome ShardError (option SelectStatement) :=
  match s with
  | mkSelect hint all_ distinct columns from cond grouping having
      union unionall intersect except compound orderby limit fetch offset =>
      if bool_decide (hint = Some (str "nosharding")) then Ok None
      else match from with
      | Some (STableName tbl) =>
          if negb (TableName_TableName tbl =s Table (config t)) then Ok None
          else
            suffix ⇐ getSuffix cond (Table (config t)) vars;
            let old := TableName_TableName tbl in
            let new := old ++ suffix in
            let orderby := replaceOrderByTableName orderby old new in
            cond ⇐ replaceCondition cond old new;
            Ok (Some (mkSelect hint all_ distinct columns (Some (STableName (named new))) cond
              grouping having union unionall intersect except compound orderby limit fetch
              offset))
      | Some (SJoinClause x op y con) =>
          let isX := is_sharded x in
          let isY := is_sharded y in
          if negb isX && negb isY then Ok None
          else
            let old := Table (config t) in
            suffix ⇐ getSuffix cond old vars;
            let new := old ++ suffix in
            let orderby := replaceOrderByTableName orderby old new in
            cond ⇐ replaceCondition cond old new;
            con ⇐ replaceConstraint con old new;
            let '(x, y) := if isX then (set_table x new, y) else (x, set_table y new) in
            let columns := replace_columns columns old new in
            Ok (Some (mkSelect hint all_ distinct columns (Some (SJoinClause x op y con)) cond
              grouping having union unionall intersect except compound orderby limit fetch
              offset))
      | _ => Ok (Some s)
      end
  end.

Definition set_compound (s c : SelectStatement) : SelectStatement :=
  match s with
  | mkSelect hint all_ distinct columns from cond grouping having
      union unionall intersect except _ orderby limit fetch offset =>
      mkSelect hint all_ distinct columns from cond grouping having
        union unionall intersect except (Some c) orderby limit fetch offset
  end.

(** [for compound := stmt; compound != nil; compound = compound.Compound] *)
Fixpoint dispatch_compound (vars : list GoValue) (s : SelectStatement) :
    outcome ShardError (option SelectStatement) :=
  r ⇐ dispatch_select vars s;
  match r with
  | None => Ok None
  | Some s' =>
      match s with
      | mkSelect _ _ _ _ _ _ _ _ _ _ _ _ (Some c) _ _ _ _ =>
          rc ⇐ dispatch_compound vars c;
          Ok (set_compound s' <$> rc)
      | _ => Ok (Some s')
      end
  end.

(** *** UPDATE and DELETE *)

Definition dispatch_update (vars : list GoValue) (s : UpdateStatement) :
    outcome ShardError UpdateStatement :=
  suffix ⇐ getSuffix (upd_Condition s) (Table (config t)) vars;
  let old := TableName_TableName (upd_TableName s) in
  let new := old ++ suffix in
  cond ⇐ replaceCondition (upd_Condition s) old new;
  Ok (mkUpdate (upd_Only s) (named new) (upd_TableStar s) (upd_Alias s) (upd_Assignments s)
    (upd_FromList s) cond (upd_CursorName s) (upd_OutputExpressions s)).

Definition dispatch_delete (vars : list GoValue) (s : DeleteStatement) :
    outcome ShardError DeleteStatement :=
  suffix ⇐ getSuffix (del_Condition s) (Table (config t)) vars;
  let old := TableName_TableName (del_TableName s) in
  let new := old ++ suffix in
  cond ⇐ replaceCondition (del_Condition s) old new;
  Ok (mkDelete (del_Only s) (named new) (del_TableStar s) (del_Alias s) (del_UsingList s) cond
    (del_CursorName s) (del_OutputExpressions s)).

(** *** The whole *)

(** What [dispatchTableBySQL] returns next to the state: [ok] and the parser's error. *)
Abbreviation Dispatched := (outcome Empty_set ((bool * option GoError) * DB Model * Pl)).

(** Writes the statement back, or reports an error [n] times: an error of [getSuffix] is added
    by it and by its caller. *)
Definition finish {A} (n : nat) (print : A -> printed) (r : outcome ShardError A) (db : DB Model)
    (p : Pl) : Dispatched :=
  match r with
  | Ok s => newSQL ⇐ print s; Ok ((true, None), set_SQL newSQL db, p)
  | Err e => Ok ((false, None), Nat.iter n (AddError e) db, p)
  | Panic msg => Panic msg
  | OutOfFuel => OutOfFuel
  end.

Definition dispatchTableBySQL (db : DB Model) (p : Pl) : Dispatched :=
  match ParseStatementString (db_SQL db) with
  | Err e => Ok ((false, Some e), db, p)
  | Panic msg => Panic msg
  | OutOfFuel => OutOfFuel
  | Ok (StInsert s) =>
      if negb (TableName_TableName (ins_TableName s) =s Table (config t)) then
        Ok ((false, None), db, p)
      else
        let '(r, p) := dispatch_insert s db p in
        finish 1 InsertStatement_String r db p
  | Ok (StSelect s) =>
      match dispatch_compound (db_Vars db) s with
      | Ok None => Ok ((false, None), db, p)
      | Ok (Some s) => finish 2 SelectStatement_String (Ok s) db p
      | Err e => finish 2 SelectStatement_String (Err e) db p
      | Panic msg => Panic msg
      | OutOfFuel => OutOfFuel
      end
  | Ok (StUpdate s) =>
      if negb (TableName_TableName (upd_TableName s) =s Table (config t)) then
        Ok ((false, None), db, p)
      else finish 2 UpdateStatement_String (dispatch_update (db_Vars db) s) db p
  | Ok (StDelete s) =>
      if negb (TableName_TableName (del_TableName s) =s Table (config t)) then
        Ok ((false, None), db, p)
      else finish 2 DeleteStatement_String (dispatch_delete (db_Vars db) s) db p
  end.
End Dispatch.
