(* ===== verification/ShardSqlSpec.v ===== *)
(** * What the SQL rewriting guarantees

    The renaming walks do what they are for and nothing else fails; the value taken for a sharding
    key comes from an equality of the condition; a rewritten statement is the parsed one with its table
    replaced ([rerouted]) and names a table that the migration creates ([routed]); a statement that is not
    rewritten is left as it was; the rows of an INSERT all belong to the table it is sent to
    ([rows_routed]); the tables recorded as created exist. *)

From Stdlib Require Import Setoid Morphisms.
From stdpp Require Import base list strings numbers option gmap.
From S2P Require Import Prelude SqlToken SqlLexer SqlAst SqlParser SqlWalk SqlWalkSpec.
From S2P Require Import ShardKey ShardKeySpec ShardSql.

(** ** Renaming *)

Lemma condition_visit_size old new n : node_size (condition_visit old new n) = node_size n.
Proof.
  by destruct n as [|[| | | | | | | |[]| | | | | | |]| | | | | | | | | | | | | | | |].
Qed.

Lemma condition_visit_kind old new n : kind (condition_visit old new n) = kind n.
Proof.
  by destruct n as [|[| | | | | | | |[]| | | | | | |]| | | | | | | | | | | | | | | |].
Qed.

Lemma constraint_visit_size old new n : node_size (constraint_visit old new n) = node_size n.
Proof. by destruct n as [|[]| | | | | | | | | | | | | | | |]. Qed.

Lemma constraint_visit_kind old new n : kind (constraint_visit old new n) = kind n.
Proof. by destruct n as [|[]| | | | | | | | | | | | | | | |]. Qed.

(** The condition after [replaceCondition]. *)
Definition rename_condition (old new : gostring) (c : option Expr) : option Expr :=
  (fun e => as_expr e (rewrite_node (condition_visit old new) (NExpr e))) <$> c.

Lemma replaceCondition_eq c old new :
  replaceCondition c old new = Ok (rename_condition old new c).
Proof.
  unfold replaceCondition. rewrite (walk_rewrite _ (condition_visit_size old new)) by done. simpl.
  destruct c as [e|]; [|done]. simpl. f_equal.
  pose proof (rewrite_node_kind _ (condition_visit_size old new) (condition_visit_kind old new)
    (NExpr e)) as Hk.
  destruct (rewrite_node _ (NExpr e)) as [| | | | | | | | |[]| | | | | | | |]; try done;
    destruct e; done.
Qed.

Definition rename_constraint (old new : gostring) (c : option JoinConstraint) :
    option JoinConstraint :=
  (fun x => as_constraint x (rewrite_node (constraint_visit old new) (NJoinConstraint x))) <$> c.

Lemma replaceConstraint_eq c old new :
  replaceConstraint c old new = Ok (rename_constraint old new c).
Proof.
  unfold replaceConstraint. rewrite (walk_rewrite _ (constraint_visit_size old new)) by done. simpl.
  destruct c as [x|]; [|done]. simpl. f_equal.
  pose proof (rewrite_node_kind _ (constraint_visit_size old new) (constraint_visit_kind old new)
    (NJoinConstraint x)) as Hk.
  destruct (rewrite_node _ (NJoinConstraint x)) as [|[]| | | | | | | |[]| | | | | | | |]; done.
Qed.

Lemma rename_ident_name old new i : new ≠ old -> Name (rename_ident old new i) ≠ old.
Proof.
  intros H. unfold rename_ident, streqb. case_bool_decide as Hi; simpl; [done|exact Hi].
Qed.

(** A comparison (or other binary operator) with a column of [table] on its left. *)
Definition left_ref (table : gostring) (n : Node) : Prop :=
  match n with
  | NExpr (EBinaryExpr (EQualifiedRef t _ _) _ _) => Name t = table
  | _ => False
  end.

(** A column qualified with [table]. *)
Definition qualified (table : gostring) (n : Node) : Prop :=
  match n with NExpr (EQualifiedRef t _ _) => Name t = table | _ => False end.

Section Rename.
Context (old new : gostring).

Section Visit.
(** A visitor that keeps identifiers and, of a qualified column, at most renames the table. *)
Context (v : Node -> Node) (Hsize : forall n, node_size (v n) = node_size n).
Context (Hkind : forall n, kind (v n) = kind n).
Context (Hident : forall i, v (NExpr (EIdent i)) = NExpr (EIdent i)).

Lemma rewrite_ident i : rewrite_node v (NExpr (EIdent i)) = NExpr (EIdent i).
Proof. by rewrite (rewrite_node_eq _ Hsize), Hident. Qed.

Lemma rewrite_mIdent i : mIdent (rewrite_node v) i = i.
Proof. unfold mIdent, map_as, ident_node. by rewrite rewrite_ident. Qed.

(** Rewriting a qualified column rewrites it alone. *)
Lemma rewrite_ref t star c :
  exists t' star' c', v (NExpr (EQualifiedRef t star c)) = NExpr (EQualifiedRef t' star' c') /\
    rewrite_node v (NExpr (EQualifiedRef t star c)) = NExpr (EQualifiedRef t' star' c').
Proof.
  pose proof (Hkind (NExpr (EQualifiedRef t star c))) as Hk.
  rewrite (rewrite_node_eq _ Hsize).
  destruct (v (NExpr (EQualifiedRef t star c))) as [|[]| | | | | | | |[]| | | | | | | |];
    try done.
  do 3 eexists. split; [done|]. cbn [map_children map_expr]. rewrite rewrite_mIdent.
  repeat f_equal. destruct Column; simpl; [|done]. by rewrite rewrite_mIdent.
Qed.

Lemma rewrite_ref_inv e t star c :
  mExpr (rewrite_node v) e = EQualifiedRef t star c -> exists t0 star0 c0,
    e = EQualifiedRef t0 star0 c0 /\
    v (NExpr (EQualifiedRef t0 star0 c0)) = NExpr (EQualifiedRef t star c).
Proof.
  unfold mExpr, map_as. intros He. pose proof (rewrite_node_kind v Hsize Hkind (NExpr e)) as Hk.
  destruct e; try (destruct (rewrite_node v _) as [|[]| | | | | | | |[]| | | | | | | |];
    simpl in *; discriminate).
  destruct (rewrite_ref Table Star Column) as (t' & star' & c' & Hv & Hrw).
  rewrite Hrw in He. simpl in He. injection He as -> -> ->. by eauto.
Qed.
End Visit.

Context (Hne : new ≠ old).

Lemma rename_left_head n :
  ~ left_ref old (map_children (rewrite_node (condition_visit old new))
      (condition_visit old new n)).
Proof.
  pose proof (rewrite_ref_inv _ (condition_visit_size old new) (condition_visit_kind old new)
    ltac:(done)) as Hinv.
  destruct (condition_visit old new n) as [|e|[]|[]|[]|[]| | |[]|s|s| | | | | | |] eqn:Hv;
    try (intros []; fail).
  cbn [map_children]. destruct e; try (intros []; fail). cbn [map_expr].
  destruct (mExpr _ e1) as [| | | | | | | | | | | | |t star c| |] eqn:Hx; try (intros []; fail).
  destruct (Hinv _ _ _ _ Hx) as (t0 & star0 & c0 & -> & Ht). injection Ht as -> -> ->.
  simpl. destruct n as [|[| | | | | | | |[]| | | | | | |]| | | | | | | | | | | | | | | |];
    try discriminate Hv. injection Hv as <- _ _ _ _. by apply rename_ident_name.
Qed.

Lemma rename_ref_head n :
  ~ qualified old (map_children (rewrite_node (constraint_visit old new))
      (constraint_visit old new n)).
Proof.
  destruct (constraint_visit old new n) as [|e|[]|[]|[]|[]| | |[]|s|s| | | | | | |] eqn:Hv;
    try (intros []; fail).
  cbn [map_children]. destruct e; try (intros []; fail). cbn [map_expr].
  rewrite (rewrite_mIdent _ (constraint_visit_size old new)) by done. simpl.
  destruct n as [|[]| | | | | | | | | | | | | | | |]; try discriminate Hv.
  injection Hv as <- _ _. by apply rename_ident_name.
Qed.
End Rename.

(** ** Values of the sharding keys *)

(** The left side of an equality that is taken for the key: a column called [key], of [table] if it
    is qualified, or anything that is not a column. *)
Definition takes_key (key table : gostring) (x : Expr) : bool :=
  match x with
  | EIdent i => Name i =s key
  | EQualifiedRef t _ (Some c) => (Name t =s table) && (Name c =s key)
  | EQualifiedRef _ _ None => false
  | _ => true
  end.

(** The value an equality gives to the key. *)
Definition equality_value (key table : gostring) (args : list GoValue) (n : Node) :
    option GoValue :=
  match n with
  | NExpr (EBinaryExpr x EQ y) =>
      if takes_key key table x then
        match y with
        | EBindExpr _ pos => match arg_at args pos with Ok v => Some v | _ => None end
        | EStringLit v | ENumberLit v => Some (VString v)
        | _ => None
        end
      else None
  | _ => None
  end.

Section Equality.
Context (key table : gostring) (args : list GoValue).
Abbreviation visit := (equality_visit key table args).
Abbreviation val := (equality_value key table args).

Lemma read_visit_reader {S E} (fn : Node -> stM S E unit) : reader fn (read_visit fn).
Proof. intros n. reflexivity. Qed.

Lemma nonInsertValue_iter c :
  nonInsertValue c key table args =
    ('(_, (found, value)) ⇐ iter visit (visited (cond_node c)) (false, None);
     if negb found then Err ErrMissingShardingKey else Ok value).
Proof.
  unfold nonInsertValue.
  rewrite (walk_preorder visit _ _ _ (read_visit_reader visit)), preorder_fuel by done.
  unfold bind, ret. by destruct (iter visit _ _) as [[[] [found value]]| | |].
Qed.

(** One visit: it leaves the state, or records the value of an equality. *)
Lemma equality_visit_spec n s :
  match visit n s with
  | Ok (_, s') => s' = match val n with Some v => (true, Some v) | None => s end
  | Err e => e = ErrSql ErrNotImplemented
  | Panic _ => True
  | OutOfFuel => False
  end.
Proof.
  destruct n as [|[| | | | | | | |x op y| | | | | | |]| | | | | | | | | | | | | | | |]; try done.
  unfold equality_visit, equality_value.
  destruct (tokeqb_spec op EQ) as [->|Hop]; cbn [negb]; [|by destruct op].
  assert (Harg : forall pos, match arg_at args pos with
    | Ok _ => True | Panic _ => True | _ => False end).
  { intros pos. unfold arg_at. destruct (pos <? 0); [done|]. by destruct (args !! _). }
  destruct x as [i| | | | | | | | | | | | |t star [c|]| |]; cbn [takes_key];
    try destruct (Name i =s key); try destruct (Name t =s table); cbn [negb andb];
    try destruct (Name c =s key); cbn [negb]; try done;
    destruct y; try done;
    match goal with |- context [arg_at args ?p] => specialize (Harg p); by destruct (arg_at args p) end.
Qed.

Lemma iter_visit_spec l s :
  match iter visit l s with
  | Ok (_, s') => s' = match last (omap val l) with Some v => (true, Some v) | None => s end
  | Err e => e = ErrSql ErrNotImplemented
  | Panic _ => True
  | OutOfFuel => False
  end.
Proof.
  revert s. induction l as [|n l IH]; intros s; [done|]. cbn [iter]. unfold bind.
  pose proof (equality_visit_spec n s) as Hn. destruct (visit n s) as [[[] s']| | |]; try done.
  subst s'. specialize (IH (match val n with Some v => (true, Some v) | None => s end)).
  destruct (iter visit l _) as [[[] s'']| | |]; try done. subst s''. simpl.
  destruct (val n) as [v|]; [|done]. rewrite last_cons.
  change (list_omap _ _ val l) with (omap val l). by destruct (last (omap val l)).
Qed.

Lemma nonInsertValue_spec c :
  match nonInsertValue c key table args with
  | Ok v => v = last (omap val (visited (cond_node c))) /\ v ≠ None
  | Err ErrMissingShardingKey => omap val (visited (cond_node c)) = []
  | Err e => e = ErrSql ErrNotImplemented
  | Panic _ => True
  | OutOfFuel => False
  end.
Proof.
  rewrite nonInsertValue_iter.
  pose proof (iter_visit_spec (visited (cond_node c)) (false, None)) as H.
  destruct (iter visit _ _) as [[[] s']| e | |]; [|by subst e|done|done]. simpl. subst s'.
  destruct (last (omap val (visited (cond_node c)))) as [v|] eqn:Hl; simpl; [done|].
  by apply last_None.
Qed.
End Equality.

(** ** Dispatch *)

Lemma ebind_ok {S E A B} (m : stE S E A) (f : A -> stE S E B) s b s2 :
  ebind m f s = (Ok b, s2) -> exists a s1, m s = (Ok a, s1) /\ f a s1 = (Ok b, s2).
Proof. unfold ebind. destruct (m s) as [[a|e|msg|] s1]; intros H; try done. by eauto. Qed.

Lemma streqb_true (a b : gostring) : (a =s b) = true -> a = b.
Proof. apply bool_decide_eq_true. Qed.

Section Dispatch.
Context {W G Model : Type} {GEN : Generator G} {MIG : Migrator W Model}.
Context (ext : External) (t : tableSharding).

Abbreviation Pl := (Plugin W G Model).
Abbreviation cfg := (config t).

(** The table is one that the migration creates for the sharded table. *)
Definition names_shard (l : list gostring) (n : TableName) : Prop :=
  exists s, s ∈ l /\ Name (tn_Name n) = Table cfg ++ s.

Definition source_shard (l : list gostring) (s : Source) : Prop :=
  match s with STableName n => names_shard l n | _ => False end.

(** Every SELECT of a compound reads from a shard, alone or in a join; other sources are left to
    the database. *)
Fixpoint routed_select (l : list gostring) (s : SelectStatement) : Prop :=
  match s with
  | mkSelect _ _ _ _ from _ _ _ _ _ _ _ compound _ _ _ _ =>
      match from with
      | Some (STableName n) => names_shard l n
      | Some (SJoinClause x _ y _) => source_shard l x \/ source_shard l y
      | _ => True
      end /\
      match compound with Some c => routed_select l c | None => True end
  end.

Definition routed (l : list gostring) (s : Statement) : Prop :=
  match s with
  | StInsert s => ins_Expressions s = [] \/ names_shard l (ins_TableName s)
  | StSelect s => routed_select l s
  | StUpdate s => names_shard l (upd_TableName s)
  | StDelete s => names_shard l (del_TableName s)
  end.

End Dispatch.

(** ** Tables recorded as created *)

(** What the plugin relies on: a migration creates its table and drops none. *)
Class MigratorLaws (W Model : Type) {MIG : Migrator W Model} : Prop := {
  migrate_creates name m w w' : AutoMigrate name m w = Ok w' -> HasTable w' name = true;
  migrate_keeps name m w w' other :
    AutoMigrate name m w = Ok w' -> HasTable w other = true -> HasTable w' other = true
}.

Section Created.
Context {W G Model : Type} {GEN : Generator G} {MIG : Migrator W Model}.
Context {LAWS : MigratorLaws W Model}.
Context (ext : External) (t : tableSharding).
Abbreviation Pl := (Plugin W G Model).

(** The tables in [shardingTableCreated] exist. *)
Definition created_exist (p : Pl) : Prop :=
  forall name, name ∈ shardingTableCreated p -> HasTable (pl_world p) name = true.

Lemma createTable_created db tbl suf (p p' : Pl) :
  created_exist p -> createTableIfNotExists db tbl suf p = Ok p' ->
  created_exist p' /\ tbl ++ suf ∈ shardingTableCreated p' /\ pl_gen p' = pl_gen p.
Proof.
  intros Hp. unfold createTableIfNotExists. case_bool_decide as Hin.
  { intros [= <-]. done. }
  destruct (HasTable (pl_world p) (tbl ++ suf)) eqn:Hh.
  { intros [= <-]. split; [|split; [set_solver|done]]. intros name. simpl.
    rewrite elem_of_union, elem_of_singleton. intros [->|Hn]; [done|by apply Hp]. }
  destruct (match db_Model db with Some m => Some m | None => shardingTableModel p end); [|done].
  destruct (AutoMigrate _ _ _) as [w| | |] eqn:Hm; simpl; try done. intros [= <-].
  split; [|split; [set_solver|done]]. intros name. simpl.
  rewrite elem_of_union, elem_of_singleton.
  intros [->|Hn]; [by eapply migrate_creates|]. eapply migrate_keeps; [done|by apply Hp].
Qed.

(** Reading a key or generating one does not touch the tables. *)
Definition same_tables (p p' : Pl) : Prop :=
  shardingTableCreated p' = shardingTableCreated p /\ pl_world p' = pl_world p.

Lemma insert_row_tables vars names row (p : Pl) r p' :
  insert_row ext t vars names row p = (r, p') -> same_tables p p'.
Proof.
  unfold insert_row, ebind, elift, next_id.
  destruct (insertValue ext t _ names row vars) as [[values id]| | |]; try by intros [= _ <-].
  destruct (_ && _); [|by intros [= _ <-]]. destruct (negb _); [by intros [= _ <-]|].
  destruct (Next (pl_gen p)) as [[id'| | |] g]; try by intros [= _ <-].
  by destruct (insertValue ext t _ _ _ vars) as [[? ?]| | |]; intros [= _ <-].
Qed.

Lemma insert_rows_tables vars names rows suf (p : Pl) r p' :
  insert_rows ext t vars names rows suf p = (r, p') -> same_tables p p'.
Proof.
  revert names suf p r p'. induction rows as [|row rows IH]; intros names suf p r p' H.
  { by injection H as _ <-. }
  cbn [insert_rows] in H. unfold ebind at 1 in H.
  destruct (insert_row ext t vars names row p) as [[[[names1 row1] values]| | |] p1] eqn:Hrow;
    apply insert_row_tables in Hrow as [H1 H2]; try by injection H as _ <-.
  unfold ebind, elift in H.
  destruct (shardingFunc ext (config t) values) as [sub| | |]; try by injection H as _ <-.
  destruct (_ && _); [by injection H as _ <-|].
  destruct (insert_rows ext t vars names1 rows sub p1) as [[[[? ?] ?]| | |] p2] eqn:Hrec;
    apply IH in Hrec as [H3 H4]; injection H as _ <-; split; congruence.
Qed.

Lemma dispatch_insert_created stmt db (p : Pl) r p' :
  created_exist p -> dispatch_insert ext t stmt db p = (r, p') ->
  created_exist p' /\
  forall stmt', r = Ok stmt' -> exists suf,
    tn_Name (ins_TableName stmt') =
      mkIdent (TableName_TableName (ins_TableName stmt) ++ suf) false [] /\
    HasTable (pl_world p') (db_Table db ++ suf) = true.
Proof.
  intros Hp. unfold dispatch_insert, ebind at 1.
  destruct (insert_rows ext t _ _ _ _ p) as [[[[names rows] suf]| | |] p1] eqn:Hrows;
    apply insert_rows_tables in Hrows as [H1 H2];
    assert (Hp1 : created_exist p1) by (unfold created_exist; rewrite H1, H2; exact Hp);
    try (intros [= <- <-]; split; [exact Hp1|]; intros ? H; discriminate H).
  unfold ebind, create_table, elift.
  destruct (createTableIfNotExists db (db_Table db) suf p1) as [p2| | |] eqn:Hc;
    try (intros [= <- <-]; split; [exact Hp1|]; intros ? H; discriminate H).
  destruct (createTable_created _ _ _ _ _ Hp1 Hc) as (Hp2 & Hin & _).
  intros [= <- <-]. split; [done|]. intros stmt' [= <-]. exists suf. split; [done|]. by apply Hp2.
Qed.
End Created.

(** ** Rows of an INSERT *)

Lemma format_nonempty c f a s : c ≠ chr "%" -> format (c :: f) a = Ok s -> s ≠ [].
Proof.
  intros Hc. unfold format, Sprintf. change (c :: f) with ([c] ++ f).
  rewrite sprintf_prefix by (simpl; lia || by repeat constructor).
  destruct (sprintf_go _ f (Some a)); simpl; [|done]. by intros [= <-].
Qed.

Lemma shardingFunc_nonempty ext c values s : shardingFunc ext c values = Ok s -> s ≠ [].
Proof.
  unfold shardingFunc. destruct (ShardingKeyByRawValue c).
  - unfold shard_by_raw. destruct (raw_data ext values); simpl; try done.
    by apply (format_nonempty (chr "_")).
  - assert (Hf : exists f, suffixFormat c = chr "_" :: f).
    { unfold suffixFormat. destruct (negb (has_percent _)); by eexists. }
    destruct Hf as [f Hf]. destruct (ShardingKeyExpr c) as [eval|].
    + unfold shard_by_expr. destruct (expr_params _ _ _); simpl; try done.
      destruct (eval _); simpl; try done. rewrite Hf. by apply format_nonempty.
    + unfold shard_by_checksum. destruct (write_values _ _); simpl; try done.
      rewrite Hf. by apply format_nonempty.
Qed.

Section Rows.
Context {W G Model : Type} {GEN : Generator G} {MIG : Migrator W Model}.
Context (ext : External) (t : tableSharding).
Abbreviation Pl := (Plugin W G Model).

(** A row and the suffix of its own keys. A row that has its primary key (or that needs none) is kept. Otherwise the next
    key of the generator is appended to the row, a column [id] to the columns, and the keys are read again;
    when that fails, the code goes on without values. *)
Inductive row_routed (vars : list GoValue) (suf : gostring) :
    list Ident -> list Expr -> G -> list Ident -> list Expr -> G -> Prop :=
  | row_own names row g values id :
      insertValue ext t (ShardingKeys (config t)) names row vars = Ok (values, id) ->
      (isShardingPrimaryKey t = true -> id ≠ 0) -> shardingFunc ext (config t) values = Ok suf ->
      row_routed vars suf names row g names row g
  | row_generated names row g values0 id g' values :
      isShardingPrimaryKey t = true -> HasPrimaryKeyGenerator (config t) = true ->
      insertValue ext t (ShardingKeys (config t)) names row vars = Ok (values0, 0) ->
      Next g = (Ok id, g') ->
      let names' := names ++ [mkIdent (str "id") false []] in
      let row' := row ++ [ENumberLit (id_text ext id)] in
      match insertValue ext t (ShardingKeys (config t)) names' row' vars with
      | Ok (values', _) => values = values'
      | Err _ => values = []
      | _ => False
      end ->
      shardingFunc ext (config t) values = Ok suf -> row_routed vars suf names row g names' row' g'.

(** The rows of an INSERT, one after the other; all have the same suffix. *)
Inductive rows_routed (vars : list GoValue) (suf : gostring) :
    list Ident -> list (list Expr) -> G -> list Ident -> list (list Expr) -> G -> Prop :=
  | rows_end names g : rows_routed vars suf names [] g names [] g
  | rows_next names row rows g names1 row' g1 names2 rows' g2 :
      row_routed vars suf names row g names1 row' g1 -> rows_routed vars suf names1 rows g1 names2 rows' g2 ->
      rows_routed vars suf names (row :: rows) g names2 (row' :: rows') g2.

Lemma insert_row_routed vars names row (p : Pl) names' row' values suf p' :
  insert_row ext t vars names row p = (Ok (names', row', values), p') ->
  shardingFunc ext (config t) values = Ok suf ->
  row_routed vars suf names row (pl_gen p) names' row' (pl_gen p').
Proof.
  unfold insert_row. intros H Hsuf. apply ebind_ok in H as ([vs id] & p1 & Hins & H). injection Hins as Hins <-.
  destruct (isShardingPrimaryKey t) eqn:Hpk; cbn [andb] in H.
  2:{ injection H as <- <- <- <-. by eapply row_own; [done|rewrite Hpk|]. }
  destruct (Z.eqb_spec id 0) as [->|Hid].
  2:{ injection H as <- <- <- <-. by eapply row_own. }
  destruct (HasPrimaryKeyGenerator (config t)) eqn:Hgen; [|done]. cbn [negb] in H.
  apply ebind_ok in H as (id & p2 & Hnext & H). unfold next_id in Hnext.
  destruct (Next (pl_gen p)) as [r g] eqn:Hn. injection Hnext as -> <-.
  apply ebind_ok in H as ([vs' id'] & p3 & Hins2 & H). injection H as <- <- <- <-. injection Hins2 as Hins2 <-.
  eapply row_generated; try done.
  revert Hins2. clear. destruct (insertValue _ _ _ _ _ _) as [[]|e| |]; [by intros [= -> _]|by intros [= -> _]|done|done].
Qed.

Lemma insert_rows_routed vars names rows suf (p : Pl) names' rows' suf' p' :
  insert_rows ext t vars names rows suf p = (Ok (names', rows', suf'), p') ->
  (suf ≠ [] -> suf' = suf) /\ (rows = [] -> suf' = suf) /\
  rows_routed vars suf' names rows (pl_gen p) names' rows' (pl_gen p').
Proof.
  revert names suf p names' rows' suf' p'.
  induction rows as [|row rows IH]; intros names suf p names' rows' suf' p' H; cbn [insert_rows] in H.
  { injection H as <- <- <- <-. split_and!; [done|done|constructor]. }
  apply ebind_ok in H as ([[names1 row1] values] & p1 & Hrow & H).
  apply ebind_ok in H as (sub & p2 & Hsub & H). injection Hsub as Hsub <-.
  destruct (negb (suf =s []) && negb (suf =s sub)) eqn:Hdiff; [done|].
  apply ebind_ok in H as ([[names2 rows2] suf2] & p3 & Hrec & H). injection H as <- <- <- <-.
  apply IH in Hrec as (Hsuf & _ & Hall).
  specialize (Hsuf (shardingFunc_nonempty _ _ _ _ Hsub)). subst suf2.
  split_and!; [|done|by econstructor; [eapply insert_row_routed|]].
  intros Hne. apply andb_false_iff in Hdiff as [Hd|Hd]; apply negb_false_iff in Hd;
    apply bool_decide_eq_true in Hd; congruence.
Qed.

(** Without generated keys, columns and rows stay as they are. *)
Lemma rows_routed_same vars suf names rows g names' rows' g' :
  isShardingPrimaryKey t = false -> rows_routed vars suf names rows g names' rows' g' ->
  names' = names /\ rows' = rows /\ g' = g.
Proof.
  intros Hpk H. induction H as [|names row rows g names1 row' g1 names2 rows' g2 Hrow _ (-> & -> & ->)]; [done|].
  destruct Hrow; [done|congruence].
Qed.

Lemma create_table_gen db suf (p p' : Pl) : create_table db suf p = (Ok tt, p') -> pl_gen p' = pl_gen p.
Proof.
  unfold create_table, createTableIfNotExists. case_bool_decide; [by intros [= <-]|].
  destruct (HasTable _ _); [by intros [= <-]|]. destruct (match db_Model db with Some _ => _ | None => _ end); [|done].
  destruct (AutoMigrate _ _ _); simpl; [|done..]. by intros [= <-].
Qed.

(** What becomes of an INSERT. *)
Lemma dispatch_insert_rows stmt (db : DB Model) (p : Pl) stmt' p' :
  dispatch_insert ext t stmt db p = (Ok stmt', p') ->
  exists suf, (ins_Expressions stmt = [] -> suf = []) /\
    rows_routed (db_Vars db) suf (ins_ColumnNames stmt) (ins_Expressions stmt) (pl_gen p)
      (ins_ColumnNames stmt') (ins_Expressions stmt') (pl_gen p') /\
    stmt' = mkInsert (named (TableName_TableName (ins_TableName stmt) ++ suf)) (ins_ColumnNames stmt')
      (ins_Overriding stmt) (ins_DefaultValues stmt) (ins_Expressions stmt') (ins_Query stmt)
      (ins_UpsertClause stmt) (ins_OutputExpressions stmt).
Proof.
  unfold dispatch_insert. intros H.
  apply ebind_ok in H as ([[names rows] suf] & p1 & Hrows & H).
  apply ebind_ok in H as ([] & p2 & Hc & H). injection H as <- <-. cbn.
  apply insert_rows_routed in Hrows as (_ & Hnil & Hrows). rewrite (create_table_gen _ _ _ _ Hc). by exists suf.
Qed.
End Rows.

(** ** The statement that replaces another one *)

Section Rerouted.
Context {W G Model : Type} {GEN : Generator G} {MIG : Migrator W Model}.
Context (ext : External) (t : tableSharding).
Abbreviation Pl := (Plugin W G Model).
Abbreviation tbl := (Table (config t)).

(** The suffix that a condition asks for: that of the values that the last equality on each sharding key gives. *)
Definition condition_suffix (vars : list GoValue) (cond : option Expr) (suf : gostring) : Prop :=
  exists values, Forall2 (fun key v =>
      last (omap (equality_value key tbl vars) (visited (cond_node cond))) = Some v) (ShardingKeys (config t)) values /\
    shardingFunc ext (config t) values = Ok suf.

(** A source that is the sharded table, under the name of its shard; and one that is another source. *)
Definition renamed_source (suf : gostring) (s s' : Source) : Prop :=
  exists i a, s = STableName (mkTableName i a) /\ TableName_TableName (mkTableName i a) = tbl /\
    s' = STableName (mkTableName (mkIdent (tbl ++ suf) (Quoted i) (QuoteChar i)) a).
Definition other_source (s : Source) : Prop := forall n, s = STableName n -> TableName_TableName n ≠ tbl.

(** The left side of a join is renamed when it is the table, otherwise the right side. *)
Definition renamed_join (suf : gostring) (x y x' y' : Source) : Prop :=
  renamed_source suf x x' /\ y' = y \/ other_source x /\ x' = x /\ renamed_source suf y y'.

(** A SELECT, and those compounded with it, each with the suffix of its own condition. *)
Inductive rerouted_select (vars : list GoValue) : SelectStatement -> SelectStatement -> Prop :=
  | rerouted_table hint all_ distinct columns n cond grouping having union unionall intersect except
      compound compound' orderby limit fetch offset suf :
      hint ≠ Some (str "nosharding") -> TableName_TableName n = tbl -> condition_suffix vars cond suf ->
      rerouted_compound vars compound compound' ->
      rerouted_select vars
        (mkSelect hint all_ distinct columns (Some (STableName n)) cond grouping having
           union unionall intersect except compound orderby limit fetch offset)
        (mkSelect hint all_ distinct columns (Some (STableName (named (tbl ++ suf))))
           (rename_condition tbl (tbl ++ suf) cond) grouping having union unionall intersect except
           compound' (replaceOrderByTableName orderby tbl (tbl ++ suf)) limit fetch offset)
  | rerouted_join hint all_ distinct columns x op y con x' y' cond grouping having union unionall intersect except
      compound compound' orderby limit fetch offset suf :
      hint ≠ Some (str "nosharding") -> renamed_join suf x y x' y' -> condition_suffix vars cond suf ->
      rerouted_compound vars compound compound' ->
      rerouted_select vars
        (mkSelect hint all_ distinct columns (Some (SJoinClause x op y con)) cond grouping having
           union unionall intersect except compound orderby limit fetch offset)
        (mkSelect hint all_ distinct (replace_columns columns tbl (tbl ++ suf))
           (Some (SJoinClause x' op y' (rename_constraint tbl (tbl ++ suf) con)))
           (rename_condition tbl (tbl ++ suf) cond) grouping having union unionall intersect except
           compound' (replaceOrderByTableName orderby tbl (tbl ++ suf)) limit fetch offset)
  | rerouted_other hint all_ distinct columns from cond grouping having union unionall intersect except
      compound compound' orderby limit fetch offset :
      hint ≠ Some (str "nosharding") ->
      match from with Some (STableName _) | Some (SJoinClause _ _ _ _) => False | _ => True end ->
      rerouted_compound vars compound compound' ->
      rerouted_select vars
        (mkSelect hint all_ distinct columns from cond grouping having
           union unionall intersect except compound orderby limit fetch offset)
        (mkSelect hint all_ distinct columns from cond grouping having
           union unionall intersect except compound' orderby limit fetch offset)
with rerouted_compound (vars : list GoValue) : option SelectStatement -> option SelectStatement -> Prop :=
  | rerouted_end : rerouted_compound vars None None
  | rerouted_next s s' : rerouted_select vars s s' -> rerouted_compound vars (Some s) (Some s').

(** A statement for the sharded table and the one that is executed instead, with the states of the generator of keys. *)
Definition rerouted (vars : list GoValue) (g : G) (s s' : Statement) (g' : G) : Prop :=
  match s, s' with
  | StInsert s, StInsert s' =>
      TableName_TableName (ins_TableName s) = tbl /\
      exists suf, (ins_Expressions s = [] -> suf = []) /\
        rows_routed ext t vars suf (ins_ColumnNames s) (ins_Expressions s) g (ins_ColumnNames s') (ins_Expressions s') g' /\
        s' = mkInsert (named (tbl ++ suf)) (ins_ColumnNames s') (ins_Overriding s) (ins_DefaultValues s)
          (ins_Expressions s') (ins_Query s) (ins_UpsertClause s) (ins_OutputExpressions s)
  | StSelect s, StSelect s' => g' = g /\ rerouted_select vars s s'
  | StUpdate s, StUpdate s' =>
      g' = g /\ TableName_TableName (upd_TableName s) = tbl /\
      exists suf, condition_suffix vars (upd_Condition s) suf /\
        s' = mkUpdate (upd_Only s) (named (tbl ++ suf)) (upd_TableStar s) (upd_Alias s) (upd_Assignments s)
          (upd_FromList s) (rename_condition tbl (tbl ++ suf) (upd_Condition s)) (upd_CursorName s) (upd_OutputExpressions s)
  | StDelete s, StDelete s' =>
      g' = g /\ TableName_TableName (del_TableName s) = tbl /\
      exists suf, condition_suffix vars (del_Condition s) suf /\
        s' = mkDelete (del_Only s) (named (tbl ++ suf)) (del_TableStar s) (del_Alias s) (del_UsingList s)
          (rename_condition tbl (tbl ++ suf) (del_Condition s)) (del_CursorName s) (del_OutputExpressions s)
  | _, _ => False
  end.

Lemma getSuffix_condition cond vars suf :
  getSuffix ext t cond tbl vars = Ok suf -> condition_suffix vars cond suf.
Proof.
  unfold getSuffix, condition_suffix. destruct (condition_values _ cond tbl vars) as [values| | |] eqn:Hv; simpl; try done.
  intros Hs. exists values. split; [|done]. clear Hs. revert values Hv.
  induction (ShardingKeys (config t)) as [|key keys IH]; intros values Hv; cbn [condition_values] in Hv.
  { injection Hv as <-. constructor. }
  pose proof (nonInsertValue_spec key tbl vars cond) as Hk.
  destruct (nonInsertValue cond key tbl vars) as [v| | |]; try done. destruct Hk as [Hk Hne]. simpl in Hv.
  destruct (condition_values keys cond tbl vars) as [vals| | |]; try done. simpl in Hv. injection Hv as <-.
  constructor; [|by apply IH]. rewrite <- Hk. by destruct v.
Qed.

Lemma is_sharded_true s suf : is_sharded t s = true -> renamed_source suf s (set_table s (tbl ++ suf)).
Proof. destruct s as [| |[i a]|]; try done. intros H%streqb_true. by exists i, a. Qed.

Lemma is_sharded_false s : is_sharded t s = false -> other_source s.
Proof. intros H n ->. unfold is_sharded in H. by apply bool_decide_eq_false in H. Qed.

(** One SELECT, with the rest of the compound replaced. *)
Lemma dispatch_select_rerouted vars s s' compound' :
  dispatch_select ext t vars s = Ok (Some s') -> rerouted_compound vars (sel_Compound s) compound' ->
  rerouted_select vars s (match compound' with Some c => set_compound s' c | None => s' end).
Proof.
  destruct s as [hint ? ? cols from cond ? ? ? ? ? ? comp ? ? ? ?]. cbn [dispatch_select sel_Compound].
  case_bool_decide as Hh; [done|]. intros Hd Hcomp.
  assert (Hset : forall s2 s3, s2 = s3 -> rerouted_select vars
      (mkSelect hint All Distinct cols from cond GroupingElements HavingCondition Union UnionAll Intersect Except comp OrderBy Limit Fetch Offset) s2 ->
    rerouted_select vars
      (mkSelect hint All Distinct cols from cond GroupingElements HavingCondition Union UnionAll Intersect Except comp OrderBy Limit Fetch Offset) s3)
    by (by intros ? ? ->).
  destruct from as [[x op y con|x a|n|sel]|].
  - destruct (is_sharded t x) eqn:Hx; cbn [negb andb] in Hd; [|destruct (is_sharded t y) eqn:Hy; [|done]; cbn [negb] in Hd];
      (destruct (getSuffix _ _ _ _ _) as [suf| | |] eqn:Hs; cbn [out_bind] in Hd; try done);
      rewrite replaceCondition_eq, replaceConstraint_eq in Hd; cbn [out_bind] in Hd; injection Hd as <-;
      (eapply Hset; [|eapply rerouted_join with (suf := suf); [done| |by apply getSuffix_condition|exact Hcomp]]);
      [|left; split; [by apply is_sharded_true|reflexivity]| |right; split_and!; [by apply is_sharded_false|reflexivity|by apply is_sharded_true]];
      by destruct Hcomp.
  - injection Hd as <-. eapply Hset; [|by eapply rerouted_other; [..|exact Hcomp]]. by destruct Hcomp.
  - destruct (TableName_TableName n =s tbl) eqn:Ht; cbn [negb] in Hd; [|done]. apply streqb_true in Ht. rewrite Ht in Hd.
    destruct (getSuffix _ _ _ _ _) as [suf| | |] eqn:Hs; cbn [out_bind] in Hd; try done.
    rewrite replaceCondition_eq in Hd. cbn [out_bind] in Hd. injection Hd as <-.
    eapply Hset; [|by eapply rerouted_table with (suf := suf); [done|done|apply getSuffix_condition|exact Hcomp]].
    by destruct Hcomp.
  - injection Hd as <-. eapply Hset; [|by eapply rerouted_other; [..|exact Hcomp]]. by destruct Hcomp.
  - injection Hd as <-. eapply Hset; [|by eapply rerouted_other; [..|exact Hcomp]]. by destruct Hcomp.
Qed.

Lemma dispatch_compound_rerouted vars s : forall s',
  dispatch_compound ext t vars s = Ok (Some s') -> rerouted_select vars s s'.
Proof.
  revert s. fix IH 1. intros s s' H.
  destruct s as [hint ? ? cols from cond ? ? ? ? ? ? comp ? ? ? ?]. cbn [dispatch_compound] in H.
  destruct (dispatch_select ext t vars _) as [[s0|]| | |] eqn:Hs0; try done. simpl in H. destruct comp as [c|].
  - destruct (dispatch_compound ext t vars c) as [[c'|]| | |] eqn:Hc; try done. injection H as <-.
    apply IH in Hc. exact (dispatch_select_rerouted vars _ s0 (Some c') Hs0 (rerouted_next vars c c' Hc)).
  - injection H as <-. exact (dispatch_select_rerouted vars _ s0 None Hs0 (rerouted_end vars)).
Qed.

Lemma finish_state {A} n (print : A -> printed) r (db : DB Model) (p : Pl) e db' p' :
  finish n print r db p = Ok ((true, e), db', p') ->
  exists s, r = Ok s /\ print s = Ok (db_SQL db') /\ db' = set_SQL (db_SQL db') db /\ p' = p /\ e = None.
Proof.
  destruct r as [s| | |]; simpl; try done. destruct (print s) as [sql|[]| |] eqn:Hp; simpl; try done.
  intros [= <- <- <-]. by exists s.
Qed.

Lemma dispatch_rerouted db (p : Pl) e db' p' :
  dispatchTableBySQL ext t db p = Ok ((true, e), db', p') ->
  e = None /\ db' = set_SQL (db_SQL db') db /\
  exists stmt stmt', ParseStatementString (db_SQL db) = Ok stmt /\ Statement_String stmt' = Ok (db_SQL db') /\
    rerouted (db_Vars db) (pl_gen p) stmt stmt' (pl_gen p').
Proof.
  unfold dispatchTableBySQL.
  destruct (ParseStatementString (db_SQL db)) as [[s|s|s|s]|err| |] eqn:Hparse; try done.
  - destruct (TableName_TableName (ins_TableName s) =s tbl) eqn:Ht; simpl; [|done].
    apply streqb_true in Ht. destruct (dispatch_insert ext t s db p) as [r p1] eqn:Hd.
    intros H. apply finish_state in H as (s' & -> & Hp & Hdb & -> & ->). split_and!; [done|done|].
    exists (StInsert s), (StInsert s'). split_and!; [done|done|]. split; [done|].
    apply dispatch_insert_rows in Hd as (suf & Hnil & Hrows & Heq). rewrite Ht in Heq. by exists suf.
  - destruct (dispatch_compound ext t (db_Vars db) s) as [[s'|]| | |] eqn:Hd; try done.
    intros H. apply finish_state in H as (s2 & [= <-] & Hp & Hdb & -> & ->). split_and!; [done|done|].
    exists (StSelect s), (StSelect s'). split_and!; [done|done|]. split; [done|]. by apply dispatch_compound_rerouted.
  - destruct (TableName_TableName (upd_TableName s) =s tbl) eqn:Ht; simpl; [|done]. apply streqb_true in Ht.
    intros H. apply finish_state in H as (s' & Hd & Hp & Hdb & -> & ->). split_and!; [done|done|].
    exists (StUpdate s), (StUpdate s'). split_and!; [done|done|]. split_and!; [done|done|].
    unfold dispatch_update in Hd. destruct (getSuffix _ _ _ _ _) as [suf| | |] eqn:Hs; try done.
    simpl in Hd. rewrite replaceCondition_eq in Hd. simpl in Hd. injection Hd as <-. rewrite Ht.
    exists suf. split; [by apply getSuffix_condition|done].
  - destruct (TableName_TableName (del_TableName s) =s tbl) eqn:Ht; simpl; [|done]. apply streqb_true in Ht.
    intros H. apply finish_state in H as (s' & Hd & Hp & Hdb & -> & ->). split_and!; [done|done|].
    exists (StDelete s), (StDelete s'). split_and!; [done|done|]. split_and!; [done|done|].
    unfold dispatch_delete in Hd. destruct (getSuffix _ _ _ _ _) as [suf| | |] eqn:Hs; try done.
    simpl in Hd. rewrite replaceCondition_eq in Hd. simpl in Hd. injection Hd as <-. rewrite Ht.
    exists suf. split; [by apply getSuffix_condition|done].
Qed.

(** *** The tables that the migration creates *)

Context (l : list gostring) (Hc : well_sharded (config t)) (Hl : suffixes (config t) = Ok l).

Lemma named_shard suf values : shardingFunc ext (config t) values = Ok suf -> names_shard t l (named (tbl ++ suf)).
Proof using Hc Hl. intros H. exists suf. split; [by eapply well_sharded_suffix|done]. Qed.

Lemma condition_shard vars cond suf : condition_suffix vars cond suf -> names_shard t l (named (tbl ++ suf)).
Proof using Hc Hl. intros (values & _ & H). by eapply named_shard. Qed.

Lemma renamed_source_shard suf vars cond x x' :
  condition_suffix vars cond suf -> renamed_source suf x x' -> source_shard t l x'.
Proof using Hc Hl.
  intros (values & _ & H) (i & a & _ & _ & ->). exists suf. split; [by eapply well_sharded_suffix|done].
Qed.

Lemma rerouted_select_routed vars s : forall s', rerouted_select vars s s' -> routed_select t l s'.
Proof using Hc Hl.
  revert s. fix IH 1. intros s s' H.
  assert (Hcomp : forall c c', sel_Compound s = c -> rerouted_compound vars c c' ->
    match c' with Some c' => routed_select t l c' | None => True end).
  { intros c c' Hs Hcc. destruct s as [? ? ? ? ? ? ? ? ? ? ? ? comp ? ? ? ?]. cbn in Hs. subst c.
    destruct comp as [c|]; inversion Hcc as [|? c2 Hc2]; subst; [by apply (IH c)|done]. }
  inversion H as [? ? ? ? n cond ? ? ? ? ? ? comp comp' ? ? ? ? suf _ _ Hsuf Hcc|
    ? ? ? ? x op y con x' y' cond ? ? ? ? ? ? comp comp' ? ? ? ? suf _ Hj Hsuf Hcc|
    ? ? ? ? from ? ? ? ? ? ? ? comp comp' ? ? ? ? _ Hfrom Hcc]; subst;
    specialize (Hcomp _ _ eq_refl Hcc); (split; [|exact Hcomp]).
  - by eapply condition_shard.
  - destruct Hj as [[Hx _]|(_ & _ & Hy)]; [left|right]; by eapply renamed_source_shard.
  - by destruct from as [[]|].
Qed.

Lemma rerouted_routed vars g s s' g' : rerouted vars g s s' g' -> routed t l s'.
Proof using Hc Hl.
  destruct s as [s|s|s|s], s' as [s'|s'|s'|s']; try done; cbn [rerouted routed].
  - intros (_ & suf & _ & Hrows & ->). cbn. destruct Hrows as [|? ? ? ? ? ? ? ? ? ? Hrow _]; [by left|]. right.
    by destruct Hrow; eapply named_shard.
  - intros (_ & H). by eapply rerouted_select_routed.
  - intros (_ & _ & suf & Hsuf & ->). by eapply condition_shard.
  - intros (_ & _ & suf & Hsuf & ->). by eapply condition_shard.
Qed.
End Rerouted.

(** ** Samples *)

(** A database as the list of its tables, and a counter that generates keys. *)
#[global] Instance counter_gen : Generator Z := fun n => (Ok n, n + 1).

#[global] Instance list_migrator : Migrator (list gostring) unit := {|
  HasTable := fun w name => bool_decide (name ∈ w);
  AutoMigrate := fun name _ w => Ok (name :: w)
|}.

#[global] Instance list_migrator_laws : MigratorLaws (list gostring) unit.
Proof.
  split; simpl.
  - intros name _ w w' [= <-]. apply bool_decide_eq_true. left.
  - intros name _ w w' other [= <-]. rewrite !bool_decide_eq_true. by right.
Qed.

Definition sample_sharding : tableSharding := mkTableSharding sample_config false [].

(** The statement [sql] with its arguments. *)
Definition sample_db (sql : string) (vars : list GoValue) : DB unit :=
  mkDB (str sql) vars (str "orders") (Some tt) [].

Definition sample_plugin : Plugin (list gostring) Z unit := mkPlugin ∅ None [] 1000.

(** The SQL that results, when the statement is rewritten. *)
Definition rewritten (t : tableSharding) (db : DB unit) : option gostring :=
  match dispatchTableBySQL (W := list gostring) (G := Z) sample_ext t db sample_plugin with
  | Ok ((true, _), db', _) => Some (db_SQL db')
  | _ => None
  end.

(** ** Claims *)


Definition sample_query : DB unit :=
  sample_db "SELECT * FROM orders WHERE orders.user_id = ? AND x > 3" [VInt 42].

Definition sample_result : DB unit :=
  set_SQL (str "SELECT * FROM orders_user_id_11 WHERE orders_user_id_11.user_id = ? AND x > 3") sample_query.


(** C38: a statement that is not rewritten keeps its text, arguments and table, whatever the reason;
    errors found on the way are only added to the list of errors. *)
Theorem dispatch_failure_keeps_statement {W G Model} {GEN : Generator G} {MIG : Migrator W Model}
    ext t (db : DB Model) (p : Plugin W G Model) e db' p' :
  dispatchTableBySQL ext t db p = Ok ((false, e), db', p') ->
  db_SQL db' = db_SQL db /\ db_Vars db' = db_Vars db /\ db_Table db' = db_Table db /\
  exists errs, db_errors db' = db_errors db ++ errs.
Proof.
  assert (Hfin : forall A n (print : A -> printed) r (p1 : Plugin W G Model),
    (n <= 2)%nat -> finish n print r db p1 = Ok ((false, e), db', p') ->
    db_SQL db' = db_SQL db /\ db_Vars db' = db_Vars db /\ db_Table db' = db_Table db /\
    exists errs, db_errors db' = db_errors db ++ errs).
  { intros A n print r p1 Hn. destruct r as [s|err| |]; simpl; try done.
    - by destruct (print s).
    - intros [= <- <- <-]. destruct n as [|[|[|n]]]; [| | |lia]; repeat split; simpl;
        [exists []|exists [err]|exists [err; err]]; by rewrite ?app_nil_r, <- ?app_assoc. }
  assert (Hid : forall err, Ok ((false, err), db, p) = Ok (E := Empty_set) ((false, e), db', p') ->
    db_SQL db' = db_SQL db /\ db_Vars db' = db_Vars db /\ db_Table db' = db_Table db /\
    exists errs, db_errors db' = db_errors db ++ errs).
  { intros err [= _ <- _]. repeat split. exists []. by rewrite app_nil_r. }
  unfold dispatchTableBySQL.
  destruct (ParseStatementString (db_SQL db)) as [[s|s|s|s]|err| |]; try done; try apply Hid.
  - destruct (negb _); [apply Hid|]. destruct (dispatch_insert ext t s db p). apply Hfin. lia.
  - destruct (dispatch_compound ext t (db_Vars db) s) as [[s'|]|e'| |]; try done;
      try apply Hid; apply (Hfin _ 2%nat); lia.
  - destruct (negb _); [apply Hid|apply Hfin; lia].
  - destruct (negb _); [apply Hid|apply Hfin; lia].
Qed.

Lemma dispatch_failure_keeps_statement_witness :
  exists db', dispatchTableBySQL (W := list gostring) (G := Z) sample_ext sample_sharding
      (sample_db "SELECT * FROM orders WHERE x = 3" []) sample_plugin =
      Ok ((false, None), db', sample_plugin) /\
    db_SQL db' = str "SELECT * FROM orders WHERE x = 3" /\
    db_errors db' = [ErrMissingShardingKey; ErrMissingShardingKey].
Proof.
  eexists. split; [vm_compute; reflexivity|]. split; [|vm_compute; reflexivity].
  apply (dispatch_failure_keeps_statement (W := list gostring) (G := Z) sample_ext sample_sharding
    (sample_db "SELECT * FROM orders WHERE x = 3" []) sample_plugin None _ sample_plugin).
  vm_compute. reflexivity.
Defined.

(** [replaceCondition] never fails; afterwards no binary operator of the condition, at any depth
    the walk reaches, has a column of the old table on its left, and a condition without such a
    column is unchanged. *)
Theorem replaceCondition_renames c old new :
  new ≠ old -> exists c', replaceCondition c old new = Ok c' /\
    (forall m, m ∈ visited (cond_node c') -> ~ left_ref old m) /\
    ((forall m, m ∈ visited (cond_node c) -> ~ left_ref old m) -> c' = c).
Proof.
  intros Hne. exists (rename_condition old new c). split; [apply replaceCondition_eq|].
  destruct c as [e|]; simpl.
  2:{ split; [|done]. intros m Hm Hl. apply list_elem_of_singleton in Hm as ->. done. }
  pose proof (rewrite_node_kind _ (condition_visit_size old new) (condition_visit_kind old new)
    (NExpr e)) as Hk.
  assert (He : NExpr (as_expr e (rewrite_node (condition_visit old new) (NExpr e))) =
    rewrite_node (condition_visit old new) (NExpr e)) by by apply fits_expr.
  split.
  - intros m. rewrite He. apply (rewrite_all _ (condition_visit_size old new)
      (condition_visit_kind old new) (fun m => ~ left_ref old m)).
    intros n. by apply rename_left_head.
  - intros Hid. rewrite rewrite_node_id; [done|apply condition_visit_size|].
    intros m Hm. specialize (Hid m Hm).
    destruct m as [|[| | | | | | | |[]| | | | | | |]| | | | | | | | | | | | | | | |]; try done.
    simpl in *. unfold rename_ident, streqb. by rewrite bool_decide_eq_false_2.
Qed.

(** [orders.a = 1 AND b = orders.c] *)
Definition sample_condition : Expr :=
  let i s := mkIdent (str s) false [] in
  EBinaryExpr (EBinaryExpr (EQualifiedRef (i "orders") false (Some (i "a"))) EQ (ENumberLit (str "1")))
    AND (EBinaryExpr (EIdent (i "b")) EQ (EQualifiedRef (i "orders") false (Some (i "c")))).

Lemma replaceCondition_renames_witness :
  exists c', replaceCondition (Some sample_condition) (str "orders") (str "orders_7") = Ok c' /\
    (forall m, m ∈ visited (cond_node c') -> ~ left_ref (str "orders") m) /\
    ((forall m, m ∈ visited (cond_node (Some sample_condition)) -> ~ left_ref (str "orders") m) ->
      c' = Some sample_condition).
Proof. apply replaceCondition_renames. discriminate. Defined.

(** [replaceConstraint] never fails; afterwards no column of the constraint is qualified with
    the old table, and a constraint without such a column is unchanged. *)
Theorem replaceConstraint_renames c old new :
  new ≠ old -> exists c', replaceConstraint (Some c) old new = Ok (Some c') /\
    (forall m, m ∈ visited (NJoinConstraint c') -> ~ qualified old m) /\
    ((forall m, m ∈ visited (NJoinConstraint c) -> ~ qualified old m) -> c' = c).
Proof.
  intros Hne. rewrite replaceConstraint_eq. simpl. eexists. split; [done|].
  pose proof (rewrite_node_kind _ (constraint_visit_size old new) (constraint_visit_kind old new)
    (NJoinConstraint c)) as Hk.
  split.
  - intros m. rewrite (fits_constraint c _ Hk). apply (rewrite_all _ (constraint_visit_size old new)
      (constraint_visit_kind old new) (fun m => ~ qualified old m)).
    intros n. by apply rename_ref_head.
  - intros Hid. rewrite rewrite_node_id; [done|apply constraint_visit_size|].
    intros m Hm. specialize (Hid m Hm).
    destruct m as [|[]| | | | | | | | | | | | | | | |]; try done.
    simpl in *. unfold rename_ident, streqb. by rewrite bool_decide_eq_false_2.
Qed.

Lemma replaceConstraint_renames_witness :
  exists c', replaceConstraint (Some (OnConstraint sample_condition)) (str "orders")
      (str "orders_7") = Ok (Some c') /\
    (forall m, m ∈ visited (NJoinConstraint c') -> ~ qualified (str "orders") m) /\
    ((forall m, m ∈ visited (NJoinConstraint (OnConstraint sample_condition)) ->
        ~ qualified (str "orders") m) -> c' = OnConstraint sample_condition).
Proof. apply replaceConstraint_renames. discriminate. Defined.

(** The value found for a sharding key is the one of the last equality on the key that a walk of
    the condition meets; the key is missing exactly when there is none; the only other error is an
    equality with a right side that is no literal and no argument. The search terminates. *)
Theorem nonInsertValue_last_equality key table args c :
  match nonInsertValue c key table args with
  | Ok v => v = last (omap (equality_value key table args) (visited (cond_node c))) /\ v ≠ None
  | Err ErrMissingShardingKey =>
      omap (equality_value key table args) (visited (cond_node c)) = []
  | Err e => e = ErrSql ErrNotImplemented
  | Panic _ => True
  | OutOfFuel => False
  end.
Proof. apply nonInsertValue_spec. Qed.

(** Of two equalities on the key joined by OR, only the last one counts: the statement runs on
    one of the two tables its condition selects from. *)
Theorem disjunction_uses_last_key :
  rewritten sample_sharding
    (sample_db "DELETE FROM orders WHERE user_id = ? OR user_id = ?" [VInt 2; VInt 42]) =
    Some (str "DELETE FROM orders_user_id_11 WHERE user_id = ? OR user_id = ?") /\
  rewritten sample_sharding
    (sample_db "DELETE FROM orders WHERE user_id = ? OR user_id = ?" [VInt 42; VInt 2]) =
    Some (str "DELETE FROM orders_user_id_01 WHERE user_id = ? OR user_id = ?").
Proof. split; vm_compute; reflexivity. Qed.

(** A table is recognised by its alias and the alias is then dropped: a query of another table
    under the alias [orders] is sent to a shard of [orders]. *)
Theorem alias_replaces_table :
  rewritten sample_sharding
    (sample_db "SELECT a FROM customers AS orders WHERE user_id = ?" [VInt 42]) =
    Some (str "SELECT a FROM orders_user_id_11 WHERE user_id = ?").
Proof. vm_compute. reflexivity. Qed.

(** A column of the table on the right of an operator, or in the select list, keeps the name of
    the unsharded table, which the rewritten statement no longer reads. *)
Theorem right_side_keeps_table :
  rewritten sample_sharding
    (sample_db "SELECT orders.a FROM orders WHERE user_id = ? AND 5 < orders.b" [VInt 42]) =
    Some (str "SELECT orders.a FROM orders_user_id_11 WHERE user_id = ? AND 5 < orders.b").
Proof. vm_compute. reflexivity. Qed.

(** Of several statements separated by semicolons, only the first is kept. *)
Theorem later_statements_dropped :
  rewritten sample_sharding
    (sample_db "UPDATE orders SET a = 1 WHERE user_id = ?; UPDATE log SET b = 2" [VInt 42]) =
    Some (str "UPDATE orders_user_id_11 SET a = 1 WHERE user_id = ?").
Proof. vm_compute. reflexivity. Qed.

(** C37: an INSERT that is rewritten sends all of its rows to one table, and each row has the suffix of that table by
    its own keys: a row with its own primary key, or in a table that is not sharded by primary key, by the
    values it comes with; a row whose primary key is missing or zero, by the values it has after the
    generator's next key was appended to it (and a column [id] to the columns). An INSERT whose rows
    belong to different tables is refused. Nothing else changes, and columns and rows only in this way. *)
Theorem insert_rows_one_table {W G Model} {GEN : Generator G} {MIG : Migrator W Model}
    ext t stmt (db : DB Model) (p : Plugin W G Model) stmt' p' :
  dispatch_insert ext t stmt db p = (Ok stmt', p') ->
  exists suf, (ins_Expressions stmt = [] -> suf = []) /\
    rows_routed ext t (db_Vars db) suf (ins_ColumnNames stmt) (ins_Expressions stmt) (pl_gen p)
      (ins_ColumnNames stmt') (ins_Expressions stmt') (pl_gen p') /\
    stmt' = mkInsert (named (TableName_TableName (ins_TableName stmt) ++ suf)) (ins_ColumnNames stmt')
      (ins_Overriding stmt) (ins_DefaultValues stmt) (ins_Expressions stmt') (ins_Query stmt)
      (ins_UpsertClause stmt) (ins_OutputExpressions stmt) /\
    (isShardingPrimaryKey t = false ->
      ins_ColumnNames stmt' = ins_ColumnNames stmt /\ ins_Expressions stmt' = ins_Expressions stmt).
Proof.
  intros H. apply dispatch_insert_rows in H as (suf & Hnil & Hrows & Heq). exists suf. split_and!; [done|done|done|].
  intros Hpk. by destruct (rows_routed_same _ _ _ _ _ _ _ _ _ _ Hpk Hrows) as (? & ? & _).
Qed.

(** [INSERT INTO orders (user_id, a) VALUES (?, 1), (?, 2)] *)
Definition sample_insert : InsertStatement :=
  mkInsert (named (str "orders")) [mkIdent (str "user_id") false []; mkIdent (str "a") false []] []
    false [[EBindExpr (str "?") 0; ENumberLit (str "1")]; [EBindExpr (str "?") 1; ENumberLit (str "2")]]
    None None None.

Definition pk_sharding : tableSharding :=
  mkTableSharding (mkConfig (str "db") (str "orders") [str "id"] None false [] 16 [] true)
    true (str "id").

(** [INSERT INTO orders (a) VALUES (1)], which gets a key. *)
Definition keyless_insert : InsertStatement :=
  mkInsert (named (str "orders")) [mkIdent (str "a") false []] [] false [[ENumberLit (str "1")]] None None None.

Definition keyless_result : InsertStatement * Plugin (list gostring) Z unit :=
  match dispatch_insert sample_ext pk_sharding keyless_insert (sample_db " " []) sample_plugin with
  | (Ok s, p) => (s, p)
  | (_, p) => (keyless_insert, p)
  end.

Lemma insert_rows_one_table_witness :
  ins_Expressions (fst keyless_result) = [[ENumberLit (str "1"); ENumberLit (str "1000")]] /\
  exists suf, rows_routed (G := Z) sample_ext pk_sharding (db_Vars (sample_db " " [])) suf
    (ins_ColumnNames keyless_insert) (ins_Expressions keyless_insert) (pl_gen sample_plugin)
    (ins_ColumnNames (fst keyless_result)) (ins_Expressions (fst keyless_result)) (pl_gen (snd keyless_result)).
Proof.
  assert (H : dispatch_insert (W := list gostring) (G := Z) sample_ext pk_sharding keyless_insert (sample_db " " []) sample_plugin =
    (Ok (fst keyless_result), snd keyless_result)) by (vm_compute; reflexivity).
  destruct (insert_rows_one_table (W := list gostring) (G := Z) sample_ext pk_sharding
    keyless_insert (sample_db " " []) sample_plugin _ _ H) as (suf & _ & Hrows & _).
  split; [vm_compute; reflexivity|]. exists suf. exact Hrows.
Defined.

(** An INSERT of several rows without the primary key by which the table is sharded always
    fails: the column added for the first row's generated key makes the second row too short. *)
Theorem generated_key_single_row {W G Model} {GEN : Generator G} {MIG : Migrator W Model}
    ext t vars names row1 row2 rows (p : Plugin W G Model) vs id g' values' id' sub :
  isShardingPrimaryKey t = true -> HasPrimaryKeyGenerator (config t) = true ->
  insertValue ext t (ShardingKeys (config t)) names row1 vars = Ok (vs, 0) ->
  Next (pl_gen p) = (Ok id, g') ->
  insertValue ext t (ShardingKeys (config t)) (names ++ [mkIdent (str "id") false []])
    (row1 ++ [ENumberLit (id_text ext id)]) vars = Ok (values', id') ->
  shardingFunc ext (config t) values' = Ok sub -> length row2 = length names ->
  (insert_rows ext t vars names (row1 :: row2 :: rows) [] p).1 = Err ErrColumnAndExprMisMatch.
Proof.
  intros Hpk Hgen Hins Hnext Hins2 Hsub Hlen. cbn [insert_rows].
  unfold ebind at 1, insert_row at 1, ebind at 1, elift at 1. rewrite Hins, Hpk, Hgen. cbn [andb negb].
  change (0 =? 0) with true. cbv iota. unfold ebind at 1, next_id. rewrite Hnext.
  unfold ebind at 1, elift at 1. rewrite Hins2. unfold elift at 1. unfold ebind at 1, elift at 1.
  rewrite Hsub. cbn [streqb]. unfold ebind at 1 2, insert_row at 1, ebind at 1, elift at 1, insertValue.
  rewrite length_app, Hlen. cbn [length].
  by replace (length names + 1 =? length names)%nat with false by (symmetry; apply Nat.eqb_neq; lia).
Qed.

Lemma generated_key_single_row_witness :
  (insert_rows (W := list gostring) (G := Z) (Model := unit) sample_ext pk_sharding []
    [mkIdent (str "a") false []] [[ENumberLit (str "1")]; [ENumberLit (str "2")]] []
    sample_plugin).1 = Err ErrColumnAndExprMisMatch.
Proof.
  eapply generated_key_single_row; try reflexivity; vm_compute; reflexivity.
Defined.

(** The tables recorded in [shardingTableCreated] exist in the database; dispatching an INSERT
    keeps this so, also when it fails, and afterwards the suffixed table of the statement exists. *)
Theorem created_tables_exist {W G Model} {GEN : Generator G} {MIG : Migrator W Model}
    {LAWS : MigratorLaws W Model} ext t stmt (db : DB Model) (p : Plugin W G Model) r p' :
  created_exist p -> dispatch_insert ext t stmt db p = (r, p') ->
  created_exist p' /\
  forall stmt', r = Ok stmt' -> exists suf,
    tn_Name (ins_TableName stmt') =
      mkIdent (TableName_TableName (ins_TableName stmt) ++ suf) false [] /\
    HasTable (pl_world p') (db_Table db ++ suf) = true.
Proof. apply dispatch_insert_created. Qed.

Lemma created_tables_exist_witness :
  exists r p', dispatch_insert (W := list gostring) (G := Z) sample_ext sample_sharding
      sample_insert (sample_db " " [VInt 42; VInt 1]) sample_plugin = (r, p') /\ created_exist p'.
Proof.
  do 2 eexists. split; [vm_compute; reflexivity|].
  eapply (created_tables_exist (W := list gostring) (G := Z) sample_ext sample_sharding
    sample_insert (sample_db " " [VInt 42; VInt 1]) sample_plugin);
    [intros name H; set_solver|vm_compute; reflexivity].
Defined.
