(* ===== verification/ShardTables.v ===== *)
(** * Sharding rows and migrating tables (db/plugins/table_sharding.go)

    The rest of the plugin's public operations: [ShardingByValues] groups rows by the table they
    belong to, [ShardingIDGen] hands out primary keys, and the sharding dialector and migrator
    create and drop the tables of every suffix in place of the logical table.

    gorm's own migrator is the class [Schema]: it runs on a database handle, whose table may have
    been set, and sees whether the plugin is switched off for the handle. A handle is a number; the
    store [Settings] of its statement is modelled by the set of handles for which the plugin is
    ignored. What a failed call of gorm has done to the database stays done. *)

From stdpp Require Import base list strings numbers option gmap.
From S2P Require Import Prelude SqlToken SqlLexer SqlAst SqlParser SqlWalk ShardKey ShardSql.

(** ** Grouping rows *)

Abbreviation Row := (gmap gostring GoValue).

(** [utils.IsBlank] on a value; [other_blank] is its answer for the values that are not told
    apart. A float is compared with [==], so that both zeros are blank. *)
Definition IsBlank (other_blank : bool) (v : GoValue) : bool :=
  match v with
  | VInt n | VUint n | VIntN _ n | VUintN _ n => n =? 0
  | VFloat w bits => bits mod 2 ^ (8 * Z.of_nat w - 1) =? 0
  | VBool b => negb b
  | VString s => s =s []
  | VBytes b => (length b =? 0)%nat
  | VUUID b => forallb (fun x => x =? 0) b
  | VInts l | VUints l => (length l =? 0)%nat
  | VOther => other_blank
  end.

Section Rows.
Context (ext : External) (t : tableSharding) (other_blank : bool).

(** The values of the sharding keys of a row. *)
Fixpoint row_values (keys : list gostring) (col : Row) : outcome ShardError (list GoValue) :=
  match keys with
  | [] => Ok []
  | k :: keys =>
      match col !! k with
      | None => Err (ErrKeyNotFound k)
      | Some value =>
          if (k =s shardingPrimaryKey t) && IsBlank other_blank value then Err ErrInvalidID
          else (values ⇐ row_values keys col; Ok (value :: values))
      end
  end.

Definition row_suffix (col : Row) : outcome ShardError gostring :=
  values ⇐ row_values (ShardingKeys (config t)) col;
  shardingFunc ext (config t) values.

(** The state is [dst], which is returned beside an error too. *)
Fixpoint shard_rows (src : list Row) : stE (gmap gostring (list Row)) ShardError unit :=
  match src with
  | [] => elift (Ok tt)
  | col :: src =>
      suffix ↞ elift (row_suffix col);
      fun dst => shard_rows src (<[suffix := default [] (dst !! suffix) ++ [col]]> dst)
  end.

Definition ShardingByValues (src : list Row) :
    outcome ShardError unit * gmap gostring (list Row) := shard_rows src ∅.
End Rows.

Definition ShardingIDGen {G} {GEN : Generator G} (t : tableSharding) (g : G) :
    outcome ShardError Z * G :=
  if HasPrimaryKeyGenerator (config t) then Next g else (Err ErrIDGeneratorNotFound, g).

(** ** gorm's migrator *)

(** [AutoMigrate off table models]: on a handle whose table is [table], with the plugin switched
    off when [off]. *)
Class Schema (W Model : Type) := {
  sch_HasTable : W -> gostring -> bool;
  sch_AutoMigrate : bool -> option gostring -> list Model -> stE W ShardError unit;
  sch_DropModels : bool -> list Model -> stE W ShardError unit;
  sch_DropTable : bool -> gostring -> stE W ShardError unit
}.

(** The table names gorm knows for a model: [schema.Tabler], [schema.TablerWithNamer], the name
    embedded in the naming strategy of a handle, and what [Statement.Parse] finds. *)
Class Naming (Model : Type) := {
  Tabler_TableName : Model -> option gostring;
  TablerWithNamer_TableName : nat -> Model -> option gostring;
  embedded_Table : nat -> option gostring;
  stmt_Parse : Model -> outcome ShardError gostring
}.

(** A plugin with the handle it was initialised with. *)
Record Sharding := mkSharding {
  sh_sharding : tableSharding;
  sh_DB : nat
}.

(** The database and the handles for which the plugin is ignored. *)
Record MigState (W : Type) := mkMigState {
  ms_world : W;
  ms_ignored : gset nat
}.
Arguments mkMigState {W} _ _.
Arguments ms_world {W} _.
Arguments ms_ignored {W} _.

Section Migrate.
Context {W Model : Type} {SCH : Schema W Model} {NAM : Naming Model}.

Abbreviation MigM := (stE (MigState W) ShardError).

Definition isIgnored (db : nat) (st : MigState W) : bool := bool_decide (db ∈ ms_ignored st).

(** [defer ignore(db)()] around a body; the flag is taken back only where it was set here. *)
Definition ignore {A} (db : nat) (body : MigM A) : MigM A := fun st =>
  if isIgnored db st then body st
  else
    let '(r, st) := body (mkMigState (ms_world st) ({[db]} ∪ ms_ignored st)) in
    (r, mkMigState (ms_world st) (ms_ignored st ∖ {[db]})).

(** A call of gorm on handle [db]. *)
Definition on_world {A} (db : nat) (op : bool -> stE W ShardError A) : MigM A := fun st =>
  let '(r, w) := op (isIgnored db st) (ms_world st) in (r, mkMigState w (ms_ignored st)).

Definition newShardingDialector (d : option (gmap gostring Sharding)) (s : Sharding) :
    gmap gostring Sharding :=
  match d with
  | Some shardingMap => <[Table (config (sh_sharding s)) := s]> shardingMap
  | None => {[Table (config (sh_sharding s)) := s]}
  end.

Definition tableName (db : nat) (m : Model) : gostring :=
  let name := default [] (Tabler_TableName m) in
  let name := default name (TablerWithNamer_TableName db m) in
  default name (embedded_Table db).

Fixpoint getShardingDst (sharding : tableSharding) (src : list Model) :
    outcome ShardError (list (gostring * Model)) :=
  match src with
  | [] => Ok []
  | model :: src =>
      table ⇐ stmt_Parse model;
      l ⇐ suffixes (config sharding);
      if (length l =? 0)%nat then Err (ErrNoSuffixes table)
      else (dst ⇐ getShardingDst sharding src; Ok (map (fun s => (table ++ s, model)) l ++ dst))
  end.

Definition dst_head (dst : list Model) : outcome ShardError Model :=
  match dst with [] => Panic (str "runtime error: index out of range") | m :: _ => Ok m end.

(** [for _, sd := range shardingDst { if err = op(sd); err != nil { return err } }] *)
Fixpoint each_dst (op : gostring * Model -> MigM unit) (l : list (gostring * Model)) : MigM unit :=
  match l with
  | [] => elift (Ok tt)
  | sd :: l => _ ↞ op sd; each_dst op l
  end.

(** The common shape of the sharding migrator's two operations. *)
Definition over_shards (shardingMap : gmap gostring Sharding) (db : nat) (dst : list Model)
    (whole : nat -> MigM unit) (one : nat -> gostring * Model -> MigM unit) : MigM unit :=
  m ↞ elift (dst_head dst);
  match shardingMap !! tableName db m with
  | None => ignore db (whole db)
  | Some s => fun st =>
      if isIgnored (sh_DB s) st then whole (sh_DB s) st
      else
        (l ↞ elift (getShardingDst (sh_sharding s) dst);
         ignore (sh_DB s) (each_dst (one (sh_DB s)) l)) st
  end.

Definition shardingMigrator_AutoMigrate (shardingMap : gmap gostring Sharding) (db : nat)
    (dst : list Model) : MigM unit :=
  over_shards shardingMap db dst
    (fun h => on_world h (fun off => sch_AutoMigrate off None dst))
    (fun h sd => on_world h (fun off => sch_AutoMigrate off (Some sd.1) [sd.2])).

Definition shardingMigrator_DropTable (shardingMap : gmap gostring Sharding) (db : nat)
    (dst : list Model) : MigM unit :=
  over_shards shardingMap db dst
    (fun h => on_world h (fun off => sch_DropModels off dst))
    (fun h sd => on_world h (fun off => sch_DropTable off sd.1)).

(** [shardingDialector.Migrator]: gorm's own migrator where the plugin is ignored. *)
Definition Dialector_AutoMigrate (shardingMap : gmap gostring Sharding) (db : nat)
    (dst : list Model) : MigM unit := fun st =>
  if isIgnored db st then on_world db (fun off => sch_AutoMigrate off None dst) st
  else shardingMigrator_AutoMigrate shardingMap db dst st.

Definition Dialector_DropTable (shardingMap : gmap gostring Sharding) (db : nat)
    (dst : list Model) : MigM unit := fun st =>
  if isIgnored db st then on_world db (fun off => sch_DropModels off dst) st
  else shardingMigrator_DropTable shardingMap db dst st.
End Migrate.
