(* ===== verification/ShardTablesSpec.v ===== *)
(** * Grouped rows and migrated tables

    [ShardingByValues] partitions its rows by table. The migrator creates every table that a row
    can be routed to, drops exactly those tables, and leaves the handles' ignore flags as they
    were. The laws of gorm's migrator ([SchemaLaws]) are what its documentation states. *)

From stdpp Require Import base list strings numbers option gmap.
From S2P Require Import Prelude SqlToken SqlLexer SqlAst SqlParser SqlWalk ShardKey ShardKeySpec.
From S2P Require Import ShardSql ShardTables.

(** ** Rows *)

Section Rows.
Context (ext : External) (t : tableSharding) (ob : bool).

Abbreviation suffix_of := (row_suffix ext t ob).

(** The rows of a list that belong to suffix [s], in order. *)
Definition rows_of (s : gostring) (src : list Row) : list Row :=
  List.filter (fun col => match suffix_of col with Ok s' => s' =s s | _ => false end) src.

Lemma rows_of_cons s col src s' :
  suffix_of col = Ok s' ->
  rows_of s (col :: src) = (if s' =s s then [col] else []) ++ rows_of s src.
Proof. intros H. unfold rows_of. simpl. rewrite H. by destruct (s' =s s). Qed.

(** What a run over rows does: it groups a prefix, all of it unless a row fails. *)
Lemma shard_rows_spec src dst :
  let '(r, dst') := shard_rows ext t ob src dst in
  exists n, (n <= length src)%nat /\
    Forall (fun col => exists s, suffix_of col = Ok s) (take n src) /\
    (forall s, default [] (dst' !! s) = default [] (dst !! s) ++ rows_of s (take n src)) /\
    match src !! n with
    | None => r = Ok tt
    | Some col => r = (_ ⇐ suffix_of col; Ok tt) /\ r ≠ Ok tt
    end.
Proof.
  revert dst. induction src as [|col src IH]; intros dst; simpl.
  { exists O. simpl. split_and!; try done. intros s. by rewrite app_nil_r. }
  unfold ebind, elift. destruct (suffix_of col) as [s|e|msg|] eqn:Hs.
  2-4: exists O; simpl; split_and!; [lia|done|intros; by rewrite app_nil_r|by rewrite Hs|done].
  specialize (IH (<[s := default [] (dst !! s) ++ [col]]> dst)).
  destruct (shard_rows ext t ob src _) as [r dst'].
  destruct IH as (n & Hn & Hall & Hd & Hr). exists (S n).
  change (take (S n) (col :: src)) with (col :: take n src).
  change ((col :: src) !! S n) with (src !! n). split_and!; [simpl; lia|..].
  - constructor; [by exists s|done].
  - intros s'. rewrite Hd, (rows_of_cons _ _ _ _ Hs), app_assoc. f_equal.
    unfold streqb. destruct (bool_decide_reflect (s = s')) as [->|Hne].
    + by rewrite lookup_insert_eq.
    + by rewrite lookup_insert_ne, app_nil_r.
  - done.
Qed.
End Rows.

(** [ShardingByValues] partitions the rows it was able to place: every suffix gets exactly the
    rows that the sharding function sends there, in their order. All rows are placed unless the
    keys of a row are missing, blank or refused; the outcome is then the one of the first such row,
    and the rows before it are returned. *)
Theorem ShardingByValues_partition ext t ob src :
  let '(r, dst) := ShardingByValues ext t ob src in
  exists n, (n <= length src)%nat /\
    Forall (fun col => exists s, row_suffix ext t ob col = Ok s) (take n src) /\
    (forall s, default [] (dst !! s) = rows_of ext t ob s (take n src)) /\
    match src !! n with
    | None => r = Ok tt
    | Some col => r = (_ ⇐ row_suffix ext t ob col; Ok tt) /\ r ≠ Ok tt
    end.
Proof. exact (shard_rows_spec ext t ob src ∅). Qed.

(** ** The migrator *)

(** What gorm's migrator documents, with the plugin switched off: [AutoMigrate] on a table creates
    it and never drops a table; [DropTable] drops its table and no other one. *)
Class SchemaLaws (W Model : Type) {SCH : Schema W Model} : Prop := {
  AutoMigrate_creates table (m : Model) w w' :
    sch_AutoMigrate true (Some table) [m] w = (Ok tt, w') -> sch_HasTable w' table = true;
  AutoMigrate_keeps off table (ms : list Model) w r w' table' :
    sch_AutoMigrate off table ms w = (r, w') ->
    sch_HasTable w table' = true -> sch_HasTable w' table' = true;
  DropTable_drops table w w' :
    sch_DropTable true table w = (Ok tt, w') -> sch_HasTable w' table = false;
  DropTable_others table w r w' table' :
    sch_DropTable true table w = (r, w') -> table' ≠ table ->
    sch_HasTable w' table' = sch_HasTable w table'
}.

Section Migrate.
Context {W Model : Type} {SCH : Schema W Model} {NAM : Naming Model}.
Implicit Types (st : MigState W) (m : Model).

(** The tables of the shards of a list of models. *)
Lemma getShardingDst_tables sharding src l m table suf s :
  getShardingDst sharding src = Ok l -> m ∈ src -> stmt_Parse m = Ok table ->
  suffixes (config sharding) = Ok suf -> s ∈ suf -> (table ++ s, m) ∈ l.
Proof.
  revert l. induction src as [|m' src IH]; intros l Hl Hm Ht Hsuf Hs; [by apply elem_of_nil in Hm|].
  simpl in Hl. unfold out_bind in Hl. rewrite Hsuf in Hl.
  destruct (stmt_Parse m') as [table'| | |] eqn:Ht'; try done.
  destruct (length suf =? 0)%nat; [done|].
  destruct (getShardingDst sharding src) as [dst| | |]; try done. injection Hl as <-.
  apply elem_of_app. apply elem_of_cons in Hm as [<-|Hm].
  - left. rewrite Ht in Ht'. injection Ht' as <-. apply list_elem_of_fmap. by exists s.
  - right. by apply IH.
Qed.

Lemma getShardingDst_inv sharding src l table m :
  getShardingDst sharding src = Ok l -> (table, m) ∈ l ->
  m ∈ src /\ exists name suf s, stmt_Parse m = Ok name /\ suffixes (config sharding) = Ok suf /\
    s ∈ suf /\ table = name ++ s.
Proof.
  revert l. induction src as [|m' src IH]; intros l Hl Hin; simpl in Hl.
  { injection Hl as <-. by apply elem_of_nil in Hin. }
  unfold out_bind in Hl. destruct (stmt_Parse m') as [name| | |] eqn:Ht'; try done.
  destruct (suffixes (config sharding)) as [suf| | |] eqn:Hsuf; try done.
  destruct (length suf =? 0)%nat; [done|].
  destruct (getShardingDst sharding src) as [dst| | |]; try done. injection Hl as <-.
  apply elem_of_app in Hin as [Hin|Hin].
  - apply list_elem_of_fmap in Hin as (s & [= -> ->] & Hs). split; [by left|]. by exists name, suf, s.
  - destruct (IH _ eq_refl Hin) as (Hm & H). split; [by right|done].
Qed.

(** *** The ignore flags *)

(** A step that leaves the flags alone, whatever its outcome. *)
Definition keeps_flags {A} (m : stE (MigState W) ShardError A) : Prop :=
  forall st, ms_ignored (m st).2 = ms_ignored st.

Lemma keeps_flags_bind {A B} (m : stE (MigState W) ShardError A) (f : A -> stE _ ShardError B) :
  keeps_flags m -> (forall a, keeps_flags (f a)) -> keeps_flags (ebind m f).
Proof.
  intros Hm Hf st. unfold ebind. specialize (Hm st). destruct (m st) as [[a|e|msg|] st']; try done.
  simpl in Hm. by rewrite Hf.
Qed.

Lemma keeps_flags_world {A} h (op : bool -> stE W ShardError A) : keeps_flags (on_world h op).
Proof. intros st. unfold on_world. by destruct (op _ _). Qed.

Lemma keeps_flags_ignore {A} h (m : stE (MigState W) ShardError A) :
  keeps_flags m -> keeps_flags (ignore h m).
Proof.
  intros Hm st. unfold ignore, isIgnored. destruct (bool_decide_reflect (h ∈ ms_ignored st)); [done|].
  specialize (Hm (mkMigState (ms_world st) ({[h]} ∪ ms_ignored st))). destruct (m _) as [r st'].
  simpl in *. rewrite Hm. clear Hm.
  rewrite difference_union_distr_l_L, difference_diag_L, union_empty_l_L.
  apply difference_disjoint_L. by apply disjoint_singleton_r.
Qed.

Lemma keeps_flags_each op (l : list (gostring * Model)) :
  (forall sd, keeps_flags (op sd)) -> keeps_flags (each_dst op l).
Proof. intros Hop. induction l as [|sd l IH]; [done|]. by apply keeps_flags_bind. Qed.

Lemma keeps_flags_over sm db (dst : list Model) whole one :
  (forall h, keeps_flags (whole h)) -> (forall h sd, keeps_flags (one h sd)) ->
  keeps_flags (over_shards sm db dst whole one).
Proof.
  intros Hw Ho. apply keeps_flags_bind; [done|]. intros m.
  destruct (sm !! tableName db m) as [s|]; [|by apply keeps_flags_ignore].
  intros st. destruct (isIgnored (sh_DB s) st); [apply Hw|].
  apply (keeps_flags_bind (elift (getShardingDst (sh_sharding s) dst))); [done|].
  intros l. apply keeps_flags_ignore, keeps_flags_each, Ho.
Qed.

(** *** The tables *)

Lemma own_flag (w : W) (h : nat) X : h ∈ ms_ignored (mkMigState w ({[h]} ∪ X)).
Proof. cbn [ms_ignored]. apply elem_of_union_l. by apply elem_of_singleton. Qed.

(** A run of the loop on a handle for which the plugin is ignored. *)
Lemma each_world (op : bool -> gostring * Model -> stE W ShardError unit) h l st st' :
  h ∈ ms_ignored st ->
  each_dst (fun sd => on_world h (fun off => op off sd)) l st = (Ok tt, st') ->
  match l with
  | [] => st' = st
  | sd :: l => exists w, op true sd (ms_world st) = (Ok tt, w) /\
      each_dst (fun sd => on_world h (fun off => op off sd)) l (mkMigState w (ms_ignored st)) =
        (Ok tt, st')
  end.
Proof.
  intros Hh. destruct l as [|sd l]; simpl; [by intros [= ->]|].
  unfold ebind, on_world, isIgnored. rewrite bool_decide_true by done.
  destruct (op true sd (ms_world st)) as [[[]|e|msg|] w]; try done. intros H. by exists w.
Qed.

(** A successful call for a sharded model ran the loop with the plugin switched off. *)
Lemma over_shards_ok sm db m (dst : list Model) s whole one st st' :
  sm !! tableName db m = Some s -> sh_DB s ∉ ms_ignored st ->
  over_shards sm db (m :: dst) whole one st = (Ok tt, st') ->
  exists l st2, getShardingDst (sh_sharding s) (m :: dst) = Ok l /\
    each_dst (one (sh_DB s)) l (mkMigState (ms_world st) ({[sh_DB s]} ∪ ms_ignored st)) =
      (Ok tt, st2) /\ ms_world st' = ms_world st2.
Proof.
  intros Hs Hn. unfold over_shards, ebind at 1. cbn [elift dst_head]. rewrite Hs.
  unfold isIgnored at 1. rewrite bool_decide_false by done. unfold ebind, elift.
  destruct (getShardingDst (sh_sharding s) (m :: dst)) as [l|e|msg|]; try done.
  unfold ignore, isIgnored. rewrite bool_decide_false by done.
  destruct (each_dst _ _ _) as [r st2] eqn:Hr. intros [= -> <-]. by exists l, st2.
Qed.

Context {LAWS : SchemaLaws W Model}.

Lemma each_migrate h l st st' :
  h ∈ ms_ignored st ->
  each_dst (fun sd => on_world h (fun off => sch_AutoMigrate off (Some sd.1) [sd.2])) l st =
    (Ok tt, st') ->
  (forall table m, (table, m) ∈ l -> sch_HasTable (ms_world st') table = true) /\
  (forall table, sch_HasTable (ms_world st) table = true ->
    sch_HasTable (ms_world st') table = true).
Proof.
  revert st. induction l as [|[tb m] l IH]; intros st Hh Hr;
    apply (each_world (fun off sd => sch_AutoMigrate off (Some sd.1) [sd.2])) in Hr; try done.
  - subst. split; [|done]. intros ? ? H. by apply elem_of_nil in H.
  - destruct Hr as (w & Hw & Hr). apply IH in Hr as [Hin Hk]; [|done]. simpl in *. split.
    + intros table m' H. apply elem_of_cons in H as [[= -> ->]|H]; [|by eapply Hin].
      apply Hk. by eapply AutoMigrate_creates.
    + intros table H. apply Hk. by eapply AutoMigrate_keeps.
Qed.

Lemma each_drop h (l : list (gostring * Model)) st st' :
  h ∈ ms_ignored st ->
  each_dst (fun sd => on_world h (fun off => sch_DropTable off sd.1)) l st = (Ok tt, st') ->
  (forall table, sch_HasTable (ms_world st') table =
    if bool_decide (table ∈ l.*1) then false else sch_HasTable (ms_world st) table).
Proof.
  revert st. induction l as [|[tb m] l IH]; intros st Hh Hr table;
    apply (each_world (fun off (sd : gostring * Model) => sch_DropTable off sd.1)) in Hr; try done.
  - by subst.
  - destruct Hr as (w & Hw & Hr). eapply (IH (mkMigState w (ms_ignored st))) in Hr; [|done].
    rewrite Hr. clear Hr. simpl in *.
    destruct (decide (table ∈ l.*1)) as [Hin|Hin].
    + rewrite !bool_decide_true; [done|by right|done].
    + rewrite (bool_decide_false (table ∈ l.*1)) by done.
      destruct (decide (table = tb)) as [->|Hne].
      * rewrite bool_decide_true by left. by eapply DropTable_drops.
      * rewrite bool_decide_false by (rewrite elem_of_cons; tauto). by eapply DropTable_others.
Qed.
End Migrate.

(** ** Claims on migrations *)

(** C40: after a migration of a table sharded by checksum, with a suffix format of one integer verb (so with fewer
    than 10000 shards, unless [CustomSuffix] has the verb), has succeeded, every table a row can be routed
    to exists: for each migrated model, with whatever key values the sharding function returns a suffix,
    the table of that suffix is there. *)
Theorem migrated_tables_exist {W Model} {SCH : Schema W Model} {NAM : Naming Model}
    {LAWS : SchemaLaws W Model} ext sm db m dst s (st st' : MigState W) model table values suffix :
  sm !! tableName db m = Some s -> well_sharded (config (sh_sharding s)) ->
  db ∉ ms_ignored st -> sh_DB s ∉ ms_ignored st ->
  Dialector_AutoMigrate sm db (m :: dst) st = (Ok tt, st') ->
  model ∈ m :: dst -> stmt_Parse model = Ok table ->
  shardingFunc ext (config (sh_sharding s)) values = Ok suffix ->
  sch_HasTable (ms_world st') (table ++ suffix) = true.
Proof.
  intros Hs Hws Hdb Hn Hrun Hm Ht Hv. unfold Dialector_AutoMigrate, isIgnored at 1 in Hrun.
  rewrite bool_decide_false in Hrun by done.
  apply (over_shards_ok _ _ _ _ s) in Hrun as (l & st2 & Hl & Hr & ->); [|done|done].
  destruct (well_sharded_suffixes _ Hws) as [suf Hsuf].
  apply each_migrate in Hr as [Hin _]; [|apply own_flag].
  eapply Hin, getShardingDst_tables; [done..|]. by eapply well_sharded_suffix.
Qed.

(** The tables of the shards of some models. *)
Definition shard_table {Model} {NAM : Naming Model} (t : tableSharding) (models : list Model)
    (table : gostring) : Prop :=
  exists m name suf s, m ∈ models /\ stmt_Parse m = Ok name /\ suffixes (config t) = Ok suf /\
    s ∈ suf /\ table = name ++ s.

Lemma getShardingDst_shards {Model} {NAM : Naming Model} t (src : list Model) l table :
  getShardingDst t src = Ok l -> table ∈ l.*1 <-> shard_table t src table.
Proof.
  intros Hl. rewrite list_elem_of_fmap. split.
  - intros ([tb m] & -> & Hin). destruct (getShardingDst_inv _ _ _ _ _ Hl Hin) as (Hm & H).
    destruct H as (name & suf & s & H). by exists m, name, suf, s.
  - intros (m & name & suf & s & Hm & Hp & Hsuf & Hs & ->). exists (name ++ s, m).
    split; [done|]. by eapply getShardingDst_tables.
Qed.

(** Dropping a sharded table that succeeds drops the tables of all its shards and no other
    table. *)
Theorem dropped_tables_exact {W Model} {SCH : Schema W Model} {NAM : Naming Model}
    {LAWS : SchemaLaws W Model} sm db m dst s (st st' : MigState W) table :
  sm !! tableName db m = Some s -> db ∉ ms_ignored st -> sh_DB s ∉ ms_ignored st ->
  Dialector_DropTable sm db (m :: dst) st = (Ok tt, st') ->
  (shard_table (sh_sharding s) (m :: dst) table -> sch_HasTable (ms_world st') table = false) /\
  (~ shard_table (sh_sharding s) (m :: dst) table ->
    sch_HasTable (ms_world st') table = sch_HasTable (ms_world st) table).
Proof.
  intros Hs Hdb Hn Hrun. unfold Dialector_DropTable, isIgnored at 1 in Hrun.
  rewrite bool_decide_false in Hrun by done.
  apply (over_shards_ok _ _ _ _ s) in Hrun as (l & st2 & Hl & Hr & ->); [|done|done].
  apply each_drop with (table := table) in Hr; [|apply own_flag].
  rewrite Hr. simpl. rewrite <- (getShardingDst_shards _ _ _ table Hl).
  split; intros H; [by rewrite bool_decide_true|by rewrite bool_decide_false].
Qed.

(** Migrating and dropping leave the plugin switched on or off for every handle as it was,
    whatever they return: success, an error or a panic. *)
Theorem migrations_restore_flags {W Model} {SCH : Schema W Model} {NAM : Naming Model}
    sm db (dst : list Model) (st : MigState W) :
  ms_ignored (Dialector_AutoMigrate sm db dst st).2 = ms_ignored st /\
  ms_ignored (Dialector_DropTable sm db dst st).2 = ms_ignored st.
Proof.
  unfold Dialector_AutoMigrate, Dialector_DropTable.
  destruct (isIgnored db st); split; try apply keeps_flags_world.
  all: apply keeps_flags_over; intros; apply keeps_flags_world.
Qed.

(** ** A database for the witnesses *)

(** The database is the list of its tables; a model is the name of its table. *)
#[global] Instance list_schema : Schema (list gostring) gostring := {|
  sch_HasTable := fun w table => bool_decide (table ∈ w);
  sch_AutoMigrate := fun _ table ms w =>
    (Ok tt, match table with Some tb => tb :: w | None => ms ++ w end);
  sch_DropModels := fun _ ms w => (Ok tt, filter (fun tb => tb ∉ ms) w);
  sch_DropTable := fun _ table w => (Ok tt, filter (fun tb => tb ≠ table) w)
|}.

#[global] Instance list_naming : Naming gostring := {|
  Tabler_TableName := fun m => Some m;
  TablerWithNamer_TableName := fun _ _ => None;
  embedded_Table := fun _ => None;
  stmt_Parse := fun m => Ok m
|}.

#[global] Instance list_schema_laws : SchemaLaws (list gostring) gostring.
Proof.
  split; simpl.
  - intros table m w w' [= <-]. apply bool_decide_eq_true. left.
  - intros off table ms w r w' tb [= _ <-]. rewrite !bool_decide_eq_true. intros H.
    destruct table; [by right|]. apply elem_of_app. by right.
  - intros table w w' [= <-]. apply bool_decide_eq_false. rewrite list_elem_of_filter. by intros [[] _].
  - intros table w r w' tb [= _ <-] Hne. apply bool_decide_ext. rewrite list_elem_of_filter. tauto.
Qed.

Definition sample_shard : Sharding := mkSharding (mkTableSharding sample_config false []) 1.

Definition sample_map : gmap gostring Sharding := newShardingDialector None sample_shard.

Definition sample_migrated : MigState (list gostring) :=
  (Dialector_AutoMigrate sample_map 0 [str "orders"] (mkMigState [str "users"] ∅)).2.

Lemma migrated_tables_exist_witness :
  sch_HasTable (ms_world sample_migrated) (str "orders_user_id_11") = true.
Proof.
  apply (migrated_tables_exist sample_ext sample_map 0 (str "orders") [] sample_shard
    (mkMigState [str "users"] ∅) sample_migrated (str "orders") (str "orders") [VInt 42]
    (str "_user_id_11")); try (vm_compute; reflexivity); try (by apply not_elem_of_empty).
  - apply sample_config_ok.
  - left.
Defined.

Lemma dropped_tables_exact_witness :
  let st := (Dialector_DropTable sample_map 0 [str "orders"] sample_migrated).2 in
  sch_HasTable (ms_world st) (str "users") = true.
Proof.
  intros st. transitivity (sch_HasTable (ms_world sample_migrated) (str "users")).
  - apply (dropped_tables_exact sample_map 0 (str "orders") [] sample_shard sample_migrated st
      (str "users")).
    + vm_compute. reflexivity.
    + eapply (bool_decide_unpack _ (dec := _)). vm_compute. exact I.
    + eapply (bool_decide_unpack _ (dec := _)). vm_compute. exact I.
    + vm_compute. reflexivity.
    + intros (m & name & suf & s & Hm & Hp & _ & _ & Heq). apply list_elem_of_singleton in Hm as ->.
      injection Hp as <-. discriminate Heq.
  - vm_compute. reflexivity.
Defined.
