(* ===== verification/Redis.v ===== *)
(** The Redis commands the task queue issues, as functions on the value stored under a key.

    A sorted set is the list of its members with their scores in the order Redis keeps them (by
    score, then by member); a list is a Rocq list whose head is the left end; a string key with a
    time to live is a value with its expiry instant.  Commands that can be refused return the error
    reply.  The lemmas say which members every command leaves in the set, that members stay
    distinct and that the order is kept. *)
From stdpp Require Import base list strings numbers option gmap sorting.
From S2P Require Import Prelude.

(** A filter that keeps everything. *)
Lemma list_filter_all {A} (P : A -> Prop) `{forall x, Decision (P x)} (l : list A) :
  Forall P l -> filter P l = l.
Proof. induction 1 as [|x l Hx Hl IH]; [done|]. rewrite filter_cons, decide_True by done. by rewrite IH. Qed.

(** Two filters that agree on the elements of the list. *)
Lemma list_filter_iff' {A} (P Q : A -> Prop) `{forall x, Decision (P x), forall x, Decision (Q x)} (l : list A) :
  (forall x, x ∈ l -> P x <-> Q x) -> filter P l = filter Q l.
Proof.
  induction l as [|x l IH]; intros HPQ; [done|]. rewrite !filter_cons.
  rewrite IH by (intros y Hy; apply HPQ; by apply list_elem_of_further).
  assert (P x <-> Q x) as Hx by (apply HPQ, list_elem_of_here).
  repeat case_decide; tauto.
Qed.

(** ** Order of the members of a sorted set *)

(** Lexicographic order of byte strings. *)
Fixpoint lex_leb (a b : gostring) : bool :=
  match a, b with
  | [], _ => true
  | _ :: _, [] => false
  | x :: a, y :: b => (x <? y) || ((x =? y) && lex_leb a b)
  end.

Lemma lex_leb_total a b : lex_leb a b || lex_leb b a = true.
Proof.
  revert b. induction a as [|x a IH]; intros [|y b]; simpl; try done.
  destruct (Z.ltb_spec x y), (Z.ltb_spec y x), (Z.eqb_spec x y), (Z.eqb_spec y x);
    simpl; try lia; auto.
Qed.

Lemma lex_leb_trans a b c : lex_leb a b = true -> lex_leb b c = true -> lex_leb a c = true.
Proof.
  revert b c. induction a as [|x a IH]; intros [|y b] [|z c]; simpl; try done.
  rewrite !orb_true_iff, !andb_true_iff, !Z.ltb_lt, !Z.eqb_eq.
  intros [?|[-> ?]] [?|[-> ?]]; [left; lia..|]. right. eauto.
Qed.

(** A type of sorted-set members. *)
Class ZMember (M : Type) := {
  zmember_eq :: EqDecision M;
  zleb : M -> M -> bool;
  zleb_total : forall a b, zleb a b || zleb b a = true;
  zleb_trans : forall a b c, zleb a b = true -> zleb b c = true -> zleb a c = true
}.

#[global] Instance zmember_string : ZMember gostring :=
  {| zleb := lex_leb; zleb_total := lex_leb_total; zleb_trans := lex_leb_trans |}.

(** ** Sorted sets *)
Abbreviation zset M := (list (M * Z)).

Section zset.
Context {M : Type} `{ZMember M}.
Implicit Types (m x : M) (e : M * Z) (z : zset M).

Definition zelem_leb (a b : M * Z) : bool :=
  (a.2 <? b.2) || ((a.2 =? b.2) && zleb a.1 b.1).

Definition zelem_le (a b : M * Z) : Prop := zelem_leb a b = true.

Fixpoint zinsert e z : zset M :=
  match z with
  | [] => [e]
  | e' :: z' => if zelem_leb e e' then e :: z else e' :: zinsert e z'
  end.

(** The members, in order. *)
Definition zmembers z : list M := map fst z.

(** [ZSCORE]: [None] is the nil reply. *)
Definition ZSCORE z m : option Z := snd <$> List.find (fun e => bool_decide (e.1 = m)) z.

(** [ZREM key member]: the number of members removed, and the set. *)
Definition zrem m z : zset M := filter (fun e => e.1 <> m) z.
Definition ZREM z m : Z * zset M := (Z.of_nat (length z - length (zrem m z)), zrem m z).

(** [ZADD key score member]: the number of members that are new, and the set. *)
Definition zadd s m z : zset M := zinsert (m, s) (zrem m z).
Definition ZADD z s m : Z * zset M :=
  ((if bool_decide (m ∈ zmembers z) then 0 else 1), zadd s m z).

(** [ZADD key XX score member]: only members that are there already are updated. *)
Definition zadd_xx s m z : zset M := if bool_decide (m ∈ zmembers z) then zadd s m z else z.

Definition ZCARD z : Z := Z.of_nat (length z).

(** The positions a pair of Redis indices denotes: negative ones count from the end, and a range
    outside the set is cut to it.  The first position and the number of elements. *)
Definition zindices (len start stop : Z) : nat * nat :=
  let start := if start <? 0 then len + start else start in
  let stop := if stop <? 0 then len + stop else stop in
  let start := Z.max 0 start in
  if (stop <? start) || (len <=? start) then (0%nat, 0%nat)
  else (Z.to_nat start, Z.to_nat (Z.min stop (len - 1) - start + 1)).

(** [ZRANGE key start stop WITHSCORES]. *)
Definition ZRANGE z (start stop : Z) : zset M :=
  let '(i, n) := zindices (ZCARD z) start stop in take n (drop i z).

(** [ZREVRANGE key start stop WITHSCORES]. *)
Definition ZREVRANGE z (start stop : Z) : zset M := ZRANGE (rev z) start stop.

(** [ZREMRANGEBYRANK key start stop]. *)
Definition ZREMRANGEBYRANK z (start stop : Z) : zset M :=
  let '(i, n) := zindices (ZCARD z) start stop in take i z ++ drop (i + n) z.

(** [ZRANGEBYSCORE key -inf max], and with [LIMIT 0 n]. *)
Definition ZRANGEBYSCORE z (max : Z) : zset M := filter (fun e => e.2 <= max) z.
Definition ZRANGEBYSCORE_LIMIT z (max : Z) (n : nat) : zset M := take n (ZRANGEBYSCORE z max).

(** [ZREMRANGEBYSCORE key -inf max]. *)
Definition ZREMRANGEBYSCORE z (max : Z) : zset M := filter (fun e => max < e.2) z.

(** *** Which members a command leaves *)

Lemma elem_of_zmembers z m : m ∈ zmembers z <-> exists s, (m, s) ∈ z.
Proof.
  unfold zmembers. rewrite list_elem_of_fmap. split.
  - intros ([m' s] & -> & ?). eauto.
  - intros [s ?]. by exists (m, s).
Qed.

Lemma elem_of_zinsert e e' z : e ∈ zinsert e' z <-> e = e' \/ e ∈ z.
Proof.
  induction z as [|a z IH]; simpl; [by rewrite list_elem_of_singleton, elem_of_nil; naive_solver|].
  destruct (zelem_leb e' a); rewrite !elem_of_cons; [done|]. rewrite IH. tauto.
Qed.

Lemma elem_of_zrem e m z : e ∈ zrem m z <-> e.1 <> m /\ e ∈ z.
Proof. unfold zrem. by rewrite list_elem_of_filter. Qed.

Lemma elem_of_zmembers_zrem x m z : x ∈ zmembers (zrem m z) <-> x <> m /\ x ∈ zmembers z.
Proof.
  rewrite !elem_of_zmembers. setoid_rewrite elem_of_zrem. naive_solver.
Qed.

Lemma elem_of_zadd e s m z : e ∈ zadd s m z <-> e = (m, s) \/ (e.1 <> m /\ e ∈ z).
Proof. unfold zadd. by rewrite elem_of_zinsert, elem_of_zrem. Qed.

Lemma elem_of_zmembers_zadd x s m z : x ∈ zmembers (zadd s m z) <-> x = m \/ x ∈ zmembers z.
Proof.
  rewrite !elem_of_zmembers. setoid_rewrite elem_of_zadd. split.
  - naive_solver.
  - intros [->|[s' Hs']]; [eauto|].
    destruct (decide (x = m)) as [->|]; [eauto|]. exists s'. right. done.
Qed.

Lemma elem_of_zmembers_zadd_xx x s m z :
  x ∈ zmembers (zadd_xx s m z) <-> x ∈ zmembers z.
Proof.
  unfold zadd_xx. case_bool_decide; [|done]. rewrite elem_of_zmembers_zadd. naive_solver.
Qed.

Lemma elem_of_ZRANGEBYSCORE e max z : e ∈ ZRANGEBYSCORE z max <-> e.2 <= max /\ e ∈ z.
Proof. unfold ZRANGEBYSCORE. by rewrite list_elem_of_filter. Qed.

Lemma elem_of_ZREMRANGEBYSCORE e max z : e ∈ ZREMRANGEBYSCORE z max <-> max < e.2 /\ e ∈ z.
Proof. unfold ZREMRANGEBYSCORE. by rewrite list_elem_of_filter. Qed.

Lemma ZRANGE_REMRANGE z start stop : Permutation (ZRANGE z start stop ++ ZREMRANGEBYRANK z start stop) z.
Proof.
  unfold ZRANGE, ZREMRANGEBYRANK. destruct (zindices _ _ _) as [i n].
  rewrite <- drop_drop, Permutation_app_comm, <- app_assoc.
  rewrite (Permutation_app_comm (drop n _)), take_drop. by rewrite take_drop.
Qed.

Lemma ZRANGE_all z : ZRANGE z 0 (-1) = z.
Proof.
  unfold ZRANGE, zindices, ZCARD. destruct z as [|e z]; [done|].
  cbn [Z.ltb Z.compare]. rewrite Z.max_id.
  replace (_ || _) with false.
  - cbn [drop]. apply take_ge. lia.
  - symmetry. apply orb_false_iff. cbn [length]. split; [apply Z.ltb_ge|apply Z.leb_gt]; lia.
Qed.

(** *** Distinct members *)

Lemma zrem_none m z : m ∉ zmembers z -> zrem m z = z.
Proof.
  intros Hm. unfold zrem. apply list_filter_all. apply Forall_forall. intros e He <-.
  apply Hm. apply elem_of_zmembers. exists e.2. by destruct e.
Qed.

Lemma zinsert_perm e z : Permutation (zinsert e z) (e :: z).
Proof.
  induction z as [|a z IH]; simpl; [done|]. destruct (zelem_leb e a); [done|].
  rewrite IH. apply Permutation_swap.
Qed.

Lemma zmembers_zrem m z : zmembers (zrem m z) = filter (fun x => x <> m) (zmembers z).
Proof.
  unfold zmembers, zrem. induction z as [|[x s] z IH]; [done|].
  rewrite !filter_cons. cbn [fst map]. rewrite filter_cons. by case_decide; simpl; rewrite IH.
Qed.

Lemma NoDup_zrem m z : NoDup (zmembers z) -> NoDup (zmembers (zrem m z)).
Proof. rewrite zmembers_zrem. apply NoDup_filter. Qed.

Lemma NoDup_zadd s m z : NoDup (zmembers z) -> NoDup (zmembers (zadd s m z)).
Proof.
  intros Hz. unfold zadd, zmembers. rewrite zinsert_perm. cbn [map fst].
  apply NoDup_cons. split; [|by apply NoDup_zrem].
  change (m ∉ zmembers (zrem m z)). rewrite elem_of_zmembers_zrem. naive_solver.
Qed.

Lemma NoDup_zadd_xx s m z : NoDup (zmembers z) -> NoDup (zmembers (zadd_xx s m z)).
Proof. unfold zadd_xx. case_bool_decide; [apply NoDup_zadd|done]. Qed.

(** A member has one score. *)
Lemma NoDup_zscore z m s s' : NoDup (zmembers z) -> (m, s) ∈ z -> (m, s') ∈ z -> s' = s.
Proof.
  induction z as [|[x t] z IH]; intros Hnd H1 H2; [by apply elem_of_nil in H1|].
  unfold zmembers in Hnd. cbn in Hnd. apply NoDup_cons in Hnd as [Hx Hnd].
  assert (Hno : forall u, (x, u) ∉ z).
  { intros u Hu. apply Hx. change (x ∈ zmembers z). apply elem_of_zmembers. eauto. }
  rewrite !elem_of_cons in H1, H2. destruct H1 as [H1|H1], H2 as [H2|H2]; simplify_eq.
  all: try done; try (by exfalso; eapply Hno). by apply IH.
Qed.

Lemma NoDup_zsublist z z' : sublist z z' -> NoDup (zmembers z') -> NoDup (zmembers z).
Proof. intros Hs Hz. eapply sublist_NoDup; [exact Hz|]. by apply fmap_sublist. Qed.

Lemma sublist_ZREMRANGEBYSCORE z max : sublist (ZREMRANGEBYSCORE z max) z.
Proof. apply sublist_filter. Qed.

Lemma sublist_ZRANGEBYSCORE z max : sublist (ZRANGEBYSCORE z max) z.
Proof. apply sublist_filter. Qed.

Lemma sublist_ZRANGEBYSCORE_LIMIT z max n : sublist (ZRANGEBYSCORE_LIMIT z max n) z.
Proof. etransitivity; [apply sublist_take|apply sublist_ZRANGEBYSCORE]. Qed.

Lemma sublist_ZREMRANGEBYRANK z start stop : sublist (ZREMRANGEBYRANK z start stop) z.
Proof.
  unfold ZREMRANGEBYRANK. destruct (zindices _ _ _) as [i n].
  rewrite <- (take_drop i z) at 3. apply sublist_app; [done|].
  rewrite <- drop_drop. apply sublist_drop.
Qed.

Lemma sublist_ZRANGE z start stop : sublist (ZRANGE z start stop) z.
Proof.
  unfold ZRANGE. destruct (zindices _ _ _) as [i n].
  etransitivity; [apply sublist_take|apply sublist_drop].
Qed.

(** *** The order is kept *)

#[global] Instance zelem_le_trans : Transitive zelem_le.
Proof.
  intros [a s] [b t] [c u]. unfold zelem_le, zelem_leb. cbn [fst snd].
  rewrite !orb_true_iff, !andb_true_iff, !Z.ltb_lt, !Z.eqb_eq.
  intros [?|[-> ?]] [?|[-> ?]]; [left; lia..|]. right. split; [done|]. by eapply zleb_trans.
Qed.

Lemma zelem_le_total a b : zelem_leb a b = false -> zelem_le b a.
Proof.
  unfold zelem_le, zelem_leb. destruct (Z.ltb_spec a.2 b.2), (Z.ltb_spec b.2 a.2),
    (Z.eqb_spec a.2 b.2), (Z.eqb_spec b.2 a.2); simpl; try lia; auto.
  intros Hab. pose proof (zleb_total a.1 b.1) as Ht. by rewrite Hab in Ht.
Qed.

Lemma zinsert_sorted e z : StronglySorted zelem_le z -> StronglySorted zelem_le (zinsert e z).
Proof.
  induction 1 as [|a z Hz IH Ha]; simpl; [repeat constructor|].
  destruct (zelem_leb e a) eqn:Hle.
  - constructor; [by constructor|]. constructor; [done|].
    eapply Forall_impl; [exact Ha|]. intros b Hb. by etransitivity.
  - constructor; [done|]. apply Forall_forall. intros b. rewrite elem_of_zinsert.
    intros [->|Hb]; [by apply zelem_le_total|]. by eapply Forall_forall in Ha.
Qed.

Lemma sublist_sorted (z z' : zset M) :
  sublist z z' -> StronglySorted zelem_le z' -> StronglySorted zelem_le z.
Proof.
  induction 1 as [|e z z' Hs IH|e z z' Hs IH]; intros Hz; [done| |].
  - inversion Hz as [|? ? Hz' He]; subst. constructor; [auto|].
    apply Forall_forall. intros b Hb. eapply Forall_forall in He; [done|].
    by eapply elem_of_submseteq, sublist_submseteq.
  - inversion Hz; subst. auto.
Qed.

Lemma zrem_sorted m z : StronglySorted zelem_le z -> StronglySorted zelem_le (zrem m z).
Proof. apply sublist_sorted, sublist_filter. Qed.

Lemma zadd_sorted s m z : StronglySorted zelem_le z -> StronglySorted zelem_le (zadd s m z).
Proof. intros Hz. by apply zinsert_sorted, zrem_sorted. Qed.

(** In a sorted set the first entry has the least score and the last one the greatest. *)
Lemma zelem_le_score a b : zelem_le a b -> a.2 <= b.2.
Proof.
  unfold zelem_le, zelem_leb. rewrite orb_true_iff, andb_true_iff, Z.ltb_lt, Z.eqb_eq. lia.
Qed.
End zset.


(** ** Lists *)

Definition LPUSH (l : list gostring) (x : gostring) : list gostring := x :: l.
Definition RPUSH (l : list gostring) (x : gostring) : list gostring := l ++ [x].

(** [LREM key 0 x]: all occurrences are removed; the number of them, and the list. *)
Definition lrem (x : gostring) (l : list gostring) : list gostring := filter (fun y => y <> x) l.
Definition LREM (l : list gostring) (x : gostring) : Z * list gostring :=
  (Z.of_nat (length l - length (lrem x l)), lrem x l).

(** [LREM key 1 x]: the first occurrence is removed. *)
Fixpoint lrem1 (x : gostring) (l : list gostring) : list gostring :=
  match l with
  | [] => []
  | y :: l => if bool_decide (y = x) then l else y :: lrem1 x l
  end.
Definition LREM1 (l : list gostring) (x : gostring) : Z * list gostring :=
  (Z.of_nat (length l - length (lrem1 x l)), lrem1 x l).

(** [LRANGE key start stop]. *)
Definition LRANGE (l : list gostring) (start stop : Z) : list gostring :=
  let '(i, n) := zindices (Z.of_nat (length l)) start stop in take n (drop i l).

(** [RPOPLPUSH source destination]: [None] is the nil reply of an empty source. *)
Definition RPOPLPUSH (src dst : list gostring) : option (gostring * list gostring * list gostring) :=
  match last src with
  | None => None
  | Some x => Some (x, take (length src - 1) src, x :: dst)
  end.

Lemma elem_of_lrem x y l : y ∈ lrem x l <-> y <> x /\ y ∈ l.
Proof. unfold lrem. by rewrite list_elem_of_filter. Qed.

Lemma NoDup_lrem x l : NoDup l -> NoDup (lrem x l).
Proof. apply NoDup_filter. Qed.

Lemma lrem_none x l : x ∉ l -> lrem x l = l.
Proof. intros Hx. apply list_filter_all, Forall_forall. by intros y Hy ->. Qed.

Lemma lrem1_NoDup x l : NoDup l -> lrem1 x l = lrem x l.
Proof.
  induction 1 as [|y l Hy Hl IH]; [done|]. unfold lrem in *. rewrite filter_cons. simpl.
  case_bool_decide; case_decide; try done.
  - subst. symmetry. by apply lrem_none.
  - by rewrite IH.
Qed.

Lemma LREM_zero l x : (LREM l x).1 = 0 <-> x ∉ l.
Proof.
  unfold LREM. cbn [fst]. split.
  - intros Hl Hx. assert (length (lrem x l) < length l)%nat; [|lia].
    eapply length_filter_lt; [exact Hx|]. auto.
  - intros Hx. rewrite lrem_none by done. lia.
Qed.

Lemma ZREM_zero {M} `{ZMember M} (z : zset M) m : (ZREM z m).1 = 0 <-> m ∉ zmembers z.
Proof.
  unfold ZREM. cbn [fst]. split.
  - intros Hl [s Hx]%elem_of_zmembers. assert (length (zrem m z) < length z)%nat; [|lia].
    eapply length_filter_lt; [exact Hx|]. auto.
  - intros Hx. rewrite zrem_none by done. lia.
Qed.

Lemma RPOPLPUSH_some src dst x src' dst' :
  RPOPLPUSH src dst = Some (x, src', dst') -> src = src' ++ [x] /\ dst' = x :: dst.
Proof.
  unfold RPOPLPUSH. destruct (last src) as [y|] eqn:Hl; [|done]. intros [= <- <- <-].
  apply last_Some in Hl as [l ->]. rewrite length_app. cbn [length].
  by rewrite Nat.add_sub, take_app_length.
Qed.

Lemma RPOPLPUSH_snoc src dst x : RPOPLPUSH (src ++ [x]) dst = Some (x, src, x :: dst).
Proof.
  unfold RPOPLPUSH. rewrite last_snoc, length_app. cbn [length].
  by rewrite Nat.add_sub, take_app_length.
Qed.

(** ** Integers *)

Definition max_int64 : Z := 2 ^ 63 - 1.

(** [INCR]: a missing key counts as 0; the signed 64-bit overflow is refused. *)
Definition INCR (v : option Z) : outcome gostring Z :=
  let n := default 0 v in
  if n =? max_int64 then Err (str "ERR increment or decrement would overflow") else Ok (n + 1).

(** Lua's [tonumber] of a decimal integer: the nearest double, ties to even. *)
Definition lua_round (n : Z) : Z :=
  let a := Z.abs n in
  let e := Z.log2 a - 52 in
  if e <=? 0 then n
  else
    let unit := Z.shiftl 1 e in
    let q := Z.shiftr a e in
    let r := a - q * unit in
    let q := if (unit <? 2 * r) || ((unit =? 2 * r) && Z.odd q) then q + 1 else q in
    Z.sgn n * (q * unit).

(** ** String keys with a time to live *)

Record Lock := { lock_val : gostring; lock_exp : Z }.

(** [GET]: a key whose time to live has passed is gone. *)
Definition lock_get (now : Z) (locks : gmap gostring Lock) (k : gostring) : option gostring :=
  match locks !! k with
  | Some l => if now <? lock_exp l then Some (lock_val l) else None
  | None => None
  end.

Definition nanosecond_per_second : Z := 1000000000.

(** [SET key value NX EX seconds]: the reply tells whether the key was set. *)
Definition SET_NX_EX (now : Z) (locks : gmap gostring Lock) (k v : gostring) (seconds : Z)
    : outcome gostring (bool * gmap gostring Lock) :=
  if seconds <=? 0 then Err (str "ERR invalid expire time in 'set' command")
  else match lock_get now locks k with
  | Some _ => Ok (false, locks)
  | None =>
      Ok (true, <[k := {| lock_val := v; lock_exp := now + seconds * nanosecond_per_second |}]> locks)
  end.

(** The lock compare-and-delete idiom: [if GET k == v then DEL k]. *)
Definition lock_release (now : Z) (locks : gmap gostring Lock) (k v : gostring) : gmap gostring Lock :=
  if bool_decide (lock_get now locks k = Some v) then delete k locks else locks.
