(* ===== verification/Md5.v ===== *)
(** [crypto/md5] and [encoding/hex], as far as the keys of uniqueness locks use them: the digest of
    a byte string (RFC 1321), printed in lower-case hexadecimal.  Words are 32-bit integers kept in
    [0, 2^32). *)
From stdpp Require Import base list numbers strings.
From S2P Require Import Prelude.

Definition w32 (x : Z) : Z := x mod 2 ^ 32.
Definition rotl32 (x n : Z) : Z := w32 (Z.lor (Z.shiftl x n) (Z.shiftr x (32 - n))).
Definition not32 (x : Z) : Z := 2 ^ 32 - 1 - x.

(** The integer part of [2^32 * |sin i|], for [i] from 1 to 64. *)
Definition md5_table : list Z :=
  [3614090360; 3905402710; 606105819; 3250441966; 4118548399; 1200080426; 2821735955; 4249261313;
   1770035416; 2336552879; 4294925233; 2304563134; 1804603682; 4254626195; 2792965006; 1236535329;
   4129170786; 3225465664; 643717713; 3921069994; 3593408605; 38016083; 3634488961; 3889429448;
   568446438; 3275163606; 4107603335; 1163531501; 2850285829; 4243563512; 1735328473; 2368359562;
   4294588738; 2272392833; 1839030562; 4259657740; 2763975236; 1272893353; 4139469664; 3200236656;
   681279174; 3936430074; 3572445317; 76029189; 3654602809; 3873151461; 530742520; 3299628645;
   4096336452; 1126891415; 2878612391; 4237533241; 1700485571; 2399980690; 4293915773; 2240044497;
   1873313359; 4264355552; 2734768916; 1309151649; 4149444226; 3174756917; 718787259; 3951481745].

Definition md5_shifts (i : Z) : Z :=
  let row := nth (Z.to_nat (i / 16)) [[7; 12; 17; 22]; [5; 9; 14; 20]; [4; 11; 16; 23]; [6; 10; 15; 21]] [] in
  nth (Z.to_nat (i mod 4)) row 0.

Record md5_state := { md5_a : Z; md5_b : Z; md5_c : Z; md5_d : Z }.

Definition md5_init : md5_state :=
  {| md5_a := 0x67452301; md5_b := 0xefcdab89; md5_c := 0x98badcfe; md5_d := 0x10325476 |}.

Definition md5_round (block : list Z) (st : md5_state) (i : Z) : md5_state :=
  let '{| md5_a := a; md5_b := b; md5_c := c; md5_d := d |} := st in
  let '(f, g) :=
    if i <? 16 then (Z.lor (Z.land b c) (Z.land (not32 b) d), i)
    else if i <? 32 then (Z.lor (Z.land d b) (Z.land (not32 d) c), (5 * i + 1) mod 16)
    else if i <? 48 then (Z.lxor b (Z.lxor c d), (3 * i + 5) mod 16)
    else (Z.lxor c (Z.lor b (not32 d)), (7 * i) mod 16) in
  let f := w32 (f + a + nth (Z.to_nat i) md5_table 0 + nth (Z.to_nat g) block 0) in
  {| md5_a := d; md5_b := w32 (b + rotl32 f (md5_shifts i)); md5_c := b; md5_d := c |}.

Definition md5_block (st : md5_state) (block : list Z) : md5_state :=
  let st' := fold_left (md5_round block) (seqZ 0 64) st in
  {| md5_a := w32 (md5_a st + md5_a st'); md5_b := w32 (md5_b st + md5_b st');
     md5_c := w32 (md5_c st + md5_c st'); md5_d := w32 (md5_d st + md5_d st') |}.

(** [n] bytes of [x], least significant first. *)
Fixpoint le_bytes (n : nat) (x : Z) : list Z :=
  match n with O => [] | S n => x mod 256 :: le_bytes n (x / 256) end.

(** The message, the bit 1, zeros up to 56 bytes modulo 64, and the length in bits. *)
Definition md5_pad (data : list Z) : list Z :=
  let len := Z.of_nat (length data) in
  data ++ 128 :: repeat 0 (Z.to_nat ((55 - len) mod 64)) ++ le_bytes 8 (8 * len).

Fixpoint le_words (bytes : list Z) : list Z :=
  match bytes with
  | a :: b :: c :: d :: rest => a + 2 ^ 8 * b + 2 ^ 16 * c + 2 ^ 24 * d :: le_words rest
  | _ => []
  end.

Fixpoint md5_blocks (n : nat) (st : md5_state) (words : list Z) : md5_state :=
  match n with
  | O => st
  | S n => md5_blocks n (md5_block st (take 16 words)) (drop 16 words)
  end.

(** [md5.Sum]. *)
Definition md5_sum (data : list Z) : list Z :=
  let padded := md5_pad data in
  let st := md5_blocks (length padded / 64) md5_init (le_words padded) in
  le_bytes 4 (md5_a st) ++ le_bytes 4 (md5_b st) ++ le_bytes 4 (md5_c st) ++ le_bytes 4 (md5_d st).

Definition hex_digit (d : Z) : Z := if d <? 10 then 48 + d else 87 + d.

(** [hex.EncodeToString]. *)
Definition hex_encode (bytes : list Z) : gostring :=
  flat_map (fun b => [hex_digit (b / 16); hex_digit (b mod 16)]) bytes.

(** The test vectors of RFC 1321. *)
Example md5_empty : hex_encode (md5_sum []) = str "d41d8cd98f00b204e9800998ecf8427e".
Proof. vm_compute. reflexivity. Qed.

Example md5_alphabet : hex_encode (md5_sum (str "abcdefghijklmnopqrstuvwxyz")) =
  str "c3fcd3d76192e4007dfb496cca67e13b".
Proof. vm_compute. reflexivity. Qed.

Example md5_two_blocks :
  hex_encode (md5_sum (str "12345678901234567890123456789012345678901234567890123456789012345678901234567890")) =
  str "57edf4a22be3c955ac49da2e2107b67a".
Proof. vm_compute. reflexivity. Qed.
