(* ===== verification/AsynqBase.v ===== *)
(** The foundations of the task queue: error values ([pkg/errors]), task states, Redis keys, task
    messages and their encoding ([pkg/base]), leases and cancelations.

    Instants are nanoseconds since the Unix epoch; [protobuf] is a parameter of the encoders, the
    class [Proto] with its round-trip law. *)
From stdpp Require Import base list strings numbers option gmap.
From S2P Require Import Prelude.
From S2P Require Import Md5.

(** ** Errors: package [errors] *)

Inductive Code :=
  | Unspecified | NotFound | FailedPrecondition | Internal | AlreadyExists | Unknown.

#[global] Instance Code_eq_dec : EqDecision Code.
Proof. solve_decision. Defined.

Definition Code_String (c : Code) : gostring :=
  match c with
  | Unspecified => str "ERROR_CODE_UNSPECIFIED"
  | NotFound => str "NOT_FOUND"
  | FailedPrecondition => str "FAILED_PRECONDITION"
  | Internal => str "INTERNAL_ERROR"
  | AlreadyExists => str "ALREADY_EXISTS"
  | Unknown => str "UNKNOWN"
  end.

(** The error values of the package; [NewError] is [errors.New] and [fmt.Errorf]. *)
Inductive goerror :=
  | Error (op : gostring) (code : Code) (err : goerror)
  | NewError (text : gostring)
  | ErrNoProcessableTask
  | ErrDuplicateTask
  | ErrTaskIdConflict
  | TaskNotFoundError (queue id : gostring)
  | QueueNotFoundError (queue : gostring)
  | QueueNotEmptyError (queue : gostring)
  | TaskAlreadyArchivedError (queue id : gostring)
  | RedisCommandError (command : gostring) (err : goerror)
  | PanicError (text : gostring).

#[global] Instance goerror_eq_dec : EqDecision goerror.
Proof. solve_decision. Defined.

(** [strings.ToUpper] of ASCII text. *)
Definition to_upper (s : gostring) : gostring :=
  map (fun c => if (97 <=? c) && (c <=? 122) then c - 32 else c) s.

(** [errors.E] with an operation, a code and a cause; without an operation it is empty. *)
Definition E (op : gostring) (code : Code) (err : goerror) : goerror := Error op code err.
Definition E_text (op : gostring) (code : Code) (text : gostring) : goerror :=
  Error op code (NewError text).

Definition Unwrap (e : goerror) : option goerror :=
  match e with
  | Error _ _ err => Some err
  | RedisCommandError _ err => Some err
  | _ => None
  end.

Fixpoint CanonicalCode (e : goerror) : Code :=
  match e with
  | Error _ Unspecified err => CanonicalCode err
  | Error _ code _ => code
  | _ => Unspecified
  end.

(** [errors.Is] against one of the package's own error values. *)
Fixpoint Is (e target : goerror) : bool :=
  bool_decide (e = target) ||
  match e with
  | Error _ _ err => Is err target
  | RedisCommandError _ err => Is err target
  | _ => false
  end.

(** [errors.As] with each of the package's error types. *)
Fixpoint As (p : goerror -> bool) (e : goerror) : bool :=
  p e ||
  match e with
  | Error _ _ err => As p err
  | RedisCommandError _ err => As p err
  | _ => false
  end.

Definition IsTaskNotFound : goerror -> bool :=
  As (fun e => match e with TaskNotFoundError _ _ => true | _ => false end).
Definition IsQueueNotFound : goerror -> bool :=
  As (fun e => match e with QueueNotFoundError _ => true | _ => false end).
Definition IsQueueNotEmpty : goerror -> bool :=
  As (fun e => match e with QueueNotEmptyError _ => true | _ => false end).
Definition IsTaskAlreadyArchived : goerror -> bool :=
  As (fun e => match e with TaskAlreadyArchivedError _ _ => true | _ => false end).
Definition IsRedisCommandError : goerror -> bool :=
  As (fun e => match e with RedisCommandError _ _ => true | _ => false end).
Definition IsPanicError : goerror -> bool :=
  As (fun e => match e with PanicError _ => true | _ => false end).

(** [%q] of a string of printable characters without quotes. *)
Definition quote (s : gostring) : gostring := 34 :: s ++ [34].

(** The [Error] method of every error type. *)
Fixpoint Error_String (e : goerror) : gostring :=
  match e with
  | Error _ Unspecified err => Error_String err
  | Error _ code err => Code_String code ++ str ": " ++ Error_String err
  | NewError text => text
  | ErrNoProcessableTask => str "no tasks are ready for processing"
  | ErrDuplicateTask => str "task already exists"
  | ErrTaskIdConflict => str "task id conflicts with another task"
  | TaskNotFoundError q id => str "cannot find task with id=" ++ id ++ str " in queue " ++ quote q
  | QueueNotFoundError q => str "queue " ++ quote q ++ str " does not exist"
  | QueueNotEmptyError q => str "queue " ++ quote q ++ str " is not empty"
  | TaskAlreadyArchivedError q id => str "task is already archived: id=" ++ id ++ str ", queue=" ++ q
  | RedisCommandError cmd err =>
      str "redis command error: " ++ to_upper cmd ++ str " failed: " ++ Error_String err
  | PanicError text => str "panic error cause by: " ++ text
  end.

(** ** Instants and durations *)

Definition Nanosecond : Z := 1.
Definition Second : Z := 1000000000.
Definition Minute : Z := 60 * Second.
Definition Hour : Z := 60 * Minute.
Definition Day : Z := 24 * Hour.

(** [Time.Unix], and [int(d.Seconds())] of a duration (truncated towards zero). *)
Definition Unix (t : Z) : Z := t / Second.
Definition Seconds (d : Z) : Z := Z.quot d Second.

(** The civil date of a day number counted from 1970-01-01: year, month, day of the month. *)
Definition civil_of_days (days : Z) : Z * Z * Z :=
  let z := days + 719468 in
  let era := z / 146097 in
  let doe := z mod 146097 in
  let yoe := (doe - doe / 1460 + doe / 36524 - doe / 146096) / 365 in
  let doy := doe - (365 * yoe + yoe / 4 - yoe / 100) in
  let mp := (5 * doy + 2) / 153 in
  let d := doy - (153 * mp + 2) / 5 + 1 in
  let m := if mp <? 10 then mp + 3 else mp - 9 in
  let y := yoe + era * 400 + (if m <=? 2 then 1 else 0) in
  (y, m, d).

Definition pad2 (n : Z) : gostring := [48 + n / 10 mod 10; 48 + n mod 10].
Definition pad4 (n : Z) : gostring := pad2 (n / 100) ++ pad2 (n mod 100).

(** [t.UTC().Format] with the year-month-day layout (years of four digits). *)
Definition FormatDate (t : Z) : gostring :=
  let '(y, m, d) := civil_of_days (t / Day) in
  pad4 y ++ str "-" ++ pad2 m ++ str "-" ++ pad2 d.

Example FormatDate_leap : FormatDate (1709164800 * Second) = str "2024-02-29".
Proof. vm_compute. reflexivity. Qed.

Example FormatDate_eve : FormatDate (1704067199 * Second) = str "2023-12-31".
Proof. vm_compute. reflexivity. Qed.

(** ** Task states *)

Inductive TaskState :=
  | TaskStateActive | TaskStatePending | TaskStateScheduled | TaskStateRetry
  | TaskStateArchived | TaskStateCompleted | TaskStateAggregating.

#[global] Instance TaskState_eq_dec : EqDecision TaskState.
Proof. solve_decision. Defined.

Definition TaskState_String (s : TaskState) : gostring :=
  match s with
  | TaskStateActive => str "active"
  | TaskStatePending => str "pending"
  | TaskStateScheduled => str "scheduled"
  | TaskStateRetry => str "retry"
  | TaskStateArchived => str "archived"
  | TaskStateCompleted => str "completed"
  | TaskStateAggregating => str "aggregating"
  end.

Definition TaskStateFromString (s : gostring) : outcome goerror TaskState :=
  if s =s str "active" then Ok TaskStateActive
  else if s =s str "pending" then Ok TaskStatePending
  else if s =s str "scheduled" then Ok TaskStateScheduled
  else if s =s str "retry" then Ok TaskStateRetry
  else if s =s str "archived" then Ok TaskStateArchived
  else if s =s str "completed" then Ok TaskStateCompleted
  else if s =s str "aggregating" then Ok TaskStateAggregating
  else Err (E_text [] FailedPrecondition (quote s ++ str " is not supported task state")).

(** ** Queue names and Redis keys *)

(** [unicode.IsSpace] for the runes of the Latin-1 range and the spaces of the Unicode table. *)
Definition IsSpace (c : rune) : bool :=
  bool_decide (c ∈ [9; 10; 11; 12; 13; 32; 0x85; 0xA0; 0x1680; 0x2028; 0x2029; 0x202f; 0x205f; 0x3000])
  || ((0x2000 <=? c) && (c <=? 0x200a)).

(** [len(strings.TrimSpace(s)) == 0]. *)
Definition is_blank (s : gostring) : bool := forallb IsSpace s.

Definition ValidateQueueName (qname : gostring) : option goerror :=
  if is_blank qname then Some (NewError (str "queue name must contain one or more characters"))
  else None.

Definition DefaultQueueName : gostring := str "default".
Definition AllServers : gostring := str "asynq:servers".
Definition AllWorkers : gostring := str "asynq:workers".
Definition AllSchedulers : gostring := str "asynq:schedulers".
Definition AllQueues : gostring := str "asynq:queues".

Definition QueueKeyPrefix (qname : gostring) : gostring := str "asynq:{" ++ qname ++ str "}:".
Definition TaskKeyPrefix (qname : gostring) : gostring := QueueKeyPrefix qname ++ str "t:".
Definition TaskKey (qname id : gostring) : gostring := TaskKeyPrefix qname ++ id.
Definition PendingKey (qname : gostring) : gostring := QueueKeyPrefix qname ++ str "pending".
Definition ActiveKey (qname : gostring) : gostring := QueueKeyPrefix qname ++ str "active".
Definition ScheduledKey (qname : gostring) : gostring := QueueKeyPrefix qname ++ str "scheduled".
Definition RetryKey (qname : gostring) : gostring := QueueKeyPrefix qname ++ str "retry".
Definition ArchivedKey (qname : gostring) : gostring := QueueKeyPrefix qname ++ str "archived".
Definition LeaseKey (qname : gostring) : gostring := QueueKeyPrefix qname ++ str "lease".
Definition CompletedKey (qname : gostring) : gostring := QueueKeyPrefix qname ++ str "completed".
Definition PausedKey (qname : gostring) : gostring := QueueKeyPrefix qname ++ str "paused".
Definition ProcessedTotalKey (qname : gostring) : gostring := QueueKeyPrefix qname ++ str "processed".
Definition FailedTotalKey (qname : gostring) : gostring := QueueKeyPrefix qname ++ str "failed".
Definition ProcessedKey (qname : gostring) (t : Z) : gostring :=
  QueueKeyPrefix qname ++ str "processed:" ++ FormatDate t.
Definition FailedKey (qname : gostring) (t : Z) : gostring :=
  QueueKeyPrefix qname ++ str "failed:" ++ FormatDate t.
Definition ServerInfoKey (hostname : gostring) (pid : Z) (serverID : gostring) : gostring :=
  str "asynq:servers:{" ++ hostname ++ str ":" ++ itoa pid ++ str ":" ++ serverID ++ str "}".
Definition WorkersKey (hostname : gostring) (pid : Z) (serverID : gostring) : gostring :=
  str "asynq:workers:{" ++ hostname ++ str ":" ++ itoa pid ++ str ":" ++ serverID ++ str "}".
Definition SchedulerEntriesKey (schedulerID : gostring) : gostring :=
  str "asynq:schedulers:{" ++ schedulerID ++ str "}".
Definition SchedulerHistoryKey (entryID : gostring) : gostring :=
  str "asynq:scheduler_history:" ++ entryID.

(** [UniqueKey]: a nil payload ([None]) has no checksum. *)
Definition UniqueKey (qname tasktype : gostring) (payload : option gostring) : gostring :=
  match payload with
  | None => QueueKeyPrefix qname ++ str "unique:" ++ tasktype ++ str ":"
  | Some p => QueueKeyPrefix qname ++ str "unique:" ++ tasktype ++ str ":" ++ hex_encode (md5_sum p)
  end.

Definition GroupKeyPrefix (qname : gostring) : gostring := QueueKeyPrefix qname ++ str "g:".
Definition GroupKey (qname gkey : gostring) : gostring := GroupKeyPrefix qname ++ gkey.
Definition AggregationSetKey (qname gname setID : gostring) : gostring :=
  GroupKey qname gname ++ str ":" ++ setID.
Definition AllGroups (qname : gostring) : gostring := QueueKeyPrefix qname ++ str "groups".
Definition AllAggregationSets (qname : gostring) : gostring :=
  QueueKeyPrefix qname ++ str "aggregation_sets".

(** ** Task messages *)

Record TaskMessage := {
  Type_ : gostring;
  Payload : option gostring;
  ID : gostring;
  Queue : gostring;
  Retry_ : Z;
  Retried : Z;
  ErrorMsg : gostring;
  LastFailedAt : Z;
  Timeout_ : Z;
  Deadline : Z;
  UniqueKey_ : gostring;
  GroupKey_ : gostring;
  Retention : Z;
  CompletedAt : Z
}.

#[global] Instance TaskMessage_eq_dec : EqDecision TaskMessage.
Proof. solve_decision. Defined.

Definition set_Retried (n : Z) (m : TaskMessage) : TaskMessage :=
  {| Type_ := Type_ m; Payload := Payload m; ID := ID m; Queue := Queue m; Retry_ := Retry_ m;
     Retried := n; ErrorMsg := ErrorMsg m; LastFailedAt := LastFailedAt m; Timeout_ := Timeout_ m;
     Deadline := Deadline m; UniqueKey_ := UniqueKey_ m; GroupKey_ := GroupKey_ m;
     Retention := Retention m; CompletedAt := CompletedAt m |}.

Definition set_failure (e : gostring) (t : Z) (m : TaskMessage) : TaskMessage :=
  {| Type_ := Type_ m; Payload := Payload m; ID := ID m; Queue := Queue m; Retry_ := Retry_ m;
     Retried := Retried m; ErrorMsg := e; LastFailedAt := t; Timeout_ := Timeout_ m;
     Deadline := Deadline m; UniqueKey_ := UniqueKey_ m; GroupKey_ := GroupKey_ m;
     Retention := Retention m; CompletedAt := CompletedAt m |}.

Definition set_CompletedAt (t : Z) (m : TaskMessage) : TaskMessage :=
  {| Type_ := Type_ m; Payload := Payload m; ID := ID m; Queue := Queue m; Retry_ := Retry_ m;
     Retried := Retried m; ErrorMsg := ErrorMsg m; LastFailedAt := LastFailedAt m;
     Timeout_ := Timeout_ m; Deadline := Deadline m; UniqueKey_ := UniqueKey_ m;
     GroupKey_ := GroupKey_ m; Retention := Retention m; CompletedAt := t |}.

(** Go conversions to [int32] and [int64]: the low bits, as a signed number. *)
Definition int32 (n : Z) : Z := (n + 2 ^ 31) mod 2 ^ 32 - 2 ^ 31.

Definition int64 (n : Z) : Z := (n + 2 ^ 63) mod 2 ^ 64 - 2 ^ 63.

Definition in_int32 (n : Z) : Prop := - 2 ^ 31 <= n < 2 ^ 31.

Lemma int32_id n : in_int32 n -> int32 n = n.
Proof. unfold in_int32, int32. intros ?. rewrite Z.mod_small by lia. lia. Qed.

Lemma int32_range n : in_int32 (int32 n).
Proof. unfold in_int32, int32. pose proof (Z.mod_pos_bound (n + 2 ^ 31) (2 ^ 32)). lia. Qed.

(** ** [protobuf]

    [Proto M] gives the wire format of one message type.  The documented law is that decoding what
    was encoded gives the message back, up to [normal]: an empty [bytes] field is not on the wire
    and decodes to nil. *)
Class Proto (M : Type) := {
  proto_Marshal : M -> goerror + gostring;
  proto_Unmarshal : gostring -> goerror + M
}.

Class ProtoLaws (M : Type) `{Proto M} (normal : M -> M) := {
  proto_roundtrip : forall m b, proto_Marshal m = inr b -> proto_Unmarshal b = inr (normal m)
}.

(** [proto.Marshal] and [proto.Unmarshal] as Go calls: they return a value or an error. *)
Definition of_sum {A} (r : goerror + A) : outcome goerror A :=
  match r with inl e => Err e | inr a => Ok a end.

Definition Marshal {M} `{Proto M} (m : M) : outcome goerror gostring := of_sum (proto_Marshal m).
Definition Unmarshal {M} `{Proto M} (b : gostring) : outcome goerror M := of_sum (proto_Unmarshal b).

(** The Go value of a [bytes] field that is absent from the wire when it is empty. *)
Definition normal_bytes (p : option gostring) : option gostring :=
  match p with Some [] => None | p => p end.

(** [pb.TaskMessage] has the same fields, [Retry] and [Retried] being [int32]. *)
Module pb.
Record TaskMessage := {
  Type_ : gostring;
  Payload : option gostring;
  Id : gostring;
  Queue : gostring;
  Retry_ : Z;
  Retried : Z;
  ErrorMsg : gostring;
  LastFailedAt : Z;
  Timeout_ : Z;
  Deadline : Z;
  UniqueKey_ : gostring;
  GroupKey_ : gostring;
  Retention : Z;
  CompletedAt : Z
}.

Definition normal_TaskMessage (m : TaskMessage) : TaskMessage :=
  {| Type_ := Type_ m; Payload := normal_bytes (Payload m); Id := Id m; Queue := Queue m;
     Retry_ := Retry_ m; Retried := Retried m; ErrorMsg := ErrorMsg m;
     LastFailedAt := LastFailedAt m; Timeout_ := Timeout_ m; Deadline := Deadline m;
     UniqueKey_ := UniqueKey_ m; GroupKey_ := GroupKey_ m; Retention := Retention m;
     CompletedAt := CompletedAt m |}.

(** [timestamppb.Timestamp]: seconds since the epoch and nanoseconds of the second. *)
Record Timestamp := { Ts_seconds : Z; Ts_nanos : Z }.

Record ServerInfo := {
  SI_Host : gostring;
  SI_Pid : Z;
  SI_ServerId : gostring;
  SI_Concurrency : Z;
  SI_Queues : gmap gostring Z;
  SI_StrictPriority : bool;
  SI_Status : gostring;
  SI_StartTime : option Timestamp;
  SI_ActiveWorkerCount : Z
}.

Record WorkerInfo := {
  WI_Host : gostring;
  WI_Pid : Z;
  WI_ServerId : gostring;
  WI_TaskId : gostring;
  WI_TaskType : gostring;
  WI_TaskPayload : option gostring;
  WI_Queue : gostring;
  WI_StartTime : option Timestamp;
  WI_Deadline : option Timestamp
}.

Definition normal_WorkerInfo (w : WorkerInfo) : WorkerInfo :=
  {| WI_Host := WI_Host w; WI_Pid := WI_Pid w; WI_ServerId := WI_ServerId w;
     WI_TaskId := WI_TaskId w; WI_TaskType := WI_TaskType w;
     WI_TaskPayload := normal_bytes (WI_TaskPayload w); WI_Queue := WI_Queue w;
     WI_StartTime := WI_StartTime w; WI_Deadline := WI_Deadline w |}.

Record SchedulerEntry := {
  SE_Id : gostring;
  SE_Spec : gostring;
  SE_TaskType : gostring;
  SE_TaskPayload : option gostring;
  SE_EnqueueOptions : list gostring;
  SE_NextEnqueueTime : option Timestamp;
  SE_PrevEnqueueTime : option Timestamp
}.

Definition normal_SchedulerEntry (e : SchedulerEntry) : SchedulerEntry :=
  {| SE_Id := SE_Id e; SE_Spec := SE_Spec e; SE_TaskType := SE_TaskType e;
     SE_TaskPayload := normal_bytes (SE_TaskPayload e); SE_EnqueueOptions := SE_EnqueueOptions e;
     SE_NextEnqueueTime := SE_NextEnqueueTime e; SE_PrevEnqueueTime := SE_PrevEnqueueTime e |}.

Record SchedulerEnqueueEvent := {
  EE_TaskId : gostring;
  EE_EnqueueTime : option Timestamp
}.
End pb.

(** [timestamppb.New], [AsTime] and [CheckValid] (from year 1 to year 9999); a nil timestamp is the
    epoch and is not valid. *)
Definition ts_New (t : Z) : pb.Timestamp :=
  {| pb.Ts_seconds := t / Second; pb.Ts_nanos := t mod Second |}.

Definition ts_AsTime (ts : option pb.Timestamp) : Z :=
  match ts with Some ts => pb.Ts_seconds ts * Second + pb.Ts_nanos ts | None => 0 end.

Definition ts_CheckValid (ts : option pb.Timestamp) : option goerror :=
  match ts with
  | None => Some (NewError (str "invalid nil Timestamp"))
  | Some ts =>
      if pb.Ts_seconds ts <? -62135596800 then Some (NewError (str "before 0001-01-01"))
      else if 253402300799 <? pb.Ts_seconds ts then Some (NewError (str "after 9999-12-31"))
      else if (pb.Ts_nanos ts <? 0) || (Second <=? pb.Ts_nanos ts)
      then Some (NewError (str "out-of-range nanos"))
      else None
  end.

Lemma ts_AsTime_New t : ts_AsTime (Some (ts_New t)) = t.
Proof. unfold ts_AsTime, ts_New. cbn. pose proof (Z_div_mod_eq_full t Second). lia. Qed.

(** [if err := ts.CheckValid(); err != nil { return nil, err }]. *)
Definition check_ts (ts : option pb.Timestamp) : outcome goerror unit :=
  match ts_CheckValid ts with Some e => Err e | None => Ok tt end.

Section messages.
Context `{Proto pb.TaskMessage} `{Proto pb.ServerInfo} `{Proto pb.WorkerInfo}
  `{Proto pb.SchedulerEntry} `{Proto pb.SchedulerEnqueueEvent}.

Definition to_pb (msg : TaskMessage) : pb.TaskMessage :=
  {| pb.Type_ := Type_ msg; pb.Payload := Payload msg; pb.Id := ID msg; pb.Queue := Queue msg;
     pb.Retry_ := int32 (Retry_ msg); pb.Retried := int32 (Retried msg);
     pb.ErrorMsg := ErrorMsg msg; pb.LastFailedAt := LastFailedAt msg;
     pb.Timeout_ := Timeout_ msg; pb.Deadline := Deadline msg; pb.UniqueKey_ := UniqueKey_ msg;
     pb.GroupKey_ := GroupKey_ msg; pb.Retention := Retention msg;
     pb.CompletedAt := CompletedAt msg |}.

(** [EncodeMessage]: [None] is the nil message. *)
Definition EncodeMessage (msg : option TaskMessage) : outcome goerror gostring :=
  match msg with
  | None => Err (NewError (str "cannot encode nil message"))
  | Some msg => Marshal (to_pb msg)
  end.

Definition of_pb (m : pb.TaskMessage) : TaskMessage :=
  {| Type_ := pb.Type_ m; Payload := pb.Payload m; ID := pb.Id m; Queue := pb.Queue m;
     Retry_ := pb.Retry_ m; Retried := pb.Retried m; ErrorMsg := pb.ErrorMsg m;
     LastFailedAt := pb.LastFailedAt m; Timeout_ := pb.Timeout_ m; Deadline := pb.Deadline m;
     UniqueKey_ := pb.UniqueKey_ m; GroupKey_ := pb.GroupKey_ m; Retention := pb.Retention m;
     CompletedAt := pb.CompletedAt m |}.

Definition DecodeMessage (data : gostring) : outcome goerror TaskMessage :=
  pbmsg ⇐ Unmarshal data; Ok (of_pb pbmsg).

(** *** Server, worker and scheduler records *)

Record ServerInfo := {
  Host : gostring;
  PID : Z;
  ServerID : gostring;
  Concurrency : Z;
  Queues : gmap gostring Z;
  StrictPriority : bool;
  Status : gostring;
  Started : Z;
  ActiveWorkerCount : Z
}.

Definition EncodeServerInfo (info : option ServerInfo) : outcome goerror gostring :=
  match info with
  | None => Err (NewError (str "cannot encode nil server info"))
  | Some info =>
      let queues := int32 <$> Queues info in
      let started := ts_New (Started info) in
      _ ⇐ check_ts (Some started);
      Marshal {| pb.SI_Host := Host info; pb.SI_Pid := int32 (PID info);
        pb.SI_ServerId := ServerID info; pb.SI_Concurrency := int32 (Concurrency info);
        pb.SI_Queues := queues; pb.SI_StrictPriority := StrictPriority info;
        pb.SI_Status := Status info; pb.SI_StartTime := Some started;
        pb.SI_ActiveWorkerCount := int32 (ActiveWorkerCount info) |}
  end.

Definition DecodeServerInfo (b : gostring) : outcome goerror ServerInfo :=
  m ⇐ Unmarshal b;
  let queues := pb.SI_Queues m in
  let startTime := ts_AsTime (pb.SI_StartTime m) in
  _ ⇐ check_ts (pb.SI_StartTime m);
  Ok {| Host := pb.SI_Host m; PID := pb.SI_Pid m; ServerID := pb.SI_ServerId m;
        Concurrency := pb.SI_Concurrency m; Queues := queues;
        StrictPriority := pb.SI_StrictPriority m; Status := pb.SI_Status m;
        Started := startTime; ActiveWorkerCount := pb.SI_ActiveWorkerCount m |}.

Record WorkerInfo := {
  W_Host : gostring;
  W_PID : Z;
  W_ServerID : gostring;
  W_ID : gostring;
  W_Type : gostring;
  W_Payload : option gostring;
  W_Queue : gostring;
  W_Started : Z;
  W_Deadline : Z
}.

Definition EncodeWorkerInfo (info : option WorkerInfo) : outcome goerror gostring :=
  match info with
  | None => Err (NewError (str "cannot encode nil worker info"))
  | Some info =>
      let startTime := ts_New (W_Started info) in
      _ ⇐ check_ts (Some startTime);
      let deadline := ts_New (W_Deadline info) in
      _ ⇐ check_ts (Some deadline);
      Marshal {| pb.WI_Host := W_Host info; pb.WI_Pid := int32 (W_PID info);
        pb.WI_ServerId := W_ServerID info; pb.WI_TaskId := W_ID info;
        pb.WI_TaskType := W_Type info; pb.WI_TaskPayload := W_Payload info;
        pb.WI_Queue := W_Queue info; pb.WI_StartTime := Some startTime;
        pb.WI_Deadline := Some deadline |}
  end.

(** The start time is read from the deadline field, as the code does. *)
Definition DecodeWorkerInfo (b : gostring) : outcome goerror WorkerInfo :=
  m ⇐ Unmarshal b;
  let startTime := ts_AsTime (pb.WI_Deadline m) in
  _ ⇐ check_ts (pb.WI_StartTime m);
  let deadline := ts_AsTime (pb.WI_Deadline m) in
  _ ⇐ check_ts (pb.WI_Deadline m);
  Ok {| W_Host := pb.WI_Host m; W_PID := pb.WI_Pid m; W_ServerID := pb.WI_ServerId m;
        W_ID := pb.WI_TaskId m; W_Type := pb.WI_TaskType m; W_Payload := pb.WI_TaskPayload m;
        W_Queue := pb.WI_Queue m; W_Started := startTime; W_Deadline := deadline |}.

Record SchedulerEntry := {
  S_ID : gostring;
  S_Spec : gostring;
  S_Type : gostring;
  S_Payload : option gostring;
  S_Opts : list gostring;
  S_Next : Z;
  S_Prev : Z
}.

Definition EncodeSchedulerEntry (entry : option SchedulerEntry) : outcome goerror gostring :=
  match entry with
  | None => Err (NewError (str "cannot encode nil scheduler entry"))
  | Some entry =>
      let next := ts_New (S_Next entry) in
      _ ⇐ check_ts (Some next);
      let prev := ts_New (S_Prev entry) in
      _ ⇐ check_ts (Some prev);
      Marshal {| pb.SE_Id := S_ID entry; pb.SE_Spec := S_Spec entry;
        pb.SE_TaskType := S_Type entry; pb.SE_TaskPayload := S_Payload entry;
        pb.SE_EnqueueOptions := S_Opts entry; pb.SE_NextEnqueueTime := Some next;
        pb.SE_PrevEnqueueTime := Some prev |}
  end.

Definition DecodeSchedulerEntry (b : gostring) : outcome goerror SchedulerEntry :=
  m ⇐ Unmarshal b;
  let next := ts_AsTime (pb.SE_NextEnqueueTime m) in
  _ ⇐ check_ts (pb.SE_NextEnqueueTime m);
  let prev := ts_AsTime (pb.SE_PrevEnqueueTime m) in
  _ ⇐ check_ts (pb.SE_PrevEnqueueTime m);
  Ok {| S_ID := pb.SE_Id m; S_Spec := pb.SE_Spec m; S_Type := pb.SE_TaskType m;
        S_Payload := pb.SE_TaskPayload m; S_Opts := pb.SE_EnqueueOptions m;
        S_Next := next; S_Prev := prev |}.

Record SchedulerEnqueueEvent := { TaskID : gostring; EnqueuedAt : Z }.

Definition EncodeSchedulerEnqueueEvent (event : option SchedulerEnqueueEvent)
    : outcome goerror gostring :=
  match event with
  | None => Err (NewError (str "cannot encode nil enqueue event"))
  | Some event =>
      let enqueuedAt := ts_New (EnqueuedAt event) in
      _ ⇐ check_ts (Some enqueuedAt);
      Marshal {| pb.EE_TaskId := TaskID event; pb.EE_EnqueueTime := Some enqueuedAt |}
  end.

Definition DecodeSchedulerEnqueueEvent (b : gostring) : outcome goerror SchedulerEnqueueEvent :=
  m ⇐ Unmarshal b;
  let enqueuedAt := ts_AsTime (pb.EE_EnqueueTime m) in
  _ ⇐ check_ts (pb.EE_EnqueueTime m);
  Ok {| TaskID := pb.EE_TaskId m; EnqueuedAt := enqueuedAt |}.
End messages.

(** ** Cancelations: the cancel functions of the active tasks, by task id *)
Definition Cancelations (F : Type) : Type := gmap gostring F.

Section cancelations.
Context {F : Type}.
Definition NewCancelations : Cancelations F := ∅.
Definition Cancelations_Add (c : Cancelations F) (id : gostring) (fn : F) : Cancelations F :=
  <[id := fn]> c.
Definition Cancelations_Delete (c : Cancelations F) (id : gostring) : Cancelations F := delete id c.
Definition Cancelations_Get (c : Cancelations F) (id : gostring) : option F := c !! id.
End cancelations.

(** ** Leases: the expiry instant and whether the notification channel is closed *)
Record Lease := { lease_expireAt : Z; lease_closed : bool }.

Definition NewLease (expirationTime : Z) : Lease :=
  {| lease_expireAt := expirationTime; lease_closed := false |}.

Definition Lease_IsValid (now : Z) (l : Lease) : bool :=
  (now <? lease_expireAt l) || (lease_expireAt l =? now).

Definition Lease_Reset (now : Z) (l : Lease) (expirationTime : Z) : bool * Lease :=
  if negb (Lease_IsValid now l) then (false, l)
  else (true, {| lease_expireAt := expirationTime; lease_closed := lease_closed l |}).

Definition Lease_NotifyExpiration (now : Z) (l : Lease) : bool * Lease :=
  if Lease_IsValid now l then (false, l)
  else (true, {| lease_expireAt := lease_expireAt l; lease_closed := true |}).

Definition Lease_Deadline (l : Lease) : Z := lease_expireAt l.
