(* ===== verification/AsynqStore.v ===== *)
(** The Redis database of the task queue, as the scripts of [pkg/rdb] see it.

    The keys of one queue are the fields of [QueueDB]: the task hashes by task id, the pending and
    active lists, the sorted sets by [ZKey], the set of group names, the sorted set of aggregation
    sets, the paused flag and the counters by their Redis key.  [DB] holds the queues, the
    uniqueness locks (by the key string the message carries) and the set of queue names.
    [key_string] (file [AsynqKeys]) relates the fields to the key strings of [pkg/base].

    A script is a method on the store whose effects survive an error reply, as Redis does not roll
    a script back. *)
From stdpp Require Import base list strings numbers option gmap.
From S2P Require Import Prelude.
From S2P Require Import Redis.
From S2P Require Import AsynqBase.

(** ** The sorted sets of a queue *)
Inductive ZKey :=
  | ZLease | ZScheduled | ZRetry | ZArchived | ZCompleted
  | ZGroup (gname : gostring)
  | ZAggregationSet (gname setID : gostring).

#[global] Instance ZKey_eq_dec : EqDecision ZKey.
Proof. solve_decision. Defined.

Definition ZKey_code (k : ZKey) : nat + (gostring + gostring * gostring) :=
  match k with
  | ZLease => inl 0%nat
  | ZScheduled => inl 1%nat
  | ZRetry => inl 2%nat
  | ZArchived => inl 3%nat
  | ZCompleted => inl 4%nat
  | ZGroup g => inr (inl g)
  | ZAggregationSet g s => inr (inr (g, s))
  end.

Definition ZKey_decode (c : nat + (gostring + gostring * gostring)) : ZKey :=
  match c with
  | inl 0%nat => ZLease
  | inl 1%nat => ZScheduled
  | inl 2%nat => ZRetry
  | inl 3%nat => ZArchived
  | inl _ => ZCompleted
  | inr (inl g) => ZGroup g
  | inr (inr (g, s)) => ZAggregationSet g s
  end.

#[global] Instance ZKey_countable : Countable ZKey.
Proof. apply (inj_countable' ZKey_code ZKey_decode). by intros []. Defined.

(** The members of [AllAggregationSets] are the keys of aggregation sets; within one queue they
    sort as their group name and set id joined by a colon. *)
Record AggKey := { agg_gname : gostring; agg_setID : gostring }.

#[global] Instance AggKey_eq_dec : EqDecision AggKey.
Proof. solve_decision. Defined.

Definition agg_suffix (k : AggKey) : gostring := agg_gname k ++ str ":" ++ agg_setID k.

#[global, refine] Instance zmember_agg : ZMember AggKey :=
  {| zleb := fun a b => lex_leb (agg_suffix a) (agg_suffix b) |}.
Proof.
  - intros a b. apply lex_leb_total.
  - intros a b c. apply lex_leb_trans.
Defined.

(** ** Task hashes *)
Record TaskHash := {
  h_msg : option gostring;
  h_state : option TaskState;
  h_pending_since : option Z;
  h_unique_key : option gostring;
  h_group : option gostring;
  h_result : option gostring
}.

Definition empty_hash : TaskHash :=
  {| h_msg := None; h_state := None; h_pending_since := None; h_unique_key := None;
     h_group := None; h_result := None |}.

(** The field-value pairs of [HSET]; the values of the state field are the strings of
    [TaskState]. *)
Inductive HField :=
  | F_msg (v : gostring)
  | F_state (v : TaskState)
  | F_pending_since (v : Z)
  | F_unique_key (v : gostring)
  | F_group (v : gostring)
  | F_result (v : gostring).

Definition hset1 (h : TaskHash) (f : HField) : TaskHash :=
  let '{| h_msg := m; h_state := s; h_pending_since := p; h_unique_key := u; h_group := g;
          h_result := r |} := h in
  match f with
  | F_msg v => {| h_msg := Some v; h_state := s; h_pending_since := p; h_unique_key := u;
                  h_group := g; h_result := r |}
  | F_state v => {| h_msg := m; h_state := Some v; h_pending_since := p; h_unique_key := u;
                    h_group := g; h_result := r |}
  | F_pending_since v => {| h_msg := m; h_state := s; h_pending_since := Some v;
                            h_unique_key := u; h_group := g; h_result := r |}
  | F_unique_key v => {| h_msg := m; h_state := s; h_pending_since := p;
                         h_unique_key := Some v; h_group := g; h_result := r |}
  | F_group v => {| h_msg := m; h_state := s; h_pending_since := p; h_unique_key := u;
                    h_group := Some v; h_result := r |}
  | F_result v => {| h_msg := m; h_state := s; h_pending_since := p; h_unique_key := u;
                     h_group := g; h_result := Some v |}
  end.

Definition hset (fs : list HField) (h : TaskHash) : TaskHash := fold_left hset1 fs h.

Definition hdel_pending_since (h : TaskHash) : TaskHash :=
  {| h_msg := h_msg h; h_state := h_state h; h_pending_since := None;
     h_unique_key := h_unique_key h; h_group := h_group h; h_result := h_result h |}.

(** ** Counters *)
Record Counter := { c_val : Z; c_exp : option Z }.

(** ** The store *)
Record QueueDB := {
  q_tasks : gmap gostring TaskHash;
  q_pending : list gostring;
  q_active : list gostring;
  q_zsets : gmap ZKey (zset gostring);
  q_groups : gset gostring;
  q_aggregation_sets : zset AggKey;
  q_paused : option Z;
  q_counters : gmap gostring Counter
}.

Definition empty_queue : QueueDB :=
  {| q_tasks := ∅; q_pending := []; q_active := []; q_zsets := ∅; q_groups := ∅;
     q_aggregation_sets := []; q_paused := None; q_counters := ∅ |}.

Definition set_tasks (t : gmap gostring TaskHash) (q : QueueDB) : QueueDB :=
  {| q_tasks := t; q_pending := q_pending q; q_active := q_active q; q_zsets := q_zsets q;
     q_groups := q_groups q; q_aggregation_sets := q_aggregation_sets q; q_paused := q_paused q;
     q_counters := q_counters q |}.
Definition set_pending (l : list gostring) (q : QueueDB) : QueueDB :=
  {| q_tasks := q_tasks q; q_pending := l; q_active := q_active q; q_zsets := q_zsets q;
     q_groups := q_groups q; q_aggregation_sets := q_aggregation_sets q; q_paused := q_paused q;
     q_counters := q_counters q |}.
Definition set_active (l : list gostring) (q : QueueDB) : QueueDB :=
  {| q_tasks := q_tasks q; q_pending := q_pending q; q_active := l; q_zsets := q_zsets q;
     q_groups := q_groups q; q_aggregation_sets := q_aggregation_sets q; q_paused := q_paused q;
     q_counters := q_counters q |}.
Definition set_zsets (z : gmap ZKey (zset gostring)) (q : QueueDB) : QueueDB :=
  {| q_tasks := q_tasks q; q_pending := q_pending q; q_active := q_active q; q_zsets := z;
     q_groups := q_groups q; q_aggregation_sets := q_aggregation_sets q; q_paused := q_paused q;
     q_counters := q_counters q |}.
Definition set_groups (g : gset gostring) (q : QueueDB) : QueueDB :=
  {| q_tasks := q_tasks q; q_pending := q_pending q; q_active := q_active q; q_zsets := q_zsets q;
     q_groups := g; q_aggregation_sets := q_aggregation_sets q; q_paused := q_paused q;
     q_counters := q_counters q |}.
Definition set_aggregation_sets (z : zset AggKey) (q : QueueDB) : QueueDB :=
  {| q_tasks := q_tasks q; q_pending := q_pending q; q_active := q_active q; q_zsets := q_zsets q;
     q_groups := q_groups q; q_aggregation_sets := z; q_paused := q_paused q;
     q_counters := q_counters q |}.
Definition set_paused (p : option Z) (q : QueueDB) : QueueDB :=
  {| q_tasks := q_tasks q; q_pending := q_pending q; q_active := q_active q; q_zsets := q_zsets q;
     q_groups := q_groups q; q_aggregation_sets := q_aggregation_sets q; q_paused := p;
     q_counters := q_counters q |}.
Definition set_counters (c : gmap gostring Counter) (q : QueueDB) : QueueDB :=
  {| q_tasks := q_tasks q; q_pending := q_pending q; q_active := q_active q; q_zsets := q_zsets q;
     q_groups := q_groups q; q_aggregation_sets := q_aggregation_sets q; q_paused := q_paused q;
     q_counters := c |}.

(** The sorted set under a key; a key that does not exist is the empty set. *)
Definition zget (k : ZKey) (q : QueueDB) : zset gostring := default [] (q_zsets q !! k).
Definition zput (k : ZKey) (z : zset gostring) (q : QueueDB) : QueueDB :=
  set_zsets (<[k := z]> (q_zsets q)) q.

Definition Locks : Type := gmap gostring Lock.

(** What servers and schedulers publish of themselves: the three sorted sets of keys with their expiry
    seconds, the values under these keys (a string, a hash and a list), each with its expiry instant
    ([None]: it does not expire), and the histories of the scheduler entries. *)
Record Registry := {
  r_servers : zset gostring;
  r_workers : zset gostring;
  r_schedulers : zset gostring;
  r_infos : gmap gostring (gostring * option Z);
  r_hashes : gmap gostring (gmap gostring gostring * option Z);
  r_lists : gmap gostring (list gostring * option Z);
  r_history : gmap gostring (zset gostring)
}.

Definition empty_registry : Registry :=
  {| r_servers := []; r_workers := []; r_schedulers := []; r_infos := ∅; r_hashes := ∅; r_lists := ∅;
     r_history := ∅ |}.

Record DB := {
  db_queues : gmap gostring QueueDB;
  db_locks : Locks;
  db_all : gset gostring;
  db_registry : Registry
}.

Definition empty_db : DB :=
  {| db_queues := ∅; db_locks := ∅; db_all := ∅; db_registry := empty_registry |}.

Definition queue_of (qname : gostring) (db : DB) : QueueDB :=
  default empty_queue (db_queues db !! qname).

(** ** Scripts *)

(** A script of one queue: it sees the keys of the queue and the locks. *)
Definition script (A : Type) : Type := stE (QueueDB * Locks) gostring A.

Definition eret {S E A} (a : A) : stE S E A := fun s => (Ok a, s).
Definition ethrow {S E A} (e : E) : stE S E A := fun s => (Err e, s).

(** Reading and changing the queue's part of the store. *)
Definition reads {A} (f : QueueDB -> A) : script A := fun s => (Ok (f s.1), s).
Definition writes (f : QueueDB -> QueueDB) : script unit := fun s => (Ok tt, (f s.1, s.2)).

(** [redis.error_reply]. *)
Definition error_reply {A} (msg : gostring) : script A := ethrow msg.

(** *** Commands on the task hashes *)
Definition EXISTS_task (id : gostring) : script bool :=
  reads (fun q => bool_decide (is_Some (q_tasks q !! id))).
Definition task_hash (id : gostring) (q : QueueDB) : TaskHash := default empty_hash (q_tasks q !! id).
Definition hset_task (id : gostring) (fs : list HField) (q : QueueDB) : QueueDB :=
  set_tasks (<[id := hset fs (task_hash id q)]> (q_tasks q)) q.
Definition HSET (id : gostring) (fs : list HField) : script unit := writes (hset_task id fs).
Definition HDEL_pending_since (id : gostring) : script unit :=
  writes (fun q => set_tasks (alter hdel_pending_since id (q_tasks q)) q).
Definition HGET {A} (f : TaskHash -> option A) (id : gostring) : script (option A) :=
  reads (fun q => f (task_hash id q)).
Definition del_task (id : gostring) (q : QueueDB) : QueueDB := set_tasks (delete id (q_tasks q)) q.
Definition DEL_task (id : gostring) : script Z := fun s =>
  (Ok (if bool_decide (is_Some (q_tasks s.1 !! id)) then 1 else 0), (del_task id s.1, s.2)).

(** *** Commands on the lists *)
Definition LPUSH_pending (id : gostring) : script unit :=
  writes (fun q => set_pending (LPUSH (q_pending q) id) q).
Definition RPUSH_pending (id : gostring) : script unit :=
  writes (fun q => set_pending (RPUSH (q_pending q) id) q).
Definition LREM_active (id : gostring) : script Z := fun s =>
  let '(n, l) := LREM (q_active s.1) id in (Ok n, (set_active l s.1, s.2)).
Definition LREM_pending (id : gostring) : script Z := fun s =>
  let '(n, l) := LREM (q_pending s.1) id in (Ok n, (set_pending l s.1, s.2)).
Definition LREM1_pending (id : gostring) : script Z := fun s =>
  let '(n, l) := LREM1 (q_pending s.1) id in (Ok n, (set_pending l s.1, s.2)).
Definition RPOPLPUSH_pending_active : script (option gostring) := fun s =>
  match RPOPLPUSH (q_pending s.1) (q_active s.1) with
  | None => (Ok None, s)
  | Some (id, p, a) => (Ok (Some id), (set_active a (set_pending p s.1), s.2))
  end.

(** *** Commands on the sorted sets *)
Definition ZADD_ (k : ZKey) (score : Z) (id : gostring) : script Z := fun s =>
  let '(n, z) := ZADD (zget k s.1) score id in (Ok n, (zput k z s.1, s.2)).
Definition ZREM_ (k : ZKey) (id : gostring) : script Z := fun s =>
  let '(n, z) := ZREM (zget k s.1) id in (Ok n, (zput k z s.1, s.2)).
Definition ZCARD_ (k : ZKey) : script Z := reads (fun q => ZCARD (zget k q)).
Definition ZRANGE_ (k : ZKey) (start stop : Z) : script (zset gostring) :=
  reads (fun q => ZRANGE (zget k q) start stop).
Definition ZREVRANGE_ (k : ZKey) (start stop : Z) : script (zset gostring) :=
  reads (fun q => ZREVRANGE (zget k q) start stop).
Definition ZREMRANGEBYRANK_ (k : ZKey) (start stop : Z) : script unit :=
  writes (fun q => zput k (ZREMRANGEBYRANK (zget k q) start stop) q).
Definition ZRANGEBYSCORE_ (k : ZKey) (max : Z) : script (list gostring) :=
  reads (fun q => zmembers (ZRANGEBYSCORE (zget k q) max)).
Definition ZRANGEBYSCORE_LIMIT_ (k : ZKey) (max : Z) (n : nat) : script (list gostring) :=
  reads (fun q => zmembers (ZRANGEBYSCORE_LIMIT (zget k q) max n)).
Definition ZREMRANGEBYSCORE_ (k : ZKey) (max : Z) : script unit :=
  writes (fun q => zput k (ZREMRANGEBYSCORE (zget k q) max) q).
Definition DEL_zset (k : ZKey) : script unit :=
  writes (fun q => set_zsets (delete k (q_zsets q)) q).

(** [SADD] and [SREM] on the group names; [ZADD] and [ZREM] on the aggregation sets. *)
Definition SADD_group (g : gostring) : script unit :=
  writes (fun q => set_groups ({[ g ]} ∪ q_groups q) q).
Definition SREM_group (g : gostring) : script unit :=
  writes (fun q => set_groups (q_groups q ∖ {[ g ]}) q).
Definition ZADD_aggregation_sets (score : Z) (k : AggKey) : script unit :=
  writes (fun q => set_aggregation_sets (zadd score k (q_aggregation_sets q)) q).
Definition ZREM_aggregation_sets (k : AggKey) : script unit :=
  writes (fun q => set_aggregation_sets (zrem k (q_aggregation_sets q)) q).

(** *** Commands on the counters *)
Definition counter_get (now : Z) (k : gostring) (q : QueueDB) : option Z :=
  match q_counters q !! k with
  | Some c => match c_exp c with
              | Some e => if now <? e then Some (c_val c) else None
              | None => Some (c_val c)
              end
  | None => None
  end.

(** [GET], [INCR] (which keeps the time to live of a key that is alive), [EXPIREAT] (an instant
    that has passed deletes the key) and [SET] (which drops the time to live). *)
Definition GET_counter (now : Z) (k : gostring) : script (option Z) := reads (counter_get now k).
Definition INCR_counter (now : Z) (k : gostring) : script Z := fun s =>
  match INCR (counter_get now k s.1) with
  | Ok n =>
      let exp := match counter_get now k s.1, q_counters s.1 !! k with
                 | Some _, Some c => c_exp c
                 | _, _ => None
                 end in
      (Ok n, (set_counters (<[k := {| c_val := n; c_exp := exp |}]> (q_counters s.1)) s.1, s.2))
  | Err e => (Err e, s)
  | Panic m => (Panic m, s)
  | OutOfFuel => (OutOfFuel, s)
  end.
Definition EXPIREAT_counter (now : Z) (k : gostring) (at_seconds : Z) : script unit :=
  writes (fun q =>
    let e := at_seconds * nanosecond_per_second in
    set_counters
      (if now <? e
       then alter (fun c => {| c_val := c_val c; c_exp := Some e |}) k (q_counters q)
       else delete k (q_counters q)) q).
Definition SET_counter (k : gostring) (n : Z) : script unit :=
  writes (fun q => set_counters (<[k := {| c_val := n; c_exp := None |}]> (q_counters q)) q).

(** [tonumber(v) == tonumber(max)]: the comparison of doubles; the nil reply is not a number. *)
Definition lua_eq (v : option Z) (max : Z) : bool :=
  match v with Some n => lua_round n =? lua_round max | None => false end.

(** *** Commands on the locks *)
Definition SET_NX_EX_lock (now : Z) (k v : gostring) (seconds : Z) : script bool := fun s =>
  match SET_NX_EX now s.2 k v seconds with
  | Ok (ok, locks) => (Ok ok, (s.1, locks))
  | Err e => (Err e, s)
  | Panic m => (Panic m, s)
  | OutOfFuel => (OutOfFuel, s)
  end.
Definition release_lock (now : Z) (k id : gostring) : script unit := fun s =>
  (Ok tt, (s.1, lock_release now s.2 k id)).

(** Running a body for every element of a list ([for _, id in ipairs(ids)]). *)
Fixpoint efor {S E A} (body : A -> stE S E unit) (l : list A) : stE S E unit :=
  match l with
  | [] => eret tt
  | x :: l => _ ↞ body x; efor body l
  end.

(** Running a script of queue [qname] on the database. *)
Definition run_script {A} (qname : gostring) (m : script A) : stE DB gostring A := fun db =>
  let '(r, (q, locks)) := m (queue_of qname db, db_locks db) in
  (r, {| db_queues := <[qname := q]> (db_queues db); db_locks := locks; db_all := db_all db;
      db_registry := db_registry db |}).

(** The Go side of a call: an error reply becomes an error value. *)
Definition map_error {S E E' A} (f : E -> E') (m : stE S E A) : stE S E' A := fun s =>
  let '(r, s) := m s in
  (match r with Ok a => Ok a | Err e => Err (f e) | Panic p => Panic p | OutOfFuel => OutOfFuel end, s).

Definition eval_error (op : gostring) (code : Code) (reply : gostring) : goerror :=
  E_text op code (str "redis eval error: " ++ reply).

(** [runScript] and [runScriptWithErrorCode]. *)
Definition runScript {A} (op qname : gostring) (m : script A) : stE DB goerror unit :=
  _ ↞ map_error (eval_error op Internal) (run_script qname m); eret tt.
Definition runScriptWithErrorCode (op qname : gostring) (m : script Z) : stE DB goerror Z :=
  map_error (eval_error op Unknown) (run_script qname m).

(** [r.client.SAdd(ctx, base.AllQueues, qname)]. *)
Definition SADD_queue (qname : gostring) : stE DB goerror unit := fun db =>
  (Ok tt, {| db_queues := db_queues db; db_locks := db_locks db; db_all := {[ qname ]} ∪ db_all db;
             db_registry := db_registry db |}).
