(* ===== verification/AsynqRdb.v ===== *)
(** The operations of [pkg/rdb/rdb.go]: the Lua scripts as scripts on the store, and the methods of
    [RDB] that run them.

    Every method takes the instant [now] that its clock and the Redis server read; a method that
    reads the clock several times reads the same instant.  The uuid of an aggregation set is an
    argument.  Loops that repeat a script until it reports no work carry fuel; that the fuel given
    by the callers is enough is proved in [AsynqSpec]. *)
From stdpp Require Import base list strings numbers option gmap.
From S2P Require Import Prelude.
From S2P Require Import Redis.
From S2P Require Import AsynqBase.
From S2P Require Import AsynqStore.

Definition statsTTL : Z := 90 * 24 * Hour.
Definition LeaseDuration : Z := 30 * Second.

(** ** Scripts *)

Definition enqueueCmd (id msg : gostring) (now : Z) : script Z :=
  ex ↞ EXISTS_task id;
  if (ex : bool) then eret 0
  else
    _ ↞ HSET id [F_msg msg; F_state TaskStatePending; F_pending_since now];
    _ ↞ LPUSH_pending id;
    eret 1.

Definition enqueueUniqueCmd (now : Z) (unique_key id : gostring) (ttl : Z) (msg : gostring)
    (now_nsec : Z) : script Z :=
  ok ↞ SET_NX_EX_lock now unique_key id ttl;
  if negb ok then eret (-1)
  else
    ex ↞ EXISTS_task id;
    if (ex : bool) then eret 0
    else
      _ ↞ HSET id [F_msg msg; F_state TaskStatePending; F_pending_since now_nsec;
                   F_unique_key unique_key];
      _ ↞ LPUSH_pending id;
      eret 1.

(** [None] is the nil reply. *)
Definition dequeueCmd (lease_expiration : Z) : script (option gostring) :=
  paused ↞ reads q_paused;
  match paused with
  | Some _ => eret None
  | None =>
      id ↞ RPOPLPUSH_pending_active;
      match id with
      | None => eret None
      | Some id =>
          _ ↞ HSET id [F_state TaskStateActive];
          _ ↞ HDEL_pending_since id;
          _ ↞ ZADD_ ZLease lease_expiration id;
          HGET h_msg id
      end
  end.

(** The removal of an active task, with which the scripts on active tasks start. *)
Definition removeActive (id : gostring) : script unit :=
  n ↞ LREM_active id;
  if n =? 0 then error_reply (str "NOT FOUND")
  else
    n ↞ ZREM_ ZLease id;
    if n =? 0 then error_reply (str "NOT FOUND") else eret tt.

(** The daily counter is incremented, and given its time to live when it is new. *)
Definition incrDaily (now : Z) (key : gostring) (expire_at : Z) : script unit :=
  n ↞ INCR_counter now key;
  if n =? 1 then EXPIREAT_counter now key expire_at else eret tt.

(** The total of processed tasks, reset to 1 at the maximum. *)
Definition incrProcessedTotal (now : Z) (key : gostring) (max : Z) : script unit :=
  total ↞ GET_counter now key;
  if lua_eq total max then SET_counter key 1
  else _ ↞ INCR_counter now key; eret tt.

(** The totals of processed and failed tasks, both reset when the first is at the maximum. *)
Definition incrTotals (now : Z) (processed failed : gostring) (max : Z) : script unit :=
  total ↞ GET_counter now processed;
  if lua_eq total max then
    _ ↞ SET_counter processed 1; SET_counter failed 1
  else
    _ ↞ INCR_counter now processed;
    _ ↞ INCR_counter now failed;
    eret tt.

Definition doneCmd (now : Z) (id processed_today processed : gostring) (stats_exp max : Z)
    : script unit :=
  _ ↞ removeActive id;
  n ↞ DEL_task id;
  if n =? 0 then error_reply (str "NOT FOUND")
  else
    _ ↞ incrDaily now processed_today stats_exp;
    incrProcessedTotal now processed max.

Definition doneUniqueCmd (now : Z) (id processed_today processed unique_key : gostring)
    (stats_exp max : Z) : script unit :=
  _ ↞ removeActive id;
  n ↞ DEL_task id;
  if n =? 0 then error_reply (str "NOT FOUND")
  else
    _ ↞ incrDaily now processed_today stats_exp;
    _ ↞ incrProcessedTotal now processed max;
    release_lock now unique_key id.

Definition markAsCompleteCmd (now : Z) (id processed_today processed : gostring)
    (stats_exp task_exp : Z) (msg : gostring) (max : Z) : script unit :=
  _ ↞ removeActive id;
  n ↞ ZADD_ ZCompleted task_exp id;
  if negb (n =? 1) then error_reply (str "INTERNAL")
  else
    _ ↞ HSET id [F_msg msg; F_state TaskStateCompleted];
    _ ↞ incrDaily now processed_today stats_exp;
    incrProcessedTotal now processed max.

Definition markAsCompleteUniqueCmd (now : Z) (id processed_today processed unique_key : gostring)
    (stats_exp task_exp : Z) (msg : gostring) (max : Z) : script unit :=
  _ ↞ removeActive id;
  n ↞ ZADD_ ZCompleted task_exp id;
  if negb (n =? 1) then error_reply (str "INTERNAL")
  else
    _ ↞ HSET id [F_msg msg; F_state TaskStateCompleted];
    _ ↞ incrDaily now processed_today stats_exp;
    _ ↞ incrProcessedTotal now processed max;
    release_lock now unique_key id.

Definition requeueCmd (id : gostring) : script unit :=
  _ ↞ removeActive id;
  _ ↞ RPUSH_pending id;
  HSET id [F_state TaskStatePending].

Definition addToGroupCmd (id msg : gostring) (now_sec : Z) (group : gostring) : script Z :=
  ex ↞ EXISTS_task id;
  if (ex : bool) then eret 0
  else
    _ ↞ HSET id [F_msg msg; F_state TaskStateAggregating; F_group group];
    _ ↞ ZADD_ (ZGroup group) now_sec id;
    _ ↞ SADD_group group;
    eret 1.

Definition addToGroupUniqueCmd (now : Z) (id msg : gostring) (now_sec : Z) (group : gostring)
    (unique_key : gostring) (ttl : Z) : script Z :=
  ok ↞ SET_NX_EX_lock now unique_key id ttl;
  if negb ok then eret (-1)
  else
    ex ↞ EXISTS_task id;
    if (ex : bool) then eret 0
    else
      _ ↞ HSET id [F_msg msg; F_state TaskStateAggregating; F_group group];
      _ ↞ ZADD_ (ZGroup group) now_sec id;
      _ ↞ SADD_group group;
      eret 1.

Definition scheduleCmd (id msg : gostring) (process_at : Z) : script Z :=
  ex ↞ EXISTS_task id;
  if (ex : bool) then eret 0
  else
    _ ↞ HSET id [F_msg msg; F_state TaskStateScheduled];
    _ ↞ ZADD_ ZScheduled process_at id;
    eret 1.

Definition scheduleUniqueCmd (now : Z) (unique_key id : gostring) (ttl process_at : Z)
    (msg : gostring) : script Z :=
  ok ↞ SET_NX_EX_lock now unique_key id ttl;
  if negb ok then eret (-1)
  else
    ex ↞ EXISTS_task id;
    if (ex : bool) then eret 0
    else
      _ ↞ HSET id [F_msg msg; F_state TaskStateScheduled; F_unique_key unique_key];
      _ ↞ ZADD_ ZScheduled process_at id;
      eret 1.

Definition retryCmd (now : Z) (id processed_today failed_today processed failed msg : gostring)
    (retry_at stats_exp : Z) (is_failure : bool) (max : Z) : script unit :=
  _ ↞ removeActive id;
  _ ↞ ZADD_ ZRetry retry_at id;
  _ ↞ HSET id [F_msg msg; F_state TaskStateRetry];
  if is_failure then
    _ ↞ incrDaily now processed_today stats_exp;
    _ ↞ incrDaily now failed_today stats_exp;
    incrTotals now processed failed max
  else eret tt.

Definition archiveCmd (now : Z) (id processed_today failed_today processed failed msg : gostring)
    (died_at cutoff max_size stats_exp max : Z) : script unit :=
  _ ↞ removeActive id;
  _ ↞ ZADD_ ZArchived died_at id;
  _ ↞ ZREMRANGEBYSCORE_ ZArchived cutoff;
  _ ↞ ZREMRANGEBYRANK_ ZArchived 0 (- max_size);
  _ ↞ HSET id [F_msg msg; F_state TaskStateArchived];
  _ ↞ incrDaily now processed_today stats_exp;
  _ ↞ incrDaily now failed_today stats_exp;
  incrTotals now processed failed max.

(** One task of [forwardCmd]: to its group when its hash names one, to the pending list else. *)
Definition forwardOne (src : ZKey) (now_sec now_nsec : Z) (id : gostring) : script unit :=
  group ↞ HGET h_group id;
  match group with
  | Some ((_ :: _) as group) =>
      _ ↞ ZADD_ (ZGroup group) now_sec id;
      _ ↞ ZREM_ src id;
      HSET id [F_state TaskStateAggregating]
  | _ =>
      _ ↞ LPUSH_pending id;
      _ ↞ ZREM_ src id;
      HSET id [F_state TaskStatePending; F_pending_since now_nsec]
  end.

Definition forwardCmd (src : ZKey) (now_sec now_nsec : Z) : script Z :=
  ids ↞ ZRANGEBYSCORE_LIMIT_ src now_sec 100;
  _ ↞ efor (forwardOne src now_sec now_nsec) ids;
  eret (Z.of_nat (length ids)).

(** The creation of an aggregation set from the first [maxSize] tasks of a group (from all of them
    when [maxSize] is 0): the part the three branches of [aggregationCheckCmd] share. *)
Definition stageGroup (gname setID : gostring) (maxSize set_exp : Z) : script unit :=
  res ↞ ZRANGE_ (ZGroup gname) 0 (maxSize - 1);
  _ ↞ efor (fun e => _ ↞ ZADD_ (ZAggregationSet gname setID) e.2 e.1; eret tt) res;
  _ ↞ ZREMRANGEBYRANK_ (ZGroup gname) 0 (maxSize - 1);
  ZADD_aggregation_sets set_exp {| agg_gname := gname; agg_setID := setID |}.

Definition aggregationCheckCmd (gname setID : gostring)
    (maxSize maxDelay gracePeriod set_exp currentTime : Z) : script Z :=
  size ↞ ZCARD_ (ZGroup gname);
  if size =? 0 then eret 0
  else if negb (maxSize =? 0) && (maxSize <=? size) then
    _ ↞ stageGroup gname setID maxSize set_exp;
    _ ↞ (if size =? maxSize then SREM_group gname else eret tt);
    eret 1
  else
    oldest ↞ ZRANGE_ (ZGroup gname) 0 0;
    let oldestEntryScore := match oldest with e :: _ => e.2 | [] => 0 end in
    if negb (maxDelay =? 0) && (oldestEntryScore <=? currentTime - maxDelay) then
      _ ↞ stageGroup gname setID maxSize set_exp;
      _ ↞ (if (size <=? maxSize) || (maxSize =? 0) then SREM_group gname else eret tt);
      eret 1
    else
      latest ↞ ZREVRANGE_ (ZGroup gname) 0 0;
      let latestEntryScore := match latest with e :: _ => e.2 | [] => 0 end in
      if latestEntryScore <=? currentTime - gracePeriod then
        _ ↞ stageGroup gname setID maxSize set_exp;
        _ ↞ (if (size <=? maxSize) || (maxSize =? 0) then SREM_group gname else eret tt);
        eret 1
      else eret 0.

(** The messages of some tasks; a missing field is the empty string on the Go side. *)
Definition HGET_msgs (ids : list gostring) : script (list gostring) :=
  reads (fun q => map (fun id => default [] (h_msg (task_hash id q))) ids).

Definition readAggregationSetCmd (gname setID : gostring) : script (list gostring) :=
  ids ↞ ZRANGE_ (ZAggregationSet gname setID) 0 (-1);
  HGET_msgs (zmembers ids).

Definition deleteAggregationSetCmd (gname setID : gostring) : script unit :=
  ids ↞ ZRANGE_ (ZAggregationSet gname setID) 0 (-1);
  _ ↞ efor (fun id => _ ↞ DEL_task id; eret tt) (zmembers ids);
  _ ↞ DEL_zset (ZAggregationSet gname setID);
  ZREM_aggregation_sets {| agg_gname := gname; agg_setID := setID |}.

(** One stale aggregation set: its tasks go back to the group that its key names. *)
Definition reclaimOne (k : AggKey) : script unit :=
  res ↞ ZRANGE_ (ZAggregationSet (agg_gname k) (agg_setID k)) 0 (-1);
  _ ↞ efor (fun e => _ ↞ ZADD_ (ZGroup (agg_gname k)) e.2 e.1; eret tt) res;
  DEL_zset (ZAggregationSet (agg_gname k) (agg_setID k)).

Definition reclaimStateAggregationSetsCmd (now_sec : Z) : script unit :=
  stale ↞ reads (fun q => zmembers (ZRANGEBYSCORE (q_aggregation_sets q) now_sec));
  _ ↞ efor reclaimOne stale;
  writes (fun q => set_aggregation_sets (ZREMRANGEBYSCORE (q_aggregation_sets q) now_sec) q).

Definition deleteExpiredOne (id : gostring) : script unit :=
  _ ↞ DEL_task id; _ ↞ ZREM_ ZCompleted id; eret tt.

Definition deleteExpiredCompletedTasksCmd (now_sec : Z) (batch_size : nat) : script Z :=
  ids ↞ ZRANGEBYSCORE_LIMIT_ ZCompleted now_sec batch_size;
  _ ↞ efor deleteExpiredOne ids;
  eret (Z.of_nat (length ids)).

Definition listLeaseExpiredCmd (cutoff : Z) : script (list gostring) :=
  ids ↞ ZRANGEBYSCORE_ ZLease cutoff;
  HGET_msgs ids.

(** ** Methods *)

Section rdb.
Context `{Proto pb.TaskMessage}.

(** [base.EncodeMessage] with the error wrapped as the method does. *)
Definition encode (op : gostring) (code : Code) (text : gostring) (msg : TaskMessage)
    : stE DB goerror gostring :=
  elift match EncodeMessage (Some msg) with
        | Err err => Err (E_text op code (text ++ Error_String err))
        | r => r
        end.

Definition Enqueue (now : Z) (msg : TaskMessage) : stE DB goerror unit :=
  let op := str "rdb.Enqueue" in
  encoded ↞ encode op Unknown (str "cannot encode message: ") msg;
  _ ↞ SADD_queue (Queue msg);
  n ↞ runScriptWithErrorCode op (Queue msg) (enqueueCmd (ID msg) encoded now);
  if n =? 0 then ethrow (E op AlreadyExists ErrTaskIdConflict) else eret tt.

(** What the unique variants make of the reply of their script. *)
Definition unique_reply (op : gostring) (n : Z) : stE DB goerror unit :=
  if n =? -1 then ethrow (E op AlreadyExists ErrDuplicateTask)
  else if n =? 0 then ethrow (E op AlreadyExists ErrTaskIdConflict)
  else eret tt.

Definition EnqueueUnique (now : Z) (msg : TaskMessage) (ttl : Z) : stE DB goerror unit :=
  let op := str "rdb.EnqueueUnique" in
  encoded ↞ elift match EncodeMessage (Some msg) with
                   | Err err => Err (E op Internal err)
                   | r => r
                   end;
  _ ↞ SADD_queue (Queue msg);
  n ↞ runScriptWithErrorCode op (Queue msg)
        (enqueueUniqueCmd now (UniqueKey_ msg) (ID msg) (Seconds ttl) encoded now);
  unique_reply op n.

(** [base.DecodeMessage] with the error wrapped as the methods do. *)
Definition decode (op : gostring) (data : gostring) : stE DB goerror TaskMessage :=
  elift match DecodeMessage data with
        | Err err => Err (E_text op Internal (str "cannot decode message: " ++ Error_String err))
        | r => r
        end.

Fixpoint Dequeue (now : Z) (qnames : list gostring) : stE DB goerror (TaskMessage * Z) :=
  let op := str "rdb.Dequeue" in
  match qnames with
  | [] => ethrow (E op NotFound ErrNoProcessableTask)
  | qname :: qnames =>
      let leaseExpirationTime := now + LeaseDuration in
      res ↞ map_error (eval_error op Unknown)
              (run_script qname (dequeueCmd (Unix leaseExpirationTime)));
      match res with
      | None => Dequeue now qnames
      | Some encoded =>
          msg ↞ decode op encoded;
          eret (msg, leaseExpirationTime)
      end
  end.

Definition Done (now : Z) (msg : TaskMessage) : stE DB goerror unit :=
  let op := str "rdb.Done" in
  let expireAt := Unix (now + statsTTL) in
  let today := ProcessedKey (Queue msg) now in
  let total := ProcessedTotalKey (Queue msg) in
  if negb (bool_decide (UniqueKey_ msg = []))
  then runScript op (Queue msg)
         (doneUniqueCmd now (ID msg) today total (UniqueKey_ msg) expireAt max_int64)
  else runScript op (Queue msg) (doneCmd now (ID msg) today total expireAt max_int64).

Definition MarkAsComplete (now : Z) (msg : TaskMessage) : stE DB goerror unit :=
  let op := str "rdb.MarkAsComplete" in
  let statsExpireAt := Unix (now + statsTTL) in
  let msg := set_CompletedAt (Unix now) msg in
  encoded ↞ encode op Unknown (str "cannot encode message: ") msg;
  let today := ProcessedKey (Queue msg) now in
  let total := ProcessedTotalKey (Queue msg) in
  let task_exp := Unix now + Retention msg in
  if negb (bool_decide (UniqueKey_ msg = []))
  then runScript op (Queue msg)
         (markAsCompleteUniqueCmd now (ID msg) today total (UniqueKey_ msg) statsExpireAt task_exp
            encoded max_int64)
  else runScript op (Queue msg)
         (markAsCompleteCmd now (ID msg) today total statsExpireAt task_exp encoded max_int64).

Definition Requeue (msg : TaskMessage) : stE DB goerror unit :=
  runScript (str "rdb.Requeue") (Queue msg) (requeueCmd (ID msg)).

Definition AddToGroup (now : Z) (msg : TaskMessage) (groupKey : gostring) : stE DB goerror unit :=
  let op := str "rdb.AddToGroup" in
  encoded ↞ encode op Unknown (str "cannot encode message: ") msg;
  _ ↞ SADD_queue (Queue msg);
  n ↞ runScriptWithErrorCode op (Queue msg) (addToGroupCmd (ID msg) encoded (Unix now) groupKey);
  if n =? 0 then ethrow (E op AlreadyExists ErrTaskIdConflict) else eret tt.

Definition AddToGroupUnique (now : Z) (msg : TaskMessage) (uniqueKey groupKey : gostring) (ttl : Z)
    : stE DB goerror unit :=
  let op := str "rdb.AddToGroupUnique" in
  encoded ↞ encode op Unknown (str "cannot encode message: ") msg;
  _ ↞ SADD_queue (Queue msg);
  let uniqueKey := if bool_decide (uniqueKey = [])
                   then UniqueKey (Queue msg) (Type_ msg) (Payload msg) else uniqueKey in
  n ↞ runScriptWithErrorCode op (Queue msg)
        (addToGroupUniqueCmd now (ID msg) encoded (Unix now) groupKey uniqueKey (Seconds ttl));
  unique_reply op n.

Definition Schedule (msg : TaskMessage) (processAt : Z) : stE DB goerror unit :=
  let op := str "rdb.Schedule" in
  encoded ↞ encode op Unknown (str "cannot encode message: ") msg;
  _ ↞ SADD_queue (Queue msg);
  n ↞ runScriptWithErrorCode op (Queue msg) (scheduleCmd (ID msg) encoded (Unix processAt));
  if n =? 0 then ethrow (E op AlreadyExists ErrTaskIdConflict) else eret tt.

Definition ScheduleUnique (now : Z) (msg : TaskMessage) (processAt ttl : Z)
    : stE DB goerror unit :=
  let op := str "rdb.ScheduleUnique" in
  encoded ↞ encode op Internal (str "cannot encode task message: ") msg;
  _ ↞ SADD_queue (Queue msg);
  n ↞ runScriptWithErrorCode op (Queue msg)
        (scheduleUniqueCmd now (UniqueKey_ msg) (ID msg) (Seconds ttl) (Unix processAt) encoded);
  unique_reply op n.

Definition Retry (now : Z) (msg : TaskMessage) (processAt : Z) (errMsg : gostring)
    (isFailure : bool) : stE DB goerror unit :=
  let op := str "rdb.Retry" in
  let modified := if isFailure then set_Retried (Retried msg + 1) msg else msg in
  let modified := set_failure errMsg (Unix now) modified in
  encoded ↞ encode op Internal (str "cannot encode message: ") modified;
  runScript op (Queue msg)
    (retryCmd now (ID msg) (ProcessedKey (Queue msg) now) (FailedKey (Queue msg) now)
       (ProcessedTotalKey (Queue msg)) (FailedTotalKey (Queue msg)) encoded (Unix processAt)
       (Unix (now + statsTTL)) isFailure max_int64).

Definition maxArchiveSize : Z := 10000.
Definition archivedExpirationInDays : Z := 90.

Definition Archive (now : Z) (msg : TaskMessage) (errMsg : gostring) : stE DB goerror unit :=
  let op := str "rdb.Archive" in
  let modified := set_failure errMsg (Unix now) msg in
  encoded ↞ encode op Internal (str "cannot encode message: ") modified;
  let cutoff := now - archivedExpirationInDays * Day in
  runScript op (Queue msg)
    (archiveCmd now (ID msg) (ProcessedKey (Queue msg) now) (FailedKey (Queue msg) now)
       (ProcessedTotalKey (Queue msg)) (FailedTotalKey (Queue msg)) encoded (Unix now)
       (Unix cutoff) maxArchiveSize (Unix (now + statsTTL)) max_int64).

Definition forward (now : Z) (qname : gostring) (delayedKey : ZKey) : stE DB goerror Z :=
  map_error (eval_error [] Internal) (run_script qname (forwardCmd delayedKey (Unix now) now)).

(** [for n != 0]: [n] is 1 at first. *)
Fixpoint forwardLoop (fuel : nat) (now : Z) (qname : gostring) (delayedKey : ZKey)
    : stE DB goerror unit :=
  match fuel with
  | O => fun db => (OutOfFuel, db)
  | S fuel =>
      n ↞ forward now qname delayedKey;
      if n =? 0 then eret tt else forwardLoop fuel now qname delayedKey
  end.

(** The fuel of a loop over a delayed set: every round but the last moves a task out of it. *)
Definition forwardFuel (qname : gostring) (delayedKey : ZKey) (db : DB) : nat :=
  S (length (zget delayedKey (queue_of qname db))).

Definition forwardAll (now : Z) (qname : gostring) : stE DB goerror unit :=
  efor (fun delayedKey db =>
          forwardLoop (forwardFuel qname delayedKey db) now qname delayedKey db)
       [ZScheduled; ZRetry].

Fixpoint ForwardIfReady (now : Z) (qnames : list gostring) : stE DB goerror unit :=
  match qnames with
  | [] => eret tt
  | qname :: qnames =>
      _ ↞ map_error (fun err => E (str "rdb.ForwardIfReady") (CanonicalCode err) err)
            (forwardAll now qname);
      ForwardIfReady now qnames
  end.

Definition ListGroups (qname : gostring) : stE DB goerror (list gostring) := fun db =>
  (Ok (elements (q_groups (queue_of qname db))), db).

Definition aggregationTimeout : Z := 2 * Minute.

(** [setID] is the uuid the method generates. *)
Definition AggregationCheck (now : Z) (setID qname gname : gostring)
    (t gracePeriod maxDelay maxSize : Z) : stE DB goerror gostring :=
  let op := str "RDB.AggregationCheck" in
  n ↞ runScriptWithErrorCode op qname
        (aggregationCheckCmd gname setID maxSize (Seconds maxDelay) (Seconds gracePeriod)
           (Unix (now + aggregationTimeout)) (Unix t));
  if n =? 0 then eret []
  else if n =? 1 then eret setID
  else ethrow (E_text op Internal (str "unexpected return value from lua script: " ++ itoa n)).

(** Decoding a list of messages, stopping at the first error. *)
Fixpoint decodeAll (op : gostring) (data : list gostring) : stE DB goerror (list TaskMessage) :=
  match data with
  | [] => eret []
  | s :: data =>
      msg ↞ decode op s;
      msgs ↞ decodeAll op data;
      eret (msg :: msgs)
  end.

Definition ReadAggregationSet (qname gname setID : gostring)
    : stE DB goerror (list TaskMessage * Z) :=
  let op := str "RDB.ReadAggregationSet" in
  data ↞ map_error (eval_error op Unknown) (run_script qname (readAggregationSetCmd gname setID));
  msgs ↞ decodeAll op data;
  deadline ↞ (fun db =>
    (Ok (ZSCORE (q_aggregation_sets (queue_of qname db))
           {| agg_gname := gname; agg_setID := setID |}), db));
  match deadline with
  | None => ethrow (E op Unknown (RedisCommandError (str "zscore") (NewError (str "redis: nil"))))
  | Some deadlineUnix => eret (msgs, deadlineUnix * Second)
  end.

Definition DeleteAggregationSet (qname gname setID : gostring) : stE DB goerror unit :=
  runScript (str "RDB.DeleteAggregationSet") qname (deleteAggregationSetCmd gname setID).

Definition ReclaimStaleAggregationSets (now : Z) (qname : gostring) : stE DB goerror unit :=
  runScript (str "RDB.ReclaimStaleAggregationSets") qname
    (reclaimStateAggregationSetsCmd (Unix now)).

Definition deleteExpiredCompletedTasks (now : Z) (qname : gostring) (batchSize : nat)
    : stE DB goerror Z :=
  map_error (eval_error (str "rdb.DeleteExpiredCompletedTasks") Internal)
    (run_script qname (deleteExpiredCompletedTasksCmd (Unix now) batchSize)).

Fixpoint deleteExpiredLoop (fuel : nat) (now : Z) (qname : gostring) : stE DB goerror unit :=
  match fuel with
  | O => fun db => (OutOfFuel, db)
  | S fuel =>
      n ↞ deleteExpiredCompletedTasks now qname 100;
      if n =? 0 then eret tt else deleteExpiredLoop fuel now qname
  end.

Definition DeleteExpiredCompletedTasks (now : Z) (qname : gostring) : stE DB goerror unit := fun db =>
  deleteExpiredLoop (forwardFuel qname ZCompleted db) now qname db.

Fixpoint ListLeaseExpired (cutoff : Z) (qnames : list gostring)
    : stE DB goerror (list TaskMessage) :=
  let op := str "rdb.ListLeaseExpired" in
  match qnames with
  | [] => eret []
  | qname :: qnames =>
      data ↞ map_error (eval_error op Internal)
               (run_script qname (listLeaseExpiredCmd (Unix cutoff)));
      msgs ↞ decodeAll op data;
      rest ↞ ListLeaseExpired cutoff qnames;
      eret (msgs ++ rest)
  end.

(** [ZADD XX] with no element is refused by the server. *)
Definition ExtendLease (now : Z) (qname : gostring) (ids : list gostring) : stE DB goerror Z :=
  let expireAt := now + LeaseDuration in
  match ids with
  | [] => ethrow (NewError (str "ERR wrong number of arguments for 'zadd' command"))
  | _ =>
      _ ↞ map_error NewError (run_script qname
            (writes (fun q => zput ZLease
               (fold_left (fun z id => zadd_xx (Unix expireAt) id z) ids (zget ZLease q)) q)));
      eret expireAt
  end.

Definition WriteResult (qname taskID data : gostring) : stE DB goerror Z :=
  _ ↞ map_error NewError (run_script qname (HSET taskID [F_result data]));
  eret (Z.of_nat (length data)).
End rdb.
