(* ===== verification/AsynqInspect.v ===== *)
(** The operations of [pkg/rdb/inspect.go]: statistics, listings, and the commands an operator has
    to run, archive and delete tasks, to remove a queue and to pause it.  [memoryUsage], whose
    script adds up what [MEMORY USAGE] reports, is an argument of [CurrentStats]. *)
From stdpp Require Import base list strings numbers option gmap.
From S2P Require Import Prelude.
From S2P Require Import Redis.
From S2P Require Import AsynqBase.
From S2P Require Import AsynqStore.
From S2P Require Import AsynqRdb.

(** ** Queues *)

Definition queueExists (qname : gostring) : stE DB goerror bool := fun db =>
  (Ok (bool_decide (qname ∈ db_all db)), db).

Definition checkQueueExists (qname : gostring) : stE DB goerror unit :=
  exists_ ↞ queueExists qname;
  if negb exists_ then ethrow (E [] Internal (QueueNotFoundError qname)) else eret tt.

(** [if err := r.checkQueueExists(qname); err != nil { return errors.E(op, code, err) }]. *)
Definition requireQueue (op qname : gostring) : stE DB goerror unit :=
  map_error (fun err => E op (CanonicalCode err) err) (checkQueueExists qname).

(** The check of the listings and statistics. *)
Definition requireQueueNotFound (op qname : gostring) : stE DB goerror unit :=
  exists_ ↞ queueExists qname;
  if negb exists_ then ethrow (E op NotFound (QueueNotFoundError qname)) else eret tt.

(** Running a script, its error reply becoming the cause of an error. *)
Definition run_raw {A} (op : gostring) (code : Code) (qname : gostring) (m : script A)
    : stE DB goerror A :=
  map_error (fun reply => E op code (NewError reply)) (run_script qname m).

Definition run_plain {A} (qname : gostring) (m : script A) : stE DB goerror A :=
  map_error NewError (run_script qname m).

(** ** Statistics *)

Record Stats := {
  St_Queue : gostring;
  St_MemoryUsage : Z;
  St_Paused : bool;
  St_Size : Z;
  St_Groups : Z;
  St_Pending : Z;
  St_Active : Z;
  St_Scheduled : Z;
  St_Retry : Z;
  St_Archived : Z;
  St_Completed : Z;
  St_Aggregating : Z;
  St_Processed : Z;
  St_Failed : Z;
  St_ProcessedTotal : Z;
  St_FailedTotal : Z;
  St_Latency : Z;
  St_Timestamp : Z
}.

Definition LLEN (l : list gostring) : Z := Z.of_nat (length l).

(** [tonumber] of a counter that may be missing. *)
Definition count_of (v : option Z) : Z := match v with Some n => lua_round n | None => 0 end.

(** [redis.call("LRANGE", KEYS[1], -1, -1)[1]] and the [pending_since] field of that task. *)
Definition oldest_pending_since (q : QueueDB) : Z :=
  match LRANGE (q_pending q) (-1) (-1) with
  | id :: _ => default 0 (h_pending_since (task_hash id q))
  | [] => 0
  end.

Definition aggregating_count (q : QueueDB) : Z :=
  fold_right Z.add 0 (map (fun g => ZCARD (zget (ZGroup g) q)) (elements (q_groups q))).

Definition CurrentStats (memoryUsage : gostring -> DB -> outcome goerror Z) (now : Z)
    (qname : gostring) : stE DB goerror Stats :=
  let op := str "rdb.CurrentStats" in
  _ ↞ requireQueueNotFound op qname;
  q ↞ run_raw op Unknown qname (reads id);
  let pending := LLEN (q_pending q) in
  let active := LLEN (q_active q) in
  let scheduled := ZCARD (zget ZScheduled q) in
  let retry := ZCARD (zget ZRetry q) in
  let archived := ZCARD (zget ZArchived q) in
  let completed := ZCARD (zget ZCompleted q) in
  let aggregating := aggregating_count q in
  let since := oldest_pending_since q in
  memusg ↞ (fun db => match memoryUsage qname db with
                       | Err err => (Err (E op (CanonicalCode err) err), db)
                       | r => (r, db)
                       end);
  eret {| St_Queue := qname; St_MemoryUsage := memusg;
          St_Paused := bool_decide (is_Some (q_paused q));
          St_Size := pending + active + scheduled + retry + archived + completed + aggregating;
          St_Groups := Z.of_nat (size (q_groups q));
          St_Pending := pending; St_Active := active; St_Scheduled := scheduled;
          St_Retry := retry; St_Archived := archived; St_Completed := completed;
          St_Aggregating := aggregating;
          St_Processed := count_of (counter_get now (ProcessedKey qname now) q);
          St_Failed := count_of (counter_get now (FailedKey qname now) q);
          St_ProcessedTotal := count_of (counter_get now (ProcessedTotalKey qname) q);
          St_FailedTotal := count_of (counter_get now (FailedTotalKey qname) q);
          St_Latency := if since =? 0 then 0 else now - since;
          St_Timestamp := now |}.

Record DailyStats := { Da_Queue : gostring; Da_Processed : Z; Da_Failed : Z; Da_Time : Z }.

Definition HistoricalStats (now : Z) (qname : gostring) (n : Z) : stE DB goerror (list DailyStats) :=
  let op := str "rdb.HistoricalStats" in
  if n <? 1 then ethrow (E_text op FailedPrecondition (str "the number of days must be positive"))
  else
    _ ↞ requireQueueNotFound op qname;
    run_raw op Unknown qname (reads (fun q =>
      map (fun i =>
             let ts := now - i * Day in
             {| Da_Queue := qname;
                Da_Processed := count_of (counter_get now (ProcessedKey qname ts) q);
                Da_Failed := count_of (counter_get now (FailedKey qname ts) q);
                Da_Time := ts |})
          (seqZ 0 n))).

Record GroupStat := { Gs_Group : gostring; Gs_Size : Z }.

Definition GroupStats (qname : gostring) : stE DB goerror (list GroupStat) :=
  run_raw (str "RDB.GroupStats") Unknown qname (reads (fun q =>
    map (fun g => {| Gs_Group := g; Gs_Size := ZCARD (zget (ZGroup g) q) |})
        (elements (q_groups q)))).

(** ** One task *)

Record TaskInfo := {
  Ti_Message : TaskMessage;
  Ti_State : TaskState;
  Ti_NextProcessAt : option Z;
  Ti_Result : option gostring
}.

(** [if len(s) > 0 { result = []byte(s) }]. *)
Definition result_bytes (s : option gostring) : option gostring :=
  match s with Some [] => None | s => s end.

(** The sorted set [queue key prefix .. state] of a state that has one. *)
Definition zset_of_state (s : TaskState) : option ZKey :=
  match s with
  | TaskStateScheduled => Some ZScheduled
  | TaskStateRetry => Some ZRetry
  | TaskStateArchived => Some ZArchived
  | TaskStateCompleted => Some ZCompleted
  | _ => None
  end.

(** The reply is the message, the state, the next process time (0 if there is none) and the
    result. *)
Definition getTaskInfoCmd (id : gostring) (now_sec : Z)
    : script (option gostring * option TaskState * Z * option gostring) :=
  ex ↞ EXISTS_task id;
  if negb ex then error_reply (str "NOT FOUND")
  else reads (fun q =>
    let h := task_hash id q in
    let next := match h_state h with
                | Some TaskStateScheduled => default 0 (ZSCORE (zget ZScheduled q) id)
                | Some TaskStateRetry => default 0 (ZSCORE (zget ZRetry q) id)
                | Some TaskStatePending => now_sec
                | _ => 0
                end in
    (h_msg h, h_state h, next, h_result h)).

Section inspect.
Context `{Proto pb.TaskMessage}.

Definition GetTaskInfo (now : Z) (qname id : gostring) : stE DB goerror TaskInfo :=
  let op := str "rdb.GetTaskInfo" in
  _ ↞ requireQueue op qname;
  '(encoded, state, processAtUnix, result) ↞
    map_error (fun reply => if reply =s str "NOT FOUND"
                            then E op NotFound (TaskNotFoundError qname id)
                            else E op Unknown (NewError reply))
              (run_script qname (getTaskInfoCmd id (Unix now)));
  msg ↞ elift match DecodeMessage (default [] encoded) with
               | Err _ => Err (E_text op Internal (str "could not decode task message"))
               | r => r
               end;
  state ↞ elift match TaskStateFromString (default [] (TaskState_String <$> state)) with
                 | Err err => Err (E op (CanonicalCode err) err)
                 | r => r
                 end;
  eret {| Ti_Message := msg; Ti_State := state;
          Ti_NextProcessAt := if processAtUnix =? 0 then None else Some (processAtUnix * Second);
          Ti_Result := result_bytes result |}.

(** ** Listings *)

Record Pagination := { Size : Z; Page : Z }.

Definition Pagination_start (p : Pagination) : Z := int64 (Size p * Page p).
Definition Pagination_stop (p : Pagination) : Z := int64 (Size p * Page p + Size p - 1).

(** The messages and results of some tasks, those whose message does not decode left out. *)
Definition infos_of (state : TaskState) (q : QueueDB) (ids : list (gostring * option Z))
    : list TaskInfo :=
  flat_map (fun '(id, next) =>
    let h := task_hash id q in
    match DecodeMessage (default [] (h_msg h)) with
    | Ok m => [{| Ti_Message := m; Ti_State := state; Ti_NextProcessAt := next;
                  Ti_Result := result_bytes (h_result h) |}]
    | _ => []
    end) ids.

Definition listMessages (now : Z) (qname : gostring) (state : TaskState) (pgn : Pagination)
    : stE DB goerror (list TaskInfo) :=
  let stop := - Pagination_start pgn - 1 in
  let start := - Pagination_stop pgn - 1 in
  let next := if bool_decide (state = TaskStatePending) then Some now else None in
  match state with
  | TaskStateActive | TaskStatePending =>
      run_raw [] Unknown qname (reads (fun q =>
        let key := if bool_decide (state = TaskStateActive) then q_active q else q_pending q in
        rev (infos_of state q (map (fun id => (id, next)) (LRANGE key start stop)))))
  | _ => fun db => (Panic (str "unsupported task state: " ++ TaskState_String state), db)
  end.

(** The queue check and the wrapping of errors of the listings. *)
Definition listing {A} (op qname : gostring) (m : stE DB goerror A) : stE DB goerror A :=
  _ ↞ requireQueueNotFound op qname;
  map_error (fun err => E op (CanonicalCode err) err) m.

Definition ListPending (now : Z) (qname : gostring) (pgn : Pagination) :=
  listing (str "rdb.ListPending") qname (listMessages now qname TaskStatePending pgn).
Definition ListActive (now : Z) (qname : gostring) (pgn : Pagination) :=
  listing (str "rdb.ListActive") qname (listMessages now qname TaskStateActive pgn).

Definition listZSetEntries (qname : gostring) (state : TaskState) (key : ZKey) (pgn : Pagination)
    : stE DB goerror (list TaskInfo) :=
  run_raw [] Unknown qname (reads (fun q =>
    infos_of state q
      (map (fun '(id, score) =>
              (id, match state with
                   | TaskStateScheduled | TaskStateRetry => Some (score * Second)
                   | _ => None
                   end))
           (ZRANGE (zget key q) (Pagination_start pgn) (Pagination_stop pgn))))).

Definition ListScheduled (qname : gostring) (pgn : Pagination) :=
  listing (str "rdb.ListScheduled") qname (listZSetEntries qname TaskStateScheduled ZScheduled pgn).
Definition ListRetry (qname : gostring) (pgn : Pagination) :=
  listing (str "rdb.ListRetry") qname (listZSetEntries qname TaskStateRetry ZRetry pgn).
Definition ListArchived (qname : gostring) (pgn : Pagination) :=
  listing (str "rdb.ListArchived") qname (listZSetEntries qname TaskStateArchived ZArchived pgn).
Definition ListCompleted (qname : gostring) (pgn : Pagination) :=
  listing (str "rdb.ListCompleted") qname (listZSetEntries qname TaskStateCompleted ZCompleted pgn).
Definition ListAggregating (qname gname : gostring) (pgn : Pagination) :=
  listing (str "rdb.ListAggregating") qname
    (listZSetEntries qname TaskStateAggregating (ZGroup gname) pgn).
End inspect.

(** ** Running tasks *)

(** Pushing some tasks to the pending list. *)
Definition pendAll (ids : list gostring) : script unit :=
  efor (fun id => _ ↞ LPUSH_pending id; HSET id [F_state TaskStatePending]) ids.

Definition runAllCmd (src : ZKey) : script Z :=
  ids ↞ ZRANGE_ src 0 (-1);
  _ ↞ pendAll (zmembers ids);
  _ ↞ DEL_zset src;
  eret (ZCARD ids).

Definition runAll (src : ZKey) (qname : gostring) : stE DB goerror Z :=
  _ ↞ checkQueueExists qname;
  n ↞ run_plain qname (runAllCmd src);
  if n =? -1 then ethrow (QueueNotFoundError qname) else eret n.

(** How the callers of [runAll], [archiveAll] and [deleteAll] wrap an error. *)
Definition wrapAll {A} (op : gostring) (code : Code) (m : stE DB goerror A) : stE DB goerror A :=
  map_error (fun err => if IsQueueNotFound err then E op NotFound err else E op code err) m.

Definition RunAllScheduledTasks (qname : gostring) : stE DB goerror Z :=
  wrapAll (str "rdb.RunAllScheduledTasks") Unknown (runAll ZScheduled qname).
Definition RunAllRetryTasks (qname : gostring) : stE DB goerror Z :=
  wrapAll (str "rdb.RunAllRetryTasks") Unknown (runAll ZRetry qname).
Definition RunAllArchivedTasks (qname : gostring) : stE DB goerror Z :=
  wrapAll (str "rdb.RunAllArchivedTasks") Unknown (runAll ZArchived qname).

Definition runAllAggregatingCmd (gname : gostring) : script Z :=
  ids ↞ ZRANGE_ (ZGroup gname) 0 (-1);
  _ ↞ pendAll (zmembers ids);
  _ ↞ DEL_zset (ZGroup gname);
  _ ↞ SREM_group gname;
  eret (ZCARD ids).

Definition RunAllAggregatingTasks (qname gname : gostring) : stE DB goerror Z :=
  let op := str "rdb.RunAllAggregatingTasks" in
  _ ↞ requireQueue op qname;
  run_raw op Internal qname (runAllAggregatingCmd gname).

(** Removal of a task from its group; the group name is forgotten when the group is empty. *)
Definition removeFromGroup (qname id group text : gostring) : script unit :=
  n ↞ ZREM_ (ZGroup group) id;
  if n =? 0 then error_reply (text ++ GroupKey qname group)
  else
    c ↞ ZCARD_ (ZGroup group);
    if c =? 0 then SREM_group group else eret tt.

(** Removal of a task from the sorted set of its state. *)
Definition removeFromZset (qname id : gostring) (state : TaskState) (text : gostring) : script unit :=
  let notFound := text ++ QueueKeyPrefix qname ++ TaskState_String state in
  match zset_of_state state with
  | None => error_reply notFound
  | Some k =>
      n ↞ ZREM_ k id;
      if n =? 0 then error_reply notFound else eret tt
  end.

(** The error of Lua for the concatenation of a missing hash field. *)
Definition lua_concat_error : gostring := str "ERR attempt to concatenate a boolean value".

Definition runTaskCmd (qname id : gostring) : script Z :=
  ex ↞ EXISTS_task id;
  if negb ex then eret 0
  else
    state ↞ HGET h_state id;
    group ↞ HGET h_group id;
    let text := str "internal error: task id not found in zset " in
    match state with
    | Some TaskStateActive => eret (-1)
    | Some TaskStatePending => eret (-2)
    | Some st =>
        _ ↞ match st, group with
             | TaskStateAggregating, Some g => removeFromGroup qname id g text
             | TaskStateAggregating, None => error_reply lua_concat_error
             | _, _ => removeFromZset qname id st text
             end;
        _ ↞ LPUSH_pending id;
        _ ↞ HSET id [F_state TaskStatePending];
        eret 1
    | None => error_reply lua_concat_error
    end.

Definition RunTask (qname id : gostring) : stE DB goerror unit :=
  let op := str "rdb.RunTask" in
  _ ↞ requireQueue op qname;
  n ↞ run_raw op Unknown qname (runTaskCmd qname id);
  if n =? 1 then eret tt
  else if n =? 0 then ethrow (E op NotFound (TaskNotFoundError qname id))
  else if n =? -1 then ethrow (E_text op FailedPrecondition (str "task is already running"))
  else if n =? -2 then ethrow (E_text op FailedPrecondition (str "task is already in pending state"))
  else ethrow (E_text op Internal (str "unexpected return value from Lua script " ++ itoa n)).

(** ** Archiving tasks *)

(** Adding some tasks to the archive, and trimming the archive by age and by size. *)
Definition archiveIds (ids : list gostring) (now_sec : Z) : script unit :=
  efor (fun id => _ ↞ ZADD_ ZArchived now_sec id; HSET id [F_state TaskStateArchived]) ids.

Definition trimArchive (cutoff max_size : Z) : script unit :=
  _ ↞ ZREMRANGEBYSCORE_ ZArchived cutoff;
  ZREMRANGEBYRANK_ ZArchived 0 (- max_size).

Definition archiveAllCmd (src : ZKey) (now_sec cutoff max_size : Z) : script Z :=
  ids ↞ ZRANGE_ src 0 (-1);
  _ ↞ archiveIds (zmembers ids) now_sec;
  _ ↞ trimArchive cutoff max_size;
  _ ↞ DEL_zset src;
  eret (ZCARD ids).

Definition archiveCutoff (now : Z) : Z := Unix (now - archivedExpirationInDays * Day).

Definition archiveAll (now : Z) (src : ZKey) (qname : gostring) : stE DB goerror Z :=
  _ ↞ checkQueueExists qname;
  n ↞ run_plain qname (archiveAllCmd src (Unix now) (archiveCutoff now) maxArchiveSize);
  if n =? -1 then ethrow (QueueNotFoundError qname) else eret n.

Definition ArchiveAllRetryTasks (now : Z) (qname : gostring) : stE DB goerror Z :=
  wrapAll (str "rdb.ArchiveAllRetryTasks") Internal (archiveAll now ZRetry qname).
Definition ArchiveAllScheduledTasks (now : Z) (qname : gostring) : stE DB goerror Z :=
  wrapAll (str "rdb.ArchiveAllScheduledTasks") Internal (archiveAll now ZScheduled qname).

Definition archiveAllAggregatingCmd (gname : gostring) (now_sec cutoff max_size : Z) : script Z :=
  ids ↞ ZRANGE_ (ZGroup gname) 0 (-1);
  _ ↞ archiveIds (zmembers ids) now_sec;
  _ ↞ trimArchive cutoff max_size;
  _ ↞ DEL_zset (ZGroup gname);
  _ ↞ SREM_group gname;
  eret (ZCARD ids).

Definition ArchiveAllAggregatingTasks (now : Z) (qname gname : gostring) : stE DB goerror Z :=
  let op := str "rdb.ArchiveAllAggregatingTasks" in
  _ ↞ requireQueue op qname;
  run_raw op Internal qname
    (archiveAllAggregatingCmd gname (Unix now) (archiveCutoff now) maxArchiveSize).

Definition archiveAllPendingCmd (now_sec cutoff max_size : Z) : script Z :=
  ids ↞ reads q_pending;
  _ ↞ archiveIds ids now_sec;
  _ ↞ trimArchive cutoff max_size;
  _ ↞ writes (set_pending []);
  eret (LLEN ids).

Definition ArchiveAllPendingTasks (now : Z) (qname : gostring) : stE DB goerror Z :=
  let op := str "rdb.ArchiveAllPendingTasks" in
  _ ↞ requireQueue op qname;
  run_raw op Internal qname (archiveAllPendingCmd (Unix now) (archiveCutoff now) maxArchiveSize).

Definition archiveTaskCmd (qname id : gostring) (now_sec cutoff max_size : Z) : script Z :=
  ex ↞ EXISTS_task id;
  if negb ex then eret 0
  else
    state ↞ HGET h_state id;
    group ↞ HGET h_group id;
    match state with
    | Some TaskStateActive => eret (-2)
    | Some TaskStateArchived => eret (-1)
    | Some st =>
        _ ↞ match st, group with
             | TaskStatePending, _ =>
                 n ↞ LREM1_pending id;
                 if n =? 0 then error_reply (str "task id not found in list " ++ PendingKey qname)
                 else eret tt
             | TaskStateAggregating, Some g =>
                 removeFromGroup qname id g (str "task id not found in zset ")
             | TaskStateAggregating, None => error_reply lua_concat_error
             | _, _ => removeFromZset qname id st (str "task id not found in zset ")
             end;
        _ ↞ ZADD_ ZArchived now_sec id;
        _ ↞ HSET id [F_state TaskStateArchived];
        _ ↞ trimArchive cutoff max_size;
        eret 1
    | None => error_reply lua_concat_error
    end.

Definition ArchiveTask (now : Z) (qname id : gostring) : stE DB goerror unit :=
  let op := str "rdb.ArchiveTask" in
  _ ↞ requireQueue op qname;
  n ↞ run_raw op Unknown qname
        (archiveTaskCmd qname id (Unix now) (archiveCutoff now) maxArchiveSize);
  if n =? 1 then eret tt
  else if n =? 0 then ethrow (E op NotFound (TaskNotFoundError qname id))
  else if n =? -1 then ethrow (E op FailedPrecondition (TaskAlreadyArchivedError qname id))
  else if n =? -2 then ethrow (E_text op FailedPrecondition
         (str "cannot archive task in active state. use CancelProcessing instead."))
  else if n =? -3 then ethrow (E op NotFound (QueueNotFoundError qname))
  else ethrow (E_text op Internal
         (str "unexpected return value from archiveTaskCmd script: " ++ itoa n)).

(** ** Deleting tasks *)

(** [if unique_key and unique_key ~= "" and GET(unique_key) == id then DEL(unique_key)]. *)
Definition releaseTaskLock (now : Z) (id : gostring) : script unit :=
  unique_key ↞ HGET h_unique_key id;
  match unique_key with
  | Some ((_ :: _) as k) => release_lock now k id
  | _ => eret tt
  end.

Definition deleteTaskCmd (now : Z) (qname id : gostring) : script Z :=
  ex ↞ EXISTS_task id;
  if negb ex then eret 0
  else
    state ↞ HGET h_state id;
    group ↞ HGET h_group id;
    match state with
    | Some TaskStateActive => eret (-1)
    | Some st =>
        _ ↞ match st, group with
             | TaskStatePending, _ =>
                 n ↞ LREM_pending id;
                 if n =? 0 then error_reply (str "task is not found in list: " ++ PendingKey qname)
                 else eret tt
             | TaskStateAggregating, Some g =>
                 removeFromGroup qname id g (str "task is not found in zset: ")
             | TaskStateAggregating, None => error_reply lua_concat_error
             | _, _ => removeFromZset qname id st (str "task is not found in zset: ")
             end;
        _ ↞ releaseTaskLock now id;
        DEL_task id
    | None => error_reply lua_concat_error
    end.

Definition DeleteTask (now : Z) (qname id : gostring) : stE DB goerror unit :=
  let op := str "rdb.DeleteTask" in
  _ ↞ requireQueue op qname;
  n ↞ run_raw op Unknown qname (deleteTaskCmd now qname id);
  if n =? 1 then eret tt
  else if n =? 0 then ethrow (E op NotFound (TaskNotFoundError qname id))
  else if n =? -1 then ethrow (E_text op FailedPrecondition
         (str "cannot delete task in active state. use CancelProcessing instead."))
  else ethrow (E_text op Internal
         (str "unexpected return value from deleteTaskCmd script: " ++ itoa n)).

Definition deleteAllCmd (now : Z) (src : ZKey) : script Z :=
  ids ↞ ZRANGE_ src 0 (-1);
  _ ↞ efor (fun id => _ ↞ releaseTaskLock now id; _ ↞ DEL_task id; eret tt) (zmembers ids);
  _ ↞ DEL_zset src;
  eret (ZCARD ids).

Definition deleteAll (now : Z) (src : ZKey) (qname : gostring) : stE DB goerror Z :=
  _ ↞ checkQueueExists qname;
  run_plain qname (deleteAllCmd now src).

Definition DeleteAllArchivedTasks (now : Z) (qname : gostring) : stE DB goerror Z :=
  wrapAll (str "rdb.DeleteAllArchivedTasks") Unknown (deleteAll now ZArchived qname).
Definition DeleteAllRetryTasks (now : Z) (qname : gostring) : stE DB goerror Z :=
  wrapAll (str "rdb.DeleteAllRetryTasks") Unknown (deleteAll now ZRetry qname).
Definition DeleteAllScheduledTasks (now : Z) (qname : gostring) : stE DB goerror Z :=
  wrapAll (str "rdb.DeleteAllScheduledTasks") Unknown (deleteAll now ZScheduled qname).
Definition DeleteAllCompletedTasks (now : Z) (qname : gostring) : stE DB goerror Z :=
  wrapAll (str "rdb.DeleteAllCompletedTasks") Unknown (deleteAll now ZCompleted qname).

Definition delIds (ids : list gostring) : script unit :=
  efor (fun id => _ ↞ DEL_task id; eret tt) ids.

Definition deleteAllAggregatingCmd (gname : gostring) : script Z :=
  ids ↞ ZRANGE_ (ZGroup gname) 0 (-1);
  _ ↞ delIds (zmembers ids);
  _ ↞ SREM_group gname;
  _ ↞ DEL_zset (ZGroup gname);
  eret (ZCARD ids).

Definition DeleteAllAggregatingTasks (qname gname : gostring) : stE DB goerror Z :=
  let op := str "rdb.DeleteAllAggregatingTasks" in
  _ ↞ requireQueue op qname;
  run_raw op Unknown qname (deleteAllAggregatingCmd gname).

Definition deleteAllPendingCmd : script Z :=
  ids ↞ reads q_pending;
  _ ↞ delIds ids;
  _ ↞ writes (set_pending []);
  eret (LLEN ids).

Definition DeleteAllPendingTasks (qname : gostring) : stE DB goerror Z :=
  let op := str "rdb.DeleteAllPendingTasks" in
  _ ↞ requireQueue op qname;
  run_raw op Unknown qname deleteAllPendingCmd.

(** ** Removing and pausing a queue *)

(** The deletion of the six keys with which both scripts end. *)
Definition dropQueueKeys : script unit :=
  _ ↞ writes (set_pending []);
  _ ↞ writes (set_active []);
  _ ↞ DEL_zset ZScheduled;
  _ ↞ DEL_zset ZRetry;
  _ ↞ DEL_zset ZArchived;
  DEL_zset ZLease.

(** The tasks of the two lists and the three sorted sets the scripts look at. *)
Definition removable_ids (q : QueueDB) : list gostring :=
  q_pending q ++ q_active q ++ zmembers (zget ZScheduled q) ++ zmembers (zget ZRetry q)
    ++ zmembers (zget ZArchived q).

Definition removeQueueForceCmd : script Z :=
  active ↞ reads (fun q => LLEN (q_active q));
  if 0 <? active then eret (-2)
  else
    ids ↞ reads removable_ids;
    _ ↞ delIds ids;
    _ ↞ delIds ids;
    _ ↞ dropQueueKeys;
    eret 1.

Definition removeQueueCmd : script Z :=
  ids ↞ reads removable_ids;
  if 0 <? LLEN ids then eret (-1)
  else
    _ ↞ delIds ids;
    _ ↞ delIds ids;
    _ ↞ dropQueueKeys;
    eret 1.

Definition SREM_queue (qname : gostring) : stE DB goerror unit := fun db =>
  (Ok tt, {| db_queues := db_queues db; db_locks := db_locks db; db_all := db_all db ∖ {[ qname ]};
             db_registry := db_registry db |}).

Definition RemoveQueue (qname : gostring) (force : bool) : stE DB goerror unit :=
  let op := str "rdb.RemoveQueue" in
  _ ↞ requireQueueNotFound op qname;
  n ↞ run_raw op Unknown qname (if force then removeQueueForceCmd else removeQueueCmd);
  if n =? 1 then SREM_queue qname
  else if n =? -1 then ethrow (E op NotFound (QueueNotEmptyError qname))
  else if n =? -2 then ethrow (E_text op FailedPrecondition
         (str "cannot remove queue with active tasks"))
  else ethrow (E_text op Unknown (str "unexpected return value from Lua script: " ++ itoa n)).

Definition Pause (now : Z) (qname : gostring) : stE DB goerror unit :=
  p ↞ run_plain qname (reads q_paused);
  match p with
  | Some _ => ethrow (NewError (str "queue " ++ quote qname ++ str " is already paused"))
  | None => run_plain qname (writes (set_paused (Some (Unix now))))
  end.

Definition Unpause (qname : gostring) : stE DB goerror unit :=
  p ↞ run_plain qname (reads q_paused);
  match p with
  | Some _ => run_plain qname (writes (set_paused None))
  | None => ethrow (NewError (str "queue " ++ quote qname ++ str " is not paused"))
  end.
