(* ===== verification/AsynqRegistry.v ===== *)
(** What servers and schedulers publish of themselves ([rdb.go] and [inspect.go], the parts on servers,
    workers and scheduler entries).

    A server writes its state and its workers under two keys that expire, and the keys in two sorted sets
    scored by their expiry second; the lists of servers and workers read the sets, drop stale keys from
    them and skip the keys that are gone.  Scheduler entries are published the same way, and the
    events of an entry are kept in a bounded history. *)
From stdpp Require Import base list strings numbers option gmap.
From S2P Require Import Prelude.
From S2P Require Import Redis.
From S2P Require Import AsynqBase.
From S2P Require Import AsynqStore.
From S2P Require Import AsynqInspect.

(** ** Redis commands on the registry *)

(** A command or script on the registry; the error is the error reply. *)
Definition registry_cmd (A : Type) : Type := stE Registry gostring A.

Definition set_infos i (g : Registry) : Registry :=
  {| r_servers := r_servers g; r_workers := r_workers g; r_schedulers := r_schedulers g; r_infos := i;
     r_hashes := r_hashes g; r_lists := r_lists g; r_history := r_history g |}.
Definition set_hashes h (g : Registry) : Registry :=
  {| r_servers := r_servers g; r_workers := r_workers g; r_schedulers := r_schedulers g;
     r_infos := r_infos g; r_hashes := h; r_lists := r_lists g; r_history := r_history g |}.
Definition set_lists l (g : Registry) : Registry :=
  {| r_servers := r_servers g; r_workers := r_workers g; r_schedulers := r_schedulers g;
     r_infos := r_infos g; r_hashes := r_hashes g; r_lists := l; r_history := r_history g |}.
Definition set_history h (g : Registry) : Registry :=
  {| r_servers := r_servers g; r_workers := r_workers g; r_schedulers := r_schedulers g;
     r_infos := r_infos g; r_hashes := r_hashes g; r_lists := r_lists g; r_history := h |}.

(** The three sorted sets of keys. *)
Inductive Roster := Servers | Workers | Schedulers.

Definition roster (k : Roster) (g : Registry) : zset gostring :=
  match k with Servers => r_servers g | Workers => r_workers g | Schedulers => r_schedulers g end.
Definition set_roster (k : Roster) (z : zset gostring) (g : Registry) : Registry :=
  {| r_servers := match k with Servers => z | _ => r_servers g end;
     r_workers := match k with Workers => z | _ => r_workers g end;
     r_schedulers := match k with Schedulers => z | _ => r_schedulers g end;
     r_infos := r_infos g; r_hashes := r_hashes g; r_lists := r_lists g; r_history := r_history g |}.

Definition g_writes (f : Registry -> Registry) : registry_cmd unit := fun g => (Ok tt, f g).

Definition ZADD_key (k : Roster) (score : Z) (key : gostring) : registry_cmd unit :=
  g_writes (fun g => set_roster k (zadd score key (roster k g)) g).
Definition ZREM_key (k : Roster) (key : gostring) : registry_cmd unit :=
  g_writes (fun g => set_roster k (zrem key (roster k g)) g).

(** The value under a key: nothing when its time to live has passed. *)
Definition live {V} (now : Z) (m : gmap gostring (V * option Z)) (key : gostring) : option V :=
  match m !! key with
  | Some (v, Some e) => if now <? e then Some v else None
  | Some (v, None) => Some v
  | None => None
  end.

(** The seconds argument of [SETEX] and [EXPIRE]: the client sends the decimal text of a duration in
    seconds, which the server refuses unless it is whole. *)
Definition whole_seconds (ttl : Z) : registry_cmd unit := fun g =>
  if ttl mod Second =? 0 then (Ok tt, g) else (Err (str "ERR value is not an integer or out of range"), g).

Definition SETEX (now : Z) (key : gostring) (ttl : Z) (v : gostring) : registry_cmd unit :=
  _ ↞ whole_seconds ttl;
  if ttl <=? 0 then ethrow (str "ERR invalid expire time in 'setex' command")
  else g_writes (fun g => set_infos (<[key := (v, Some (now + ttl))]> (r_infos g)) g).

(** [EXPIRE]: a time to live that is not positive deletes the key. *)
Definition EXPIRE {V} (now ttl : Z) (key : gostring) (m : gmap gostring (V * option Z))
    : gmap gostring (V * option Z) :=
  match live now m key with
  | None => m
  | Some v => if ttl <=? 0 then delete key m else <[key := (v, Some (now + ttl))]> m
  end.

(** Adding a field to a hash and an element on the left of a list: the expiry of the key stays. *)
Definition expiry {V} (now : Z) (m : gmap gostring (V * option Z)) (key : gostring) : option Z :=
  match live now m key, m !! key with Some _, Some (_, e) => e | _, _ => None end.
Definition HSET_reg (now : Z) (key field v : gostring) (m : gmap gostring (gmap gostring gostring * option Z)) :=
  <[key := (<[field := v]> (default ∅ (live now m key)), expiry now m key)]> m.
Definition LPUSH_reg (now : Z) (key v : gostring) (m : gmap gostring (list gostring * option Z)) :=
  <[key := (v :: default [] (live now m key), expiry now m key)]> m.

(** ** Scripts *)

Definition writeServerStateCmd (now : Z) (skey wkey : gostring) (ttl : Z) (info : gostring)
    (workers : list (gostring * gostring)) : registry_cmd unit :=
  _ ↞ SETEX now skey ttl info;
  _ ↞ g_writes (fun g => set_hashes (delete wkey (r_hashes g)) g);
  _ ↞ efor (fun w => g_writes (fun g => set_hashes (HSET_reg now wkey w.1 w.2 (r_hashes g)) g)) workers;
  _ ↞ whole_seconds ttl;
  g_writes (fun g => set_hashes (EXPIRE now ttl wkey (r_hashes g)) g).

Definition clearServerStateCmd (skey wkey : gostring) : registry_cmd unit :=
  _ ↞ g_writes (fun g => set_infos (delete skey (r_infos g)) g);
  g_writes (fun g => set_hashes (delete wkey (r_hashes g)) g).

Definition writeSchedulerEntriesCmd (now : Z) (key : gostring) (ttl : Z) (entries : list gostring)
    : registry_cmd unit :=
  _ ↞ g_writes (fun g => set_lists (delete key (r_lists g)) g);
  _ ↞ efor (fun e => g_writes (fun g => set_lists (LPUSH_reg now key e (r_lists g)) g)) entries;
  _ ↞ whole_seconds ttl;
  g_writes (fun g => set_lists (EXPIRE now ttl key (r_lists g)) g).

Definition recordSchedulerEnqueueEventCmd (key : gostring) (at_ : Z) (data : gostring) (max : Z)
    : registry_cmd unit :=
  _ ↞ g_writes (fun g => set_history
        (<[key := ZREMRANGEBYRANK (default [] (r_history g !! key)) 0 (- max)]> (r_history g)) g);
  g_writes (fun g => set_history (<[key := zadd at_ data (default [] (r_history g !! key))]> (r_history g)) g).

(** [listServerKeysCmd], [listWorkersCmd] and [listSchedulerKeysCmd] differ in their key only. *)
Definition listKeysCmd (k : Roster) (now : Z) : registry_cmd (list gostring) := fun g =>
  let keys := zmembers (filter (fun e => now <= e.2) (roster k g)) in
  (Ok keys, set_roster k (ZREMRANGEBYSCORE (roster k g) (now - 1)) g).

(** ** Methods *)

Definition on_registry {E A} (m : stE Registry E A) : stE DB E A := fun db =>
  let '(r, g) := m (db_registry db) in
  (r, {| db_queues := db_queues db; db_locks := db_locks db; db_all := db_all db; db_registry := g |}).

(** A plain command ([r.client.ZAdd] and the like) and a script. *)
Definition command {A} (op : gostring) (code : Code) (name : gostring) (m : registry_cmd A) : stE DB goerror A :=
  map_error (fun e => E op code (RedisCommandError name (NewError e))) (on_registry m).
Definition runRegistryScript {A} (op : gostring) (m : registry_cmd A) : stE DB goerror unit :=
  _ ↞ map_error (eval_error op Internal) (on_registry m); eret tt.

Definition maxEvents : Z := 1000.

Section registry.
Context `{Proto pb.ServerInfo} `{Proto pb.WorkerInfo} `{Proto pb.SchedulerEntry}
  `{Proto pb.SchedulerEnqueueEvent}.

(** Data that does not encode is skipped. *)
Definition encodable {A B} (encode : A -> outcome goerror B) (l : list A) : list (A * B) :=
  flat_map (fun a => match encode a with Ok b => [(a, b)] | _ => [] end) l.

Definition WriteServerState (now : Z) (info : ServerInfo) (workers : list WorkerInfo) (ttl : Z)
    : stE DB goerror unit :=
  let op := str "rdb.WriteServerState" in
  match EncodeServerInfo (Some info) with
  | Ok bytes =>
      let exp := now + ttl in
      let args := map (fun w => (W_ID w.1, w.2)) (encodable (fun w => EncodeWorkerInfo (Some w)) workers) in
      let skey := ServerInfoKey (Host info) (PID info) (ServerID info) in
      let wkey := WorkersKey (Host info) (PID info) (ServerID info) in
      _ ↞ command op Unknown (str "sadd") (ZADD_key Servers (Unix exp) skey);
      _ ↞ command op Unknown (str "zadd") (ZADD_key Workers (Unix exp) wkey);
      runRegistryScript op (writeServerStateCmd now skey wkey ttl bytes args)
  | Err e => ethrow (E_text op Internal (str "cannot encode server info: " ++ Error_String e))
  | Panic m => fun db => (Panic m, db)
  | OutOfFuel => fun db => (OutOfFuel, db)
  end.

Definition ClearServerState (host : gostring) (pid : Z) (serverID : gostring) : stE DB goerror unit :=
  let op := str "rdb.ClearServerState" in
  let skey := ServerInfoKey host pid serverID in
  let wkey := WorkersKey host pid serverID in
  _ ↞ command op Internal (str "zrem") (ZREM_key Servers skey);
  _ ↞ command op Internal (str "zrem") (ZREM_key Workers wkey);
  runRegistryScript op (clearServerStateCmd skey wkey).

Definition WriteSchedulerEntries (now : Z) (schedulerID : gostring) (entries : list SchedulerEntry) (ttl : Z)
    : stE DB goerror unit :=
  let op := str "rdb.WriteSchedulerEntries" in
  let args := map snd (encodable (fun e => EncodeSchedulerEntry (Some e)) entries) in
  let exp := now + ttl in
  let key := SchedulerEntriesKey schedulerID in
  _ ↞ command op Unknown (str "zadd") (ZADD_key Schedulers (Unix exp) key);
  runRegistryScript op (writeSchedulerEntriesCmd now key ttl args).

Definition ClearSchedulerEntries (schedulerID : gostring) : stE DB goerror unit :=
  let op := str "rdb.ClearSchedulerEntries" in
  let key := SchedulerEntriesKey schedulerID in
  _ ↞ command op Unknown (str "zrem") (ZREM_key Schedulers key);
  command op Unknown (str "del") (g_writes (fun g => set_lists (delete key (r_lists g)) g)).

Definition RecordSchedulerEnqueueEvent (entryID : gostring) (event : SchedulerEnqueueEvent)
    : stE DB goerror unit :=
  let op := str "rdb.RecordSchedulerEnqueueEvent" in
  match EncodeSchedulerEnqueueEvent (Some event) with
  | Ok data =>
      runRegistryScript op
        (recordSchedulerEnqueueEventCmd (SchedulerHistoryKey entryID) (Unix (EnqueuedAt event)) data maxEvents)
  | Err e => ethrow (E_text op Internal (str "cannot encode scheduler enqueue event: " ++ Error_String e))
  | Panic m => fun db => (Panic m, db)
  | OutOfFuel => fun db => (OutOfFuel, db)
  end.

Definition ClearSchedulerHistory (entryID : gostring) : stE DB goerror unit :=
  let op := str "rdb.ClearSchedulerHistory" in
  let key := SchedulerHistoryKey entryID in
  command op Unknown (str "del") (g_writes (fun g => set_history (delete key (r_history g)) g)).

(** The records that decode. *)
Definition decodable {A} (decode_ : gostring -> outcome goerror A) (l : list gostring) : list A :=
  flat_map (fun b => match decode_ b with Ok a => [a] | _ => [] end) l.

(** [ListServers], [ListWorkers] and [ListSchedulerEntries]: the keys that have not expired, and what is
    stored under them ([read]: [GET], [HVALS], [LRANGE 0 -1]). *)
Definition listRoster {A} (k : Roster) (now : Z) (read : Registry -> gostring -> list gostring)
    (decode_ : gostring -> outcome goerror A) : stE DB goerror (list A) :=
  keys ↞ map_error NewError (on_registry (listKeysCmd k (Unix now)));
  fun db => (Ok (flat_map (fun key => decodable decode_ (read (db_registry db) key)) keys), db).

Definition ListServers (now : Z) : stE DB goerror (list ServerInfo) :=
  listRoster Servers now (fun g key => match live now (r_infos g) key with Some v => [v] | None => [] end)
    DecodeServerInfo.

(** The order of [HVALS] is that of the map. *)
Definition ListWorkers (now : Z) : stE DB goerror (list WorkerInfo) :=
  listRoster Workers now (fun g key => map snd (map_to_list (default ∅ (live now (r_hashes g) key))))
    DecodeWorkerInfo.

Definition ListSchedulerEntries (now : Z) : stE DB goerror (list SchedulerEntry) :=
  listRoster Schedulers now (fun g key => default [] (live now (r_lists g) key)) DecodeSchedulerEntry.

(** The first event that does not decode fails the call. *)
Fixpoint decodeEvents (l : list gostring) : outcome goerror (list SchedulerEnqueueEvent) :=
  match l with
  | [] => Ok []
  | data :: l => e ⇐ DecodeSchedulerEnqueueEvent data; rest ⇐ decodeEvents l; Ok (e :: rest)
  end.

Definition ListSchedulerEnqueueEvents (entryID : gostring) (pgn : Pagination)
    : stE DB goerror (list SchedulerEnqueueEvent) := fun db =>
  let z := default [] (r_history (db_registry db) !! SchedulerHistoryKey entryID) in
  (decodeEvents (zmembers (ZREVRANGE z (Pagination_start pgn) (Pagination_stop pgn))), db).
End registry.
