(* ===== verification/AsynqInv.v ===== *)
(** Where the tasks of a queue are: the invariant of the store.

    [loc] maps a task id to the one place that holds it; [Inv q loc] says that the lists and sorted
    sets of [q] hold exactly the tasks [loc] puts there, without repetition, that the hash of a
    placed task has the state of its place and a message, that a hash with a state is placed unless
    it was trimmed from the archive, that the lease set holds the active tasks and that every
    non-empty aggregation set is tracked.  [Inv_update] re-establishes the invariant after an
    operation from a pointwise description of what moved. *)
From stdpp Require Import base list strings numbers option gmap.
From S2P Require Import Prelude.
From S2P Require Import Redis.
From S2P Require Import AsynqBase.
From S2P Require Import AsynqStore.

(** ** Weakest preconditions of methods whose effects survive errors *)
Definition ewp {S E A} (m : stE S E A) (Q : A -> S -> Prop) (X : E -> S -> Prop) (s : S) : Prop :=
  match m s with
  | (Ok a, s') => Q a s'
  | (Err e, s') => X e s'
  | _ => False
  end.

Section ewp_rules.
Context {S E : Type}.

Lemma ewp_ret {A} (a : A) Q (X : E -> S -> Prop) s : Q a s -> ewp (eret a) Q X s.
Proof. done. Qed.

Lemma ewp_throw {A} (e : E) (Q : A -> S -> Prop) X s : X e s -> ewp (ethrow e) Q X s.
Proof. done. Qed.

Lemma ewp_bind {A B} (m : stE S E A) (f : A -> stE S E B) Q X s :
  ewp m (fun a s' => ewp (f a) Q X s') X s -> ewp (ebind m f) Q X s.
Proof. unfold ewp, ebind. by destruct (m s) as [[a|e|p|] s']. Qed.

Lemma ewp_mono {A} (m : stE S E A) (Q Q' : A -> S -> Prop) (X X' : E -> S -> Prop) s :
  ewp m Q X s -> (forall a s', Q a s' -> Q' a s') -> (forall e s', X e s' -> X' e s') ->
  ewp m Q' X' s.
Proof. unfold ewp. destruct (m s) as [[a|e|p|] s']; naive_solver. Qed.

Lemma ewp_map_error {A E'} (f : E -> E') (m : stE S E A) Q (X : E' -> S -> Prop) s :
  ewp m Q (fun e s' => X (f e) s') s -> ewp (map_error f m) Q X s.
Proof. unfold ewp, map_error. by destruct (m s) as [[a|e|p|] s']. Qed.

(** A loop keeps an invariant on what is left to do. *)
Lemma ewp_efor {A} (body : A -> stE S E unit) (I : list A -> S -> Prop) (X : E -> S -> Prop) l s :
  (forall x l s, I (x :: l) s -> ewp (body x) (fun _ => I l) X s) ->
  I l s -> ewp (efor body l) (fun _ => I []) X s.
Proof.
  intros Hbody. revert s. induction l as [|x l IH]; intros s HI; [done|].
  simpl. apply ewp_bind. eapply ewp_mono; [by apply Hbody|intros ? s'; apply IH|done].
Qed.
End ewp_rules.

(** ** Places *)
Inductive Place := PPending | PActive | PZ (k : ZKey).

#[global] Instance Place_eq_dec : EqDecision Place.
Proof. solve_decision. Defined.

Definition members (p : Place) (q : QueueDB) : list gostring :=
  match p with
  | PPending => q_pending q
  | PActive => q_active q
  | PZ k => zmembers (zget k q)
  end.

(** The state of the tasks in a place; the lease set is not a place of its own. *)
Definition state_of (p : Place) : option TaskState :=
  match p with
  | PPending => Some TaskStatePending
  | PActive => Some TaskStateActive
  | PZ ZLease => None
  | PZ ZScheduled => Some TaskStateScheduled
  | PZ ZRetry => Some TaskStateRetry
  | PZ ZArchived => Some TaskStateArchived
  | PZ ZCompleted => Some TaskStateCompleted
  | PZ (ZGroup _) | PZ (ZAggregationSet _ _) => Some TaskStateAggregating
  end.

Definition place_group (p : Place) : option gostring :=
  match p with
  | PZ (ZGroup g) | PZ (ZAggregationSet g _) => Some g
  | _ => None
  end.

Definition Location : Type := gostring -> option Place.

(** Which tasks a list or sorted set has to hold: the lease set those of the active list. *)
Definition at_place (o : option Place) (p : Place) : Prop :=
  match p with
  | PZ ZLease => o = Some PActive
  | p => o = Some p
  end.

Definition hash_ok (p : Place) (h : TaskHash) : Prop :=
  is_Some (state_of p) /\ h_state h = state_of p /\ is_Some (h_msg h)
  /\ (forall g, place_group p = Some g -> h_group h = Some g).

Record Inv (q : QueueDB) (loc : Location) : Prop := {
  inv_in : forall p id, id ∈ members p q <-> at_place (loc id) p;
  inv_nodup : forall p, NoDup (members p q);
  inv_hash : forall id p, loc id = Some p -> exists h, q_tasks q !! id = Some h /\ hash_ok p h;
  inv_placed : forall id h st, q_tasks q !! id = Some h -> h_state h = Some st ->
    st <> TaskStateArchived -> is_Some (loc id);
  inv_tracked : forall g s id, loc id = Some (PZ (ZAggregationSet g s)) ->
    {| agg_gname := g; agg_setID := s |} ∈ zmembers (q_aggregation_sets q)
}.

(** ** Reading the store after a change *)

Lemma zget_zput k k' z q : zget k (zput k' z q) = if decide (k = k') then z else zget k q.
Proof.
  unfold zget, zput. cbn. case_decide as Hk.
  - subst. by rewrite lookup_insert_eq.
  - by rewrite lookup_insert_ne by congruence.
Qed.

Lemma zget_del k k' q :
  zget k (set_zsets (delete k' (q_zsets q)) q) = if decide (k = k') then [] else zget k q.
Proof.
  unfold zget. cbn. case_decide as Hk.
  - subst. by rewrite lookup_delete_eq.
  - by rewrite lookup_delete_ne by congruence.
Qed.

Lemma lookup_hset_task id x fs q :
  q_tasks (hset_task id fs q) !! x =
    if decide (x = id) then Some (hset fs (task_hash id q)) else q_tasks q !! x.
Proof.
  unfold hset_task. cbn. case_decide as Hx.
  - subst. by rewrite lookup_insert_eq.
  - by rewrite lookup_insert_ne by congruence.
Qed.

Lemma lookup_del_task id x q :
  q_tasks (del_task id q) !! x = if decide (x = id) then None else q_tasks q !! x.
Proof.
  unfold del_task. cbn. case_decide as Hx.
  - subst. by rewrite lookup_delete_eq.
  - by rewrite lookup_delete_ne by congruence.
Qed.

(** ** Consequences of the invariant *)
Section inv.
Context (q : QueueDB) (loc : Location) (HI : Inv q loc).

Lemma inv_hash_at id p : loc id = Some p -> hash_ok p (task_hash id q).
Proof using HI.
  intros Hp. destruct (inv_hash _ _ HI _ _ Hp) as (h & Hh & Hok). unfold task_hash. by rewrite Hh.
Qed.

Lemma inv_not_lease id : loc id <> Some (PZ ZLease).
Proof using HI. intros Hp. destruct (inv_hash_at _ _ Hp) as [[? [=]] _]. Qed.

Lemma inv_active id : id ∈ q_active q <-> loc id = Some PActive.
Proof using HI. exact (inv_in _ _ HI PActive id). Qed.

Lemma inv_pending id : id ∈ q_pending q <-> loc id = Some PPending.
Proof using HI. exact (inv_in _ _ HI PPending id). Qed.

Lemma inv_lease id : id ∈ zmembers (zget ZLease q) <-> loc id = Some PActive.
Proof using HI. exact (inv_in _ _ HI (PZ ZLease) id). Qed.

Lemma inv_zset k id : k <> ZLease -> id ∈ zmembers (zget k q) <-> loc id = Some (PZ k).
Proof using HI. intros Hk. rewrite (inv_in _ _ HI (PZ k) id). by destruct k. Qed.

(** A hash that does not exist belongs to no place. *)
Lemma inv_fresh id : q_tasks q !! id = None -> loc id = None.
Proof using HI.
  intros Hid. destruct (loc id) as [p|] eqn:Hp; [|done].
  destruct (inv_hash _ _ HI _ _ Hp) as (h & Hh & _). congruence.
Qed.

(** The state field tells the place, up to the group and the aggregation set. *)
Lemma inv_state id h st :
  q_tasks q !! id = Some h -> h_state h = Some st -> st <> TaskStateArchived ->
  exists p, loc id = Some p /\ state_of p = Some st.
Proof using HI.
  intros Hh Hst Hna. destruct (inv_placed _ _ HI _ _ _ Hh Hst Hna) as [p Hp].
  exists p. split; [done|]. destruct (inv_hash _ _ HI _ _ Hp) as (h' & Hh' & _ & Hs & _).
  congruence.
Qed.
End inv.

(** ** Re-establishing the invariant

    [dst x] is [None] for a task that is untouched, and [Some o] for a task that is now at [o]. *)
Definition relocate (dst : gostring -> option (option Place)) (loc : Location) : Location :=
  fun x => match dst x with None => loc x | Some o => o end.

Lemma Inv_update (q q' : QueueDB) (loc : Location) (dst : gostring -> option (option Place)) :
  Inv q loc ->
  (forall p x, x ∈ members p q' <->
     match dst x with None => x ∈ members p q | Some o => at_place o p end) ->
  (forall p, NoDup (members p q')) ->
  (forall x, dst x = None -> q_tasks q' !! x = q_tasks q !! x) ->
  (forall x p, dst x = Some (Some p) -> exists h, q_tasks q' !! x = Some h /\ hash_ok p h) ->
  (forall x h, dst x = Some None -> q_tasks q' !! x = Some h -> h_state h = Some TaskStateArchived) ->
  (forall g s x, relocate dst loc x = Some (PZ (ZAggregationSet g s)) ->
     {| agg_gname := g; agg_setID := s |} ∈ zmembers (q_aggregation_sets q')) ->
  Inv q' (relocate dst loc).
Proof.
  intros HI Hin Hnd Hsame Hmoved Hgone Htr. split; [|done| | |done].
  - intros p x. rewrite Hin. unfold relocate. destruct (dst x) as [o|]; [done|]. apply HI.
  - intros x p. unfold relocate. destruct (dst x) as [[p'|]|] eqn:Hd; try done.
    + intros [= ->]. by apply Hmoved.
    + intros Hp. rewrite Hsame by done. by apply HI.
  - intros x h st Hh Hst Hna. unfold relocate. destruct (dst x) as [[p'|]|] eqn:Hd; [done| |].
    + by rewrite (Hgone x h Hd Hh) in Hst; injection Hst as <-.
    + rewrite Hsame in Hh by done. by eapply inv_placed.
Qed.

(** One task goes to [o] (nowhere, when [o] is [None]). *)
Definition to1 (id : gostring) (o : option Place) (x : gostring) : option (option Place) :=
  if decide (x = id) then Some o else None.

(** Some tasks go to [o]. *)
Definition to_all (ids : list gostring) (o : option Place) (x : gostring) : option (option Place) :=
  if decide (x ∈ ids) then Some o else None.

Lemma relocate_to1 id o loc x :
  relocate (to1 id o) loc x = if decide (x = id) then o else loc x.
Proof. unfold relocate, to1. by case_decide. Qed.

Lemma relocate_to_all ids o loc x :
  relocate (to_all ids o) loc x = if decide (x ∈ ids) then o else loc x.
Proof. unfold relocate, to_all. by case_decide. Qed.

(** The parts of the queue that the invariant does not mention. *)
Lemma Inv_frame q q' loc :
  q_tasks q' = q_tasks q -> q_pending q' = q_pending q -> q_active q' = q_active q ->
  (forall k, zmembers (zget k q') = zmembers (zget k q)) ->
  q_aggregation_sets q' = q_aggregation_sets q -> Inv q loc -> Inv q' loc.
Proof.
  intros Ht Hp Ha Hz Hg HI.
  assert (Hm : forall p, members p q' = members p q) by (intros [| |k]; simpl; auto).
  split.
  - intros p id. rewrite Hm. apply HI.
  - intros p. rewrite Hm. apply HI.
  - intros id p. rewrite Ht. apply HI.
  - intros id h st. rewrite Ht. apply HI.
  - intros g s id. rewrite Hg. apply HI.
Qed.

Lemma Inv_ext q loc loc' : (forall x, loc' x = loc x) -> Inv q loc -> Inv q loc'.
Proof.
  intros He HI. split.
  - intros p id. rewrite He. apply HI.
  - apply HI.
  - intros id p. rewrite He. apply HI.
  - intros id h st. rewrite He. apply HI.
  - intros g s id. rewrite He. apply HI.
Qed.

Lemma Inv_counters c q loc : Inv q loc -> Inv (set_counters c q) loc.
Proof. by apply Inv_frame. Qed.

Lemma Inv_empty : Inv empty_queue (fun _ => None).
Proof.
  assert (Hm : forall p, members p empty_queue = []) by (by intros [| |k]).
  split; try done.
  - intros p id. rewrite Hm, elem_of_nil. by destruct p as [| |[]].
  - intros p. rewrite Hm. constructor.
Qed.
