(* ===== verification/AsynqScripts.v ===== *)
(** What the scripts of [rdb.go] do to the places of the tasks.  For every script: its replies, and
    the location of the tasks after each of them. *)
From stdpp Require Import base list strings numbers option gmap.
From S2P Require Import Prelude.
From S2P Require Import Redis.
From S2P Require Import AsynqBase.
From S2P Require Import AsynqStore.
From S2P Require Import AsynqRdb.
From S2P Require Import AsynqInv.

Lemma default_insert {A} (k k' : ZKey) (z d : A) (m : gmap ZKey A) :
  default d (<[k' := z]> m !! k) = if decide (k = k') then z else default d (m !! k).
Proof.
  case_decide as Hk.
  - subst. by rewrite lookup_insert_eq.
  - by rewrite lookup_insert_ne by congruence.
Qed.

Lemma default_delete {A} (k k' : ZKey) (d : A) (m : gmap ZKey A) :
  default d (delete k' m !! k) = if decide (k = k') then d else default d (m !! k).
Proof.
  case_decide as Hk.
  - subst. by rewrite lookup_delete_eq.
  - by rewrite lookup_delete_ne by congruence.
Qed.

(** Computing the fields of a changed queue. *)
Ltac store_simpl :=
  cbn [members];
  unfold zget, zput, hset_task, del_task, LPUSH, RPUSH, set_tasks, set_pending, set_active, set_zsets,
    set_groups, set_aggregation_sets, set_paused, set_counters;
  cbn [q_tasks q_pending q_active q_zsets q_groups q_aggregation_sets q_paused q_counters fst snd];
  rewrite ?default_insert, ?default_delete;
  repeat match goal with
  | |- context [default [] (q_zsets ?q !! ?k)] => change (default [] (q_zsets q !! k)) with (zget k q)
  end.

(** The members of a place after task [id] left the place where [Hloc] says it was: by cases on
    the place, and on whether the member is [id]. *)
Ltac by_place HI id Hloc :=
  let p := fresh "p" in
  let x := fresh "x" in
  let Hx := fresh "Hx" in
  let Hin := fresh "Hin" in
  intros p x; destruct (decide (x = id)) as [Hx|Hx];
  [ subst x; pose proof (inv_in _ _ HI p id) as Hin; rewrite Hloc in Hin;
    destruct p as [| |[| | | | |?g|?g ?s]]; cbn [members at_place] in Hin
  | clear Hloc; destruct p as [| |?k] ];
  store_simpl; repeat (case_decide; simplify_eq);
  rewrite ?elem_of_lrem, ?elem_of_zmembers_zrem, ?elem_of_zmembers_zadd, ?elem_of_cons, ?elem_of_app,
    ?list_elem_of_singleton, ?elem_of_nil;
  intuition congruence.

(** The members of a place are distinct after a change; [t] closes what the hints do not. *)
Create HintDb asynq.
#[export] Hint Resolve NoDup_lrem NoDup_zrem NoDup_zadd NoDup_zadd_xx : asynq.
#[export] Hint Constructors NoDup : asynq.

Lemma nodup_pending q loc : Inv q loc -> NoDup (q_pending q).
Proof. intros HI. exact (inv_nodup _ _ HI PPending). Qed.
Lemma nodup_active q loc : Inv q loc -> NoDup (q_active q).
Proof. intros HI. exact (inv_nodup _ _ HI PActive). Qed.
Lemma nodup_zset q loc k : Inv q loc -> NoDup (zmembers (zget k q)).
Proof. intros HI. exact (inv_nodup _ _ HI (PZ k)). Qed.
#[export] Hint Resolve nodup_pending nodup_active nodup_zset : asynq.

Ltac by_nodup t :=
  intros [| |?k]; store_simpl; repeat (case_decide; subst); eauto with asynq; t.

(** One task goes to [o]. *)
Lemma Inv_to1 (q q' : QueueDB) (loc : Location) (id : gostring) (o : option Place) :
  Inv q loc ->
  (forall p x, x ∈ members p q' <-> (x <> id /\ x ∈ members p q) \/ (x = id /\ at_place o p)) ->
  (forall p, NoDup (members p q')) ->
  (forall x, x <> id -> q_tasks q' !! x = q_tasks q !! x) ->
  match o with
  | Some p => exists h, q_tasks q' !! id = Some h /\ hash_ok p h
  | None => forall h, q_tasks q' !! id = Some h -> h_state h = Some TaskStateArchived
  end ->
  (forall g s, o <> Some (PZ (ZAggregationSet g s))) ->
  q_aggregation_sets q' = q_aggregation_sets q ->
  Inv q' (relocate (to1 id o) loc).
Proof.
  intros HI Hin Hnd Hsame Hid Hag Htr. apply (Inv_update q); try done.
  - intros p x. rewrite Hin. unfold to1. case_decide; naive_solver.
  - intros x. unfold to1. case_decide; [done|]. intros _. by apply Hsame.
  - intros x p. unfold to1. case_decide; [|done]. intros [= ->]. by subst.
  - intros x h. unfold to1. case_decide; [|done]. intros [= ->]. subst. apply Hid.
  - intros g s x. rewrite relocate_to1, Htr. case_decide; [naive_solver|]. apply HI.
Qed.

Lemma Inv_groups g q loc : Inv q loc -> Inv (set_groups g q) loc.
Proof. by apply Inv_frame. Qed.

Lemma Inv_paused p q loc : Inv q loc -> Inv (set_paused p q) loc.
Proof. by apply Inv_frame. Qed.

(** A new state keeps the message and the group. *)
Lemma hash_ok_state p p' h st fs :
  hash_ok p h -> state_of p' = Some st -> (forall g, place_group p' = Some g -> h_group h = Some g) ->
  fs = [F_state st] \/ (exists n, fs = [F_state st; F_pending_since n]) ->
  hash_ok p' (hset fs h).
Proof.
  intros (_ & _ & Hm & _) Hst Hg Hfs. split; [by rewrite Hst|]. rewrite Hst.
  destruct h. by destruct Hfs as [->|[n ->]].
Qed.

(** Branching on whether a task exists. *)
Lemma ewp_EXISTS {A} id (f : bool -> script A) Q X s :
  (q_tasks s.1 !! id = None -> ewp (f false) Q X s) ->
  (forall h, q_tasks s.1 !! id = Some h -> ewp (f true) Q X s) ->
  ewp (ebind (EXISTS_task id) f) Q X s.
Proof.
  intros Hn Hs. apply ewp_bind. unfold EXISTS_task, reads, ewp at 1.
  destruct (q_tasks s.1 !! id) as [h|] eqn:Hid.
  - rewrite bool_decide_eq_true_2 by done. by eapply Hs.
  - rewrite bool_decide_eq_false_2 by (by intros [? [=]]). by apply Hn.
Qed.

(** *** Counters *)

Definition overflow_reply : gostring := str "ERR increment or decrement would overflow".

(** Only the counters differ. *)
Definition counters_only (s s' : QueueDB * Locks) : Prop :=
  exists c, s' = (set_counters c s.1, s.2).

#[global] Instance counters_only_refl : Reflexive counters_only.
Proof. intros [q l]. exists (q_counters q). by destruct q. Qed.

#[global] Instance counters_only_trans : Transitive counters_only.
Proof. intros s1 s2 s3 [c ->] [c' ->]. by exists c'. Qed.

(** A script that counts: nothing but counters changes, and the only error is the overflow. *)
Definition counts {A} (m : script A) : Prop := forall s,
  ewp m (fun _ => counters_only s) (fun e s' => e = overflow_reply /\ counters_only s s') s.

Lemma counts_bind {A B} (m : script A) (f : A -> script B) :
  counts m -> (forall a, counts (f a)) -> counts (ebind m f).
Proof.
  intros Hm Hf s. apply ewp_bind. eapply ewp_mono; [apply Hm| |done].
  intros a s' Hs'. eapply ewp_mono; [apply Hf| |].
  - intros ? s'' Hs''. exact (counters_only_trans _ _ _ Hs' Hs'').
  - intros e s'' [-> Hs'']. split; [done|]. exact (counters_only_trans _ _ _ Hs' Hs'').
Qed.

Lemma counts_ret {A} (a : A) : counts (eret a).
Proof. intros s. apply counters_only_refl. Qed.

Lemma counts_GET now k : counts (GET_counter now k).
Proof. intros s. apply counters_only_refl. Qed.

Lemma counts_SET k n : counts (SET_counter k n).
Proof. intros s. unfold ewp, SET_counter, writes. by eexists. Qed.

Lemma counts_EXPIREAT now k n : counts (EXPIREAT_counter now k n).
Proof. intros s. unfold ewp, EXPIREAT_counter, writes. by eexists. Qed.

Lemma counts_INCR now k : counts (INCR_counter now k).
Proof.
  intros s. unfold ewp, INCR_counter, INCR. destruct (_ =? _).
  - split; [done|]. apply counters_only_refl.
  - by eexists.
Qed.

#[export] Hint Resolve counts_bind counts_ret counts_GET counts_SET counts_EXPIREAT counts_INCR : asynq.

Lemma counts_incrDaily now k e : counts (incrDaily now k e).
Proof. apply counts_bind; auto with asynq. intros n. destruct (n =? 1); auto with asynq. Qed.

Lemma counts_incrProcessedTotal now k m : counts (incrProcessedTotal now k m).
Proof. apply counts_bind; auto with asynq. intros n. destruct (lua_eq n m); auto with asynq. Qed.

Lemma counts_incrTotals now k k' m : counts (incrTotals now k k' m).
Proof. apply counts_bind; auto with asynq. intros n. destruct (lua_eq n m); auto 8 with asynq. Qed.

#[export] Hint Resolve counts_incrDaily counts_incrProcessedTotal counts_incrTotals : asynq.

(** The state after a result, and after an error that only an overflow can cause. *)
Definition after {A} (P : QueueDB -> Locks -> Prop) (_ : A) (s' : QueueDB * Locks) : Prop :=
  P s'.1 s'.2.
Definition after_overflow (P : QueueDB -> Locks -> Prop) (e : gostring) (s' : QueueDB * Locks)
    : Prop :=
  e = overflow_reply /\ P s'.1 s'.2.

(** Counting keeps what holds of every queue with other counters. *)
Lemma ewp_counts {A} (m : script A) (P : QueueDB -> Locks -> Prop) q locks :
  counts m -> (forall c, P (set_counters c q) locks) ->
  ewp m (after P) (after_overflow P) (q, locks).
Proof.
  intros Hm HP. eapply ewp_mono; [apply Hm| |]; cbn.
  - intros ? s' [c ->]. apply HP.
  - intros e s' [-> [c ->]]. split; [done|apply HP].
Qed.

Section scripts.
Context (q : QueueDB) (locks : Locks) (loc : Location) (HI : Inv q loc).

(** A task that is nowhere is in none of the lists and sets. *)
Lemma nowhere id p : loc id = None -> id ∉ members p q.
Proof using HI. rewrite (inv_in _ _ HI). intros ->. by destruct p as [| |[]]. Qed.

Lemma elsewhere id p p' : loc id = Some p -> p <> p' -> p' <> PZ ZLease -> id ∉ members p' q.
Proof using HI. rewrite (inv_in _ _ HI). intros -> ? ?. destruct p' as [| |[]]; simpl; congruence. Qed.

(** *** New tasks *)

(** A new task at the head of the pending list. *)
Lemma Inv_new_pending id h :
  q_tasks q !! id = None -> hash_ok PPending h ->
  Inv (set_pending (LPUSH (q_pending q) id) (set_tasks (<[id := h]> (q_tasks q)) q))
      (relocate (to1 id (Some PPending)) loc).
Proof using HI.
  intros Hid Hok. pose proof (inv_fresh _ _ HI _ Hid) as Hloc. apply (Inv_to1 q); try done.
  - by_place HI id Hloc.
  - by_nodup idtac. apply NoDup_cons. split; [by apply (nowhere id PPending)|eauto with asynq].
  - intros x Hx. store_simpl. by apply lookup_insert_ne.
  - store_simpl. rewrite lookup_insert_eq. eauto.
Qed.

(** A new task in a sorted set. *)
Lemma Inv_new_zset id h k score :
  q_tasks q !! id = None -> hash_ok (PZ k) h -> (forall g s, k <> ZAggregationSet g s) ->
  Inv (zput k (zadd score id (zget k q)) (set_tasks (<[id := h]> (q_tasks q)) q))
      (relocate (to1 id (Some (PZ k))) loc).
Proof using HI.
  intros Hid Hok Hag. pose proof (inv_fresh _ _ HI _ Hid) as Hloc. apply (Inv_to1 q); try done.
  - destruct Hok as [[? Hst] _]. destruct k; try done; by_place HI id Hloc.
  - by_nodup idtac.
  - intros x Hx. store_simpl. by apply lookup_insert_ne.
  - store_simpl. rewrite lookup_insert_eq. eauto.
  - naive_solver.
Qed.

(** The reply of a script that adds a task unless its id is taken, and what it leaves. *)
Definition added (id : gostring) (p : Place) (n : Z) (q' : QueueDB) : Prop :=
  match q_tasks q !! id with
  | Some _ => n = 0 /\ q' = q
  | None => n = 1 /\ Inv q' (relocate (to1 id (Some p)) loc)
  end.

Lemma enqueueCmd_spec id msg now :
  ewp (enqueueCmd id msg now) (fun n s' => s'.2 = locks /\ added id PPending n s'.1)
    (fun _ _ => False) (q, locks).
Proof using HI.
  apply ewp_EXISTS; cbn [fst]; intros; unfold added; simplify_option_eq; [|done].
  cbv [ewp ebind HSET writes LPUSH_pending ZADD_ SADD_group eret fst snd]. split; [done|]. split; [done|].
  unfold hset_task, task_hash. simplify_option_eq.
  apply Inv_new_pending; [done|]. repeat split; naive_solver.
Qed.

Lemma scheduleCmd_spec id msg at_ :
  ewp (scheduleCmd id msg at_) (fun n s' => s'.2 = locks /\ added id (PZ ZScheduled) n s'.1)
    (fun _ _ => False) (q, locks).
Proof using HI.
  apply ewp_EXISTS; cbn [fst]; intros; unfold added; simplify_option_eq; [|done].
  cbv [ewp ebind HSET writes LPUSH_pending ZADD_ SADD_group eret fst snd]. split; [done|]. split; [done|].
  unfold hset_task, task_hash. simplify_option_eq.
  apply (Inv_new_zset id _ ZScheduled); [done| |done]. repeat split; naive_solver.
Qed.

Lemma addToGroupCmd_spec id msg now group :
  ewp (addToGroupCmd id msg now group)
    (fun n s' => s'.2 = locks /\ added id (PZ (ZGroup group)) n s'.1)
    (fun _ _ => False) (q, locks).
Proof using HI.
  apply ewp_EXISTS; cbn [fst]; intros; unfold added; simplify_option_eq; [|done].
  cbv [ewp ebind HSET writes LPUSH_pending ZADD_ SADD_group eret fst snd]. split; [done|]. split; [done|].
  unfold hset_task, task_hash. simplify_option_eq.
  apply Inv_groups.
  apply (Inv_new_zset id _ (ZGroup group)); [done| |done]. repeat split; naive_solver.
Qed.

(** *** Active tasks *)

(** The store after the removal of an active task. *)
Definition released (id : gostring) : QueueDB :=
  zput ZLease (zrem id (zget ZLease q)) (set_active (lrem id (q_active q)) q).

Lemma zget_released id k : k <> ZLease -> zget k (released id) = zget k q.
Proof using. intros Hk. unfold released. store_simpl. by rewrite decide_False. Qed.

Lemma set_active_same : set_active (q_active q) q = q.
Proof. by destruct q. Qed.

(** A task that is not active is refused, and the store is as before. *)
Lemma removeActive_spec id :
  ewp (removeActive id)
    (fun _ s' => loc id = Some PActive /\ s' = (released id, locks))
    (fun e s' => e = str "NOT FOUND" /\ loc id <> Some PActive /\ s' = (q, locks)) (q, locks).
Proof using HI.
  unfold removeActive. apply ewp_bind. unfold LREM_active, ewp at 1. cbn [fst snd].
  destruct (LREM (q_active q) id) as [n l] eqn:HL. pose proof (LREM_zero (q_active q) id) as Hz.
  rewrite HL in Hz. cbn [fst] in Hz. rewrite (inv_active _ _ HI) in Hz.
  assert (l = lrem id (q_active q)) as -> by (by injection HL as _ <-).
  destruct (Z.eqb_spec n 0) as [->|Hn].
  - unfold ewp, error_reply, ethrow. assert (loc id <> Some PActive) as Hna by tauto.
    rewrite lrem_none, set_active_same by (by rewrite (inv_active _ _ HI)). done.
  - assert (loc id = Some PActive) as Hloc.
    { destruct (decide (loc id = Some PActive)); tauto. }
    apply ewp_bind. unfold ZREM_, ewp at 1. cbn [fst snd].
    change (zget ZLease (set_active _ q)) with (zget ZLease q).
    destruct (ZREM (zget ZLease q) id) as [m z] eqn:HZ.
    pose proof (ZREM_zero (zget ZLease q) id) as Hz'. rewrite HZ in Hz'. cbn [fst] in Hz'.
    assert (z = zrem id (zget ZLease q)) as -> by (by injection HZ as _ <-).
    destruct (Z.eqb_spec m 0) as [->|Hm]; [|done].
    exfalso. apply Hz'; [done|]. by rewrite (inv_lease _ _ HI).
Qed.

(** An active task goes to a sorted set. *)
Lemma Inv_active_zset id k score z fs :
  loc id = Some PActive -> hash_ok (PZ k) (hset fs (task_hash id q)) ->
  (forall g s, k <> ZAggregationSet g s) -> z = zadd score id (zget k q) ->
  Inv (hset_task id fs (zput k z (released id))) (relocate (to1 id (Some (PZ k))) loc).
Proof using HI.
  intros Hloc Hok Hag ->. unfold released. apply (Inv_to1 q); try done.
  - destruct Hok as [[? Hst] _]. destruct k; try done; by_place HI id Hloc.
  - by_nodup idtac.
  - intros x Hx. rewrite lookup_hset_task. by rewrite decide_False.
  - rewrite lookup_hset_task, decide_True by done. eauto.
  - naive_solver.
Qed.

(** An active task goes back to the tail of the pending list, where it is taken first. *)
Lemma Inv_active_pending id fs :
  loc id = Some PActive -> hash_ok PPending (hset fs (task_hash id q)) ->
  Inv (hset_task id fs (set_pending (RPUSH (q_pending q) id) (released id)))
    (relocate (to1 id (Some PPending)) loc).
Proof using HI.
  intros Hloc Hok. unfold released. apply (Inv_to1 q); try done.
  - by_place HI id Hloc.
  - by_nodup idtac. apply NoDup_app. repeat split; eauto with asynq.
    + intros x Hx ->%list_elem_of_singleton. by eapply (elsewhere id PActive PPending).
    + apply NoDup_singleton.
  - intros x Hx. rewrite lookup_hset_task. by rewrite decide_False.
  - rewrite lookup_hset_task, decide_True by done. eauto.
Qed.

(** An active task is deleted. *)
Lemma Inv_active_gone id :
  loc id = Some PActive -> Inv (del_task id (released id)) (relocate (to1 id None) loc).
Proof using HI.
  intros Hloc. unfold released. apply (Inv_to1 q); try done.
  - by_place HI id Hloc.
  - by_nodup idtac.
  - intros x Hx. rewrite lookup_del_task. by rewrite decide_False.
  - intros h. rewrite lookup_del_task. by rewrite decide_True.
Qed.

(** The outcome of a script on an active task: the task was active, and the store is as [P] says;
    or the task is not active and nothing changed; or a counter is at its maximum, which stops the
    script after the task was moved, as [PE] says. *)
Definition leaves_active_locks {A} (id : gostring) (m : script A) (P PE : QueueDB -> Locks -> Prop)
    : Prop :=
  ewp m (fun _ s' => loc id = Some PActive /\ P s'.1 s'.2)
    (fun e s' => (e = str "NOT FOUND" /\ loc id <> Some PActive /\ s' = (q, locks))
       \/ (e = overflow_reply /\ loc id = Some PActive /\ PE s'.1 s'.2)) (q, locks).

(** The scripts that do not touch the locks. *)
Definition leaves_active {A} (id : gostring) (m : script A) (P : QueueDB -> Prop) : Prop :=
  let P' := fun q' locks' => locks' = locks /\ P q' in leaves_active_locks id m P' P'.

Lemma leaves_active_intro {A} id (m : unit -> script A) P PE :
  (loc id = Some PActive -> ewp (m tt) (after P) (after_overflow PE) (released id, locks)) ->
  leaves_active_locks id (ebind (removeActive id) m) P PE.
Proof using HI.
  intros Hm. apply ewp_bind. eapply ewp_mono; [apply removeActive_spec| |].
  - intros [] s' [Hloc ->]. eapply ewp_mono; [by apply Hm| |]; unfold after, after_overflow; naive_solver.
  - naive_solver.
Qed.

Lemma requeueCmd_spec id :
  leaves_active id (requeueCmd id) (fun q' =>
    Inv q' (relocate (to1 id (Some PPending)) loc) /\ q_pending q' = q_pending q ++ [id]).
Proof using HI.
  apply leaves_active_intro. intros Hloc. unfold ewp, RPUSH_pending, HSET, writes, ebind. cbn [fst snd].
  split; [done|]. split; [|done]. apply Inv_active_pending; [done|].
  eapply hash_ok_state; [by eapply inv_hash_at|done..|by left].
Qed.

(** The hash of an active task, its message replaced and its state set. *)
Lemma active_hash_ok id k st msg :
  loc id = Some PActive -> state_of (PZ k) = Some st -> place_group (PZ k) = None ->
  hash_ok (PZ k) (hset [F_msg msg; F_state st] (task_hash id q)).
Proof using.
  intros Hloc Hst Hg. split; [by rewrite Hst|]. rewrite Hst.
  destruct (task_hash id q). split; [done|]. split; [done|]. intros g. by rewrite Hg.
Qed.

Lemma doneCmd_spec now id today total exp max :
  leaves_active id (doneCmd now id today total exp max)
    (fun q' => Inv q' (relocate (to1 id None) loc)).
Proof using HI.
  apply leaves_active_intro. intros Hloc. apply ewp_bind. unfold DEL_task, ewp at 1. cbn [fst snd].
  destruct (inv_hash _ _ HI _ _ Hloc) as (h & Hh & _).
  change (q_tasks (released id)) with (q_tasks q). rewrite Hh.
  rewrite bool_decide_eq_true_2 by done. cbn [Z.eqb].
  apply ewp_counts; [auto with asynq|]. intros c. split; [done|].
  by apply Inv_counters, Inv_active_gone.
Qed.

Lemma markAsCompleteCmd_spec now id today total exp task_exp msg max :
  leaves_active id (markAsCompleteCmd now id today total exp task_exp msg max)
    (fun q' => Inv q' (relocate (to1 id (Some (PZ ZCompleted))) loc)).
Proof using HI.
  apply leaves_active_intro. intros Hloc. apply ewp_bind.
  unfold ZADD_, ewp at 1. cbn [fst snd ZADD]. rewrite bool_decide_eq_false_2.
  2: { rewrite zget_released by done. by eapply (elsewhere id PActive (PZ ZCompleted)). }
  cbn [Z.eqb negb Pos.eqb]. apply ewp_bind. unfold HSET, writes, ewp at 1. cbn [fst snd].
  apply ewp_counts; [auto with asynq|]. intros c. split; [done|].
  apply Inv_counters. eapply Inv_active_zset; [done|by apply active_hash_ok|done|].
  by rewrite zget_released.
Qed.

(** Counting, and then the release of a lock. *)
Lemma ewp_counts_release {A B} now key id (m : script A) (m' : script B) (P : QueueDB -> Prop) q0 :
  counts m -> counts m' -> (forall c, P (set_counters c q0)) ->
  ewp (ebind m (fun _ => ebind m' (fun _ => release_lock now key id)))
    (after (fun q' locks' => locks' = lock_release now locks key id /\ P q'))
    (after_overflow (fun q' locks' => locks' = locks /\ P q')) (q0, locks).
Proof using.
  intros Hm Hm' HP.
  assert (Hc : counts (ebind m (fun _ => m'))) by auto with asynq.
  specialize (Hc (q0, locks)). revert Hc. unfold ewp, ebind, after, after_overflow, release_lock.
  destruct (m (q0, locks)) as [[a|e|x|] s1]; [|intros [-> [c ->]]; cbn; auto|done..].
  destruct (m' s1) as [[b|e|x|] s2]; [|intros [-> [c ->]]; cbn; auto|done..].
  intros [c ->]. cbn. auto.
Qed.

Lemma doneUniqueCmd_spec now id today total key exp max :
  leaves_active_locks id (doneUniqueCmd now id today total key exp max)
    (fun q' locks' => locks' = lock_release now locks key id /\ Inv q' (relocate (to1 id None) loc))
    (fun q' locks' => locks' = locks /\ Inv q' (relocate (to1 id None) loc)).
Proof using HI.
  apply leaves_active_intro. intros Hloc. apply ewp_bind. unfold DEL_task, ewp at 1. cbn [fst snd].
  destruct (inv_hash _ _ HI _ _ Hloc) as (h & Hh & _).
  change (q_tasks (released id)) with (q_tasks q). rewrite Hh.
  rewrite bool_decide_eq_true_2 by done. cbn [Z.eqb].
  apply (ewp_counts_release now key id _ _ (fun q' => Inv q' (relocate (to1 id None) loc)));
    [auto with asynq..|].
  intros c. by apply Inv_counters, Inv_active_gone.
Qed.

Lemma markAsCompleteUniqueCmd_spec now id today total key exp task_exp msg max :
  leaves_active_locks id (markAsCompleteUniqueCmd now id today total key exp task_exp msg max)
    (fun q' locks' => locks' = lock_release now locks key id
                      /\ Inv q' (relocate (to1 id (Some (PZ ZCompleted))) loc))
    (fun q' locks' => locks' = locks /\ Inv q' (relocate (to1 id (Some (PZ ZCompleted))) loc)).
Proof using HI.
  apply leaves_active_intro. intros Hloc. apply ewp_bind.
  unfold ZADD_, ewp at 1. cbn [fst snd ZADD]. rewrite bool_decide_eq_false_2.
  2: { rewrite zget_released by done. by eapply (elsewhere id PActive (PZ ZCompleted)). }
  cbn [Z.eqb negb Pos.eqb]. apply ewp_bind. unfold HSET, writes, ewp at 1. cbn [fst snd].
  apply (ewp_counts_release now key id _ _
           (fun q' => Inv q' (relocate (to1 id (Some (PZ ZCompleted))) loc))); [auto with asynq..|].
  intros c. apply Inv_counters.
  eapply Inv_active_zset; [done|by apply active_hash_ok|done|]. by rewrite zget_released.
Qed.

Lemma retryCmd_spec now id today ftoday total ftotal msg at_ exp failure max :
  leaves_active id (retryCmd now id today ftoday total ftotal msg at_ exp failure max)
    (fun q' => Inv q' (relocate (to1 id (Some (PZ ZRetry))) loc)).
Proof using HI.
  apply leaves_active_intro. intros Hloc. apply ewp_bind. unfold ZADD_, ewp at 1. cbn [fst snd ZADD].
  apply ewp_bind. unfold HSET, writes, ewp at 1. cbn [fst snd].
  apply ewp_counts; [destruct failure; auto 6 with asynq|]. intros c. split; [done|].
  apply Inv_counters. eapply Inv_active_zset; [done|by apply active_hash_ok|done|].
  by rewrite zget_released.
Qed.

(** *** Trimming the archive *)

(** The archived tasks that are not kept are nowhere. *)
Definition trim (keep : list gostring) (l : Location) : Location := fun x =>
  if decide (l x = Some (PZ ZArchived) /\ x ∉ keep) then None else l x.

Lemma Inv_trim z :
  sublist z (zget ZArchived q) -> Inv (zput ZArchived z q) (trim (zmembers z) loc).
Proof using HI.
  intros Hz.
  assert (Hsub : forall x, x ∈ zmembers z -> loc x = Some (PZ ZArchived)).
  { intros x Hx. apply (inv_zset _ _ HI); [done|]. eapply elem_of_submseteq; [exact Hx|].
    by apply sublist_submseteq, fmap_sublist. }
  set (dst := fun x => if decide (loc x = Some (PZ ZArchived) /\ x ∉ zmembers z)
                       then Some (None : option Place) else None).
  apply (Inv_ext _ (relocate dst loc)).
  { intros x. unfold relocate, dst, trim. by case_decide. }
  apply (Inv_update q); try done; unfold dst.
  - intros p x. case_decide as Hx.
    + destruct Hx as [Hx Hk]. pose proof (inv_in _ _ HI p x) as Hin. rewrite Hx in Hin.
      destruct p as [| |[]]; store_simpl; repeat case_decide; cbn in *; intuition congruence.
    + destruct p as [| |k]; store_simpl; [done..|]. case_decide; [|done]. subst k.
      rewrite (inv_zset _ _ HI) by done. split; [auto|]. intros Hl.
      destruct (decide (x ∈ zmembers z)); [done|]. by destruct Hx.
  - by_nodup idtac. by eapply NoDup_zsublist, nodup_zset.
  - intros x p. by case_decide.
  - intros x h. case_decide as Hx; [|done]. intros _ Hh. destruct Hx as [Hx _].
    destruct (inv_hash _ _ HI _ _ Hx) as (h' & Hh' & _ & Hs & _).
    change (q_tasks (zput ZArchived z q)) with (q_tasks q) in Hh. by simplify_eq.
  - intros g s x. unfold relocate. case_decide; [done|]. apply HI.
Qed.

Lemma zput_zput k z z' q0 : zput k z (zput k z' q0) = zput k z q0.
Proof using. unfold zput, set_zsets. cbn. by rewrite insert_insert_eq. Qed.

Lemma zget_zput_eq k z q0 : zget k (zput k z q0) = z.
Proof using. rewrite zget_zput. by rewrite decide_True. Qed.

(** The archive after a task was added to it and it was trimmed. *)
Definition trimmed (z : zset gostring) (cutoff max_size : Z) : zset gostring :=
  ZREMRANGEBYRANK (ZREMRANGEBYSCORE z cutoff) 0 (- max_size).

Lemma sublist_trimmed z cutoff max_size : sublist (trimmed z cutoff max_size) z.
Proof using. etransitivity; [apply sublist_ZREMRANGEBYRANK|apply sublist_ZREMRANGEBYSCORE]. Qed.
End scripts.

Section more_scripts.
Context (q : QueueDB) (locks : Locks) (loc : Location) (HI : Inv q loc).

Lemma archiveCmd_spec now id today ftoday total ftotal msg died_at cutoff max_size exp max :
  let z := trimmed (zadd died_at id (zget ZArchived q)) cutoff max_size in
  leaves_active q locks loc id
    (archiveCmd now id today ftoday total ftotal msg died_at cutoff max_size exp max)
    (fun q' => zget ZArchived q' = z
       /\ Inv q' (trim (zmembers z) (relocate (to1 id (Some (PZ ZArchived))) loc))).
Proof using HI.
  intros z. apply leaves_active_intro; [done|]. intros Hloc.
  apply ewp_bind. unfold ZADD_, ewp at 1. cbn [fst snd ZADD].
  apply ewp_bind. unfold ZREMRANGEBYSCORE_, writes, ewp at 1. cbn [fst snd].
  apply ewp_bind. unfold ZREMRANGEBYRANK_, writes, ewp at 1. cbn [fst snd].
  apply ewp_bind. unfold HSET, writes, ewp at 1. cbn [fst snd].
  rewrite !zput_zput, !zget_zput_eq, zget_released by done.
  apply ewp_counts; [auto 8 with asynq|]. intros c. split; [done|].
  assert (HA : Inv (hset_task id [F_msg msg; F_state TaskStateArchived]
                     (zput ZArchived (zadd died_at id (zget ZArchived q)) (released q id)))
                   (relocate (to1 id (Some (PZ ZArchived))) loc)).
  { eapply Inv_active_zset; [done|done|by eapply active_hash_ok|done|done]. }
  split; [exact (zget_zput_eq ZArchived z _)|]. apply Inv_counters.
  eapply (Inv_frame (zput ZArchived z (hset_task id [F_msg msg; F_state TaskStateArchived]
                     (zput ZArchived (zadd died_at id (zget ZArchived q)) (released q id)))));
    try done.
  - intros k. store_simpl. by repeat case_decide.
  - apply Inv_trim; [done|]. store_simpl. rewrite decide_True by done. apply sublist_trimmed.
Qed.

(** *** New tasks with a lock *)

(** The outcome of a script that takes a lock and then adds a task: the time to live is refused;
    or the lock is held and nothing changes; or the lock is taken, whether the task is added or its
    id is in use. *)
Definition added_unique {A} (now : Z) (key id : gostring) (ttl : Z) (p : Place) (m : script A)
    (reply : A -> Z) : Prop :=
  let lock := {| lock_val := id; lock_exp := now + ttl * nanosecond_per_second |} in
  ewp m
    (fun n s' => (reply n = -1 /\ s' = (q, locks) /\ is_Some (lock_get now locks key))
       \/ (lock_get now locks key = None /\ s'.2 = <[key := lock]> locks
           /\ added q loc id p (reply n) s'.1))
    (fun _ s' => ttl <= 0 /\ s' = (q, locks)) (q, locks).

Lemma added_unique_intro now key id ttl p (m : script Z) :
  (forall locks, ewp m (fun n s' => s'.2 = locks /\ added q loc id p n s'.1) (fun _ _ => False)
     (q, locks)) ->
  added_unique now key id ttl p
    (ok ↞ SET_NX_EX_lock now key id ttl; if negb ok then eret (-1) else m) (fun n => n).
Proof using.
  intros Hm. apply ewp_bind. unfold SET_NX_EX_lock, SET_NX_EX, ewp at 1. cbn [fst snd].
  destruct (Z.leb_spec ttl 0); [done|].
  destruct (lock_get now locks key) as [v|] eqn:Hl; cbn [negb].
  - apply ewp_ret. left. eauto.
  - eapply ewp_mono; [apply Hm| |done]. cbn. auto.
Qed.

Lemma enqueueUniqueCmd_spec now key id ttl msg now' :
  added_unique now key id ttl PPending (enqueueUniqueCmd now key id ttl msg now') (fun n => n).
Proof using HI.
  apply added_unique_intro. intros locks'.
  apply ewp_EXISTS; cbn [fst]; intros; unfold added; simplify_option_eq; [|done].
  cbv [ewp ebind HSET writes LPUSH_pending eret fst snd]. split; [done|]. split; [done|].
  unfold hset_task, task_hash. simplify_option_eq.
  apply Inv_new_pending; [done..|]. repeat split; naive_solver.
Qed.

Lemma scheduleUniqueCmd_spec now key id ttl at_ msg :
  added_unique now key id ttl (PZ ZScheduled) (scheduleUniqueCmd now key id ttl at_ msg) (fun n => n).
Proof using HI.
  apply added_unique_intro. intros locks'.
  apply ewp_EXISTS; cbn [fst]; intros; unfold added; simplify_option_eq; [|done].
  cbv [ewp ebind HSET writes ZADD_ eret fst snd]. split; [done|]. split; [done|].
  unfold hset_task, task_hash. simplify_option_eq.
  apply (Inv_new_zset _ _ HI id _ ZScheduled); [done| |done]. repeat split; naive_solver.
Qed.

Lemma addToGroupUniqueCmd_spec now id msg now_sec group key ttl :
  added_unique now key id ttl (PZ (ZGroup group))
    (addToGroupUniqueCmd now id msg now_sec group key ttl) (fun n => n).
Proof using HI.
  apply added_unique_intro. intros locks'. apply addToGroupCmd_spec, HI.
Qed.

(** *** Tasks of a sorted set *)

Lemma loc_not_lease id k : loc id = Some (PZ k) -> k <> ZLease.
Proof using HI. intros Hloc ->. by eapply inv_not_lease. Qed.

(** A task of a sorted set goes to the head of the pending list. *)
Lemma Inv_zset_pending id src fs :
  loc id = Some (PZ src) -> hash_ok PPending (hset fs (task_hash id q)) ->
  Inv (hset_task id fs (zput src (zrem id (zget src q)) (set_pending (id :: q_pending q) q)))
    (relocate (to1 id (Some PPending)) loc).
Proof using HI.
  intros Hloc Hok. pose proof (loc_not_lease _ _ Hloc) as Hk. apply (Inv_to1 q); try done.
  - destruct src; try done; by_place HI id Hloc.
  - by_nodup idtac. apply NoDup_cons. split; [|eauto with asynq].
    by eapply (elsewhere _ _ HI id (PZ src) PPending).
  - intros x Hx. rewrite lookup_hset_task. by rewrite decide_False.
  - rewrite lookup_hset_task, decide_True by done. eauto.
Qed.

(** A task of a sorted set goes to another one. *)
Lemma Inv_zset_zset id src dst score q' h :
  loc id = Some (PZ src) -> src <> dst -> hash_ok (PZ dst) h ->
  (forall g s, dst <> ZAggregationSet g s) ->
  (forall k, zget k q' = if decide (k = dst) then zadd score id (zget dst q)
                         else if decide (k = src) then zrem id (zget src q) else zget k q) ->
  q_pending q' = q_pending q -> q_active q' = q_active q ->
  q_tasks q' = <[id := h]> (q_tasks q) -> q_aggregation_sets q' = q_aggregation_sets q ->
  Inv q' (relocate (to1 id (Some (PZ dst))) loc).
Proof using HI.
  intros Hloc Hne Hok Hag Hz Hp Ha Ht Htr. pose proof (loc_not_lease _ _ Hloc) as Hk.
  apply (Inv_to1 q); try done.
  - intros p x. pose proof (inv_in _ _ HI p x) as Hin. destruct Hok as [[st Hst] _].
    destruct p as [| |k]; cbn [members]; rewrite ?Hp, ?Ha, ?Hz; cbn [members] in Hin.
    + rewrite Hin. naive_solver congruence.
    + rewrite Hin. naive_solver congruence.
    + repeat case_decide; subst; rewrite ?elem_of_zmembers_zadd, ?elem_of_zmembers_zrem.
      * rewrite Hin. destruct dst; cbn; naive_solver congruence.
      * rewrite Hin. destruct src; cbn; naive_solver congruence.
      * rewrite Hin. destruct k; cbn; naive_solver congruence.
  - intros [| |k]; cbn [members]; rewrite ?Hp, ?Ha, ?Hz; repeat case_decide; eauto with asynq.
  - intros x Hx. rewrite Ht. by apply lookup_insert_ne.
  - rewrite Ht, lookup_insert_eq. eauto.
  - naive_solver.
Qed.

(** A task of a sorted set is deleted. *)
Lemma Inv_zset_gone id src :
  loc id = Some (PZ src) ->
  Inv (del_task id (zput src (zrem id (zget src q)) q)) (relocate (to1 id None) loc).
Proof using HI.
  intros Hloc. pose proof (loc_not_lease _ _ Hloc) as Hk. apply (Inv_to1 q); try done.
  - destruct src; try done; by_place HI id Hloc.
  - by_nodup idtac.
  - intros x Hx. rewrite lookup_del_task. by rewrite decide_False.
  - intros h. rewrite lookup_del_task. by rewrite decide_True.
Qed.

(** *** Taking a pending task *)

Lemma dequeueCmd_spec expiration :
  ewp (dequeueCmd expiration)
    (fun r s' => s'.2 = locks /\
       match q_paused q, last (q_pending q) with
       | None, Some id =>
           r = h_msg (task_hash id q) /\ is_Some r /\
           q_pending q = q_pending s'.1 ++ [id] /\ q_active s'.1 = id :: q_active q /\
           zget ZLease s'.1 = zadd expiration id (zget ZLease q) /\
           Inv s'.1 (relocate (to1 id (Some PActive)) loc)
       | _, _ => r = None /\ s'.1 = q
       end)
    (fun _ _ => False) (q, locks).
Proof using HI.
  unfold dequeueCmd. apply ewp_bind. unfold reads, ewp at 1. cbn [fst snd].
  destruct (q_paused q) as [t|]; [done|].
  apply ewp_bind. unfold RPOPLPUSH_pending_active, ewp at 1. cbn [fst snd].
  unfold RPOPLPUSH. destruct (last (q_pending q)) as [id|] eqn:Hl; [|done].
  apply last_Some in Hl as [l Hl]. rewrite Hl, length_app. cbn [length].
  rewrite Nat.add_sub, take_app_length.
  unfold ewp, HSET, HDEL_pending_since, ZADD_, HGET, reads, writes, ebind. cbn [fst snd ZADD].
  assert (Hloc : loc id = Some PPending).
  { apply (inv_pending _ _ HI). rewrite Hl. set_solver. }
  pose proof (inv_hash_at _ _ HI _ _ Hloc) as Hok.
  assert (Hnd : (id ∉ l) /\ NoDup l).
  { pose proof (nodup_pending _ _ HI) as Hn. rewrite Hl in Hn. apply NoDup_app in Hn. set_solver. }
  destruct (inv_hash _ _ HI _ _ Hloc) as (h & Hh & _).
  set (q' := zput ZLease _ _).
  assert (Ht : q_tasks q' = <[id := hdel_pending_since (hset [F_state TaskStateActive] h)]> (q_tasks q)).
  { subst q'. store_simpl. unfold task_hash. cbn [q_tasks]. rewrite Hh. by rewrite alter_insert_eq. }
  assert (Hth : task_hash id q' = hdel_pending_since (hset [F_state TaskStateActive] (task_hash id q))).
  { unfold task_hash. rewrite Ht, Hh. by rewrite lookup_insert_eq. }
  split; [done|]. rewrite Hth. destruct Hok as (_ & Hs & Hm & _).
  split; [by destruct (task_hash id q)|]. split; [by destruct (task_hash id q)|].
  split; [done|]. split; [done|]. split; [exact (zget_zput_eq _ _ _)|].
  apply (Inv_to1 q); try done.
  - intros p x. pose proof (inv_in _ _ HI p id) as Hin. rewrite Hloc in Hin.
    destruct (decide (x = id)) as [->|Hx]; destruct p as [| |k]; subst q'; store_simpl; cbn in Hin.
    all: try (case_decide; [subst k|]).
    all: try (destruct k; cbn in Hin |- * ).
    all: rewrite ?elem_of_zmembers_zadd, ?elem_of_cons, ?Hl; set_solver.
  - subst q'. by_nodup idtac; [by apply Hnd|]. apply NoDup_cons. split; [|eauto with asynq].
    by eapply (elsewhere _ _ HI id PPending PActive).
  - intros x Hx. rewrite Ht. by apply lookup_insert_ne.
  - rewrite Ht, lookup_insert_eq. eexists. split; [done|].
    split; [done|]. unfold task_hash in Hm. rewrite Hh in Hm. by destruct h.
Qed.
End more_scripts.
