(* ===== verification/AsynqMoves.v ===== *)
(** What the scripts that move many tasks do to their places: forwarding of due tasks, staging,
    reclaiming and deleting aggregation sets, deleting expired completed tasks. *)
From stdpp Require Import base list strings numbers option gmap.
From S2P Require Import Prelude.
From S2P Require Import Redis.
From S2P Require Import AsynqBase.
From S2P Require Import AsynqStore.
From S2P Require Import AsynqRdb.
From S2P Require Import AsynqInv.
From S2P Require Import AsynqScripts.

(** ** Forwarding *)

(** Where [forwardCmd] sends a task: to the group its hash names, else to the pending list. *)
Definition forward_place (q : QueueDB) (id : gostring) : Place :=
  match h_group (task_hash id q) with
  | Some ((_ :: _) as g) => PZ (ZGroup g)
  | _ => PPending
  end.

Definition delayed (k : ZKey) : Prop := k = ZScheduled \/ k = ZRetry.

Section forward_one.
Context (q : QueueDB) (locks : Locks) (loc : Location) (HI : Inv q loc).

Lemma forwardOne_spec src now_sec now_nsec id :
  delayed src -> loc id = Some (PZ src) ->
  ewp (forwardOne src now_sec now_nsec id)
    (fun _ s' => s'.2 = locks /\ Inv s'.1 (relocate (to1 id (Some (forward_place q id))) loc)
       /\ (forall x, x <> id -> q_tasks s'.1 !! x = q_tasks q !! x)
       /\ zget src s'.1 = zrem id (zget src q)
       /\ (forall k, delayed k -> k <> src -> zget k s'.1 = zget k q)
       /\ q_pending s'.1 = (if decide (forward_place q id = PPending) then [id] else []) ++ q_pending q)
    (fun _ _ => False) (q, locks).
Proof using HI.
  intros Hsrc Hloc. pose proof (inv_hash_at _ _ HI _ _ Hloc) as Hok.
  unfold forwardOne, forward_place in *. apply ewp_bind. unfold HGET, reads, ewp at 1. cbn [fst snd].
  assert (Hpend : Inv (hset_task id [F_state TaskStatePending; F_pending_since now_nsec]
      (zput src (zrem id (zget src q)) (set_pending (id :: q_pending q) q)))
      (relocate (to1 id (Some PPending)) loc)).
  { apply Inv_zset_pending; [done..|]. eapply hash_ok_state; eauto. done. }
  destruct (h_group (task_hash id q)) as [[|a g]|] eqn:Hg;
    cbv [ewp ebind LPUSH_pending writes ZREM_ HSET ZADD_ ZADD ZREM fst snd].
  all: split; [done|]; split; [try exact Hpend|split;
    [intros x Hx; rewrite lookup_hset_task; by rewrite decide_False
    |split; [destruct Hsrc as [-> | ->]; store_simpl; by rewrite ?decide_True, ?decide_False by done
            |split; [intros k Hk Hne; store_simpl; rewrite !decide_False;
                     [done|first [done|by destruct Hk as [-> | ->]]..]|done]]]].
  eapply (Inv_zset_zset q loc HI id src (ZGroup (a :: g))); try done.
  - by destruct Hsrc as [-> | ->].
  - eapply hash_ok_state; [done|done| |by left].
    intros g' [= <-]. exact Hg.
  - intros k. destruct Hsrc as [-> | ->]; store_simpl; repeat case_decide; naive_solver.
Qed.
End forward_one.

(** The tasks in [ids] go where [forwardCmd] sends them. *)
Definition forward_to (q : QueueDB) (ids : list gostring) (x : gostring) : option (option Place) :=
  if decide (x ∈ ids) then Some (Some (forward_place q x)) else None.

(** The forwarded tasks of [ids] that go to the pending list. *)
Definition forward_pending (q : QueueDB) (ids : list gostring) : list gostring :=
  filter (fun x => forward_place q x = PPending) ids.

Lemma filter_notin_cons (x : gostring) (ids : list gostring) (z : zset gostring) :
  zrem x (filter (fun e => e.1 ∉ ids) z) = filter (fun e => e.1 ∉ ids ++ [x]) z.
Proof.
  unfold zrem. rewrite list_filter_filter. apply list_filter_iff. intros e.
  rewrite elem_of_app, list_elem_of_singleton. tauto.
Qed.

(** The state of the queue after the tasks [ids] of [src] were forwarded. *)
Record forwarded (src : ZKey) (q : QueueDB) (loc : Location) (ids : list gostring) (q' : QueueDB)
    : Prop := {
  fwd_inv : Inv q' (relocate (forward_to q ids) loc);
  fwd_rest : forall x, x ∉ ids -> q_tasks q' !! x = q_tasks q !! x;
  fwd_src : zget src q' = filter (fun e => e.1 ∉ ids) (zget src q);
  fwd_other : forall k, delayed k -> k <> src -> zget k q' = zget k q;
  fwd_pending : q_pending q' = reverse (forward_pending q ids) ++ q_pending q
}.

Section forward_script.
Context (q : QueueDB) (locks : Locks) (loc : Location) (HI : Inv q loc).

Lemma forwarded_nil src : forwarded src q loc [] q.
Proof using HI.
  split; try done. symmetry. apply list_filter_all, Forall_forall. set_solver.
Qed.

Lemma forwarded_snoc src ids id q1 q2 :
  id ∉ ids -> forwarded src q loc ids q1 ->
  Inv q2 (relocate (to1 id (Some (forward_place q1 id))) (relocate (forward_to q ids) loc)) ->
  (forall x, x <> id -> q_tasks q2 !! x = q_tasks q1 !! x) ->
  zget src q2 = zrem id (zget src q1) ->
  (forall k, delayed k -> k <> src -> zget k q2 = zget k q1) ->
  q_pending q2 = (if decide (forward_place q1 id = PPending) then [id] else []) ++ q_pending q1 ->
  forwarded src q loc (ids ++ [id]) q2.
Proof using HI.
  intros Hid [_ Hrest Hsrc Hoth Hpend] HI2 Hrest2 Hsrc2 Hoth2 Hpend2.
  assert (Hp : forward_place q1 id = forward_place q id).
  { unfold forward_place, task_hash. by rewrite Hrest. }
  split.
  - eapply Inv_ext; [|exact HI2]. intros x. rewrite relocate_to1, Hp. unfold relocate, forward_to.
    destruct (decide (x ∈ ids ++ [id])) as [[Hx|Hx%list_elem_of_singleton]%elem_of_app|Hx].
    + rewrite decide_False by set_solver. by rewrite decide_True.
    + subst. by rewrite decide_True.
    + rewrite !decide_False by set_solver. done.
  - intros x Hx. rewrite Hrest2, Hrest by set_solver. done.
  - by rewrite Hsrc2, Hsrc, filter_notin_cons.
  - intros k Hk Hne. by rewrite Hoth2, Hoth.
  - unfold forward_pending. rewrite Hpend2, Hpend, Hp, filter_app, reverse_app.
    rewrite filter_cons, filter_nil. by destruct (decide (forward_place q id = PPending)).
Qed.

Lemma forwardCmd_spec src now_sec now_nsec :
  delayed src ->
  let ids := zmembers (ZRANGEBYSCORE_LIMIT (zget src q) now_sec 100) in
  ewp (forwardCmd src now_sec now_nsec)
    (fun n s' => s'.2 = locks /\ n = Z.of_nat (length ids) /\ forwarded src q loc ids s'.1)
    (fun _ _ => False) (q, locks).
Proof using HI.
  intros Hd ids. apply ewp_bind. unfold ZRANGEBYSCORE_LIMIT_, reads, ewp at 1. cbn [fst snd].
  fold ids. apply ewp_bind.
  assert (Hnd : NoDup ids).
  { eapply NoDup_zsublist; [apply sublist_ZRANGEBYSCORE_LIMIT|by eapply nodup_zset]. }
  assert (Hin : forall x, x ∈ ids -> loc x = Some (PZ src)).
  { intros x Hx. apply (inv_zset _ _ HI); [by destruct Hd as [-> | ->]|].
    eapply elem_of_submseteq; [exact Hx|].
    apply sublist_submseteq, fmap_sublist, sublist_ZRANGEBYSCORE_LIMIT. }
  eapply ewp_mono.
  - apply (ewp_efor _ (fun todo s' => s'.2 = locks /\ exists d, ids = d ++ todo /\ forwarded src q loc d s'.1)).
    2: { split; [done|]. exists []. split; [done|]. apply forwarded_nil. }
    intros id todo [q1 l1] (Hl & d & Hids & Hf). cbn [fst snd] in *. subst l1.
    assert (Hid : id ∉ d) by (rewrite Hids in Hnd; apply NoDup_app in Hnd; set_solver).
    eapply ewp_mono; [apply (forwardOne_spec q1 locks _ (fwd_inv _ _ _ _ _ Hf)); [done|]| |done].
    + unfold relocate, forward_to. rewrite decide_False by done. apply Hin. rewrite Hids. set_solver.
    + intros ? s' (Hl & HI2 & Hrest & Hsrc & Hoth & Hpend). split; [done|]. exists (d ++ [id]).
      split; [by rewrite <- app_assoc|]. by eapply forwarded_snoc.
  - intros ? s' (Hl & d & Hids & Hf). rewrite app_nil_r in Hids. subst d. by apply ewp_ret.
  - done.
Qed.
End forward_script.

(** ** Groups and aggregation sets *)

Lemma relocate_snoc ids id o loc x :
  relocate (to1 id o) (relocate (to_all ids o) loc) x = relocate (to_all (ids ++ [id]) o) loc x.
Proof.
  rewrite relocate_to1, !relocate_to_all. destruct (decide (x = id)) as [->|Hx].
  - by rewrite decide_True by set_solver.
  - destruct (decide (x ∈ ids)).
    + by rewrite decide_True by set_solver.
    + by rewrite decide_False by set_solver.
Qed.

(** Adding entries to a sorted set one by one. *)
Definition zadd_all (res z : zset gostring) : zset gostring :=
  fold_left (fun z e => zadd e.2 e.1 z) res z.

Lemma elem_of_zadd_all x res z :
  x ∈ zmembers (zadd_all res z) <-> x ∈ zmembers res \/ x ∈ zmembers z.
Proof.
  revert z. induction res as [|[y s] res IH]; intros z; cbn [zadd_all fold_left].
  - unfold zmembers at 2. cbn. set_solver.
  - fold (zadd_all res (zadd s y z)). rewrite IH, elem_of_zmembers_zadd. unfold zmembers at 3. cbn.
    rewrite elem_of_cons. fold (zmembers res). tauto.
Qed.

Lemma NoDup_zadd_all res z : NoDup (zmembers z) -> NoDup (zmembers (zadd_all res z)).
Proof.
  revert z. induction res as [|[y s] res IH]; intros z Hz; [done|]. apply IH. by apply NoDup_zadd.
Qed.

#[export] Hint Resolve NoDup_zadd_all : asynq.

(** Only sorted sets differ, and they are as [f] says. *)
Record zsets_are (f : ZKey -> zset gostring) (q q' : QueueDB) : Prop := {
  za_tasks : q_tasks q' = q_tasks q;
  za_pending : q_pending q' = q_pending q;
  za_active : q_active q' = q_active q;
  za_groups : q_groups q' = q_groups q;
  za_aggs : q_aggregation_sets q' = q_aggregation_sets q;
  za_get : forall k, zget k q' = f k
}.

(** The loop that copies entries to the set [dst]. *)
Lemma copy_entries dst res q locks :
  ewp (efor (fun e => _ ↞ ZADD_ dst e.2 e.1; eret tt) res)
    (fun _ s' => s'.2 = locks /\
       zsets_are (fun k => if decide (k = dst) then zadd_all res (zget dst q) else zget k q) q s'.1)
    (fun _ _ => False) (q, locks).
Proof.
  revert q. induction res as [|e res IH]; intros q.
  - split; [done|]. split; try done. intros k. by case_decide; subst.
  - simpl. apply ewp_bind. unfold ewp at 1, ebind, ZADD_, ZADD, eret. cbn [fst snd].
    eapply ewp_mono; [apply IH| |done]. intros ? s' [Hl [H1 H2 H3 H4 H5 H6]].
    split; [done|]. split; try done. intros k. rewrite H6.
    rewrite zget_zput_eq, zget_zput. by case_decide.
Qed.

Section stage.
Context (q : QueueDB) (locks : Locks) (loc : Location) (HI : Inv q loc).

(** Entries [res] go from [src] to [dst]; [rest] is what is left in [src]. *)
Lemma Inv_zset_bulk src dst res rest q' :
  src <> dst -> src <> ZLease -> is_Some (state_of (PZ dst)) ->
  Permutation (res ++ rest) (zget src q) ->
  (forall k, zmembers (zget k q') =
     if decide (k = src) then zmembers rest
     else if decide (k = dst) then zmembers (zadd_all res (zget dst q)) else zmembers (zget k q)) ->
  q_pending q' = q_pending q -> q_active q' = q_active q ->
  (forall x, x ∉ zmembers res -> q_tasks q' !! x = q_tasks q !! x) ->
  (forall x, x ∈ zmembers res -> loc x = Some (PZ src) ->
     exists h, q_tasks q' !! x = Some h /\ hash_ok (PZ dst) h) ->
  (forall g s x, relocate (to_all (zmembers res) (Some (PZ dst))) loc x = Some (PZ (ZAggregationSet g s)) ->
     {| agg_gname := g; agg_setID := s |} ∈ zmembers (q_aggregation_sets q')) ->
  Inv q' (relocate (to_all (zmembers res) (Some (PZ dst))) loc).
Proof using HI.
  intros Hne Hl [st Hst] Hperm Hz Hp Ha Hrest Hh Htr.
  assert (Hpm : Permutation (zmembers res ++ zmembers rest) (zmembers (zget src q))).
  { unfold zmembers. rewrite <- map_app. by apply Permutation_map. }
  assert (Hsplit : forall x, loc x = Some (PZ src) <-> x ∈ zmembers res \/ x ∈ zmembers rest).
  { intros x. rewrite <- (inv_zset _ _ HI) by done. by rewrite <- Hpm, elem_of_app. }
  assert (Hdisj : NoDup (zmembers res ++ zmembers rest)).
  { rewrite Hpm. by eapply nodup_zset. }
  apply NoDup_app in Hdisj as (_ & Hdisj & Hndr).
  assert (Hdst : dst <> ZLease) by (by intros ->).
  apply (Inv_update q); try done; unfold to_all.
  - intros p x. pose proof (inv_in _ _ HI p x) as Hin. specialize (Hsplit x). specialize (Hdisj x).
    destruct p as [| |k]; cbn [members]; rewrite ?Hp, ?Ha, ?Hz; cbn [members] in Hin.
    1,2: case_decide; [|done]; rewrite Hin; cbn; naive_solver.
    case_decide; [subst k|case_decide; [subst k; rewrite elem_of_zadd_all|]].
    + rewrite (inv_zset _ _ HI) in Hin by done. destruct (decide (x ∈ zmembers res)).
      * destruct src; cbn; naive_solver congruence.
      * rewrite (inv_zset _ _ HI) by done. naive_solver.
    + destruct (decide (x ∈ zmembers res)); [|naive_solver].
      destruct dst; cbn; naive_solver congruence.
    + destruct (decide (x ∈ zmembers res)); [|done]. rewrite Hin.
      destruct k; cbn; naive_solver congruence.
  - intros [| |k]; cbn [members]; rewrite ?Hp, ?Ha, ?Hz; repeat case_decide; eauto with asynq.
  - intros x. case_decide; [done|]. intros _. by apply Hrest.
  - intros x p. case_decide; [|done]. intros [= <-]. apply Hh; [done|]. apply Hsplit. by left.
  - intros x h. by case_decide.
Qed.

Lemma stageGroup_spec gname setID maxSize set_exp :
  let ids := zmembers (ZRANGE (zget (ZGroup gname) q) 0 (maxSize - 1)) in
  ewp (stageGroup gname setID maxSize set_exp)
    (fun _ s' => s'.2 = locks /\
       Inv s'.1 (relocate (to_all ids (Some (PZ (ZAggregationSet gname setID)))) loc)
       /\ q_groups s'.1 = q_groups q
       /\ zget (ZGroup gname) s'.1 = ZREMRANGEBYRANK (zget (ZGroup gname) q) 0 (maxSize - 1))
    (fun _ _ => False) (q, locks).
Proof using HI.
  intros ids. apply ewp_bind. unfold ZRANGE_, reads, ewp at 1. cbn [fst snd].
  apply ewp_bind. eapply ewp_mono; [apply copy_entries| |done].
  intros ? [q1 l1] [Hl [H1 H2 H3 H4 H5 H6]]. cbn [fst snd] in *. subst l1.
  unfold ewp, ebind, ZREMRANGEBYRANK_, ZADD_aggregation_sets, writes. cbn [fst snd].
  assert (Hg : zget (ZGroup gname) q1 = zget (ZGroup gname) q).
  { rewrite H6. by rewrite decide_False. }
  split; [done|]. rewrite Hg. split; [|by rewrite <- H4; split; [|store_simpl; rewrite decide_True]].
  eapply (Inv_zset_bulk (ZGroup gname) (ZAggregationSet gname setID)
            (ZRANGE (zget (ZGroup gname) q) 0 (maxSize - 1))); try done.
  - apply ZRANGE_REMRANGE.
  - intros k. store_simpl. case_decide; [done|]. rewrite H6. by case_decide.
  - intros x _. store_simpl. by rewrite H1.
  - intros x Hx Hloc. store_simpl. rewrite H1.
    destruct (inv_hash _ _ HI _ _ Hloc) as (h & Hh & ? & Hs & Hm & Hgr).
    exists h. split; [done|]. split; [done|]. split; [done|]. split; [done|]. exact Hgr.
  - intros g s x. rewrite relocate_to_all. store_simpl. rewrite elem_of_zmembers_zadd, H5.
    case_decide; [|right; by eapply inv_tracked]. intros [= <- <-]. by left.
Qed.
End stage.

(** The positions of the first [n] members (of all of them, for 0). *)
Lemma zindices_first len n :
  0 <= n -> 0 < len ->
  zindices len 0 (n - 1) = (0%nat, Z.to_nat (if n =? 0 then len else Z.min n len)).
Proof.
  intros Hn Hl. unfold zindices.
  destruct (Z.ltb_spec 0 0); [lia|]. rewrite Z.max_id.
  destruct (Z.ltb_spec (n - 1) 0), (Z.eqb_spec n 0); try lia.
  - destruct (Z.ltb_spec (len + (n - 1)) 0), (Z.leb_spec len 0); cbn [orb]; try lia. f_equal. lia.
  - destruct (Z.ltb_spec (n - 1) 0), (Z.leb_spec len 0); cbn [orb]; try lia. f_equal. lia.
Qed.

Lemma ZREMRANGE_first {M} `{ZMember M} (z : zset M) (n : Z) :
  0 <= n -> ZREMRANGEBYRANK z 0 (n - 1) = if n =? 0 then [] else drop (Z.to_nat n) z.
Proof.
  intros Hn. unfold ZREMRANGEBYRANK, ZCARD. destruct z as [|e z].
  { unfold zindices. destruct (_ || _); [|destruct (_ <? _)]; rewrite ?drop_nil, ?take_nil;
      by destruct (n =? 0). }
  rewrite zindices_first by (cbn [length]; lia). cbn [take app Nat.add].
  destruct (Z.eqb_spec n 0); [apply drop_ge; lia|].
  destruct (decide (n <= Z.of_nat (length (e :: z)))).
  - f_equal. lia.
  - rewrite !drop_ge; [done|lia..].
Qed.

Section aggregation.
Context (q : QueueDB) (locks : Locks) (loc : Location) (HI : Inv q loc).

(** The outcome of [aggregationCheckCmd]: nothing, or the first tasks of the group are staged and
    the name of the group is kept exactly when tasks are left in it. *)
Definition staged (gname setID : gostring) (maxSize : Z) (q' : QueueDB) : Prop :=
  let z := zget (ZGroup gname) q in
  let rest := ZREMRANGEBYRANK z 0 (maxSize - 1) in
  zget (ZGroup gname) q' = rest /\
  Inv q' (relocate (to_all (zmembers (ZRANGE z 0 (maxSize - 1)))
            (Some (PZ (ZAggregationSet gname setID)))) loc) /\
  (0 <= maxSize -> q_groups q' = if decide (rest = []) then q_groups q ∖ {[ gname ]} else q_groups q).

Lemma stage_then gname setID maxSize set_exp (forget : bool) :
  zget (ZGroup gname) q <> [] ->
  (0 <= maxSize -> forget = true <-> ZCARD (zget (ZGroup gname) q) <= maxSize \/ maxSize = 0) ->
  ewp (_ ↞ stageGroup gname setID maxSize set_exp;
       _ ↞ (if forget then SREM_group gname else eret tt); eret 1)
    (fun n s' => s'.2 = locks /\ n = 1 /\ staged gname setID maxSize s'.1)
    (fun _ _ => False) (q, locks).
Proof using HI.
  intros Hz Hf. apply ewp_bind. eapply ewp_mono; [by apply stageGroup_spec| |done].
  intros ? [q1 l1] (Hl & HI1 & Hg & Hrest). cbn [fst snd] in *. subst l1.
  assert (He : 0 <= maxSize -> ZREMRANGEBYRANK (zget (ZGroup gname) q) 0 (maxSize - 1) = []
               <-> forget = true).
  { intros Hm. rewrite Hf by done. rewrite ZREMRANGE_first by done. unfold ZCARD.
    destruct (Z.eqb_spec maxSize 0); [tauto|].
    rewrite <- length_zero_iff_nil, length_drop. lia. }
  destruct forget; unfold ewp, ebind, SREM_group, writes, eret; cbn [fst snd];
    (split; [done|split; [done|]]).
  - split; [done|]. split; [by apply Inv_groups|]. intros Hm. rewrite decide_True by (by apply He).
    cbn. by rewrite Hg.
  - split; [done|]. split; [done|]. intros Hm. rewrite decide_False; [done|].
    intros Hn. by apply He in Hn.
Qed.

Lemma aggregationCheckCmd_spec gname setID maxSize maxDelay grace set_exp current :
  ewp (aggregationCheckCmd gname setID maxSize maxDelay grace set_exp current)
    (fun n s' => s'.2 = locks /\
       ((n = 0 /\ s'.1 = q) \/
        (n = 1 /\ zget (ZGroup gname) q <> [] /\ staged gname setID maxSize s'.1)))
    (fun _ _ => False) (q, locks).
Proof using HI.
  unfold aggregationCheckCmd. apply ewp_bind. unfold ZCARD_, reads, ewp at 1. cbn [fst snd].
  destruct (Z.eqb_spec (ZCARD (zget (ZGroup gname) q)) 0) as [Hs|Hs]; [split; [done|by left]|].
  assert (Hne : zget (ZGroup gname) q <> []) by (intros He; by rewrite He in Hs).
  assert (Hfin : forall forget : bool,
    (0 <= maxSize -> forget = true <-> ZCARD (zget (ZGroup gname) q) <= maxSize \/ maxSize = 0) ->
    ewp (_ ↞ stageGroup gname setID maxSize set_exp;
         _ ↞ (if forget then SREM_group gname else eret tt); eret 1)
      (fun n s' => s'.2 = locks /\
         ((n = 0 /\ s'.1 = q) \/
          (n = 1 /\ zget (ZGroup gname) q <> [] /\ staged gname setID maxSize s'.1)))
      (fun _ _ => False) (q, locks)).
  { intros forget Hf. eapply ewp_mono; [by apply stage_then|naive_solver|done]. }
  destruct (negb (maxSize =? 0) && (maxSize <=? ZCARD (zget (ZGroup gname) q))) eqn:Hb.
  { apply Hfin. intros Hm. rewrite Z.eqb_eq. lia. }
  assert (Hf : 0 <= maxSize ->
    ((ZCARD (zget (ZGroup gname) q) <=? maxSize) || (maxSize =? 0)) = true
    <-> ZCARD (zget (ZGroup gname) q) <= maxSize \/ maxSize = 0) by lia.
  clear Hb. apply ewp_bind. unfold ZRANGE_, reads, ewp at 1. cbn [fst snd]. destruct (_ && _); [by apply Hfin|].
  apply ewp_bind. unfold ZREVRANGE_, reads, ewp at 1. cbn [fst snd].
  destruct (_ <=? current - grace); [by apply Hfin|].
  split; [done|by left].
Qed.
End aggregation.

(** ** Deleting all tasks of a place *)

(** A change of the hashes only. *)
Record tasks_are (t : gmap gostring TaskHash) (q q' : QueueDB) : Prop := {
  ta_tasks : q_tasks q' = t;
  ta_pending : q_pending q' = q_pending q;
  ta_active : q_active q' = q_active q;
  ta_groups : q_groups q' = q_groups q;
  ta_aggs : q_aggregation_sets q' = q_aggregation_sets q;
  ta_get : forall k, zget k q' = zget k q
}.

Definition delete_all (ids : list gostring) (t : gmap gostring TaskHash) : gmap gostring TaskHash :=
  fold_left (fun t id => delete id t) ids t.

Lemma lookup_delete_all ids t x :
  delete_all ids t !! x = if decide (x ∈ ids) then None else t !! x.
Proof.
  revert t. induction ids as [|id ids IH]; intros t; [done|]. cbn [delete_all fold_left].
  fold (delete_all ids (delete id t)). rewrite IH. destruct (decide (x = id)) as [->|Hx].
  - rewrite lookup_delete_eq. rewrite (decide_True (P := id ∈ id :: ids)) by set_solver.
    by case_decide.
  - rewrite lookup_delete_ne by done. repeat case_decide; set_solver.
Qed.

Lemma delete_loop ids q locks :
  ewp (efor (fun id => _ ↞ DEL_task id; eret tt) ids)
    (fun _ s' => s'.2 = locks /\ tasks_are (delete_all ids (q_tasks q)) q s'.1)
    (fun _ _ => False) (q, locks).
Proof.
  revert q. induction ids as [|id ids IH]; intros q; [done|].
  simpl. apply ewp_bind. unfold ewp at 1, ebind, DEL_task, eret. cbn [fst snd].
  eapply ewp_mono; [apply IH| |done]. intros ? s' [Hl []]. split; [done|]. by split.
Qed.

Section clear.
Context (q : QueueDB) (loc : Location) (HI : Inv q loc).

(** All tasks of place [p] are deleted. *)
Lemma Inv_clear p q' :
  p <> PActive -> p <> PZ ZLease ->
  members p q' = [] -> (forall p', p' <> p -> members p' q' = members p' q) ->
  (forall x, q_tasks q' !! x = if decide (x ∈ members p q) then None else q_tasks q !! x) ->
  (forall k, k ∈ zmembers (q_aggregation_sets q) ->
     p <> PZ (ZAggregationSet (agg_gname k) (agg_setID k)) -> k ∈ zmembers (q_aggregation_sets q')) ->
  Inv q' (relocate (to_all (members p q) None) loc).
Proof using HI.
  intros Hna Hnl Hp Hother Ht Htr.
  assert (Hat : forall x, x ∈ members p q <-> loc x = Some p).
  { intros x. rewrite (inv_in _ _ HI). by destruct p as [| |[]]. }
  apply (Inv_update q); try done; unfold to_all.
  - intros p' x. destruct (decide (p' = p)) as [->|Hne].
    + rewrite Hp, elem_of_nil. case_decide; [|done]. by destruct p as [| |[]].
    + rewrite Hother by done. case_decide as Hx; [|done]. rewrite (inv_in _ _ HI).
      apply Hat in Hx. rewrite Hx. destruct p' as [| |[]]; cbn; naive_solver.
  - intros p'. destruct (decide (p' = p)) as [->|Hne]; [rewrite Hp; constructor|].
    rewrite Hother by done. apply HI.
  - intros x. rewrite Ht. by case_decide.
  - intros x p'. by case_decide.
  - intros x h. rewrite Ht. by case_decide.
  - intros g s x. fold (to_all (members p q) None). rewrite relocate_to_all. case_decide as Hx; [done|].
    intros Hl. apply Htr; [by eapply inv_tracked|]. cbn. intros ->. by apply Hx, Hat.
Qed.

Lemma deleteAggregationSetCmd_spec locks gname setID :
  ewp (deleteAggregationSetCmd gname setID)
    (fun _ s' => s'.2 = locks /\
       Inv s'.1 (relocate (to_all (zmembers (zget (ZAggregationSet gname setID) q)) None) loc))
    (fun _ _ => False) (q, locks).
Proof using HI.
  apply ewp_bind. unfold ZRANGE_, reads, ewp at 1. cbn [fst snd]. rewrite ZRANGE_all.
  apply ewp_bind. eapply ewp_mono; [apply delete_loop| |done].
  intros ? [q1 l1] [Hl [H1 H2 H3 H4 H5 H6]]. cbn [fst snd] in *. subst l1.
  unfold ewp, ebind, DEL_zset, ZREM_aggregation_sets, writes. cbn [fst snd]. split; [done|].
  apply (Inv_clear (PZ (ZAggregationSet gname setID))); try done.
  - store_simpl. by rewrite decide_True.
  - intros [| |k] Hk; store_simpl; [done..|]. rewrite decide_False by congruence. by rewrite H6.
  - intros x. store_simpl. rewrite H1. apply lookup_delete_all.
  - intros k Hk Hne. store_simpl. rewrite elem_of_zmembers_zrem, H5. split; [|done].
    intros ->. by apply Hne.
Qed.
End clear.

(** ** Reclaiming stale aggregation sets *)

(** The tasks of the aggregation sets [ks] go back to the groups of the sets. *)
Definition reclaimed (ks : list AggKey) (loc : Location) : Location := fun x =>
  match loc x with
  | Some (PZ (ZAggregationSet g s)) =>
      if decide ({| agg_gname := g; agg_setID := s |} ∈ ks) then Some (PZ (ZGroup g)) else loc x
  | o => o
  end.

Lemma reclaimed_cons loc k ks x : reclaimed ks (reclaimed [k] loc) x = reclaimed (k :: ks) loc x.
Proof.
  unfold reclaimed. destruct (loc x) as [[| |[]]|] eqn:Hx; rewrite ?Hx; try done.
  destruct (decide _) as [Hk|Hk].
  - by rewrite decide_True by set_solver.
  - repeat case_decide; set_solver.
Qed.
Section reclaim.
Context (q : QueueDB) (locks : Locks) (loc : Location) (HI : Inv q loc).

Lemma reclaimOne_spec k :
  ewp (reclaimOne k)
    (fun _ s' => s'.2 = locks /\ q_aggregation_sets s'.1 = q_aggregation_sets q
       /\ Inv s'.1 (reclaimed [k] loc))
    (fun _ _ => False) (q, locks).
Proof using HI.
  destruct k as [g s]. unfold reclaimOne. cbn [agg_gname agg_setID].
  apply ewp_bind. unfold ZRANGE_, reads, ewp at 1. cbn [fst snd]. rewrite ZRANGE_all.
  apply ewp_bind. eapply ewp_mono; [apply copy_entries| |done].
  intros ? [q1 l1] [Hl [H1 H2 H3 H4 H5 H6]]. cbn [fst snd] in *. subst l1.
  unfold ewp, DEL_zset, writes. cbn [fst snd]. split; [done|]. split; [done|].
  set (z := zget (ZAggregationSet g s) q).
  assert (Hz : forall x, x ∈ zmembers z <-> loc x = Some (PZ (ZAggregationSet g s))).
  { intros x. by apply (inv_zset _ _ HI). }
  apply (Inv_ext _ (relocate (to_all (zmembers z) (Some (PZ (ZGroup g)))) loc)).
  { intros x. rewrite relocate_to_all. unfold reclaimed.
    case_decide as Hx; [|].
    - apply Hz in Hx. rewrite Hx. by rewrite decide_True by set_solver.
    - destruct (loc x) as [[| |[]]|] eqn:Hlx; try done. rewrite decide_False; [done|].
      intros [= -> ->]%list_elem_of_singleton. by apply Hx, Hz. }
  eapply (Inv_zset_bulk q loc HI (ZAggregationSet g s) (ZGroup g) z []); try done.
  - by rewrite app_nil_r.
  - intros k. store_simpl. case_decide; [done|]. rewrite H6. by case_decide.
  - intros x _. store_simpl. by rewrite H1.
  - intros x Hx Hloc. store_simpl. rewrite H1.
    destruct (inv_hash _ _ HI _ _ Hloc) as (h & Hh & ? & Hs & Hm & Hgr).
    exists h. split; [done|]. split; [done|]. split; [done|]. split; [done|]. exact Hgr.
  - intros g' s' x. rewrite relocate_to_all. store_simpl. rewrite H5. case_decide; [done|]. apply HI.
Qed.

End reclaim.

Lemma reclaim_loop ks q locks loc :
  Inv q loc ->
  ewp (efor reclaimOne ks)
    (fun _ s' => s'.2 = locks /\ q_aggregation_sets s'.1 = q_aggregation_sets q
       /\ Inv s'.1 (reclaimed ks loc))
    (fun _ _ => False) (q, locks).
Proof.
  revert q loc. induction ks as [|k ks IH]; intros q loc HI.
  - split; [done|]. split; [done|]. eapply Inv_ext; [|done]. intros x. unfold reclaimed.
    by destruct (loc x) as [[| |[]]|].
  - simpl. apply ewp_bind. eapply ewp_mono; [by apply reclaimOne_spec| |done].
    intros ? [q1 l1] (Hl & Ha & HI1). cbn [fst snd] in *. subst l1.
    eapply ewp_mono; [by apply IH| |done]. intros ? s' (Hl & Ha' & HI').
    split; [done|]. split; [congruence|]. eapply Inv_ext; [|exact HI'].
    intros x. by rewrite reclaimed_cons.
Qed.

Lemma reclaimStateAggregationSetsCmd_spec now_sec q locks loc :
  Inv q loc ->
  ewp (reclaimStateAggregationSetsCmd now_sec)
    (fun _ s' => s'.2 = locks /\
       Inv s'.1 (reclaimed (zmembers (ZRANGEBYSCORE (q_aggregation_sets q) now_sec)) loc))
    (fun _ _ => False) (q, locks).
Proof.
  intros HI. apply ewp_bind. unfold reads, ewp at 1. cbn [fst snd].
  set (ks := zmembers _). apply ewp_bind. eapply ewp_mono; [by apply reclaim_loop| |done].
  intros ? [q1 l1] (Hl & Ha & HI1). cbn [fst snd] in *. subst l1.
  unfold ewp, writes. cbn [fst snd]. split; [done|].
  split; [apply HI1..|].
  intros g s x Hx. change (q_aggregation_sets (set_aggregation_sets ?z _)) with z.
  assert (Hk : {| agg_gname := g; agg_setID := s |} ∈ zmembers (q_aggregation_sets q)
               /\ {| agg_gname := g; agg_setID := s |} ∉ ks).
  { unfold reclaimed in Hx. destruct (loc x) as [[| |[]]|] eqn:Hlx; try done.
    case_decide; [done|]. injection Hx as -> ->. split; [by eapply inv_tracked|done]. }
  destruct Hk as [[sc Hk]%elem_of_zmembers Hnk]. apply elem_of_zmembers. exists sc. rewrite Ha.
  apply elem_of_ZREMRANGEBYSCORE. split; [|done]. cbn.
  destruct (decide (sc <= now_sec)); [|lia]. exfalso. apply Hnk, elem_of_zmembers. exists sc.
  by apply elem_of_ZRANGEBYSCORE.
Qed.

(** ** Deleting expired completed tasks *)

Lemma deleteExpiredOne_spec id q locks loc :
  Inv q loc -> loc id = Some (PZ ZCompleted) ->
  ewp (deleteExpiredOne id)
    (fun _ s' => s'.2 = locks /\ Inv s'.1 (relocate (to1 id None) loc)
       /\ zget ZCompleted s'.1 = zrem id (zget ZCompleted q))
    (fun _ _ => False) (q, locks).
Proof.
  intros HI Hloc. unfold ewp, deleteExpiredOne, ebind, DEL_task, ZREM_, ZREM, eret. cbn [fst snd].
  split; [done|]. split; [by apply (Inv_zset_gone q loc HI id ZCompleted)|].
  store_simpl. by rewrite decide_True.
Qed.

Lemma deleteExpiredCompletedTasksCmd_spec now_sec n q locks loc :
  Inv q loc ->
  let ids := zmembers (ZRANGEBYSCORE_LIMIT (zget ZCompleted q) now_sec n) in
  ewp (deleteExpiredCompletedTasksCmd now_sec n)
    (fun r s' => s'.2 = locks /\ r = Z.of_nat (length ids)
       /\ Inv s'.1 (relocate (to_all ids None) loc)
       /\ zget ZCompleted s'.1 = filter (fun e => e.1 ∉ ids) (zget ZCompleted q))
    (fun _ _ => False) (q, locks).
Proof.
  intros HI ids. apply ewp_bind. unfold ZRANGEBYSCORE_LIMIT_, reads, ewp at 1. cbn [fst snd].
  fold ids. apply ewp_bind.
  assert (Hnd : NoDup ids).
  { eapply NoDup_zsublist; [apply sublist_ZRANGEBYSCORE_LIMIT|by eapply nodup_zset]. }
  assert (Hin : forall x, x ∈ ids -> loc x = Some (PZ ZCompleted)).
  { intros x Hx. apply (inv_zset _ _ HI); [done|]. eapply elem_of_submseteq; [exact Hx|].
    apply sublist_submseteq, fmap_sublist, sublist_ZRANGEBYSCORE_LIMIT. }
  eapply ewp_mono.
  - apply (ewp_efor _ (fun todo s' => s'.2 = locks /\ exists d, ids = d ++ todo
             /\ Inv s'.1 (relocate (to_all d None) loc)
             /\ zget ZCompleted s'.1 = filter (fun e => e.1 ∉ d) (zget ZCompleted q))).
    2: { split; [done|]. exists []. split; [done|]. split; [done|].
         symmetry. apply list_filter_all, Forall_forall. set_solver. }
    intros id todo [q1 l1] (Hl & d & Hids & HI1 & Hz). cbn [fst snd] in *. subst l1.
    assert (Hid : id ∉ d) by (rewrite Hids in Hnd; apply NoDup_app in Hnd; set_solver).
    eapply ewp_mono; [apply (deleteExpiredOne_spec id q1 locks _ HI1)| |done].
    + rewrite relocate_to_all, decide_False by done. apply Hin. rewrite Hids. set_solver.
    + intros ? s' (Hl & HI2 & Hz2). split; [done|]. exists (d ++ [id]).
      split; [by rewrite <- app_assoc|]. split.
      * eapply Inv_ext; [|exact HI2]. intros x. by rewrite relocate_snoc.
      * by rewrite Hz2, Hz, filter_notin_cons.
  - intros ? s' (Hl & d & Hids & HI1 & Hz). rewrite app_nil_r in Hids. subst d. by apply ewp_ret.
  - done.
Qed.
