(* ===== verification/AsynqInspectSpec.v ===== *)
(** What the operator's scripts of [inspect.go] do to the places of the tasks. *)
From stdpp Require Import base list strings numbers option gmap.
From S2P Require Import Prelude.
From S2P Require Import Redis.
From S2P Require Import AsynqBase.
From S2P Require Import AsynqStore.
From S2P Require Import AsynqRdb.
From S2P Require Import AsynqInspect.
From S2P Require Import AsynqInv.
From S2P Require Import AsynqScripts.
From S2P Require Import AsynqMoves.

(** ** Setting the state of many hashes *)

Definition hset_all (fs : list HField) (ids : list gostring) (q : QueueDB) : gmap gostring TaskHash :=
  fold_left (fun t id => <[id := hset fs (default empty_hash (t !! id))]> t) ids (q_tasks q).

Lemma lookup_hset_all fs ids q x :
  NoDup ids ->
  hset_all fs ids q !! x =
    if decide (x ∈ ids) then Some (hset fs (task_hash x q)) else q_tasks q !! x.
Proof.
  unfold hset_all, task_hash. generalize (q_tasks q) as t. clear q.
  induction ids as [|id ids IH]; intros t Hnd; [done|]. apply NoDup_cons in Hnd as [Hid Hnd].
  cbn [fold_left]. rewrite IH by done. destruct (decide (x = id)) as [->|Hx].
  - rewrite decide_False by done. rewrite decide_True by set_solver. by rewrite lookup_insert_eq.
  - rewrite !lookup_insert_ne by done. repeat case_decide; set_solver.
Qed.

(** The loop of [runAllCmd]: the tasks are pushed to the pending list and marked pending. *)
Lemma pendAll_spec ids q locks :
  ewp (pendAll ids)
    (fun _ s' => s'.2 = locks
       /\ q_tasks s'.1 = hset_all [F_state TaskStatePending] ids q
       /\ q_pending s'.1 = reverse ids ++ q_pending q /\ q_active s'.1 = q_active q
       /\ q_groups s'.1 = q_groups q
       /\ q_aggregation_sets s'.1 = q_aggregation_sets q /\ q_zsets s'.1 = q_zsets q)
    (fun _ _ => False) (q, locks).
Proof.
  unfold pendAll. revert q. induction ids as [|id ids IH]; intros q; [done|].
  simpl. apply ewp_bind. unfold ewp at 1, ebind, LPUSH_pending, HSET, writes. cbn [fst snd].
  eapply ewp_mono; [apply IH| |done].
  intros ? s' (Hl & Ht & Hp & Ha & Hg & Hs & Hz). repeat split; try done.
  rewrite Hp, reverse_cons, <- app_assoc. done.
Qed.

(** The loop of [archiveAllCmd]: the tasks are added to the archive and marked archived. *)
Lemma archiveIds_spec ids now_sec q locks :
  ewp (archiveIds ids now_sec)
    (fun _ s' => s'.2 = locks
       /\ q_tasks s'.1 = hset_all [F_state TaskStateArchived] ids q
       /\ q_pending s'.1 = q_pending q /\ q_active s'.1 = q_active q
       /\ q_groups s'.1 = q_groups q
       /\ q_aggregation_sets s'.1 = q_aggregation_sets q
       /\ (forall k, zget k s'.1 = if decide (k = ZArchived)
             then zadd_all (map (fun id => (id, now_sec)) ids) (zget ZArchived q) else zget k q))
    (fun _ _ => False) (q, locks).
Proof.
  unfold archiveIds. revert q. induction ids as [|id ids IH]; intros q.
  - repeat split; try done. intros k. by case_decide; subst.
  - simpl. apply ewp_bind. unfold ewp at 1, ebind, ZADD_, ZADD, HSET, writes. cbn [fst snd].
    eapply ewp_mono; [apply IH| |done].
    intros ? s' (Hl & Ht & Hp & Ha & Hg & Hs & Hz). repeat split; try done.
    intros k. rewrite Hz. store_simpl. by repeat case_decide.
Qed.

(** ** A task taken out of its place *)

Record taken (id : gostring) (q q1 : QueueDB) : Prop := {
  tk_in : forall p x, x ∈ members p q1 <-> x <> id /\ x ∈ members p q;
  tk_nodup : forall p, NoDup (members p q1);
  tk_tasks : q_tasks q1 = q_tasks q;
  tk_aggs : q_aggregation_sets q1 = q_aggregation_sets q
}.

Section taken.
Context (q : QueueDB) (loc : Location) (HI : Inv q loc).

Lemma taken_pending id :
  loc id = Some PPending -> taken id q (set_pending (lrem id (q_pending q)) q).
Proof using HI.
  intros Hloc. split; [|by_nodup idtac|done..].
  by_place HI id Hloc.
Qed.

Lemma taken_zset id k gs :
  loc id = Some (PZ k) -> taken id q (set_groups gs (zput k (zrem id (zget k q)) q)).
Proof using HI.
  intros Hloc. pose proof (loc_not_lease _ _ HI _ _ Hloc) as Hk.
  split; [|by_nodup idtac|done..]. destruct k; try done; by_place HI id Hloc.
Qed.

Context (id : gostring) (q1 : QueueDB) (Hq1 : taken id q q1).

Lemma put_pending fs :
  hash_ok PPending (hset fs (task_hash id q)) ->
  Inv (hset_task id fs (set_pending (LPUSH (q_pending q1) id) q1))
    (relocate (to1 id (Some PPending)) loc).
Proof using HI Hq1.
  intros Hok. destruct Hq1 as [Hin Hnd Ht Hag]. apply (Inv_to1 q); try done.
  - intros p x. specialize (Hin p x). destruct p as [| |k]; store_simpl; cbn [members at_place] in *;
      rewrite ?elem_of_cons, Hin; try (destruct k); naive_solver congruence.
  - intros [| |k]; store_simpl; [|exact (Hnd PActive)|exact (Hnd (PZ k))].
    apply NoDup_cons. split; [|exact (Hnd PPending)]. rewrite (Hin PPending). naive_solver.
  - intros x Hx. rewrite lookup_hset_task, decide_False by done. cbn. by rewrite Ht.
  - rewrite lookup_hset_task, decide_True by done. eexists. split; [done|].
    unfold task_hash in *. cbn. by rewrite Ht.
Qed.

Lemma put_zset k score fs :
  hash_ok (PZ k) (hset fs (task_hash id q)) -> (forall g s, k <> ZAggregationSet g s) ->
  Inv (hset_task id fs (zput k (zadd score id (zget k q1)) q1))
    (relocate (to1 id (Some (PZ k))) loc).
Proof using HI Hq1.
  intros Hok Hna. destruct Hq1 as [Hin Hnd Ht Hag]. apply (Inv_to1 q); try done.
  - intros p x. specialize (Hin p x). destruct Hok as [[st Hst] _].
    destruct p as [| |k']; store_simpl; cbn [members at_place] in *.
    1,2: rewrite Hin; naive_solver congruence.
    case_decide; [subst; rewrite elem_of_zmembers_zadd|]; rewrite Hin.
    + destruct k; naive_solver congruence.
    + destruct k'; naive_solver congruence.
  - intros [| |k']; store_simpl; [exact (Hnd PPending)|exact (Hnd PActive)|].
    specialize (Hnd (PZ k')). case_decide; subst; eauto with asynq.
  - intros x Hx. rewrite lookup_hset_task, decide_False by done. cbn. by rewrite Ht.
  - rewrite lookup_hset_task, decide_True by done. eexists. split; [done|].
    unfold task_hash in *. cbn. by rewrite Ht.
  - naive_solver.
Qed.

Lemma put_nowhere : Inv (del_task id q1) (relocate (to1 id None) loc).
Proof using HI Hq1.
  destruct Hq1 as [Hin Hnd Ht Hag]. apply (Inv_to1 q); try done.
  - intros p x. change (members p (del_task id q1)) with (members p q1). rewrite Hin.
    destruct p as [| |[]]; naive_solver congruence.
  - intros x Hx. rewrite lookup_del_task, decide_False by done. by rewrite Ht.
  - intros h. rewrite lookup_del_task. by rewrite decide_True.
Qed.
End taken.

(** ** Removing a task from its set *)
Section remove.
Context (q : QueueDB) (locks : Locks) (loc : Location) (HI : Inv q loc).

(** Removing a member that is not there. *)
Lemma Inv_zrem_none k id : id ∉ zmembers (zget k q) -> Inv (zput k (zrem id (zget k q)) q) loc.
Proof using HI.
  intros Hid. rewrite zrem_none by done. apply (Inv_frame q); try done.
  intros k'. rewrite zget_zput. by case_decide; subst.
Qed.

Lemma ZREM_spec k id :
  k <> ZLease ->
  ewp (ZREM_ k id)
    (fun n s' => s' = (zput k (zrem id (zget k q)) q, locks) /\
       (n = 0 <-> loc id <> Some (PZ k)))
    (fun _ _ => False) (q, locks).
Proof using HI.
  intros Hk. unfold ewp, ZREM_. cbn [fst snd]. pose proof (ZREM_zero (zget k q) id) as Hz.
  destruct (ZREM (zget k q) id) as [n z] eqn:HZ. cbn [fst] in Hz.
  assert (z = zrem id (zget k q)) as -> by (by injection HZ as _ <-).
  split; [done|]. rewrite Hz. by rewrite (inv_zset _ _ HI) by done.
Qed.

(** The outcome: the task is taken out of the place [p]; or it is not there and nothing moves. *)
Definition removes (id : gostring) (p : Place) (m : script unit) : Prop :=
  ewp m
    (fun _ s' => s'.2 = locks /\ loc id = Some p /\ taken id q s'.1)
    (fun _ s' => s'.2 = locks /\ loc id <> Some p /\ Inv s'.1 loc) (q, locks).

Lemma removeFromGroup_spec qname id g text :
  removes id (PZ (ZGroup g)) (removeFromGroup qname id g text).
Proof using HI.
  apply ewp_bind. eapply ewp_mono; [by apply ZREM_spec| |done].
  intros n s' [-> Hn]. destruct (Z.eqb_spec n 0) as [->|Hn0].
  - split; [done|]. assert (Hl : loc id <> Some (PZ (ZGroup g))) by (by apply Hn). split; [done|].
    apply Inv_zrem_none. by rewrite (inv_zset _ _ HI).
  - assert (Hloc : loc id = Some (PZ (ZGroup g))).
    { destruct (decide (loc id = Some (PZ (ZGroup g)))); [done|]. by exfalso; apply Hn0, Hn. }
    apply ewp_bind. unfold ZCARD_, reads, ewp at 1. cbn [fst snd].
    destruct (_ =? 0); unfold ewp, SREM_group, writes, eret; cbn [fst snd];
      (split; [done|split; [done|]]).
    + by eapply taken_zset.
    + exact (taken_zset q loc HI id (ZGroup g) (q_groups q) Hloc).
Qed.

Lemma removeFromZset_spec qname id st k text :
  zset_of_state st = Some k -> removes id (PZ k) (removeFromZset qname id st text).
Proof using HI.
  intros Hk. unfold removes, removeFromZset. rewrite Hk. apply ewp_bind.
  assert (k <> ZLease) by (destruct st; naive_solver).
  eapply ewp_mono; [by apply ZREM_spec| |done].
  intros n s' [-> Hn]. destruct (Z.eqb_spec n 0) as [->|Hn0].
  - split; [done|]. assert (Hl : loc id <> Some (PZ k)) by (by apply Hn). split; [done|].
    apply Inv_zrem_none. by rewrite (inv_zset _ _ HI).
  - assert (Hloc : loc id = Some (PZ k)).
    { destruct (decide (loc id = Some (PZ k))); [done|]. by exfalso; apply Hn0, Hn. }
    split; [done|split; [done|]]. exact (taken_zset q loc HI id k (q_groups q) Hloc).
Qed.

(** [LREM] with count 0 or 1 on the pending list, whose members are distinct. *)
Lemma LREM_pending_spec id text :
  removes id PPending (n ↞ LREM_pending id; if n =? 0 then error_reply text else eret tt).
Proof using HI.
  apply ewp_bind. unfold LREM_pending, ewp at 1. cbn [fst snd].
  destruct (LREM (q_pending q) id) as [n l] eqn:HL.
  pose proof (LREM_zero (q_pending q) id) as Hz. rewrite HL in Hz. cbn [fst] in Hz.
  rewrite (inv_pending _ _ HI) in Hz.
  assert (l = lrem id (q_pending q)) as -> by (by injection HL as _ <-).
  destruct (Z.eqb_spec n 0) as [->|Hn].
  - assert (Hl : loc id <> Some PPending) by tauto. split; [done|]. split; [done|]. cbn [fst].
    rewrite lrem_none by (by rewrite (inv_pending _ _ HI)). by apply (Inv_frame q).
  - assert (Hl : loc id = Some PPending) by (destruct (decide (loc id = Some PPending)); tauto).
    split; [done|]. split; [done|]. by eapply taken_pending.
Qed.

Lemma LREM1_pending_spec id text :
  removes id PPending (n ↞ LREM1_pending id; if n =? 0 then error_reply text else eret tt).
Proof using HI.
  replace (ebind (LREM1_pending id) _ ) with (ebind (LREM1_pending id)
    (fun n => if n =? 0 then @error_reply unit text else eret tt)) by done.
  pose proof (LREM_pending_spec id text) as H. unfold removes, ewp, ebind in *.
  assert (HE : LREM1_pending id (q, locks) = LREM_pending id (q, locks)).
  { unfold LREM1_pending, LREM_pending, LREM1, LREM. cbn [fst snd].
    by rewrite (lrem1_NoDup id (q_pending q)) by (by eapply nodup_pending). }
  by rewrite HE.
Qed.
End remove.

(** ** Commands on one task *)

(** The sorted sets an operator can take a task from. *)
Definition inspectable (k : ZKey) : Prop :=
  match k with ZLease | ZAggregationSet _ _ => False | _ => True end.

Lemma zset_of_state_ok st k : zset_of_state st = Some k -> inspectable k.
Proof. by destruct st; intros [= <-]. Qed.

Section one_task.
Context (q : QueueDB) (locks : Locks) (loc : Location) (HI : Inv q loc).

(** What follows a removal: it runs on the store without the task. *)
Lemma ewp_removes {A} id p (m : script unit) (f : unit -> script A) Q X :
  removes q locks loc id p m ->
  (forall q1, loc id = Some p -> taken id q q1 -> ewp (f tt) Q X (q1, locks)) ->
  (forall e s', s'.2 = locks -> Inv s'.1 loc -> X e s') ->
  ewp (ebind m f) Q X (q, locks).
Proof using.
  intros Hm Hf HX. apply ewp_bind. eapply ewp_mono; [exact Hm| |].
  - intros [] [q1 l1] (Hl & Hloc & Ht). cbn [fst snd] in *. subst. by apply Hf.
  - intros e s' (Hl & _ & HI'). by apply HX.
Qed.

(** The hash of a task taken from a sorted set, with a new state. *)
Lemma taken_hash_ok id p0 p st :
  loc id = Some p0 -> state_of p = Some st -> place_group p = None ->
  hash_ok p (hset [F_state st] (task_hash id q)).
Proof using HI.
  intros Hloc Hst Hg. eapply hash_ok_state; [by eapply inv_hash_at|done| |by left].
  intros g. by rewrite Hg.
Qed.

Lemma runTaskCmd_spec qname id :
  ewp (runTaskCmd qname id)
    (fun n s' => s'.2 = locks /\
       ((n = 1 /\ (exists k, inspectable k /\ loc id = Some (PZ k))
         /\ Inv s'.1 (relocate (to1 id (Some PPending)) loc))
        \/ (n <> 1 /\ s'.1 = q)))
    (fun _ s' => s'.2 = locks /\ Inv s'.1 loc) (q, locks).
Proof using HI.
  apply ewp_EXISTS; cbn [fst negb]; intros; [split; [done|by right]|].
  apply ewp_bind. unfold HGET at 1, reads, ewp at 1. cbn [fst snd].
  apply ewp_bind. unfold HGET at 1, reads, ewp at 1. cbn [fst snd].
  assert (Hput : forall k q1, inspectable k -> loc id = Some (PZ k) -> taken id q q1 ->
    ewp (_ ↞ LPUSH_pending id; _ ↞ HSET id [F_state TaskStatePending]; eret 1)
      (fun n s' => s'.2 = locks /\
         ((n = 1 /\ (exists k, inspectable k /\ loc id = Some (PZ k))
           /\ Inv s'.1 (relocate (to1 id (Some PPending)) loc))
          \/ (n <> 1 /\ s'.1 = q)))
      (fun _ s' => s'.2 = locks /\ Inv s'.1 loc) (q1, locks)).
  { intros k q1 Hk Hloc Ht. unfold ewp, ebind, LPUSH_pending, HSET, writes, eret. cbn [fst snd].
    split; [done|]. left. split; [done|]. split; [by exists k|].
    eapply put_pending; [done..|]. by eapply taken_hash_ok. }
  destruct (h_state (task_hash id q)) as [st|]; [|done].
  destruct (zset_of_state st) as [k|] eqn:Hk.
  - pose proof (zset_of_state_ok _ _ Hk) as Hi.
    destruct st; try done; (eapply ewp_removes;
      [by eapply removeFromZset_spec|intros q1 ? ?; by eapply Hput|naive_solver]).
  - destruct st; try done; try (split; [done|by right]).
    destruct (h_group (task_hash id q)) as [g|]; [|done].
    eapply ewp_removes; [by eapply removeFromGroup_spec| |naive_solver].
    intros q1 ? ?. by eapply (Hput (ZGroup g)).
Qed.

(** The archive after a task was put into it and it was trimmed. *)
Lemma put_archive id p0 q1 now_sec cutoff max_size :
  loc id = Some p0 -> taken id q q1 ->
  ewp (_ ↞ ZADD_ ZArchived now_sec id; _ ↞ HSET id [F_state TaskStateArchived];
       _ ↞ trimArchive cutoff max_size; eret 1)
    (fun n s' => s'.2 = locks /\ n = 1 /\ exists keep,
       Inv s'.1 (trim keep (relocate (to1 id (Some (PZ ZArchived))) loc))
       /\ zget ZArchived s'.1 = trimmed (zadd now_sec id (zget ZArchived q1)) cutoff max_size)
    (fun _ _ => False) (q1, locks).
Proof using HI.
  intros Hloc Ht.
  unfold ewp, trimArchive, ebind, ZADD_, ZADD, HSET, ZREMRANGEBYSCORE_, ZREMRANGEBYRANK_, writes, eret.
  cbn [fst snd]. split; [done|]. split; [done|].
  set (q2 := hset_task id _ _).
  assert (HA : Inv q2 (relocate (to1 id (Some (PZ ZArchived))) loc)).
  { eapply put_zset; [done..|by eapply taken_hash_ok|done]. }
  assert (Hz2 : zget ZArchived q2 = zadd now_sec id (zget ZArchived q1)).
  { exact (zget_zput_eq ZArchived _ _). }
  rewrite zput_zput, !zget_zput_eq, Hz2. eexists. split; [|done].
  apply Inv_trim; [done|]. rewrite Hz2. apply sublist_trimmed.
Qed.

(** The places an operator can archive or delete a task from. *)
Definition takeable (p : Place) : Prop :=
  match p with PPending => True | PActive => False | PZ k => inspectable k end.

Lemma archiveTaskCmd_spec qname id now_sec cutoff max_size :
  ewp (archiveTaskCmd qname id now_sec cutoff max_size)
    (fun n s' => s'.2 = locks /\
       ((n = 1 /\ (exists p, takeable p /\ p <> PZ ZArchived /\ loc id = Some p)
         /\ exists keep, Inv s'.1 (trim keep (relocate (to1 id (Some (PZ ZArchived))) loc)))
        \/ (n <> 1 /\ s'.1 = q)))
    (fun _ s' => s'.2 = locks /\ Inv s'.1 loc) (q, locks).
Proof using HI.
  apply ewp_EXISTS; cbn [fst negb]; intros; [split; [done|by right]|].
  apply ewp_bind. unfold HGET at 1, reads, ewp at 1. cbn [fst snd].
  apply ewp_bind. unfold HGET at 1, reads, ewp at 1. cbn [fst snd].
  assert (Hput : forall p q1, takeable p -> p <> PZ ZArchived -> loc id = Some p -> taken id q q1 ->
    ewp (_ ↞ ZADD_ ZArchived now_sec id; _ ↞ HSET id [F_state TaskStateArchived];
         _ ↞ trimArchive cutoff max_size; eret 1)
      (fun n s' => s'.2 = locks /\
         ((n = 1 /\ (exists p, takeable p /\ p <> PZ ZArchived /\ loc id = Some p)
           /\ exists keep, Inv s'.1 (trim keep (relocate (to1 id (Some (PZ ZArchived))) loc)))
          \/ (n <> 1 /\ s'.1 = q)))
      (fun _ s' => s'.2 = locks /\ Inv s'.1 loc) (q1, locks)).
  { intros p q1 Hp Hna Hloc Ht. eapply ewp_mono; [by eapply put_archive|naive_solver|done]. }
  destruct (h_state (task_hash id q)) as [st|]; [|done].
  destruct st; try (split; [done|by right]).
  - eapply ewp_removes; [by eapply LREM1_pending_spec| |naive_solver].
    intros q1 ? ?. by eapply (Hput PPending).
  - eapply ewp_removes; [by eapply removeFromZset_spec| |naive_solver].
    intros q1 ? ?. by eapply (Hput (PZ ZScheduled)).
  - eapply ewp_removes; [by eapply removeFromZset_spec| |naive_solver].
    intros q1 ? ?. by eapply (Hput (PZ ZRetry)).
  - eapply ewp_removes; [by eapply removeFromZset_spec| |naive_solver].
    intros q1 ? ?. by eapply (Hput (PZ ZCompleted)).
  - destruct (h_group (task_hash id q)) as [g|]; [|done].
    eapply ewp_removes; [by eapply removeFromGroup_spec| |naive_solver].
    intros q1 ? ?. by eapply (Hput (PZ (ZGroup g))).
Qed.

(** Releasing the lock of a task whose hash names one. *)
Definition released_lock (now : Z) (id : gostring) (q0 : QueueDB) : Locks :=
  match h_unique_key (task_hash id q0) with
  | Some ((_ :: _) as k) => lock_release now locks k id
  | _ => locks
  end.

Lemma releaseTaskLock_run now id q0 :
  releaseTaskLock now id (q0, locks) = (Ok tt, (q0, released_lock now id q0)).
Proof using.
  unfold releaseTaskLock, ebind, HGET, reads, released_lock. cbn [fst snd].
  by destruct (h_unique_key (task_hash id q0)) as [[|a k]|].
Qed.

Lemma deleteTaskCmd_spec now qname id :
  ewp (deleteTaskCmd now qname id)
    (fun n s' =>
       (n = 1 /\ (exists p, takeable p /\ loc id = Some p)
        /\ s'.2 = released_lock now id q /\ Inv s'.1 (relocate (to1 id None) loc))
       \/ (n <> 1 /\ s' = (q, locks)))
    (fun _ s' => s'.2 = locks /\ Inv s'.1 loc) (q, locks).
Proof using HI.
  apply ewp_EXISTS; cbn [fst negb]; intros; [by right|].
  apply ewp_bind. unfold HGET at 1, reads, ewp at 1. cbn [fst snd].
  apply ewp_bind. unfold HGET at 1, reads, ewp at 1. cbn [fst snd].
  assert (Hput : forall p q1, takeable p -> loc id = Some p -> taken id q q1 ->
    ewp (_ ↞ releaseTaskLock now id; DEL_task id)
      (fun n s' =>
         (n = 1 /\ (exists p, takeable p /\ loc id = Some p)
          /\ s'.2 = released_lock now id q /\ Inv s'.1 (relocate (to1 id None) loc))
         \/ (n <> 1 /\ s' = (q, locks)))
      (fun _ s' => s'.2 = locks /\ Inv s'.1 loc) (q1, locks)).
  { intros p q1 Hp Hloc Ht. unfold ewp, ebind. rewrite releaseTaskLock_run. unfold DEL_task.
    cbn [fst snd]. destruct (inv_hash _ _ HI _ _ Hloc) as (h' & Hh & _).
    rewrite (tk_tasks _ _ _ Ht), Hh, bool_decide_eq_true_2 by done. left. split; [done|].
    split; [by exists p|]. split.
    - unfold released_lock, task_hash. by rewrite (tk_tasks _ _ _ Ht).
    - by eapply put_nowhere. }
  destruct (h_state (task_hash id q)) as [st|]; [|done].
  destruct st; try (by right).
  - eapply ewp_removes; [by eapply LREM_pending_spec| |naive_solver].
    intros q1 ? ?. by eapply (Hput PPending).
  - eapply ewp_removes; [by eapply removeFromZset_spec| |naive_solver].
    intros q1 ? ?. by eapply (Hput (PZ ZScheduled)).
  - eapply ewp_removes; [by eapply removeFromZset_spec| |naive_solver].
    intros q1 ? ?. by eapply (Hput (PZ ZRetry)).
  - eapply ewp_removes; [by eapply removeFromZset_spec| |naive_solver].
    intros q1 ? ?. by eapply (Hput (PZ ZArchived)).
  - eapply ewp_removes; [by eapply removeFromZset_spec| |naive_solver].
    intros q1 ? ?. by eapply (Hput (PZ ZCompleted)).
  - destruct (h_group (task_hash id q)) as [g|]; [|done].
    eapply ewp_removes; [by eapply removeFromGroup_spec| |naive_solver].
    intros q1 ? ?. by eapply (Hput (PZ (ZGroup g))).
Qed.
End one_task.

(** ** Commands on all tasks of a place *)
Section all_tasks.
Context (q : QueueDB) (locks : Locks) (loc : Location) (HI : Inv q loc).

Lemma members_at p x : p <> PZ ZLease -> x ∈ members p q <-> loc x = Some p.
Proof using HI. intros Hp. rewrite (inv_in _ _ HI). by destruct p as [| |[]]. Qed.

(** All tasks of [p] go to [dst], their state set. *)
Lemma Inv_bulk p dst st q' :
  p <> PActive -> p <> PZ ZLease -> dst <> p -> dst <> PActive ->
  state_of dst = Some st -> place_group dst = None ->
  members p q' = [] ->
  (forall x, x ∈ members dst q' <-> x ∈ members p q \/ x ∈ members dst q) ->
  NoDup (members dst q') ->
  (forall p', p' <> p -> p' <> dst -> members p' q' = members p' q) ->
  q_tasks q' = hset_all [F_state st] (members p q) q ->
  q_aggregation_sets q' = q_aggregation_sets q ->
  Inv q' (relocate (to_all (members p q) (Some dst)) loc).
Proof using HI.
  intros Hna Hnl Hne Hda Hst Hg Hp Hd Hnd Hother Ht Htr.
  assert (Hdl : dst <> PZ ZLease) by (by intros ->).
  assert (Hlook : forall x, q_tasks q' !! x = if decide (x ∈ members p q)
     then Some (hset [F_state st] (task_hash x q)) else q_tasks q !! x).
  { intros x. rewrite Ht. apply lookup_hset_all. apply HI. }
  apply (Inv_update q); try done; unfold to_all.
  - intros p' x. pose proof (members_at p x Hnl) as Hat. destruct (decide (p' = p)) as [->|Hp1].
    { rewrite Hp, elem_of_nil. case_decide; [|done]. destruct p as [| |[]]; cbn; naive_solver. }
    destruct (decide (p' = dst)) as [->|Hp2].
    { rewrite Hd. case_decide; [|naive_solver]. destruct dst as [| |[]]; cbn; naive_solver. }
    rewrite Hother by done. case_decide as Hx; [|done]. rewrite (inv_in _ _ HI).
    apply Hat in Hx. rewrite Hx. destruct p' as [| |[]]; cbn; naive_solver.
  - intros p'. destruct (decide (p' = p)) as [->|Hp1]; [rewrite Hp; constructor|].
    destruct (decide (p' = dst)) as [->|Hp2]; [done|]. rewrite Hother by done. apply HI.
  - intros x. rewrite Hlook. by case_decide.
  - intros x p'. case_decide as Hx; [|done]. intros [= <-]. rewrite Hlook, decide_True by done.
    eexists. split; [done|]. apply members_at in Hx; [|done].
    eapply hash_ok_state; [by eapply inv_hash_at|done| |by left]. intros g. by rewrite Hg.
  - intros x h. by case_decide.
  - intros g s x. fold (to_all (members p q) (Some dst)). rewrite relocate_to_all, Htr.
    case_decide; [|apply HI]. intros [= ->]. by cbn in Hg.
Qed.

Lemma runAll_core src gs :
  inspectable src ->
  ewp (ids ↞ ZRANGE_ src 0 (-1); _ ↞ pendAll (zmembers ids); _ ↞ DEL_zset src;
       _ ↞ writes gs; eret (ZCARD ids))
    (fun _ s' => s'.2 = locks /\ exists q2, s'.1 = gs q2 /\
       Inv q2 (relocate (to_all (zmembers (zget src q)) (Some PPending)) loc))
    (fun _ _ => False) (q, locks).
Proof using HI.
  intros Hsrc. apply ewp_bind. unfold ZRANGE_, reads, ewp at 1. cbn [fst snd]. rewrite ZRANGE_all.
  apply ewp_bind. eapply ewp_mono; [apply pendAll_spec| |done].
  intros ? [q1 l1] (Hl & Ht & Hp & Ha & Hg & Hs & Hz). cbn [fst snd] in *. subst l1.
  unfold ewp, ebind, DEL_zset, writes, eret. cbn [fst snd]. split; [done|].
  eexists. split; [done|].
  assert (Hne : src <> ZLease) by (by intros ->).
  eapply (Inv_bulk (PZ src) PPending); try done.
  - naive_solver.
  - store_simpl. by rewrite decide_True.
  - intros x. store_simpl. rewrite Hp, elem_of_app, elem_of_reverse. done.
  - store_simpl. rewrite Hp. apply NoDup_app. split; [|split].
    + rewrite reverse_Permutation. by eapply nodup_zset.
    + intros x Hx Hy. rewrite elem_of_reverse in Hx. apply (inv_zset _ _ HI) in Hx; [|done].
      apply (inv_pending _ _ HI) in Hy. congruence.
    + by eapply nodup_pending.
  - intros [| |k] H1 H2; store_simpl; [done|done|]. rewrite decide_False by congruence.
    unfold zget. by rewrite Hz.
Qed.

Lemma runAllCmd_spec src :
  inspectable src ->
  ewp (runAllCmd src)
    (fun _ s' => s'.2 = locks /\
       Inv s'.1 (relocate (to_all (zmembers (zget src q)) (Some PPending)) loc))
    (fun _ _ => False) (q, locks).
Proof using HI.
  intros Hsrc. pose proof (runAll_core src (fun q => q) Hsrc) as H.
  unfold runAllCmd, ewp, ebind, writes in *.
  destruct (ZRANGE_ src 0 (-1) (q, locks)) as [[ids|e|x|] s1]; try done.
  destruct (pendAll (zmembers ids) s1) as [[u|e|x|] s2]; try done.
  cbn in *. destruct H as [Hl (q2 & -> & HI2)]. done.
Qed.

Lemma runAllAggregatingCmd_spec gname :
  ewp (runAllAggregatingCmd gname)
    (fun _ s' => s'.2 = locks /\
       Inv s'.1 (relocate (to_all (zmembers (zget (ZGroup gname) q)) (Some PPending)) loc))
    (fun _ _ => False) (q, locks).
Proof using HI.
  eapply ewp_mono; [by apply (runAll_core (ZGroup gname))| |done].
  intros n s' (Hl & q2 & -> & HI2). split; [done|]. by apply Inv_groups.
Qed.

(** *** Archiving *)

Lemma zmembers_stamped (ids : list gostring) (t : Z) : zmembers (map (fun id => (id, t)) ids) = ids.
Proof using. unfold zmembers. rewrite map_map. apply map_id. Qed.

(** The queue after all tasks of [p] were archived and the archive was trimmed to [z]. *)
Lemma Inv_archived p now_sec z q' :
  p <> PActive -> p <> PZ ZLease -> p <> PZ ZArchived ->
  (forall g s, p <> PZ (ZAggregationSet g s)) ->
  let full := zadd_all (map (fun id => (id, now_sec)) (members p q)) (zget ZArchived q) in
  sublist z full -> zget ZArchived q' = z -> members p q' = [] ->
  (forall p', p' <> p -> p' <> PZ ZArchived -> members p' q' = members p' q) ->
  q_tasks q' = hset_all [F_state TaskStateArchived] (members p q) q ->
  q_aggregation_sets q' = q_aggregation_sets q ->
  Inv q' (trim (zmembers z) (relocate (to_all (members p q) (Some (PZ ZArchived))) loc)).
Proof using HI.
  intros Hna Hnl Hnr Hng full Hz Hzq Hp Hother Ht Htr.
  assert (HM : Inv (zput ZArchived full q') (relocate (to_all (members p q) (Some (PZ ZArchived))) loc)).
  { eapply (Inv_bulk p (PZ ZArchived)); try done.
    - destruct p as [| |k]; store_simpl; [done..|]. rewrite decide_False by congruence. exact Hp.
    - intros x. cbn [members]. rewrite zget_zput_eq. unfold full.
      rewrite elem_of_zadd_all. by rewrite zmembers_stamped.
    - cbn [members]. rewrite zget_zput_eq. apply NoDup_zadd_all. by eapply nodup_zset.
    - intros p' H1 H2. rewrite <- (Hother p') by done. destruct p' as [| |k]; store_simpl; [done..|].
      by rewrite decide_False by congruence. }
  eapply (Inv_frame (zput ZArchived z (zput ZArchived full q'))); try done.
  - intros k. rewrite zput_zput, zget_zput. case_decide; [by subst|done].
  - apply Inv_trim; [done|]. by rewrite zget_zput_eq.
Qed.

Lemma archiveAll_core p ids now_sec cutoff max_size (clear : QueueDB -> QueueDB) :
  p <> PActive -> p <> PZ ZLease -> p <> PZ ZArchived ->
  (forall g s, p <> PZ (ZAggregationSet g s)) -> ids = members p q ->
  (forall q0, members p (clear q0) = [] /\ q_tasks (clear q0) = q_tasks q0
     /\ q_aggregation_sets (clear q0) = q_aggregation_sets q0
     /\ (forall p', p' <> p -> members p' (clear q0) = members p' q0)
     /\ zget ZArchived (clear q0) = zget ZArchived q0) ->
  ewp (_ ↞ archiveIds ids now_sec; _ ↞ trimArchive cutoff max_size; writes clear)
    (fun _ s' => s'.2 = locks /\ exists keep,
       Inv s'.1 (trim keep (relocate (to_all ids (Some (PZ ZArchived))) loc)))
    (fun _ _ => False) (q, locks).
Proof using HI.
  intros Hna Hnl Hnr Hng -> Hclear. apply ewp_bind. eapply ewp_mono; [apply archiveIds_spec| |done].
  intros ? [q1 l1] (Hl & Ht & Hp & Ha & Hg & Hs & Hz). cbn [fst snd] in *. subst l1.
  unfold ewp, trimArchive, ebind, ZREMRANGEBYSCORE_, ZREMRANGEBYRANK_, writes. cbn [fst snd].
  split; [done|]. rewrite zput_zput, zget_zput_eq.
  set (z := ZREMRANGEBYRANK _ _ _). destruct (Hclear (zput ZArchived z q1)) as (H1 & H2 & H3 & H4 & H5).
  exists (zmembers z). eapply Inv_archived; try done.
  - subst z. rewrite Hz, decide_True by done. apply sublist_trimmed.
  - by rewrite H5, zget_zput_eq.
  - intros p' Hp1 Hp2. rewrite H4 by done. destruct p' as [| |k]; store_simpl; [done..|].
    rewrite decide_False by congruence. rewrite Hz. by rewrite decide_False by congruence.
  - by rewrite H2.
  - by rewrite H3.
Qed.

(** The archiving scripts: all tasks of [p] are archived, up to the trimming. *)
Definition archives (p : Place) (m : script Z) : Prop :=
  ewp m (fun _ s' => s'.2 = locks /\ exists keep,
           Inv s'.1 (trim keep (relocate (to_all (members p q) (Some (PZ ZArchived))) loc)))
    (fun _ _ => False) (q, locks).

(** Clearing a sorted set, with the name of its group or without. *)
Lemma clear_zset_ok k (f : QueueDB -> QueueDB) :
  k <> ZArchived -> (forall q0, f q0 = q0 \/ exists g, f q0 = set_groups g q0) -> forall q0,
  let q1 := f (set_zsets (delete k (q_zsets q0)) q0) in
  members (PZ k) q1 = [] /\ q_tasks q1 = q_tasks q0
  /\ q_aggregation_sets q1 = q_aggregation_sets q0
  /\ (forall p', p' <> PZ k -> members p' q1 = members p' q0)
  /\ zget ZArchived q1 = zget ZArchived q0.
Proof using.
  intros Hk Hf q0. cbv zeta. destruct (Hf (set_zsets (delete k (q_zsets q0)) q0)) as [->|[g ->]].
  all: repeat split; [store_simpl; by rewrite decide_True| |store_simpl; by rewrite decide_False].
  all: intros [| |k'] Hp; store_simpl; [done..|]; by rewrite decide_False by congruence.
Qed.

Lemma ewp_assoc {A} (m1 m2 : script unit) (f g : QueueDB -> QueueDB) (r : A) Q X s :
  ewp (_ ↞ m1; _ ↞ m2; writes (fun q0 => g (f q0))) (fun _ => Q r) X s ->
  ewp (_ ↞ m1; _ ↞ m2; _ ↞ writes f; _ ↞ writes g; eret r) Q X s.
Proof using.
  unfold ewp, ebind, writes, eret. destruct (m1 s) as [[u|e|x|] s1]; try done.
  by destruct (m2 s1) as [[u'|e|x|] s2].
Qed.

Lemma archiveAllCmd_spec src now_sec cutoff max_size :
  inspectable src -> src <> ZArchived -> archives (PZ src) (archiveAllCmd src now_sec cutoff max_size).
Proof using HI.
  intros Hi Hsrc. apply ewp_bind. unfold ZRANGE_, reads, ewp at 1. cbn [fst snd]. rewrite ZRANGE_all.
  apply (ewp_assoc _ _ (fun q0 => set_zsets (delete src (q_zsets q0)) q0) (fun q0 => q0)).
  eapply ewp_mono; [apply (archiveAll_core (PZ src)); try done| |done].
  - by intros [= ->].
  - naive_solver.
  - by intros g s [= ->].
  - apply (clear_zset_ok src (fun q0 => q0)); [done|by left].
  - done.
Qed.

Lemma archiveAllAggregatingCmd_spec gname now_sec cutoff max_size :
  archives (PZ (ZGroup gname)) (archiveAllAggregatingCmd gname now_sec cutoff max_size).
Proof using HI.
  apply ewp_bind. unfold ZRANGE_, reads, ewp at 1. cbn [fst snd]. rewrite ZRANGE_all.
  apply (ewp_assoc _ _ (fun q0 => set_zsets (delete (ZGroup gname) (q_zsets q0)) q0)
           (fun q0 => set_groups (q_groups q0 ∖ {[ gname ]}) q0)).
  eapply ewp_mono; [apply (archiveAll_core (PZ (ZGroup gname))); try done| |done].
  - apply (clear_zset_ok (ZGroup gname) (fun q0 => set_groups (q_groups q0 ∖ {[ gname ]}) q0)); [done|].
    eauto.
  - done.
Qed.

Lemma archiveAllPendingCmd_spec now_sec cutoff max_size :
  archives PPending (archiveAllPendingCmd now_sec cutoff max_size).
Proof using HI.
  apply ewp_bind. unfold reads, ewp at 1. cbn [fst snd].
  apply (ewp_assoc _ _ (set_pending []) (fun q0 => q0)).
  eapply ewp_mono; [apply (archiveAll_core PPending); try done| |done].
  - intros q0. repeat split. by intros [| |k].
  - done.
Qed.

(** *** Deleting *)

(** The deleting scripts: all tasks of [p] are gone; locks can only be released. *)
Definition deletes (p : Place) (m : script Z) : Prop :=
  ewp m (fun _ s' => s'.2 ⊆ locks /\ Inv s'.1 (relocate (to_all (members p q) None) loc))
    (fun _ _ => False) (q, locks).

Lemma lock_release_subseteq now (l : Locks) k id : lock_release now l k id ⊆ l.
Proof using. unfold lock_release. case_bool_decide; [apply delete_subseteq|done]. Qed.

Lemma release_delete_loop now ids q0 l0 :
  ewp (efor (fun id => _ ↞ releaseTaskLock now id; _ ↞ DEL_task id; eret tt) ids)
    (fun _ s' => s'.2 ⊆ l0 /\ tasks_are (delete_all ids (q_tasks q0)) q0 s'.1)
    (fun _ _ => False) (q0, l0).
Proof using.
  revert q0 l0. induction ids as [|id ids IH]; intros q0 l0; [done|].
  simpl. apply ewp_bind. unfold ewp at 1, ebind. rewrite releaseTaskLock_run. unfold DEL_task, eret.
  cbn [fst snd]. eapply ewp_mono; [apply IH| |done]. intros ? s' [Hl []]. split; [|by split].
  etransitivity; [exact Hl|]. unfold released_lock.
  destruct (h_unique_key _) as [[|? ?]|]; [done|apply lock_release_subseteq|done].
Qed.

(** The queue after the hashes of [p] were deleted and [p] was cleared. *)
Lemma Inv_deleted p (clear : QueueDB -> QueueDB) q1 :
  p <> PActive -> p <> PZ ZLease -> (forall g s, p <> PZ (ZAggregationSet g s)) ->
  tasks_are (delete_all (members p q) (q_tasks q)) q q1 ->
  (forall q0, members p (clear q0) = [] /\ q_tasks (clear q0) = q_tasks q0
     /\ q_aggregation_sets (clear q0) = q_aggregation_sets q0
     /\ (forall p', p' <> p -> members p' (clear q0) = members p' q0)) ->
  Inv (clear q1) (relocate (to_all (members p q) None) loc).
Proof using HI.
  intros Hna Hnl Hng [H1 H2 H3 H4 H5 H6] Hclear. destruct (Hclear q1) as (C1 & C2 & C3 & C4).
  apply (Inv_clear q loc HI p); try done.
  - intros p' Hp'. rewrite C4 by done. destruct p' as [| |k]; cbn; [done..|]. by rewrite H6.
  - intros x. rewrite C2, H1. apply lookup_delete_all.
  - intros k Hk _. by rewrite C3, H5.
Qed.

Lemma clear_zset_ok' k (f : QueueDB -> QueueDB) :
  (forall q0, f q0 = q0 \/ exists g, f q0 = set_groups g q0) -> forall q0,
  let q1 := set_zsets (delete k (q_zsets (f q0))) (f q0) in
  members (PZ k) q1 = [] /\ q_tasks q1 = q_tasks q0
  /\ q_aggregation_sets q1 = q_aggregation_sets q0
  /\ (forall p', p' <> PZ k -> members p' q1 = members p' q0).
Proof using.
  intros Hf q0. cbv zeta. destruct (Hf q0) as [->|[g ->]].
  all: repeat split; [store_simpl; by rewrite decide_True|].
  all: intros [| |k'] Hp; store_simpl; [done..|]; by rewrite decide_False by congruence.
Qed.

Lemma deleteAllCmd_spec now src : inspectable src -> deletes (PZ src) (deleteAllCmd now src).
Proof using HI.
  intros Hsrc. apply ewp_bind. unfold ZRANGE_, reads, ewp at 1. cbn [fst snd]. rewrite ZRANGE_all.
  apply ewp_bind. eapply ewp_mono; [apply release_delete_loop| |done].
  intros ? [q1 l1] [Hl Ht]. cbn [fst snd] in *.
  unfold ewp, ebind, DEL_zset, writes, eret. cbn [fst snd]. split; [done|].
  apply (Inv_deleted (PZ src) (fun q0 => set_zsets (delete src (q_zsets q0)) q0)); try done.
  - naive_solver.
  - by intros g s [= ->].
  - apply (clear_zset_ok' src (fun q0 => q0)). by left.
Qed.

Lemma deleteAllAggregatingCmd_spec gname :
  deletes (PZ (ZGroup gname)) (deleteAllAggregatingCmd gname).
Proof using HI.
  apply ewp_bind. unfold ZRANGE_, reads, ewp at 1. cbn [fst snd]. rewrite ZRANGE_all.
  apply ewp_bind. eapply ewp_mono; [apply delete_loop| |done].
  intros ? [q1 l1] [Hl Ht]. cbn [fst snd] in *. subst l1.
  unfold ewp, ebind, DEL_zset, SREM_group, writes, eret. cbn [fst snd]. split; [done|].
  apply (Inv_deleted (PZ (ZGroup gname)) (fun q0 =>
           let q0 := set_groups (q_groups q0 ∖ {[ gname ]}) q0 in
           set_zsets (delete (ZGroup gname) (q_zsets q0)) q0)); try done.
  apply (clear_zset_ok' (ZGroup gname) (fun q0 => set_groups (q_groups q0 ∖ {[ gname ]}) q0)). eauto.
Qed.

Lemma deleteAllPendingCmd_spec : deletes PPending deleteAllPendingCmd.
Proof using HI.
  apply ewp_bind. unfold reads, ewp at 1. cbn [fst snd].
  apply ewp_bind. eapply ewp_mono; [apply delete_loop| |done].
  intros ? [q1 l1] [Hl Ht]. cbn [fst snd] in *. subst l1.
  unfold ewp, ebind, writes, eret. cbn [fst snd]. split; [done|].
  apply (Inv_deleted PPending (set_pending [])); try done.
  intros q0. repeat split. by intros [| |k].
Qed.

(** *** Removing the queue *)

(** The places whose keys [RemoveQueue] deletes. *)
Definition removable (p : Place) : bool :=
  match p with
  | PPending | PActive | PZ ZScheduled | PZ ZRetry | PZ ZArchived => true
  | _ => false
  end.

Lemma elem_of_removable_ids x :
  x ∈ removable_ids q <-> exists p, removable p = true /\ loc x = Some p.
Proof using HI.
  unfold removable_ids. rewrite !elem_of_app, (inv_pending _ _ HI), (inv_active _ _ HI).
  rewrite !(inv_zset _ _ HI) by done. split.
  - intros [H|[H|[H|[H|H]]]]; eexists; (split; [|exact H]); done.
  - intros (p & Hp & Hx). destruct p as [| |[]]; try done; tauto.
Qed.

Lemma dropQueueKeys_run q0 l0 : exists q1, dropQueueKeys (q0, l0) = (Ok tt, (q1, l0))
  /\ q_tasks q1 = q_tasks q0 /\ q_aggregation_sets q1 = q_aggregation_sets q0
  /\ (forall p, members p q1 = if removable p || bool_decide (p = PZ ZLease) then [] else members p q0).
Proof using.
  eexists. split; [reflexivity|]. split; [done|]. split; [done|].
  intros [| |k]; [done|done|]. cbn [fst]. store_simpl. repeat (case_decide; subst; [done|]).
  by destruct k.
Qed.

(** Every task in a list or set that is deleted is gone; the lease set has to be empty with the
    active list. *)
Lemma Inv_dropped q1 :
  q_active q = [] -> q_tasks q1 = delete_all (removable_ids q) (q_tasks q) ->
  q_aggregation_sets q1 = q_aggregation_sets q ->
  (forall p, members p q1 = if removable p || bool_decide (p = PZ ZLease) then [] else members p q) ->
  Inv q1 (relocate (to_all (removable_ids q) None) loc).
Proof using HI.
  intros Hact Ht Htr Hm.
  assert (Hna : forall x, loc x <> Some PActive).
  { intros x Hx. apply (inv_active _ _ HI) in Hx. rewrite Hact in Hx. by apply elem_of_nil in Hx. }
  apply (Inv_update q); try done; unfold to_all.
  - intros p x. rewrite Hm. pose proof (elem_of_removable_ids x) as Hr. specialize (Hna x).
    pose proof (inv_in _ _ HI p x) as Hin.
    destruct (decide (x ∈ removable_ids q)) as [Hx|Hx].
    + apply Hr in Hx as (p0 & Hp0 & Hx). rewrite Hx in Hin, Hna.
      destruct (removable p || bool_decide (p = PZ ZLease)) eqn:Hp.
      * rewrite elem_of_nil. split; [done|]. by destruct p as [| |[]].
      * rewrite Hin. destruct p as [| |[]]; try done; cbn; (split; [intros [= ->]|]); done.
    + destruct (removable p || bool_decide (p = PZ ZLease)) eqn:Hp; [|done].
      rewrite elem_of_nil, Hin. split; [done|]. intros Hat. apply Hx, Hr.
      destruct p as [| |[]]; try done; cbn in Hat; eexists; (split; [|exact Hat]); done.
  - intros p. rewrite Hm. destruct (_ || _); [constructor|apply HI].
  - intros x. rewrite Ht, lookup_delete_all. by case_decide.
  - intros x p. by case_decide.
  - intros x h. rewrite Ht, lookup_delete_all. by case_decide.
  - intros g s x. fold (to_all (removable_ids q) None). rewrite relocate_to_all, Htr.
    case_decide; [done|apply HI].
Qed.

(** The outcome of the removal: refused, or all tasks it looks at are gone. *)
Definition removes_queue (m : script Z) : Prop :=
  ewp m (fun n s' => s'.2 = locks /\
      ((n = 1 /\ q_active q = [] /\ Inv s'.1 (relocate (to_all (removable_ids q) None) loc))
       \/ (n <> 1 /\ s'.1 = q)))
    (fun _ _ => False) (q, locks).

Lemma remove_core :
  q_active q = [] ->
  ewp (_ ↞ delIds (removable_ids q); _ ↞ delIds (removable_ids q); _ ↞ dropQueueKeys; eret 1)
    (fun n s' => s'.2 = locks /\
      ((n = 1 /\ q_active q = [] /\ Inv s'.1 (relocate (to_all (removable_ids q) None) loc))
       \/ (n <> 1 /\ s'.1 = q)))
    (fun _ _ => False) (q, locks).
Proof using HI.
  intros Hact. apply ewp_bind. eapply ewp_mono; [apply delete_loop| |done].
  intros ? [q1 l1] [Hl [A1 A2 A3 A4 A5 A6]]. cbn [fst snd] in *. subst l1.
  apply ewp_bind. eapply ewp_mono; [apply delete_loop| |done].
  intros ? [q2 l2] [Hl [B1 B2 B3 B4 B5 B6]]. cbn [fst snd] in *. subst l2.
  destruct (dropQueueKeys_run q2 locks) as (q3 & Hrun & C1 & C2 & C3).
  unfold ewp, ebind. rewrite Hrun. cbn. split; [done|]. left. split; [done|]. split; [done|].
  apply Inv_dropped; [done| |congruence|].
  - rewrite C1, B1. apply map_eq. intros x. rewrite !lookup_delete_all, A1, lookup_delete_all.
    by case_decide.
  - intros p. rewrite C3. destruct (_ || _); [done|].
    destruct p as [| |k]; cbn; [congruence..|]. by rewrite B6, A6.
Qed.

Lemma removeQueueForceCmd_spec : removes_queue removeQueueForceCmd.
Proof using HI.
  apply ewp_bind. unfold reads, ewp at 1. cbn [fst snd].
  destruct (Z.ltb_spec 0 (LLEN (q_active q))) as [Hlt|Hle]; [split; [done|by right]|].
  apply ewp_bind. unfold reads, ewp at 1. cbn [fst snd]. apply remove_core.
  apply length_zero_iff_nil. unfold LLEN in Hle. lia.
Qed.

Lemma removeQueueCmd_spec : removes_queue removeQueueCmd.
Proof using HI.
  apply ewp_bind. unfold reads, ewp at 1. cbn [fst snd].
  destruct (Z.ltb_spec 0 (LLEN (removable_ids q))) as [Hlt|Hle]; [split; [done|by right]|].
  apply remove_core. unfold LLEN, removable_ids in Hle. rewrite !length_app in Hle.
  apply length_zero_iff_nil. lia.
Qed.
End all_tasks.
