(* ===== verification/AsynqDb.v ===== *)
(** The invariant of the whole database, and the loops of [rdb.go] that repeat a script: forwarding
    of due tasks and deletion of expired ones. *)
From stdpp Require Import base list strings numbers option gmap.
From S2P Require Import Prelude.
From S2P Require Import Redis.
From S2P Require Import AsynqBase.
From S2P Require Import AsynqStore.
From S2P Require Import AsynqRdb.
From S2P Require Import AsynqInspect.
From S2P Require Import AsynqInv.
From S2P Require Import AsynqScripts.
From S2P Require Import AsynqMoves.

(** ** One queue of the database *)

Definition put_store (qname : gostring) (s : QueueDB * Locks) (db : DB) : DB :=
  {| db_queues := <[qname := s.1]> (db_queues db); db_locks := s.2; db_all := db_all db;
     db_registry := db_registry db |}.

Lemma queue_of_put qname qname' s db :
  queue_of qname' (put_store qname s db) = if decide (qname' = qname) then s.1 else queue_of qname' db.
Proof.
  unfold queue_of, put_store. cbn [db_queues]. case_decide as Hq.
  - subst. by rewrite lookup_insert_eq.
  - by rewrite lookup_insert_ne by congruence.
Qed.

Lemma ewp_run_script {A} qname (m : script A) Q X db :
  ewp m (fun a s' => Q a (put_store qname s' db)) (fun e s' => X e (put_store qname s' db))
    (queue_of qname db, db_locks db) ->
  ewp (run_script qname m) Q X db.
Proof.
  unfold ewp, run_script, put_store. by destruct (m _) as [[a|e|p|] [q l]].
Qed.

Lemma put_store_same qname db qname' : queue_of qname' (put_store qname (queue_of qname db, db_locks db) db) = queue_of qname' db.
Proof. rewrite queue_of_put. by case_decide; subst. Qed.

(** ** The invariant of the database *)

Definition DLocation : Type := gostring -> Location.

Definition DInv (db : DB) (L : DLocation) : Prop := forall qname, Inv (queue_of qname db) (L qname).

(** The location of one queue changed. *)
Definition dset (qname : gostring) (loc : Location) (L : DLocation) : DLocation :=
  fun qname' => if decide (qname' = qname) then loc else L qname'.

Lemma DInv_put qname s loc db L :
  DInv db L -> Inv s.1 loc -> DInv (put_store qname s db) (dset qname loc L).
Proof.
  intros HD HI qname'. rewrite queue_of_put. unfold dset. case_decide; [done|]. apply HD.
Qed.

Lemma DInv_put_same qname s db L :
  DInv db L -> Inv s.1 (L qname) -> DInv (put_store qname s db) L.
Proof.
  intros HD HI qname'. rewrite queue_of_put. case_decide; [by subst|]. apply HD.
Qed.

Lemma DInv_queues db db' L : db_queues db' = db_queues db -> DInv db L -> DInv db' L.
Proof. intros Hq HD qname. unfold queue_of. rewrite Hq. apply HD. Qed.

Lemma DInv_empty : DInv empty_db (fun _ _ => None).
Proof. intros qname. unfold queue_of, empty_db. cbn. rewrite lookup_empty. apply Inv_empty. Qed.

(** ** Forwarding all due tasks *)

(** The tasks of a delayed set that are due, in the order of the set. *)
Definition due (src : ZKey) (now : Z) (q : QueueDB) : list gostring :=
  zmembers (ZRANGEBYSCORE (zget src q) (Unix now)).

Lemma elem_of_zmembers_fst (e : gostring * Z) (z : zset gostring) : e ∈ z -> e.1 ∈ zmembers z.
Proof. intros He. apply elem_of_zmembers. exists e.2. by destruct e. Qed.

Lemma filter_out_all (z z' : zset gostring) :
  Forall (fun e => e.1 ∈ zmembers z) z' -> filter (fun e => e.1 ∉ zmembers z) z' = [].
Proof. induction 1 as [|e z' He _ IH]; [done|]. by rewrite filter_cons, decide_False by tauto. Qed.

Lemma filter_drop_first (l : zset gostring) n :
  NoDup (zmembers l) -> filter (fun e => e.1 ∉ zmembers (take n l)) l = drop n l.
Proof.
  intros Hnd.
  assert (Hz : zmembers (take n l) ++ zmembers (drop n l) = zmembers l).
  { unfold zmembers. by rewrite <- map_app, take_drop. }
  rewrite <- Hz in Hnd. apply NoDup_app in Hnd as (_ & Hdisj & _).
  trans (filter (fun e => e.1 ∉ zmembers (take n l)) (take n l ++ drop n l)).
  { by rewrite take_drop. }
  rewrite filter_app, filter_out_all.
  - apply list_filter_all, Forall_forall. intros e He Hc.
    by eapply Hdisj, elem_of_zmembers_fst.
  - apply Forall_forall. intros e. apply elem_of_zmembers_fst.
Qed.

Section rest.
Context (src : ZKey) (now : Z) (q q1 : QueueDB) (loc : Location) (HI : Inv q loc).

Let batch := ZRANGEBYSCORE_LIMIT (zget src q) (Unix now) 100.

Lemma due_after_batch :
  zget src q1 = filter (fun e => e.1 ∉ zmembers batch) (zget src q) ->
  due src now q1 = drop 100 (due src now q).
Proof using HI.
  intros Hz. unfold due, ZRANGEBYSCORE. rewrite Hz, list_filter_filter.
  rewrite (list_filter_iff _ (fun e => (e.1 ∉ zmembers batch) /\ e.2 <= Unix now)) by tauto.
  rewrite <- list_filter_filter. fold (ZRANGEBYSCORE (zget src q) (Unix now)).
  unfold batch, ZRANGEBYSCORE_LIMIT. rewrite filter_drop_first.
  - unfold zmembers. by rewrite skipn_map.
  - eapply NoDup_zsublist; [apply sublist_ZRANGEBYSCORE|by eapply nodup_zset].
Qed.

Lemma batch_due : zmembers batch = take 100 (due src now q).
Proof using. unfold batch, due, ZRANGEBYSCORE_LIMIT, zmembers. by rewrite firstn_map. Qed.
End rest.

(** A round that finds tasks makes the set smaller. *)
Lemma batch_shrinks (z : zset gostring) now_sec n ids :
  ids = zmembers (ZRANGEBYSCORE_LIMIT z now_sec n) -> ids <> [] ->
  (length (filter (fun e => e.1 ∉ ids) z) < length z)%nat.
Proof.
  intros Hids Hne. destruct ids as [|x ids]; [done|].
  assert (Hx : x ∈ zmembers z).
  { eapply elem_of_submseteq; [by apply (list_elem_of_here x ids)|]. rewrite Hids.
    apply sublist_submseteq, fmap_sublist, sublist_ZRANGEBYSCORE_LIMIT. }
  apply elem_of_zmembers in Hx as [s Hx]. eapply length_filter_lt; [exact Hx|]. cbn. set_solver.
Qed.

(** Two rounds of forwarding from the same set. *)
Lemma forwarded_app src q loc ids q1 ids' q2 :
  (forall x, x ∈ ids' -> x ∉ ids) -> forwarded src q loc ids q1 ->
  forwarded src q1 (relocate (forward_to q ids) loc) ids' q2 -> forwarded src q loc (ids ++ ids') q2.
Proof.
  intros Hdisj [HI1 Hrest1 Hsrc1 Hoth1 Hp1] [HI2 Hrest2 Hsrc2 Hoth2 Hp2].
  assert (Hpl : forall x, x ∉ ids -> forward_place q1 x = forward_place q x).
  { intros x Hx. unfold forward_place, task_hash. by rewrite Hrest1. }
  split.
  - eapply Inv_ext; [|exact HI2]. intros x. unfold relocate, forward_to.
    destruct (decide (x ∈ ids')) as [H'|H'].
    + rewrite decide_True by set_solver. rewrite Hpl by auto. done.
    + destruct (decide (x ∈ ids)).
      * by rewrite decide_True by set_solver.
      * by rewrite decide_False by set_solver.
  - intros x Hx. rewrite Hrest2, Hrest1 by set_solver. done.
  - rewrite Hsrc2, Hsrc1, list_filter_filter. apply list_filter_iff. intros e.
    rewrite elem_of_app. tauto.
  - intros k Hk Hne. by rewrite Hoth2, Hoth1.
  - unfold forward_pending in *. rewrite Hp2, Hp1, filter_app, reverse_app, <- app_assoc.
    f_equal. f_equal. clear -Hpl Hdisj. induction ids' as [|x ids' IH]; [done|].
    rewrite !filter_cons, Hpl by (apply Hdisj; set_solver).
    rewrite IH; [done|]. intros y Hy. apply Hdisj. set_solver.
Qed.

(** A method of one queue: the other queues, the locks and the queue names are as before. *)
Definition only_queue (qname : gostring) (db db' : DB) : Prop :=
  (forall qname', qname' <> qname -> queue_of qname' db' = queue_of qname' db)
  /\ db_locks db' = db_locks db /\ db_all db' = db_all db.

Lemma only_queue_put qname q db : only_queue qname db (put_store qname (q, db_locks db) db).
Proof.
  split; [|done]. intros qname' Hne. rewrite queue_of_put. by rewrite decide_False.
Qed.

#[global] Instance only_queue_refl qname : Reflexive (only_queue qname).
Proof. done. Qed.

#[global] Instance only_queue_trans qname : Transitive (only_queue qname).
Proof.
  intros db1 db2 db3 (A1 & A2 & A3) (B1 & B2 & B3). split; [|split; congruence].
  intros qname' Hne. by rewrite B1, A1.
Qed.

(** The loop over one delayed set forwards exactly the due tasks, and it ends. *)
Lemma forwardLoop_spec src now qname fuel db loc :
  delayed src -> Inv (queue_of qname db) loc ->
  (length (zget src (queue_of qname db)) < fuel)%nat ->
  ewp (forwardLoop fuel now qname src)
    (fun _ db' => only_queue qname db db' /\
       forwarded src (queue_of qname db) loc (due src now (queue_of qname db)) (queue_of qname db'))
    (fun _ _ => False) db.
Proof.
  intros Hd. revert db loc. induction fuel as [|fuel IH]; intros db loc HI Hfuel; [lia|].
  set (q := queue_of qname db) in *. simpl. apply ewp_bind. apply ewp_map_error, ewp_run_script.
  eapply ewp_mono; [by apply forwardCmd_spec| |done].
  intros n [q1 l1] (Hl & Hn & Hf). cbn [fst snd] in *. subst l1.
  fold q in Hn, Hf. pose proof (batch_due src now q) as Hb.
  set (batch := ZRANGEBYSCORE_LIMIT (zget src q) (Unix now) 100) in *.
  pose proof (due_after_batch src now q q1 loc HI (fwd_src _ _ _ _ _ Hf)) as Hdrop.
  assert (Hq1 : queue_of qname (put_store qname (q1, db_locks db) db) = q1).
  { rewrite queue_of_put. by rewrite decide_True. }
  destruct (Z.eqb_spec n 0) as [->|Hn0].
  - apply ewp_ret. split; [apply only_queue_put|]. rewrite Hq1.
    replace (due src now q) with (zmembers batch); [done|].
    rewrite Hb. destruct (due src now q) as [|x l] eqn:Hdue; [done|].
    exfalso. rewrite Hb in Hn. cbn in Hn. lia.
  - set (db1 := put_store qname (q1, db_locks db) db) in *.
    eapply ewp_mono; [apply (IH db1 (relocate (forward_to q (zmembers batch)) loc))| |done].
    + rewrite Hq1. apply Hf.
    + rewrite Hq1, (fwd_src _ _ _ _ _ Hf).
      assert (length (filter (fun e => e.1 ∉ zmembers batch) (zget src q)) < length (zget src q))%nat; [|lia].
      eapply batch_shrinks; [done|]. intros He. by rewrite He in Hn.
    + intros ? db' [Ho Hf']. rewrite Hq1 in Hf'. split; [etransitivity; [apply only_queue_put|done]|].
      replace (due src now q) with (zmembers batch ++ due src now q1).
      * eapply forwarded_app; [|done|done]. intros x Hx. rewrite Hdrop in Hx. rewrite Hb.
        assert (HND : NoDup (due src now q)).
        { eapply NoDup_zsublist; [apply sublist_ZRANGEBYSCORE|by eapply nodup_zset]. }
        rewrite <- (take_drop 100 (due src now q)) in HND. apply NoDup_app in HND. set_solver.
      * rewrite Hdrop, Hb. apply take_drop.
Qed.

(** [forwardAll]: first the due scheduled tasks, then the due retry tasks. *)
Lemma forwardAll_spec now qname db loc :
  Inv (queue_of qname db) loc ->
  let q := queue_of qname db in
  ewp (forwardAll now qname)
    (fun _ db' => only_queue qname db db' /\ exists q1,
       forwarded ZScheduled q loc (due ZScheduled now q) q1 /\
       forwarded ZRetry q1 (relocate (forward_to q (due ZScheduled now q)) loc) (due ZRetry now q)
         (queue_of qname db'))
    (fun _ _ => False) db.
Proof.
  intros HI q. unfold forwardAll, efor. apply ewp_bind.
  eapply ewp_mono; [apply (forwardLoop_spec ZScheduled); [by left|done|unfold forwardFuel; lia]| |done].
  intros ? db1 [Ho1 Hf1]. apply ewp_bind.
  eapply ewp_mono; [apply (forwardLoop_spec ZRetry);
                     [by right|apply Hf1|unfold forwardFuel; lia]| |done].
  intros ? db2 [Ho2 Hf2]. split; [by etransitivity|]. exists (queue_of qname db1). split; [done|].
  replace (due ZRetry now q) with (due ZRetry now (queue_of qname db1)); [done|].
  unfold due. by rewrite (fwd_other _ _ _ _ _ Hf1 ZRetry) by (by right || done).
Qed.

(** The deletion of expired completed tasks deletes exactly them, and it ends. *)
Lemma deleteExpiredLoop_spec now qname fuel db loc :
  Inv (queue_of qname db) loc ->
  (length (zget ZCompleted (queue_of qname db)) < fuel)%nat ->
  ewp (deleteExpiredLoop fuel now qname)
    (fun _ db' => only_queue qname db db' /\
       Inv (queue_of qname db') (relocate (to_all (due ZCompleted now (queue_of qname db)) None) loc))
    (fun _ _ => False) db.
Proof.
  revert db loc. induction fuel as [|fuel IH]; intros db loc HI Hfuel; [lia|].
  set (q := queue_of qname db) in *. simpl. apply ewp_bind. apply ewp_map_error, ewp_run_script.
  eapply ewp_mono; [by apply deleteExpiredCompletedTasksCmd_spec| |done].
  intros n [q1 l1] (Hl & Hn & HI1 & Hz). cbn [fst snd] in *. subst l1.
  fold q in Hn, Hz, HI1. pose proof (batch_due ZCompleted now q) as Hb.
  set (batch := ZRANGEBYSCORE_LIMIT (zget ZCompleted q) (Unix now) 100) in *.
  pose proof (due_after_batch ZCompleted now q q1 loc HI Hz) as Hdrop.
  assert (Hq1 : queue_of qname (put_store qname (q1, db_locks db) db) = q1).
  { rewrite queue_of_put. by rewrite decide_True. }
  destruct (Z.eqb_spec n 0) as [->|Hn0].
  - apply ewp_ret. split; [apply only_queue_put|]. rewrite Hq1.
    replace (due ZCompleted now q) with (zmembers batch); [done|].
    rewrite Hb. destruct (due ZCompleted now q) as [|x l] eqn:Hdue; [done|].
    exfalso. rewrite Hb in Hn. cbn in Hn. lia.
  - set (db1 := put_store qname (q1, db_locks db) db) in *.
    eapply ewp_mono; [apply (IH db1 (relocate (to_all (zmembers batch) None) loc))| |done].
    + by rewrite Hq1.
    + rewrite Hq1, Hz.
      assert (length (filter (fun e => e.1 ∉ zmembers batch) (zget ZCompleted q))
              < length (zget ZCompleted q))%nat; [|lia].
      eapply batch_shrinks; [done|]. intros He. by rewrite He in Hn.
    + intros ? db' [Ho HI']. rewrite Hq1 in HI'. split; [etransitivity; [apply only_queue_put|done]|].
      eapply Inv_ext; [|exact HI']. intros x. rewrite !relocate_to_all.
      rewrite <- (take_drop 100 (due ZCompleted now q)), <- Hdrop, <- Hb.
      destruct (decide (x ∈ due ZCompleted now q1)).
      * by rewrite decide_True by set_solver.
      * destruct (decide (x ∈ zmembers batch)).
        -- by rewrite decide_True by set_solver.
        -- by rewrite decide_False by set_solver.
Qed.
