(* ===== verification/AsynqSpec.v ===== *)
(** The life cycle of a task, as a specification of [pkg/rdb].

    [Op] lists the operations of [rdb.go] and [inspect.go] that change the database and [exec] runs
    one; [lifecycle] says, for every operation, from which place to which place it can move which
    task.  The file [AsynqRefine] proves that every operation, whatever it
    returns, keeps the invariant and moves tasks only along the life cycle. *)
From stdpp Require Import base list strings numbers option gmap.
From S2P Require Import Prelude.
From S2P Require Import Redis.
From S2P Require Import AsynqBase.
From S2P Require Import AsynqStore.
From S2P Require Import AsynqRdb.
From S2P Require Import AsynqInspect.
From S2P Require Import AsynqInv.
From S2P Require Import AsynqScripts.
From S2P Require Import AsynqMoves.
From S2P Require Import AsynqInspectSpec.
From S2P Require Import AsynqDb.

(** ** Operations *)
Inductive Op :=
  | OEnqueue (msg : TaskMessage)
  | OEnqueueUnique (msg : TaskMessage) (ttl : Z)
  | ODequeue (qnames : list gostring)
  | ODone (msg : TaskMessage)
  | OMarkAsComplete (msg : TaskMessage)
  | ORequeue (msg : TaskMessage)
  | OAddToGroup (msg : TaskMessage) (groupKey : gostring)
  | OAddToGroupUnique (msg : TaskMessage) (uniqueKey groupKey : gostring) (ttl : Z)
  | OSchedule (msg : TaskMessage) (processAt : Z)
  | OScheduleUnique (msg : TaskMessage) (processAt ttl : Z)
  | ORetry (msg : TaskMessage) (processAt : Z) (errMsg : gostring) (isFailure : bool)
  | OArchive (msg : TaskMessage) (errMsg : gostring)
  | OForwardIfReady (qnames : list gostring)
  | OAggregationCheck (setID qname gname : gostring) (t gracePeriod maxDelay maxSize : Z)
  | ODeleteAggregationSet (qname gname setID : gostring)
  | OReclaimStaleAggregationSets (qname : gostring)
  | ODeleteExpiredCompletedTasks (qname : gostring)
  | OExtendLease (qname : gostring) (ids : list gostring)
  | OWriteResult (qname taskID data : gostring)
  | ORunAllScheduledTasks (qname : gostring)
  | ORunAllRetryTasks (qname : gostring)
  | ORunAllArchivedTasks (qname : gostring)
  | ORunAllAggregatingTasks (qname gname : gostring)
  | ORunTask (qname id : gostring)
  | OArchiveAllRetryTasks (qname : gostring)
  | OArchiveAllScheduledTasks (qname : gostring)
  | OArchiveAllAggregatingTasks (qname gname : gostring)
  | OArchiveAllPendingTasks (qname : gostring)
  | OArchiveTask (qname id : gostring)
  | ODeleteTask (qname id : gostring)
  | ODeleteAllArchivedTasks (qname : gostring)
  | ODeleteAllRetryTasks (qname : gostring)
  | ODeleteAllScheduledTasks (qname : gostring)
  | ODeleteAllCompletedTasks (qname : gostring)
  | ODeleteAllAggregatingTasks (qname gname : gostring)
  | ODeleteAllPendingTasks (qname : gostring)
  | ORemoveQueue (qname : gostring) (force : bool)
  | OPause (qname : gostring)
  | OUnpause (qname : gostring).

(** A method without its result. *)
Definition effect {A} (m : stE DB goerror A) : stE DB goerror unit := _ ↞ m; eret tt.

Section ops.
Context `{Proto pb.TaskMessage}.

Definition exec (now : Z) (op : Op) : stE DB goerror unit :=
  match op with
  | OEnqueue msg => effect (Enqueue now msg)
  | OEnqueueUnique msg ttl => effect (EnqueueUnique now msg ttl)
  | ODequeue qnames => effect (Dequeue now qnames)
  | ODone msg => effect (Done now msg)
  | OMarkAsComplete msg => effect (MarkAsComplete now msg)
  | ORequeue msg => effect (Requeue msg)
  | OAddToGroup msg g => effect (AddToGroup now msg g)
  | OAddToGroupUnique msg key g ttl => effect (AddToGroupUnique now msg key g ttl)
  | OSchedule msg t => effect (Schedule msg t)
  | OScheduleUnique msg t ttl => effect (ScheduleUnique now msg t ttl)
  | ORetry msg t e f => effect (Retry now msg t e f)
  | OArchive msg e => effect (Archive now msg e)
  | OForwardIfReady qnames => effect (ForwardIfReady now qnames)
  | OAggregationCheck s q g t grace delay size =>
      effect (AggregationCheck now s q g t grace delay size)
  | ODeleteAggregationSet q g s => effect (DeleteAggregationSet q g s)
  | OReclaimStaleAggregationSets q => effect (ReclaimStaleAggregationSets now q)
  | ODeleteExpiredCompletedTasks q => effect (DeleteExpiredCompletedTasks now q)
  | OExtendLease q ids => effect (ExtendLease now q ids)
  | OWriteResult q id data => effect (WriteResult q id data)
  | ORunAllScheduledTasks q => effect (RunAllScheduledTasks q)
  | ORunAllRetryTasks q => effect (RunAllRetryTasks q)
  | ORunAllArchivedTasks q => effect (RunAllArchivedTasks q)
  | ORunAllAggregatingTasks q g => effect (RunAllAggregatingTasks q g)
  | ORunTask q id => effect (RunTask q id)
  | OArchiveAllRetryTasks q => effect (ArchiveAllRetryTasks now q)
  | OArchiveAllScheduledTasks q => effect (ArchiveAllScheduledTasks now q)
  | OArchiveAllAggregatingTasks q g => effect (ArchiveAllAggregatingTasks now q g)
  | OArchiveAllPendingTasks q => effect (ArchiveAllPendingTasks now q)
  | OArchiveTask q id => effect (ArchiveTask now q id)
  | ODeleteTask q id => effect (DeleteTask now q id)
  | ODeleteAllArchivedTasks q => effect (DeleteAllArchivedTasks now q)
  | ODeleteAllRetryTasks q => effect (DeleteAllRetryTasks now q)
  | ODeleteAllScheduledTasks q => effect (DeleteAllScheduledTasks now q)
  | ODeleteAllCompletedTasks q => effect (DeleteAllCompletedTasks now q)
  | ODeleteAllAggregatingTasks q g => effect (DeleteAllAggregatingTasks q g)
  | ODeleteAllPendingTasks q => effect (DeleteAllPendingTasks q)
  | ORemoveQueue q force => effect (RemoveQueue q force)
  | OPause q => effect (Pause now q)
  | OUnpause q => effect (Unpause q)
  end.
End ops.

(** ** The life cycle *)

(** A task goes from [o] to [o']. *)
Definition edge (o o' : option Place) (e e' : option Place) : Prop := o = e /\ o' = e'.

Definition scheduled : option Place := Some (PZ ZScheduled).
Definition retrying : option Place := Some (PZ ZRetry).
Definition archived : option Place := Some (PZ ZArchived).
Definition completed : option Place := Some (PZ ZCompleted).
Definition grouped (g : gostring) : option Place := Some (PZ (ZGroup g)).
Definition staged_in (g s : gostring) : option Place := Some (PZ (ZAggregationSet g s)).
Definition pending : option Place := Some PPending.
Definition active : option Place := Some PActive.

(** An archiving move: to the archive, or out of the database when the archive is trimmed; the
    trimming drops other archived tasks too. *)
Definition to_archive (from : Prop) (o' : option Place) (o : option Place) : Prop :=
  (from /\ (o' = archived \/ o' = None)) \/ edge o o' archived None.

Definition lifecycle (op : Op) (qname id : gostring) (o o' : option Place) : Prop :=
  match op with
  | OEnqueue msg | OEnqueueUnique msg _ =>
      qname = Queue msg /\ id = ID msg /\ edge o o' None pending
  | OSchedule msg _ | OScheduleUnique msg _ _ =>
      qname = Queue msg /\ id = ID msg /\ edge o o' None scheduled
  | OAddToGroup msg g | OAddToGroupUnique msg _ g _ =>
      qname = Queue msg /\ id = ID msg /\ edge o o' None (grouped g)
  | ODequeue qnames => qname ∈ qnames /\ edge o o' pending active
  | ODone msg => qname = Queue msg /\ id = ID msg /\ edge o o' active None
  | OMarkAsComplete msg => qname = Queue msg /\ id = ID msg /\ edge o o' active completed
  | ORequeue msg => qname = Queue msg /\ id = ID msg /\ edge o o' active pending
  | ORetry msg _ _ _ => qname = Queue msg /\ id = ID msg /\ edge o o' active retrying
  | OArchive msg _ => qname = Queue msg /\ to_archive (id = ID msg /\ o = active) o' o
  | OForwardIfReady qnames =>
      qname ∈ qnames /\ (o = scheduled \/ o = retrying) /\ (o' = pending \/ exists g, o' = grouped g)
  | OAggregationCheck s q g _ _ _ _ => qname = q /\ edge o o' (grouped g) (staged_in g s)
  | ODeleteAggregationSet q g s => qname = q /\ edge o o' (staged_in g s) None
  | OReclaimStaleAggregationSets q =>
      qname = q /\ exists g s, edge o o' (staged_in g s) (grouped g)
  | ODeleteExpiredCompletedTasks q => qname = q /\ edge o o' completed None
  | OExtendLease _ _ | OWriteResult _ _ _ | OPause _ | OUnpause _ => False
  | ORunAllScheduledTasks q => qname = q /\ edge o o' scheduled pending
  | ORunAllRetryTasks q => qname = q /\ edge o o' retrying pending
  | ORunAllArchivedTasks q => qname = q /\ edge o o' archived pending
  | ORunAllAggregatingTasks q g => qname = q /\ edge o o' (grouped g) pending
  | ORunTask q i =>
      qname = q /\ id = i /\ o' = pending
      /\ (o = scheduled \/ o = retrying \/ o = archived \/ o = completed \/ exists g, o = grouped g)
  | OArchiveAllRetryTasks q => qname = q /\ to_archive (o = retrying) o' o
  | OArchiveAllScheduledTasks q => qname = q /\ to_archive (o = scheduled) o' o
  | OArchiveAllAggregatingTasks q g => qname = q /\ to_archive (o = grouped g) o' o
  | OArchiveAllPendingTasks q => qname = q /\ to_archive (o = pending) o' o
  | OArchiveTask q i =>
      qname = q /\ to_archive (id = i /\ (o = pending \/ o = scheduled \/ o = retrying \/ o = completed
                                           \/ exists g, o = grouped g)) o' o
  | ODeleteTask q i =>
      qname = q /\ id = i /\ o' = None
      /\ (o = pending \/ o = scheduled \/ o = retrying \/ o = archived \/ o = completed
          \/ exists g, o = grouped g)
  | ODeleteAllArchivedTasks q => qname = q /\ edge o o' archived None
  | ODeleteAllRetryTasks q => qname = q /\ edge o o' retrying None
  | ODeleteAllScheduledTasks q => qname = q /\ edge o o' scheduled None
  | ODeleteAllCompletedTasks q => qname = q /\ edge o o' completed None
  | ODeleteAllAggregatingTasks q g => qname = q /\ edge o o' (grouped g) None
  | ODeleteAllPendingTasks q => qname = q /\ edge o o' pending None
  | ORemoveQueue q _ =>
      qname = q /\ o' = None /\ (o = pending \/ o = scheduled \/ o = retrying \/ o = archived)
  end.

(** Every task stays where it is or moves along [R]. *)
Definition evolves (R : gostring -> gostring -> option Place -> option Place -> Prop)
    (L L' : DLocation) : Prop :=
  forall qname id, L' qname id = L qname id \/ R qname id (L qname id) (L' qname id).

(** The database after a method: the invariant holds of locations that evolved along [R]. *)
Definition kept (R : gostring -> gostring -> option Place -> option Place -> Prop) (L : DLocation)
    (db' : DB) : Prop :=
  exists L', DInv db' L' /\ evolves R L L'.

(** A method that moves tasks along [R] only, whatever it returns. *)
Definition follows {A} (R : gostring -> gostring -> option Place -> option Place -> Prop)
    (m : stE DB goerror A) : Prop :=
  forall db L, DInv db L -> ewp m (fun _ => kept R L) (fun _ => kept R L) db.
