(* ===== verification/AsynqRefine.v ===== *)
(** Every operation of [pkg/rdb] refines the life cycle of [AsynqSpec]. *)
From stdpp Require Import base list strings numbers option gmap.
From S2P Require Import Prelude.
From S2P Require Import Redis.
From S2P Require Import AsynqBase.
From S2P Require Import AsynqStore.
From S2P Require Import AsynqRdb.
From S2P Require Import AsynqInspect.
From S2P Require Import AsynqInv.
From S2P Require Import AsynqScripts.
From S2P Require Import AsynqMoves.
From S2P Require Import AsynqInspectSpec.
From S2P Require Import AsynqDb.
From S2P Require Import AsynqSpec.

(** ** Composition *)

(** A step that moves no task. *)
Definition still {A} (m : stE DB goerror A) : Prop :=
  forall db L, DInv db L -> ewp m (fun _ db' => DInv db' L) (fun _ db' => DInv db' L) db.

Section compose.
Context (R : gostring -> gostring -> option Place -> option Place -> Prop).

Lemma kept_same L db' : DInv db' L -> kept R L db'.
Proof. intros HD. exists L. split; [done|]. by left. Qed.

Lemma kept_put qname s db L loc :
  DInv db L -> Inv s.1 loc -> (forall id, loc id = L qname id \/ R qname id (L qname id) (loc id)) ->
  kept R L (put_store qname s db).
Proof.
  intros HD HI Hev. exists (dset qname loc L). split; [by apply DInv_put|].
  intros qname' id. unfold dset. case_decide; [subst; apply Hev|by left].
Qed.

Lemma follows_still {A} (m : stE DB goerror A) : still m -> follows R m.
Proof. intros Hm db L HD. eapply ewp_mono; [by apply Hm|..]; intros; by apply kept_same. Qed.

Lemma still_follows {A B} (m : stE DB goerror A) (f : A -> stE DB goerror B) :
  still m -> (forall a, follows R (f a)) -> follows R (ebind m f).
Proof.
  intros Hm Hf db L HD. apply ewp_bind. eapply ewp_mono; [by apply Hm| |].
  - intros a db' HD'. by apply Hf.
  - intros e db' HD'. by apply kept_same.
Qed.

Lemma follows_then {A B} (m : stE DB goerror A) (f : A -> stE DB goerror B) :
  follows R m -> (forall a, still (f a)) -> follows R (ebind m f).
Proof.
  intros Hm Hf db L HD. apply ewp_bind. eapply ewp_mono; [by apply Hm| |done].
  intros a db' (L' & HD' & He).
  eapply ewp_mono; [by apply Hf|..]; intros ? db'' HD''; by exists L'.
Qed.

Lemma follows_map_error {A} f (m : stE DB goerror A) : follows R m -> follows R (map_error f m).
Proof. intros Hm db L HD. apply ewp_map_error. by apply Hm. Qed.

(** A script follows [R] when it does so on the queue it runs on. *)
Lemma follows_script {A} qname (f : gostring -> goerror) (m : script A) :
  (forall q locks loc, Inv q loc ->
     let after := fun s' : QueueDB * Locks => exists loc', Inv s'.1 loc' /\
       forall id, loc' id = loc id \/ R qname id (loc id) (loc' id) in
     ewp m (fun _ => after) (fun _ => after) (q, locks)) ->
  follows R (map_error f (run_script qname m)).
Proof.
  intros Hm db L HD. apply ewp_map_error, ewp_run_script.
  eapply ewp_mono; [apply Hm, (HD qname)|..]; intros ? s' (loc' & HI' & Hev); by eapply kept_put.
Qed.
End compose.

Lemma still_ret {A} (a : A) : still (eret a).
Proof. intros db L HD. by apply ewp_ret. Qed.

Lemma still_throw {A} e : still (A := A) (ethrow e).
Proof. intros db L HD. by apply ewp_throw. Qed.

Lemma still_bind {A B} (m : stE DB goerror A) (f : A -> stE DB goerror B) :
  still m -> (forall a, still (f a)) -> still (ebind m f).
Proof.
  intros Hm Hf db L HD. apply ewp_bind. eapply ewp_mono; [by apply Hm| |done].
  intros a db' HD'. by apply Hf.
Qed.

Lemma still_map_error {A} f (m : stE DB goerror A) : still m -> still (map_error f m).
Proof. intros Hm db L HD. apply ewp_map_error. by apply Hm. Qed.

(** A step whose result is a value or an error, and that leaves the queues as they are. *)
Lemma still_run {A} (m : stE DB goerror A) :
  (forall db, exists r, m db = (Ok r, (m db).2) \/ exists e, m db = (Err e, (m db).2)) ->
  (forall db, db_queues (m db).2 = db_queues db) -> still m.
Proof.
  intros Hr Hq db L HD. unfold ewp. specialize (Hq db).
  destruct (Hr db) as [r [-> | [e ->]]]; by eapply DInv_queues.
Qed.

Lemma still_SADD q : still (SADD_queue q).
Proof. intros db L HD. by eapply DInv_queues. Qed.

Lemma still_SREM q : still (SREM_queue q).
Proof. intros db L HD. by eapply DInv_queues. Qed.

Lemma still_queueExists q : still (queueExists q).
Proof. by intros db L HD. Qed.

Lemma still_checkQueueExists q : still (checkQueueExists q).
Proof. apply still_bind; [apply still_queueExists|]. intros []; [apply still_ret|apply still_throw]. Qed.

Lemma still_requireQueue op q : still (requireQueue op q).
Proof. apply still_map_error, still_checkQueueExists. Qed.

Lemma still_requireQueueNotFound op q : still (requireQueueNotFound op q).
Proof. apply still_bind; [apply still_queueExists|]. intros []; [apply still_ret|apply still_throw]. Qed.

(** A script that moves no task. *)
Lemma still_script {A} qname (f : gostring -> goerror) (m : script A) :
  (forall q locks loc, Inv q loc -> ewp m (fun _ s' => Inv s'.1 loc) (fun _ s' => Inv s'.1 loc) (q, locks)) ->
  still (map_error f (run_script qname m)).
Proof.
  intros Hm db L HD. apply ewp_map_error, ewp_run_script.
  eapply ewp_mono; [apply Hm, (HD qname)|..]; intros ? s' HI; by apply DInv_put_same.
Qed.

Section encode.
Context `{Proto pb.TaskMessage}.

Lemma EncodeMessage_result msg :
  (exists b, EncodeMessage msg = Ok b) \/ exists e, EncodeMessage msg = Err e.
Proof.
  unfold EncodeMessage. destruct msg as [m|]; [|by eauto]. unfold Marshal, of_sum.
  destruct (proto_Marshal _); eauto.
Qed.

Lemma DecodeMessage_result data :
  (exists m, DecodeMessage data = Ok m) \/ exists e, DecodeMessage data = Err e.
Proof.
  unfold DecodeMessage, Unmarshal, of_sum, out_bind. destruct (proto_Unmarshal _); eauto.
Qed.

Lemma still_encode op code text msg : still (encode op code text msg).
Proof.
  intros db L HD. unfold ewp, encode, elift. by destruct (EncodeMessage_result (Some msg)) as [[b ->]|[e ->]].
Qed.

Lemma still_decode op data : still (decode op data).
Proof.
  intros db L HD. unfold ewp, decode, elift. by destruct (DecodeMessage_result data) as [[b ->]|[e ->]].
Qed.
End encode.

Create HintDb still.
#[export] Hint Resolve still_ret still_throw still_SADD still_SREM still_requireQueue
  still_requireQueueNotFound still_checkQueueExists still_encode still_decode still_map_error : still.

(** ** Adding tasks *)

Lemma relocate_to1_or id o loc (P : gostring -> option Place -> option Place -> Prop) :
  P id (loc id) o -> forall x, relocate (to1 id o) loc x = loc x \/ P x (loc x) (relocate (to1 id o) loc x).
Proof. intros HP x. rewrite relocate_to1. case_decide; [subst; by right|by left]. Qed.

Lemma relocate_to_all_or ids o loc (P : gostring -> option Place -> option Place -> Prop) :
  (forall x, x ∈ ids -> P x (loc x) o) ->
  forall x, relocate (to_all ids o) loc x = loc x \/ P x (loc x) (relocate (to_all ids o) loc x).
Proof. intros HP x. rewrite relocate_to_all. case_decide; [right; auto|by left]. Qed.

Section add.
Context (R : gostring -> gostring -> option Place -> option Place -> Prop) (qname id : gostring) (p : Place).
Context (HR : R qname id None (Some p)).

Lemma added_kept q loc n q' :
  Inv q loc -> added q loc id p n q' -> exists loc', Inv q' loc' /\
    forall x, loc' x = loc x \/ R qname x (loc x) (loc' x).
Proof using HR.
  intros HI. unfold added. destruct (q_tasks q !! id) eqn:Hid.
  - intros [_ ->]. exists loc. eauto.
  - intros [_ HI']. eexists. split; [exact HI'|].
    apply (relocate_to1_or id (Some p) loc (R qname)). by rewrite (inv_fresh _ _ HI _ Hid).
Qed.

Lemma follows_add f (m : script Z) :
  (forall q locks loc, Inv q loc ->
     ewp m (fun n s' => s'.2 = locks /\ added q loc id p n s'.1) (fun _ _ => False) (q, locks)) ->
  follows R (map_error f (run_script qname m)).
Proof using HR.
  intros Hm. apply follows_script. intros q locks loc HI. cbv zeta.
  eapply ewp_mono; [by apply Hm| |done]. intros n s' [_ Ha]. by eapply added_kept.
Qed.

Lemma follows_add_unique now key ttl f (m : script Z) :
  (forall q locks loc, Inv q loc -> added_unique q locks loc now key id ttl p m (fun n => n)) ->
  follows R (map_error f (run_script qname m)).
Proof using HR.
  intros Hm. apply follows_script. intros q locks loc HI. cbv zeta.
  eapply ewp_mono; [by apply Hm|..]; cbn.
  - intros n s' [(_ & -> & _)|(_ & _ & Ha)]; [exists loc; eauto|by eapply added_kept].
  - intros e s' [_ ->]. exists loc. eauto.
Qed.
End add.

(** ** Active tasks *)

(** The queue after a script: its tasks moved along [R]. *)
Definition moved (R : gostring -> gostring -> option Place -> option Place -> Prop) (qname : gostring)
    (loc : Location) (q' : QueueDB) : Prop :=
  exists loc', Inv q' loc' /\ forall x, loc' x = loc x \/ R qname x (loc x) (loc' x).

Lemma moved_same R qname loc q' : Inv q' loc -> moved R qname loc q'.
Proof. intros HI. exists loc. auto. Qed.

Lemma moved_to1 (R : gostring -> gostring -> option Place -> option Place -> Prop) qname loc q' id o :
  R qname id (loc id) o -> Inv q' (relocate (to1 id o) loc) -> moved R qname loc q'.
Proof. intros HR HI. eexists. split; [exact HI|]. by apply (relocate_to1_or id o loc (R qname)). Qed.

Lemma moved_to_all (R : gostring -> gostring -> option Place -> option Place -> Prop) qname loc q' ids o :
  (forall x, x ∈ ids -> R qname x (loc x) o) -> Inv q' (relocate (to_all ids o) loc) -> moved R qname loc q'.
Proof. intros HR HI. eexists. split; [exact HI|]. by apply (relocate_to_all_or ids o loc (R qname)). Qed.

(** A move that ends in the archive, followed by the trimming. *)
Lemma moved_trim (R : gostring -> gostring -> option Place -> option Place -> Prop) qname loc q' keep
    (dst : gostring -> option (option Place)) :
  (forall x o, dst x = Some o -> o = archived /\ R qname x (loc x) archived /\ R qname x (loc x) None) ->
  (forall x, R qname x archived None) ->
  Inv q' (trim keep (relocate dst loc)) -> moved R qname loc q'.
Proof.
  intros Hd Ht HI. eexists. split; [exact HI|]. intros x. unfold trim, relocate.
  destruct (dst x) as [o|] eqn:Hx.
  - destruct (Hd x o Hx) as (-> & H1 & H2). case_decide; by right.
  - case_decide as Hl; [|by left]. right. destruct Hl as [-> _]. apply Ht.
Qed.

Section moves.
Context (R : gostring -> gostring -> option Place -> option Place -> Prop) (qname : gostring).

Lemma follows_moved {A} f (m : script A) :
  (forall q locks loc, Inv q loc ->
     ewp m (fun _ s' => moved R qname loc s'.1) (fun _ s' => moved R qname loc s'.1) (q, locks)) ->
  follows R (map_error f (run_script qname m)).
Proof. exact (follows_script R qname f m). Qed.

Lemma follows_active {A} id f (m : script A) (P PE : QueueDB -> Locks -> Location -> QueueDB -> Locks -> Prop) :
  (forall q locks loc, Inv q loc ->
     leaves_active_locks q locks loc id m (P q locks loc) (PE q locks loc)) ->
  (forall q locks loc q' l', Inv q loc -> loc id = active ->
     P q locks loc q' l' \/ PE q locks loc q' l' -> moved R qname loc q') ->
  follows R (map_error f (run_script qname m)).
Proof.
  intros Hm HP. apply follows_moved. intros q locks loc HI. eapply ewp_mono; [by apply Hm|..].
  - intros a s' [Hloc HPs]. eapply HP; eauto.
  - intros e s' [(_ & _ & ->)|(_ & Hloc & HPs)]; [by apply moved_same|eapply HP; eauto].
Qed.
End moves.

Lemma follows_runScript {A} R op qname (m : script A) :
  follows R (map_error (eval_error op Internal) (run_script qname m)) -> follows R (runScript op qname m).
Proof. intros Hm. apply follows_then; [done|]. intros a. apply still_ret. Qed.

(** ** The operations *)
Section ops.
Context `{Proto pb.TaskMessage}.
Implicit Types (msg : TaskMessage).

Ltac add_op := repeat (apply still_follows; [solve [auto with still]|intros ?]).

Lemma Enqueue_follows now msg : follows (lifecycle (OEnqueue msg)) (Enqueue now msg).
Proof.
  add_op. apply follows_then; [|intros n; destruct (n =? 0); auto with still].
  eapply follows_add; [|intros; by apply enqueueCmd_spec]. done.
Qed.

Lemma unique_reply_still op n : still (unique_reply op n).
Proof. unfold unique_reply. destruct (n =? -1), (n =? 0); auto with still. Qed.

Lemma EnqueueUnique_follows now msg ttl :
  follows (lifecycle (OEnqueueUnique msg ttl)) (EnqueueUnique now msg ttl).
Proof.
  apply still_follows.
  { intros db L HD. unfold ewp, elift.
    by destruct (EncodeMessage_result (Some msg)) as [[b ->]|[e ->]]. }
  intros b. add_op. apply follows_then; [|intros n; apply unique_reply_still].
  eapply follows_add_unique; [|intros; by apply enqueueUniqueCmd_spec]. done.
Qed.

Lemma Schedule_follows msg t : follows (lifecycle (OSchedule msg t)) (Schedule msg t).
Proof.
  add_op. apply follows_then; [|intros n; destruct (n =? 0); auto with still].
  eapply follows_add; [|intros; by apply scheduleCmd_spec]. done.
Qed.

Lemma ScheduleUnique_follows now msg t ttl :
  follows (lifecycle (OScheduleUnique msg t ttl)) (ScheduleUnique now msg t ttl).
Proof.
  add_op. apply follows_then; [|intros n; apply unique_reply_still].
  eapply follows_add_unique; [|intros; by apply scheduleUniqueCmd_spec]. done.
Qed.

Lemma AddToGroup_follows now msg g : follows (lifecycle (OAddToGroup msg g)) (AddToGroup now msg g).
Proof.
  add_op. apply follows_then; [|intros n; destruct (n =? 0); auto with still].
  eapply follows_add; [|intros; by apply addToGroupCmd_spec]. done.
Qed.

Lemma AddToGroupUnique_follows now msg key g ttl :
  follows (lifecycle (OAddToGroupUnique msg key g ttl)) (AddToGroupUnique now msg key g ttl).
Proof.
  add_op. apply follows_then; [|intros n; apply unique_reply_still].
  eapply follows_add_unique; [|intros; by apply addToGroupUniqueCmd_spec]. done.
Qed.

Lemma Done_follows now msg : follows (lifecycle (ODone msg)) (Done now msg).
Proof.
  unfold Done. destruct (negb _); apply follows_runScript.
  - eapply follows_active; [intros; by apply doneUniqueCmd_spec|]. cbn.
    intros q locks loc q' l' HI Hloc [[_ HI']|[_ HI']]; eapply moved_to1; eauto; by rewrite Hloc.
  - eapply follows_active; [intros; by apply doneCmd_spec|]. cbn.
    intros q locks loc q' l' HI Hloc [[_ HI']|[_ HI']]; eapply moved_to1; eauto; by rewrite Hloc.
Qed.

Lemma MarkAsComplete_follows now msg :
  follows (lifecycle (OMarkAsComplete msg)) (MarkAsComplete now msg).
Proof.
  apply still_follows; [auto with still|]. intros b. destruct (negb _); apply follows_runScript.
  - eapply follows_active; [intros; by apply markAsCompleteUniqueCmd_spec|]. cbn.
    intros q locks loc q' l' HI Hloc [[_ HI']|[_ HI']]; eapply moved_to1; eauto; by rewrite Hloc.
  - eapply follows_active; [intros; by apply markAsCompleteCmd_spec|]. cbn.
    intros q locks loc q' l' HI Hloc [[_ HI']|[_ HI']]; eapply moved_to1; eauto; by rewrite Hloc.
Qed.

Lemma Requeue_follows msg : follows (lifecycle (ORequeue msg)) (Requeue msg).
Proof.
  apply follows_runScript. eapply follows_active; [intros; by apply requeueCmd_spec|]. cbn.
  intros q locks loc q' l' HI Hloc [(_ & HI' & _)|(_ & HI' & _)]; eapply moved_to1; eauto; by rewrite Hloc.
Qed.

Lemma Retry_follows now msg t e f : follows (lifecycle (ORetry msg t e f)) (Retry now msg t e f).
Proof.
  apply still_follows; [auto with still|]. intros b. apply follows_runScript.
  eapply follows_active; [intros; by apply retryCmd_spec|]. cbn.
  intros q locks loc q' l' HI Hloc [[_ HI']|[_ HI']]; eapply moved_to1; eauto; by rewrite Hloc.
Qed.

Lemma Archive_follows now msg e : follows (lifecycle (OArchive msg e)) (Archive now msg e).
Proof.
  apply still_follows; [auto with still|]. intros b. apply follows_runScript.
  eapply follows_active; [intros; by apply archiveCmd_spec|]. cbn.
  intros q locks loc q' l' HI Hloc HP.
  assert (HI' : exists keep, Inv q' (trim keep (relocate (to1 (ID msg) archived) loc))).
  { destruct HP as [(_ & _ & HI')|(_ & _ & HI')]; eauto. }
  destruct HI' as [keep HI']. eapply moved_trim; [| |exact HI'].
  - intros x o. unfold to1. case_decide; [|done]. intros [= <-]. subst. rewrite Hloc.
    unfold lifecycle, to_archive. naive_solver.
  - intros x. unfold lifecycle, to_archive, edge. naive_solver.
Qed.

(** *** Taking and forwarding tasks *)

Lemma Dequeue_follows now qnames all :
  (forall q, q ∈ qnames -> q ∈ all) -> follows (lifecycle (ODequeue all)) (Dequeue now qnames).
Proof.
  induction qnames as [|qname qnames IH]; intros Hall; [apply follows_still, still_throw|].
  intros db L HD. simpl. apply ewp_bind, ewp_map_error, ewp_run_script.
  eapply ewp_mono; [apply (dequeueCmd_spec _ _ _ (HD qname))| |done].
  intros r s' [_ Hr].
  assert (Hnone : r = None /\ s'.1 = queue_of qname db ->
    ewp match r with
        | Some encoded => msg ↞ decode (str "rdb.Dequeue") encoded; eret (msg, now + LeaseDuration)
        | None => Dequeue now qnames
        end (fun _ => kept (lifecycle (ODequeue all)) L) (fun _ => kept (lifecycle (ODequeue all)) L)
      (put_store qname s' db)).
  { intros [-> Hs]. apply IH; [set_solver|]. apply DInv_put_same; [done|]. rewrite Hs. apply HD. }
  destruct (q_paused _); [by apply Hnone|]. destruct (last _) as [id|] eqn:Hl; [|by apply Hnone].
  destruct Hr as (Hr & [b Hb] & Hp & _ & _ & HI'). rewrite Hb.
  assert (Hk : kept (lifecycle (ODequeue all)) L (put_store qname s' db)).
  { eapply kept_put; [done|exact HI'|].
    apply (relocate_to1_or id active (L qname) (lifecycle (ODequeue all) qname)).
    cbn. split; [apply Hall; set_solver|]. split; [|done]. apply (inv_pending _ _ (HD qname)).
    rewrite Hp. set_solver. }
  destruct Hk as (L' & HD' & He).
  apply ewp_bind. eapply ewp_mono; [by apply still_decode| |].
  - intros m db' HD''. by exists L'.
  - intros e db' HD''. by exists L'.
Qed.

Lemma forward_edge all qname id q (loc : Location) (ids : list gostring) src :
  qname ∈ all -> delayed src -> (forall x, x ∈ ids -> loc x = Some (PZ src)) -> id ∈ ids ->
  lifecycle (OForwardIfReady all) qname id (loc id) (Some (forward_place q id)).
Proof.
  intros Hq Hd Hloc Hid. cbn. rewrite (Hloc id Hid). split; [done|]. split.
  - destruct Hd as [-> | ->]; [by left|by right].
  - unfold forward_place. destruct (h_group _) as [[|a g]|]; [by left|right; by eexists|by left].
Qed.

Lemma due_at src now q loc x : delayed src -> Inv q loc -> x ∈ due src now q -> loc x = Some (PZ src).
Proof.
  intros Hd HI Hx. apply (inv_zset _ _ HI); [by destruct Hd as [-> | ->]|].
  eapply elem_of_submseteq; [exact Hx|]. apply sublist_submseteq, fmap_sublist, sublist_ZRANGEBYSCORE.
Qed.

(** The location after the due tasks of both sets were forwarded. *)
Lemma forwardAll_follows now qname all :
  qname ∈ all -> follows (lifecycle (OForwardIfReady all)) (forwardAll now qname).
Proof.
  intros Hq db L HD. eapply ewp_mono; [apply (forwardAll_spec now qname db _ (HD qname))| |done].
  intros _ db' [(Ho & _) (q1 & Hf1 & Hf2)].
  set (q := queue_of qname db) in *. set (loc1 := relocate (forward_to q _) (L qname)) in *.
  exists (dset qname (relocate (forward_to q1 (due ZRetry now q)) loc1) L). split.
  { intros qname'. unfold dset. case_decide; [subst; apply Hf2|]. rewrite Ho by done. apply HD. }
  intros qname' id. unfold dset. case_decide; [subst qname'|by left].
  assert (HR : forall x, x ∈ due ZRetry now q -> L qname x = retrying).
  { intros x. apply due_at; [by right|apply HD]. }
  assert (HS : forall x, x ∈ due ZScheduled now q -> L qname x = scheduled).
  { intros x. apply due_at; [by left|apply HD]. }
  unfold relocate at 1 2, forward_to. destruct (decide (id ∈ due ZRetry now q)) as [Hid|Hid].
  - right. by apply (forward_edge all qname id q1 (L qname) _ ZRetry Hq (or_intror eq_refl) HR).
  - subst loc1. unfold relocate, forward_to. case_decide as Hid'; [|by left].
    right. by apply (forward_edge all qname id q (L qname) _ ZScheduled Hq (or_introl eq_refl) HS).
Qed.

Lemma ForwardIfReady_follows now qnames all :
  (forall q, q ∈ qnames -> q ∈ all) ->
  follows (lifecycle (OForwardIfReady all)) (ForwardIfReady now qnames).
Proof.
  induction qnames as [|qname qnames IH]; intros Hall; [apply follows_still, still_ret|].
  intros db L HD. simpl. apply ewp_bind, ewp_map_error.
  eapply ewp_mono; [apply (forwardAll_follows now qname all); [set_solver|done]| |done].
  intros ? db1 (L1 & HD1 & He1).
  assert (Hk : forall db2, kept (lifecycle (OForwardIfReady all)) L1 db2 ->
                           kept (lifecycle (OForwardIfReady all)) L db2).
  { intros db2 (L2 & HD2 & He2). exists L2. split; [done|]. intros q id.
    destruct (He2 q id) as [-> |H2]; [apply He1|].
    destruct (He1 q id) as [H1|H1]; [rewrite H1 in H2; by right|]. exfalso.
    destruct H1 as (_ & _ & [E|[g E]]), H2 as (_ & [E'|E'] & _); rewrite E in E'; discriminate. }
  eapply ewp_mono; [apply IH; [set_solver|exact HD1]|..]; intros ? db2; apply Hk.
Qed.

(** *** Groups, completed tasks, leases and results *)

Lemma AggregationCheck_follows now setID qname gname t grace delay maxSize :
  follows (lifecycle (OAggregationCheck setID qname gname t grace delay maxSize))
    (AggregationCheck now setID qname gname t grace delay maxSize).
Proof.
  apply follows_then.
  - apply follows_moved. intros q locks loc HI.
    eapply ewp_mono; [by apply aggregationCheckCmd_spec| |done].
    intros n s' [_ [[_ ->]|(_ & _ & _ & HI' & _)]]; [by apply moved_same|].
    eapply moved_to_all; [|exact HI']. intros x Hx. cbn. split; [done|]. split; [|done].
    apply (inv_zset _ _ HI); [done|]. eapply elem_of_submseteq; [exact Hx|].
    apply sublist_submseteq, fmap_sublist, sublist_ZRANGE.
  - intros n. destruct (n =? 0); [auto with still|]. destruct (n =? 1); auto with still.
Qed.

Lemma DeleteAggregationSet_follows qname gname setID :
  follows (lifecycle (ODeleteAggregationSet qname gname setID)) (DeleteAggregationSet qname gname setID).
Proof.
  apply follows_runScript, follows_moved. intros q locks loc HI.
  eapply ewp_mono; [by apply deleteAggregationSetCmd_spec| |done].
  intros ? s' [_ HI']. eapply moved_to_all; [|exact HI']. intros x Hx. cbn. split; [done|].
  split; [|done]. by apply (inv_zset _ _ HI).
Qed.

Lemma Reclaim_follows now qname :
  follows (lifecycle (OReclaimStaleAggregationSets qname)) (ReclaimStaleAggregationSets now qname).
Proof.
  apply follows_runScript, follows_moved. intros q locks loc HI.
  eapply ewp_mono; [by apply reclaimStateAggregationSetsCmd_spec| |done].
  intros ? s' [_ HI']. eexists. split; [exact HI'|]. intros x. unfold reclaimed.
  destruct (loc x) as [[| |[]]|] eqn:Hx; try (by left). case_decide; [right|by left].
  split; [done|]. by repeat eexists.
Qed.

Lemma DeleteExpired_follows now qname :
  follows (lifecycle (ODeleteExpiredCompletedTasks qname)) (DeleteExpiredCompletedTasks now qname).
Proof.
  intros db L HD. unfold DeleteExpiredCompletedTasks.
  eapply ewp_mono; [apply (deleteExpiredLoop_spec now qname _ db _ (HD qname)); unfold forwardFuel; lia| |done].
  intros ? db' [(Ho & _) HI'].
  exists (dset qname (relocate (to_all (due ZCompleted now (queue_of qname db)) None) (L qname)) L). split.
  { intros qname'. unfold dset. case_decide; [subst; exact HI'|]. rewrite Ho by done. apply HD. }
  intros qname' id. unfold dset. case_decide; [subst qname'|by left].
  apply (relocate_to_all_or _ None (L qname) (lifecycle (ODeleteExpiredCompletedTasks qname) qname)).
  intros x Hx. cbn. split; [done|]. split; [|done]. apply (inv_zset _ _ (HD qname)); [done|].
  eapply elem_of_submseteq; [exact Hx|]. apply sublist_submseteq, fmap_sublist, sublist_ZRANGEBYSCORE.
Qed.

Lemma zmembers_extend t (ids : list gostring) (z : zset gostring) :
  forall x, x ∈ zmembers (fold_left (fun z id => zadd_xx t id z) ids z) <-> x ∈ zmembers z.
Proof.
  intros x. revert z. induction ids as [|id ids IH]; intros z; [done|]. cbn [fold_left].
  rewrite IH. apply elem_of_zmembers_zadd_xx.
Qed.

Lemma NoDup_extend t (ids : list gostring) (z : zset gostring) :
  NoDup (zmembers z) -> NoDup (zmembers (fold_left (fun z id => zadd_xx t id z) ids z)).
Proof.
  revert z. induction ids as [|id ids IH]; intros z Hz; [done|]. apply IH. by apply NoDup_zadd_xx.
Qed.

(** Extending a lease changes the scores of the lease set only. *)
Lemma Inv_extend q loc t ids :
  Inv q loc -> Inv (zput ZLease (fold_left (fun z id => zadd_xx t id z) ids (zget ZLease q)) q) loc.
Proof.
  intros HI.
  assert (Hin : forall p x, x ∈ members p (zput ZLease
     (fold_left (fun z id => zadd_xx t id z) ids (zget ZLease q)) q) <-> x ∈ members p q).
  { intros [| |k] x; store_simpl; [done..|]. case_decide; [subst|done]. apply zmembers_extend. }
  split; try apply HI.
  - intros p id. rewrite Hin. apply HI.
  - intros [| |k]; store_simpl; [by eapply nodup_pending|by eapply nodup_active|].
    case_decide; [subst; apply NoDup_extend|]; by eapply nodup_zset.
Qed.

Lemma ExtendLease_follows now qname ids :
  follows (lifecycle (OExtendLease qname ids)) (ExtendLease now qname ids).
Proof.
  apply follows_still. unfold ExtendLease. destruct ids as [|id ids]; [auto with still|].
  apply still_bind; [|auto with still]. apply still_script. intros q locks loc HI.
  by apply Inv_extend.
Qed.

(** Writing a result keeps the other fields of the hash. *)
Lemma Inv_result q loc id data : Inv q loc -> Inv (hset_task id [F_result data] q) loc.
Proof.
  intros HI. split; try apply HI.
  - intros x p Hx. destruct (inv_hash _ _ HI _ _ Hx) as (h & Hh & Hok). rewrite lookup_hset_task.
    case_decide; [subst|by eauto]. eexists. split; [done|]. unfold task_hash. rewrite Hh.
    by destruct h.
  - intros x h st. rewrite lookup_hset_task. case_decide; [subst|apply HI].
    intros [= <-]. unfold task_hash. destruct (q_tasks q !! id) as [h|] eqn:Hh; [|done].
    intros Hst. eapply (inv_placed _ _ HI _ _ _ Hh). by destruct h.
Qed.

Lemma WriteResult_follows qname id data :
  follows (lifecycle (OWriteResult qname id data)) (WriteResult qname id data).
Proof.
  apply follows_still, still_bind; [|auto with still]. apply still_script. intros q locks loc HI.
  by apply Inv_result.
Qed.

Lemma Pause_follows now qname : follows (lifecycle (OPause qname)) (Pause now qname).
Proof.
  apply follows_still, still_bind; [by apply still_script|]. intros [t|]; [auto with still|].
  apply still_script. intros q locks loc HI. by apply Inv_paused.
Qed.

Lemma Unpause_follows qname : follows (lifecycle (OUnpause qname)) (Unpause qname).
Proof.
  apply follows_still, still_bind; [by apply still_script|]. intros [t|]; [|auto with still].
  apply still_script. intros q locks loc HI. by apply Inv_paused.
Qed.

(** *** The operator's commands *)

Lemma runAll_follows R src qname :
  inspectable src -> (forall x, R qname x (Some (PZ src)) pending) -> follows R (runAll src qname).
Proof.
  intros Hi HR. apply still_follows; [auto with still|]. intros ?.
  apply follows_then; [|intros n; destruct (n =? -1); auto with still].
  apply follows_moved. intros q locks loc HI. eapply ewp_mono; [by apply runAllCmd_spec| |done].
  intros n s' [_ HI']. eapply moved_to_all; [|exact HI']. intros x Hx.
  apply (inv_zset _ _ HI) in Hx; [|by intros ->]. by rewrite Hx.
Qed.

Lemma RunAllAggregatingTasks_follows qname g :
  follows (lifecycle (ORunAllAggregatingTasks qname g)) (RunAllAggregatingTasks qname g).
Proof.
  apply still_follows; [auto with still|]. intros ?.
  apply follows_moved. intros q locks loc HI. eapply ewp_mono; [by apply runAllAggregatingCmd_spec| |done].
  intros n s' [_ HI']. eapply moved_to_all; [|exact HI']. intros x Hx.
  by apply (inv_zset _ _ HI) in Hx.
Qed.

Lemma inspectable_cases k :
  inspectable k ->
  let o := Some (PZ k) in
  o = scheduled \/ o = retrying \/ o = archived \/ o = completed \/ exists g, o = grouped g.
Proof. destruct k; try done; cbn; unfold scheduled, retrying, archived, completed, grouped; eauto 8. Qed.

Lemma RunTask_follows qname id : follows (lifecycle (ORunTask qname id)) (RunTask qname id).
Proof.
  apply still_follows; [auto with still|]. intros ?. apply follows_then.
  - apply follows_moved. intros q locks loc HI. eapply ewp_mono; [by apply runTaskCmd_spec|..].
    + intros n s' [_ [(_ & (k & Hk & Hloc) & HI')|(_ & ->)]]; [|by apply moved_same].
      eapply moved_to1; [|exact HI']. cbn. rewrite Hloc. repeat split. by apply inspectable_cases.
    + intros e s' [_ HI']. by apply moved_same.
  - intros n. repeat (destruct (_ =? _); [auto with still|]). auto with still.
Qed.

(** Archiving all tasks of a place. *)
Lemma archives_moved R qname p (m : script Z) q locks loc :
  Inv q loc -> p <> PZ ZLease -> archives q locks loc p m ->
  (forall x, R qname x (Some p) archived) -> (forall x, R qname x (Some p) None) ->
  (forall x, R qname x archived None) ->
  ewp m (fun _ s' => moved R qname loc s'.1) (fun _ s' => moved R qname loc s'.1) (q, locks).
Proof.
  intros HI Hp Hm H1 H2 H3. eapply ewp_mono; [exact Hm| |done].
  intros n s' (_ & keep & HI'). eapply moved_trim; [|done|exact HI'].
  intros x o. unfold to_all. case_decide as Hx; [|done]. intros [= <-].
  apply (members_at _ _ HI) in Hx; [|done]. rewrite Hx. auto.
Qed.

Ltac archive_edges := intros x; unfold lifecycle, to_archive, edge; naive_solver.

Lemma archiveAll_follows R now src qname :
  inspectable src -> src <> ZArchived ->
  (forall x, R qname x (Some (PZ src)) archived) -> (forall x, R qname x (Some (PZ src)) None) ->
  (forall x, R qname x archived None) -> follows R (archiveAll now src qname).
Proof.
  intros Hi Hs H1 H2 H3. apply still_follows; [auto with still|]. intros ?.
  apply follows_then; [|intros n; destruct (n =? -1); auto with still].
  apply follows_moved. intros q locks loc HI.
  eapply (archives_moved _ _ (PZ src)); try done; [by intros [= ->]|by apply archiveAllCmd_spec].
Qed.

Lemma ArchiveAllAggregatingTasks_follows now qname g :
  follows (lifecycle (OArchiveAllAggregatingTasks qname g)) (ArchiveAllAggregatingTasks now qname g).
Proof.
  apply still_follows; [auto with still|]. intros ?. apply follows_moved. intros q locks loc HI.
  eapply (archives_moved _ _ (PZ (ZGroup g)));
    [done|done|by apply archiveAllAggregatingCmd_spec|archive_edges..].
Qed.

Lemma ArchiveAllPendingTasks_follows now qname :
  follows (lifecycle (OArchiveAllPendingTasks qname)) (ArchiveAllPendingTasks now qname).
Proof.
  apply still_follows; [auto with still|]. intros ?. apply follows_moved. intros q locks loc HI.
  eapply (archives_moved _ _ PPending); [done|done|by apply archiveAllPendingCmd_spec|archive_edges..].
Qed.

Lemma ArchiveTask_follows now qname id :
  follows (lifecycle (OArchiveTask qname id)) (ArchiveTask now qname id).
Proof.
  apply still_follows; [auto with still|]. intros ?. apply follows_then.
  - apply follows_moved. intros q locks loc HI. eapply ewp_mono; [by apply archiveTaskCmd_spec|..].
    + intros n s' [_ [(_ & (p & Hp & Hna & Hloc) & keep & HI')|(_ & ->)]]; [|by apply moved_same].
      eapply moved_trim; [| |exact HI'].
      * intros x o. unfold to1. case_decide; [|done]. intros [= <-]. subst. rewrite Hloc.
        assert (Hfrom : Some p = pending \/ Some p = scheduled \/ Some p = retrying
                        \/ Some p = completed \/ exists g, Some p = grouped g).
        { destruct p as [| |[]]; try done; unfold pending, scheduled, retrying, completed, grouped;
            eauto 8. }
        unfold lifecycle, to_archive. naive_solver.
      * archive_edges.
    + intros e s' [_ HI']. by apply moved_same.
  - intros n. repeat (destruct (_ =? _); [auto with still|]). auto with still.
Qed.

Lemma DeleteTask_follows now qname id :
  follows (lifecycle (ODeleteTask qname id)) (DeleteTask now qname id).
Proof.
  apply still_follows; [auto with still|]. intros ?. apply follows_then.
  - apply follows_moved. intros q locks loc HI. eapply ewp_mono; [by apply deleteTaskCmd_spec|..].
    + intros n s' [(_ & (p & Hp & Hloc) & _ & HI')|(_ & ->)]; [|by apply moved_same].
      eapply moved_to1; [|exact HI']. cbn. rewrite Hloc. repeat split.
      destruct p as [| |k]; [by left|done|]. right. by apply inspectable_cases.
    + intros e s' [_ HI']. by apply moved_same.
  - intros n. repeat (destruct (_ =? _); [auto with still|]). auto with still.
Qed.

(** Deleting all tasks of a place. *)
Lemma deletes_moved R qname p (m : script Z) q locks loc :
  Inv q loc -> p <> PZ ZLease -> deletes q locks loc p m -> (forall x, R qname x (Some p) None) ->
  ewp m (fun _ s' => moved R qname loc s'.1) (fun _ s' => moved R qname loc s'.1) (q, locks).
Proof.
  intros HI Hp Hm HR. eapply ewp_mono; [exact Hm| |done].
  intros n s' [_ HI']. eapply moved_to_all; [|exact HI']. intros x Hx.
  apply (members_at _ _ HI) in Hx; [|done]. by rewrite Hx.
Qed.

Lemma deleteAll_follows R now src qname :
  inspectable src -> (forall x, R qname x (Some (PZ src)) None) -> follows R (deleteAll now src qname).
Proof.
  intros Hi HR. apply still_follows; [auto with still|]. intros ?. apply follows_moved.
  intros q locks loc HI. eapply (deletes_moved _ _ (PZ src));
    [done|by intros [= ->]|by apply deleteAllCmd_spec|done].
Qed.

Lemma DeleteAllAggregatingTasks_follows qname g :
  follows (lifecycle (ODeleteAllAggregatingTasks qname g)) (DeleteAllAggregatingTasks qname g).
Proof.
  apply still_follows; [auto with still|]. intros ?. apply follows_moved. intros q locks loc HI.
  eapply (deletes_moved _ _ (PZ (ZGroup g))); [done|done|by apply deleteAllAggregatingCmd_spec|done].
Qed.

Lemma DeleteAllPendingTasks_follows qname :
  follows (lifecycle (ODeleteAllPendingTasks qname)) (DeleteAllPendingTasks qname).
Proof.
  apply still_follows; [auto with still|]. intros ?. apply follows_moved. intros q locks loc HI.
  eapply (deletes_moved _ _ PPending); [done|done|by apply deleteAllPendingCmd_spec|done].
Qed.

Lemma RemoveQueue_follows qname force :
  follows (lifecycle (ORemoveQueue qname force)) (RemoveQueue qname force).
Proof.
  apply still_follows; [auto with still|]. intros ?. apply follows_then.
  - apply follows_moved. intros q locks loc HI.
    assert (Hm : removes_queue q locks loc (if force then removeQueueForceCmd else removeQueueCmd)).
    { destruct force; [by apply removeQueueForceCmd_spec|by apply removeQueueCmd_spec]. }
    eapply ewp_mono; [exact Hm| |done].
    intros n s' [_ [(_ & Hact & HI')|(_ & ->)]]; [|by apply moved_same].
    eapply moved_to_all; [|exact HI']. intros x Hx.
    apply (elem_of_removable_ids _ _ HI) in Hx as (p & Hp & Hx). cbn. rewrite Hx.
    split; [done|]. split; [done|].
    destruct p as [| |[]]; try done; unfold pending, scheduled, retrying, archived; auto.
    exfalso. apply (inv_active _ _ HI) in Hx. rewrite Hact in Hx. by apply elem_of_nil in Hx.
  - intros n. repeat (destruct (_ =? _); [auto with still|]). auto with still.
Qed.

(** ** The refinement *)

Lemma follows_effect {A} R (m : stE DB goerror A) : follows R m -> follows R (effect m).
Proof. intros Hm. apply follows_then; [done|]. auto with still. Qed.

Lemma exec_follows now op : follows (lifecycle op) (exec now op).
Proof.
  destruct op; apply follows_effect.
  - apply Enqueue_follows.
  - apply EnqueueUnique_follows.
  - by apply Dequeue_follows.
  - apply Done_follows.
  - apply MarkAsComplete_follows.
  - apply Requeue_follows.
  - apply AddToGroup_follows.
  - apply AddToGroupUnique_follows.
  - apply Schedule_follows.
  - apply ScheduleUnique_follows.
  - apply Retry_follows.
  - apply Archive_follows.
  - by apply ForwardIfReady_follows.
  - apply AggregationCheck_follows.
  - apply DeleteAggregationSet_follows.
  - apply Reclaim_follows.
  - apply DeleteExpired_follows.
  - apply ExtendLease_follows.
  - apply WriteResult_follows.
  - by apply follows_map_error, runAll_follows.
  - by apply follows_map_error, runAll_follows.
  - by apply follows_map_error, runAll_follows.
  - apply RunAllAggregatingTasks_follows.
  - apply RunTask_follows.
  - apply follows_map_error, archiveAll_follows; [done|done|archive_edges..].
  - apply follows_map_error, archiveAll_follows; [done|done|archive_edges..].
  - apply ArchiveAllAggregatingTasks_follows.
  - apply ArchiveAllPendingTasks_follows.
  - apply ArchiveTask_follows.
  - apply DeleteTask_follows.
  - by apply follows_map_error, deleteAll_follows.
  - by apply follows_map_error, deleteAll_follows.
  - by apply follows_map_error, deleteAll_follows.
  - by apply follows_map_error, deleteAll_follows.
  - apply DeleteAllAggregatingTasks_follows.
  - apply DeleteAllPendingTasks_follows.
  - apply RemoveQueue_follows.
  - apply Pause_follows.
  - apply Unpause_follows.
Qed.

(** The databases reachable from the empty one by operations at arbitrary instants. *)
Inductive reachable : DB -> Prop :=
  | reachable_init : reachable empty_db
  | reachable_step now op db r db' :
      reachable db -> exec now op db = (r, db') -> reachable db'.

Lemma reachable_DInv db : reachable db -> exists L, DInv db L.
Proof.
  induction 1 as [|now op db r db' _ [L HD] Hex]; [eexists; apply DInv_empty|].
  pose proof (exec_follows now op db L HD) as Hf. unfold ewp in Hf. rewrite Hex in Hf.
  destruct r; try done; destruct Hf as (L' & HD' & _); by exists L'.
Qed.
End ops.
