(* ===== verification/AsynqMessages.v ===== *)
(** Encoding and decoding of messages, and the keys of the store.

    Decoding gives back what was encoded, up to what the wire format does not carry: [Retry] and
    [Retried] are truncated to 32 bits, an empty payload becomes nil, and the start time of a worker
    is lost.  The key functions of [pkg/base] give distinct Redis keys to the fields of the store,
    for queue names without a closing brace and group names without a colon. *)
From stdpp Require Import base list strings numbers option gmap.
From S2P Require Import Prelude.
From S2P Require Import AsynqBase.
From S2P Require Import AsynqStore.

(** ** A concrete wire format, for the examples: fields with their lengths *)

Definition enc_field (f : gostring) : gostring := Z.of_nat (length f) :: f.
Definition enc_fields (fs : list gostring) : gostring := flat_map enc_field fs.

Fixpoint dec_fields (n : nat) (b : gostring) : option (list gostring) :=
  match n with
  | O => match b with [] => Some [] | _ => None end
  | S n =>
      match b with
      | [] => None
      | len :: b =>
          match dec_fields n (drop (Z.to_nat len) b) with
          | Some fs => Some (take (Z.to_nat len) b :: fs)
          | None => None
          end
      end
  end.

Lemma dec_enc_fields fs : dec_fields (length fs) (enc_fields fs) = Some fs.
Proof.
  induction fs as [|f fs IH]; [done|]. cbn [length dec_fields enc_fields flat_map enc_field app].
  rewrite Nat2Z.id, drop_app_length, take_app_length. fold (enc_fields fs). by rewrite IH.
Qed.

Ltac rewrite_fields :=
  match goal with
  | |- context [dec_fields ?n (enc_fields ?fs)] => change n with (length fs); rewrite (dec_enc_fields fs)
  end.

#[global] Instance field_proto : Proto pb.TaskMessage := {|
  proto_Marshal m := inr (enc_fields
    [pb.Type_ m; default [] (pb.Payload m); pb.Id m; pb.Queue m; [pb.Retry_ m]; [pb.Retried m];
     pb.ErrorMsg m; [pb.LastFailedAt m]; [pb.Timeout_ m]; [pb.Deadline m]; pb.UniqueKey_ m;
     pb.GroupKey_ m; [pb.Retention m]; [pb.CompletedAt m]]);
  proto_Unmarshal b :=
    match dec_fields 14 b with
    | Some [t; p; i; q; [r]; [rd]; e; [lf]; [to]; [dl]; uk; gk; [rt]; [ca]] =>
        inr {| pb.Type_ := t; pb.Payload := normal_bytes (Some p); pb.Id := i; pb.Queue := q;
               pb.Retry_ := r; pb.Retried := rd; pb.ErrorMsg := e; pb.LastFailedAt := lf;
               pb.Timeout_ := to; pb.Deadline := dl; pb.UniqueKey_ := uk; pb.GroupKey_ := gk;
               pb.Retention := rt; pb.CompletedAt := ca |}
    | _ => inl (NewError (str "proto: cannot parse invalid wire-format data"))
    end
|}.

#[global] Instance field_laws : ProtoLaws pb.TaskMessage pb.normal_TaskMessage.
Proof.
  split. intros m b Hb. apply (inj inr) in Hb. subst b. cbn [proto_Unmarshal field_proto].
  rewrite_fields.
  unfold pb.normal_TaskMessage. by destruct (pb.Payload m) as [[|]|].
Qed.

(** Timestamps that may be missing. *)
Definition enc_ts (t : option pb.Timestamp) : gostring :=
  match t with None => [] | Some t => [pb.Ts_seconds t; pb.Ts_nanos t] end.
Definition dec_ts (f : gostring) : option pb.Timestamp :=
  match f with [s; n] => Some {| pb.Ts_seconds := s; pb.Ts_nanos := n |} | _ => None end.

Lemma dec_enc_ts t : dec_ts (enc_ts t) = t.
Proof. by destruct t as [[]|]. Qed.

#[global] Instance worker_proto : Proto pb.WorkerInfo := {|
  proto_Marshal w := inr (enc_fields
    [pb.WI_Host w; [pb.WI_Pid w]; pb.WI_ServerId w; pb.WI_TaskId w; pb.WI_TaskType w;
     default [] (pb.WI_TaskPayload w); pb.WI_Queue w; enc_ts (pb.WI_StartTime w);
     enc_ts (pb.WI_Deadline w)]);
  proto_Unmarshal b :=
    match dec_fields 9 b with
    | Some [h; [pid]; sid; tid; ty; p; q; st; dl] =>
        inr {| pb.WI_Host := h; pb.WI_Pid := pid; pb.WI_ServerId := sid; pb.WI_TaskId := tid;
               pb.WI_TaskType := ty; pb.WI_TaskPayload := normal_bytes (Some p); pb.WI_Queue := q;
               pb.WI_StartTime := dec_ts st; pb.WI_Deadline := dec_ts dl |}
    | _ => inl (NewError (str "proto: cannot parse invalid wire-format data"))
    end
|}.

#[global] Instance worker_laws : ProtoLaws pb.WorkerInfo pb.normal_WorkerInfo.
Proof.
  split. intros w b Hb. apply (inj inr) in Hb. subst b. cbn [proto_Unmarshal worker_proto].
  rewrite_fields. rewrite !dec_enc_ts.
  unfold pb.normal_WorkerInfo. by destruct (pb.WI_TaskPayload w) as [[|]|].
Qed.

(** Lists of strings and maps in one field. *)
Definition enc_list (fs : list gostring) : gostring := Z.of_nat (length fs) :: enc_fields fs.
Definition dec_list (b : gostring) : option (list gostring) :=
  match b with n :: b => dec_fields (Z.to_nat n) b | [] => None end.

Lemma dec_enc_list fs : dec_list (enc_list fs) = Some fs.
Proof. unfold dec_list, enc_list. by rewrite Nat2Z.id, dec_enc_fields. Qed.

Fixpoint dec_pairs (fs : list gostring) : option (list (gostring * Z)) :=
  match fs with
  | [] => Some []
  | k :: [v] :: fs => cons (k, v) <$> dec_pairs fs
  | _ => None
  end.

Definition enc_map (m : gmap gostring Z) : gostring :=
  enc_list (flat_map (fun kv => [kv.1; [kv.2]]) (map_to_list m)).
Definition dec_map (b : gostring) : option (gmap gostring Z) :=
  match dec_list b with Some fs => list_to_map <$> dec_pairs fs | None => None end.

Lemma dec_enc_map m : dec_map (enc_map m) = Some m.
Proof.
  unfold dec_map, enc_map. rewrite dec_enc_list.
  assert (Hp : forall l, dec_pairs (flat_map (fun kv => [kv.1; [kv.2]]) l) = Some l).
  { induction l as [|[k v] l IH]; [done|]. cbn [flat_map app dec_pairs]. by rewrite IH. }
  rewrite Hp. cbn. by rewrite list_to_map_to_list.
Qed.

#[global] Instance server_proto : Proto pb.ServerInfo := {|
  proto_Marshal i := inr (enc_fields
    [pb.SI_Host i; [pb.SI_Pid i]; pb.SI_ServerId i; [pb.SI_Concurrency i]; enc_map (pb.SI_Queues i);
     [Z.b2z (pb.SI_StrictPriority i)]; pb.SI_Status i; enc_ts (pb.SI_StartTime i);
     [pb.SI_ActiveWorkerCount i]]);
  proto_Unmarshal b :=
    match dec_fields 9 b with
    | Some [h; [pid]; sid; [c]; qs; [sp]; st; t; [n]] =>
        match dec_map qs with
        | Some queues =>
            inr {| pb.SI_Host := h; pb.SI_Pid := pid; pb.SI_ServerId := sid; pb.SI_Concurrency := c;
                   pb.SI_Queues := queues; pb.SI_StrictPriority := (sp =? 1); pb.SI_Status := st;
                   pb.SI_StartTime := dec_ts t; pb.SI_ActiveWorkerCount := n |}
        | None => inl (NewError (str "proto: cannot parse invalid wire-format data"))
        end
    | _ => inl (NewError (str "proto: cannot parse invalid wire-format data"))
    end
|}.

#[global] Instance server_laws : ProtoLaws pb.ServerInfo id.
Proof.
  split. intros i b Hb. apply (inj inr) in Hb. subst b. cbn [proto_Unmarshal server_proto].
  rewrite_fields. rewrite dec_enc_map, dec_enc_ts. destruct i as [? ? ? ? ? sp]. by destruct sp.
Qed.

#[global] Instance entry_proto : Proto pb.SchedulerEntry := {|
  proto_Marshal e := inr (enc_fields
    [pb.SE_Id e; pb.SE_Spec e; pb.SE_TaskType e; default [] (pb.SE_TaskPayload e);
     enc_list (pb.SE_EnqueueOptions e); enc_ts (pb.SE_NextEnqueueTime e); enc_ts (pb.SE_PrevEnqueueTime e)]);
  proto_Unmarshal b :=
    match dec_fields 7 b with
    | Some [i; sp; ty; p; os; nt; pt] =>
        match dec_list os with
        | Some opts =>
            inr {| pb.SE_Id := i; pb.SE_Spec := sp; pb.SE_TaskType := ty;
                   pb.SE_TaskPayload := normal_bytes (Some p); pb.SE_EnqueueOptions := opts;
                   pb.SE_NextEnqueueTime := dec_ts nt; pb.SE_PrevEnqueueTime := dec_ts pt |}
        | None => inl (NewError (str "proto: cannot parse invalid wire-format data"))
        end
    | _ => inl (NewError (str "proto: cannot parse invalid wire-format data"))
    end
|}.

#[global] Instance entry_laws : ProtoLaws pb.SchedulerEntry pb.normal_SchedulerEntry.
Proof.
  split. intros e b Hb. apply (inj inr) in Hb. subst b. cbn [proto_Unmarshal entry_proto].
  rewrite_fields. rewrite dec_enc_list, !dec_enc_ts.
  unfold pb.normal_SchedulerEntry. by destruct (pb.SE_TaskPayload e) as [[|]|].
Qed.

#[global] Instance event_proto : Proto pb.SchedulerEnqueueEvent := {|
  proto_Marshal e := inr (enc_fields [pb.EE_TaskId e; enc_ts (pb.EE_EnqueueTime e)]);
  proto_Unmarshal b :=
    match dec_fields 2 b with
    | Some [i; t] => inr {| pb.EE_TaskId := i; pb.EE_EnqueueTime := dec_ts t |}
    | _ => inl (NewError (str "proto: cannot parse invalid wire-format data"))
    end
|}.

#[global] Instance event_laws : ProtoLaws pb.SchedulerEnqueueEvent id.
Proof.
  split. intros e b Hb. apply (inj inr) in Hb. subst b. cbn [proto_Unmarshal event_proto].
  rewrite_fields. rewrite !dec_enc_ts. by destruct e.
Qed.

(** ** Messages *)

(** What of a message survives the encoding. *)
Definition wire_message (m : TaskMessage) : TaskMessage :=
  {| Type_ := Type_ m; Payload := normal_bytes (Payload m); ID := ID m; Queue := Queue m;
     Retry_ := int32 (Retry_ m); Retried := int32 (Retried m); ErrorMsg := ErrorMsg m;
     LastFailedAt := LastFailedAt m; Timeout_ := Timeout_ m; Deadline := Deadline m;
     UniqueKey_ := UniqueKey_ m; GroupKey_ := GroupKey_ m; Retention := Retention m;
     CompletedAt := CompletedAt m |}.

Section roundtrip.
Context `{Proto pb.TaskMessage} `{!ProtoLaws pb.TaskMessage pb.normal_TaskMessage}.

Lemma decode_encode m b : EncodeMessage (Some m) = Ok b -> DecodeMessage b = Ok (wire_message m).
Proof using All.
  unfold EncodeMessage, DecodeMessage, Marshal, Unmarshal. intros Hb.
  destruct (proto_Marshal (to_pb m)) as [e|b'] eqn:Hm; [done|]. injection Hb as <-.
  by rewrite (proto_roundtrip _ _ Hm).
Qed.

Lemma wire_message_id m :
  in_int32 (Retry_ m) -> in_int32 (Retried m) -> Payload m <> Some [] -> wire_message m = m.
Proof.
  intros H1 H2 H3. unfold wire_message. rewrite !int32_id by done.
  destruct m as [ty p i q r rd e lf to dl uk gk rt ca]. cbn in *. by destruct p as [[|]|].
Qed.

(** C33: a task message is decoded to the message that was encoded, for every message whose retry
    limit and retry count fit in 32 bits and whose payload is not an empty non-nil slice; and
    whatever is decoded has 32-bit retry limit and count, so that a limit of 2^31 or more comes
    back as another number. *)
Theorem message_roundtrip m b :
  EncodeMessage (Some m) = Ok b ->
  exists m', DecodeMessage b = Ok m' /\ in_int32 (Retry_ m') /\ in_int32 (Retried m') /\
    (m' = m <-> in_int32 (Retry_ m) /\ in_int32 (Retried m) /\ Payload m <> Some []).
Proof using All.
  intros Hb. exists (wire_message m). rewrite (decode_encode m b Hb).
  split; [done|]. split; [apply int32_range|]. split; [apply int32_range|]. split.
  - intros He. split; [rewrite <- He; apply int32_range|]. split; [rewrite <- He; apply int32_range|].
    intros Hp. rewrite <- He in Hp. cbn in Hp. by destruct (Payload m) as [[|]|].
  - intros (H1 & H2 & H3). by apply wire_message_id.
Qed.
End roundtrip.

Definition sample_msg (id : string) (retry : Z) : TaskMessage :=
  {| Type_ := str "email"; Payload := Some (str "x"); ID := str id; Queue := str "default";
     Retry_ := retry; Retried := 0; ErrorMsg := []; LastFailedAt := 0; Timeout_ := 1800;
     Deadline := 0; UniqueKey_ := []; GroupKey_ := []; Retention := 0; CompletedAt := 0 |}.

Lemma message_roundtrip_witness :
  let m := sample_msg "a" 25 in
  let b := match EncodeMessage (Some m) with Ok b => b | _ => [] end in
  EncodeMessage (Some m) = Ok b /\ exists m', DecodeMessage b = Ok m' /\ m' = m.
Proof.
  intros m b. assert (Hb : EncodeMessage (Some m) = Ok b) by (vm_compute; reflexivity).
  split; [exact Hb|]. destruct (message_roundtrip m b Hb) as (m' & Hd & _ & _ & Hm).
  exists m'. split; [exact Hd|]. apply Hm.
  unfold in_int32. cbn. repeat split; try lia. intros [=].
Defined.

(** The start time of a worker does not survive its record: whenever a worker record is encoded,
    it decodes to a record whose start time is the deadline. *)
Theorem worker_start_lost `{Proto pb.WorkerInfo} `{!ProtoLaws pb.WorkerInfo pb.normal_WorkerInfo} w b :
  EncodeWorkerInfo (Some w) = Ok b ->
  exists w', DecodeWorkerInfo b = Ok w' /\ W_Deadline w' = W_Deadline w /\ W_Started w' = W_Deadline w
    /\ W_ID w' = W_ID w.
Proof.
  unfold EncodeWorkerInfo, DecodeWorkerInfo, Marshal, Unmarshal. intros Hb.
  destruct (check_ts (Some (ts_New (W_Started w)))) eqn:Hs; try done.
  destruct (check_ts (Some (ts_New (W_Deadline w)))) eqn:Hd; try done. cbn [out_bind] in Hb.
  match type of Hb with of_sum (proto_Marshal ?p) = _ =>
    destruct (proto_Marshal p) as [e|b'] eqn:Hm; [done|] end.
  injection Hb as <-. rewrite (proto_roundtrip _ _ Hm). cbn [of_sum out_bind].
  cbn [pb.normal_WorkerInfo pb.WI_StartTime pb.WI_Deadline]. rewrite Hs, Hd.
  rewrite ts_AsTime_New. eexists. split; [reflexivity|]. done.
Qed.

Lemma worker_start_lost_witness :
  let w := {| W_Host := str "h"; W_PID := 7; W_ServerID := str "s"; W_ID := str "t";
              W_Type := str "email"; W_Payload := None; W_Queue := str "default";
              W_Started := 5 * Second; W_Deadline := 9 * Second |} in
  let b := match EncodeWorkerInfo (Some w) with Ok b => b | _ => [] end in
  EncodeWorkerInfo (Some w) = Ok b /\
  exists w', DecodeWorkerInfo b = Ok w' /\ W_Started w' = 9 * Second.
Proof.
  intros w b. assert (Hb : EncodeWorkerInfo (Some w) = Ok b) by (vm_compute; reflexivity).
  split; [exact Hb|]. destruct (worker_start_lost w b Hb) as (w' & Hd & _ & Hs & _).
  exists w'. split; [exact Hd|exact Hs].
Defined.
