(* ===== verification/AsynqRegistrySpec.v ===== *)
(** What servers and schedulers publish is found again, until it expires. *)
From stdpp Require Import base list strings numbers option gmap sorting.
From S2P Require Import Prelude.
From S2P Require Import Redis.
From S2P Require Import AsynqBase.
From S2P Require Import AsynqStore.
From S2P Require Import AsynqInspect.
From S2P Require Import AsynqRegistry.
From S2P Require Import AsynqMessages.

(** ** The queues are not touched *)

Definition keeps_queues {E A} (m : stE DB E A) : Prop := forall db, db_queues (m db).2 = db_queues db.

Lemma keeps_on_registry {E A} (m : stE Registry E A) : keeps_queues (on_registry m).
Proof. intros db. unfold on_registry. by destruct (m (db_registry db)) as [r g]. Qed.

Lemma keeps_map_error {E E' A} (f : E -> E') (m : stE DB E A) : keeps_queues m -> keeps_queues (map_error f m).
Proof. intros Hm db. unfold map_error. specialize (Hm db). by destruct (m db) as [r db']. Qed.

Lemma keeps_bind {E A B} (m : stE DB E A) (f : A -> stE DB E B) :
  keeps_queues m -> (forall a, keeps_queues (f a)) -> keeps_queues (ebind m f).
Proof.
  intros Hm Hf db. unfold ebind. specialize (Hm db). destruct (m db) as [[a|e|p|] db']; [|done..].
  cbn [snd] in Hm. by rewrite Hf.
Qed.

Lemma keeps_ret {E A} (a : A) : keeps_queues (E := E) (eret a).
Proof. done. Qed.

Create HintDb registry.
#[export] Hint Resolve keeps_on_registry keeps_map_error keeps_bind keeps_ret : registry.

Lemma WriteServerState_queues `{Proto pb.ServerInfo} `{Proto pb.WorkerInfo} now info ws ttl :
  keeps_queues (WriteServerState now info ws ttl).
Proof.
  unfold WriteServerState. destruct (EncodeServerInfo _); [|done..].
  unfold command, runRegistryScript. eauto 8 with registry.
Qed.

Lemma ClearServerState_queues host pid sid : keeps_queues (ClearServerState host pid sid).
Proof. unfold ClearServerState, command, runRegistryScript. eauto 8 with registry. Qed.

(** ** What the wire keeps of a record *)

Definition wire_server (i : ServerInfo) : ServerInfo :=
  {| Host := Host i; PID := int32 (PID i); ServerID := ServerID i; Concurrency := int32 (Concurrency i);
     Queues := int32 <$> Queues i; StrictPriority := StrictPriority i; Status := Status i;
     Started := Started i; ActiveWorkerCount := int32 (ActiveWorkerCount i) |}.

(** The start of a worker comes back as its deadline. *)
Definition wire_worker (w : WorkerInfo) : WorkerInfo :=
  {| W_Host := W_Host w; W_PID := int32 (W_PID w); W_ServerID := W_ServerID w; W_ID := W_ID w;
     W_Type := W_Type w; W_Payload := normal_bytes (W_Payload w); W_Queue := W_Queue w;
     W_Started := W_Deadline w; W_Deadline := W_Deadline w |}.

Definition wire_entry (e : SchedulerEntry) : SchedulerEntry :=
  {| S_ID := S_ID e; S_Spec := S_Spec e; S_Type := S_Type e; S_Payload := normal_bytes (S_Payload e);
     S_Opts := S_Opts e; S_Next := S_Next e; S_Prev := S_Prev e |}.

(** Encoding checks the times and marshals; decoding unmarshals and checks the same times. *)
Ltac by_wire :=
  unfold Marshal, Unmarshal;
  repeat match goal with
  | |- context [check_ts (Some (ts_New ?t))] =>
      lazymatch goal with
      | H : check_ts (Some (ts_New t)) = _ |- _ => rewrite H
      | _ => destruct (check_ts (Some (ts_New t))) eqn:?; try done; cbn [out_bind]
      end
  end;
  match goal with
  | |- of_sum (proto_Marshal ?p) = _ -> _ =>
      let Hm := fresh "Hm" in
      destruct (proto_Marshal p) eqn:Hm; [done|]; intros [= <-]; rewrite (proto_roundtrip _ _ Hm)
  end;
  cbn [of_sum out_bind id pb.normal_WorkerInfo pb.normal_SchedulerEntry pb.SI_StartTime pb.WI_StartTime
    pb.WI_Deadline pb.SE_NextEnqueueTime pb.SE_PrevEnqueueTime pb.EE_EnqueueTime];
  repeat match goal with H : check_ts _ = _ |- _ => rewrite H end;
  rewrite ?ts_AsTime_New; reflexivity.

Section wire.
Context `{Proto pb.ServerInfo} `{!ProtoLaws pb.ServerInfo id}.
Context `{Proto pb.WorkerInfo} `{!ProtoLaws pb.WorkerInfo pb.normal_WorkerInfo}.
Context `{Proto pb.SchedulerEntry} `{!ProtoLaws pb.SchedulerEntry pb.normal_SchedulerEntry}.
Context `{Proto pb.SchedulerEnqueueEvent} `{!ProtoLaws pb.SchedulerEnqueueEvent id}.

Lemma server_wire i b : EncodeServerInfo (Some i) = Ok b -> DecodeServerInfo b = Ok (wire_server i).
Proof using ProtoLaws0. unfold EncodeServerInfo, DecodeServerInfo. by_wire. Qed.

Lemma worker_wire w b : EncodeWorkerInfo (Some w) = Ok b -> DecodeWorkerInfo b = Ok (wire_worker w).
Proof using ProtoLaws1. unfold EncodeWorkerInfo, DecodeWorkerInfo. by_wire. Qed.

Lemma entry_wire e b : EncodeSchedulerEntry (Some e) = Ok b -> DecodeSchedulerEntry b = Ok (wire_entry e).
Proof using ProtoLaws2. unfold EncodeSchedulerEntry, DecodeSchedulerEntry. by_wire. Qed.

Lemma event_wire e b : EncodeSchedulerEnqueueEvent (Some e) = Ok b -> DecodeSchedulerEnqueueEvent b = Ok e.
Proof using ProtoLaws3.
  unfold EncodeSchedulerEnqueueEvent, DecodeSchedulerEnqueueEvent. destruct e as [i t]. cbn [EnqueuedAt TaskID].
  by_wire.
Qed.
End wire.

(** ** The lists *)

Section lists.
Context {A : Type} (k : Roster) (read : Z -> Registry -> gostring -> list gostring)
  (decode_ : gostring -> outcome goerror A).

(** The records under a key that a list shows at instant [now]. *)
Definition records_at (now : Z) (db : DB) (key : gostring) : list A :=
  if bool_decide (key ∈ zmembers (filter (fun e => Unix now <= e.2) (roster k (db_registry db))))
  then decodable decode_ (read now (db_registry db) key) else [].

Lemma listRoster_spec now db :
  (forall z g key, read now (set_roster k z g) key = read now g key) ->
  exists l db', listRoster k now (read now) decode_ db = (Ok l, db') /\ db_queues db' = db_queues db /\
    forall x, x ∈ l <-> exists key, x ∈ records_at now db key.
Proof.
  intros Hread. unfold listRoster, ebind, map_error, on_registry, listKeysCmd. cbn [fst snd db_registry].
  eexists _, _. split; [reflexivity|]. split; [done|]. intros x. rewrite list_elem_of_In, in_flat_map.
  unfold records_at. split.
  - intros (key & Hkey & Hx). exists key. rewrite bool_decide_true by (by apply list_elem_of_In).
    rewrite Hread in Hx. by apply list_elem_of_In.
  - intros (key & Hx). case_bool_decide as Hb; [|by apply elem_of_nil in Hx]. exists key. rewrite Hread.
    by split; apply list_elem_of_In.
Qed.
End lists.

Definition read_info (now : Z) (g : Registry) (key : gostring) : list gostring :=
  match live now (r_infos g) key with Some v => [v] | None => [] end.
Definition read_hash (now : Z) (g : Registry) (key : gostring) : list gostring :=
  map snd (map_to_list (default ∅ (live now (r_hashes g) key))).
Definition read_list (now : Z) (g : Registry) (key : gostring) : list gostring :=
  default [] (live now (r_lists g) key).

(** ** The scripts that write a hash and a list *)

Lemma live_insert {V} (now : Z) (m : gmap gostring (V * option Z)) (key : gostring) (v : V) (e : option Z)
    (key' : gostring) :
  live now (<[key := (v, e)]> m) key' =
  if decide (key' = key) then match e with Some e => if now <? e then Some v else None | None => Some v end
  else live now m key'.
Proof.
  unfold live. case_decide as Hk; [subst; by rewrite lookup_insert_eq|]. by rewrite lookup_insert_ne.
Qed.

Lemma live_delete {V} (now : Z) (m : gmap gostring (V * option Z)) (key key' : gostring) :
  live now (delete key m) key' = if decide (key' = key) then None else live now m key'.
Proof.
  unfold live. case_decide as Hk; [subst; by rewrite lookup_delete_eq|]. by rewrite lookup_delete_ne.
Qed.

(** A loop of writes that keeps all but one field. *)
Lemma efor_writes {A} (f : A -> Registry -> Registry) (l : list A) g :
  efor (fun a => g_writes (f a)) l g = (Ok tt, fold_left (fun g a => f a g) l g).
Proof. revert g. induction l as [|a l IH]; intros g; [done|]. cbn. by rewrite <- IH. Qed.

Lemma hset_loop now key (l : list (gostring * gostring)) : forall g m,
  r_hashes g !! key = Some (m, None) ->
  fold_left (fun g w => set_hashes (HSET_reg now key w.1 w.2 (r_hashes g)) g) l g =
  set_hashes (<[key := (fold_left (fun m w => <[w.1 := w.2]> m) l m, None)]> (r_hashes g)) g.
Proof.
  induction l as [|w l IH]; intros g m Hm; cbn [fold_left].
  - rewrite insert_id by done. by destruct g.
  - assert (Hw : HSET_reg now key w.1 w.2 (r_hashes g) = <[key := (<[w.1 := w.2]> m, None)]> (r_hashes g)).
    { unfold HSET_reg, expiry, live. by rewrite Hm. }
    rewrite Hw. rewrite (IH _ (<[w.1 := w.2]> m)); [|cbn [set_hashes r_hashes]; by rewrite lookup_insert_eq].
    cbn [set_hashes r_hashes]. by rewrite insert_insert_eq.
Qed.

Lemma lpush_loop now key (l : list gostring) : forall g m,
  r_lists g !! key = Some (m, None) ->
  fold_left (fun g v => set_lists (LPUSH_reg now key v (r_lists g)) g) l g =
  set_lists (<[key := (rev l ++ m, None)]> (r_lists g)) g.
Proof.
  induction l as [|v l IH]; intros g m Hm; cbn [fold_left].
  - cbn [rev app]. rewrite insert_id by done. by destruct g.
  - assert (Hw : LPUSH_reg now key v (r_lists g) = <[key := (v :: m, None)]> (r_lists g)).
    { unfold LPUSH_reg, expiry, live. by rewrite Hm. }
    rewrite Hw. rewrite (IH _ (v :: m)); [|cbn [set_lists r_lists]; by rewrite lookup_insert_eq].
    cbn [set_lists r_lists rev]. by rewrite insert_insert_eq, <- app_assoc.
Qed.

(** Fields written to a new hash, and its values. *)
Definition hash_of (l : list (gostring * gostring)) : gmap gostring gostring :=
  fold_left (fun m w => <[w.1 := w.2]> m) l ∅.

Lemma hash_of_values (l : list (gostring * gostring)) :
  NoDup (map fst l) -> Permutation (map snd (map_to_list (hash_of l))) (map snd l).
Proof.
  intros Hnd.
  assert (Hh : forall (l : list (gostring * gostring)) (m : gmap gostring gostring), NoDup (map fst l) -> (forall x, x ∈ map fst l -> m !! x = None) ->
    Permutation (map snd (map_to_list (fold_left (fun m w => <[w.1 := w.2]> m) l m)))
      (map snd (map_to_list m) ++ map snd l)).
  { clear l Hnd. induction l as [|[i b] l IH]; intros m Hnd Hm; [by rewrite app_nil_r|].
    cbn [map fst] in Hnd. apply NoDup_cons in Hnd as [Hi Hnd]. cbn [fold_left fst snd].
    rewrite IH; [|done|].
    - rewrite map_to_list_insert by (apply Hm, list_elem_of_here). cbn [map snd app].
      apply Permutation_middle.
    - intros x Hx. rewrite lookup_insert_ne by (intros ->; done). apply Hm. by apply list_elem_of_further. }
  unfold hash_of. rewrite Hh; [|done|done]. by rewrite map_to_list_empty.
Qed.

Lemma hset_all now key (l : list (gostring * gostring)) g :
  r_hashes g !! key = None ->
  fold_left (fun g w => set_hashes (HSET_reg now key w.1 w.2 (r_hashes g)) g) l g =
  if bool_decide (l = []) then g else set_hashes (<[key := (hash_of l, None)]> (r_hashes g)) g.
Proof.
  intros Hk. destruct l as [|w l]; [done|]. rewrite bool_decide_false by done. cbn [fold_left].
  assert (Hw : HSET_reg now key w.1 w.2 (r_hashes g) = <[key := (<[w.1 := w.2]> ∅, None)]> (r_hashes g)).
  { unfold HSET_reg, expiry, live. by rewrite Hk. }
  rewrite Hw, (hset_loop now key l _ (<[w.1 := w.2]> ∅)); [|cbn; by rewrite lookup_insert_eq].
  cbn [set_hashes r_hashes]. by rewrite insert_insert_eq.
Qed.

(** The effect of a successful write of the state of a server. *)
Lemma writeServerStateCmd_spec now skey wkey ttl info args g r g' :
  writeServerStateCmd now skey wkey ttl info args g = (r, g') ->
  (r = Ok tt /\ 0 < ttl /\
   r_infos g' = <[skey := (info, Some (now + ttl))]> (r_infos g) /\
   r_hashes g' = (if bool_decide (args = []) then delete wkey (r_hashes g)
                  else <[wkey := (hash_of args, Some (now + ttl))]> (delete wkey (r_hashes g))) /\
   forall k, roster k g' = roster k g)
  \/ (exists e, r = Err e) /\ g' = g.
Proof.
  unfold writeServerStateCmd, SETEX, whole_seconds, ebind, ethrow.
  destruct (ttl mod Second =? 0); [|intros [= <- <-]; right; eauto].
  destruct (Z.leb_spec ttl 0) as [|Hpos]; [intros [= <- <-]; right; eauto|].
  unfold g_writes at 1 2. rewrite efor_writes. unfold g_writes. cbn [fst snd]. intros [= <- <-]. left.
  split; [done|]. split; [done|]. rewrite hset_all by (cbn; by rewrite lookup_delete_eq).
  unfold EXPIRE. case_bool_decide as Ha; cbn [set_hashes set_infos r_hashes r_infos].
  - rewrite live_delete, decide_True by done. split; [done|]. split; [done|]. by intros [].
  - rewrite live_insert, decide_True by done. destruct (Z.leb_spec ttl 0); [lia|].
    rewrite insert_insert_eq. split; [done|]. split; [done|]. by intros [].
Qed.

Lemma shown_zadd (u s : Z) (k key : gostring) (z : zset gostring) :
  key ∈ zmembers (filter (fun e => u <= e.2) (zadd s k z)) <->
  if decide (key = k) then u <= s else key ∈ zmembers (filter (fun e => u <= e.2) z).
Proof.
  case_decide as Hk; [subst key|]; rewrite !elem_of_zmembers; setoid_rewrite list_elem_of_filter;
    setoid_rewrite elem_of_zadd; cbn [fst snd].
  - split; [intros (t & Hu & [[= ->]|[Hne _]]); done|]. intros Hu. exists s. auto.
  - split; intros (t & Hu & Ht); exists t; (split; [done|]); [|by right].
    destruct Ht as [[= -> ->]|[_ Ht]]; done.
Qed.

Lemma shown_zadd_bool (u s : Z) (k key : gostring) (z : zset gostring) :
  bool_decide (key ∈ zmembers (filter (fun e => u <= e.2) (zadd s k z))) =
  if decide (key = k) then bool_decide (u <= s) else bool_decide (key ∈ zmembers (filter (fun e => u <= e.2) z)).
Proof.
  pose proof (shown_zadd u s k key z) as Hz. case_decide; by apply bool_decide_ext.
Qed.

Section roundtrips.
Context `{Proto pb.ServerInfo} `{!ProtoLaws pb.ServerInfo id}.
Context `{Proto pb.WorkerInfo} `{!ProtoLaws pb.WorkerInfo pb.normal_WorkerInfo}.

Lemma WriteServerState_ok now info ws ttl db db' :
  WriteServerState now info ws ttl db = (Ok tt, db') ->
  let g := db_registry db in let g' := db_registry db' in
  let skey := ServerInfoKey (Host info) (PID info) (ServerID info) in
  let wkey := WorkersKey (Host info) (PID info) (ServerID info) in
  let args := map (fun w => (W_ID w.1, w.2)) (encodable (fun w => EncodeWorkerInfo (Some w)) ws) in
  exists bytes, EncodeServerInfo (Some info) = Ok bytes /\ 0 < ttl /\
    r_servers g' = zadd (Unix (now + ttl)) skey (r_servers g) /\
    r_workers g' = zadd (Unix (now + ttl)) wkey (r_workers g) /\
    r_infos g' = <[skey := (bytes, Some (now + ttl))]> (r_infos g) /\
    r_hashes g' = (if bool_decide (args = []) then delete wkey (r_hashes g)
                   else <[wkey := (hash_of args, Some (now + ttl))]> (delete wkey (r_hashes g))).
Proof using.
  unfold WriteServerState. destruct (EncodeServerInfo (Some info)) as [bytes|e|p|]; [|done..].
  unfold command, runRegistryScript, map_error, on_registry, ebind, ZADD_key, g_writes, eret.
  cbn [db_registry db_queues db_locks db_all].
  set (args := map _ _). set (g1 := set_roster Workers _ _).
  destruct (writeServerStateCmd _ _ _ _ _ _ g1) as [r g'] eqn:Hrun.
  destruct (writeServerStateCmd_spec _ _ _ _ _ _ _ _ _ Hrun) as [(-> & Hpos & Hi & Hh & Hr)|([e ->] & _)]; [|done].
  intros [= <-]. exists bytes. split; [done|]. split; [done|].
  split; [exact (Hr Servers)|]. split; [exact (Hr Workers)|]. done.
Qed.

(** The values of the workers that encode decode to what the wire keeps of them. *)
Lemma decodable_workers (ws : list WorkerInfo) :
  let args := encodable (fun w => EncodeWorkerInfo (Some w)) ws in
  decodable DecodeWorkerInfo (map snd args) = map (fun w => wire_worker w.1) args.
Proof using All.
  cbv zeta. unfold encodable, decodable. induction ws as [|w ws IH]; [done|]. cbn [flat_map].
  destruct (EncodeWorkerInfo (Some w)) as [b|e|p|] eqn:Hw; [|exact IH..]. cbn [app map snd fst flat_map].
  rewrite (worker_wire w b Hw). cbn [app]. by rewrite IH.
Qed.

Lemma encodable_ids (ws : list WorkerInfo) :
  sublist (map (fun w => W_ID w.1) (encodable (fun w => EncodeWorkerInfo (Some w)) ws)) (map W_ID ws).
Proof using.
  unfold encodable. induction ws as [|w ws IH]; [done|]. cbn [flat_map map].
  destruct (EncodeWorkerInfo (Some w)); cbn [app map fst]; [by constructor|by apply sublist_cons..].
Qed.

Lemma decodable_perm {A} (decode_ : gostring -> outcome goerror A) l l' :
  Permutation l l' -> Permutation (decodable decode_ l) (decodable decode_ l').
Proof using.
  unfold decodable. induction 1 as [|x l l' _ IH|x y l|l1 l2 l3 _ IH1 _ IH2]; [done| | |by etransitivity].
  - cbn. by rewrite IH.
  - cbn. rewrite !app_assoc. apply Permutation_app_tail, Permutation_app_comm.
Qed.
Lemma elem_of_encodable_map {B} (f : WorkerInfo -> B) ws x :
  x ∈ map (fun w => f w.1) (encodable (fun w => EncodeWorkerInfo (Some w)) ws) <->
  exists w b, w ∈ ws /\ EncodeWorkerInfo (Some w) = Ok b /\ x = f w.
Proof using.
  rewrite list_elem_of_fmap. unfold encodable. setoid_rewrite list_elem_of_In. setoid_rewrite in_flat_map. split.
  - intros ([w b] & -> & w' & Hw' & Hb). destruct (EncodeWorkerInfo (Some w')) eqn:He; [|done..].
    destruct Hb as [[= -> ->]|[]]. by exists w, b.
  - intros (w & b & Hw & Hb & ->). exists (w, b). split; [done|]. exists w. split; [done|]. rewrite Hb. by left.
Qed.

(** The records under the key of the server, and under other keys, after a write. *)
Lemma servers_after now info ws ttl db db' now' key :
  WriteServerState now info ws ttl db = (Ok tt, db') ->
  records_at Servers read_info DecodeServerInfo now' db' key =
  if decide (key = ServerInfoKey (Host info) (PID info) (ServerID info))
  then (if now' <? now + ttl then [wire_server info] else [])
  else records_at Servers read_info DecodeServerInfo now' db key.
Proof using All.
  intros Hw. destruct (WriteServerState_ok _ _ _ _ _ _ Hw) as (b & Hb & Hpos & Hs & _ & Hi & _).
  unfold records_at, read_info, roster. rewrite Hs, Hi, live_insert.
  rewrite shown_zadd_bool.
  case_decide as Hk; [|done]. destruct (Z.ltb_spec now' (now + ttl)) as [Hlt|Hge].
  - rewrite bool_decide_true by (apply Z.div_le_mono; [done|lia]). cbn. by rewrite (server_wire info b Hb).
  - by destruct (bool_decide _).
Qed.

Lemma workers_after now info ws ttl db db' now' key :
  WriteServerState now info ws ttl db = (Ok tt, db') -> NoDup (map W_ID ws) ->
  Permutation (records_at Workers read_hash DecodeWorkerInfo now' db' key)
    (if decide (key = WorkersKey (Host info) (PID info) (ServerID info))
     then (if now' <? now + ttl
           then map (fun w => wire_worker w.1) (encodable (fun w => EncodeWorkerInfo (Some w)) ws) else [])
     else records_at Workers read_hash DecodeWorkerInfo now' db key).
Proof using All.
  intros Hw Hnd. destruct (WriteServerState_ok _ _ _ _ _ _ Hw) as (b & Hb & Hpos & _ & Hs & _ & Hh).
  set (args := map _ _) in Hh. unfold records_at, read_hash, roster. rewrite Hs, Hh.
  rewrite shown_zadd_bool.
  assert (Hlive : live now' (if bool_decide (args = [])
      then delete (WorkersKey (Host info) (PID info) (ServerID info)) (r_hashes (db_registry db))
      else <[WorkersKey (Host info) (PID info) (ServerID info) := (hash_of args, Some (now + ttl))]>
             (delete (WorkersKey (Host info) (PID info) (ServerID info)) (r_hashes (db_registry db)))) key =
    if decide (key = WorkersKey (Host info) (PID info) (ServerID info))
    then (if bool_decide (args = []) then None else if now' <? now + ttl then Some (hash_of args) else None)
    else live now' (r_hashes (db_registry db)) key).
  { case_bool_decide; rewrite ?live_insert, live_delete; by case_decide. }
  rewrite Hlive. case_decide as Hk; [|done]. destruct (Z.ltb_spec now' (now + ttl)) as [Hlt|Hge].
  - rewrite bool_decide_true by (apply Z.div_le_mono; [done|lia]).
    assert (Hd : default ∅ (if bool_decide (args = []) then None else Some (hash_of args)) = hash_of args).
    { case_bool_decide as Ha; [by rewrite Ha|done]. }
    rewrite Hd. rewrite (decodable_perm _ _ (map snd args)).
    + unfold args. rewrite map_map. cbn [snd]. by rewrite decodable_workers.
    + apply hash_of_values. unfold args. rewrite map_map. cbn [fst].
      eapply sublist_NoDup; [exact Hnd|]. apply encodable_ids.
  - destruct (bool_decide (args = [])); by destruct (bool_decide _).
Qed.

(** C14: what a server publishes is found: after a successful WriteServerState, and until its time to live
    has passed, ListServers shows the server and ListWorkers shows its workers, up to what the wire
    keeps of a record; afterwards they do not.  The records under other keys are shown as before. *)
Theorem server_state_roundtrip now now' info ws ttl db db' :
  WriteServerState now info ws ttl db = (Ok tt, db') -> NoDup (map W_ID ws) ->
  let skey := ServerInfoKey (Host info) (PID info) (ServerID info) in
  let wkey := WorkersKey (Host info) (PID info) (ServerID info) in
  exists servers workers db1 db2, ListServers now' db' = (Ok servers, db1) /\ ListWorkers now' db' = (Ok workers, db2) /\
    (forall x, x ∈ servers <-> (x = wire_server info /\ now' < now + ttl) \/
       exists key, key <> skey /\ x ∈ records_at Servers read_info DecodeServerInfo now' db key) /\
    (forall x, x ∈ workers <->
       (now' < now + ttl /\ exists w b, w ∈ ws /\ EncodeWorkerInfo (Some w) = Ok b /\ x = wire_worker w) \/
       exists key, key <> wkey /\ x ∈ records_at Workers read_hash DecodeWorkerInfo now' db key).
Proof using All.
  intros Hw Hnd skey wkey.
  destruct (listRoster_spec Servers read_info DecodeServerInfo now' db') as (ss & db1 & Hs & _ & Hss); [done|].
  destruct (listRoster_spec Workers read_hash DecodeWorkerInfo now' db') as (vs & db2 & Hv & _ & Hvs); [done|].
  exists ss, vs, db1, db2. split; [exact Hs|]. split; [exact Hv|]. split; intros x.
  - rewrite Hss. setoid_rewrite (fun key => servers_after now info ws ttl db db' now' key Hw). fold skey. split.
    + intros [key Hx]. case_decide as Hk; [|right; eauto]. left.
      destruct (Z.ltb_spec now' (now + ttl)); [|by apply elem_of_nil in Hx]. by apply list_elem_of_singleton in Hx.
    + intros [[-> Hlt]|(key & Hne & Hx)]; [exists skey|exists key; by rewrite decide_False].
      rewrite decide_True by done. destruct (Z.ltb_spec now' (now + ttl)); [|lia]. by apply list_elem_of_singleton.
  - rewrite Hvs. setoid_rewrite (fun key => workers_after now info ws ttl db db' now' key Hw Hnd). fold wkey. split.
    + intros [key Hx]. case_decide as Hk; [|right; eauto]. left.
      destruct (Z.ltb_spec now' (now + ttl)); [|by apply elem_of_nil in Hx]. split; [done|].
      by apply elem_of_encodable_map in Hx.
    + intros [[Hlt Hx]|(key & Hne & Hx)]; [exists wkey|exists key; by rewrite decide_False].
      rewrite decide_True by done. destruct (Z.ltb_spec now' (now + ttl)); [|lia]. by apply elem_of_encodable_map.
Qed.
End roundtrips.

(** ** Scheduler entries *)

Section entries.
Context `{Proto pb.SchedulerEntry} `{!ProtoLaws pb.SchedulerEntry pb.normal_SchedulerEntry}.

Lemma lpush_all now key (l : list gostring) g :
  r_lists g !! key = None ->
  fold_left (fun g v => set_lists (LPUSH_reg now key v (r_lists g)) g) l g =
  if bool_decide (l = []) then g else set_lists (<[key := (rev l, None)]> (r_lists g)) g.
Proof using.
  intros Hk. destruct l as [|v l]; [done|]. rewrite bool_decide_false by done. cbn [fold_left rev].
  assert (Hw : LPUSH_reg now key v (r_lists g) = <[key := ([v], None)]> (r_lists g)).
  { unfold LPUSH_reg, expiry, live. by rewrite Hk. }
  rewrite Hw, (lpush_loop now key l _ [v]); [|cbn; by rewrite lookup_insert_eq].
  cbn [set_lists r_lists]. by rewrite insert_insert_eq.
Qed.

Lemma decodable_entries (es : list SchedulerEntry) :
  let args := encodable (fun e => EncodeSchedulerEntry (Some e)) es in
  decodable DecodeSchedulerEntry (rev (map snd args)) = rev (map (fun e => wire_entry e.1) args).
Proof using All.
  cbv zeta. unfold encodable, decodable. induction es as [|e es IH]; [done|]. cbn [flat_map].
  destruct (EncodeSchedulerEntry (Some e)) as [b|err|p|] eqn:He; [|exact IH..]. cbn [app map snd fst rev].
  rewrite flat_map_app, IH. cbn. by rewrite (entry_wire e b He).
Qed.

Lemma writeSchedulerEntriesCmd_spec now key ttl args g r g' :
  writeSchedulerEntriesCmd now key ttl args g = (r, g') -> 0 < ttl ->
  ((r = Ok tt /\
    r_lists g' = (if bool_decide (args = []) then delete key (r_lists g)
                  else <[key := (rev args, Some (now + ttl))]> (delete key (r_lists g))))
   \/ exists e, r = Err e) /\
  forall k, roster k g' = roster k g.
Proof using.
  unfold writeSchedulerEntriesCmd, whole_seconds, ebind, g_writes at 1. rewrite efor_writes.
  rewrite lpush_all by (cbn; by rewrite lookup_delete_eq).
  destruct (ttl mod Second =? 0); unfold g_writes; cbn [fst snd]; intros [= <- <-] Hpos.
  2:{ split; [right; eauto|]. intros k. case_bool_decide; by destruct k. }
  split; [left; split; [done|]|intros k; case_bool_decide; by destruct k].
  unfold EXPIRE. case_bool_decide; cbn [set_lists r_lists].
  - by rewrite live_delete, decide_True.
  - rewrite live_insert, decide_True by done. destruct (Z.leb_spec ttl 0); [lia|]. by rewrite insert_insert_eq.
Qed.

(** The entries under the key of the scheduler, and under other keys, after a write. *)
Lemma entries_after now id es ttl db db' now' key :
  WriteSchedulerEntries now id es ttl db = (Ok tt, db') -> 0 < ttl ->
  records_at Schedulers read_list DecodeSchedulerEntry now' db' key =
  if decide (key = SchedulerEntriesKey id)
  then (if now' <? now + ttl
        then rev (map (fun e => wire_entry e.1) (encodable (fun e => EncodeSchedulerEntry (Some e)) es)) else [])
  else records_at Schedulers read_list DecodeSchedulerEntry now' db key.
Proof using All.
  unfold WriteSchedulerEntries, command, runRegistryScript, map_error, on_registry, ebind, ZADD_key, g_writes, eret.
  cbn [db_registry db_queues db_locks db_all]. rewrite <- decodable_entries.
  set (args := map snd _). set (g1 := set_roster Schedulers _ _).
  destruct (writeSchedulerEntriesCmd _ _ _ _ g1) as [r g'] eqn:Hrun. intros Hok Hpos.
  destruct (writeSchedulerEntriesCmd_spec _ _ _ _ _ _ _ Hrun Hpos) as [[[-> Hl]|[e ->]] Hr]; [|done].
  injection Hok as <-. unfold records_at, read_list. cbn [db_registry]. rewrite Hr, Hl.
  cbn [g1 roster set_roster r_schedulers r_lists]. rewrite shown_zadd_bool.
  assert (Hlive : live now' (if bool_decide (args = []) then delete (SchedulerEntriesKey id) (r_lists (db_registry db))
      else <[SchedulerEntriesKey id := (rev args, Some (now + ttl))]>
             (delete (SchedulerEntriesKey id) (r_lists (db_registry db)))) key =
    if decide (key = SchedulerEntriesKey id)
    then (if bool_decide (args = []) then None else if now' <? now + ttl then Some (rev args) else None)
    else live now' (r_lists (db_registry db)) key).
  { case_bool_decide; rewrite ?live_insert, live_delete; by case_decide. }
  unfold g1. cbn [set_roster r_lists]. rewrite Hlive. case_decide as Hk; [|done].
  destruct (Z.ltb_spec now' (now + ttl)) as [Hlt|Hge].
  - rewrite bool_decide_true by (apply Z.div_le_mono; [done|lia]). case_bool_decide as Ha; [by rewrite Ha|done].
  - destruct (bool_decide (args = [])); by destruct (bool_decide _).
Qed.
End entries.

(** ** The history of a scheduler entry *)

Lemma zindices_head (len k : Z) :
  0 <= len -> 0 < k -> zindices len 0 (- k) = (0%nat, Z.to_nat (len - k + 1)).
Proof.
  intros Hlen Hk. unfold zindices. destruct (Z.ltb_spec (- k) 0); [|lia]. cbn [Z.ltb Z.compare].
  rewrite Z.max_id. destruct (Z.ltb_spec (len + - k) 0), (Z.leb_spec len 0); cbn [orb]; f_equal; lia.
Qed.

(** Removing the ranks from 0 to [-k] keeps the last [k - 1] elements. *)
Lemma ZREMRANGEBYRANK_keep (z : zset gostring) (k : nat) :
  (0 < k)%nat -> ZREMRANGEBYRANK z 0 (- Z.of_nat k) = drop (length z - (k - 1)) z.
Proof.
  intros Hk. unfold ZREMRANGEBYRANK, ZCARD. rewrite zindices_head by lia. rewrite take_0.
  cbn [app Nat.add]. f_equal. lia.
Qed.

(** A member with a score above all others goes to the end. *)
Lemma zadd_last (z : zset gostring) (s : Z) (d : gostring) :
  (forall e, e ∈ z -> e.2 < s /\ e.1 <> d) -> zadd s d z = z ++ [(d, s)].
Proof.
  intros Hz. unfold zadd. rewrite zrem_none.
  - induction z as [|e z IH]; [done|]. cbn [zinsert app]. unfold zelem_leb. cbn [fst snd].
    destruct (Hz e) as [Hlt _]; [apply list_elem_of_here|].
    destruct (Z.ltb_spec s e.2), (Z.eqb_spec s e.2); try lia. cbn [orb andb]. f_equal. apply IH.
    intros e' He'. apply Hz. by apply list_elem_of_further.
  - intros Hd%elem_of_zmembers. destruct Hd as [t Ht]. by destruct (Hz _ Ht).
Qed.

Section history.
Context `{Proto pb.SchedulerEnqueueEvent} `{!ProtoLaws pb.SchedulerEnqueueEvent id}.

(** The calls that record some events. *)
Fixpoint record_all (entryID : gostring) (es : list SchedulerEnqueueEvent) (db : DB) : DB :=
  match es with
  | [] => db
  | e :: es => record_all entryID es (RecordSchedulerEnqueueEvent entryID e db).2
  end.

Definition history_of (entryID : gostring) (db : DB) : zset gostring :=
  default [] (r_history (db_registry db) !! SchedulerHistoryKey entryID).

Lemma record_spec entryID e b db :
  EncodeSchedulerEnqueueEvent (Some e) = Ok b ->
  exists db', RecordSchedulerEnqueueEvent entryID e db = (Ok tt, db') /\
    history_of entryID db' =
      zadd (Unix (EnqueuedAt e)) b (drop (length (history_of entryID db) - 999) (history_of entryID db)).
Proof using.
  intros Hb. unfold RecordSchedulerEnqueueEvent. rewrite Hb. unfold runRegistryScript, map_error, on_registry,
    recordSchedulerEnqueueEventCmd, ebind, g_writes, eret. cbn [fst snd]. eexists. split; [reflexivity|]. unfold history_of. cbn [db_registry r_history set_history].
  rewrite !lookup_insert_eq. cbn [default].
  change (- maxEvents) with (- Z.of_nat 1000). by rewrite ZREMRANGEBYRANK_keep by lia.
Qed.

(** An event with its data on the wire. *)
Definition on_wire (e : SchedulerEnqueueEvent) (d : gostring * Z) : Prop :=
  EncodeSchedulerEnqueueEvent (Some e) = Ok d.1 /\ d.2 = Unix (EnqueuedAt e).

Definition later (e e' : SchedulerEnqueueEvent) : Prop := Unix (EnqueuedAt e) < Unix (EnqueuedAt e').

Lemma record_all_snoc entryID es e db :
  record_all entryID (es ++ [e]) db = (RecordSchedulerEnqueueEvent entryID e (record_all entryID es db)).2.
Proof using. revert db. induction es as [|e' es IH]; intros db; [done|]. cbn. apply IH. Qed.

(** The history keeps the last 1000 events. *)
Lemma record_all_history entryID es ds db :
  Forall2 on_wire es ds -> StronglySorted later es -> history_of entryID db = [] ->
  history_of entryID (record_all entryID es db) = drop (length ds - 1000) ds.
Proof using All.
  intros Hw Hs Hempty. revert ds Hw Hs. induction es as [|e es IH] using rev_ind; intros ds Hw Hs.
  - apply Forall2_nil_inv_l in Hw as ->. exact Hempty.
  - apply Forall2_app_inv_l in Hw as (ds1 & ds2 & Hw1 & Hw2 & ->).
    apply Forall2_cons_inv_l in Hw2 as ([b s] & ds3 & [Hb Hsc] & Hnil & ->).
    apply Forall2_nil_inv_l in Hnil as ->. cbn [fst snd] in Hb, Hsc.
    apply StronglySorted_app in Hs as (Hbefore & Hs1 & _). rewrite record_all_snoc.
    destruct (record_spec entryID e b (record_all entryID es db) Hb) as (db' & -> & Hh). cbn [snd].
    rewrite Hh, (IH ds1 Hw1 Hs1). rewrite length_drop, drop_drop.
    assert (Hlt : forall d, d ∈ ds1 -> d.2 < s /\ d.1 <> b).
    { intros d Hd. destruct (list_elem_of_lookup_1 _ _ Hd) as [i Hi].
      destruct (Forall2_lookup_r _ _ _ _ _ Hw1 Hi) as (e' & He' & Hb' & Hs').
      assert (Hl : later e' e) by (apply Hbefore; [by eapply list_elem_of_lookup_2|apply list_elem_of_here]).
      unfold later in Hl. split; [lia|]. intros Heq. rewrite Heq in Hb'.
      pose proof (event_wire _ _ Hb) as D1. pose proof (event_wire _ _ Hb') as D2.
      assert (e = e') as -> by congruence. lia. }
    rewrite <- Hsc, zadd_last.
    + rewrite length_app. cbn [length]. rewrite drop_app_le by lia. do 2 f_equal. lia.
    + intros d Hd. apply Hlt. rewrite <- (take_drop (length ds1 - 1000 + (length ds1 - (length ds1 - 1000) - 999)) ds1).
      apply elem_of_app. by right.
Qed.
Lemma decodeEvents_wire es ds :
  Forall2 on_wire es ds -> decodeEvents (zmembers ds) = Ok es.
Proof using All.
  induction 1 as [|e d es ds [Hb _] _ IH]; [done|]. cbn [zmembers map decodeEvents].
  rewrite (event_wire e d.1 Hb). cbn [out_bind]. fold (zmembers ds). by rewrite IH.
Qed.

(** C15: the history of a scheduler entry is the last thousand events, newest first: when events are recorded
    in order, at least a second apart, the first page of 1000 shows the last 1000 of them in
    reverse order; older events are dropped, and no more are ever kept. *)
Theorem history_keeps_latest entryID es ds db :
  Forall2 on_wire es ds -> StronglySorted later es -> history_of entryID db = [] ->
  let db' := record_all entryID es db in
  (length (history_of entryID db') <= 1000)%nat /\
  ListSchedulerEnqueueEvents entryID {| Size := maxEvents; Page := 0 |} db' = (Ok (take 1000 (rev es)), db').
Proof using All.
  intros Hw Hs Hempty db'. pose proof (record_all_history entryID es ds db Hw Hs Hempty) as Hh. fold db' in Hh.
  split; [rewrite Hh, length_drop; lia|].
  unfold ListSchedulerEnqueueEvents. fold (history_of entryID db'). rewrite Hh. f_equal.
  change (Pagination_start _) with 0. change (Pagination_stop _) with 999. unfold ZREVRANGE.
  assert (Hr : rev (drop (length ds - 1000) ds) = take 1000 (rev ds)) by (symmetry; apply firstn_rev).
  rewrite Hr. unfold ZRANGE, zindices, ZCARD. cbn [Z.ltb Z.compare]. rewrite Z.max_id. cbn [Z.ltb Z.compare orb].
  set (z := take 1000 (rev ds)). assert (Hlen : (length z <= 1000)%nat) by (unfold z; rewrite length_take; lia).
  assert (Hwz : Forall2 on_wire (take 1000 (rev es)) z).
  { apply Forall2_take. pose proof (Forall2_reverse _ _ _ Hw) as Hv. unfold reverse in Hv.
    by rewrite <- !rev_alt in Hv. }
  destruct (Z.leb_spec (Z.of_nat (length z)) 0) as [Hz0|_].
  - assert (z = []) as Hnil by (destruct z; [done|cbn in Hz0; lia]). rewrite Hnil in *.
    apply Forall2_nil_inv_r in Hwz as ->. done.
  - change (Z.to_nat 0) with 0%nat. rewrite drop_0, take_ge by lia. by apply decodeEvents_wire.
Qed.
End history.

(** ** Examples *)

Definition sample_server : ServerInfo :=
  {| Host := str "host"; PID := 7; ServerID := str "s"; Concurrency := 10; Queues := {[ str "default" := 1 ]};
     StrictPriority := false; Status := str "active"; Started := 0; ActiveWorkerCount := 1 |}.
Definition sample_worker_info : WorkerInfo :=
  {| W_Host := str "host"; W_PID := 7; W_ServerID := str "s"; W_ID := str "t"; W_Type := str "email";
     W_Payload := None; W_Queue := str "default"; W_Started := 0; W_Deadline := 9 * Second |}.

(** Written at instant 0 for ten seconds: seen after five, gone after ten. *)
Lemma server_state_roundtrip_witness :
  let db := (WriteServerState 0 sample_server [sample_worker_info] (10 * Second) empty_db).2 in
  (exists servers db1, ListServers (5 * Second) db = (Ok servers, db1) /\ (wire_server sample_server ∈ servers)) /\
  exists workers db2, ListWorkers (10 * Second) db = (Ok workers, db2) /\ (wire_worker sample_worker_info ∉ workers).
Proof.
  intros db.
  assert (Hw : WriteServerState 0 sample_server [sample_worker_info] (10 * Second) empty_db = (Ok tt, db))
    by (unfold db; vm_compute; reflexivity).
  assert (Hnd : NoDup (map W_ID [sample_worker_info])) by apply NoDup_singleton. split.
  - destruct (server_state_roundtrip 0 (5 * Second) _ _ _ _ _ Hw Hnd) as (ss & _ & db1 & _ & Hs & _ & Hin & _).
    exists ss, db1. split; [exact Hs|]. apply Hin. left. split; [reflexivity|]. vm_compute. reflexivity.
  - destruct (server_state_roundtrip 0 (10 * Second) _ _ _ _ _ Hw Hnd) as (_ & vs & _ & db2 & _ & Hv & _ & Hin).
    exists vs, db2. split; [exact Hv|]. intros Hx. apply Hin in Hx as [[Hlt _]|(key & _ & Hx)].
    + vm_compute in Hlt. discriminate Hlt.
    + unfold records_at in Hx. cbn in Hx. by apply elem_of_nil in Hx.
Defined.

Definition sample_event (n : Z) : SchedulerEnqueueEvent := {| TaskID := str "t"; EnqueuedAt := n * Second |}.

Lemma history_keeps_latest_witness :
  let db := record_all (str "e") [sample_event 1; sample_event 2] empty_db in
  ListSchedulerEnqueueEvents (str "e") {| Size := maxEvents; Page := 0 |} db
  = (Ok [sample_event 2; sample_event 1], db).
Proof.
  intros db.
  assert (Hw : Forall2 on_wire [sample_event 1; sample_event 2]
    [(match EncodeSchedulerEnqueueEvent (Some (sample_event 1)) with Ok b => b | _ => [] end, 1);
     (match EncodeSchedulerEnqueueEvent (Some (sample_event 2)) with Ok b => b | _ => [] end, 2)]).
  { repeat constructor. }
  destruct (history_keeps_latest (str "e") _ _ empty_db Hw) as [_ Hl].
  - repeat constructor.
  - reflexivity.
  - exact Hl.
Defined.
