(* ===== verification/AsynqKeys.v ===== *)
(** The fields of the store are distinct Redis keys.

    [QKey] names the keys of one queue and [key_string] gives their strings with the functions of
    [pkg/base]; [keys_distinct] says that they do not clash, which is what lets [AsynqStore] keep
    them in separate fields. *)
From stdpp Require Import base list strings numbers option gmap.
From S2P Require Import Prelude.
From S2P Require Import Md5.
From S2P Require Import AsynqBase.
From S2P Require Import AsynqStore.

Inductive QKey :=
  | KTask (id : gostring)
  | KPending
  | KActive
  | KZset (k : ZKey)
  | KPaused
  | KProcessedTotal
  | KFailedTotal
  | KProcessed (t : Z)
  | KFailed (t : Z)
  | KUnique (tasktype : gostring) (payload : option gostring)
  | KAllGroups
  | KAllAggregationSets.

Definition key_string (qname : gostring) (k : QKey) : gostring :=
  match k with
  | KTask id => TaskKey qname id
  | KPending => PendingKey qname
  | KActive => ActiveKey qname
  | KZset ZLease => LeaseKey qname
  | KZset ZScheduled => ScheduledKey qname
  | KZset ZRetry => RetryKey qname
  | KZset ZArchived => ArchivedKey qname
  | KZset ZCompleted => CompletedKey qname
  | KZset (ZGroup g) => GroupKey qname g
  | KZset (ZAggregationSet g s) => AggregationSetKey qname g s
  | KPaused => PausedKey qname
  | KProcessedTotal => ProcessedTotalKey qname
  | KFailedTotal => FailedTotalKey qname
  | KProcessed t => ProcessedKey qname t
  | KFailed t => FailedKey qname t
  | KUnique ty p => UniqueKey qname ty p
  | KAllGroups => AllGroups qname
  | KAllAggregationSets => AllAggregationSets qname
  end.

(** Equal up to what the string does not tell: the day of a counter, the checksum of a payload. *)
Definition same_key (k k' : QKey) : Prop :=
  match k, k' with
  | KProcessed t, KProcessed t' | KFailed t, KFailed t' => FormatDate t = FormatDate t'
  | KUnique _ _, KUnique _ _ => True
  | _, _ => k = k'
  end.

(** Group names and set ids without a colon. *)
Definition plain_key (k : QKey) : Prop :=
  match k with
  | KZset (ZGroup g) => chr ":" ∉ g
  | KZset (ZAggregationSet g s) => (chr ":" ∉ g) /\ (chr ":" ∉ s)
  | _ => True
  end.

(** The first occurrence of a separator splits a string. *)
Lemma split_at_sep (c : Z) (a b a' b' : gostring) :
  c ∉ a -> c ∉ a' -> a ++ c :: b = a' ++ c :: b' -> a = a' /\ b = b'.
Proof.
  revert a'. induction a as [|x a IH]; intros [|y a'] Ha Ha' He; cbn in He.
  - by injection He.
  - injection He as -> He. set_solver.
  - injection He as -> He. set_solver.
  - injection He as -> He. destruct (IH a') as [-> ->]; set_solver.
Qed.

(** The part of a key after the prefix of its queue. *)
Definition key_suffix (k : QKey) : gostring :=
  match k with
  | KTask id => str "t:" ++ id
  | KPending => str "pending"
  | KActive => str "active"
  | KZset ZLease => str "lease"
  | KZset ZScheduled => str "scheduled"
  | KZset ZRetry => str "retry"
  | KZset ZArchived => str "archived"
  | KZset ZCompleted => str "completed"
  | KZset (ZGroup g) => str "g:" ++ g
  | KZset (ZAggregationSet g s) => str "g:" ++ g ++ str ":" ++ s
  | KPaused => str "paused"
  | KProcessedTotal => str "processed"
  | KFailedTotal => str "failed"
  | KProcessed t => str "processed:" ++ FormatDate t
  | KFailed t => str "failed:" ++ FormatDate t
  | KUnique ty None => str "unique:" ++ ty ++ str ":"
  | KUnique ty (Some p) => str "unique:" ++ ty ++ str ":" ++ hex_encode (md5_sum p)
  | KAllGroups => str "groups"
  | KAllAggregationSets => str "aggregation_sets"
  end.

Lemma key_string_suffix qname k : key_string qname k = QueueKeyPrefix qname ++ key_suffix k.
Proof.
  destruct k as [id| | |[]| | | |t|t|ty [p|]| | ]; cbn [key_string key_suffix]; try reflexivity.
  - unfold TaskKey, TaskKeyPrefix. by rewrite <- app_assoc.
  - unfold GroupKey, GroupKeyPrefix. by rewrite <- app_assoc.
  - unfold AggregationSetKey, GroupKey, GroupKeyPrefix. by rewrite <- !app_assoc.
Qed.

Lemma prefix_inj qname qname' s s' :
  chr "}" ∉ qname -> chr "}" ∉ qname' ->
  QueueKeyPrefix qname ++ s = QueueKeyPrefix qname' ++ s' -> qname = qname' /\ s = s'.
Proof.
  intros Hq Hq' He. unfold QueueKeyPrefix in He. rewrite <- !app_assoc in He.
  apply (inj (app (str "asynq:{"))) in He.
  apply (split_at_sep (chr "}") qname (chr ":" :: s) qname' (chr ":" :: s')) in He; [|done..].
  destruct He as [-> He]. split; [done|]. by injection He.
Qed.

(** The first two characters tell the kinds of keys apart, but for the two counters. *)
Definition key_kind (k : QKey) : nat :=
  match k with
  | KTask _ => 0 | KPending => 1 | KActive => 2 | KZset ZLease => 3 | KZset ZScheduled => 4
  | KZset ZRetry => 5 | KZset ZArchived => 6 | KZset ZCompleted => 7
  | KZset (ZGroup _) | KZset (ZAggregationSet _ _) => 8
  | KPaused => 9 | KProcessedTotal | KProcessed _ => 10 | KFailedTotal | KFailed _ => 11
  | KUnique _ _ => 12 | KAllGroups => 13 | KAllAggregationSets => 14
  end%nat.

Definition kind_of_prefix (s : gostring) : option nat :=
  list_find (fun x => x = take 2 s)
    (map str ["t:"; "pe"; "ac"; "le"; "sc"; "re"; "ar"; "co"; "g:"; "pa"; "pr"; "fa"; "un"; "gr"; "ag"])
  ≫= fun x => Some x.1.

Lemma kind_of_suffix k : kind_of_prefix (key_suffix k) = Some (key_kind k).
Proof. by destruct k as [id| | |[]| | | |t|t|ty [p|]| | ]. Qed.

Lemma suffix_inj k k' : plain_key k -> plain_key k' -> key_suffix k = key_suffix k' -> same_key k k'.
Proof.
  intros Hk Hk' He. assert (Hkind : key_kind k = key_kind k').
  { apply (inj Some). by rewrite <- !kind_of_suffix, He. }
  destruct k as [id| | |[]| | | |t|t|ty p| | ], k' as [id'| | |[]| | | |t'|t'|ty' p'| | ];
    try discriminate Hkind; cbn [same_key key_suffix plain_key] in *; try done.
  - apply (inj (app (str "t:"))) in He. by subst.
  - apply (inj (app (str "g:"))) in He. by subst.
  - apply (inj (app (str "g:"))) in He. subst. exfalso. apply Hk. set_solver.
  - apply (inj (app (str "g:"))) in He. subst. exfalso. apply Hk'. set_solver.
  - apply (inj (app (str "g:"))) in He.
    apply (split_at_sep (chr ":")) in He as [-> ->]; [done|apply Hk|apply Hk'].
  - by apply (inj (app (str "processed:"))) in He.
  - by apply (inj (app (str "failed:"))) in He.
Qed.

(** The group key that [reclaimStateAggregationSetsCmd] computes from the key of an aggregation set:
    the string up to its last colon ([string.find(key, ":[^:]*$")] and [string.sub]). *)
Fixpoint drop_segment (r : gostring) : gostring :=
  match r with
  | [] => []
  | c :: r => if c =? chr ":" then r else drop_segment r
  end.

Definition lua_group_key (key : gostring) : gostring := reverse (drop_segment (reverse key)).

Lemma drop_segment_app (s t : gostring) :
  chr ":" ∉ s -> drop_segment (s ++ chr ":" :: t) = t.
Proof.
  induction s as [|c s IH]; intros Hs; cbn [app drop_segment]; [done|].
  destruct (Z.eqb_spec c (chr ":")) as [->|Hc]; [set_solver|]. apply IH. set_solver.
Qed.

Lemma lua_group_key_ok qname g s :
  chr ":" ∉ s -> lua_group_key (AggregationSetKey qname g s) = GroupKey qname g.
Proof.
  intros Hs. unfold lua_group_key, AggregationSetKey.
  replace (reverse (GroupKey qname g ++ str ":" ++ s))
    with (reverse s ++ chr ":" :: reverse (GroupKey qname g)).
  - rewrite drop_segment_app by (by rewrite elem_of_reverse). apply reverse_involutive.
  - rewrite !reverse_app. by rewrite <- app_assoc.
Qed.

(** C35: the fields of the store are distinct Redis keys: for queue names without a closing brace,
    group names and set ids without a colon, two keys with the same string belong to the same queue
    and are the same key (counters of one day, and uniqueness locks, apart); the key a stale
    aggregation set is given back to is the key of its group; and without the condition on colons
    the key of an aggregation set is the key of another group. *)
Theorem keys_distinct qname qname' k k' :
  chr "}" ∉ qname -> chr "}" ∉ qname' -> plain_key k -> plain_key k' ->
  (key_string qname k = key_string qname' k' -> qname = qname' /\ same_key k k') /\
  (forall g s, k = KZset (ZAggregationSet g s) ->
     lua_group_key (key_string qname k) = key_string qname (KZset (ZGroup g)) /\
     key_string qname k = key_string qname (KZset (ZGroup (g ++ str ":" ++ s)))).
Proof.
  intros Hq Hq' Hk Hk'. split.
  - rewrite !key_string_suffix. intros He. apply prefix_inj in He as [-> He]; [|done..].
    split; [done|]. by apply suffix_inj.
  - intros g s ->. cbn [key_string]. split; [apply lua_group_key_ok, Hk|].
    unfold AggregationSetKey, GroupKey. by rewrite <- app_assoc.
Qed.

Lemma keys_distinct_witness :
  key_string (str "low") (KZset (ZAggregationSet (str "a") (str "b"))) <>
    key_string (str "low") (KTask (str "x")) /\
  key_string (str "low") (KZset (ZAggregationSet (str "a") (str "b"))) =
    key_string (str "low") (KZset (ZGroup (str "a:b"))).
Proof.
  assert (Hc : forall s : string, ~ In (chr ":") (str s) -> chr ":" ∉ str s).
  { intros s Hs. by rewrite list_elem_of_In. }
  assert (Hb : chr "}" ∉ str "low") by (rewrite list_elem_of_In; vm_compute; intuition discriminate).
  destruct (keys_distinct (str "low") (str "low") (KZset (ZAggregationSet (str "a") (str "b")))
              (KTask (str "x"))) as [H1 H2]; [exact Hb|exact Hb| |exact I|].
  - split; apply Hc; vm_compute; intuition discriminate.
  - split.
    + intros He. destruct (H1 He) as [_ Hs]. discriminate Hs.
    + exact (proj2 (H2 _ _ eq_refl)).
Defined.
