(* ===== verification/AsynqLife.v ===== *)
(** The theorems on the task queue: the life cycle and the invariant on all reachable databases, the
    forwarding of due tasks, and the order in which tasks are taken. *)
From stdpp Require Import base list strings numbers option gmap.
From S2P Require Import Prelude.
From S2P Require Import Redis.
From S2P Require Import AsynqBase.
From S2P Require Import AsynqStore.
From S2P Require Import AsynqRdb.
From S2P Require Import AsynqInspect.
From S2P Require Import AsynqInv.
From S2P Require Import AsynqScripts.
From S2P Require Import AsynqMoves.
From S2P Require Import AsynqInspectSpec.
From S2P Require Import AsynqDb.
From S2P Require Import AsynqSpec.
From S2P Require Import AsynqRefine.
From S2P Require Import AsynqMessages.

(** A method that returned or failed, without a panic, with the database it left. *)
Definition returns {A} (r : outcome goerror A) : Prop := (exists a, r = Ok a) \/ exists e, r = Err e.

Lemma ewp_returns {A} (m : stE DB goerror A) Q X db :
  ewp m Q X db -> exists r db', m db = (r, db') /\ returns r
    /\ (forall a, r = Ok a -> Q a db') /\ (forall e, r = Err e -> X e db').
Proof.
  unfold ewp, returns. destruct (m db) as [[a|e|p|] db']; intros Hm; try done.
  - exists (Ok a), db'. repeat split; [eauto|by intros a' [= ->]|done].
  - exists (Err e), db'. repeat split; [eauto|done|by intros e' [= ->]].
Qed.

Lemma follows_returns {A} R (m : stE DB goerror A) db L :
  follows R m -> DInv db L -> exists r db', m db = (r, db') /\ returns r /\ kept R L db'.
Proof.
  intros Hm HD. destruct (ewp_returns _ _ _ _ (Hm db L HD)) as (r & db' & Hr & Hret & Hok & Herr).
  exists r, db'. split; [done|]. split; [done|].
  destruct Hret as [[a Ha]|[e He]]; [by eapply Hok|by eapply Herr].
Qed.

Section life.
Context `{Proto pb.TaskMessage}.

(** C4: every operation on the task queue (enqueueing, scheduling, grouping, taking, completing,
    requeueing, retrying, archiving, forwarding, aggregating, reclaiming, expiring, and the
    operator's run, archive, delete, remove and pause commands) ends with a result or an error,
    keeps the invariant of the store, and leaves every task of every queue where it was or moves it
    along the life cycle of that operation; no other queue and no other task is touched. *)
Theorem lifecycle_refinement now op db L :
  DInv db L ->
  exists r db' L', exec now op db = (r, db') /\ returns r /\ DInv db' L' /\
    forall qname id, L' qname id = L qname id \/ lifecycle op qname id (L qname id) (L' qname id).
Proof.
  intros HD. destruct (follows_returns _ _ db L (exec_follows now op) HD) as (r & db' & Hr & Hret & L' & HD' & He).
  exists r, db', L'. auto.
Qed.

(** C5: on every database reachable by operations: a task id is in at most one list or set of its
    queue (the lease set goes with the active list), and once; its hash exists, has a message and
    the state of that list or set; a task is leased exactly when it is active; and a hash with a
    state is in its list or set, unless it was trimmed from the archive. *)
Theorem task_in_one_place db qname id :
  reachable db ->
  let q := queue_of qname db in
  (forall p p', p <> PZ ZLease -> p' <> PZ ZLease -> id ∈ members p q -> id ∈ members p' q -> p = p') /\
  (forall p, NoDup (members p q)) /\
  (forall p, p <> PZ ZLease -> id ∈ members p q ->
     exists h, q_tasks q !! id = Some h /\ h_state h = state_of p /\ is_Some (h_msg h)) /\
  (id ∈ zmembers (zget ZLease q) <-> id ∈ q_active q) /\
  (forall h st, q_tasks q !! id = Some h -> h_state h = Some st -> st <> TaskStateArchived ->
     exists p, id ∈ members p q /\ state_of p = Some st).
Proof.
  intros Hr q. destruct (reachable_DInv db Hr) as [L HD]. pose proof (HD qname) as HI. fold q in HI.
  split; [|split; [|split; [|split]]].
  - intros p p' Hp Hp'. rewrite !(members_at _ _ HI) by done. congruence.
  - apply HI.
  - intros p Hp Hin. apply (members_at _ _ HI) in Hin; [|done].
    destruct (inv_hash _ _ HI _ _ Hin) as (h & Hh & _ & Hs & Hm & _). eauto.
  - by rewrite (inv_lease _ _ HI), (inv_active _ _ HI).
  - intros h st Hh Hst Hna. destruct (inv_state _ _ HI id h st Hh Hst Hna) as (p & Hp & Hs).
    exists p. split; [|done]. apply (members_at _ _ HI); [|done]. intros ->. discriminate Hs.
Qed.

(** C6: forwarding delivers every due task and nothing else: on a reachable database [forwardAll]
    returns without an error; afterwards no scheduled or retry task is due, every task that was due
    is in its group if its hash names one and in the pending list otherwise, the tasks that were not
    due keep their entries, and the pending list grew, at the end from which tasks are taken last,
    by the due scheduled tasks and then the due retry tasks, each in the order of their times. *)
Theorem forward_delivers now qname db :
  reachable db ->
  let q := queue_of qname db in
  let ids := due ZScheduled now q ++ due ZRetry now q in
  exists db', forwardAll now qname db = (Ok tt, db') /\
    let q' := queue_of qname db' in
    (forall src, delayed src -> zget src q' = filter (fun e => Unix now < e.2) (zget src q)) /\
    (forall id, id ∈ ids -> id ∈ members (forward_place q id) q') /\
    q_pending q' = reverse (filter (fun id => forward_place q id = PPending) ids) ++ q_pending q /\
    only_queue qname db db'.
Proof.
  intros Hr q ids. destruct (reachable_DInv db Hr) as [L HD].
  pose proof (forwardAll_spec now qname db _ (HD qname)) as Hf.
  apply ewp_returns in Hf as (r & db' & Hrun & Hret & Hok & Herr).
  destruct Hret as [[[] ->]|[e ->]]; [|by destruct (Herr e)].
  destruct (Hok tt eq_refl) as (Ho & q1 & Hf1 & Hf2). exists db'. split; [done|].
  fold q in Hf1, Hf2 |- *. set (q' := queue_of qname db') in *.
  assert (Hdisj : forall id, id ∈ due ZScheduled now q -> id ∉ due ZRetry now q).
  { intros id H1 H2. apply (due_at ZScheduled now q _ id (or_introl eq_refl) (HD qname)) in H1.
    apply (due_at ZRetry now q _ id (or_intror eq_refl) (HD qname)) in H2. congruence. }
  assert (Hplace : forall id, id ∉ due ZScheduled now q -> forward_place q1 id = forward_place q id).
  { intros id Hid. unfold forward_place, task_hash. by rewrite (fwd_rest _ _ _ _ _ Hf1). }
  assert (Hfilter : forall src, NoDup (zmembers (zget src q)) ->
    filter (fun e => e.1 ∉ due src now q) (zget src q) = filter (fun e => Unix now < e.2) (zget src q)).
  { intros src Hnd. apply list_filter_iff'. intros [x s] Hx. cbn. unfold due.
    rewrite elem_of_zmembers. setoid_rewrite elem_of_ZRANGEBYSCORE. cbn. split.
    - intros Hn. destruct (decide (s <= Unix now)); [exfalso; eauto|lia].
    - intros Hlt [s' [Hle Hx']]. assert (s' = s); [|lia]. by eapply NoDup_zscore. }
  split; [|split; [|split; [|done]]].
  - intros src [-> | ->].
    + rewrite (fwd_other _ _ _ _ _ Hf2), (fwd_src _ _ _ _ _ Hf1) by (by left || done).
      apply Hfilter. eapply nodup_zset, (HD qname).
    + rewrite (fwd_src _ _ _ _ _ Hf2), (fwd_other _ _ _ _ _ Hf1) by (by right || done).
      apply Hfilter. eapply nodup_zset, (HD qname).
  - intros id Hid. apply (members_at q' _ (fwd_inv _ _ _ _ _ Hf2)).
    { unfold forward_place. by destruct (h_group _) as [[|]|]. }
    unfold relocate, forward_to. apply elem_of_app in Hid as [Hid|Hid].
    + rewrite decide_False by auto. by rewrite decide_True.
    + rewrite decide_True by done. rewrite Hplace; [done|]. intros Hs. by eapply Hdisj.
  - rewrite (fwd_pending _ _ _ _ _ Hf2), (fwd_pending _ _ _ _ _ Hf1). unfold forward_pending.
    rewrite app_assoc, <- reverse_app. f_equal. f_equal. unfold ids. rewrite filter_app. f_equal.
    apply list_filter_iff'. intros id Hid. rewrite Hplace; [done|]. intros Hs. by eapply Hdisj.
Qed.
End life.

(** A database with a scheduled task, and one where a worker runs it. *)
Definition run_op (op : Op) (now : Z) (db : DB) : DB := snd (exec now op db).

Lemma reachable_op op now db : reachable db -> reachable (run_op op now db).
Proof. intros Hr. eapply reachable_step; [exact Hr|]. apply surjective_pairing. Qed.

Definition sample_db : DB := run_op (OSchedule (sample_msg "a" 25) (10 * Second)) 0 empty_db.

Lemma sample_db_reachable : reachable sample_db.
Proof. apply reachable_op, reachable_init. Qed.

Lemma lifecycle_refinement_witness :
  let op := OEnqueue (sample_msg "a" 25) in
  exists r db' L', exec 0 op empty_db = (r, db') /\ returns r /\ DInv db' L' /\
    (L' (str "default") (str "a") = None \/ L' (str "default") (str "a") = pending).
Proof.
  intros op. destruct (lifecycle_refinement 0 op empty_db _ DInv_empty) as (r & db' & L' & H1 & H2 & H3 & H4).
  exists r, db', L'. split; [exact H1|]. split; [exact H2|]. split; [exact H3|].
  destruct (H4 (str "default") (str "a")) as [H5|(_ & _ & _ & H5)]; [left|right]; exact H5.
Defined.

Lemma task_in_one_place_witness :
  let q := queue_of (str "default") sample_db in
  str "a" ∈ members (PZ ZScheduled) q /\ (str "a" ∉ members PPending q).
Proof.
  intros q. assert (Ha : str "a" ∈ members (PZ ZScheduled) q).
  { apply (bool_decide_unpack _). vm_compute. reflexivity. }
  split; [exact Ha|]. intros Hp.
  destruct (task_in_one_place sample_db (str "default") (str "a") sample_db_reachable) as (H1 & _).
  discriminate (H1 (PZ ZScheduled) PPending ltac:(discriminate) ltac:(discriminate) Ha Hp).
Defined.

Lemma forward_delivers_witness :
  exists db', forwardAll (20 * Second) (str "default") sample_db = (Ok tt, db') /\
    str "a" ∈ q_pending (queue_of (str "default") db').
Proof.
  destruct (forward_delivers (20 * Second) (str "default") sample_db sample_db_reachable)
    as (db' & H1 & _ & _ & H2 & _).
  exists db'. split; [exact H1|]. rewrite H2. apply (bool_decide_unpack _). vm_compute. reflexivity.
Defined.
