(* ===== verification/AsynqFifo.v ===== *)
(** The order in which tasks are taken.

    [Dequeue] serves the first queue of its list that is not paused and has a pending task, and takes
    the task that waits longest there; what was enqueued in an order is therefore delivered in that
    order, with the contents of the messages. *)
From stdpp Require Import base list strings numbers option gmap.
From S2P Require Import Prelude.
From S2P Require Import Redis.
From S2P Require Import AsynqBase.
From S2P Require Import AsynqStore.
From S2P Require Import AsynqRdb.
From S2P Require Import AsynqInspect.
From S2P Require Import AsynqInv.
From S2P Require Import AsynqScripts.
From S2P Require Import AsynqMoves.
From S2P Require Import AsynqInspectSpec.
From S2P Require Import AsynqDb.
From S2P Require Import AsynqSpec.
From S2P Require Import AsynqRefine.
From S2P Require Import AsynqMessages.

(** ** Single steps *)

(** The task that is next in a list of queues: its queue and its id. *)
Fixpoint next_task (db : DB) (qnames : list gostring) : option (gostring * gostring) :=
  match qnames with
  | [] => None
  | qname :: qnames =>
      match q_paused (queue_of qname db), last (q_pending (queue_of qname db)) with
      | None, Some id => Some (qname, id)
      | _, _ => next_task db qnames
      end
  end.

(** The databases have the same queues and locks. *)
Definition same_queues (db db' : DB) : Prop :=
  (forall qname, queue_of qname db' = queue_of qname db) /\ db_locks db' = db_locks db /\ db_all db' = db_all db.

#[global] Instance same_queues_equiv : Equivalence same_queues.
Proof.
  split.
  - done.
  - intros db1 db2 (H1 & H2 & H3). done.
  - intros db1 db2 db3 (H1 & H2 & H3) (H4 & H5 & H6). split; [intros; by rewrite H4|split; congruence].
Qed.

#[global] Instance next_task_proper : Proper (same_queues ==> eq ==> eq) next_task.
Proof.
  intros db db' (Hq & _) qs ? <-. induction qs as [|qname qs IH]; [done|]. cbn [next_task].
  by rewrite Hq, IH.
Qed.

#[global] Instance only_queue_proper qname : Proper (same_queues ==> same_queues ==> iff) (only_queue qname).
Proof.
  intros db1 db1' (H1 & H2 & H3) db2 db2' (H4 & H5 & H6). unfold only_queue.
  rewrite H2, H3, H5, H6. split; intros [Ho Hr]; split; try done; intros q Hq.
  - by rewrite H4, H1, Ho.
  - by rewrite <- H4, <- H1, Ho.
Qed.

(** The rest of its queue when task [id] was taken: of the hashes only the one of the task is
    changed, in its state and its waiting time; the other sorted sets, the groups, the paused flag and
    the counters are as before. *)
Record taken_rest (id : gostring) (q q' : QueueDB) : Prop := {
  tr_hash : exists h, q_tasks q !! id = Some h /\
    q_tasks q' = <[id := {| h_msg := h_msg h; h_state := Some TaskStateActive; h_pending_since := None;
      h_unique_key := h_unique_key h; h_group := h_group h; h_result := h_result h |}]> (q_tasks q);
  tr_zsets : forall k, k <> ZLease -> zget k q' = zget k q;
  tr_groups : q_groups q' = q_groups q;
  tr_aggregation_sets : q_aggregation_sets q' = q_aggregation_sets q;
  tr_paused : q_paused q' = q_paused q;
  tr_counters : q_counters q' = q_counters q
}.

(** Task [id] of [qname] was taken, with a lease until [lease]; nothing else happened. *)
Record taken_from (qname id : gostring) (lease : Z) (db db' : DB) : Prop := {
  tk_pending : q_pending (queue_of qname db) = q_pending (queue_of qname db') ++ [id];
  tk_active : q_active (queue_of qname db') = id :: q_active (queue_of qname db);
  tk_lease : zget ZLease (queue_of qname db') = zadd lease id (zget ZLease (queue_of qname db));
  tk_rest : taken_rest id (queue_of qname db) (queue_of qname db');
  tk_only : only_queue qname db db';
  tk_registry : db_registry db' = db_registry db
}.

(** What [dequeueCmd] leaves alone. *)
Lemma dequeueCmd_rest expiration q l id b r q' l' :
  q_paused q = None -> last (q_pending q) = Some id -> h_msg (task_hash id q) = Some b ->
  dequeueCmd expiration (q, l) = (r, (q', l')) -> taken_rest id q q'.
Proof.
  intros Hp Hl Hb. unfold task_hash in Hb. destruct (q_tasks q !! id) as [h|] eqn:Hh; [|done].
  unfold dequeueCmd, ebind at 1, reads at 1. cbn [fst snd]. rewrite Hp.
  unfold ebind at 1, RPOPLPUSH_pending_active, RPOPLPUSH. cbn [fst snd]. rewrite Hl. cbn [fst snd].
  unfold HSET, HDEL_pending_since, ZADD_, HGET, reads, writes, ebind. cbn [fst snd ZADD]. intros [= _ <- <-]. split.
  2:{ intros k Hk. etransitivity; [apply zget_zput|]. by rewrite decide_False. }
  all: store_simpl; try done.
  exists h. split; [done|]. unfold task_hash. cbn [q_tasks]. rewrite Hh.
  etransitivity; [apply alter_insert_eq|]. by destruct h.
Qed.

Lemma same_only qname db db' : same_queues db db' -> only_queue qname db db'.
Proof. intros (Hq & Hr). split; [|done]. intros. apply Hq. Qed.

(** A script that replies, and the call that runs it. *)
Lemma ewp_ok {S E A} (m : stE S E A) Q s :
  ewp m Q (fun _ _ => False) s -> exists a s', m s = (Ok a, s') /\ Q a s'.
Proof. unfold ewp. destruct (m s) as [[a|e|p|] s']; try done. eauto. Qed.

Lemma script_run {A} qname (m : script A) db a s' (f : gostring -> goerror) :
  m (queue_of qname db, db_locks db) = (Ok a, s') ->
  map_error f (run_script qname m) db = (Ok a, put_store qname s' db).
Proof. intros Hm. unfold map_error, run_script. rewrite Hm. by destruct s'. Qed.

Section fifo.
Context `{Proto pb.TaskMessage}.

(** What [Dequeue] returns for the encoded message [b]. *)
Definition dequeued (now : Z) (b : gostring) : outcome goerror (TaskMessage * Z) :=
  match DecodeMessage b with
  | Ok m => Ok (m, now + LeaseDuration)
  | Err err => Err (E_text (str "rdb.Dequeue") Internal (str "cannot decode message: " ++ Error_String err))
  | Panic p => Panic p
  | OutOfFuel => OutOfFuel
  end.

Lemma decode_run now b db :
  (msg ↞ decode (str "rdb.Dequeue") b; eret (msg, now + LeaseDuration)) db = (dequeued now b, db).
Proof. unfold decode, dequeued, ebind, elift. by destruct (DecodeMessage b). Qed.

(** The outcome of [Dequeue]: the next task, or an error when there is none. *)
Definition dequeue_outcome (now : Z) (qnames : list gostring) (db : DB)
    (r : outcome goerror (TaskMessage * Z)) (db' : DB) : Prop :=
  match next_task db qnames with
  | Some (qname, id) =>
      (exists b, h_msg (task_hash id (queue_of qname db)) = Some b /\ r = dequeued now b)
      /\ taken_from qname id (Unix (now + LeaseDuration)) db db'
  | None => r = Err (E (str "rdb.Dequeue") NotFound ErrNoProcessableTask) /\ same_queues db db'
            /\ db_registry db' = db_registry db
  end.

Lemma dequeue_outcome_same now qnames db db1 r db' :
  same_queues db db1 -> db_registry db1 = db_registry db -> dequeue_outcome now qnames db1 r db' ->
  dequeue_outcome now qnames db r db'.
Proof.
  intros Hsame Hreg Hn. unfold dequeue_outcome in *.
  replace (next_task db1 qnames) with (next_task db qnames) in Hn by (by apply next_task_proper).
  destruct (next_task db qnames) as [[qn id]|].
  - pose proof Hsame as (Hq & _). rewrite Hq in Hn. destruct Hn as [Hb [T1 T2 T3 T4 T5 T6]].
    rewrite Hq in T1, T2, T3, T4. split; [done|]. split; try done; [|congruence].
    etransitivity; [|exact T5]. by apply same_only.
  - destruct Hn as (Hr' & Hs' & Hg). split; [done|]. split; [by rewrite Hsame|congruence].
Qed.

Lemma dequeue_step now qnames db L :
  DInv db L -> exists r db', Dequeue now qnames db = (r, db') /\ dequeue_outcome now qnames db r db'.
Proof.
  revert db. induction qnames as [|qname qnames IH]; intros db HD; [by repeat eexists|].
  cbn [Dequeue]. unfold dequeue_outcome at 1. cbn [next_task].
  destruct (ewp_ok _ _ _ (dequeueCmd_spec _ (db_locks db) _ (HD qname) (Unix (now + LeaseDuration))))
    as (o & [q' l] & Hrun & Hl & Hs). cbn [fst snd] in *. subst l.
  unfold ebind at 1. rewrite (script_run _ _ _ _ _ _ Hrun).
  set (db1 := put_store qname (q', db_locks db) db).
  assert (Hskip : o = None -> q' = queue_of qname db -> exists r db',
    match o with None => Dequeue now qnames | Some b => msg ↞ decode (str "rdb.Dequeue") b;
                                                       eret (msg, now + LeaseDuration) end db1 = (r, db')
    /\ dequeue_outcome now qnames db r db').
  { intros -> ->. destruct (IH db1) as (r & db' & Hr & Hn); [apply DInv_put_same; [done|apply HD]|].
    exists r, db'. split; [done|]. apply (dequeue_outcome_same _ _ db db1); [|done|exact Hn].
    split; [apply put_store_same|done]. }
  destruct (q_paused _) eqn:Hpaused; [by destruct Hs; auto|].
  destruct (last _) as [id|] eqn:Hlast; [|by destruct Hs; auto].
  destruct Hs as (-> & [b Hb] & Hp & Ha & Hz & _). rewrite Hb, decode_run.
  eexists _, _. split; [done|]. split; [eauto|].
  assert (Hq : queue_of qname db1 = q') by (unfold db1; rewrite queue_of_put; by rewrite decide_True).
  split; rewrite ?Hq; try done; [|apply only_queue_put]. by eapply dequeueCmd_rest.
Qed.

(** C8: on every reachable database, [Dequeue] takes a task exactly when some queue of its list is not
    paused and has a pending task.  It takes the task at the end of the pending list, the one that
    waits longest, of the first such queue; the task leaves the pending list, becomes active and is
    leased for 30 seconds; the result is its decoded message with the end of the lease.  Of the task's
    hash only the state and the waiting time change; the other hashes, sorted sets, groups, flags and
    counters of its queue, the other queues, the locks and the registry are as before.  Otherwise the
    error says that there is no processable task, and nothing changes. *)
Theorem dequeue_takes_oldest now qnames db :
  reachable db -> exists r db', Dequeue now qnames db = (r, db') /\ dequeue_outcome now qnames db r db'.
Proof. intros Hr. destruct (reachable_DInv db Hr) as [L HD]. by eapply dequeue_step. Qed.

(** ** Sequences *)

(** Calls one after the other; [Dequeue] on one queue. *)
Definition enqueueAll (now : Z) (msgs : list TaskMessage) : stE DB goerror unit := efor (Enqueue now) msgs.

Fixpoint dequeueMany (n : nat) (now : Z) (qnames : list gostring) : stE DB goerror (list TaskMessage) :=
  match n with
  | O => eret []
  | S n => m ↞ Dequeue now qnames; ms ↞ dequeueMany n now qnames; eret (m.1 :: ms)
  end.

(** Queue [q] holds the encoded message of [m]. *)
Definition stored (q : QueueDB) (m : TaskMessage) : Prop :=
  exists b, EncodeMessage (Some m) = Ok b /\ h_msg (task_hash (ID m) q) = Some b.

Definition encodable (m : TaskMessage) : Prop := exists b, EncodeMessage (Some m) = Ok b.

Lemma task_hash_hset id x fs q :
  task_hash x (hset_task id fs q) = if decide (x = id) then hset fs (task_hash id q) else task_hash x q.
Proof.
  unfold task_hash, hset_task, set_tasks. cbn [q_tasks]. case_decide; subst.
  - by rewrite lookup_insert_eq.
  - by rewrite lookup_insert_ne by congruence.
Qed.

(** [Enqueue] of a fresh task. *)
Lemma Enqueue_run now m db :
  encodable m -> q_tasks (queue_of (Queue m) db) !! ID m = None ->
  exists db', Enqueue now m db = (Ok tt, db') /\
    let q := queue_of (Queue m) db in
    let q' := queue_of (Queue m) db' in
    q_pending q' = ID m :: q_pending q /\ q_paused q' = q_paused q /\ stored q' m /\
    (forall id, id <> ID m -> q_tasks q' !! id = q_tasks q !! id).
Proof.
  intros [b Hb] Hf. unfold Enqueue, encode, elift, ebind. rewrite Hb. unfold SADD_queue.
  set (db1 := {| db_queues := _ |}).
  assert (Hq : queue_of (Queue m) db1 = queue_of (Queue m) db) by done.
  unfold runScriptWithErrorCode. erewrite script_run.
  2:{ unfold enqueueCmd, ebind, EXISTS_task, reads. cbn [fst snd]. rewrite Hq, Hf. reflexivity. }
  eexists. split; [reflexivity|]. cbv zeta. rewrite queue_of_put, decide_True by done. cbn [fst snd].
  store_simpl. split; [done|]. split; [done|]. split.
  - exists b. split; [done|]. unfold task_hash. cbn [q_tasks]. by rewrite lookup_insert_eq, Hf.
  - intros id Hid. by rewrite lookup_insert_ne.
Qed.

Lemma enqueueAll_run now qname msgs : forall db,
  Forall encodable msgs -> Forall (fun m => Queue m = qname) msgs -> NoDup (map ID msgs) ->
  Forall (fun m => q_tasks (queue_of qname db) !! ID m = None) msgs ->
  exists db', enqueueAll now msgs db = (Ok tt, db') /\
    let q := queue_of qname db in
    let q' := queue_of qname db' in
    q_pending q' = reverse (map ID msgs) ++ q_pending q /\ q_paused q' = q_paused q /\
    Forall (stored q') msgs /\
    (forall id, id ∉ map ID msgs -> q_tasks q' !! id = q_tasks q !! id).
Proof.
  induction msgs as [|m msgs IH]; intros db He Hq Hnd Hf; [by eexists|].
  apply Forall_cons in He as [He1 He], Hq as [<- Hq], Hf as [Hf1 Hf]. cbn in Hnd.
  apply NoDup_cons in Hnd as [Hm Hnd].
  destruct (Enqueue_run now m db He1 Hf1) as (db1 & Hrun & Hp & Hpa & Hst & Hoth).
  destruct (IH db1 He Hq Hnd) as (db2 & Hrun2 & Hp2 & Hpa2 & Hst2 & Hoth2).
  { apply Forall_forall. intros x Hx. rewrite Forall_forall in Hf. rewrite Hoth; [by apply Hf|].
    intros Heq. apply Hm. rewrite <- Heq. by apply list_elem_of_fmap_2. }
  exists db2. unfold enqueueAll in *. cbn [efor]. unfold ebind. rewrite Hrun. split; [done|]. cbv zeta.
  split; [rewrite Hp2, Hp; cbn [map]; by rewrite reverse_cons, <- app_assoc|]. split; [congruence|]. split.
  - constructor; [|done]. destruct Hst as (b & Hb & Hs). exists b. split; [done|].
    unfold task_hash in *. by rewrite Hoth2.
  - intros id Hid. cbn in Hid. apply not_elem_of_cons in Hid as [Hi1 Hi2]. rewrite Hoth2 by done. by apply Hoth.
Qed.

Context `{!ProtoLaws pb.TaskMessage pb.normal_TaskMessage}.

(** The script on a queue that is not paused, without the invariant. *)
Lemma dequeueCmd_run exp id l b q locks :
  q_paused q = None -> q_pending q = l ++ [id] -> h_msg (task_hash id q) = Some b ->
  exists q', dequeueCmd exp (q, locks) = (Ok (Some b), (q', locks)) /\
    q_pending q' = l /\ q_paused q' = None /\ forall x, h_msg (task_hash x q') = h_msg (task_hash x q).
Proof using.
  intros Hpa Hp Hb. unfold dequeueCmd, ebind at 1, reads at 1. cbn [fst snd]. rewrite Hpa.
  unfold ebind at 1, RPOPLPUSH_pending_active, RPOPLPUSH. cbn [fst snd].
  rewrite Hp, last_snoc, length_app. cbn [length]. rewrite Nat.add_sub, take_app_length.
  unfold ebind, HSET, HDEL_pending_since, ZADD_, HGET, reads, writes. cbn [fst snd ZADD].
  set (q' := zput ZLease _ _).
  assert (Ht : forall x, h_msg (task_hash x q') = h_msg (task_hash x q)).
  { intros x. subst q'. store_simpl. unfold task_hash. cbn [q_tasks].
    destruct (decide (x = id)) as [->|Hx].
    - rewrite lookup_alter_eq, lookup_insert_eq. cbn. by destruct (default _ _).
    - by rewrite lookup_alter_ne, lookup_insert_ne by congruence. }
  exists q'. rewrite Ht, Hb. done.
Qed.

Lemma Dequeue_run now qname m l db :
  q_paused (queue_of qname db) = None -> q_pending (queue_of qname db) = l ++ [ID m] ->
  stored (queue_of qname db) m ->
  exists db', Dequeue now [qname] db = (Ok (wire_message m, now + LeaseDuration), db') /\
    let q' := queue_of qname db' in
    q_pending q' = l /\ q_paused q' = None /\ forall m', stored (queue_of qname db) m' -> stored q' m'.
Proof using All.
  intros Hpa Hp (b & Hb & Hs). cbn [Dequeue]. unfold ebind at 1.
  destruct (dequeueCmd_run (Unix (now + LeaseDuration)) _ _ b _ (db_locks db) Hpa Hp Hs)
    as (q' & Hrun & Hp' & Hpa' & Hh).
  rewrite (script_run _ _ _ _ _ _ Hrun), decode_run. unfold dequeued. rewrite (decode_encode m b Hb).
  eexists. split; [done|]. cbv zeta. rewrite queue_of_put, decide_True by done.
  split; [done|]. split; [done|]. intros m' (b' & Hb' & Hs'). exists b'. by rewrite Hh.
Qed.

Lemma dequeueMany_run now qname msgs : forall db,
  q_paused (queue_of qname db) = None ->
  q_pending (queue_of qname db) = reverse (map ID msgs) -> Forall (stored (queue_of qname db)) msgs ->
  exists db', dequeueMany (length msgs) now [qname] db = (Ok (map wire_message msgs), db')
    /\ q_pending (queue_of qname db') = [].
Proof using All.
  induction msgs as [|m msgs IH]; intros db Hpa Hp Hs; [by eexists|].
  cbn [map] in Hp. rewrite reverse_cons in Hp. apply Forall_cons in Hs as [Hm Hs].
  destruct (Dequeue_run now qname m _ db Hpa Hp Hm) as (db1 & Hrun & Hp1 & Hpa1 & Hs1).
  destruct (IH db1 Hpa1 Hp1) as (db2 & Hrun2 & Hp2); [by eapply Forall_impl|].
  exists db2. cbn [length dequeueMany]. unfold ebind. by rewrite Hrun, Hrun2.
Qed.

(** C9: messages enqueued in a queue that is not paused and has no pending task are delivered in the
    order in which they were enqueued, each exactly once and with the contents that survive the
    encoding: enqueueing them succeeds, taking as many tasks returns them, and nothing is left. *)
Theorem fifo_delivery t t' qname msgs db :
  Forall encodable msgs -> Forall (fun m => Queue m = qname) msgs -> NoDup (map ID msgs) ->
  Forall (fun m => q_tasks (queue_of qname db) !! ID m = None) msgs ->
  q_paused (queue_of qname db) = None -> q_pending (queue_of qname db) = [] ->
  exists db1 db2, enqueueAll t msgs db = (Ok tt, db1) /\
    dequeueMany (length msgs) t' [qname] db1 = (Ok (map wire_message msgs), db2) /\
    q_pending (queue_of qname db2) = [].
Proof using All.
  intros He Hq Hnd Hf Hpa Hp.
  destruct (enqueueAll_run t qname msgs db He Hq Hnd Hf) as (db1 & Hrun & Hp1 & Hpa1 & Hs & _).
  rewrite Hp, app_nil_r in Hp1. rewrite Hpa in Hpa1.
  destruct (dequeueMany_run t' qname msgs db1 Hpa1 Hp1 Hs) as (db2 & Hrun2 & Hp2). eauto 6.
Qed.
End fifo.

Lemma dequeue_takes_oldest_witness :
  let db := snd (exec 0 (OEnqueue (sample_msg "a" 25)) empty_db) in
  exists r db', Dequeue (5 * Second) [str "low"; str "default"] db = (r, db') /\
    taken_from (str "default") (str "a") 35 db db'.
Proof.
  intros db. assert (Hr : reachable db).
  { eapply reachable_step; [apply reachable_init|apply surjective_pairing]. }
  destruct (dequeue_takes_oldest (5 * Second) [str "low"; str "default"] db Hr) as (r & db' & H1 & H2).
  exists r, db'. split; [exact H1|]. unfold dequeue_outcome in H2.
  replace (next_task db [str "low"; str "default"]) with (Some (str "default", str "a")) in H2
    by (vm_compute; reflexivity).
  destruct H2 as [_ H2]. replace 35 with (Unix (5 * Second + LeaseDuration)) by reflexivity. exact H2.
Defined.

Lemma fifo_delivery_witness :
  let msgs := [sample_msg "a" 25; sample_msg "b" 3; sample_msg "c" 0] in
  exists db1 db2, enqueueAll 0 msgs empty_db = (Ok tt, db1) /\
    dequeueMany 3 0 [str "default"] db1 = (Ok msgs, db2).
Proof.
  intros msgs.
  destruct (fifo_delivery 0 0 (str "default") msgs empty_db) as (db1 & db2 & H1 & H2 & _).
  - repeat constructor; eexists; vm_compute; reflexivity.
  - repeat constructor.
  - apply (bool_decide_unpack _). vm_compute. reflexivity.
  - repeat constructor.
  - reflexivity.
  - reflexivity.
  - exists db1, db2. split; [exact H1|exact H2].
Defined.
