(* ===== verification/AsynqFrame.v ===== *)
(** Methods that respect a relation on the state.

    A reflexive and transitive relation between the state before and after holds of a method when it
    holds of the commands it is made of.  The tactic [walk_method] goes through binds, loops,
    branches and calls and leaves the commands to the hints of each relation. *)
From stdpp Require Import base list strings numbers option gmap.
From S2P Require Import Prelude.
From S2P Require Import Redis.
From S2P Require Import AsynqBase.
From S2P Require Import AsynqStore.
From S2P Require Import AsynqDb.

Section respects.
Context {S : Type} (R : S -> S -> Prop).

Definition respects {E A} (m : stE S E A) : Prop := forall s, R s (m s).2.

Context `{!PreOrder R} {E : Type}.

Lemma respects_same {A} (m : stE S E A) : (forall s, (m s).2 = s) -> respects m.
Proof using All. intros Hm s. by rewrite Hm. Qed.

Lemma respects_ret {A} (a : A) : respects (eret (E := E) a).
Proof using All. by apply respects_same. Qed.

Lemma respects_throw {A} (e : E) : respects (ethrow (A := A) e).
Proof using All. by apply respects_same. Qed.

Lemma respects_lift {A} (r : outcome E A) : respects (elift r).
Proof using All. by apply respects_same. Qed.

Lemma respects_bind {A B} (m : stE S E A) (f : A -> stE S E B) :
  respects m -> (forall a, respects (f a)) -> respects (ebind m f).
Proof using All.
  intros Hm Hf s. unfold ebind. specialize (Hm s).
  destruct (m s) as [[a|e|p|] s']; cbn in *; try done. by etransitivity; [|apply Hf].
Qed.

Lemma respects_map_error {E' A} (g : E -> E') (m : stE S E A) : respects m -> respects (map_error g m).
Proof using. intros Hm s. specialize (Hm s). unfold map_error. by destruct (m s) as [[a|e|p|] s']. Qed.

Lemma respects_efor {A} (body : A -> stE S E unit) l :
  (forall x, x ∈ l -> respects (body x)) -> respects (efor body l).
Proof using All.
  induction l as [|x l IH]; intros Hb; [apply respects_ret|].
  apply respects_bind; [apply Hb; set_solver|]. intros ?. apply IH. set_solver.
Qed.
End respects.

(** Running a script, for a relation on the store of a queue and one on the database. *)
Lemma respects_run_script {A} (R : QueueDB * Locks -> QueueDB * Locks -> Prop) (Rdb : DB -> DB -> Prop)
    qname (m : script A) :
  (forall db s', R (queue_of qname db, db_locks db) s' -> Rdb db (put_store qname s' db)) ->
  respects R m -> respects Rdb (run_script qname m).
Proof.
  intros Hput Hm db. specialize (Hm (queue_of qname db, db_locks db)). apply Hput in Hm.
  unfold run_script. by destruct (m _) as [r [q l]].
Qed.

Ltac headof t := match t with ?f _ => headof f | _ => t end.

(** [leaf] closes the commands, [call] goes from the database to a script. *)
Ltac walk_method leaf call :=
  repeat first
    [ match goal with |- forall _, _ => intro end
    | match goal with |- PreOrder _ => typeclasses eauto end
    | assumption
    | progress cbv zeta
    | call
    | lazymatch goal with
      | |- respects _ (ebind _ _) => apply respects_bind
      | |- respects _ (efor _ _) => apply respects_efor
      | |- respects _ (map_error _ _) => apply respects_map_error
      end
    | match goal with |- respects _ (match ?x with _ => _ end) => destruct x end
    | solve [leaf]
    | solve [let s := fresh in intros s; reflexivity]
    | match goal with |- respects _ ?m => let h := headof m in unfold h end ].
