(* ===== verification/AsynqLocks.v ===== *)
(** The locks of unique tasks.

    A lock is set with a time to live by the first task that asks for its key.  While it lives, no
    operation but the completion or the deletion of its holder takes it away, and every attempt to
    add a second task with its key is refused. *)
From stdpp Require Import base list strings numbers option gmap.
From S2P Require Import Prelude.
From S2P Require Import Redis.
From S2P Require Import AsynqBase.
From S2P Require Import AsynqStore.
From S2P Require Import AsynqRdb.
From S2P Require Import AsynqInspect.
From S2P Require Import AsynqInv.
From S2P Require Import AsynqScripts.
From S2P Require Import AsynqDb.
From S2P Require Import AsynqSpec.
From S2P Require Import AsynqRefine.
From S2P Require Import AsynqMessages.
From S2P Require Import AsynqFifo.
From S2P Require Import AsynqFrame.

(** ** What a step may release *)

(** The states with locks: of a script and of the database. *)
Class HasLocks (S : Type) := locks_of : S -> gmap gostring Lock.
#[global] Instance script_locks : HasLocks (QueueDB * Locks) := snd.
#[global] Instance db_has_locks : HasLocks DB := db_locks.

Section frees.
Context (now : Z) (P : gostring -> gostring -> Prop).

(** A live lock stays as it is, or [P] allows its release. *)
Definition kept_locks (l l' : gmap gostring Lock) : Prop :=
  forall k L, l !! k = Some L -> now < lock_exp L -> l' !! k = Some L \/ P k (lock_val L).

#[global] Instance kept_locks_preorder : PreOrder kept_locks.
Proof using.
  split; [intros l k L HL _; by left|]. intros l1 l2 l3 H12 H23 k L HL Hlive.
  destruct (H12 k L HL Hlive) as [H2|]; [by apply H23|by right].
Qed.

Definition keeps {S} `{HasLocks S} (s s' : S) : Prop := kept_locks (locks_of s) (locks_of s').

#[global] Instance keeps_preorder {S} `{HasLocks S} : PreOrder keeps.
Proof using.
  split; [intros s; unfold keeps; reflexivity|]. intros s1 s2 s3 H1 H2. unfold keeps in *. by etransitivity.
Qed.

(** A method that releases only what [P] allows. *)
Definition frees {S} `{HasLocks S} {E A} (m : stE S E A) : Prop := respects keeps m.

Lemma frees_run_script {A} qname (m : script A) : frees m -> frees (run_script qname m).
Proof using. by apply respects_run_script. Qed.

(** A method that leaves the locks alone. *)
Lemma frees_same {S} `{HasLocks S} {E A} (m : stE S E A) :
  (forall s, locks_of (m s).2 = locks_of s) -> frees m.
Proof using. intros Hm s. unfold keeps. rewrite Hm. reflexivity. Qed.

(** [SET NX] leaves a live lock alone. *)
Lemma frees_SET_NX k v n : frees (SET_NX_EX_lock now k v n).
Proof using.
  intros [q l] k' L HL Hlive. left. unfold locks_of, script_locks, SET_NX_EX_lock, SET_NX_EX in *.
  cbn [fst snd] in *.
  destruct (n <=? 0); [done|]. destruct (lock_get now l k) as [v'|] eqn:Hg; [done|]. cbn [fst snd].
  destruct (decide (k = k')) as [->|Hk]; [|etransitivity; [by apply lookup_insert_ne|done]].
  exfalso. unfold lock_get in Hg. rewrite HL in Hg. destruct (Z.ltb_spec now (lock_exp L)); [done|lia].
Qed.

(** Only the value that is named releases a lock. *)
Lemma frees_release t k v : P k v -> frees (release_lock t k v).
Proof using.
  intros HP [q l] k' L HL Hlive. unfold locks_of, script_locks, release_lock, lock_release in *.
  cbn [fst snd] in *. case_bool_decide as Hg; [|by left].
  destruct (decide (k = k')) as [->|Hk]; [right|left; etransitivity; [by apply lookup_delete_ne|done]].
  unfold lock_get in Hg. rewrite HL in Hg. destruct (t <? lock_exp L); [|done]. congruence.
Qed.
End frees.

(** A command that is neither: its state is computed. *)
Ltac no_lock :=
  apply frees_same; intros ?;
  unfold LREM_active, LREM_pending, LREM1_pending, RPOPLPUSH_pending_active, ZADD_, ZREM_, INCR_counter;
  repeat case_match; done.

Ltac lock_command :=
  lazymatch goal with
  | |- respects _ (SET_NX_EX_lock _ _ _ _) => apply frees_SET_NX
  | |- respects _ (release_lock _ _ _) => apply frees_release; done
  | |- respects _ (fun _ => _) => no_lock
  | |- respects _ (LREM_active _) => no_lock
  | |- respects _ (LREM_pending _) => no_lock
  | |- respects _ (LREM1_pending _) => no_lock
  | |- respects _ RPOPLPUSH_pending_active => no_lock
  | |- respects _ (ZADD_ _ _ _) => no_lock
  | |- respects _ (ZREM_ _ _) => no_lock
  | |- respects _ (INCR_counter _ _) => no_lock
  end.

Ltac lock_call :=
  lazymatch goal with |- respects _ (run_script _ _) => apply frees_run_script; unfold frees end.

Ltac frees := unfold frees; walk_method ltac:(idtac; lock_command) ltac:(idtac; lock_call).

(** ** The operations *)

(** The locks that operation [op] may release on database [db]: those of the task it completes or
    deletes. *)
Definition releases (db : DB) (op : Op) (k v : gostring) : Prop :=
  match op with
  | ODone msg | OMarkAsComplete msg => k = UniqueKey_ msg /\ v = ID msg
  | ODeleteTask _ id => v = id
  | ODeleteAllArchivedTasks q => v ∈ zmembers (zget ZArchived (queue_of q db))
  | ODeleteAllRetryTasks q => v ∈ zmembers (zget ZRetry (queue_of q db))
  | ODeleteAllScheduledTasks q => v ∈ zmembers (zget ZScheduled (queue_of q db))
  | ODeleteAllCompletedTasks q => v ∈ zmembers (zget ZCompleted (queue_of q db))
  | _ => False
  end.

Section ops.
Context `{Proto pb.TaskMessage} (now : Z).

Lemma frees_forwardLoop P fuel t qname k : frees now P (forwardLoop fuel t qname k).
Proof. induction fuel as [|fuel IH]; [by apply frees_same|]. cbn [forwardLoop]. frees. Qed.
Lemma frees_deleteExpiredLoop P fuel t qname : frees now P (deleteExpiredLoop fuel t qname).
Proof. induction fuel as [|fuel IH]; [by apply frees_same|]. cbn [deleteExpiredLoop]. frees. Qed.

Lemma frees_Dequeue P t qnames : frees now P (Dequeue t qnames).
Proof. induction qnames as [|q qs IH]; cbn [Dequeue]; frees. Qed.
Lemma frees_ForwardIfReady P t qnames : frees now P (ForwardIfReady t qnames).
Proof.
  induction qnames as [|q qs IH]; cbn [ForwardIfReady]; [frees|]. apply respects_bind; [typeclasses eauto| |done].
  apply respects_map_error, respects_efor; [typeclasses eauto|]. intros k _ db. apply frees_forwardLoop.
Qed.

Lemma frees_releaseTaskLock P t id : (forall k, P k id) -> frees now P (releaseTaskLock t id).
Proof.
  intros HP. unfold releaseTaskLock. apply respects_bind; [typeclasses eauto|frees|].
  intros [[|c k]|]; [frees|by apply frees_release|frees].
Qed.

(** The deletion of the tasks of a sorted set releases locks of these tasks only. *)
Lemma frees_deleteAllCmd t src q l :
  kept_locks now (fun _ v => v ∈ zmembers (zget src q)) l (deleteAllCmd t src (q, l)).2.2.
Proof.
  set (ids := zget src q).
  assert (Hrest : frees now (fun _ v => v ∈ zmembers ids)
    (_ ↞ efor (fun id => _ ↞ releaseTaskLock t id; _ ↞ DEL_task id; eret tt) (zmembers ids);
     _ ↞ DEL_zset src; eret (ZCARD ids))).
  { apply respects_bind; [typeclasses eauto| |frees]. apply respects_efor; [typeclasses eauto|]. intros x Hx. apply respects_bind; [typeclasses eauto| |frees].
    by apply frees_releaseTaskLock. }
  specialize (Hrest (q, l)). unfold deleteAllCmd, ebind at 1, ZRANGE_, reads. cbn [fst snd].
  by rewrite ZRANGE_all.
Qed.

Lemma frees_deleteAll t src qname op c db :
  kept_locks now (fun _ v => v ∈ zmembers (zget src (queue_of qname db))) (db_locks db)
    (db_locks (wrapAll op c (deleteAll t src qname) db).2).
Proof.
  unfold wrapAll, map_error, deleteAll, checkQueueExists, queueExists, ebind.
  case_bool_decide; [|intros k L HL _; by left]. cbn [negb]. unfold eret, run_plain, map_error, run_script.
  pose proof (frees_deleteAllCmd t src (queue_of qname db) (db_locks db)) as Hd.
  by destruct (deleteAllCmd t src _) as [[a|e|p|] [q' l']].
Qed.

Lemma frees_deleteAll_effect t src qname op c db :
  kept_locks now (fun _ v => v ∈ zmembers (zget src (queue_of qname db))) (db_locks db)
    (db_locks (effect (wrapAll op c (deleteAll t src qname)) db).2).
Proof.
  pose proof (frees_deleteAll t src qname op c db) as Hd. unfold effect, ebind.
  by destruct (wrapAll op c (deleteAll t src qname) db) as [[a|e|p|] db'].
Qed.

Lemma frees_effect {A} P (m : stE DB goerror A) : frees now P m -> frees now P (effect m).
Proof. intros Hm. apply respects_bind; [typeclasses eauto|done|]. frees. Qed.

(** One operation on the database: a live lock is kept, or the operation may release it. *)
Lemma exec_locks op db : kept_locks now (releases db op) (db_locks db) (db_locks (exec now op db).2).
Proof.
  destruct op; try (apply frees_deleteAll_effect).
  all: match goal with |- kept_locks _ ?P _ (db_locks (exec now ?op ?d).2) =>
         cut (frees now P (exec now op)); [intros Hf; exact (Hf d)|]; apply frees_effect end.
  all: try solve [frees].
  - apply frees_Dequeue.
  - apply frees_ForwardIfReady.
  - intros s. apply frees_deleteExpiredLoop.
Qed.
End ops.

(** ** Exclusion *)

(** Operations at given instants, one after the other. *)
Fixpoint run_ops `{Proto pb.TaskMessage} (trace : list (Z * Op)) (db : DB) : DB :=
  match trace with
  | [] => db
  | (t, op) :: trace => run_ops trace (exec t op db).2
  end.

(** No operation of the trace comes after the expiry or releases lock [k] of task [v]. *)
Fixpoint undisturbed `{Proto pb.TaskMessage} (k v : gostring) (expiry : Z) (trace : list (Z * Op))
    (db : DB) : Prop :=
  match trace with
  | [] => True
  | (t, op) :: trace =>
      t < expiry /\ ~ releases db op k v /\ undisturbed k v expiry trace (exec t op db).2
  end.

Section exclusion.
Context `{Proto pb.TaskMessage}.

Lemma run_ops_keep_lock k L trace : forall db,
  db_locks db !! k = Some L -> undisturbed k (lock_val L) (lock_exp L) trace db ->
  db_locks (run_ops trace db) !! k = Some L.
Proof.
  induction trace as [|[t op] trace IH]; intros db HL Hu; [done|]. cbn in Hu |- *.
  destruct Hu as (Ht & Hr & Hu). apply IH; [|done].
  by destruct (exec_locks t op db k L HL Ht).
Qed.

Lemma set_lock_busy (now : Z) (k v : gostring) (n : Z) (q : QueueDB) (l : gmap gostring Lock) (L : Lock) :
  l !! k = Some L -> now < lock_exp L -> 0 < n -> SET_NX_EX_lock now k v n (q, l) = (Ok false, (q, l)).
Proof.
  intros HL Hlive Hn. unfold SET_NX_EX_lock, SET_NX_EX, lock_get. cbn [fst snd].
  destruct (Z.leb_spec n 0); [lia|]. rewrite HL. destruct (Z.ltb_spec now (lock_exp L)); [done|lia].
Qed.

(** What a successful [EnqueueUnique] leaves: the lock of the key, held by the task. *)
Lemma EnqueueUnique_lock now m ttl db db1 :
  EnqueueUnique now m ttl db = (Ok tt, db1) ->
  db_locks db1 !! UniqueKey_ m = Some {| lock_val := ID m; lock_exp := now + Seconds ttl * Second |}.
Proof.
  unfold EnqueueUnique, ebind at 1, elift. destruct (EncodeMessage _) as [b|e|p|]; try done.
  unfold ebind at 1, SADD_queue. unfold ebind at 1, runScriptWithErrorCode, map_error, run_script.
  set (db0 := {| db_queues := _ |}). unfold enqueueUniqueCmd, ebind at 1, SET_NX_EX_lock, SET_NX_EX.
  cbn [fst snd]. destruct (_ <=? 0); [done|]. destruct (lock_get _ _ _); [done|]. cbn [negb].
  unfold ebind at 1, EXISTS_task, reads. cbn [fst snd]. case_bool_decide; [done|].
  intros [= <-]. cbn [db_locks]. apply lookup_insert_eq.
Qed.

(** A script of a unique task refuses when its first command does. *)
Lemma busy_call op qname (m : script Z) db :
  m (queue_of qname db, db_locks db) = (Ok (-1), (queue_of qname db, db_locks db)) ->
  exists db', (n ↞ runScriptWithErrorCode op qname m; unique_reply op n) db
    = (Err (E op AlreadyExists ErrDuplicateTask), db') /\ same_queues db db'.
Proof.
  intros Hm. unfold ebind, runScriptWithErrorCode. rewrite (script_run _ _ _ _ _ _ Hm).
  eexists. split; [done|]. split; [apply put_store_same|done].
Qed.

(** The queues and locks are the same; the set of queue names may have grown. *)
Definition refused {A} (op : gostring) (m : stE DB goerror A) (db : DB) : Prop :=
  exists db', m db = (Err (E op AlreadyExists ErrDuplicateTask), db')
    /\ (forall qname, queue_of qname db' = queue_of qname db) /\ db_locks db' = db_locks db.

Section busy.
Context (db : DB) (t : Z) (m : TaskMessage) (ttl : Z) (L : Lock).
Context (Henc : encodable m) (Hlive : t < lock_exp L) (Httl : Second <= ttl).

Lemma ttl_positive : 0 < Seconds ttl.
Proof using Httl. unfold Seconds. rewrite Z.quot_div_nonneg; unfold Second in *; [|lia..]. apply Z.div_str_pos. lia. Qed.

Lemma refused_after_SADD op qname (cmd : script Z) :
  cmd (queue_of qname db, db_locks db) = (Ok (-1), (queue_of qname db, db_locks db)) ->
  refused op (_ ↞ SADD_queue qname; n ↞ runScriptWithErrorCode op qname cmd; unique_reply op n) db.
Proof using.
  intros Hc. unfold refused, ebind at 1, SADD_queue.
  destruct (busy_call op qname cmd {| db_queues := db_queues db; db_locks := db_locks db;
    db_all := {[ qname ]} ∪ db_all db; db_registry := db_registry db |} Hc) as (db' & Hr & Hq & Hl & _).
  exists db'. split; [exact Hr|]. split; [exact Hq|exact Hl].
Qed.

Lemma EnqueueUnique_busy :
  db_locks db !! UniqueKey_ m = Some L -> refused (str "rdb.EnqueueUnique") (EnqueueUnique t m ttl) db.
Proof using All.
  intros HL. destruct Henc as [b Hb]. unfold EnqueueUnique, refused, ebind at 1, elift. rewrite Hb.
  apply refused_after_SADD. unfold enqueueUniqueCmd, ebind at 1.
  by rewrite (set_lock_busy _ _ _ _ _ _ L HL Hlive ttl_positive).
Qed.

Lemma ScheduleUnique_busy at_ :
  db_locks db !! UniqueKey_ m = Some L -> refused (str "rdb.ScheduleUnique") (ScheduleUnique t m at_ ttl) db.
Proof using All.
  intros HL. destruct Henc as [b Hb]. unfold ScheduleUnique, refused, encode, ebind at 1, elift. rewrite Hb.
  apply refused_after_SADD. unfold scheduleUniqueCmd, ebind at 1.
  by rewrite (set_lock_busy _ _ _ _ _ _ L HL Hlive ttl_positive).
Qed.

Lemma AddToGroupUnique_busy k g :
  k <> [] -> db_locks db !! k = Some L ->
  refused (str "rdb.AddToGroupUnique") (AddToGroupUnique t m k g ttl) db.
Proof using All.
  intros Hk HL. destruct Henc as [b Hb]. unfold AddToGroupUnique, refused, encode, ebind at 1, elift. rewrite Hb.
  rewrite bool_decide_false by done.
  apply refused_after_SADD. unfold addToGroupUniqueCmd, ebind at 1.
  by rewrite (set_lock_busy _ _ _ _ _ _ L HL Hlive ttl_positive).
Qed.
End busy.

(** C7: a unique task excludes every other task with its key.  After a successful [EnqueueUnique] and
    any operations within the time to live that do not complete or delete that task, a second task
    with the same key (and a time to live of a second or more) is refused as a duplicate by
    [EnqueueUnique], [ScheduleUnique] and [AddToGroupUnique], and no queue and no lock changes. *)
Theorem unique_exclusion t0 m ttl db db1 trace t m' ttl' at_ g :
  EnqueueUnique t0 m ttl db = (Ok tt, db1) ->
  let expiry := t0 + Seconds ttl * Second in
  undisturbed (UniqueKey_ m) (ID m) expiry trace db1 -> t < expiry ->
  UniqueKey_ m' = UniqueKey_ m -> UniqueKey_ m <> [] -> encodable m' -> Second <= ttl' ->
  let db2 := run_ops trace db1 in
  refused (str "rdb.EnqueueUnique") (EnqueueUnique t m' ttl') db2 /\
  refused (str "rdb.ScheduleUnique") (ScheduleUnique t m' at_ ttl') db2 /\
  refused (str "rdb.AddToGroupUnique") (AddToGroupUnique t m' (UniqueKey_ m') g ttl') db2.
Proof.
  intros H0 expiry Hu Ht Hk Hne He Httl db2. pose proof (EnqueueUnique_lock _ _ _ _ _ H0) as HL.
  apply (run_ops_keep_lock _ _ trace) in HL; [|exact Hu]. fold expiry db2 in HL. rewrite <- Hk in HL, Hne.
  set (L := {| lock_val := ID m; lock_exp := expiry |}) in HL. split; [|split].
  - exact (EnqueueUnique_busy db2 t m' ttl' L He Ht Httl HL).
  - exact (ScheduleUnique_busy db2 t m' ttl' L He Ht Httl at_ HL).
  - exact (AddToGroupUnique_busy db2 t m' ttl' L He Ht Httl _ g Hne HL).
Qed.
End exclusion.

Definition unique_msg (id : string) : TaskMessage :=
  {| Type_ := str "email"; Payload := Some (str "x"); ID := str id; Queue := str "default";
     Retry_ := 3; Retried := 0; ErrorMsg := []; LastFailedAt := 0; Timeout_ := 1800;
     Deadline := 0; UniqueKey_ := str "asynq:{default}:unique:email:x"; GroupKey_ := []; Retention := 0;
     CompletedAt := 0 |}.

(** The task is taken by a worker and requeued, and another unique task completes meanwhile. *)
Lemma unique_exclusion_witness :
  let m := unique_msg "a" in
  let db1 := (EnqueueUnique 0 m (60 * Second) empty_db).2 in
  let trace := [(Second, ODequeue [str "default"]); (2 * Second, ORequeue m);
                (3 * Second, ODone (unique_msg "b"))] in
  refused (str "rdb.EnqueueUnique") (EnqueueUnique (59 * Second) (unique_msg "b") (60 * Second))
    (run_ops trace db1).
Proof.
  intros m db1 trace.
  refine (proj1 (unique_exclusion 0 m (60 * Second) empty_db db1 trace (59 * Second) (unique_msg "b")
           (60 * Second) 0 [] _ _ _ _ _ _ _)).
  - vm_compute. reflexivity.
  - cbn [undisturbed trace releases]. repeat split; try (unfold Second; lia); try (intros []). discriminate.
  - vm_compute. reflexivity.
  - reflexivity.
  - discriminate.
  - eexists. vm_compute. reflexivity.
  - unfold Second. lia.
Defined.
