(* ===== verification/AsynqContents.v ===== *)
(** The messages in the store.

    Every message that a script writes is the encoding of a message with the id of the task and the
    name of the queue.  On every reachable database the message of a task is therefore decoded to a
    message with that id and that queue: what a worker gets is the task it took. *)
From stdpp Require Import base list strings numbers option gmap.
From S2P Require Import Prelude.
From S2P Require Import Redis.
From S2P Require Import AsynqBase.
From S2P Require Import AsynqStore.
From S2P Require Import AsynqRdb.
From S2P Require Import AsynqInspect.
From S2P Require Import AsynqInv.
From S2P Require Import AsynqScripts.
From S2P Require Import AsynqDb.
From S2P Require Import AsynqSpec.
From S2P Require Import AsynqRefine.
From S2P Require Import AsynqMessages.
From S2P Require Import AsynqFrame.

(** The encoded message of a task. *)
Definition msg_at (id : gostring) (q : QueueDB) : option gostring := h_msg (task_hash id q).

(** The messages after are messages before or allowed by [P]; on the store of a queue and on the
    database. *)
Definition wrote (P : gostring -> gostring -> Prop) (s s' : QueueDB * Locks) : Prop :=
  forall id b, msg_at id s'.1 = Some b -> msg_at id s.1 = Some b \/ P id b.

Definition db_wrote (P : gostring -> gostring -> gostring -> Prop) (db db' : DB) : Prop :=
  forall qname id b, msg_at id (queue_of qname db') = Some b ->
    msg_at id (queue_of qname db) = Some b \/ P qname id b.

#[global] Instance wrote_preorder P : PreOrder (wrote P).
Proof. split; [intros s id b Hb; by left|]. intros s1 s2 s3 H1 H2 id b Hb. destruct (H2 id b Hb); eauto. Qed.

#[global] Instance db_wrote_preorder P : PreOrder (db_wrote P).
Proof. split; [intros s q id b Hb; by left|]. intros s1 s2 s3 H1 H2 q id b Hb. destruct (H2 q id b Hb); eauto. Qed.

Lemma wrote_run_script {A} P qname (m : script A) :
  respects (wrote (P qname)) m -> respects (db_wrote P) (run_script qname m).
Proof.
  apply respects_run_script. intros db s' Hs q id b Hb. rewrite queue_of_put in Hb.
  case_decide; [subst; by apply Hs|by left].
Qed.

Lemma db_wrote_same_queues {E A} P (m : stE DB E A) :
  (forall db, db_queues (m db).2 = db_queues db) -> respects (db_wrote P) m.
Proof. intros Hm db q id b Hb. left. unfold queue_of in *. by rewrite <- Hm. Qed.

(** *** Commands *)

Lemma wrote_same_tasks {E A} P (m : stE (QueueDB * Locks) E A) :
  (forall s, q_tasks (m s).2.1 = q_tasks s.1) -> respects (wrote P) m.
Proof. intros Hm s id b Hb. left. unfold msg_at, task_hash in *. by rewrite <- Hm. Qed.

(** The message among the fields of an [HSET], if any. *)
Definition field_msg (f : HField) : option gostring := match f with F_msg b => Some b | _ => None end.

Lemma hset_msg fs h b :
  h_msg (hset fs h) = Some b -> h_msg h = Some b \/ Some b ∈ map field_msg fs.
Proof.
  revert h. induction fs as [|f fs IH]; intros h; [by left|]. cbn. intros Hb.
  destruct (IH _ Hb) as [Hh|Hin]; [|right; by apply list_elem_of_further].
  destruct h, f; cbn in Hh; try (by left). injection Hh as ->. right. apply list_elem_of_here.
Qed.

Lemma wrote_HSET P id fs :
  (forall b, Some b ∈ map field_msg fs -> P id b) -> respects (wrote P) (HSET id fs).
Proof.
  intros HP [q l] x b. unfold HSET, writes, msg_at. cbn [fst snd]. unfold hset_task, task_hash, set_tasks.
  cbn [q_tasks]. destruct (decide (x = id)) as [->|Hx].
  - rewrite lookup_insert_eq. cbn [default]. intros [Hb|Hb]%hset_msg; [by left|right; by apply HP].
  - rewrite lookup_insert_ne by congruence. by left.
Qed.

Lemma wrote_HDEL P id : respects (wrote P) (HDEL_pending_since id).
Proof.
  intros [q l] x b. unfold HDEL_pending_since, writes, msg_at. cbn [fst snd]. unfold task_hash, set_tasks.
  cbn [q_tasks]. destruct (decide (x = id)) as [->|Hx].
  - rewrite lookup_alter_eq. destruct (q_tasks q !! id) as [[]|]; cbn; by left.
  - rewrite lookup_alter_ne by congruence. by left.
Qed.

Lemma wrote_DEL P id : respects (wrote P) (DEL_task id).
Proof.
  intros [q l] x b. unfold DEL_task, msg_at. cbn [fst snd]. unfold del_task, task_hash, set_tasks.
  cbn [q_tasks]. destruct (decide (x = id)) as [->|Hx].
  - by rewrite lookup_delete_eq.
  - rewrite lookup_delete_ne by congruence. by left.
Qed.

(** A bind on a lifted result knows where the result comes from. *)
Lemma respects_bind_lift {S E A B} (R : S -> S -> Prop) `{!PreOrder R} (r : outcome E A) (f : A -> stE S E B) :
  (forall a, r = Ok a -> respects R (f a)) -> respects R (ebind (elift r) f).
Proof. intros Hf s. unfold ebind, elift. destruct r as [a|e|p|]; [by apply Hf|reflexivity..]. Qed.

(** ** The operations *)
Section contents.
Context `{Proto pb.TaskMessage}.

(** [b] encodes a message of task [id] of queue [qname]. *)
Definition encodes (qname id b : gostring) : Prop :=
  exists m, EncodeMessage (Some m) = Ok b /\ Queue m = qname /\ ID m = id.

Lemma bind_encode {B} op c text msg (f : gostring -> stE DB goerror B) :
  (forall b, EncodeMessage (Some msg) = Ok b -> respects (db_wrote encodes) (f b)) ->
  respects (db_wrote encodes) (ebind (encode op c text msg) f).
Proof.
  intros Hf. apply respects_bind_lift; [typeclasses eauto|]. intros b Hb. apply Hf.
  by destruct (EncodeMessage (Some msg)).
Qed.
End contents.

Ltac no_tasks :=
  apply wrote_same_tasks; intros ?;
  unfold reads, LREM_active, LREM_pending, LREM1_pending, RPOPLPUSH_pending_active, ZADD_, ZREM_,
    INCR_counter, SET_NX_EX_lock;
  repeat case_match; done.

Ltac set_msg :=
  apply wrote_HSET; cbn [map field_msg]; intros ?b;
  rewrite ?elem_of_cons, ?elem_of_nil; intros; destruct_or?; simplify_eq; eexists; eauto.

Ltac contents_command :=
  lazymatch goal with
  | |- respects _ (HSET _ _) => set_msg
  | |- respects _ (HDEL_pending_since _) => apply wrote_HDEL
  | |- respects _ (DEL_task _) => apply wrote_DEL
  | |- respects (db_wrote _) (fun _ => _) => apply db_wrote_same_queues; done
  | |- respects (wrote _) (fun _ => _) => no_tasks
  | |- respects (wrote _) (LREM_active _) => no_tasks
  | |- respects (wrote _) (LREM_pending _) => no_tasks
  | |- respects (wrote _) (LREM1_pending _) => no_tasks
  | |- respects (wrote _) RPOPLPUSH_pending_active => no_tasks
  | |- respects (wrote _) (ZADD_ _ _ _) => no_tasks
  | |- respects (wrote _) (ZREM_ _ _) => no_tasks
  | |- respects (wrote _) (INCR_counter _ _) => no_tasks
  | |- respects (wrote _) (SET_NX_EX_lock _ _ _ _) => no_tasks
  end.

Ltac contents_call :=
  lazymatch goal with
  | |- respects _ (run_script _ _) => apply wrote_run_script
  | |- respects _ (ebind (encode _ _ _ _) _) => apply bind_encode
  end.

Ltac contents := walk_method ltac:(idtac; contents_command) ltac:(idtac; contents_call).

Section ops.
Context `{Proto pb.TaskMessage}.

Lemma contents_forwardLoop fuel t qname k : respects (db_wrote encodes) (forwardLoop fuel t qname k).
Proof. induction fuel as [|fuel IH]; [intros db; reflexivity|]. cbn [forwardLoop]. contents. Qed.
Lemma contents_deleteExpiredLoop fuel t qname : respects (db_wrote encodes) (deleteExpiredLoop fuel t qname).
Proof. induction fuel as [|fuel IH]; [intros db; reflexivity|]. cbn [deleteExpiredLoop]. contents. Qed.
Lemma contents_Dequeue t qnames : respects (db_wrote encodes) (Dequeue t qnames).
Proof. induction qnames as [|q qs IH]; cbn [Dequeue]; contents. Qed.
Lemma contents_ForwardIfReady t qnames : respects (db_wrote encodes) (ForwardIfReady t qnames).
Proof.
  induction qnames as [|q qs IH]; cbn [ForwardIfReady]; [contents|].
  apply respects_bind; [typeclasses eauto| |done].
  apply respects_map_error, respects_efor; [typeclasses eauto|]. intros k _ db. apply contents_forwardLoop.
Qed.

Lemma contents_EnqueueUnique now msg ttl : respects (db_wrote encodes) (EnqueueUnique now msg ttl).
Proof.
  apply respects_bind_lift; [typeclasses eauto|]. intros b Hb.
  assert (EncodeMessage (Some msg) = Ok b) by (by destruct (EncodeMessage (Some msg))). contents.
Qed.

Lemma exec_contents now op : respects (db_wrote encodes) (exec now op).
Proof.
  assert (Hr : forall msg t e f, respects (db_wrote encodes) (Retry now msg t e f)).
  { intros msg t e f. unfold Retry. destruct f; contents. }
  assert (Hd : forall q, respects (db_wrote encodes) (DeleteExpiredCompletedTasks now q)).
  { intros q db. apply contents_deleteExpiredLoop. }
  destruct op; apply respects_bind; try typeclasses eauto;
    auto using contents_EnqueueUnique, contents_Dequeue, contents_ForwardIfReady; intros; contents.
Qed.

(** The invariant of the contents. *)
Definition well_named (db : DB) : Prop :=
  forall qname id b, msg_at id (queue_of qname db) = Some b -> encodes qname id b.

Lemma reachable_well_named db : reachable db -> well_named db.
Proof.
  induction 1 as [|now op db r db' _ IH Hex]; [done|].
  intros qname id b Hb. pose proof (exec_contents now op db qname id b) as Hc. rewrite Hex in Hc.
  destruct (Hc Hb); [by apply IH|done].
Qed.
End ops.
