(* ===== verification/AsynqLeases.v ===== *)
(** The leases of active tasks.

    Only the operations on a task itself (taking, finishing and extending it) change its lease. *)
From stdpp Require Import base list strings numbers option gmap.
From S2P Require Import Prelude.
From S2P Require Import Redis.
From S2P Require Import AsynqBase.
From S2P Require Import AsynqStore.
From S2P Require Import AsynqRdb.
From S2P Require Import AsynqInspect.
From S2P Require Import AsynqInv.
From S2P Require Import AsynqScripts.
From S2P Require Import AsynqDb.
From S2P Require Import AsynqSpec.
From S2P Require Import AsynqRefine.
From S2P Require Import AsynqFifo.
From S2P Require Import AsynqFrame.

(** Task [id] of [qname] is leased until second [t]. *)
Definition leased (db : DB) (qname id : gostring) (t : Z) : Prop :=
  (id, t) ∈ zget ZLease (queue_of qname db).

(** The leases are the same but for the tasks of [P]; on the store of a queue and on the database. *)
Definition same_leases (P : gostring -> Prop) (s s' : QueueDB * Locks) : Prop :=
  forall id t, ~ P id -> (id, t) ∈ zget ZLease s'.1 <-> (id, t) ∈ zget ZLease s.1.

Definition db_same_leases (P : gostring -> gostring -> Prop) (db db' : DB) : Prop :=
  forall qname id t, ~ P qname id -> leased db' qname id t <-> leased db qname id t.

#[global] Instance same_leases_preorder P : PreOrder (same_leases P).
Proof. split; [done|]. intros s1 s2 s3 H1 H2 id t HP. by rewrite (H2 id t HP), (H1 id t HP). Qed.

#[global] Instance db_same_leases_preorder P : PreOrder (db_same_leases P).
Proof. split; [done|]. intros s1 s2 s3 H1 H2 q id t HP. by rewrite (H2 q id t HP), (H1 q id t HP). Qed.

Lemma leases_run_script {A} P qname (m : script A) :
  respects (same_leases (P qname)) m -> respects (db_same_leases P) (run_script qname m).
Proof.
  apply respects_run_script. intros db s' Hs q id t HP. unfold leased. rewrite queue_of_put.
  case_decide; [subst; by apply Hs|done].
Qed.

Lemma db_leases_same {E A} P (m : stE DB E A) :
  (forall db, db_queues (m db).2 = db_queues db) -> respects (db_same_leases P) m.
Proof. intros Hm db q id t HP. unfold leased, queue_of in *. by rewrite Hm. Qed.

Lemma leases_same {E A} P (m : stE (QueueDB * Locks) E A) :
  (forall s, zget ZLease (m s).2.1 = zget ZLease s.1) -> respects (same_leases P) m.
Proof. intros Hm s id t HP. by rewrite Hm. Qed.

(** Commands on other sorted sets, and on the leases of tasks of [P]. *)
Lemma leases_ZADD P k score id : k <> ZLease -> respects (same_leases P) (ZADD_ k score id).
Proof.
  intros Hk. apply leases_same. intros s. unfold ZADD_. cbn [ZADD fst snd]. rewrite zget_zput.
  by rewrite decide_False by congruence.
Qed.
Lemma leases_ZREM P k id : k <> ZLease -> respects (same_leases P) (ZREM_ k id).
Proof.
  intros Hk. apply leases_same. intros s. unfold ZREM_. cbn [ZREM fst snd]. rewrite zget_zput.
  by rewrite decide_False by congruence.
Qed.
Lemma leases_zput P k (f : QueueDB -> zset gostring) :
  k <> ZLease -> respects (same_leases P) (writes (fun q => zput k (f q) q)).
Proof.
  intros Hk. apply leases_same. intros s. unfold writes. cbn [fst snd]. rewrite zget_zput.
  by rewrite decide_False by congruence.
Qed.
Lemma leases_DEL P k : k <> ZLease -> respects (same_leases P) (DEL_zset k).
Proof.
  intros Hk. apply leases_same. intros s. unfold DEL_zset, writes. cbn [fst snd].
  unfold zget, set_zsets. cbn [q_zsets]. by rewrite lookup_delete_ne by congruence.
Qed.
Lemma leases_ZADD_lease (P : gostring -> Prop) score id : P id -> respects (same_leases P) (ZADD_ ZLease score id).
Proof.
  intros HP s x t Hx. unfold ZADD_. cbn [ZADD fst snd]. rewrite zget_zput, decide_True by done.
  rewrite elem_of_zadd. cbn [fst]. split; [intros [[= -> ->]|[_ ?]]; done|].
  intros Hin. right. split; [|done]. by intros ->.
Qed.
Lemma leases_ZREM_lease (P : gostring -> Prop) id : P id -> respects (same_leases P) (ZREM_ ZLease id).
Proof.
  intros HP s x t Hx. unfold ZREM_. cbn [ZREM fst snd]. rewrite zget_zput, decide_True by done.
  rewrite elem_of_zrem. cbn [fst]. split; [by intros [_ ?]|]. intros Hin. split; [|done]. by intros ->.
Qed.

Ltac no_lease :=
  apply leases_same; intros ?;
  unfold reads, LREM_active, LREM_pending, LREM1_pending, RPOPLPUSH_pending_active, INCR_counter,
    SET_NX_EX_lock;
  repeat case_match; done.

Lemma leases_removeFromZset P qname id st text : respects (same_leases P) (removeFromZset qname id st text).
Proof.
  unfold removeFromZset. destruct st; cbn [zset_of_state]; try (intros s; reflexivity).
  all: apply respects_bind; [typeclasses eauto|by apply leases_ZREM|].
  all: intros n; destruct (n =? 0); intros s; reflexivity.
Qed.

Ltac lease_command :=
  lazymatch goal with
  | |- respects _ (ZADD_ ZLease _ _) => apply leases_ZADD_lease; done
  | |- respects _ (ZREM_ ZLease _) => apply leases_ZREM_lease; done
  | |- respects _ (ZADD_ _ _ _) => apply leases_ZADD; done
  | |- respects _ (ZREM_ _ _) => apply leases_ZREM; done
  | |- respects _ (DEL_zset _) => apply leases_DEL; done
  | |- respects _ (removeFromZset _ _ _ _) => apply leases_removeFromZset
  | |- respects _ (ZREMRANGEBYSCORE_ _ _) => unfold ZREMRANGEBYSCORE_; apply leases_zput; done
  | |- respects _ (ZREMRANGEBYRANK_ _ _ _) => unfold ZREMRANGEBYRANK_; apply leases_zput; done
  | |- respects (db_same_leases _) (fun _ => _) => apply db_leases_same; done
  | |- respects (same_leases _) (fun _ => _) => no_lease
  | |- respects (same_leases _) (LREM_active _) => no_lease
  | |- respects (same_leases _) (LREM_pending _) => no_lease
  | |- respects (same_leases _) (LREM1_pending _) => no_lease
  | |- respects (same_leases _) RPOPLPUSH_pending_active => no_lease
  | |- respects (same_leases _) (INCR_counter _ _) => no_lease
  | |- respects (same_leases _) (SET_NX_EX_lock _ _ _ _) => no_lease
  end.

Ltac lease_call :=
  lazymatch goal with |- respects _ (run_script _ _) => apply leases_run_script end.

Ltac leases := walk_method ltac:(idtac; lease_command) ltac:(idtac; lease_call).

(** ** The operations *)

(** The tasks whose lease an operation may change. *)
Definition touches (db : DB) (op : Op) (qname id : gostring) : Prop :=
  match op with
  | ODone msg | OMarkAsComplete msg | ORequeue msg | ORetry msg _ _ _ | OArchive msg _ =>
      qname = Queue msg /\ id = ID msg
  | OExtendLease q ids => qname = q /\ id ∈ ids
  | ODequeue qnames => next_task db qnames = Some (qname, id)
  | _ => False
  end.

Section ops.
Context `{Proto pb.TaskMessage}.

Lemma leases_forwardLoop P fuel t qname k :
  k <> ZLease -> respects (db_same_leases P) (forwardLoop fuel t qname k).
Proof.
  intros Hk. induction fuel as [|fuel IH]; [intros db; reflexivity|]. cbn [forwardLoop]. leases.
Qed.
Lemma leases_deleteExpiredLoop P fuel t qname : respects (db_same_leases P) (deleteExpiredLoop fuel t qname).
Proof. induction fuel as [|fuel IH]; [intros db; reflexivity|]. cbn [deleteExpiredLoop]. leases. Qed.
Lemma leases_ForwardIfReady P t qnames : respects (db_same_leases P) (ForwardIfReady t qnames).
Proof.
  induction qnames as [|q qs IH]; cbn [ForwardIfReady]; [leases|].
  apply respects_bind; [typeclasses eauto| |done].
  apply respects_map_error. cbn [forwardAll]. unfold forwardAll. cbn [efor].
  repeat (apply respects_bind; [typeclasses eauto|intros db; by apply leases_forwardLoop|intros ?]). leases.
Qed.

(** *** The operations on leases *)

Lemma elem_of_extend (ids : list gostring) t z x s :
  x ∉ ids -> (x, s) ∈ fold_left (fun z id => zadd_xx t id z) ids z <-> (x, s) ∈ z.
Proof.
  revert z. induction ids as [|id ids IH]; intros z Hx; [done|]. cbn [fold_left].
  apply not_elem_of_cons in Hx as [Hne Hx]. rewrite IH by done. unfold zadd_xx. case_bool_decide; [|done].
  rewrite elem_of_zadd. cbn [fst]. split; [intros [[= -> _]|[_ ?]]; done|]. by right.
Qed.

Lemma leases_ExtendLease now qname ids :
  respects (db_same_leases (fun q id => q = qname /\ id ∈ ids)) (ExtendLease now qname ids).
Proof.
  unfold ExtendLease. destruct ids as [|id ids]; [leases|].
  apply respects_bind; [typeclasses eauto| |leases]. apply respects_map_error, leases_run_script.
  intros s x t Hx. unfold writes. cbn [fst snd]. rewrite zget_zput, decide_True by done.
  apply (elem_of_extend (id :: ids)). tauto.
Qed.

Lemma leases_Dequeue now qnames db L :
  DInv db L ->
  db_same_leases (fun qname id => next_task db qnames = Some (qname, id)) db (Dequeue now qnames db).2.
Proof.
  intros HD. destruct (dequeue_step now qnames db L HD) as (r & db' & -> & Ho). cbn [snd].
  intros q id t Hn. unfold dequeue_outcome in Ho. unfold leased.
  destruct (next_task db qnames) as [[qname x]|] eqn:Hnext.
  - destruct Ho as [_ [_ _ Hl _ [Ho _] _]]. destruct (decide (q = qname)) as [->|Hq].
    + rewrite Hl, elem_of_zadd. cbn [fst]. split; [intros [[= -> _]|[_ ?]]; [by destruct Hn|done]|].
      right. split; [|done]. intros ->. by apply Hn.
    + by rewrite Ho.
  - destruct Ho as [_ [(Hq & _) _]]. by rewrite Hq.
Qed.

(** Removing a queue changes nothing while it has active tasks, and else there is no lease. *)
Lemma no_active_no_lease q loc : Inv q loc -> q_active q = [] -> zget ZLease q = [].
Proof.
  intros HI Ha. destruct (zget ZLease q) as [|[x t] z] eqn:Hz; [done|]. exfalso.
  assert (Hx : x ∈ q_active q).
  { rewrite (inv_active _ _ HI), <- (inv_lease _ _ HI), Hz. apply list_elem_of_here. }
  rewrite Ha in Hx. by apply elem_of_nil in Hx.
Qed.

Lemma leases_drop P ids (rest : script Z) q locks loc :
  Inv q loc -> q_active q = [] ->
  rest = ebind (delIds ids) (fun _ => ebind (delIds ids) (fun _ => ebind dropQueueKeys (fun _ => eret 1))) ->
  same_leases P (q, locks) (rest (q, locks)).2.
Proof.
  intros HI Ha ->.
  assert (Hdel : respects (same_leases P) (ebind (delIds ids) (fun _ : unit => delIds ids) : script unit)) by leases.
  specialize (Hdel (q, locks)). revert Hdel. unfold ebind.
  destruct (delIds ids (q, locks)) as [[[]|e|p|] s1]; try done.
  destruct (delIds ids s1) as [[[]|e|p|] s2]; try done. intros Hs id t HP.
  specialize (Hs id t HP). cbn [fst snd] in *.
  rewrite (no_active_no_lease q loc HI Ha) in *.
  unfold dropQueueKeys, DEL_zset, writes, ebind, eret. cbn [fst snd].
  unfold zget, set_zsets, set_active, set_pending. cbn [q_zsets]. by rewrite lookup_delete_eq.
Qed.

Lemma leases_remove P (force : bool) q locks loc :
  Inv q loc -> same_leases P (q, locks) ((if force then removeQueueForceCmd else removeQueueCmd) (q, locks)).2.
Proof.
  intros HI. destruct force.
  - unfold removeQueueForceCmd, ebind at 1, reads. cbn [fst snd].
    destruct (Z.ltb_spec 0 (LLEN (q_active q))) as [|Hl]; [reflexivity|].
    unfold ebind at 1. cbn [fst snd]. eapply leases_drop; [exact HI| |reflexivity].
    unfold LLEN in Hl. by destruct (q_active q).
  - unfold removeQueueCmd, ebind at 1, reads. cbn [fst snd].
    destruct (Z.ltb_spec 0 (LLEN (removable_ids q))) as [|Hl]; [reflexivity|].
    eapply leases_drop; [exact HI| |reflexivity].
    unfold LLEN, removable_ids in Hl. destruct (q_active q); [done|].
    rewrite !length_app in Hl. cbn in Hl. lia.
Qed.

Lemma leases_RemoveQueue P qname (force : bool) db L :
  DInv db L -> db_same_leases P db (RemoveQueue qname force db).2.
Proof.
  intros HD. unfold RemoveQueue, requireQueueNotFound, queueExists, ebind at 1 2.
  cbn [fst snd]. case_bool_decide; [|reflexivity]. cbn [negb]. unfold eret at 1.
  set (m := if force then removeQueueForceCmd else removeQueueCmd).
  assert (Hm : db_same_leases P db (run_raw (str "rdb.RemoveQueue") Unknown qname m db).2).
  { pose proof (leases_remove (P qname) force (queue_of qname db) (db_locks db) _ (HD qname)) as Hs.
    fold m in Hs. unfold run_raw, map_error, run_script.
    destruct (m (queue_of qname db, db_locks db)) as [r [q' l']]. cbn [snd fst] in *.
    intros q id t HP. unfold leased. change {| db_queues := _ |} with (put_store qname (q', l') db).
    rewrite queue_of_put. case_decide; [subst; by apply Hs|done]. }
  unfold ebind. destruct (run_raw _ _ _ _ _) as [[n|e|p|] db1]; [|done..]. cbn [snd] in Hm.
  etransitivity; [exact Hm|]. repeat (destruct (_ =? _); [by intros q id t _|]). reflexivity.
Qed.

Lemma exec_leases now op db L : DInv db L -> db_same_leases (touches db op) db (exec now op db).2.
Proof.
  intros HD.
  assert (Heff : forall A (m : stE DB goerror A), (effect m db).2 = (m db).2).
  { intros A m. unfold effect, ebind. by destruct (m db) as [[a|e|p|] db']. }
  destruct op; cbn [exec]; rewrite Heff; eauto using leases_Dequeue, leases_RemoveQueue.
  all: try apply leases_ExtendLease; try apply leases_ForwardIfReady; try apply leases_deleteExpiredLoop.
  all: match goal with |- db_same_leases ?P _ (?m ?d).2 => cut (respects (db_same_leases P) m); [auto|] end.
  all: leases.
Qed.
End ops.
