(* ===== verification/AsynqBroker.v ===== *)
(** The interface [base.Broker] between the client and the server of the task queue and its store.

    [Broker] lists the operations on tasks; every one takes the instant at which it runs.
    [BrokerLaws] says what the operations promise to the client and the server, in terms of the places
    of the tasks; [rdb_laws] proves that the Redis broker keeps these promises. *)
From stdpp Require Import base list strings numbers option gmap.
From S2P Require Import Prelude.
From S2P Require Import Redis.
From S2P Require Import AsynqBase.
From S2P Require Import AsynqStore.
From S2P Require Import AsynqRdb.
From S2P Require Import AsynqInspect.
From S2P Require Import AsynqRegistry.
From S2P Require Import AsynqInv.
From S2P Require Import AsynqScripts.
From S2P Require Import AsynqDb.
From S2P Require Import AsynqSpec.
From S2P Require Import AsynqRefine.
From S2P Require Import AsynqMessages.
From S2P Require Import AsynqLife.
From S2P Require Import AsynqFifo.
From S2P Require Import AsynqFrame.
From S2P Require Import AsynqContents.

(** ** The operations *)
Class Broker (St : Type) := {
  b_Enqueue : Z -> TaskMessage -> stE St goerror unit;
  b_EnqueueUnique : Z -> TaskMessage -> Z -> stE St goerror unit;
  b_Dequeue : Z -> list gostring -> stE St goerror (TaskMessage * Z);
  b_Done : Z -> TaskMessage -> stE St goerror unit;
  b_MarkAsComplete : Z -> TaskMessage -> stE St goerror unit;
  b_Requeue : Z -> TaskMessage -> stE St goerror unit;
  b_Schedule : Z -> TaskMessage -> Z -> stE St goerror unit;
  b_ScheduleUnique : Z -> TaskMessage -> Z -> Z -> stE St goerror unit;
  b_Retry : Z -> TaskMessage -> Z -> gostring -> bool -> stE St goerror unit;
  b_Archive : Z -> TaskMessage -> gostring -> stE St goerror unit;
  b_ForwardIfReady : Z -> list gostring -> stE St goerror unit;
  b_AddToGroup : Z -> TaskMessage -> gostring -> stE St goerror unit;
  b_AddToGroupUnique : Z -> TaskMessage -> gostring -> gostring -> Z -> stE St goerror unit;
  b_ListGroups : gostring -> stE St goerror (list gostring);
  b_AggregationCheck : Z -> gostring -> gostring -> gostring -> Z -> Z -> Z -> Z -> stE St goerror gostring;
  b_ReadAggregationSet : gostring -> gostring -> gostring -> stE St goerror (list TaskMessage * Z);
  b_DeleteAggregationSet : gostring -> gostring -> gostring -> stE St goerror unit;
  b_ReclaimStaleAggregationSets : Z -> gostring -> stE St goerror unit;
  b_DeleteExpiredCompletedTasks : Z -> gostring -> stE St goerror unit;
  b_ListLeaseExpired : Z -> list gostring -> stE St goerror (list TaskMessage);
  b_ExtendLease : Z -> gostring -> list gostring -> stE St goerror Z;
  b_WriteServerState : Z -> ServerInfo -> list WorkerInfo -> Z -> stE St goerror unit;
  b_ClearServerState : gostring -> Z -> gostring -> stE St goerror unit;
  b_WriteResult : gostring -> gostring -> gostring -> stE St goerror Z
}.

#[global] Instance rdb_broker `{Proto pb.TaskMessage} `{Proto pb.ServerInfo} `{Proto pb.WorkerInfo} : Broker DB := {|
  b_Enqueue := Enqueue;
  b_EnqueueUnique := EnqueueUnique;
  b_Dequeue := Dequeue;
  b_Done := Done;
  b_MarkAsComplete := MarkAsComplete;
  b_Requeue _ := Requeue;
  b_Schedule _ := Schedule;
  b_ScheduleUnique := ScheduleUnique;
  b_Retry := Retry;
  b_Archive := Archive;
  b_ForwardIfReady := ForwardIfReady;
  b_AddToGroup := AddToGroup;
  b_AddToGroupUnique := AddToGroupUnique;
  b_ListGroups := ListGroups;
  b_AggregationCheck := AggregationCheck;
  b_ReadAggregationSet := ReadAggregationSet;
  b_DeleteAggregationSet := DeleteAggregationSet;
  b_ReclaimStaleAggregationSets := ReclaimStaleAggregationSets;
  b_DeleteExpiredCompletedTasks := DeleteExpiredCompletedTasks;
  b_ListLeaseExpired := ListLeaseExpired;
  b_ExtendLease := ExtendLease;
  b_WriteServerState := WriteServerState;
  b_ClearServerState := ClearServerState;
  b_WriteResult := WriteResult
|}.

(** ** What they promise *)

(** One task goes to [o]. *)
Definition move (qname id : gostring) (o : option Place) (L : DLocation) : DLocation :=
  dset qname (relocate (to1 id o) (L qname)) L.

Lemma move_at qname id o L : move qname id o L qname id = o.
Proof. unfold move, dset. rewrite decide_True by done. by rewrite relocate_to1, decide_True. Qed.

Lemma move_other qname id o L q i : (q, i) <> (qname, id) -> move qname id o L q i = L q i.
Proof.
  intros Hne. unfold move, dset. case_decide as Hq; [subst|done]. rewrite relocate_to1.
  rewrite decide_False; [done|congruence].
Qed.

Section promises.
Context {St : Type} (rep : St -> DLocation -> Prop).
(** [holds s m due]: the message of task [m] in the store is [m], and a due task is scheduled for that
    second; [reserved s k id t]: the uniqueness lock [k] is held by [id] until the instant [t];
    [archive_of s qname]: the archived tasks of a queue with the seconds at which they died. *)
Context (holds : St -> TaskMessage -> option Z -> Prop).
Context (reserved : St -> gostring -> gostring -> Z -> Prop).
Context (archive_of : St -> gostring -> zset gostring).

(** An operation that adds the task of message [m] at [p], due at [due], with a lock or without: its id
    was nowhere, nothing else moves, and the other messages are kept; when it fails, nothing moves. *)
Definition adds (call : stE St goerror unit) (m : TaskMessage) (p : Place) (due : option Z)
    (lock : option (gostring * Z)) : Prop :=
  forall s L, rep s L -> exists r s', call s = (r, s') /\
    (forall m' t, holds s m' t -> holds s' m' t) /\
    ((r = Ok tt /\ L (Queue m) (ID m) = None /\ rep s' (move (Queue m) (ID m) (Some p) L) /\
      holds s' m due /\ match lock with Some (k, t) => reserved s' k (ID m) t | None => True end)
     \/ ((exists e, r = Err e) /\ rep s' L)).

(** An operation that takes an active task to [o]; a task that is not active is refused. *)
Definition settles (m : stE St goerror unit) (qname id : gostring) (o : option Place) : Prop :=
  forall s L, rep s L -> exists r s', m s = (r, s') /\ returns r /\
    ((L qname id = active /\ rep s' (move qname id o L))
     \/ ((exists e, r = Err e) /\ L qname id <> active /\ rep s' L)).

(** The archive [z] when task [id] dies at [now]: it is added with that second, and the archive is
    trimmed to the entries that are less than 90 days old, and to the newest 9,999 ones. *)
Definition archive_add (now : Z) (id : gostring) (z : zset gostring) : zset gostring :=
  trimmed (zadd (Unix now) id z) (Unix (now - archivedExpirationInDays * Day)) maxArchiveSize.

(** The places when task [id] of [qname] went to the archive, which then is [z]: what the archive does
    not keep is out of the store. *)
Definition archive_move (qname id : gostring) (z : zset gostring) (L : DLocation) : DLocation :=
  dset qname (trim (zmembers z) (relocate (to1 id archived) (L qname))) L.

(** An operation that archives an active task; a task that is not active is refused. *)
Definition archives (call : stE St goerror unit) (now : Z) (qname id : gostring) : Prop :=
  forall s L, rep s L -> exists r s', call s = (r, s') /\ returns r /\
    let z := archive_add now id (archive_of s qname) in
    ((L qname id = active /\ rep s' (archive_move qname id z L) /\
        forall q, archive_of s' q = if decide (q = qname) then z else archive_of s q)
     \/ ((exists e, r = Err e) /\ L qname id <> active /\ rep s' L /\
        forall q, archive_of s' q = archive_of s q)).
End promises.

Class BrokerLaws (St : Type) `{Broker St} := {
  rep : St -> DLocation -> Prop;
  holds : St -> TaskMessage -> option Z -> Prop;
  reserved : St -> gostring -> gostring -> Z -> Prop;
  archive_of : St -> gostring -> zset gostring;
  (** the messages that can be stored *)
  sendable : TaskMessage -> Prop;
  law_Enqueue now m : adds rep holds reserved (b_Enqueue now m) m PPending None None;
  law_EnqueueUnique now m ttl : adds rep holds reserved (b_EnqueueUnique now m ttl) m PPending None
    (Some (UniqueKey_ m, now + Seconds ttl * Second));
  law_Schedule now m t :
    adds rep holds reserved (b_Schedule now m t) m (PZ ZScheduled) (Some (Unix t)) None;
  law_ScheduleUnique now m t ttl :
    adds rep holds reserved (b_ScheduleUnique now m t ttl) m (PZ ZScheduled) (Some (Unix t))
      (Some (UniqueKey_ m, now + Seconds ttl * Second));
  law_AddToGroup now m g : adds rep holds reserved (b_AddToGroup now m g) m (PZ (ZGroup g)) None None;
  law_AddToGroupUnique now m k g ttl : k <> [] ->
    adds rep holds reserved (b_AddToGroupUnique now m k g ttl) m (PZ (ZGroup g)) None
      (Some (k, now + Seconds ttl * Second));
  law_Dequeue now qnames s L : rep s L -> exists r s', b_Dequeue now qnames s = (r, s') /\
    match r with
    | Ok (m, t) => Queue m ∈ qnames /\ t = now + LeaseDuration /\ L (Queue m) (ID m) = pending
                   /\ rep s' (move (Queue m) (ID m) active L)
    | Err e => rep s' L
    | _ => False
    end;
  law_Done now m : settles rep (b_Done now m) (Queue m) (ID m) None;
  law_MarkAsComplete now m : sendable m -> settles rep (b_MarkAsComplete now m) (Queue m) (ID m) completed;
  law_Requeue now m : settles rep (b_Requeue now m) (Queue m) (ID m) pending;
  law_Retry now m t e f : sendable m -> settles rep (b_Retry now m t e f) (Queue m) (ID m) retrying;
  law_Archive now m e : sendable m -> archives rep archive_of (b_Archive now m e) now (Queue m) (ID m)
}.

(** ** The Redis broker *)
Section rdb.
Context `{Proto pb.TaskMessage}.

Definition rdb_rep (db : DB) (L : DLocation) : Prop := DInv db L /\ well_named db.

(** The message and all its updates have an encoding. *)
Definition rdb_sendable (m : TaskMessage) : Prop :=
  forall m', Queue m' = Queue m -> ID m' = ID m -> encodable m'.

Lemma well_named_exec now op db : well_named db -> well_named (exec now op db).2.
Proof.
  intros Hw qname id b Hb. destruct (exec_contents now op db qname id b Hb); [by apply Hw|done].
Qed.

Lemma effect_state {A} (m : stE DB goerror A) db : (effect m db).2 = (m db).2.
Proof. unfold effect, ebind. by destruct (m db) as [[a|e|p|] db']. Qed.

Definition rdb_holds (db : DB) (m : TaskMessage) (due : option Z) : Prop :=
  stored (queue_of (Queue m) db) m /\
  match due with Some t => (ID m, t) ∈ zget ZScheduled (queue_of (Queue m) db) | None => True end.

Definition rdb_reserved (db : DB) (k id : gostring) (t : Z) : Prop :=
  db_locks db !! k = Some {| lock_val := id; lock_exp := t |}.

(** *** New tasks *)

(** Task [id] is new in a queue, with the message [b], due at [due]; other tasks are as before. *)
Record entered (q q' : QueueDB) (id b : gostring) (due : option Z) : Prop := {
  en_fresh : q_tasks q !! id = None;
  en_msg : msg_at id q' = Some b;
  en_others : forall x, x <> id -> q_tasks q' !! x = q_tasks q !! x;
  en_due : match due with Some t => (id, t) ∈ zget ZScheduled q' | None => True end;
  en_scheduled : forall x t, x <> id -> (x, t) ∈ zget ZScheduled q -> (x, t) ∈ zget ZScheduled q'
}.

(** The reply of a script that adds a task: it is in the queue, with the lock, or the queue is as it was. *)
Definition enters (q : QueueDB) (id b : gostring) (due : option Z) (lock : option (gostring * Z))
    (n : Z) (s' : QueueDB * Locks) : Prop :=
  ((n = 0 \/ (n = -1 /\ lock <> None)) /\ s'.1 = q) \/
  (n = 1 /\ entered q s'.1 id b due /\
   match lock with Some (k, t) => s'.2 !! k = Some {| lock_val := id; lock_exp := t |} | None => True end).

Lemma entered_intro q q' id b due fs :
  q_tasks q !! id = None -> q_tasks q' = q_tasks (hset_task id fs q) -> h_msg (hset fs empty_hash) = Some b ->
  zget ZScheduled q' = match due with Some t => zadd t id (zget ZScheduled q) | None => zget ZScheduled q end ->
  entered q q' id b due.
Proof.
  intros Hf Ht Hb Hz. split; [done| | | |].
  - unfold msg_at, task_hash at 1. rewrite Ht. unfold hset_task, set_tasks. cbn [q_tasks].
    rewrite lookup_insert_eq. cbn [default]. unfold task_hash. by rewrite Hf.
  - intros x Hx. rewrite Ht. unfold hset_task, set_tasks. cbn [q_tasks]. by rewrite lookup_insert_ne.
  - destruct due as [t|]; [|done]. rewrite Hz, elem_of_zadd. by left.
  - intros x t Hx Hin. rewrite Hz. destruct due; [|done]. rewrite elem_of_zadd. by right.
Qed.

(** The part of the scripts after their tests. *)
Ltac enter_task :=
  cbv [ewp ebind HSET writes LPUSH_pending ZADD_ SADD_group eret fst snd]; right; split; [done|];
  split; [eapply entered_intro; [done|reflexivity|reflexivity|]|by rewrite ?lookup_insert_eq];
  first [reflexivity | cbn [fst]; store_simpl; by rewrite ?decide_True, ?decide_False by done].

Lemma enqueueCmd_enters id b now q l :
  ewp (enqueueCmd id b now) (enters q id b None None) (fun _ _ => False) (q, l).
Proof. apply ewp_EXISTS; cbn [fst]; intros; [|left; auto]. enter_task. Qed.

Lemma scheduleCmd_enters id b at_ q l :
  ewp (scheduleCmd id b at_) (enters q id b (Some at_) None) (fun _ _ => False) (q, l).
Proof. apply ewp_EXISTS; cbn [fst]; intros; [|left; auto]. enter_task. Qed.

Lemma addToGroupCmd_enters id b now g q l :
  ewp (addToGroupCmd id b now g) (enters q id b None None) (fun _ _ => False) (q, l).
Proof. apply ewp_EXISTS; cbn [fst]; intros; [|left; auto]. enter_task. Qed.
(** A script that takes a lock first. *)
Lemma lock_enters now key id ttl (m : script Z) q b due l :
  (forall l, ewp m (enters q id b due None) (fun _ _ => False) (q, l)) ->
  (forall l, (m (q, l)).2.2 = l) ->
  ewp (ok ↞ SET_NX_EX_lock now key id ttl; if negb ok then eret (-1) else m)
    (enters q id b due (Some (key, now + ttl * Second))) (fun _ s' => s'.1 = q) (q, l).
Proof.
  intros Hm Hl. apply ewp_bind. unfold SET_NX_EX_lock, SET_NX_EX, ewp at 1. cbn [fst snd].
  destruct (ttl <=? 0); [done|]. destruct (lock_get now l key); [left; auto|].
  set (lk := {| lock_val := id; lock_exp := now + ttl * nanosecond_per_second |}).
  change (ewp m (enters q id b due (Some (key, now + ttl * Second))) (fun _ s' => s'.1 = q) (q, <[key := lk]> l)).
  specialize (Hm (<[key := lk]> l)). specialize (Hl (<[key := lk]> l)). unfold ewp, enters in *.
  destruct (m (q, <[key := lk]> l)) as [[n|e|p|] [q' l']]; try done. cbn [fst snd] in *. subst l'.
  destruct Hm as [[[->|[_ Hn]] Hq]|(Hn & He & _)]; [left; auto|done|]. right. split; [done|]. split; [done|].
  exact (lookup_insert_eq l key lk).
Qed.

Ltac enter_unique :=
  apply lock_enters; intros;
  [apply ewp_EXISTS; cbn [fst]; intros; [|left; auto]; enter_task
  |unfold ebind, EXISTS_task, reads; by case_match].

Lemma enqueueUniqueCmd_enters now key id ttl b now' q l :
  ewp (enqueueUniqueCmd now key id ttl b now') (enters q id b None (Some (key, now + ttl * Second)))
    (fun _ s' => s'.1 = q) (q, l).
Proof. enter_unique. Qed.

Lemma scheduleUniqueCmd_enters now key id ttl at_ b q l :
  ewp (scheduleUniqueCmd now key id ttl at_ b) (enters q id b (Some at_) (Some (key, now + ttl * Second)))
    (fun _ s' => s'.1 = q) (q, l).
Proof. enter_unique. Qed.

Lemma addToGroupUniqueCmd_enters now id b now_sec g key ttl q l :
  ewp (addToGroupUniqueCmd now id b now_sec g key ttl) (enters q id b None (Some (key, now + ttl * Second)))
    (fun _ s' => s'.1 = q) (q, l).
Proof. enter_unique. Qed.

(** *** The methods that add a task *)

Definition db_keeps (db db' : DB) : Prop := forall m t, rdb_holds db m t -> rdb_holds db' m t.

Lemma db_keeps_queues db db' : (forall qname, queue_of qname db' = queue_of qname db) -> db_keeps db db'.
Proof. intros Hq m t. unfold rdb_holds. by rewrite Hq. Qed.

Lemma entered_keeps qname s' db id b due :
  entered (queue_of qname db) s'.1 id b due -> db_keeps db (put_store qname s' db).
Proof.
  intros [Hf _ Ho _ Hz] m t. unfold rdb_holds, stored, task_hash. rewrite queue_of_put.
  case_decide as Hq; [subst qname|done]. intros [(b' & Hb & Hm) Ht].
  assert (Hid : ID m <> id).
  { intros Hid. by rewrite Hid, Hf in Hm. }
  rewrite Ho by done. split; [by exists b'|]. destruct t; [by apply Hz|done].
Qed.

(** What such a method leaves. *)
Definition added_task (m : TaskMessage) (due : option Z) (lock : option (gostring * Z)) (db db' : DB) : Prop :=
  db_keeps db db' /\ rdb_holds db' m due /\
  match lock with Some (k, t) => rdb_reserved db' k (ID m) t | None => True end.

Lemma added_method op m (f : script Z) (k : Z -> stE DB goerror unit) b due lock db :
  EncodeMessage (Some m) = Ok b ->
  (forall q l, ewp f (enters q (ID m) b due lock) (fun _ s' => s'.1 = q) (q, l)) ->
  (forall n db, n = 0 \/ (n = -1 /\ lock <> None) -> exists e, k n db = (Err e, db)) ->
  (forall db, k 1 db = (Ok tt, db)) ->
  ewp (_ ↞ SADD_queue (Queue m); n ↞ runScriptWithErrorCode op (Queue m) f; k n)
    (fun _ => added_task m due lock db) (fun _ => db_keeps db) db.
Proof.
  intros Hb Hf Hbad Hok. set (db1 := (SADD_queue (Queue m) db).2).
  change (ewp (n ↞ runScriptWithErrorCode op (Queue m) f; k n)
    (fun _ => added_task m due lock db) (fun _ => db_keeps db) db1).
  assert (Hq : queue_of (Queue m) db1 = queue_of (Queue m) db) by done.
  assert (Hsame : forall s', s'.1 = queue_of (Queue m) db1 -> db_keeps db (put_store (Queue m) s' db1)).
  { intros s' Hs. apply db_keeps_queues. intros qname. rewrite queue_of_put. by case_decide; subst. }
  apply ewp_bind, ewp_map_error, ewp_run_script.
  eapply ewp_mono; [apply Hf| |intros e s'; apply Hsame]. intros n s' [[Hn Hs]|(-> & He & Hlock)].
  - destruct (Hbad n (put_store (Queue m) s' db1) Hn) as [e He]. unfold ewp. rewrite He. by apply Hsame.
  - unfold ewp. rewrite Hok. split; [|split].
    + intros m' t Hm'. by eapply entered_keeps.
    + unfold rdb_holds, stored. rewrite queue_of_put, decide_True by done. destruct He as [_ Hm _ Hd _].
      split; [by exists b|done].
    + by destruct lock as [[key t]|].
Qed.

Lemma encoded_method {A} op c text m (f : gostring -> stE DB goerror A) Q db :
  (forall b, EncodeMessage (Some m) = Ok b -> ewp (f b) Q (fun _ => db_keeps db) db) ->
  ewp (ebind (encode op c text m) f) Q (fun _ => db_keeps db) db.
Proof.
  intros Hf. unfold encode, ewp, ebind, elift.
  destruct (EncodeMessage_result (Some m)) as [[b Hb]|[e He]]; [rewrite Hb; by apply Hf|rewrite He].
  intros m' t Hm'. exact Hm'.
Qed.

Lemma no_task op n (db : DB) : n = 0 \/ (n = -1 /\ (None : option (gostring * Z)) <> None) ->
  exists e, (if n =? 0 then ethrow (A := unit) (E op AlreadyExists ErrTaskIdConflict) else eret tt) db = (Err e, db).
Proof. intros [->|[_ Hn]]; [by eexists|done]. Qed.

Lemma no_unique_task op n lock (db : DB) : n = 0 \/ (n = -1 /\ lock <> (None : option (gostring * Z))) ->
  exists e, unique_reply op n db = (Err e, db).
Proof. intros [->|[-> _]]; by eexists. Qed.

Ltac plain_method enters_lemma :=
  apply encoded_method; intros b Hb; apply (added_method _ _ _ _ b); try done;
  [intros; eapply ewp_mono; [apply enters_lemma|done|done]|intros; by apply no_task].

Ltac unique_method enters_lemma :=
  intros; eapply ewp_mono; [apply enters_lemma|done|done].

Lemma Enqueue_added now m db :
  ewp (Enqueue now m) (fun _ => added_task m None None db) (fun _ => db_keeps db) db.
Proof. unfold Enqueue. plain_method enqueueCmd_enters. Qed.

Lemma Schedule_added m t db :
  ewp (Schedule m t) (fun _ => added_task m (Some (Unix t)) None db) (fun _ => db_keeps db) db.
Proof. unfold Schedule. plain_method scheduleCmd_enters. Qed.

Lemma AddToGroup_added now m g db :
  ewp (AddToGroup now m g) (fun _ => added_task m None None db) (fun _ => db_keeps db) db.
Proof. unfold AddToGroup. plain_method addToGroupCmd_enters. Qed.

Lemma EnqueueUnique_added now m ttl db :
  ewp (EnqueueUnique now m ttl)
    (fun _ => added_task m None (Some (UniqueKey_ m, now + Seconds ttl * Second)) db) (fun _ => db_keeps db) db.
Proof.
  unfold EnqueueUnique. destruct (EncodeMessage_result (Some m)) as [[b Hb]|[e He]].
  - rewrite Hb. change (elift (Ok b)) with (eret (S := DB) (E := goerror) b). apply ewp_bind, ewp_ret.
    apply (added_method _ _ _ _ b); [done|apply enqueueUniqueCmd_enters|intros ? ? Hn; by eapply no_unique_task|done].
  - rewrite He. unfold ewp, ebind, elift. intros m' t Hm'. exact Hm'.
Qed.

Lemma ScheduleUnique_added now m t ttl db :
  ewp (ScheduleUnique now m t ttl)
    (fun _ => added_task m (Some (Unix t)) (Some (UniqueKey_ m, now + Seconds ttl * Second)) db)
    (fun _ => db_keeps db) db.
Proof.
  unfold ScheduleUnique. apply encoded_method. intros b Hb.
  apply (added_method _ _ _ _ b); [done|apply scheduleUniqueCmd_enters|intros ? ? Hn; by eapply no_unique_task|done].
Qed.

Lemma AddToGroupUnique_added now m k g ttl db : k <> [] ->
  ewp (AddToGroupUnique now m k g ttl)
    (fun _ => added_task m None (Some (k, now + Seconds ttl * Second)) db) (fun _ => db_keeps db) db.
Proof.
  intros Hk. unfold AddToGroupUnique. rewrite bool_decide_eq_false_2 by done. apply encoded_method. intros b Hb.
  apply (added_method _ _ _ _ b); [done|apply addToGroupUniqueCmd_enters|intros ? ? Hn; by eapply no_unique_task|done].
Qed.

(** From the invariant to the promise. *)
Lemma adds_intro now op (call : stE DB goerror unit) m p due lock :
  exec now op = effect call ->
  (forall db, ewp call (fun _ => added_task m due lock db) (fun _ => db_keeps db) db) ->
  (forall db L, DInv db L ->
     ewp call (fun _ db' => L (Queue m) (ID m) = None /\ DInv db' (move (Queue m) (ID m) (Some p) L))
       (fun _ db' => DInv db' L) db) ->
  adds rdb_rep rdb_holds rdb_reserved call m p due lock.
Proof.
  intros Hop Hadd Hm db L [HD Hw]. specialize (Hm db L HD). specialize (Hadd db).
  pose proof (well_named_exec now op db Hw) as Hw'. rewrite Hop, effect_state in Hw'.
  destruct (ewp_returns _ _ _ _ Hm) as (r & db' & Hr & Hret & Hok & Herr). unfold ewp in Hadd.
  rewrite Hr in Hw', Hadd. exists r, db'. split; [done|]. destruct Hret as [[[] ->]|[e ->]].
  - destruct Hadd as (Hk & Hh & Hl). split; [exact Hk|]. left. destruct (Hok tt eq_refl). done.
  - split; [exact Hadd|]. right. split; [eauto|]. split; [by eapply Herr|done].
Qed.

(** The reply of a script that adds a task, one of [bad] when it does not. *)
Definition add_reply (bad : list Z) (qname id : gostring) (p : Place) (L : DLocation) (n : Z) (db' : DB)
    : Prop :=
  (n ∈ bad /\ DInv db' L) \/ (n = 1 /\ L qname id = None /\ DInv db' (move qname id (Some p) L)).

Lemma added_reply bad qname id p db L n s' :
  0 ∈ bad -> DInv db L -> added (queue_of qname db) (L qname) id p n s'.1 ->
  add_reply bad qname id p L n (put_store qname s' db).
Proof.
  intros Hbad HD. unfold added, add_reply. destruct (q_tasks _ !! id) eqn:Hid.
  - intros [-> Hs]. left. split; [done|]. apply DInv_put_same; [done|]. rewrite Hs. apply HD.
  - intros [-> HI]. right. split; [done|]. split; [by eapply inv_fresh|]. by apply DInv_put.
Qed.

Lemma add_script op qname id p (m : script Z) db L :
  (forall q locks loc, Inv q loc ->
     ewp m (fun n s' => s'.2 = locks /\ added q loc id p n s'.1) (fun _ _ => False) (q, locks)) ->
  DInv db L ->
  ewp (n ↞ runScriptWithErrorCode op qname m;
       if n =? 0 then ethrow (E op AlreadyExists ErrTaskIdConflict) else eret tt)
    (fun _ db' => L qname id = None /\ DInv db' (move qname id (Some p) L)) (fun _ db' => DInv db' L) db.
Proof.
  intros Hm HD. apply ewp_bind, ewp_map_error, ewp_run_script.
  eapply ewp_mono; [apply Hm, (HD qname)| |done]. intros n s' [_ Ha].
  apply (added_reply [0]) in Ha; [|set_solver|done].
  destruct Ha as [[->%list_elem_of_singleton HD']|(-> & HL & HD')]; done.
Qed.

Lemma add_unique_script op qname now key id ttl p (m : script Z) db L :
  (forall q locks loc, Inv q loc -> added_unique q locks loc now key id ttl p m (fun n => n)) ->
  DInv db L ->
  ewp (n ↞ runScriptWithErrorCode op qname m; unique_reply op n)
    (fun _ db' => L qname id = None /\ DInv db' (move qname id (Some p) L)) (fun _ db' => DInv db' L) db.
Proof.
  intros Hm HD. apply ewp_bind, ewp_map_error, ewp_run_script.
  eapply ewp_mono; [apply Hm, (HD qname)|..].
  - intros n s' [(-> & -> & _)|(_ & _ & Ha)].
    + apply DInv_put_same; [done|]. apply HD.
    + apply (added_reply [0]) in Ha; [|set_solver|done].
      destruct Ha as [[->%list_elem_of_singleton HD']|(-> & HL & HD')]; done.
  - intros e s' [_ ->]. apply DInv_put_same; [done|]. apply HD.
Qed.

(** The steps before the script: encoding, and recording the queue. *)
Lemma ewp_still {A B} (m : stE DB goerror A) (f : A -> stE DB goerror B) Q L db :
  still m -> DInv db L ->
  (forall a db', DInv db' L -> ewp (f a) Q (fun _ db' => DInv db' L) db') ->
  ewp (ebind m f) Q (fun _ db' => DInv db' L) db.
Proof. intros Hm HD Hf. apply ewp_bind. eapply ewp_mono; [by apply Hm|intros a db'; apply Hf|done]. Qed.

Ltac before_script := repeat (eapply ewp_still; [solve [auto with still]|eassumption|intros]).

Lemma Enqueue_adds now m : 
  adds rdb_rep rdb_holds rdb_reserved (Enqueue now m) m PPending None
    None.
Proof.
  apply (adds_intro now (OEnqueue m)); [done|intros; by apply Enqueue_added|]. intros db L HD. unfold Enqueue. before_script.
  apply add_script; [|done]. intros. by apply enqueueCmd_spec.
Qed.

Lemma EnqueueUnique_adds now m ttl : 
  adds rdb_rep rdb_holds rdb_reserved (EnqueueUnique now m ttl) m PPending None
    (Some (UniqueKey_ m, now + Seconds ttl * Second)).
Proof.
  apply (adds_intro now (OEnqueueUnique m ttl)); [done|intros; by apply EnqueueUnique_added|]. intros db L HD. unfold EnqueueUnique.
  eapply ewp_still; [|exact HD|].
  - intros db' L' HD'. unfold ewp, elift. by destruct (EncodeMessage_result (Some m)) as [[b ->]|[e ->]].
  - intros b db1 HD1. before_script. eapply add_unique_script; [|done]. intros. by apply enqueueUniqueCmd_spec.
Qed.

Lemma Schedule_adds m t : 
  adds rdb_rep rdb_holds rdb_reserved (Schedule m t) m (PZ ZScheduled) (Some (Unix t))
    None.
Proof.
  apply (adds_intro 0 (OSchedule m t)); [done|intros; by apply Schedule_added|]. intros db L HD. unfold Schedule. before_script.
  apply add_script; [|done]. intros. by apply scheduleCmd_spec.
Qed.

Lemma ScheduleUnique_adds now m t ttl : 
  adds rdb_rep rdb_holds rdb_reserved (ScheduleUnique now m t ttl) m (PZ ZScheduled) (Some (Unix t))
    (Some (UniqueKey_ m, now + Seconds ttl * Second)).
Proof.
  apply (adds_intro now (OScheduleUnique m t ttl)); [done|intros; by apply ScheduleUnique_added|]. intros db L HD. unfold ScheduleUnique.
  before_script. eapply add_unique_script; [|done]. intros. by apply scheduleUniqueCmd_spec.
Qed.

Lemma AddToGroup_adds now m g : 
  adds rdb_rep rdb_holds rdb_reserved (AddToGroup now m g) m (PZ (ZGroup g)) None
    None.
Proof.
  apply (adds_intro now (OAddToGroup m g)); [done|intros; by apply AddToGroup_added|]. intros db L HD. unfold AddToGroup. before_script.
  apply add_script; [|done]. intros. by apply addToGroupCmd_spec.
Qed.

Lemma AddToGroupUnique_adds now m k g ttl : k <> [] ->
  adds rdb_rep rdb_holds rdb_reserved (AddToGroupUnique now m k g ttl) m (PZ (ZGroup g)) None
    (Some (k, now + Seconds ttl * Second)).
Proof.
  intros Hk. apply (adds_intro now (OAddToGroupUnique m k g ttl)); [done|intros; by apply AddToGroupUnique_added|]. intros db L HD. unfold AddToGroupUnique.
  before_script. eapply add_unique_script; [|done]. intros. by apply addToGroupUniqueCmd_spec.
Qed.

(** *** Active tasks *)

Lemma settles_intro now op (m : stE DB goerror unit) qname id o :
  exec now op = effect m ->
  (forall db L, DInv db L ->
     ewp m (fun _ db' => L qname id = active /\ DInv db' (move qname id o L))
       (fun _ db' => (L qname id = active /\ DInv db' (move qname id o L))
                     \/ (L qname id <> active /\ DInv db' L)) db) ->
  settles rdb_rep m qname id o.
Proof.
  intros Hop Hm db L [HD Hw]. specialize (Hm db L HD).
  pose proof (well_named_exec now op db Hw) as Hw'. rewrite Hop, effect_state in Hw'.
  destruct (ewp_returns _ _ _ _ Hm) as (r & db' & Hr & Hret & Hok & Herr). rewrite Hr in Hw'.
  exists r, db'. split; [done|]. split; [done|]. destruct Hret as [[[] ->]|[e ->]].
  - left. destruct (Hok tt eq_refl). done.
  - destruct (Herr e eq_refl) as [[? ?]|[? ?]]; [by left|right]. split; [eauto|]. done.
Qed.

Lemma settle_script {A} op qname id o (m : script A) (P PE : QueueDB -> Locks -> Location -> QueueDB -> Locks -> Prop) db L :
  (forall q locks loc, Inv q loc ->
     leaves_active_locks q locks loc id m (P q locks loc) (PE q locks loc)) ->
  (forall q locks loc q' l', P q locks loc q' l' \/ PE q locks loc q' l' ->
     Inv q' (relocate (to1 id o) loc)) ->
  DInv db L ->
  ewp (runScript op qname m) (fun _ db' => L qname id = active /\ DInv db' (move qname id o L))
    (fun _ db' => (L qname id = active /\ DInv db' (move qname id o L))
                  \/ (L qname id <> active /\ DInv db' L)) db.
Proof.
  intros Hm HP HD. apply ewp_bind, ewp_map_error, ewp_run_script.
  eapply ewp_mono; [apply Hm, (HD qname)|..].
  - intros a s' [Hloc HPs]. apply ewp_ret. split; [done|]. apply DInv_put; [done|]. eapply HP. eauto.
  - intros e s' [(_ & Hloc & ->)|(_ & Hloc & HPs)].
    + right. split; [done|]. apply DInv_put_same; [done|]. apply HD.
    + left. split; [done|]. apply DInv_put; [done|]. eapply HP. eauto.
Qed.

Lemma Done_settles now m : settles rdb_rep (Done now m) (Queue m) (ID m) None.
Proof.
  apply (settles_intro now (ODone m)); [done|]. intros db L HD. unfold Done. cbv zeta.
  destruct (negb _); (eapply settle_script; [intros| |done]);
    [by apply doneUniqueCmd_spec|cbn; naive_solver|by apply doneCmd_spec|cbn; naive_solver].
Qed.

(** The encoding of a sendable message succeeds. *)
Lemma bind_encoded {A} op c text m (f : gostring -> stE DB goerror A) Q X db :
  encodable m -> (forall b, ewp (f b) Q X db) -> ewp (ebind (encode op c text m) f) Q X db.
Proof. intros [b Hb] Hf. unfold encode, ewp, ebind, elift. rewrite Hb. apply Hf. Qed.

Lemma MarkAsComplete_settles now m :
  rdb_sendable m -> settles rdb_rep (MarkAsComplete now m) (Queue m) (ID m) completed.
Proof.
  intros Hs. apply (settles_intro now (OMarkAsComplete m)); [done|]. intros db L HD.
  unfold MarkAsComplete. cbv zeta. apply bind_encoded; [by apply Hs|]. intros b.
  destruct (negb _); (eapply (settle_script _ (Queue m) (ID m)); [intros| |done]);
    [by apply markAsCompleteUniqueCmd_spec|cbn; naive_solver|by apply markAsCompleteCmd_spec|cbn; naive_solver].
Qed.

Lemma Requeue_settles m : settles rdb_rep (Requeue m) (Queue m) (ID m) pending.
Proof.
  apply (settles_intro 0 (ORequeue m)); [done|]. intros db L HD. unfold Requeue.
  eapply settle_script; [intros; by apply requeueCmd_spec|cbn; naive_solver|done].
Qed.

Lemma Retry_settles now m t e f :
  rdb_sendable m -> settles rdb_rep (Retry now m t e f) (Queue m) (ID m) retrying.
Proof.
  intros Hs. apply (settles_intro now (ORetry m t e f)); [done|]. intros db L HD. unfold Retry. cbv zeta.
  apply bind_encoded; [apply Hs; by destruct f|]. intros b.
  eapply settle_script; [intros; by apply retryCmd_spec|cbn; naive_solver|done].
Qed.

Definition rdb_archive (db : DB) (qname : gostring) : zset gostring := zget ZArchived (queue_of qname db).

Lemma Archive_archives now m e :
  rdb_sendable m -> archives rdb_rep rdb_archive (Archive now m e) now (Queue m) (ID m).
Proof.
  intros Hs db L [HD Hw].
  pose proof (well_named_exec now (OArchive m e) db Hw) as Hw'. cbn [exec] in Hw'. rewrite effect_state in Hw'.
  set (z := archive_add now (ID m) (rdb_archive db (Queue m))).
  set (moved := fun db' => L (Queue m) (ID m) = active /\ DInv db' (archive_move (Queue m) (ID m) z L) /\
    forall q, rdb_archive db' q = if decide (q = Queue m) then z else rdb_archive db q).
  set (refused := fun db' => L (Queue m) (ID m) <> active /\ DInv db' L /\
    forall q, rdb_archive db' q = rdb_archive db q).
  assert (Hm : ewp (Archive now m e) (fun _ => moved) (fun _ db' => moved db' \/ refused db') db).
  { assert (Hput : forall s', L (Queue m) (ID m) = active -> zget ZArchived s'.1 = z ->
      Inv s'.1 (trim (zmembers z) (relocate (to1 (ID m) archived) (L (Queue m)))) ->
      moved (put_store (Queue m) s' db)).
    { intros s' Hloc Hz HI. split; [done|]. split; [by apply DInv_put|].
      intros q. unfold rdb_archive. rewrite queue_of_put. by case_decide. }
    unfold Archive. cbv zeta. apply bind_encoded; [by apply Hs|]. intros b.
    apply ewp_bind, ewp_map_error, ewp_run_script.
    eapply ewp_mono; [apply archiveCmd_spec, (HD (Queue m))|..].
    - intros a s' (Hloc & _ & Hz & HI). apply ewp_ret. by apply Hput.
    - intros err s' [(_ & Hloc & ->)|(_ & Hloc & _ & Hz & HI)]; [|left; by apply Hput].
      right. split; [done|]. split; [apply DInv_put_same; [done|]; apply HD|].
      intros q. unfold rdb_archive. rewrite queue_of_put. by case_decide; subst. }
  destruct (ewp_returns _ _ _ _ Hm) as (r & db' & Hr & Hret & Hok & Herr). rewrite Hr in Hw'.
  exists r, db'. split; [done|]. split; [done|]. cbv zeta. fold z.
  assert (Hcase : moved db' \/ (exists e, r = Err e) /\ refused db').
  { destruct Hret as [[[] ->]|[e' ->]]; [left; by apply (Hok tt)|].
    destruct (Herr e' eq_refl) as [?|?]; [by left|right; eauto]. }
  destruct Hcase as [(Ha & HD' & Hz)|(He & Hn & HD' & Hz)]; [left|right];
    (split; [done|]; split; try done; by split).
Qed.

(** *** Taking tasks *)

(** The places after a task was taken. *)
Lemma taken_places qname id lease now qnames r db db' L :
  DInv db L -> Dequeue now qnames db = (r, db') -> taken_from qname id lease db db' ->
  L qname id = pending /\ DInv db' (move qname id active L).
Proof.
  intros HD Hrun [Hp Ha _ _ [Ho _] _].
  assert (Hid : L qname id = pending).
  { apply (inv_pending _ _ (HD qname)). rewrite Hp. set_solver. }
  split; [done|]. pose proof (Dequeue_follows now qnames qnames (fun q Hq => Hq) db L HD) as Hf.
  unfold ewp in Hf. rewrite Hrun in Hf.
  assert (Hk : kept (lifecycle (ODequeue qnames)) L db') by (by destruct r).
  destruct Hk as (L' & HD' & He). intros q. eapply Inv_ext; [|apply HD'].
  intros x. destruct (decide ((q, x) = (qname, id))) as [[= -> ->]|Hne].
  - rewrite move_at. symmetry. apply (inv_active _ _ (HD' qname)). rewrite Ha. set_solver.
  - rewrite move_other by done. destruct (He q x) as [->|(_ & Hp1 & Ha1)]; [done|]. exfalso.
    apply (inv_active _ _ (HD' q)) in Ha1. destruct (decide (q = qname)) as [->|Hq].
    + rewrite Ha in Ha1. apply elem_of_cons in Ha1 as [->|Ha1]; [done|].
      apply (inv_active _ _ (HD qname)) in Ha1. by rewrite Ha1 in Hp1.
    + rewrite Ho in Ha1 by done. apply (inv_active _ _ (HD q)) in Ha1. by rewrite Ha1 in Hp1.
Qed.

Context `{!ProtoLaws pb.TaskMessage pb.normal_TaskMessage}.
Context `{PS : Proto pb.ServerInfo} `{PW : Proto pb.WorkerInfo}.

Lemma encodes_decode qname id b :
  encodes qname id b -> exists m, DecodeMessage b = Ok m /\ Queue m = qname /\ ID m = id.
Proof using All.
  intros (m & Hb & <- & <-). exists (wire_message m). split; [by apply decode_encode|done].
Qed.

Lemma next_task_in db qnames qname id : next_task db qnames = Some (qname, id) -> qname ∈ qnames.
Proof using.
  induction qnames as [|q qs IH]; [done|]. cbn [next_task].
  destruct (q_paused _); [intros Hn; right; by apply IH|].
  destruct (last (q_pending _)); [intros [= <- <-]; by left|intros Hn; right; by apply IH].
Qed.

Lemma Dequeue_law now qnames db L :
  rdb_rep db L -> exists r db', Dequeue now qnames db = (r, db') /\
    match r with
    | Ok (m, t) => Queue m ∈ qnames /\ t = now + LeaseDuration /\ L (Queue m) (ID m) = pending
                   /\ rdb_rep db' (move (Queue m) (ID m) active L)
    | Err e => rdb_rep db' L
    | _ => False
    end.
Proof using All.
  intros [HD Hw]. destruct (dequeue_step now qnames db L HD) as (r & db' & Hrun & Ho).
  pose proof (well_named_exec now (ODequeue qnames) db Hw) as Hw'. cbn [exec] in Hw'.
  rewrite effect_state, Hrun in Hw'. exists r, db'. split; [done|]. unfold dequeue_outcome in Ho.
  destruct (next_task db qnames) as [[qname id]|] eqn:Hn.
  - destruct Ho as [(b & Hb & ->) Ht].
    destruct (encodes_decode qname id b) as (m & Hm & <- & <-); [by apply Hw|].
    unfold dequeued. rewrite Hm. split; [by eapply next_task_in|]. split; [done|].
    destruct (taken_places _ _ _ _ _ _ _ _ L HD Hrun Ht) as [H1 H2]. done.
  - destruct Ho as [-> [(Hq & _) _]]. split; [|done]. intros q. rewrite Hq. apply HD.
Qed.

#[global] Instance rdb_laws : BrokerLaws DB.
Proof using All.
  refine {| rep := rdb_rep; holds := rdb_holds; reserved := rdb_reserved; archive_of := rdb_archive;
            sendable := rdb_sendable |}.
  - apply Enqueue_adds.
  - apply EnqueueUnique_adds.
  - intros now m t. apply Schedule_adds.
  - apply ScheduleUnique_adds.
  - apply AddToGroup_adds.
  - apply AddToGroupUnique_adds.
  - apply Dequeue_law.
  - apply Done_settles.
  - apply MarkAsComplete_settles.
  - intros now m. apply Requeue_settles.
  - apply Retry_settles.
  - apply Archive_archives.
Defined.
End rdb.
