(* ===== verification/AsynqClient.v ===== *)
(** The client: options, and enqueueing a task ([client.go], and [Task] and [TaskInfo] of [asynq.go]).

    The client works against the interface [Broker].  The clock is read once per call; the id that
    [uuid.NewString] generates is an argument. *)
From stdpp Require Import base list strings numbers option gmap.
From S2P Require Import Prelude.
From S2P Require Import AsynqBase.
From S2P Require Import AsynqStore.
From S2P Require Import AsynqInv.
From S2P Require Import AsynqDb.
From S2P Require Import AsynqSpec.
From S2P Require Import AsynqLife.
From S2P Require Import AsynqBroker.

(** ** Options *)

(** The zero [time.Time], the first of January of year 1. *)
Definition zeroTime : Z := -62135596800 * Second.

Inductive Option :=
  | retryOption (n : Z)
  | queueOption (name : gostring)
  | taskIDOption (id : gostring)
  | timeoutOption (d : Z)
  | deadlineOption (t : Z)
  | uniqueOption (ttl : Z)
  | uniqueKeyOption (k : gostring)
  | processAtOption (t : Z)
  | processInOption (d : Z)
  | retentionOption (d : Z)
  | groupOption (name : gostring).

Definition MaxRetry (n : Z) : Option := retryOption (if n <? 0 then 0 else n).

(** The struct [option]. *)
Record option_ := {
  o_retry : Z;
  o_queue : gostring;
  o_taskID : gostring;
  o_timeout : Z;
  o_deadline : Z;
  o_uniqueTTL : Z;
  o_uniqueKey : gostring;
  o_processAt : Z;
  o_retention : Z;
  o_group : gostring
}.

Definition defaultMaxRetry : Z := 25.
Definition defaultTimeout : Z := 30 * Minute.
Definition noTimeout : Z := 0.
Definition noDeadline : Z := 0.

Definition isBlank (s : gostring) : bool := is_blank s.

(** One round of the loop of [composeOptions]. *)
Definition applyOption (now : Z) (res : option_) (opt : Option) : goerror + option_ :=
  let '{| o_retry := retry; o_queue := queue; o_taskID := taskID; o_timeout := timeout;
          o_deadline := deadline; o_uniqueTTL := uniqueTTL; o_uniqueKey := uniqueKey;
          o_processAt := processAt; o_retention := retention; o_group := group |} := res in
  match opt with
  | retryOption n =>
      inr {| o_retry := n; o_queue := queue; o_taskID := taskID; o_timeout := timeout;
             o_deadline := deadline; o_uniqueTTL := uniqueTTL; o_uniqueKey := uniqueKey;
             o_processAt := processAt; o_retention := retention; o_group := group |}
  | queueOption qname =>
      match ValidateQueueName qname with
      | Some err => inl err
      | None =>
          inr {| o_retry := retry; o_queue := qname; o_taskID := taskID; o_timeout := timeout;
                 o_deadline := deadline; o_uniqueTTL := uniqueTTL; o_uniqueKey := uniqueKey;
                 o_processAt := processAt; o_retention := retention; o_group := group |}
      end
  | taskIDOption id =>
      if isBlank id then inl (NewError (str "task ID cannot be empty"))
      else inr {| o_retry := retry; o_queue := queue; o_taskID := id; o_timeout := timeout;
                  o_deadline := deadline; o_uniqueTTL := uniqueTTL; o_uniqueKey := uniqueKey;
                  o_processAt := processAt; o_retention := retention; o_group := group |}
  | timeoutOption d =>
      inr {| o_retry := retry; o_queue := queue; o_taskID := taskID; o_timeout := d;
             o_deadline := deadline; o_uniqueTTL := uniqueTTL; o_uniqueKey := uniqueKey;
             o_processAt := processAt; o_retention := retention; o_group := group |}
  | deadlineOption t =>
      inr {| o_retry := retry; o_queue := queue; o_taskID := taskID; o_timeout := timeout;
             o_deadline := t; o_uniqueTTL := uniqueTTL; o_uniqueKey := uniqueKey;
             o_processAt := processAt; o_retention := retention; o_group := group |}
  | uniqueOption ttl =>
      if ttl <? 1 * Second then inl (NewError (str "Unique TTL cannot be less than 1s"))
      else inr {| o_retry := retry; o_queue := queue; o_taskID := taskID; o_timeout := timeout;
                  o_deadline := deadline; o_uniqueTTL := ttl; o_uniqueKey := uniqueKey;
                  o_processAt := processAt; o_retention := retention; o_group := group |}
  | processAtOption t =>
      inr {| o_retry := retry; o_queue := queue; o_taskID := taskID; o_timeout := timeout;
             o_deadline := deadline; o_uniqueTTL := uniqueTTL; o_uniqueKey := uniqueKey;
             o_processAt := t; o_retention := retention; o_group := group |}
  | processInOption d =>
      inr {| o_retry := retry; o_queue := queue; o_taskID := taskID; o_timeout := timeout;
             o_deadline := deadline; o_uniqueTTL := uniqueTTL; o_uniqueKey := uniqueKey;
             o_processAt := now + d; o_retention := retention; o_group := group |}
  | retentionOption d =>
      inr {| o_retry := retry; o_queue := queue; o_taskID := taskID; o_timeout := timeout;
             o_deadline := deadline; o_uniqueTTL := uniqueTTL; o_uniqueKey := uniqueKey;
             o_processAt := processAt; o_retention := d; o_group := group |}
  | groupOption key =>
      if isBlank key then inl (NewError (str "group key cannot be empty"))
      else inr {| o_retry := retry; o_queue := queue; o_taskID := taskID; o_timeout := timeout;
                  o_deadline := deadline; o_uniqueTTL := uniqueTTL; o_uniqueKey := uniqueKey;
                  o_processAt := processAt; o_retention := retention; o_group := key |}
  | uniqueKeyOption _ => inr res (* not a case of the switch *)
  end.

Fixpoint applyOptions (now : Z) (res : option_) (opts : list Option) : goerror + option_ :=
  match opts with
  | [] => inr res
  | opt :: opts =>
      match applyOption now res opt with
      | inl err => inl err
      | inr res => applyOptions now res opts
      end
  end.

Definition composeOptions (uuid : gostring) (now : Z) (opts : list Option) : goerror + option_ :=
  applyOptions now
    {| o_retry := defaultMaxRetry; o_queue := DefaultQueueName; o_taskID := uuid; o_timeout := 0;
       o_deadline := zeroTime; o_uniqueTTL := 0; o_uniqueKey := []; o_processAt := now;
       o_retention := 0; o_group := [] |} opts.

(** ** Tasks *)

Record Task := { typename : gostring; payload : option gostring; task_opts : list Option }.

Definition NewTask (typename : gostring) (payload : option gostring) (opts : list Option) : Task :=
  {| typename := typename; payload := payload; task_opts := opts |}.

(** [TaskInfo]; [IsOrphaned] is set by the inspector only. *)
Record TaskInfo := {
  i_ID : gostring;
  i_Queue : gostring;
  i_Type : gostring;
  i_Payload : option gostring;
  i_State : TaskState;
  i_MaxRetry : Z;
  i_Retried : Z;
  i_LastErr : gostring;
  i_LastFailedAt : Z;
  i_Timeout : Z;
  i_Deadline : Z;
  i_Group : gostring;
  i_NextProcessAt : Z;
  i_Retention : Z;
  i_CompletedAt : Z;
  i_Result : option gostring
}.

Definition fromUnixTimeOrZero (t : Z) : Z := if t =? 0 then zeroTime else t * Second.

Definition newTaskInfo (msg : TaskMessage) (state : TaskState) (nextProcessAt : Z)
    (result : option gostring) : TaskInfo :=
  {| i_ID := ID msg; i_Queue := Queue msg; i_Type := Type_ msg; i_Payload := Payload msg;
     i_State := state; i_MaxRetry := Retry_ msg; i_Retried := Retried msg; i_LastErr := ErrorMsg msg;
     i_LastFailedAt := fromUnixTimeOrZero (LastFailedAt msg);
     i_Timeout := Timeout_ msg * Second; i_Deadline := fromUnixTimeOrZero (Deadline msg);
     i_Group := GroupKey_ msg; i_NextProcessAt := nextProcessAt; i_Retention := Retention msg * Second;
     i_CompletedAt := fromUnixTimeOrZero (CompletedAt msg); i_Result := result |}.

(** ** Enqueueing *)

(** The errors of the client: its own two sentinels, and other errors. *)
Inductive ClientError :=
  | ClientErrDuplicateTask
  | ClientErrTaskIDConflict
  | ClientErr (err : goerror).

(** The message of a task: the part of [EnqueueContext] between the options and the broker. *)
Definition buildMessage (task : Task) (opt : option_) : TaskMessage :=
  let deadline := if negb (o_deadline opt =? zeroTime) then o_deadline opt else noDeadline in
  let timeout := if negb (o_timeout opt =? 0) then o_timeout opt else noTimeout in
  let timeout := if (deadline =? noDeadline) && (timeout =? noTimeout) then defaultTimeout else timeout in
  let uniqueKey :=
    if 0 <? o_uniqueTTL opt
    then if bool_decide (o_uniqueKey opt = [])
         then UniqueKey (o_queue opt) (typename task) (payload task) else o_uniqueKey opt
    else [] in
  {| Type_ := typename task; Payload := payload task; ID := o_taskID opt; Queue := o_queue opt;
     Retry_ := o_retry opt; Retried := 0; ErrorMsg := []; LastFailedAt := 0;
     Timeout_ := Seconds timeout; Deadline := Unix deadline; UniqueKey_ := uniqueKey;
     GroupKey_ := o_group opt; Retention := Seconds (o_retention opt); CompletedAt := 0 |}.

Section client.
Context {St : Type} `{Broker St}.

Definition enqueue (now : Z) (msg : TaskMessage) (uniqueTTL : Z) : stE St goerror unit :=
  if 0 <? uniqueTTL then b_EnqueueUnique now msg uniqueTTL else b_Enqueue now msg.

Definition schedule (now : Z) (msg : TaskMessage) (t uniqueTTL : Z) : stE St goerror unit :=
  if 0 <? uniqueTTL then b_ScheduleUnique now msg t (t + uniqueTTL - now) else b_Schedule now msg t.

Definition addToGroup (now : Z) (msg : TaskMessage) (uniqueKey group : gostring) (uniqueTTL : Z)
    : stE St goerror unit :=
  if 0 <? uniqueTTL then b_AddToGroupUnique now msg uniqueKey group uniqueTTL
  else b_AddToGroup now msg group.

(** The error of the client for an error of the broker. *)
Definition clientError (err : goerror) : ClientError :=
  if Is err ErrDuplicateTask then ClientErrDuplicateTask
  else if Is err ErrTaskIdConflict then ClientErrTaskIDConflict
  else ClientErr err.

(** The two results of [EnqueueContext]; [None] is nil. *)
Definition EnqueueContext (uuid : gostring) (now : Z) (task : option Task) (opts : list Option) (s : St)
    : option TaskInfo * option ClientError * St :=
  match task with
  | None => (None, Some (ClientErr (NewError (str "task cannot be nil"))), s)
  | Some task =>
      if isBlank (typename task)
      then (None, Some (ClientErr (NewError (str "task typename cannot be empty"))), s)
      else
        match composeOptions uuid now (task_opts task ++ opts) with
        | inl err => (None, Some (ClientErr err), s)
        | inr opt =>
            let msg := buildMessage task opt in
            let '(call, state, processAt) :=
              if now <? o_processAt opt
              then (schedule now msg (o_processAt opt) (o_uniqueTTL opt), TaskStateScheduled, o_processAt opt)
              else if negb (bool_decide (o_group opt = []))
              then (addToGroup now msg (UniqueKey_ msg) (o_group opt) (o_uniqueTTL opt),
                    TaskStateAggregating, zeroTime)
              else (enqueue now msg (o_uniqueTTL opt), TaskStatePending, now) in
            let info := newTaskInfo msg state processAt None in
            match call s with
            | (Err err, s) => (Some info, Some (clientError err), s)
            | (_, s) => (Some info, None, s)
            end
        end
  end.
End client.
