(* ===== verification/AsynqServer.v ===== *)
(** The server: what its goroutines do to the store ([processor.go], [recoverer.go], [forwarder.go],
    [janitor.go], [aggregator.go], [heartbeat.go], [syncer.go]).

    The goroutines poll and wait; each round of theirs is one function here, against the interface
    [Broker], at one instant.  Logging is left out.  The functions of the configuration
    ([RetryDelayFunc], [IsFailure], the group aggregator) are arguments. *)
From stdpp Require Import base list strings numbers option gmap.
From S2P Require Import Prelude.
From S2P Require Import AsynqBase.
From S2P Require Import AsynqStore.
From S2P Require Import AsynqRdb.
From S2P Require Import AsynqInv.
From S2P Require Import AsynqBroker.
From S2P Require Import AsynqClient.

(** An error of a handler: its text, and whether it wraps [SkipRetry]. *)
Record HandlerError := { he_text : gostring; he_skipRetry : bool }.

Definition ErrLeaseExpired : HandlerError :=
  {| he_text := str "asynq: task lease expired"; he_skipRetry := false |}.

(** ** Queues of a server *)

(** [uniq]: the first [l] distinct names, in order. *)
Fixpoint uniq_from (seen : list gostring) (names : list gostring) (l : nat) : list gostring :=
  match names with
  | [] => []
  | s :: names =>
      if bool_decide (s ∈ seen)
      then if (length seen =? l)%nat then [] else uniq_from seen names l
      else if (S (length seen) =? l)%nat then [s] else s :: uniq_from (s :: seen) names l
  end.
Definition uniq (names : list gostring) (l : nat) : list gostring := uniq_from [] names l.

(** The loop of [gcd]'s helper: [for y > 0 { x, y = y, x%y }]. *)
Fixpoint gcd_loop (fuel : nat) (x y : Z) : Z :=
  match fuel with
  | O => x
  | S fuel => if 0 <? y then gcd_loop fuel y (Z.rem x y) else x
  end.
Definition gcd2 (x y : Z) : Z := gcd_loop (S (Z.to_nat y)) x y.

Fixpoint gcd_from (res : Z) (xs : list Z) : Z :=
  match xs with
  | [] => res
  | x :: xs =>
      let res := gcd2 x res in
      if res =? 1 then 1 else gcd_from res xs
  end.
(** [xs[0]] panics on an empty list. *)
Definition gcd (xs : list Z) : outcome goerror Z :=
  match xs with
  | [] => Panic (str "runtime error: index out of range [0] with length 0")
  | x :: _ => Ok (gcd_from x xs)
  end.

(** The configuration as an association list: a map in some order. *)
Definition normalizeQueues (queues : list (gostring * Z)) : outcome goerror (list (gostring * Z)) :=
  d ⇐ gcd (map snd queues);
  if d =? 0 then Panic (str "runtime error: integer divide by zero")
  else Ok (map (fun q => (q.1, Z.quot q.2 d)) queues).

(** [names] is the shuffled list of the names, each as often as its priority. *)
Definition queues (queueConfig : list (gostring * Z)) (orderedQueues : option (list gostring))
    (shuffle : list gostring -> list gostring) : list gostring :=
  match queueConfig, orderedQueues with
  | [(qname, _)], _ => [qname]
  | _, Some qs => qs
  | _, None =>
      uniq (shuffle (flat_map (fun q => replicate (Z.to_nat q.2) q.1) queueConfig)) (length queueConfig)
  end.

Definition computeDeadline (now : Z) (msg : TaskMessage) : Z :=
  if (Timeout_ msg =? 0) && (Deadline msg =? 0) then now + defaultTimeout
  else if negb (Timeout_ msg =? 0) && negb (Deadline msg =? 0)
  then Z.min (Unix now + Timeout_ msg) (Deadline msg) * Second
  else if negb (Timeout_ msg =? 0) then now + Timeout_ msg * Second
  else Deadline msg * Second.

(** ** The processor *)

(** A [workerInfo]. *)
Record workerInfo := { w_msg : TaskMessage; w_started : Z; w_deadline : Z; w_lease : Lease }.

(** The workers by their addresses. *)
Abbreviation heap := (gmap nat workerInfo).

(** The heartbeater of a server; the workers by the ids of their tasks. *)
Record heartbeater := {
  hb_host : gostring;
  hb_pid : Z;
  hb_serverID : gostring;
  hb_interval : Z;
  hb_concurrency : Z;
  hb_queues : gmap gostring Z;
  hb_strictPriority : bool;
  hb_started : Z;
  hb_workers : gmap gostring nat
}.

(** How the [select] of a worker ends. *)
Inductive WorkerEnd :=
  | Abort_                       (* the server shuts down *)
  | LeaseDone                    (* the lease expired *)
  | CtxDone (err : HandlerError) (* the context of the task is done *)
  | Result_ (err : option HandlerError).

Section server.
Context {St : Type} `{Broker St}.
Context (retryDelayFunc : Z -> HandlerError -> Task -> Z) (isFailureFunc : HandlerError -> bool).

Record syncRequest := { sr_fn : Z -> stE St goerror unit; sr_errMsg : gostring; sr_deadline : Z }.

(** What a worker does to the store: the requests it sends to the syncer, and the store. *)
Definition action : Type := St -> list syncRequest * St.

(** The calls of a worker: not made when the lease is not valid, and given to the syncer when they
    fail. *)
Definition guardedCall (now : Z) (l : Lease) (call : Z -> stE St goerror unit) (errMsg : gostring)
    : action := fun s =>
  if negb (Lease_IsValid now l) then ([], s)
  else
    match call now s with
    | (Err _, s) => ([{| sr_fn := call; sr_errMsg := errMsg; sr_deadline := Lease_Deadline l |}], s)
    | (_, s) => ([], s)
    end.

Definition p_requeue (now : Z) (l : Lease) (msg : TaskMessage) : action := fun s =>
  if negb (Lease_IsValid now l) then ([], s) else ([], (b_Requeue now msg s).2).

Definition markAsComplete (now : Z) (l : Lease) (msg : TaskMessage) : action :=
  guardedCall now l (fun now => b_MarkAsComplete now msg)
    (str "Could not move task id=" ++ ID msg ++ str " type=" ++ quote (Type_ msg) ++ str " from "
       ++ quote (ActiveKey (Queue msg)) ++ str " to " ++ quote (CompletedKey (Queue msg))).

Definition markAsDone (now : Z) (l : Lease) (msg : TaskMessage) : action :=
  guardedCall now l (fun now => b_Done now msg)
    (str "Could not remove task id=" ++ ID msg ++ str " type=" ++ quote (Type_ msg) ++ str " from "
       ++ quote (ActiveKey (Queue msg))).

Definition handleSucceededMessage (now : Z) (l : Lease) (msg : TaskMessage) : action :=
  if 0 <? Retention msg then markAsComplete now l msg else markAsDone now l msg.

(** [retryAt] is computed once; the syncer repeats the call with it. *)
Definition p_retry (now : Z) (l : Lease) (msg : TaskMessage) (e : HandlerError) (isFailure : bool)
    : action :=
  let d := retryDelayFunc (Retried msg) e (NewTask (Type_ msg) (Payload msg) []) in
  let retryAt := now + d in
  guardedCall now l (fun now => b_Retry now msg retryAt (he_text e) isFailure)
    (str "Could not move task id=" ++ ID msg ++ str " from " ++ quote (ActiveKey (Queue msg))
       ++ str " to " ++ quote (RetryKey (Queue msg))).

Definition p_archive (now : Z) (l : Lease) (msg : TaskMessage) (e : HandlerError) : action :=
  guardedCall now l (fun now => b_Archive now msg (he_text e))
    (str "Could not move task id=" ++ ID msg ++ str " from " ++ quote (ActiveKey (Queue msg))
       ++ str " to " ++ quote (ArchivedKey (Queue msg))).

Definition handleFailedMessage (now : Z) (l : Lease) (msg : TaskMessage) (err : HandlerError) : action :=
  if negb (isFailureFunc err) then p_retry now l msg err false
  else if (Retry_ msg <=? Retried msg) || he_skipRetry err then p_archive now l msg err
  else p_retry now l msg err true.

(** The end of a worker goroutine. *)
Definition finish (now : Z) (w : workerInfo) (e : WorkerEnd) : action :=
  match e with
  | Abort_ => p_requeue now (w_lease w) (w_msg w)
  | LeaseDone => handleFailedMessage now (w_lease w) (w_msg w) ErrLeaseExpired
  | CtxDone err => handleFailedMessage now (w_lease w) (w_msg w) err
  | Result_ (Some err) => handleFailedMessage now (w_lease w) (w_msg w) err
  | Result_ None => handleSucceededMessage now (w_lease w) (w_msg w)
  end.

(** The start of a worker: [exec] up to the goroutine. *)
Definition exec_take (now : Z) (qnames : list gostring) (s : St) : option workerInfo * St :=
  match b_Dequeue now qnames s with
  | (Ok (msg, leaseExpirationTime), s) =>
      (Some {| w_msg := msg; w_started := now; w_deadline := computeDeadline now msg;
               w_lease := NewLease leaseExpirationTime |}, s)
  | (_, s) => (None, s)
  end.

(** ** The syncer: one round of its timer *)
Fixpoint syncer_round (now : Z) (requests : list syncRequest) (s : St) : list syncRequest * St :=
  match requests with
  | [] => ([], s)
  | req :: requests =>
      if sr_deadline req <? now then syncer_round now requests s
      else
        match sr_fn req now s with
        | (Err _, s) => let '(temp, s) := syncer_round now requests s in (req :: temp, s)
        | (_, s) => syncer_round now requests s
        end
  end.

(** The last round, when the server shuts down: it does not look at the deadlines. *)
Definition syncer_done (now : Z) (requests : list syncRequest) (s : St) : St :=
  fold_left (fun s req => (sr_fn req now s).2) requests s.

(** ** The recoverer *)
Definition r_retry (now : Z) (msg : TaskMessage) (err : HandlerError) (s : St) : St :=
  let delay := retryDelayFunc (Retried msg) err (NewTask (Type_ msg) (Payload msg) []) in
  (b_Retry now msg (now + delay) (he_text err) (isFailureFunc err) s).2.

Definition r_archive (now : Z) (msg : TaskMessage) (err : HandlerError) (s : St) : St :=
  (b_Archive now msg (he_text err) s).2.

Definition recoverOne (now : Z) (s : St) (msg : TaskMessage) : St :=
  if Retry_ msg <=? Retried msg then r_archive now msg ErrLeaseExpired s
  else r_retry now msg ErrLeaseExpired s.

Definition recoverLeaseExpiredTasks (now : Z) (qnames : list gostring) (s : St) : St :=
  let cutoff := now - 30 * Second in
  match b_ListLeaseExpired cutoff qnames s with
  | (Ok msgs, s) => fold_left (recoverOne now) msgs s
  | (_, s) => s
  end.

Definition recoverStaleAggregationSets (now : Z) (qnames : list gostring) (s : St) : St :=
  fold_left (fun s qname => (b_ReclaimStaleAggregationSets now qname s).2) qnames s.

Definition recover (now : Z) (qnames : list gostring) (s : St) : St :=
  recoverStaleAggregationSets now qnames (recoverLeaseExpiredTasks now qnames s).

(** ** The forwarder and the janitor *)
Definition forwarder_exec (now : Z) (qnames : list gostring) (s : St) : St :=
  (b_ForwardIfReady now qnames s).2.

Definition janitor_exec (now : Z) (qnames : list gostring) (s : St) : St :=
  fold_left (fun s qname => (b_DeleteExpiredCompletedTasks now qname s).2) qnames s.

(** ** The aggregator *)

(** One group; [uuid] gives the ids of the aggregation set and of the new task. *)
Definition aggregateGroup (now t gracePeriod maxDelay maxSize : Z)
    (ga : gostring -> list Task -> Task) (setID uuid qname gname : gostring) (s : St) : St :=
  match b_AggregationCheck now setID qname gname t gracePeriod maxDelay maxSize s with
  | (Ok [], s) => s
  | (Ok aggregationSetID, s) =>
      match b_ReadAggregationSet qname gname aggregationSetID s with
      | (Ok (msgs, deadline), s) =>
          let tasks := map (fun m => NewTask (Type_ m) (Payload m) []) msgs in
          let aggregatedTask := ga gname tasks in
          match EnqueueContext uuid now (Some aggregatedTask) [queueOption qname] s with
          | (_, None, s) => (b_DeleteAggregationSet qname gname aggregationSetID s).2
          | (_, Some _, s) => s
          end
      | (_, s) => s
      end
  | (_, s) => s
  end.

(** The groups of a queue and the queues of the aggregator; [ids] gives the ids for every round. *)
Definition aggregateQueue (now t gracePeriod maxDelay maxSize : Z) (ga : gostring -> list Task -> Task)
    (ids : gostring -> gostring -> gostring * gostring) (s : St) (qname : gostring) : St :=
  match b_ListGroups qname s with
  | (Ok groups, s) =>
      fold_left (fun s gname =>
        let '(setID, uuid) := ids qname gname in
        aggregateGroup now t gracePeriod maxDelay maxSize ga setID uuid qname gname s) groups s
  | (_, s) => s
  end.

Definition aggregate (now t gracePeriod maxDelay maxSize : Z) (ga : gostring -> list Task -> Task)
    (ids : gostring -> gostring -> gostring * gostring) (qnames : list gostring) (s : St) : St :=
  fold_left (aggregateQueue now t gracePeriod maxDelay maxSize ga ids) qnames s.

(** ** The heartbeater

    Workers and the heartbeater share the leases: [W] gives the worker at an address, and the
    heartbeater keeps the address of the last worker that started on an id. *)
Definition set_lease (l : Lease) (w : workerInfo) : workerInfo :=
  {| w_msg := w_msg w; w_started := w_started w; w_deadline := w_deadline w; w_lease := l |}.

Definition set_workers (ws : gmap gostring nat) (h : heartbeater) : heartbeater :=
  {| hb_host := hb_host h; hb_pid := hb_pid h; hb_serverID := hb_serverID h; hb_interval := hb_interval h;
     hb_concurrency := hb_concurrency h; hb_queues := hb_queues h;
     hb_strictPriority := hb_strictPriority h; hb_started := hb_started h; hb_workers := ws |}.

(** [h.workers[w.msg.ID] = w] and [delete(h.workers, msg.ID)]. *)
Definition h_starting (a : nat) (w : workerInfo) (h : heartbeater) : heartbeater :=
  set_workers (<[ID (w_msg w) := a]> (hb_workers h)) h.
Definition h_finished (msg : TaskMessage) (h : heartbeater) : heartbeater :=
  set_workers (delete (ID msg) (hb_workers h)) h.

(** Adding an id to the list of its queue. *)
Definition addId (qname id : gostring) (m : gmap gostring (list gostring)) : gmap gostring (list gostring) :=
  <[qname := default [] (m !! qname) ++ [id]]> m.

Definition describe (h : heartbeater) (id : gostring) (w : workerInfo) : WorkerInfo :=
  {| W_Host := hb_host h; W_PID := hb_pid h; W_ServerID := hb_serverID h; W_ID := id;
     W_Type := Type_ (w_msg w); W_Payload := Payload (w_msg w); W_Queue := Queue (w_msg w);
     W_Started := w_started w; W_Deadline := w_deadline w |}.

(** The first loop of [beat]: the descriptions of the workers and the ids with a valid lease by queue;
    the other workers are notified.  An address is always that of a worker. *)
Definition collectIds (now : Z) (h : heartbeater)
    (acc : heap * list WorkerInfo * gmap gostring (list gostring)) (e : gostring * nat)
    : heap * list WorkerInfo * gmap gostring (list gostring) :=
  let '(W, ws, idsByQueue) := acc in
  let '(id, a) := e in
  match W !! a with
  | None => acc
  | Some w =>
      let ws := ws ++ [describe h id w] in
      if Lease_IsValid now (w_lease w) then (W, ws, addId (Queue (w_msg w)) id idsByQueue)
      else (<[a := set_lease (Lease_NotifyExpiration now (w_lease w)).2 w]> W, ws, idsByQueue)
  end.

(** The inner loop of the second one: [h.workers[id].lease.Reset(expirationTime)]. *)
Definition resetLease (now expirationTime : Z) (h : heartbeater) (W : heap) (id : gostring) : heap :=
  match hb_workers h !! id with
  | None => W
  | Some a => alter (fun w => set_lease (Lease_Reset now (w_lease w) expirationTime).2 w) a W
  end.

Definition extendQueue (now : Z) (h : heartbeater) (acc : heap * St) (e : gostring * list gostring)
    : heap * St :=
  let '(W, s) := acc in
  match b_ExtendLease now e.1 e.2 s with
  | (Ok expirationTime, s) => (fold_left (resetLease now expirationTime h) e.2 W, s)
  | (_, s) => (W, s)
  end.

Definition beat (now : Z) (srvStatus : gostring) (h : heartbeater) (W : heap) (s : St) : heap * St :=
  let info := {| Host := hb_host h; PID := hb_pid h; ServerID := hb_serverID h;
                 Concurrency := hb_concurrency h; Queues := hb_queues h;
                 StrictPriority := hb_strictPriority h; Status := srvStatus; Started := hb_started h;
                 ActiveWorkerCount := Z.of_nat (size (hb_workers h)) |} in
  let '(W, ws, idsByQueue) := fold_left (collectIds now h) (map_to_list (hb_workers h)) (W, [], ∅) in
  let s := (b_WriteServerState now info ws (hb_interval h * 2) s).2 in
  fold_left (extendQueue now h) (map_to_list idsByQueue) (W, s).

(** The end of the heartbeater. *)
Definition heartbeater_done (h : heartbeater) (s : St) : St :=
  (b_ClearServerState (hb_host h) (hb_pid h) (hb_serverID h) s).2.
End server.
