(* ===== verification/AsynqServerSpec.v ===== *)
(** What the client and the server do to tasks.

    The theorems on the client and on a worker use the promises of the broker only
    ([BrokerLaws]); the one on the recoverer is about the Redis broker. *)
From stdpp Require Import base list strings numbers option gmap.
From S2P Require Import Prelude.
From S2P Require Import Redis.
From S2P Require Import AsynqBase.
From S2P Require Import AsynqStore.
From S2P Require Import AsynqRdb.
From S2P Require Import AsynqInspect.
From S2P Require Import AsynqInv.
From S2P Require Import AsynqScripts.
From S2P Require Import AsynqDb.
From S2P Require Import AsynqSpec.
From S2P Require Import AsynqRefine.
From S2P Require Import AsynqMessages.
From S2P Require Import AsynqLife.
From S2P Require Import AsynqFifo.
From S2P Require Import AsynqFrame.
From S2P Require Import AsynqContents.
From S2P Require Import AsynqLeases.
From S2P Require Import AsynqBroker.
From S2P Require Import AsynqClient.
From S2P Require Import AsynqServer.

(** ** The client

    What the options of a task say, without the loop of [composeOptions]: of several options of one kind
    the last one counts. *)
Definition set_by {A} (f : Option -> option A) (d : A) (opts : list Option) : A := default d (last (omap f opts)).

Definition retry_of (o : Option) : option Z := match o with retryOption n => Some n | _ => None end.
Definition queue_name_of (o : Option) : option gostring := match o with queueOption q => Some q | _ => None end.
Definition id_of (o : Option) : option gostring := match o with taskIDOption id => Some id | _ => None end.
Definition timeout_of (o : Option) : option Z := match o with timeoutOption d => Some d | _ => None end.
Definition deadline_of (o : Option) : option Z := match o with deadlineOption t => Some t | _ => None end.
Definition ttl_of (o : Option) : option Z := match o with uniqueOption ttl => Some ttl | _ => None end.
Definition time_of (now : Z) (o : Option) : option Z :=
  match o with processAtOption t => Some t | processInOption d => Some (now + d) | _ => None end.
Definition retention_of (o : Option) : option Z := match o with retentionOption d => Some d | _ => None end.
Definition group_of (o : Option) : option gostring := match o with groupOption g => Some g | _ => None end.

Definition valid_option (o : Option) : bool :=
  match o with
  | queueOption q => match ValidateQueueName q with None => true | Some _ => false end
  | taskIDOption s | groupOption s => negb (isBlank s)
  | uniqueOption ttl => Second <=? ttl
  | _ => true
  end.

(** The message of a task with some options. *)
Definition described_task (uuid : gostring) (task : Task) (opts : list Option) : TaskMessage :=
  let qname := set_by queue_name_of (str "default") opts in
  let timeout := set_by timeout_of 0 opts in
  let deadline := set_by deadline_of zeroTime opts in
  let no_deadline := (deadline =? zeroTime) || (deadline =? 0) in
  {| Type_ := typename task; Payload := payload task; ID := set_by id_of uuid opts; Queue := qname;
     Retry_ := set_by retry_of 25 opts; Retried := 0; ErrorMsg := []; LastFailedAt := 0;
     Timeout_ := if no_deadline && (timeout =? 0) then 30 * 60 else Seconds timeout;
     Deadline := if no_deadline then 0 else Unix deadline;
     UniqueKey_ := if 0 <? set_by ttl_of 0 opts then UniqueKey qname (typename task) (payload task) else [];
     GroupKey_ := set_by group_of ([] : gostring) opts; Retention := Seconds (set_by retention_of 0 opts);
     CompletedAt := 0 |}.

(** The outcome: where the task goes, its state and the time in its info, the second at which it is due,
    and the instant until which its uniqueness lock is held. *)
Inductive Outcome := outcome_of (place : Place) (state : TaskState) (at_ : Z) (due : option Z) (lock : Z).

Definition described_outcome (now : Z) (opts : list Option) : Outcome :=
  let at_ := set_by (time_of now) now opts in
  let ttl := set_by ttl_of 0 opts in
  let group := set_by group_of ([] : gostring) opts in
  if now <? at_ then
    outcome_of (PZ ZScheduled) TaskStateScheduled at_ (Some (Unix at_)) (now + Seconds (at_ + ttl - now) * Second)
  else if bool_decide (group = []) then
    outcome_of PPending TaskStatePending now None (now + Seconds ttl * Second)
  else
    outcome_of (PZ (ZGroup group)) TaskStateAggregating zeroTime None (now + Seconds ttl * Second).

Lemma set_by_cons {A} (f : Option -> option A) d o opts :
  set_by f d (o :: opts) = set_by f (default d (f o)) opts.
Proof.
  unfold set_by. cbn [omap list_omap]. destruct (f o) as [a|]; cbn [default]; [|done].
  rewrite last_cons. change (list_omap _ _ f opts) with (omap f opts). by destruct (last (omap f opts)).
Qed.

Lemma applyOptions_spec now opts : forall res,
  match applyOptions now res opts with
  | inl _ => forallb valid_option opts = false
  | inr res' => forallb valid_option opts = true /\ res' =
      {| o_retry := set_by retry_of (o_retry res) opts; o_queue := set_by queue_name_of (o_queue res) opts;
         o_taskID := set_by id_of (o_taskID res) opts; o_timeout := set_by timeout_of (o_timeout res) opts;
         o_deadline := set_by deadline_of (o_deadline res) opts;
         o_uniqueTTL := set_by ttl_of (o_uniqueTTL res) opts; o_uniqueKey := o_uniqueKey res;
         o_processAt := set_by (time_of now) (o_processAt res) opts;
         o_retention := set_by retention_of (o_retention res) opts;
         o_group := set_by group_of (o_group res) opts |}
  end.
Proof.
  induction opts as [|o opts IH]; intros res; [by destruct res|]. cbn [applyOptions forallb].
  rewrite !set_by_cons. destruct res, o; cbn [applyOption valid_option];
    try exact (IH _).
  - destruct (ValidateQueueName name); [done|exact (IH _)].
  - destruct (isBlank id); [done|exact (IH _)].
  - destruct (Z.ltb_spec ttl (1 * Second)), (Z.leb_spec Second ttl); first [lia|done|exact (IH _)].
  - destruct (isBlank name); [done|exact (IH _)].
Qed.

Lemma composeOptions_spec uuid now task opts :
  match composeOptions uuid now opts return Prop with
  | inl _ => forallb valid_option opts = false
  | inr opt =>
      forallb valid_option opts = true /\
      buildMessage task opt = described_task uuid task opts /\
      o_processAt opt = set_by (time_of now) now opts /\ o_uniqueTTL opt = set_by ttl_of 0 opts /\
      o_group opt = set_by group_of [] opts
  end.
Proof.
  unfold composeOptions. pose proof (applyOptions_spec now opts
    {| o_retry := defaultMaxRetry; o_queue := DefaultQueueName; o_taskID := uuid; o_timeout := 0;
       o_deadline := zeroTime; o_uniqueTTL := 0; o_uniqueKey := []; o_processAt := now;
       o_retention := 0; o_group := [] |}) as Ho.
  destruct (applyOptions _ _ _) as [e|opt]; [done|]. destruct Ho as [Hv ->]. split; [done|]. split; [|done].
  unfold buildMessage, described_task. cbn [o_retry o_queue o_taskID o_timeout o_deadline o_uniqueTTL
    o_uniqueKey o_processAt o_retention o_group]. f_equal.
  - unfold noDeadline, noTimeout. generalize (set_by deadline_of zeroTime opts) as d.
    generalize (set_by timeout_of 0 opts) as tm. intros tm d.
    destruct (d =? zeroTime), (d =? 0) eqn:Hd, (tm =? 0) eqn:Ht; cbn [negb orb andb];
      rewrite ?Ht, ?Hd; cbn [negb orb andb]; rewrite ?Ht, ?Hd; cbn [andb]; try done.
    by apply Z.eqb_eq in Ht as ->.
  - unfold noDeadline. destruct (_ =? zeroTime); cbn [negb orb]; [done|].
    destruct (_ =? 0) eqn:Hd; [|done]. apply Z.eqb_eq in Hd. by rewrite Hd.
Qed.

Section client.
Context {St : Type} `{BrokerLaws St}.
Abbreviation adds := (adds rep holds reserved).

(** The lock of a unique task. *)
Definition lock_of (m : TaskMessage) (ttl until : Z) : option (gostring * Z) :=
  if 0 <? ttl then Some (UniqueKey_ m, until) else None.

Lemma enqueue_adds now m ttl :
  adds (enqueue now m ttl) m PPending None (lock_of m ttl (now + Seconds ttl * Second)).
Proof. unfold enqueue, lock_of. destruct (0 <? ttl); [apply law_EnqueueUnique|apply law_Enqueue]. Qed.

Lemma schedule_adds now m t ttl :
  adds (schedule now m t ttl) m (PZ ZScheduled) (Some (Unix t))
    (lock_of m ttl (now + Seconds (t + ttl - now) * Second)).
Proof. unfold schedule, lock_of. destruct (0 <? ttl); [apply law_ScheduleUnique|apply law_Schedule]. Qed.

Lemma addToGroup_adds now m k g ttl :
  (0 < ttl -> k = UniqueKey_ m /\ k <> []) ->
  adds (addToGroup now m k g ttl) m (PZ (ZGroup g)) None (lock_of m ttl (now + Seconds ttl * Second)).
Proof.
  intros Hk. unfold addToGroup, lock_of. destruct (Z.ltb_spec 0 ttl); [|apply law_AddToGroup].
  destruct Hk as [<- Hk]; [done|]. by apply law_AddToGroupUnique.
Qed.

End client.

(** ** A worker *)

(** Where a finished task goes; [None] is out of the store. *)
Definition failed_place (isFailure : HandlerError -> bool) (msg : TaskMessage) (err : HandlerError)
    : option Place :=
  if isFailure err && ((Retry_ msg <=? Retried msg) || he_skipRetry err) then archived else retrying.

Definition finished_place (isFailure : HandlerError -> bool) (msg : TaskMessage) (e : WorkerEnd)
    : option Place :=
  match e with
  | Abort_ => pending
  | LeaseDone => failed_place isFailure msg ErrLeaseExpired
  | CtxDone err | Result_ (Some err) => failed_place isFailure msg err
  | Result_ None => if 0 <? Retention msg then completed else None
  end.

(** What happens to the place of other tasks: the archive may drop an archived one. *)
Definition left_alone (o o' : option Place) : Prop := o' = o \/ (o = archived /\ o' = None).

Lemma archive_move_places qname id z L :
  (archive_move qname id z L qname id = archived \/ archive_move qname id z L qname id = None) /\
  forall q i, (q, i) <> (qname, id) -> left_alone (L q i) (archive_move qname id z L q i).
Proof using.
  unfold archive_move, left_alone, dset. split.
  - rewrite decide_True by done. unfold trim. case_decide; [by right|left].
    by rewrite relocate_to1, decide_True.
  - intros q i Hne. case_decide as Hq; [subst|by left]. unfold trim.
    assert (Hr : relocate (to1 id archived) (L qname) i = L qname i).
    { rewrite relocate_to1. rewrite decide_False; [done|congruence]. }
    rewrite Hr. case_decide as Hd; [|by left]. right. by destruct Hd.
Qed.

(** The places after task [id] of [qname] went to [o]; [z] is the archive of the queue before, which is
    trimmed when the task is added to it. *)
Definition went (now : Z) (z : zset gostring) (qname id : gostring) (o : option Place) (L : DLocation)
    : DLocation :=
  match o with
  | Some (PZ ZArchived) => archive_move qname id (archive_add now id z) L
  | _ => move qname id o L
  end.

Lemma went_others now z qname id o L q i :
  (q, i) <> (qname, id) -> left_alone (L q i) (went now z qname id o L q i).
Proof.
  intros Hne. unfold went. destruct (archive_move_places qname id (archive_add now id z) L) as [_ Ha].
  destruct o as [[| |[]]|]; first [by apply Ha|left; by apply move_other].
Qed.

Section worker.
Context {St : Type} `{BrokerLaws St}.
Context (delay : Z -> HandlerError -> Task -> Z) (isFailure : HandlerError -> bool).

(** A call on a task: it goes to [o] when it is active, and nothing moves otherwise. *)
Definition takes (call : stE St goerror unit) (now : Z) (qname id : gostring) (o : option Place) : Prop :=
  forall s L, rep s L -> (call s).1 <> OutOfFuel /\
    rep (call s).2 (if decide (L qname id = active) then went now (archive_of s qname) qname id o L else L).

Lemma settles_takes call now qname id o :
  o <> archived -> settles rep call qname id o -> takes call now qname id o.
Proof.
  intros Ho Hm s L Hs. destruct (Hm s L Hs) as (r & s' & -> & Hret & Hcase). cbn [fst snd].
  split; [destruct Hret as [[? ->]|[? ->]]; done|].
  destruct Hcase as [[Ha Hr]|(_ & Ha & Hr)]; [|by rewrite decide_False].
  rewrite decide_True by done. unfold went. by destruct o as [[| |[]]|].
Qed.

Lemma archives_takes call now qname id :
  archives rep archive_of call now qname id -> takes call now qname id archived.
Proof.
  intros Hm s L Hs. destruct (Hm s L Hs) as (r & s' & -> & Hret & Hcase). cbn [fst snd].
  split; [destruct Hret as [[? ->]|[? ->]]; done|].
  destruct Hcase as [(Ha & Hr & _)|(_ & Ha & Hr & _)]; [by rewrite decide_True|by rewrite decide_False].
Qed.

(** The outcome of a guarded call. *)
Definition handled (now : Z) (l : Lease) (qname id : gostring) (o : option Place) (a : action) : Prop :=
  forall s L, rep s L ->
    if Lease_IsValid now l
    then rep (a s).2 (if decide (L qname id = active) then went now (archive_of s qname) qname id o L else L)
    else a s = ([], s).

Lemma guarded_handled now l call text qname id o :
  takes (call now) now qname id o -> handled now l qname id o (guardedCall now l call text).
Proof.
  intros Ht s L Hs. destruct (Ht s L Hs) as [_ Hcase]. unfold guardedCall.
  destruct (Lease_IsValid now l); [|done]. cbn [negb].
  by destruct (call now s) as [[a|e|p|] s'].
Qed.

Lemma failed_handled now l msg err :
  sendable msg ->
  handled now l (Queue msg) (ID msg) (failed_place isFailure msg err)
    (handleFailedMessage delay isFailure now l msg err).
Proof.
  intros Hs. unfold handleFailedMessage, failed_place.
  destruct (isFailure err); cbn [negb andb].
  - destruct (_ || _); apply guarded_handled;
      [by apply archives_takes, law_Archive|apply settles_takes; [discriminate|by apply law_Retry]].
  - apply guarded_handled. apply settles_takes; [discriminate|by apply law_Retry].
Qed.

Lemma finish_handled now w e :
  sendable (w_msg w) ->
  handled now (w_lease w) (Queue (w_msg w)) (ID (w_msg w)) (finished_place isFailure (w_msg w) e)
    (finish delay isFailure now w e).
Proof.
  intros Hsend. destruct e as [| |err|[err|]]; cbn [finish finished_place]; try by apply failed_handled.
  - intros s L Hs. unfold p_requeue. destruct (Lease_IsValid now (w_lease w)); [|done].
    refine (proj2 (settles_takes _ now _ _ pending _ (law_Requeue now (w_msg w)) s L Hs)). discriminate.
  - unfold handleSucceededMessage. destruct (0 <? Retention (w_msg w)); apply guarded_handled.
    + apply settles_takes; [discriminate|by apply law_MarkAsComplete].
    + apply settles_takes; [discriminate|by apply law_Done].
Qed.

(** C11: when a worker whose message can be encoded ends with a valid lease, its task goes where the end
    says, if it is still active, and no other task moves: back to the pending list when the server shuts
    down; on success out of the store, or to the completed tasks when it has a retention; on a failure
    to the retry set, or to the archive when the retries are used up or the handler asked to skip them.
    The archive is then trimmed to the newest 9,999 tasks of the last 90 days, and what it does not keep
    is out of the store.  A task that is not active any more is left where it is.  With an expired lease
    the worker leaves the store alone. *)
Theorem worker_settles_task now w e s L :
  sendable (w_msg w) -> rep s L ->
  let qname := Queue (w_msg w) in
  let id := ID (w_msg w) in
  let '(reqs, s') := finish delay isFailure now w e s in
  if Lease_IsValid now (w_lease w)
  then rep s' (if decide (L qname id = active)
               then went now (archive_of s qname) qname id (finished_place isFailure (w_msg w) e) L else L)
  else reqs = [] /\ s' = s.
Proof.
  intros Hsend Hs qname id. pose proof (finish_handled now w e Hsend s L Hs) as Hh. fold qname id in Hh.
  destruct (finish delay isFailure now w e s) as [reqs s'] eqn:Hf. cbn [fst snd] in Hh.
  destruct (Lease_IsValid now (w_lease w)); [done|by injection Hh].
Qed.
End worker.

(** ** The recoverer *)

Section recoverer.
Context `{Proto pb.TaskMessage} `{!ProtoLaws pb.TaskMessage pb.normal_TaskMessage}.
Context `{PS : Proto pb.ServerInfo} `{PW : Proto pb.WorkerInfo}.

(** The lease of task [id] of a queue in [qnames] expired at second [cutoff] or before. *)
Definition lease_expired (db : DB) (qnames : list gostring) (cutoff : Z) (qname id : gostring) : Prop :=
  qname ∈ qnames /\ exists t, leased db qname id t /\ t <= cutoff.

(** [m] is the message of its task. *)
Definition stored_message (db : DB) (m : TaskMessage) : Prop :=
  exists b, msg_at (ID m) (queue_of (Queue m) db) = Some b /\ DecodeMessage b = Ok m.

Lemma leased_active db L qname id t : DInv db L -> leased db qname id t -> L qname id = active.
Proof using.
  intros HD Hl. apply (inv_lease _ _ (HD qname)). apply elem_of_zmembers. by exists t.
Qed.

Lemma decodeAll_run op bs ms db :
  Forall2 (fun b m => DecodeMessage b = Ok m) bs ms -> decodeAll op bs db = (Ok ms, db).
Proof using.
  induction 1 as [|b m bs ms Hb _ IH]; [done|]. cbn [decodeAll]. unfold ebind, decode, elift.
  by rewrite Hb, IH.
Qed.

(** The messages of the expired tasks of one queue. *)
Lemma expired_messages db L qname cutoff :
  rdb_rep db L ->
  let ids := zmembers (ZRANGEBYSCORE (zget ZLease (queue_of qname db)) cutoff) in
  exists ms, Forall2 (fun b m => DecodeMessage b = Ok m)
      (map (fun id => default [] (msg_at id (queue_of qname db))) ids) ms
    /\ map ID ms = ids /\ Forall (fun m => Queue m = qname) ms
    /\ forall m, m ∈ ms -> stored_message db m.
Proof using All.
  intros [HD Hw] ids.
  assert (Hids : Forall (fun id => exists b, msg_at id (queue_of qname db) = Some b) ids).
  { apply Forall_forall. intros id Hid. unfold ids in Hid. apply elem_of_zmembers in Hid as [t Ht].
    apply elem_of_ZRANGEBYSCORE in Ht as [_ Ht].
    pose proof (leased_active db L qname id t HD Ht) as Ha.
    destruct (inv_hash _ _ (HD qname) _ _ Ha) as (h & Hh & _ & _ & [b Hb] & _). exists b.
    unfold msg_at, task_hash. by rewrite Hh. }
  clearbody ids. induction ids as [|id ids IH]; [exists []; repeat split; try constructor; set_solver|].
  apply Forall_cons in Hids as [[b Hb] Hids]. destruct (IH Hids) as (ms & H1 & H2 & H3 & H4).
  destruct (encodes_decode qname id b) as (m & Hm & Hq & Hi); [by apply Hw|].
  exists (m :: ms). cbn [map]. rewrite Hb. repeat split; [by constructor|by rewrite Hi, H2|by constructor|].
  intros m' [->|Hm']%elem_of_cons; [|by apply H4]. exists b. by rewrite Hi, Hq.
Qed.

Lemma rdb_rep_same db db' L : same_queues db db' -> rdb_rep db L -> rdb_rep db' L.
Proof using.
  intros (Hq & _) [HD Hw]. split; [intros q; rewrite Hq; apply HD|].
  intros q id b. rewrite Hq. apply Hw.
Qed.

Lemma ListLeaseExpired_spec cutoff qnames db L :
  rdb_rep db L ->
  exists msgs db', ListLeaseExpired cutoff qnames db = (Ok msgs, db') /\ same_queues db db' /\
    (forall qname id, lease_expired db qnames (Unix cutoff) qname id
      <-> exists m, m ∈ msgs /\ Queue m = qname /\ ID m = id) /\
    forall m, m ∈ msgs -> stored_message db m.
Proof using All.
  revert db. induction qnames as [|qname qnames IH]; intros db HR.
  - exists [], db. split; [done|]. split; [done|]. unfold lease_expired. set_solver.
  - destruct (expired_messages db L qname (Unix cutoff) HR) as (ms & Hdec & Hids & Hqs & Hst).
    set (ids := zmembers _) in *. cbn [ListLeaseExpired]. unfold ebind at 1.
    erewrite script_run; [|unfold listLeaseExpiredCmd, HGET_msgs, ebind, ZRANGEBYSCORE_, reads; reflexivity].
    cbn [fst snd]. set (db1 := put_store _ _ _).
    assert (Hsame : same_queues db db1) by (split; [apply put_store_same|done]).
    unfold ebind at 1. rewrite (decodeAll_run _ _ ms).
    2:{ exact Hdec. }
    destruct (IH db1 (rdb_rep_same _ _ _ Hsame HR)) as (rest & db' & Hrun & Hsame' & Hrest & Hst').
    unfold ebind. rewrite Hrun. eexists _, db'. split; [reflexivity|].
    split; [by etransitivity|]. destruct Hsame as (Hq & _). split.
    2:{ intros m [Hm|Hm]%elem_of_app; [by apply Hst|]. destruct (Hst' m Hm) as (b & Hb & ?).
        exists b. by rewrite Hq in Hb. }
    intros q id.
    assert (Hx : lease_expired db qnames (Unix cutoff) q id <-> exists m, m ∈ rest /\ Queue m = q /\ ID m = id).
    { rewrite <- Hrest. unfold lease_expired, leased. by rewrite Hq. }
    assert (Hm : (exists t, leased db qname id t /\ t <= Unix cutoff) <-> exists m, m ∈ ms /\ ID m = id).
    { transitivity (id ∈ ids).
      - unfold ids. rewrite elem_of_zmembers. setoid_rewrite elem_of_ZRANGEBYSCORE. cbn [fst snd]. naive_solver.
      - rewrite <- Hids. rewrite list_elem_of_fmap. naive_solver. }
    rewrite Forall_forall in Hqs. unfold lease_expired in *. rewrite elem_of_cons.
    setoid_rewrite elem_of_app. split.
    + intros [[->|Hin] Ht].
      * apply Hm in Ht as (m & Hmin & Hid). exists m. auto.
      * destruct (proj1 Hx (conj Hin Ht)) as (m & ? & ? & ?). exists m. auto.
    + intros (m & [Hmin|Hmin] & Hmq & Hmi).
      * rewrite (Hqs m Hmin) in Hmq. subst q. split; [by left|]. apply Hm. eauto.
      * destruct (proj2 Hx) as [? ?]; [eauto|]. split; [by right|done].
Qed.

(** *** Trimming the archive *)

(** The archive holds 9,999 tasks of the last 90 days, as many as it is trimmed to. *)
Definition full (now : Z) (z : zset gostring) : Prop :=
  9999 <= Z.of_nat (length (filter (fun e => Unix (now - archivedExpirationInDays * Day) < e.2) z)).

(** Task [id] is in the archive [z] with the second of [now], or the archive is full. *)
Definition put_away (now : Z) (id : gostring) (z : zset gostring) : Prop := (id, Unix now) ∈ z \/ full now z.

Lemma filter_all {A} (P : A -> Prop) `{forall x, Decision (P x)} l : Forall P l -> filter P l = l.
Proof using. induction 1 as [|x l Hx _ IH]; [done|]. rewrite filter_cons_True by done. by rewrite IH. Qed.

Lemma trim_rank (z : zset gostring) :
  (Z.of_nat (length z) < 10000 /\ ZREMRANGEBYRANK z 0 (- maxArchiveSize) = z) \/
  (exists z1, z = z1 ++ ZREMRANGEBYRANK z 0 (- maxArchiveSize) /\
     Z.of_nat (length (ZREMRANGEBYRANK z 0 (- maxArchiveSize))) = 9999).
Proof using.
  unfold ZREMRANGEBYRANK, zindices, ZCARD, maxArchiveSize.
  change (0 <? 0) with false. change (- (10000) <? 0) with true. cbv iota.
  rewrite Z.max_id. destruct (Z.ltb_spec (Z.of_nat (length z) + - (10000)) 0); cbn [orb].
  { left. split; [lia|done]. }
  right. destruct (Z.leb_spec (Z.of_nat (length z)) 0); [lia|].
  rewrite take_0. cbn [app Nat.add Z.to_nat]. eexists. split; [symmetry; apply take_drop|].
  rewrite length_drop. lia.
Qed.

(** What the trimming keeps of the entries [z1] that are young enough. *)
Lemma trim_young (c : Z) (z1 : zset gostring) e :
  Forall (fun e => c < e.2) z1 ->
  let z2 := ZREMRANGEBYRANK z1 0 (- maxArchiveSize) in
  (z2 = z1 \/ Z.of_nat (length z2) = 9999) /\ filter (fun e => c < e.2) z2 = z2 /\
  (e ∈ z1 -> e ∈ z2 \/ Z.of_nat (length z2) = 9999).
Proof using.
  intros Hz z2. destruct (trim_rank z1) as [[_ Hr]|(z3 & Hr & Hlen)]; fold z2 in Hr.
  - rewrite Hr. split; [by left|]. split; [by apply filter_all|]. by left.
  - fold z2 in Hlen. split; [by right|]. split; [|by right]. apply filter_all. rewrite Hr in Hz.
    by apply Forall_app in Hz as [_ Hz].
Qed.

Lemma Forall_young c (z : zset gostring) : Forall (fun e => c < e.2) (ZREMRANGEBYSCORE z c).
Proof using. apply Forall_forall. intros e He. apply list_elem_of_filter in He. tauto. Qed.

Lemma trimmed_full now (z : zset gostring) :
  full now z -> full now (trimmed z (Unix (now - archivedExpirationInDays * Day)) maxArchiveSize).
Proof using.
  unfold full, trimmed. set (c := Unix _). intros Hf.
  destruct (trim_young c _ (([] : gostring), 0) (Forall_young c z)) as (Hs & -> & _). unfold ZREMRANGEBYSCORE in *.
  destruct Hs as [->|Hs]; lia.
Qed.

Lemma trimmed_keeps now id (z : zset gostring) :
  (id, Unix now) ∈ z -> put_away now id (trimmed z (Unix (now - archivedExpirationInDays * Day)) maxArchiveSize).
Proof using.
  intros Hin. unfold put_away, full, trimmed. set (c := Unix (now - _)).
  destruct (trim_young c _ (id, Unix now) (Forall_young c z)) as (_ & -> & He).
  destruct He as [He|He]; [|by left|right; lia]. apply list_elem_of_filter. split; [|done]. cbn [snd].
  unfold c, Unix. apply Z.div_lt_upper_bound; [done|]. pose proof (Z.div_mod now Second ltac:(done)).
  pose proof (Z.mod_pos_bound now Second ltac:(done)). unfold archivedExpirationInDays.
  change (90 * Day) with (7776000 * Second). unfold Second in *. lia.
Qed.

Lemma archive_add_keeps now id (z : zset gostring) : put_away now id (archive_add now id z).
Proof using. apply trimmed_keeps, elem_of_zadd. by left. Qed.

Lemma filter_zinsert (P : gostring * Z -> Prop) `{forall e, Decision (P e)} e z :
  (length (filter P z) <= length (filter P (zinsert e z)))%nat.
Proof using.
  induction z as [|e' z IH]; [cbn; lia|]. cbn [zinsert]. destruct (zelem_leb e e').
  - rewrite (filter_cons P e). case_decide; cbn [length]; lia.
  - rewrite !(filter_cons P e'). case_decide; cbn [length]; lia.
Qed.

Lemma archive_add_others now id id' (z : zset gostring) :
  id ∉ zmembers z -> put_away now id' z -> put_away now id' (archive_add now id z).
Proof using.
  intros Hn. unfold put_away, archive_add, zadd.
  replace (zrem id z) with z.
  2:{ symmetry. apply filter_all, Forall_forall. intros e He Hid. apply Hn, elem_of_zmembers. exists e.2.
      rewrite <- Hid. by destruct e. }
  intros [Hin|Hf]; [|right; apply trimmed_full].
  - apply trimmed_keeps. apply elem_of_zinsert. by right.
  - unfold full in *. pose proof (filter_zinsert (fun e => Unix (now - archivedExpirationInDays * Day) < e.2)
      (id, Unix now) z). lia.
Qed.

(** *** One message *)

Context (delay : Z -> HandlerError -> Task -> Z) (isFailure : HandlerError -> bool).

(** [Retry] does not touch the archives. *)
Definition same_archive (s s' : QueueDB * Locks) : Prop := zget ZArchived s'.1 = zget ZArchived s.1.
Definition same_archives (db db' : DB) : Prop := forall q, rdb_archive db' q = rdb_archive db q.

#[local] Instance same_archive_preorder : PreOrder same_archive.
Proof. split; [done|]. unfold same_archive. congruence. Qed.

#[local] Instance same_archives_preorder : PreOrder same_archives.
Proof. split; [done|]. intros db1 db2 db3 H1 H2 q. by rewrite H2, H1. Qed.

Lemma archive_ZADD k score id : k <> ZArchived -> respects same_archive (ZADD_ k score id).
Proof using.
  intros Hk s. unfold same_archive, ZADD_. cbn [ZADD fst snd]. rewrite zget_zput. by rewrite decide_False.
Qed.
Lemma archive_ZREM k id : k <> ZArchived -> respects same_archive (ZREM_ k id).
Proof using.
  intros Hk s. unfold same_archive, ZREM_. cbn [ZREM fst snd]. rewrite zget_zput. by rewrite decide_False.
Qed.

Ltac archive_command :=
  lazymatch goal with
  | |- respects _ (ZADD_ _ _ _) => apply archive_ZADD; done
  | |- respects _ (ZREM_ _ _) => apply archive_ZREM; done
  | |- respects same_archive _ =>
      intros ?; unfold same_archive, reads, writes, LREM_active, INCR_counter; repeat case_match; done
  end.

Ltac archive_call :=
  lazymatch goal with
  | |- respects _ (run_script _ _) => apply (respects_run_script same_archive);
      [intros db s' Hs q; unfold rdb_archive; rewrite queue_of_put; by case_decide; subst|]
  end.

Lemma archive_Retry now m t e f : respects same_archives (Retry now m t e f).
Proof using.
  unfold Retry. destruct f; walk_method ltac:(idtac; archive_command) ltac:(idtac; archive_call).
Qed.

(** Where a task with an expired lease is after the round. *)
Definition recovered_at (now : Z) (db : DB) (m : TaskMessage) (o : option Place) : Prop :=
  if Retry_ m <=? Retried m
  then (o = archived \/ o = None) /\ put_away now (ID m) (rdb_archive db (Queue m))
  else o = retrying.

(** The archives keep what was put away. *)
Definition archives_keep (now : Z) (db db' : DB) : Prop :=
  forall q i, put_away now i (rdb_archive db q) -> put_away now i (rdb_archive db' q).

Lemma recoverOne_step now db L m :
  rdb_sendable m -> rdb_rep db L ->
  let db' := recoverOne delay isFailure now db m in
  exists L', rdb_rep db' L' /\
    (L (Queue m) (ID m) = active -> recovered_at now db' m (L' (Queue m) (ID m))) /\
    (forall q i, (q, i) <> (Queue m, ID m) \/ L q i <> active -> left_alone (L q i) (L' q i)) /\
    db_same_leases (fun q i => q = Queue m /\ i = ID m) db db' /\ archives_keep now db db'.
Proof using All.
  intros Hsend HR db'. unfold db', recoverOne, recovered_at. set (e := ErrLeaseExpired). clear db'.
  destruct (Retry_ m <=? Retried m).
  - unfold r_archive. cbn [b_Archive rdb_broker].
    pose proof (exec_leases now (OArchive m (he_text e)) db L (proj1 HR)) as Hl.
    cbn [exec] in Hl. rewrite effect_state in Hl.
    destruct (Archive_archives now m (he_text e) Hsend db L HR) as (r & db' & Hrun & _ & Hcase).
    rewrite Hrun in *. cbn [snd] in *.
    destruct Hcase as [(Ha & HR' & Hz)|(_ & Ha & HR' & Hz)].
    + destruct (archive_move_places (Queue m) (ID m) (archive_add now (ID m) (rdb_archive db (Queue m))) L) as [H1 H2].
      eexists. split; [exact HR'|]. split; [|split; [|split; [exact Hl|]]].
      * intros _. split; [exact H1|]. rewrite Hz, decide_True by done. apply archive_add_keeps.
      * intros q i Hq. apply H2. destruct Hq as [Hq|Hq]; [done|]. by intros [= -> ->].
      * intros q i Hp. rewrite Hz. case_decide; [subst q|done]. apply archive_add_others; [|done].
        intros Hin. apply (inv_zset _ _ (proj1 HR (Queue m))) in Hin; [|done]. by rewrite Ha in Hin.
    + exists L. split; [exact HR'|]. split; [done|]. split; [by left|]. split; [exact Hl|].
      intros q i Hp. by rewrite Hz.
  - unfold r_retry. cbn [b_Retry rdb_broker]. set (t := now + _).
    pose proof (exec_leases now (ORetry m t (he_text e) (isFailure e)) db L (proj1 HR)) as Hl.
    cbn [exec] in Hl. rewrite effect_state in Hl.
    pose proof (archive_Retry now m t (he_text e) (isFailure e) db) as Hz.
    destruct (Retry_settles now m t (he_text e) (isFailure e) Hsend db L HR) as (r & db' & Hrun & _ & Hcase).
    rewrite Hrun in *. cbn [snd] in *.
    assert (Hk : archives_keep now db db') by (intros q i Hp; by rewrite Hz).
    destruct Hcase as [[Ha HR']|(_ & Ha & HR')]; eexists; (split; [exact HR'|]).
    + split; [intros _; apply move_at|]. split; [|done]. intros q i Hq. left. apply move_other.
      destruct Hq as [Hq|Hq]; [done|]. by intros [= -> ->].
    + split; [done|]. split; [by left|done].
Qed.

Lemma left_alone_trans o1 o2 o3 : left_alone o1 o2 -> left_alone o2 o3 -> left_alone o1 o3.
Proof using. unfold left_alone. naive_solver. Qed.

Lemma recovered_left_alone now db db' m o o' :
  recovered_at now db m o -> archives_keep now db db' -> left_alone o o' -> recovered_at now db' m o'.
Proof using.
  unfold recovered_at, left_alone. intros Hr Hk Ho. case_match.
  - destruct Hr as [Hr Hp]. split; [|by apply Hk]. destruct Ho as [->|[_ ->]]; auto.
  - subst o. by destruct Ho as [->|[? _]].
Qed.

Lemma recover_fold now msgs : forall db L,
  Forall rdb_sendable msgs -> rdb_rep db L ->
  (forall m m', m ∈ msgs -> m' ∈ msgs -> Queue m = Queue m' -> ID m = ID m' -> m = m') ->
  let db' := fold_left (recoverOne delay isFailure now) msgs db in
  exists L', rdb_rep db' L' /\
    (forall m, m ∈ msgs -> L (Queue m) (ID m) = active -> recovered_at now db' m (L' (Queue m) (ID m))) /\
    (forall q i, (forall m, m ∈ msgs -> (q, i) <> (Queue m, ID m)) \/ L q i <> active ->
       left_alone (L q i) (L' q i)) /\
    db_same_leases (fun q i => exists m, m ∈ msgs /\ q = Queue m /\ i = ID m) db db' /\
    archives_keep now db db'.
Proof using All.
  induction msgs as [|m msgs IH]; intros db L Hs HR Hu db'.
  { exists L. split; [exact HR|]. split; [set_solver|]. split; [by left|]. split; [done|by intros q i]. }
  apply Forall_cons in Hs as [Hsm Hs].
  destruct (recoverOne_step now db L m Hsm HR) as (L1 & HR1 & Hm & Ho & Hl & Hk).
  destruct (IH _ L1 Hs HR1) as (L' & HR' & Hm' & Ho' & Hl' & Hk'); [intros; apply Hu; set_solver|].
  exists L'. split; [exact HR'|]. split; [|split; [|split]].
  - intros m' Hin Ha. destruct (decide ((Queue m', ID m') = (Queue m, ID m))) as [[= Hq Hi]|Hne].
    + assert (m' = m) as -> by (apply Hu; set_solver). specialize (Hm Ha).
      eapply recovered_left_alone; [exact Hm|exact Hk'|]. apply Ho'. right. intros Hact.
      unfold recovered_at in Hm. rewrite Hact in Hm. by destruct (_ <=? _); [destruct Hm as [[] _]|].
    + apply elem_of_cons in Hin as [->|Hin]; [done|].
      destruct (Ho (Queue m') (ID m')) as [Hsame|[Harch _]]; [by left| |by rewrite Ha in Harch].
      apply Hm'; [done|congruence].
  - intros q i Hc. assert (Ha1 : left_alone (L q i) (L1 q i)).
    { apply Ho. destruct Hc as [Hc|Hc]; [left; apply Hc; set_solver|by right]. }
    eapply left_alone_trans; [exact Ha1|]. apply Ho'. destruct Hc as [Hc|Hc].
    + left. intros m' Hin. apply Hc. set_solver.
    + right. destruct Ha1 as [->|[_ ->]]; done.
  - intros q i t Hn. etransitivity; [apply Hl'|apply Hl]; intros Hx; apply Hn.
    + destruct Hx as (m' & ? & -> & ->). exists m'. set_solver.
    + destruct Hx as [-> ->]. exists m. set_solver.
  - intros q i Hp. by apply Hk', Hk.
Qed.

(** The effect of a round of the recoverer. *)
Lemma recover_spec now qnames db L :
  (forall m, stored_message db m -> rdb_sendable m) -> rdb_rep db L ->
  let db' := recoverLeaseExpiredTasks delay isFailure now qnames db in
  let expired := lease_expired db qnames (Unix (now - 30 * Second)) in
  exists L', rdb_rep db' L' /\
    (forall q i, expired q i -> exists m, stored_message db m /\ Queue m = q /\ ID m = i
       /\ recovered_at now db' m (L' q i)) /\
    (forall q i, ~ expired q i -> left_alone (L q i) (L' q i)) /\
    db_same_leases expired db db'.
Proof using All.
  intros Hsend HR db' expired.
  destruct (ListLeaseExpired_spec (now - 30 * Second) qnames db L HR) as (msgs & db1 & Hrun & Hsame & Hin & Hst).
  assert (Hdb' : db' = fold_left (recoverOne delay isFailure now) msgs db1).
  { unfold db', recoverLeaseExpiredTasks. cbn [b_ListLeaseExpired rdb_broker]. by rewrite Hrun. }
  destruct (recover_fold now msgs db1 L) as (L' & HR' & Hm & Ho & Hl & _).
  { apply Forall_forall. intros m Hm. by apply Hsend, Hst. }
  { by apply (rdb_rep_same _ _ _ Hsame). }
  { intros m m' H1 H2 Hq Hi. destruct (Hst m H1) as (b & Hb & Hd), (Hst m' H2) as (b' & Hb' & Hd').
    rewrite Hq, Hi in Hb. congruence. }
  rewrite Hdb'. exists L'. split; [exact HR'|]. split; [|split].
  - intros q i Hx. pose proof (proj1 (Hin q i) Hx) as (m & Hmin & <- & <-). exists m.
    split; [by apply Hst|]. split; [done|]. split; [done|]. apply Hm; [done|].
    destruct Hx as (_ & t & Hle & _). by eapply leased_active; [apply HR|].
  - intros q i Hx. apply Ho. left. intros m Hmin [= -> ->]. apply Hx. apply Hin. eauto.
  - intros q i t Hx. rewrite (Hl q i t).
    + unfold leased. destruct Hsame as (Hq & _). by rewrite Hq.
    + intros (m & Hmin & -> & ->). apply Hx. apply Hin. eauto.
Qed.

End recoverer.

(** ** Examples *)

Lemma field_sendable m : rdb_sendable m.
Proof. intros m' _ _. eexists. reflexivity. Qed.

Lemma rdb_rep_empty : rdb_rep empty_db (fun _ _ => None).
Proof. split; [apply DInv_empty|done]. Qed.

Lemma reachable_rep db : reachable db -> exists L, rdb_rep db L.
Proof.
  intros Hr. destruct (reachable_DInv db Hr) as [L HD]. exists L. split; [done|]. by apply reachable_well_named.
Qed.


Definition no_delay (n : Z) (e : HandlerError) (t : Task) : Z := 0.
Definition always_failure (e : HandlerError) : bool := true.

(** A worker that took task "a" at instant 0. *)
Definition working_db : DB :=
  run_op (ODequeue [str "default"]) 0 (run_op (OEnqueue (sample_msg "a" 25)) 0 empty_db).

Lemma working_db_reachable : reachable working_db.
Proof. apply reachable_op, reachable_op, reachable_init. Qed.

Lemma working_db_active : str "a" ∈ q_active (queue_of (str "default") working_db).
Proof. apply (bool_decide_unpack _). vm_compute. reflexivity. Qed.

Definition sample_worker : workerInfo :=
  {| w_msg := sample_msg "a" 25; w_started := 0; w_deadline := 1800 * Second;
     w_lease := NewLease (30 * Second) |}.

Lemma worker_settles_task_witness :
  exists L, rdb_rep working_db L /\
    rdb_rep (finish no_delay always_failure (10 * Second) sample_worker (Result_ None) working_db).2
      (move (str "default") (str "a") None L).
Proof.
  destruct (reachable_rep _ working_db_reachable) as [L HR].
  assert (Ha : L (str "default") (str "a") = active).
  { apply (inv_active _ _ (proj1 HR (str "default"))). exact working_db_active. }
  pose proof (@worker_settles_task DB rdb_broker rdb_laws no_delay always_failure (10 * Second) sample_worker
    (Result_ None) working_db L (field_sendable _) HR) as Hw.
  cbv zeta in Hw. destruct (finish _ _ _ _ _ _) as [reqs s']. cbn [w_msg sample_worker] in Hw.
  exists L. split; [exact HR|]. change (Lease_IsValid _ _) with true in Hw. cbv iota in Hw.
  rewrite decide_True in Hw by exact Ha. exact Hw.
Defined.

