(* ===== verification/AsynqWorkers.v ===== *)
(** Workers and leases: at most one worker at a time runs a task.

    The system consists of the store, of workers with their leases, and of the heartbeaters of some
    servers; its steps are the rounds of the servers' goroutines, the operations of clients and
    operators, and crashes, in any order.  Every step reads a local clock that differs from the
    common time by at most [skew].  The recoverer leaves a lease alone until 30 seconds after its
    end, which is what makes a skew of up to 7.25 seconds harmless: half of the margin covers a
    recoverer that is ahead of a worker, and half a heartbeater that is behind the clock at which the
    task was taken and that lowers the lease in the store when it extends it, for a worker that
    has ended.

    A round of a goroutine is one step.  Calls of the broker do not fail for lack of a connection, so the
    requests of workers to the syncer are left out. *)
From stdpp Require Import base list strings numbers option gmap.
From S2P Require Import Prelude.
From S2P Require Import Redis.
From S2P Require Import AsynqBase.
From S2P Require Import AsynqStore.
From S2P Require Import AsynqRdb.
From S2P Require Import AsynqInspect.
From S2P Require Import AsynqRegistry.
From S2P Require Import AsynqRegistrySpec.
From S2P Require Import AsynqInv.
From S2P Require Import AsynqScripts.
From S2P Require Import AsynqDb.
From S2P Require Import AsynqSpec.
From S2P Require Import AsynqRefine.
From S2P Require Import AsynqMessages.
From S2P Require Import AsynqLife.
From S2P Require Import AsynqFifo.
From S2P Require Import AsynqFrame.
From S2P Require Import AsynqContents.
From S2P Require Import AsynqLeases.
From S2P Require Import AsynqBroker.
From S2P Require Import AsynqClient.
From S2P Require Import AsynqServer.
From S2P Require Import AsynqServerSpec.

(** ** The system *)

Record System := {
  sy_now : Z;
  sy_db : DB;
  sy_workers : heap; (* the workers that run and those that have ended *)
  sy_running : gset nat;
  sy_next : nat; (* the next free address *)
  sy_beats : gmap nat heartbeater (* the heartbeaters of the servers *)
}.

(** The operations of clients, forwarders, janitors, aggregators and operators. *)
Definition other_op (op : Op) : bool :=
  match op with
  | ODequeue _ | ODone _ | OMarkAsComplete _ | ORequeue _ | ORetry _ _ _ _ | OArchive _ _
  | OExtendLease _ _ => false
  | _ => true
  end.

Section system.
Context `{Proto pb.TaskMessage} `{!ProtoLaws pb.TaskMessage pb.normal_TaskMessage}.
Context `{PS : Proto pb.ServerInfo} `{PW : Proto pb.WorkerInfo}.
Context (delay : Z -> HandlerError -> Task -> Z) (isFailure : HandlerError -> bool) (skew : Z).

Definition local_clock (sy : System) (t : Z) : Prop := sy_now sy - skew <= t <= sy_now sy + skew.

Definition with_db (db : DB) (sy : System) : System :=
  {| sy_now := sy_now sy; sy_db := db; sy_workers := sy_workers sy; sy_running := sy_running sy;
     sy_next := sy_next sy; sy_beats := sy_beats sy |}.
Definition with_workers (W : heap) (sy : System) : System :=
  {| sy_now := sy_now sy; sy_db := sy_db sy; sy_workers := W; sy_running := sy_running sy;
     sy_next := sy_next sy; sy_beats := sy_beats sy |}.
Definition with_running (R : gset nat) (sy : System) : System :=
  {| sy_now := sy_now sy; sy_db := sy_db sy; sy_workers := sy_workers sy; sy_running := R;
     sy_next := sy_next sy; sy_beats := sy_beats sy |}.
Definition with_beat (srv : nat) (h : heartbeater) (sy : System) : System :=
  {| sy_now := sy_now sy; sy_db := sy_db sy; sy_workers := sy_workers sy; sy_running := sy_running sy;
     sy_next := sy_next sy; sy_beats := <[srv := h]> (sy_beats sy) |}.

(** A server starts with a heartbeater without workers.  Its heartbeater hears of the start and of the
    end of workers at any time after them. *)
Inductive step (sy : System) : System -> Prop :=
  | step_time t :
      sy_now sy <= t ->
      step sy {| sy_now := t; sy_db := sy_db sy; sy_workers := sy_workers sy; sy_running := sy_running sy;
                 sy_next := sy_next sy; sy_beats := sy_beats sy |}
  | step_other t op :
      local_clock sy t -> other_op op = true -> step sy (with_db (AsynqSpec.exec t op (sy_db sy)).2 sy)
  | step_idle t qnames db' :
      local_clock sy t -> exec_take t qnames (sy_db sy) = (None, db') -> step sy (with_db db' sy)
  | step_take t qnames w db' :
      local_clock sy t -> exec_take t qnames (sy_db sy) = (Some w, db') ->
      step sy {| sy_now := sy_now sy; sy_db := db'; sy_workers := <[sy_next sy := w]> (sy_workers sy);
                 sy_running := {[ sy_next sy ]} ∪ sy_running sy; sy_next := S (sy_next sy);
                 sy_beats := sy_beats sy |}
  | step_finish t a w e :
      local_clock sy t -> a ∈ sy_running sy -> sy_workers sy !! a = Some w ->
      step sy (with_running (sy_running sy ∖ {[ a ]})
                 (with_db (finish delay isFailure t w e (sy_db sy)).2 sy))
  | step_crash a : step sy (with_running (sy_running sy ∖ {[ a ]}) sy)
  | step_server srv h : hb_workers h = ∅ -> step sy (with_beat srv h sy)
  | step_starting srv h a w :
      sy_beats sy !! srv = Some h -> sy_workers sy !! a = Some w ->
      step sy (with_beat srv (h_starting a w h) sy)
  | step_finished srv h msg :
      sy_beats sy !! srv = Some h -> step sy (with_beat srv (h_finished msg h) sy)
  | step_beat srv h status t W db' :
      local_clock sy t -> sy_beats sy !! srv = Some h ->
      beat t status h (sy_workers sy) (sy_db sy) = (W, db') ->
      step sy (with_workers W (with_db db' sy))
  | step_stopped srv h :
      sy_beats sy !! srv = Some h -> step sy (with_db (heartbeater_done h (sy_db sy)) sy)
  | step_recover t qnames :
      local_clock sy t -> step sy (with_db (recover delay isFailure t qnames (sy_db sy)) sy).

Inductive sys_reachable : System -> Prop :=
  | sys_init now :
      sys_reachable {| sy_now := now; sy_db := empty_db; sy_workers := ∅; sy_running := ∅; sy_next := 0;
                       sy_beats := ∅ |}
  | sys_step sy sy' : sys_reachable sy -> step sy sy' -> sys_reachable sy'.

(** ** The invariant *)

(** The lease of a worker may still be valid on some clock. *)
Definition alive (now : Z) (w : workerInfo) : Prop := now <= lease_expireAt (w_lease w) + skew.

(** The task of a worker is active and leased as long as the worker believes, up to the skew. *)
Definition holds (db : DB) (L : DLocation) (w : workerInfo) : Prop :=
  L (Queue (w_msg w)) (ID (w_msg w)) = active /\
  exists t, leased db (Queue (w_msg w)) (ID (w_msg w)) t /\
    Unix (lease_expireAt (w_lease w) - 2 * skew) <= t.

Definition same_task (w w' : workerInfo) : Prop :=
  Queue (w_msg w) = Queue (w_msg w') /\ ID (w_msg w) = ID (w_msg w').

Record WInv (now : Z) (db : DB) (L : DLocation) (W : heap) (R : gset nat) : Prop := {
  wi_bound : forall a w, W !! a = Some w -> lease_expireAt (w_lease w) <= now + skew + LeaseDuration;
  wi_holds : forall a w, W !! a = Some w -> a ∈ R -> alive now w -> holds db L w;
  wi_alone : forall a b w w', W !! a = Some w -> W !! b = Some w' -> a ∈ R -> b ∈ R -> a <> b ->
    alive now w -> alive now w' -> ~ same_task w w'
}.

(** The heartbeaters know workers by their ids. *)
Definition known (W : heap) (next : nat) (h : heartbeater) : Prop :=
  forall id a, hb_workers h !! id = Some a ->
    (a < next)%nat /\ forall w, W !! a = Some w -> ID (w_msg w) = id.

Definition SInv (sy : System) : Prop :=
  (exists L, rdb_rep (sy_db sy) L /\ WInv (sy_now sy) (sy_db sy) L (sy_workers sy) (sy_running sy)) /\
  (forall a, is_Some (sy_workers sy !! a) -> (a < sy_next sy)%nat) /\
  forall srv h, sy_beats sy !! srv = Some h -> known (sy_workers sy) (sy_next sy) h.

(** ** Steps that leave the tasks of living workers alone *)

(** What a change of the store must keep of a task. *)
Definition untouched (db : DB) (L : DLocation) (db' : DB) (L' : DLocation) (q i : gostring) : Prop :=
  L' q i = L q i /\ forall t, leased db' q i t <-> leased db q i t.

Lemma holds_untouched db L db' L' w :
  untouched db L db' L' (Queue (w_msg w)) (ID (w_msg w)) -> holds db L w -> holds db' L' w.
Proof using.
  intros [HL Hl] [Ha (t & Ht & Hle)]. split; [congruence|]. exists t. by rewrite Hl.
Qed.

Lemma WInv_frame now db L db' L' W R :
  WInv now db L W R ->
  (forall a w, W !! a = Some w -> a ∈ R -> alive now w -> holds db L w ->
     untouched db L db' L' (Queue (w_msg w)) (ID (w_msg w))) ->
  WInv now db' L' W R.
Proof using.
  intros [Hb Hh Ha] Hf. split; [exact Hb| |exact Ha]. intros a w Hw HR Hal.
  eapply holds_untouched; [eapply Hf; eauto|eauto].
Qed.

Lemma WInv_ended now db L W R a : WInv now db L W R -> WInv now db L W (R ∖ {[ a ]}).
Proof using.
  intros [Hb Hh Ha]. split; [exact Hb| |].
  - intros b w Hw [HR _]%elem_of_difference. eauto.
  - intros b c w w' Hw Hw' [HR _]%elem_of_difference [HR' _]%elem_of_difference. eauto.
Qed.

Lemma WInv_later now now' db L W R : now <= now' -> WInv now db L W R -> WInv now' db L W R.
Proof using.
  unfold alive. intros Hle [Hb Hh Ha]. split.
  - intros a w Hw. specialize (Hb a w Hw). lia.
  - intros a w Hw HR Hal. apply (Hh a w Hw HR). unfold alive in *. lia.
  - intros a b w w' Hw Hw' HR HR' Hab Hal Hal'. apply (Ha a b w w' Hw Hw' HR HR' Hab); unfold alive in *; lia.
Qed.

(** An operation of the broker on the locations and the leases. *)
Lemma exec_rep now op db L :
  rdb_rep db L -> exists L', rdb_rep (AsynqSpec.exec now op db).2 L' /\
    (forall q i, L' q i = L q i \/ lifecycle op q i (L q i) (L' q i)) /\
    db_same_leases (touches db op) db (AsynqSpec.exec now op db).2.
Proof using.
  intros [HD Hw]. pose proof (exec_leases now op db L HD) as Hl.
  pose proof (well_named_exec now op db Hw) as Hw'. pose proof (exec_follows now op db L HD) as Hf.
  unfold ewp in Hf. destruct (AsynqSpec.exec now op db) as [[a|e|x|] db']; try done;
    destruct Hf as (L' & HD' & He); exists L'; done.
Qed.

Lemma other_keeps_active op q i o :
  other_op op = true -> lifecycle op q i active o -> False.
Proof using.
  destruct op; intros Ho; try discriminate Ho; cbn [lifecycle];
    unfold edge, to_archive, scheduled, retrying, archived, completed, grouped, staged_in, pending, active;
    intros Hc; repeat (destruct_and? || destruct_or? || match goal with
      | Hx : exists _, _ |- _ => destruct Hx
      | Hx : edge _ _ _ _ |- _ => destruct Hx
      end); done.
Qed.

Lemma other_untouched now op db L :
  other_op op = true -> rdb_rep db L -> exists L', rdb_rep (AsynqSpec.exec now op db).2 L' /\
    forall q i, L q i = active -> untouched db L (AsynqSpec.exec now op db).2 L' q i.
Proof using.
  intros Ho HR. destruct (exec_rep now op db L HR) as (L' & HR' & He & Hl). exists L'. split; [done|].
  intros q i Ha. split.
  - destruct (He q i) as [|Hlc]; [done|]. rewrite Ha in Hlc. by destruct (other_keeps_active _ _ _ _ Ho Hlc).
  - intros t. apply Hl. destruct op; try discriminate Ho; intros [].
Qed.

Context (Hsend : forall m, rdb_sendable m) (Hskew : 0 <= skew /\ 4 * skew <= 29 * Second).

(** *** Taking a task *)

Lemma Dequeue_leases now qnames db L :
  rdb_rep db L ->
  match Dequeue now qnames db with
  | (Ok (m, e), db') => leased db' (Queue m) (ID m) (Unix e)
      /\ db_same_leases (fun q i => q = Queue m /\ i = ID m) db db'
  | (_, db') => same_queues db db'
  end.
Proof using All.
  intros [HD Hw]. destruct (dequeue_step now qnames db L HD) as (r & db' & -> & Ho).
  unfold dequeue_outcome in Ho. destruct (next_task db qnames) as [[qname id]|] eqn:Hn.
  - destruct Ho as [(b & Hb & ->) [_ _ Hl _ [Ho _] _]].
    destruct (encodes_decode qname id b) as (m & Hm & <- & <-); [by apply Hw|].
    unfold dequeued. rewrite Hm. unfold leased. split.
    + rewrite Hl, elem_of_zadd. by left.
    + intros q i t Hne. unfold leased. destruct (decide (q = Queue m)) as [->|Hq]; [|by rewrite Ho].
      rewrite Hl, elem_of_zadd. cbn [fst]. split; [intros [[= -> _]|[_ ?]]; [by destruct Hne|done]|].
      right. split; [|done]. intros ->. by apply Hne.
  - by destruct Ho as [-> [Hs _]].
Qed.

Lemma take_spec t qnames db L r db' :
  rdb_rep db L -> exec_take t qnames db = (r, db') ->
  match r with
  | None => same_queues db db'
  | Some w => L (Queue (w_msg w)) (ID (w_msg w)) = pending /\ lease_expireAt (w_lease w) = t + LeaseDuration /\
      exists L', rdb_rep db' L' /\ holds db' L' w /\
        forall q i, (q, i) <> (Queue (w_msg w), ID (w_msg w)) -> untouched db L db' L' q i
  end.
Proof using All.
  intros HR. pose proof (Dequeue_leases t qnames db L HR) as Hl.
  destruct (Dequeue_law t qnames db L HR) as (x & db1 & Hrun & Hx). unfold exec_take.
  cbn [b_Dequeue rdb_broker]. rewrite Hrun in *. destruct x as [[m e]|err| |]; try done.
  - intros [= <- <-]. cbn [w_msg]. destruct Hx as (_ & -> & Hp & HR'), Hl as [Hl1 Hl2]. split; [done|].
    split; [done|]. eexists. split; [exact HR'|]. split.
    + split; cbn [w_msg w_lease NewLease lease_expireAt]; [apply move_at|]. eexists. split; [exact Hl1|].
      apply Z.div_le_mono; unfold Second in *; lia.
    + intros q i Hne. split; [by apply move_other|]. intros t'. apply Hl2. intros [-> ->]. by apply Hne.
  - by intros [= <- <-].
Qed.

(** *** Finishing a task *)

Lemma finish_leases t w e db L :
  rdb_rep db L ->
  db_same_leases (fun q i => q = Queue (w_msg w) /\ i = ID (w_msg w)) db
    (finish delay isFailure t w e db).2.
Proof using All.
  intros [HD _]. set (msg := w_msg w).
  assert (Hop : forall op (m : stE DB goerror unit), AsynqSpec.exec t op = effect m ->
    (forall q i, touches db op q i -> q = Queue msg /\ i = ID msg) ->
    db_same_leases (fun q i => q = Queue msg /\ i = ID msg) db (m db).2).
  { intros op m Hm Ht q i t' Hne. pose proof (exec_leases t op db L HD q i t') as Hl.
    rewrite Hm, effect_state in Hl. apply Hl. intros Hx. by apply Hne, Ht. }
  assert (Hg : forall op (call : Z -> stE DB goerror unit) text, AsynqSpec.exec t op = effect (call t) ->
    (forall q i, touches db op q i -> q = Queue msg /\ i = ID msg) ->
    db_same_leases (fun q i => q = Queue msg /\ i = ID msg) db (guardedCall t (w_lease w) call text db).2).
  { intros op call text Hm Ht. unfold guardedCall. destruct (negb _); [reflexivity|].
    specialize (Hop op (call t) Hm Ht). by destruct (call t db) as [[a|err|x|] db']. }
  assert (Hfail : forall err, db_same_leases (fun q i => q = Queue msg /\ i = ID msg) db
    (handleFailedMessage delay isFailure t (w_lease w) msg err db).2).
  { intros err. unfold handleFailedMessage, p_retry, p_archive. set (at_ := t + _).
    destruct (negb _); [by apply (Hg (ORetry msg at_ (he_text err) false))|].
    destruct (_ || _); [by apply (Hg (OArchive msg (he_text err)))|].
    by apply (Hg (ORetry msg at_ (he_text err) true)). }
  destruct e as [| |err|[err|]]; cbn [finish]; try apply Hfail.
  - unfold p_requeue. destruct (negb _); [reflexivity|]. by apply (Hop (ORequeue msg)).
  - unfold handleSucceededMessage, markAsComplete, markAsDone. fold msg. destruct (0 <? Retention msg).
    + by apply (Hg (OMarkAsComplete msg)).
    + by apply (Hg (ODone msg)).
Qed.

(** ** The steps keep the invariant *)

Lemma WInv_take (sy : System) t qnames L w db' a :
  rdb_rep (sy_db sy) L -> WInv (sy_now sy) (sy_db sy) L (sy_workers sy) (sy_running sy) -> local_clock sy t ->
  exec_take t qnames (sy_db sy) = (Some w, db') -> sy_workers sy !! a = None ->
  exists L', rdb_rep db' L' /\
    WInv (sy_now sy) db' L' (<[a := w]> (sy_workers sy)) ({[ a ]} ∪ sy_running sy).
Proof using All.
  intros HR [Hb Hh Ha] Hc Ht Hfree.
  destruct (take_spec t qnames _ L _ db' HR Ht) as (Hp & Hexp & L' & HR' & Hw & Ho).
  assert (Hne : forall b w', sy_workers sy !! b = Some w' -> b ∈ sy_running sy -> alive (sy_now sy) w' ->
    ~ same_task w' w).
  { intros b w' Hw' Hrun Hal [Hq Hi]. destruct (Hh b w' Hw' Hrun Hal) as [Hact _]. by rewrite Hq, Hi, Hp in Hact. }
  assert (Hold : forall b, a <> b -> b ∈ {[ a ]} ∪ sy_running sy -> b ∈ sy_running sy) by set_solver.
  exists L'. split; [done|]. split.
  - intros b w' [[<- <-]|[Hb' Hw']]%lookup_insert_Some; [|by eapply Hb]. unfold local_clock in Hc. lia.
  - intros b w' [[<- <-]|[Hb' Hw']]%lookup_insert_Some Hrun Hal; [done|]. apply Hold in Hrun; [|done].
    eapply holds_untouched; [apply Ho|by eapply Hh]. intros [= Hq Hi]. by eapply Hne.
  - intros b c w1 w2 [[<- <-]|[Hb1 H1]]%lookup_insert_Some [[<- <-]|[Hc2 H2]]%lookup_insert_Some Hr1 Hr2 Hbc Hal1 Hal2.
    + done.
    + apply Hold in Hr2; [|done]. intros [Hq Hi]. by eapply Hne.
    + apply Hold in Hr1; [|done]. by eapply Hne.
    + apply Hold in Hr1, Hr2; [|done..]. by eapply Ha.
Qed.

Lemma valid_alive (sy : System) (t : Z) (w : workerInfo) :
  local_clock sy t -> Lease_IsValid t (w_lease w) = true -> alive (sy_now sy) w.
Proof using. unfold local_clock, Lease_IsValid, alive. rewrite orb_true_iff, Z.ltb_lt, Z.eqb_eq. lia. Qed.

(** A worker ends: other living workers have other tasks. *)
Lemma WInv_finish (sy : System) t L a w e :
  rdb_rep (sy_db sy) L -> WInv (sy_now sy) (sy_db sy) L (sy_workers sy) (sy_running sy) ->
  local_clock sy t -> a ∈ sy_running sy -> sy_workers sy !! a = Some w ->
  let db' := (finish delay isFailure t w e (sy_db sy)).2 in
  exists L', rdb_rep db' L' /\ WInv (sy_now sy) db' L' (sy_workers sy) (sy_running sy ∖ {[ a ]}).
Proof using All.
  intros HR HW Hc Hrun Ha db'. pose proof (finish_handled delay isFailure t w e (Hsend _) _ L HR) as Hh.
  pose proof (finish_leases t w e _ L HR) as Hl. fold db' in Hh, Hl.
  destruct (Lease_IsValid t (w_lease w)) eqn:Hv.
  2:{ assert (db' = sy_db sy) as -> by (unfold db'; by rewrite Hh). exists L. split; [done|]. by apply WInv_ended. }
  assert (Hd : forall b w', sy_workers sy !! b = Some w' -> b ∈ sy_running sy ∖ {[ a ]} ->
    alive (sy_now sy) w' -> ~ same_task w w').
  { intros b w' Hb Hb' Hal. apply (wi_alone _ _ _ _ _ HW a b w w' Ha Hb); [done|set_solver|set_solver| |done].
    by eapply valid_alive. }
  destruct (decide (L (Queue (w_msg w)) (ID (w_msg w)) = active)) as [_|_].
  - eexists. split; [exact Hh|]. eapply WInv_frame; [by apply WInv_ended|].
    intros b w' Hb Hb' Hal [Hact _]. specialize (Hd b w' Hb Hb' Hal). split.
    + destruct (went_others t (archive_of (sy_db sy) (Queue (w_msg w))) (Queue (w_msg w)) (ID (w_msg w))
        (finished_place isFailure (w_msg w) e) L (Queue (w_msg w')) (ID (w_msg w'))) as [|[Har _]];
        [|done|by rewrite Hact in Har].
      intros [= Hq Hi]. by apply Hd.
    + intros t'. apply Hl. intros [Hq Hi]. by apply Hd.
  - exists L. split; [exact Hh|]. eapply WInv_frame; [by apply WInv_ended|]. intros b w' Hb Hb' Hal _.
    split; [done|]. intros t'. apply Hl. intros [Hq Hi]. by apply (Hd b w').
Qed.

(** *** The recoverer *)

(** No lease of a living worker has expired for the recoverer. *)
Lemma living_not_expired (sy : System) t L w qnames :
  rdb_rep (sy_db sy) L -> local_clock sy t -> alive (sy_now sy) w -> holds (sy_db sy) L w ->
  ~ lease_expired (sy_db sy) qnames (Unix (t - 30 * Second)) (Queue (w_msg w)) (ID (w_msg w)).
Proof using All.
  intros [HD _] Hc Hal [_ (s & Hs & Hle)] (_ & s' & Hs' & Hle').
  assert (s' = s) as ->.
  { eapply NoDup_zscore; [|exact Hs|exact Hs']. by eapply nodup_zset. }
  unfold local_clock, alive in *.
  assert (Hu : Unix (t - 30 * Second) <= Unix (lease_expireAt (w_lease w) - 2 * skew + (-1) * Second)).
  { apply Z.div_le_mono; unfold Second in *; lia. }
  unfold Unix in *. rewrite Z.div_add in Hu by done. lia.
Qed.

Lemma WInv_reclaim now t qnames : forall db L W R,
  rdb_rep db L -> WInv now db L W R ->
  exists L', rdb_rep (recoverStaleAggregationSets t qnames db) L' /\
    WInv now (recoverStaleAggregationSets t qnames db) L' W R.
Proof using All.
  induction qnames as [|q qnames IH]; intros db L W R HR HW; [by exists L|].
  destruct (other_untouched t (OReclaimStaleAggregationSets q) db L eq_refl HR) as (L1 & HR1 & Hu).
  cbn [exec] in HR1, Hu. rewrite effect_state in HR1, Hu.
  apply (IH _ L1); [exact HR1|]. eapply WInv_frame; [exact HW|]. intros a w Hw Hrun Hal [Hact _]. by apply Hu.
Qed.

Lemma WInv_recover (sy : System) t qnames L :
  rdb_rep (sy_db sy) L -> WInv (sy_now sy) (sy_db sy) L (sy_workers sy) (sy_running sy) -> local_clock sy t ->
  let db' := recover delay isFailure t qnames (sy_db sy) in
  exists L', rdb_rep db' L' /\ WInv (sy_now sy) db' L' (sy_workers sy) (sy_running sy).
Proof using All.
  intros HR HW Hc db'.
  destruct (recover_spec delay isFailure t qnames _ L (fun m _ => Hsend m) HR) as (L1 & HR1 & _ & Ho & Hl).
  apply (WInv_reclaim _ _ _ _ L1); [exact HR1|]. eapply WInv_frame; [exact HW|].
  intros a w Hw Hrun Hal Hh. pose proof (living_not_expired sy t L w qnames HR Hc Hal Hh) as Hx.
  destruct Hh as [Hact _]. split; [|intros s; by apply Hl].
  destruct (Ho _ _ Hx) as [|[Har _]]; [done|]. by rewrite Hact in Har.
Qed.

(** *** The heartbeater *)

(** The leases of the store after an extension. *)
Lemma elem_of_extended (ids : list gostring) (t : Z) (z : zset gostring) (x : gostring) :
  x ∈ ids -> x ∈ zmembers z -> (x, t) ∈ fold_left (fun z id => zadd_xx t id z) ids z.
Proof using.
  revert z. induction ids as [|id ids IH]; intros z Hx Hz; [by apply elem_of_nil in Hx|]. cbn [fold_left].
  destruct (decide (x ∈ ids)) as [Hin|Hout].
  - apply IH; [done|]. by rewrite elem_of_zmembers_zadd_xx.
  - apply elem_of_cons in Hx as [->|]; [|done]. apply elem_of_extend; [done|]. unfold zadd_xx.
    rewrite bool_decide_true by done. apply elem_of_zadd. by left.
Qed.

Lemma ExtendLease_spec t qname ids db L :
  rdb_rep db L -> ids <> [] ->
  exists db' L', ExtendLease t qname ids db = (Ok (t + LeaseDuration), db') /\ rdb_rep db' L' /\
    (forall q i, L' q i = L q i) /\
    (forall i, i ∈ ids -> L qname i = active -> leased db' qname i (Unix (t + LeaseDuration))) /\
    db_same_leases (fun q i => q = qname /\ i ∈ ids) db db'.
Proof using All.
  intros HR Hne. destruct (exec_rep t (OExtendLease qname ids) db L HR) as (L' & HR' & He & Hl).
  cbn [exec] in HR', Hl. rewrite effect_state in HR', Hl.
  assert (Hrun : exists db', ExtendLease t qname ids db = (Ok (t + LeaseDuration), db') /\
    queue_of qname db' = zput ZLease (fold_left (fun z id => zadd_xx (Unix (t + LeaseDuration)) id z) ids
                            (zget ZLease (queue_of qname db))) (queue_of qname db)).
  { exists (put_store qname (zput ZLease (fold_left (fun z id => zadd_xx (Unix (t + LeaseDuration)) id z) ids
        (zget ZLease (queue_of qname db))) (queue_of qname db), db_locks db) db).
    rewrite queue_of_put, decide_True by done. split; [|done]. by destruct ids as [|id ids]. }
  destruct Hrun as (db' & Hrun & Hq). rewrite Hrun in HR', Hl. exists db', L'.
  split; [exact Hrun|]. split; [exact HR'|]. split; [intros q i; by destruct (He q i)|]. split; [|exact Hl].
  intros i Hi Hact. unfold leased. rewrite Hq, zget_zput, decide_True by done.
  apply elem_of_extended; [done|]. by apply (inv_lease _ _ (proj1 HR qname)).
Qed.

(** What the invariant reads of a worker. *)
Definition view (w : workerInfo) : TaskMessage * Z := (w_msg w, lease_expireAt (w_lease w)).

Lemma lookup_view (W W' : heap) a w' :
  view <$> W = view <$> W' -> W' !! a = Some w' -> exists w, W !! a = Some w /\ view w = view w'.
Proof using.
  intros Hv Ha. assert (Hx : (view <$> W) !! a = (view <$> W') !! a) by (by rewrite Hv).
  rewrite !lookup_fmap, Ha in Hx. destruct (W !! a) as [w|]; [|done]. exists w. split; [done|]. by apply (inj Some).
Qed.

Lemma WInv_view now db L W W' R : view <$> W = view <$> W' -> WInv now db L W R -> WInv now db L W' R.
Proof using.
  intros Hv [Hb Hh Ha]. split; unfold alive, holds, same_task in *.
  - intros a w' Hw'. destruct (lookup_view W W' a w' Hv Hw') as (w & Hw & [= _ <-]). by apply (Hb a).
  - intros a w' Hw'. destruct (lookup_view W W' a w' Hv Hw') as (w & Hw & [= <- <-]). by apply (Hh a).
  - intros a b w1' w2' H1 H2. destruct (lookup_view W W' a w1' Hv H1) as (w1 & Hw1 & [= <- <-]).
    destruct (lookup_view W W' b w2' Hv H2) as (w2 & Hw2 & [= <- <-]). by apply (Ha a b).
Qed.

(** An entry of [idsByQueue]: ids of workers with a valid lease on tasks of the queue. *)
Definition collected (t : Z) (h : heartbeater) (W : heap) (e : gostring * list gostring) : Prop :=
  e.2 <> [] /\ forall id, id ∈ e.2 -> exists a w, hb_workers h !! id = Some a /\ W !! a = Some w /\
    Queue (w_msg w) = e.1 /\ ID (w_msg w) = id /\ Lease_IsValid t (w_lease w) = true.

Lemma collected_view t h W W' e : view <$> W = view <$> W' -> collected t h W e -> collected t h W' e.
Proof using.
  intros Hv [Hne Hc]. split; [done|]. intros id Hid. destruct (Hc id Hid) as (a & w' & Hh & Hw' & Hq & Hi & Hval).
  destruct (lookup_view W' W a w' (eq_sym Hv) Hw') as (w & Hw & [= Hmsg Hexp]). exists a, w.
  rewrite Hmsg. repeat (split; [done|]). unfold Lease_IsValid in *. by rewrite Hexp.
Qed.

Lemma collected_snoc t h W q ids id :
  (ids <> [] -> collected t h W (q, ids)) -> collected t h W (q, [id]) -> collected t h W (q, ids ++ [id]).
Proof using.
  intros H1 [_ H2]. split; [by destruct ids|]. intros x [Hx|Hx]%elem_of_app; [|by apply H2].
  apply H1; [|done]. intros ->. by apply elem_of_nil in Hx.
Qed.

Lemma collectIds_spec t h W next (l : list (gostring * nat)) :
  forall W1 ws (m : gmap gostring (list gostring)),
  known W next h -> (forall e, e ∈ l -> hb_workers h !! e.1 = Some e.2) ->
  view <$> W1 = view <$> W -> map_Forall (fun q ids => collected t h W (q, ids)) m ->
  let '(W2, _, m2) := fold_left (collectIds t h) l (W1, ws, m) in
  view <$> W2 = view <$> W /\ map_Forall (fun q ids => collected t h W (q, ids)) m2.
Proof using.
  induction l as [|[id a] l IH]; intros W1 ws m Hk Hl Hv Hm; [done|]. cbn [fold_left collectIds].
  assert (Ha : hb_workers h !! id = Some a) by (apply (Hl (id, a)), list_elem_of_here).
  assert (Hl' : forall e, e ∈ l -> hb_workers h !! e.1 = Some e.2)
    by (intros e He; apply Hl; by apply list_elem_of_further).
  destruct (W1 !! a) as [w|] eqn:Hw; [|by apply IH].
  destruct (Lease_IsValid t (w_lease w)) eqn:Hval; apply IH; try done.
  - unfold addId. apply map_Forall_insert_2; [|done]. apply collected_snoc.
    + intros Hne. destruct (m !! Queue (w_msg w)) as [ids|] eqn:Hq; [|done]. by apply (Hm _ _ Hq).
    + eapply collected_view; [exact Hv|]. split; [done|]. intros x ->%list_elem_of_singleton.
      exists a, w. split; [done|]. split; [done|]. split; [done|]. split; [|done].
      destruct (lookup_view W W1 a w (eq_sym Hv) Hw) as (w0 & Hw0 & [= <- _]).
      by apply (Hk id a Ha).
  - rewrite fmap_insert. rewrite insert_id; [done|]. rewrite lookup_fmap, Hw. cbn. f_equal. unfold view. cbn.
    unfold Lease_NotifyExpiration. by rewrite Hval.
Qed.

(** The workers after the leases of [ids] were reset: those of the heartbeater that are valid. *)
Lemma resetLease_spec t e h (ids : list gostring) : forall (W : heap) a w',
  t < e -> fold_left (resetLease t e h) ids W !! a = Some w' ->
  exists w, W !! a = Some w /\ w_msg w' = w_msg w /\
    let reset := Lease_IsValid t (w_lease w) = true /\ exists id, id ∈ ids /\ hb_workers h !! id = Some a in
    (reset /\ lease_expireAt (w_lease w') = e) \/
    (~ reset /\ lease_expireAt (w_lease w') = lease_expireAt (w_lease w)).
Proof using.
  cbv zeta. induction ids as [|id ids IH]; intros W a w' He Hw'.
  - exists w'. split; [done|]. split; [done|]. right. split; [|done]. intros (_ & id & Hid & _).
    by apply elem_of_nil in Hid.
  - cbn [fold_left] in Hw'. destruct (IH _ a w' He Hw') as (w1 & Hw1 & Hmsg & Hcase). clear IH Hw'.
    assert (Hskip : hb_workers h !! id <> Some a ->
      (exists x, x ∈ id :: ids /\ hb_workers h !! x = Some a) <-> exists x, x ∈ ids /\ hb_workers h !! x = Some a).
    { intros Hne. split; intros (x & Hx & Hhx); exists x; (split; [|done]).
      - apply elem_of_cons in Hx as [->|]; done.
      - by apply list_elem_of_further. }
    unfold resetLease in Hw1. destruct (hb_workers h !! id) as [b|] eqn:Hb.
    2:{ exists w1. split; [done|]. split; [done|]. rewrite Hskip; done. }
    destruct (decide (a = b)) as [<-|Hab].
    + rewrite lookup_alter_eq in Hw1. destruct (W !! a) as [w|]; [|done]. injection Hw1 as <-. exists w.
      split; [done|]. split; [done|]. cbn [set_lease w_lease] in Hcase. unfold Lease_Reset in Hcase.
      destruct (Lease_IsValid t (w_lease w)) eqn:Hv; cbn [negb snd lease_expireAt] in Hcase.
      * left. split; [split; [done|exists id; split; [apply list_elem_of_here|done]]|].
        by destruct Hcase as [[_ ?]|[_ ?]].
      * right. split; [by intros [? _]|]. destruct Hcase as [[[? _] _]|[_ ?]]; [congruence|done].
    + rewrite lookup_alter_ne in Hw1 by done. exists w1. split; [done|]. split; [done|].
      rewrite Hskip; [done|congruence].
Qed.

Lemma resetLease_some t e h (ids : list gostring) : forall (W : heap) a w,
  W !! a = Some w -> exists w', fold_left (resetLease t e h) ids W !! a = Some w'.
Proof using.
  induction ids as [|id ids IH]; intros W a w Hw; [eauto|]. cbn [fold_left].
  destruct (resetLease t e h W id !! a) as [w1|] eqn:H1; [by eapply IH|]. exfalso.
  unfold resetLease in H1. destruct (hb_workers h !! id) as [b|]; [|congruence].
  destruct (decide (a = b)) as [<-|Hab]; [rewrite lookup_alter_eq, Hw in H1|rewrite lookup_alter_ne, Hw in H1]; done.
Qed.

(** An entry stays collected, and the addresses of workers do not change. *)
Definition still_running (t : Z) (W W' : heap) : Prop :=
  (forall a w, W !! a = Some w -> exists w', W' !! a = Some w' /\ w_msg w' = w_msg w /\
     (Lease_IsValid t (w_lease w) = true -> Lease_IsValid t (w_lease w') = true)) /\
  forall a w', W' !! a = Some w' -> exists w, W !! a = Some w /\ w_msg w' = w_msg w.

#[local] Instance still_running_preorder t : PreOrder (still_running t).
Proof using.
  split.
  - intros W. split; eauto.
  - intros W1 W2 W3 [H1 H1'] [H2 H2']. split.
    + intros a w Hw. destruct (H1 a w Hw) as (w2 & Hw2 & Hm2 & Hv2).
      destruct (H2 a w2 Hw2) as (w3 & Hw3 & Hm3 & Hv3). exists w3. split; [done|]. split; [congruence|auto].
    + intros a w3 Hw3. destruct (H2' a w3 Hw3) as (w2 & Hw2 & Hm2).
      destruct (H1' a w2 Hw2) as (w1 & Hw1 & Hm1). exists w1. split; [done|congruence].
Qed.

Lemma collected_running t h W W' e : still_running t W W' -> collected t h W e -> collected t h W' e.
Proof using.
  intros [Hr _] [Hne Hc]. split; [done|]. intros id Hid. destruct (Hc id Hid) as (a & w & Hh & Hw & Hq & Hi & Hv).
  destruct (Hr a w Hw) as (w' & Hw' & Hm & Hv'). exists a, w'. rewrite Hm. repeat (split; [done|]). by apply Hv'.
Qed.

Lemma resetLease_running t e h ids W : t < e -> still_running t W (fold_left (resetLease t e h) ids W).
Proof using.
  intros He. split.
  - intros a w Hw. destruct (resetLease_some t e h ids W a w Hw) as [w' Hw']. exists w'. split; [done|].
    destruct (resetLease_spec t e h ids W a w' He Hw') as (w0 & Hw0 & Hm & Hcase).
    assert (w0 = w) as -> by congruence. split; [done|]. intros Hv. unfold Lease_IsValid in *.
    destruct Hcase as [[_ ->]|[_ ->]]; [|done]. apply orb_true_iff. left. by apply Z.ltb_lt.
  - intros a w' Hw'. destruct (resetLease_spec t e h ids W a w' He Hw') as (w0 & Hw0 & Hm & _). eauto.
Qed.

(** One queue of the heartbeater. *)
Lemma extendQueue_spec (sy : System) t h W db L R e W' db' :
  local_clock sy t -> collected t h W e -> rdb_rep db L -> WInv (sy_now sy) db L W R ->
  extendQueue t h (W, db) e = (W', db') ->
  still_running t W W' /\ exists L', rdb_rep db' L' /\ WInv (sy_now sy) db' L' W' R.
Proof using All.
  destruct e as [q ids]. intros Hc [Hne Hcol] HR [Hb Hh Ha]. cbn [fst snd] in *. unfold extendQueue.
  destruct (ExtendLease_spec t q ids db L HR Hne) as (db1 & L1 & Hrun & HR1 & HL & Hl1 & Hl2).
  cbn [b_ExtendLease rdb_broker fst snd]. rewrite Hrun. intros [= <- <-].
  set (e := t + LeaseDuration) in *. assert (Het : t < e) by (unfold e, LeaseDuration, Second; lia).
  assert (He : sy_now sy - skew + LeaseDuration <= e <= sy_now sy + skew + LeaseDuration)
    by (unfold e, local_clock in *; lia).
  split; [by apply resetLease_running|]. exists L1. split; [done|].
  assert (Hback : forall a w', fold_left (resetLease t e h) ids W !! a = Some w' ->
    exists w, W !! a = Some w /\ w_msg w' = w_msg w /\ (alive (sy_now sy) w' -> alive (sy_now sy) w) /\
      (((exists id, id ∈ ids /\ hb_workers h !! id = Some a) /\ lease_expireAt (w_lease w') = e) \/
       lease_expireAt (w_lease w') = lease_expireAt (w_lease w))).
  { intros a w' Hw'. destruct (resetLease_spec t e h ids W a w' Het Hw') as (w & Hw & Hm & Hcase).
    exists w. split; [done|]. split; [done|]. destruct Hcase as [[[Hv Hin] Hexp]|[_ Hexp]].
    - split; [intros _; by eapply valid_alive|by left].
    - split; [unfold alive; by rewrite Hexp|by right]. }
  split.
  - intros a w' Hw'. destruct (Hback a w' Hw') as (w & Hw & _ & _ & [[_ ->]| ->]); [lia|by apply (Hb a)].
  - intros a w' Hw' Hrn Hal. destruct (Hback a w' Hw') as (w & Hw & Hm & Hal0 & Hcase).
    destruct (Hh a w Hw Hrn (Hal0 Hal)) as [Hact (s & Hs & Hle)]. specialize (Hb a w Hw).
    unfold holds. rewrite Hm, HL. split; [done|].
    destruct (decide (Queue (w_msg w) = q /\ ID (w_msg w) ∈ ids)) as [[Hq Hid]|Hout].
    + exists (Unix e). split; [rewrite Hq in *; by apply Hl1|]. apply Z.div_le_mono; [done|].
      destruct Hcase as [[_ ->]| ->]; lia.
    + destruct Hcase as [[(id & Hid & Hhid) _]| ->].
      * exfalso. destruct (Hcol id Hid) as (b & w0 & Hb0 & Hw0 & Hq0 & Hi0 & _). apply Hout.
        assert (w0 = w) as -> by congruence. split; [done|]. by rewrite Hi0.
      * exists s. by rewrite (Hl2 _ _ _ Hout).
  - intros a b w1 w2 H1 H2 Hr1 Hr2 Hab Hal1 Hal2.
    destruct (Hback a w1 H1) as (v1 & Hv1 & Hm1 & Hal1' & _), (Hback b w2 H2) as (v2 & Hv2 & Hm2 & Hal2' & _).
    unfold same_task. rewrite Hm1, Hm2. by apply (Ha a b); auto.
Qed.

Lemma extendQueues_spec (sy : System) t h R (es : list (gostring * list gostring)) : forall W db L W' db',
  local_clock sy t -> (forall e, e ∈ es -> collected t h W e) ->
  rdb_rep db L -> WInv (sy_now sy) db L W R ->
  fold_left (extendQueue t h) es (W, db) = (W', db') ->
  still_running t W W' /\ exists L', rdb_rep db' L' /\ WInv (sy_now sy) db' L' W' R.
Proof using All.
  induction es as [|e es IH]; intros W db L W' db' Hc Hcol HR HW Hrun.
  - injection Hrun as <- <-. split; [reflexivity|]. eauto.
  - cbn [fold_left] in Hrun. destruct (extendQueue t h (W, db) e) as [W1 db1] eqn:He.
    destruct (extendQueue_spec sy t h W db L R e W1 db1) as (Hr1 & L1 & HR1 & HW1); [done| |done..|].
    { apply Hcol, list_elem_of_here. }
    destruct (IH W1 db1 L1 W' db') as (Hr2 & ?); [done| |done..|].
    { intros e' He'. eapply collected_running; [exact Hr1|]. by apply Hcol, list_elem_of_further. }
    split; [by etransitivity|done].
Qed.

Lemma same_rep db db' L : db_queues db' = db_queues db -> rdb_rep db L -> rdb_rep db' L.
Proof using.
  intros Hq [HD Hw]. assert (Hqo : forall q, queue_of q db' = queue_of q db)
    by (intros q; unfold queue_of; by rewrite Hq).
  split; [intros q; rewrite Hqo; apply HD|]. intros q id b. rewrite Hqo. apply Hw.
Qed.

Lemma WInv_queues now db db' L W R : db_queues db' = db_queues db -> WInv now db L W R -> WInv now db' L W R.
Proof using.
  intros Hq HW. eapply WInv_frame; [exact HW|]. intros a w _ _ _ _. split; [done|].
  intros t. unfold leased, queue_of. by rewrite Hq.
Qed.

Lemma WInv_beat (sy : System) t status h next L W' db' :
  rdb_rep (sy_db sy) L -> WInv (sy_now sy) (sy_db sy) L (sy_workers sy) (sy_running sy) -> local_clock sy t ->
  known (sy_workers sy) next h -> beat t status h (sy_workers sy) (sy_db sy) = (W', db') ->
  still_running t (sy_workers sy) W' /\
  exists L', rdb_rep db' L' /\ WInv (sy_now sy) db' L' W' (sy_running sy).
Proof using All.
  intros HR HW Hc Hk. unfold beat.
  pose proof (collectIds_spec t h (sy_workers sy) next (map_to_list (hb_workers h)) (sy_workers sy) [] ∅ Hk) as Hcol.
  destruct (fold_left (collectIds t h) _ _) as [[W1 ws] m]. set (db1 := (b_WriteServerState _ _ _ _ _).2).
  assert (Hq : db_queues db1 = db_queues (sy_db sy)) by apply WriteServerState_queues. intros Hrun.
  destruct Hcol as [Hv Hm]; [by intros [x y]; rewrite elem_of_map_to_list|done|apply map_Forall_empty|].
  destruct (extendQueues_spec sy t h (sy_running sy) (map_to_list m) W1 db1 L W' db') as [Hr ?];
    [done| |by eapply same_rep| |done|].
  - intros [q ids] He%elem_of_map_to_list. eapply collected_view; [symmetry; exact Hv|]. by apply (Hm q ids).
  - eapply WInv_queues; [exact Hq|]. by eapply WInv_view.
  - split; [|done]. etransitivity; [|exact Hr]. split.
    + intros a w Hw. destruct (lookup_view W1 _ a w Hv Hw) as (w1 & Hw1 & [= Hmsg Hexp]). exists w1.
      split; [done|]. split; [done|]. unfold Lease_IsValid. by rewrite Hexp.
    + intros a w1 Hw1. destruct (lookup_view _ W1 a w1 (eq_sym Hv) Hw1) as (w & Hw & [= Hmsg Hexp]). by exists w.
Qed.

(** ** Every step *)

Lemma known_sub (W W' : heap) next next' h :
  (next <= next')%nat -> (forall a w', (a < next)%nat -> W' !! a = Some w' ->
     exists w, W !! a = Some w /\ w_msg w' = w_msg w) ->
  known W next h -> known W' next' h.
Proof using.
  intros Hle Hsub Hk id a Ha. destruct (Hk id a Ha) as [Hlt Hid]. split; [lia|]. intros w' Hw'.
  destruct (Hsub a w' Hlt Hw') as (w & Hw & ->). by apply Hid.
Qed.

(** A heartbeater is replaced by one that knows its workers, too. *)
Lemma SInv_with_beat (sy : System) srv h :
  SInv sy -> known (sy_workers sy) (sy_next sy) h -> SInv (with_beat srv h sy).
Proof using.
  intros (HW & Hfresh & Hk) Hh. split; [exact HW|]. split; [exact Hfresh|]. intros srv' h'.
  cbn [sy_beats with_beat sy_workers sy_next]. intros [[_ <-]|[_ Hs]]%lookup_insert_Some; [done|by eapply Hk].
Qed.

(** Only the store and the set of running workers change. *)
Lemma SInv_with_db (sy : System) db R :
  SInv sy -> (exists L, rdb_rep db L /\ WInv (sy_now sy) db L (sy_workers sy) R) ->
  SInv (with_running R (with_db db sy)).
Proof using. intros (_ & Hfresh & Hk) HW. split; [exact HW|]. split; [exact Hfresh|exact Hk]. Qed.

Lemma with_running_same (sy : System) : with_running (sy_running sy) sy = sy.
Proof using. by destruct sy. Qed.

Lemma SInv_take (sy : System) t qnames w db' :
  SInv sy -> local_clock sy t -> exec_take t qnames (sy_db sy) = (Some w, db') ->
  SInv {| sy_now := sy_now sy; sy_db := db'; sy_workers := <[sy_next sy := w]> (sy_workers sy);
          sy_running := {[ sy_next sy ]} ∪ sy_running sy; sy_next := S (sy_next sy); sy_beats := sy_beats sy |}.
Proof using All.
  intros ((L & HR & HW) & Hfresh & Hk) Hc Ht.
  assert (Hn : sy_workers sy !! sy_next sy = None).
  { destruct (sy_workers sy !! sy_next sy) eqn:Hx; [|done].
    assert (Hlt : (sy_next sy < sy_next sy)%nat) by (apply Hfresh; by rewrite Hx). lia. }
  split; [by apply (WInv_take sy t qnames L)|]. cbn [sy_workers sy_next sy_beats]. split.
  - intros b [x [[<- _]|[_ Hx]]%lookup_insert_Some]; [lia|].
    assert (Hlt : (b < sy_next sy)%nat) by (apply Hfresh; by rewrite Hx). lia.
  - intros srv h Hs. eapply (known_sub (sy_workers sy) _ (sy_next sy)); [lia| |by eapply Hk].
    intros b w' Hlt [[<- _]|[_ Hx]]%lookup_insert_Some; [lia|]. by exists w'.
Qed.

Lemma SInv_step (sy sy' : System) : SInv sy -> step sy sy' -> SInv sy'.
Proof using All.
  intros HS. pose proof HS as ((L & HR & HW) & Hfresh & Hk).
  intros [t Ht|t op Hc Hop|t qnames db' Hc Ht|t qnames w db' Hc Ht|t a w e Hc Hrun Ha|a
    |srv h Hh|srv h a w Hs Ha|srv h msg Hs|srv h status t W db' Hc Hs Hb|srv h Hs|t qnames Hc].
  - split; [|by split]. exists L. split; [done|]. by eapply WInv_later.
  - rewrite <- (with_running_same (with_db _ _)). apply SInv_with_db; [done|].
    destruct (other_untouched t op _ L Hop HR) as (L' & HR' & Hu). exists L'.
    split; [done|]. eapply WInv_frame; [exact HW|]. intros b w Hw Hrun Hal [Hact _]. by apply Hu.
  - rewrite <- (with_running_same (with_db _ _)). apply SInv_with_db; [done|].
    pose proof (take_spec t qnames _ L None db' HR Ht) as Hsame. exists L.
    split; [eapply rdb_rep_same; [exact Hsame|done]|]. eapply WInv_frame; [exact HW|]. intros b w Hw Hrun Hal _.
    split; [done|]. intros s. unfold leased. destruct Hsame as (Hq & _). by rewrite Hq.
  - by eapply SInv_take.
  - apply SInv_with_db; [done|]. by apply (WInv_finish sy t L).
  - apply (SInv_with_db sy (sy_db sy)); [done|]. exists L. split; [done|]. by apply WInv_ended.
  - apply SInv_with_beat; [done|]. intros id a. by rewrite Hh.
  - apply SInv_with_beat; [done|]. intros id b. cbn [h_starting set_workers hb_workers].
    intros [[<- <-]|[_ Hx]]%lookup_insert_Some; [|by apply (Hk srv h Hs)].
    split; [apply Hfresh; by rewrite Ha|]. intros w' Hw'. congruence.
  - apply SInv_with_beat; [done|]. intros id b. cbn [h_finished set_workers hb_workers].
    intros [_ Hx]%lookup_delete_Some. by apply (Hk srv h Hs).
  - destruct (WInv_beat sy t status h (sy_next sy) L W db' HR HW Hc (Hk srv h Hs) Hb) as [[_ Hr] HW'].
    split; [exact HW'|]. split.
    + intros b [x Hx]. destruct (Hr b x Hx) as (w & Hw & _). apply Hfresh. by rewrite Hw.
    + intros srv' h' Hs'. eapply known_sub; [done| |by eapply Hk]. eauto.
  - rewrite <- (with_running_same (with_db _ _)). apply SInv_with_db; [done|]. exists L.
    pose proof (ClearServerState_queues (hb_host h) (hb_pid h) (hb_serverID h) (sy_db sy)) as Hq.
    split; [by eapply same_rep|by eapply WInv_queues].
  - rewrite <- (with_running_same (with_db _ _)). apply SInv_with_db; [done|]. by apply (WInv_recover sy t qnames L).
Qed.

Lemma SInv_reachable (sy : System) : sys_reachable sy -> SInv sy.
Proof using All.
  induction 1 as [now|sy sy' _ IH Hs]; [|by eapply SInv_step].
  split; [|split].
  - exists (fun _ _ => None). split; [split; [apply DInv_empty|done]|]. by split.
  - intros a [x Hx]. done.
  - intros srv h Hs. done.
Qed.

(** C13: in every reachable system of servers, clients, operators and crashes, whatever the order of their
    rounds, with local clocks at most 7.25 seconds apart from the common time: a running worker that
    finds its lease valid works on a task that is active in the store, and no two such workers have
    the same task; so no other worker can start or settle a task while its worker holds a valid
    lease. *)
Theorem lease_exclusion (sy : System) :
  sys_reachable sy ->
  (forall t a w, local_clock sy t -> sy_workers sy !! a = Some w -> a ∈ sy_running sy ->
     Lease_IsValid t (w_lease w) = true ->
     ID (w_msg w) ∈ q_active (queue_of (Queue (w_msg w)) (sy_db sy))) /\
  (forall t1 t2 a b w1 w2, local_clock sy t1 -> local_clock sy t2 ->
     sy_workers sy !! a = Some w1 -> sy_workers sy !! b = Some w2 ->
     a ∈ sy_running sy -> b ∈ sy_running sy -> a <> b ->
     Lease_IsValid t1 (w_lease w1) = true -> Lease_IsValid t2 (w_lease w2) = true ->
     ~ (Queue (w_msg w1) = Queue (w_msg w2) /\ ID (w_msg w1) = ID (w_msg w2))).
Proof using All.
  intros Hr. destruct (SInv_reachable sy Hr) as ((L & [HD _] & HW) & _). split.
  - intros t a w Hc Hw Hrun Hv. apply (inv_active _ _ (HD _)).
    by destruct (wi_holds _ _ _ _ _ HW a w Hw Hrun (valid_alive sy t w Hc Hv)).
  - intros t1 t2 a b w1 w2 Hc1 Hc2 H1 H2 Hr1 Hr2 Hab Hv1 Hv2.
    apply (wi_alone _ _ _ _ _ HW a b w1 w2 H1 H2 Hr1 Hr2 Hab);
      [by apply (valid_alive sy t1)|by apply (valid_alive sy t2)].
Qed.
End system.

(** ** An example: one worker on task "a", whose lease the heartbeater extends *)

Definition started : System :=
  {| sy_now := 0; sy_db := run_op (OEnqueue (sample_msg "a" 25)) 0 empty_db; sy_workers := ∅;
     sy_running := ∅; sy_next := 0; sy_beats := ∅ |}.

Definition taken : System :=
  {| sy_now := 0; sy_db := (exec_take 0 [str "default"] (sy_db started)).2;
     sy_workers := <[ 0%nat := sample_worker ]> ∅; sy_running := {[ 0%nat ]} ∪ ∅; sy_next := 1; sy_beats := ∅ |}.

Definition sample_heartbeater : heartbeater :=
  {| hb_host := str "host"; hb_pid := 1; hb_serverID := str "s"; hb_interval := 5 * Second;
     hb_concurrency := 10; hb_queues := {[ str "default" := 1 ]}; hb_strictPriority := false;
     hb_started := 0; hb_workers := ∅ |}.

Definition beating : System :=
  {| sy_now := 20 * Second; sy_db := sy_db taken; sy_workers := sy_workers taken;
     sy_running := sy_running taken; sy_next := 1;
     sy_beats := <[ 0%nat := h_starting 0 sample_worker sample_heartbeater ]>
                   (<[ 0%nat := sample_heartbeater ]> ∅) |}.

Definition beat_result :=
  beat (20 * Second) (str "active") (h_starting 0 sample_worker sample_heartbeater) (sy_workers beating)
    (sy_db beating).

Definition extended : System := with_workers beat_result.1 (with_db beat_result.2 beating).

Lemma taken_reachable : sys_reachable no_delay always_failure (7 * Second) taken.
Proof.
  eapply sys_step with (sy := started).
  - eapply sys_step; [apply (sys_init _ _ _ 0)|].
    eapply (step_other _ _ _ (Build_System 0 empty_db ∅ ∅ 0 ∅) 0 (OEnqueue (sample_msg "a" 25))); [|reflexivity].
    split; vm_compute; discriminate.
  - apply (step_take _ _ _ started 0 [str "default"] sample_worker); [split; vm_compute; discriminate|].
    assert (Hw : (exec_take 0 [str "default"] (sy_db started)).1 = Some sample_worker)
      by (vm_compute; reflexivity).
    rewrite <- Hw. apply surjective_pairing.
Qed.

Lemma extended_reachable : sys_reachable no_delay always_failure (7 * Second) extended.
Proof.
  eapply sys_step; [eapply sys_step; [eapply sys_step; [eapply sys_step; [exact taken_reachable|]|]|]|].
  - apply (step_time _ _ _ _ (20 * Second)). vm_compute. discriminate.
  - by apply (step_server _ _ _ _ 0 sample_heartbeater).
  - apply (step_starting _ _ _ _ 0 sample_heartbeater 0 sample_worker); reflexivity.
  - apply (step_beat _ _ _ beating 0 (h_starting 0 sample_worker sample_heartbeater) (str "active") (20 * Second));
      [split; vm_compute; discriminate|reflexivity|]. apply surjective_pairing.
Qed.

(** Past the end of the first lease, the extended lease keeps the task active. *)
Lemma lease_exclusion_witness :
  exists w, sy_workers extended !! 0%nat = Some w /\ lease_expireAt (w_lease w) = 50 * Second /\
    (str "a" ∈ q_active (queue_of (str "default") (sy_db extended))).
Proof.
  destruct (lease_exclusion no_delay always_failure (7 * Second) field_sendable
    ltac:(split; vm_compute; discriminate) extended extended_reachable) as [H1 _].
  exists (set_lease (NewLease (50 * Second)) sample_worker). split; [vm_compute; reflexivity|].
  split; [reflexivity|].
  apply (H1 (20 * Second) 0%nat (set_lease (NewLease (50 * Second)) sample_worker));
    [split; vm_compute; discriminate|vm_compute; reflexivity| |vm_compute; reflexivity].
  apply elem_of_union_l, elem_of_singleton_2. reflexivity.
Defined.
