(* ===== verification/AsynqMux.v ===== *)
(** The multiplexer of task handlers (servemux.go): a task goes to the handler of the longest registered
    pattern that its type name begins with, wrapped in the middlewares.

    A handler is what its run makes of a task ([R] stands for the run: effects, error or panic); a nil
    handler is [None].  The patterns are kept in a map, for exact matches, and in a slice sorted by
    decreasing length in bytes, in which [appendSorted] inserts by binary search ([sort.Search]). *)
From stdpp Require Import base gmap list strings numbers option.
From S2P Require Import Prelude.
From S2P Require Import AsynqBase.
From S2P Require Import AsynqClient.

(** ** The standard library: [len], [strings.HasPrefix], [sort.Search] *)

Definition len (s : gostring) : Z := Z.of_nat (length (bytes_of s)).

Definition HasPrefix (s prefix : gostring) : bool := bool_decide (take (length prefix) s = prefix).

Fixpoint Search_loop (fuel : nat) (i j : nat) (f : nat -> bool) : nat :=
  match fuel with
  | O => i
  | S fuel =>
      if (i <? j)%nat then
        let h := ((i + j) / 2)%nat in
        if negb (f h) then Search_loop fuel (S h) j f else Search_loop fuel i h f
      else i
  end.
Definition Search (n : nat) (f : nat -> bool) : nat := Search_loop n 0 n f.

Section mux.
Context {R : Type}.

(** The run that does nothing but return an error (a format and its argument), and the panic of a nil handler. *)
Context (Errorf : gostring -> gostring -> R) (nil_dereference : R).

Definition Handler : Type := Task -> R.
Definition MiddlewareFunc : Type := option Handler -> option Handler.

Record muxEntry := { h : Handler; pattern : gostring }.

Record ServeMux := { m : gmap gostring muxEntry; es : list muxEntry; mws : list MiddlewareFunc }.

Definition NewServeMux : ServeMux := {| m := ∅; es := []; mws := [] |}.

Definition NotFound : Handler := fun task => Errorf (str "handler not found for task %q") (typename task).
Definition NotFoundHandler : option Handler := Some NotFound.

(** [match]: the exact pattern, or the first entry of the slice that is a prefix. *)
Definition mux_match (mux : ServeMux) (typename : gostring) : option (Handler * gostring) :=
  match m mux !! typename with
  | Some v => Some (h v, pattern v)
  | None => (fun e => (h e, pattern e)) <$> List.find (fun e => HasPrefix typename (pattern e)) (es mux)
  end.

(** [Handler]: the middlewares wrap from the last to the first. *)
Definition mux_Handler (mux : ServeMux) (t : Task) : option Handler * gostring :=
  let '(h, pattern) := match mux_match mux (typename t) with
                       | Some (h, pattern) => (Some h, pattern)
                       | None => (NotFoundHandler, [])
                       end in
  (fold_left (fun h mw => mw h) (rev (mws mux)) h, pattern).

Definition ProcessTask (mux : ServeMux) (task : Task) : R :=
  match (mux_Handler mux task).1 with Some h => h task | None => nil_dereference end.

Definition appendSorted (es : list muxEntry) (e : muxEntry) : list muxEntry :=
  let n := length es in
  let i := Search n (fun i => match es !! i with Some x => len (pattern x) <? len (pattern e) | None => false end) in
  if (i =? n)%nat then es ++ [e] else take i es ++ e :: drop i es.

Definition Handle (mux : ServeMux) (pattern : gostring) (handler : option Handler) : outcome goerror ServeMux :=
  if is_blank pattern then Panic (str "asynq: invalid pattern")
  else match handler with
  | None => Panic (str "asynq: nil handler")
  | Some handler =>
      match m mux !! pattern with
      | Some _ => Panic (str "asynq: multiple registrations for " ++ pattern)
      | None =>
          let e := {| h := handler; pattern := pattern |} in
          Ok {| m := <[pattern := e]> (m mux); es := appendSorted (es mux) e; mws := mws mux |}
      end
  end.

(** [HandleFunc] checks the function before the pattern. *)
Definition HandleFunc (mux : ServeMux) (pattern : gostring) (handler : option Handler) : outcome goerror ServeMux :=
  match handler with
  | None => Panic (str "asynq: nil handler")
  | Some _ => Handle mux pattern handler
  end.

Definition Use (mux : ServeMux) (ms : list MiddlewareFunc) : ServeMux :=
  {| m := m mux; es := es mux; mws := mws mux ++ ms |}.

(** ** The binary search *)

Lemma Search_loop_spec f n : forall fuel i j,
  (j - i <= fuel)%nat -> (i <= j <= n)%nat ->
  (forall a b, (a <= b < n)%nat -> f a = true -> f b = true) ->
  (forall k, (k < i)%nat -> f k = false) -> (forall k, (j <= k < n)%nat -> f k = true) ->
  let r := Search_loop fuel i j f in
  (r <= n)%nat /\ (forall k, (k < r)%nat -> f k = false) /\ (forall k, (r <= k < n)%nat -> f k = true).
Proof using.
  induction fuel as [|fuel IH]; intros i j Hf Hij Hmono Hlo Hhi; cbn [Search_loop].
  { assert (i = j) as -> by lia. split; [lia|done]. }
  destruct (Nat.ltb_spec i j) as [Hlt|]; [|assert (i = j) as -> by lia; split; [lia|done]].
  pose proof (Nat.div_mod_eq (i + j) 2). pose proof (Nat.mod_upper_bound (i + j) 2 ltac:(done)).
  set (c := ((i + j) / 2)%nat) in *.
  destruct (f c) eqn:Hc; cbn [negb]; apply IH; try lia; try done.
  - intros k Hk. destruct (decide (j <= k)%nat); [apply Hhi; lia|]. apply (Hmono c); [lia|done].
  - intros k Hk. destruct (decide (k < i)%nat); [by apply Hlo|].
    destruct (f k) eqn:Hfk; [|done]. rewrite (Hmono k c) in Hc; [done|lia|done].
Qed.

Lemma Search_spec f n :
  (forall a b, (a <= b < n)%nat -> f a = true -> f b = true) ->
  (Search n f <= n)%nat /\ (forall k, (k < Search n f)%nat -> f k = false) /\
  (forall k, (Search n f <= k < n)%nat -> f k = true).
Proof using. intros Hmono. apply Search_loop_spec; [lia|lia|done|lia|lia]. Qed.

Lemma HasPrefix_iff s p : HasPrefix s p = true <-> p `prefix_of` s.
Proof using.
  unfold HasPrefix. rewrite bool_decide_eq_true. split.
  - intros <-. exists (drop (length p) s). by rewrite take_drop.
  - intros [k ->]. by rewrite take_app_length.
Qed.

(** Prefixes of one string are ordered by their length, in runes or in bytes. *)
Lemma prefix_len t p q : p `prefix_of` t -> q `prefix_of` t -> len p <= len q <-> (length p <= length q)%nat.
Proof using.
  intros Hp Hq. unfold len.
  assert (Hmono : forall a b, a `prefix_of` b -> (length (bytes_of a) <= length (bytes_of b))%nat)
    by (intros a b [k ->]; rewrite bytes_of_app, length_app; lia).
  assert (Hlen : forall a b, a `prefix_of` b -> (length (bytes_of b) <= length (bytes_of a))%nat -> (length b <= length a)%nat).
  { intros a b [k ->]. rewrite bytes_of_app, !length_app. pose proof (bytes_of_length k). lia. }
  destruct (prefix_weak_total p q t Hp Hq) as [H|H]; pose proof (Hmono _ _ H); pose proof (prefix_length _ _ H);
    split; intros; try lia; apply Nat2Z.inj_le; specialize (Hlen _ _ H); try lia.
  destruct (decide (length (bytes_of p) <= length (bytes_of q))%nat); [done|].
  assert (p = q) as ->; [|done].
  destruct H as [k ->]. rewrite length_app in *. assert (k = []) as -> by (destruct k; [done|cbn in *; lia]).
  by rewrite app_nil_r.
Qed.
(** ** The slice of entries *)

(** Longer patterns before shorter ones. *)
Definition descending (l : list muxEntry) : Prop :=
  forall i j x y, (i <= j)%nat -> l !! i = Some x -> l !! j = Some y -> len (pattern y) <= len (pattern x).

Lemma appendSorted_cut l e : descending l ->
  exists i, (i <= length l)%nat /\ appendSorted l e = take i l ++ e :: drop i l /\
    (forall k x, (k < i)%nat -> l !! k = Some x -> len (pattern e) <= len (pattern x)) /\
    (forall k x, (i <= k)%nat -> l !! k = Some x -> len (pattern x) <= len (pattern e)).
Proof using.
  intros Hd. unfold appendSorted. set (f := fun i => match l !! i with Some x => _ | None => _ end).
  destruct (Search_spec f (length l)) as (Hle & Hlo & Hhi).
  { intros a b Hab. unfold f.
    destruct (lookup_lt_is_Some_2 l a) as [x Hx]; [lia|]. destruct (lookup_lt_is_Some_2 l b) as [y Hy]; [lia|].
    rewrite Hx, Hy. pose proof (Hd a b x y ltac:(lia) Hx Hy). rewrite !Z.ltb_lt. lia. }
  exists (Search (length l) f). split; [done|]. split; [|split].
  - destruct (Nat.eqb_spec (Search (length l) f) (length l)) as [->|]; [|done].
    by rewrite firstn_all, drop_all.
  - intros k x Hk Hx. specialize (Hlo k Hk). unfold f in Hlo. rewrite Hx in Hlo. by apply Z.ltb_ge in Hlo.
  - intros k x Hk Hx. pose proof (lookup_lt_Some _ _ _ Hx). specialize (Hhi k ltac:(lia)). unfold f in Hhi.
    rewrite Hx in Hhi. apply Z.ltb_lt in Hhi. lia.
Qed.

Lemma appendSorted_perm l e : descending l -> Permutation (appendSorted l e) (e :: l).
Proof using.
  intros Hd. destruct (appendSorted_cut l e Hd) as (i & Hi & -> & _).
  rewrite <- (take_drop i l) at 3. symmetry. apply Permutation_middle.
Qed.

Lemma appendSorted_descending l e : descending l -> descending (appendSorted l e).
Proof using.
  intros Hd. destruct (appendSorted_cut l e Hd) as (i & Hi & -> & Hlo & Hhi). intros a b x y Hab.
  assert (Hlk : forall k, (take i l ++ e :: drop i l) !! k =
    if decide (k < i)%nat then l !! k else if decide (k = i) then Some e else l !! (k - 1)%nat).
  { intros k. destruct (decide (k < i)%nat).
    - rewrite lookup_app_l by (rewrite length_take; lia). by rewrite lookup_take_lt.
    - rewrite lookup_app_r by (rewrite length_take; lia). rewrite length_take, Nat.min_l by done.
      destruct (decide (k = i)) as [->|]; [by rewrite Nat.sub_diag|].
      rewrite lookup_cons_ne_0 by lia. rewrite lookup_drop. f_equal. lia. }
  rewrite !Hlk. repeat case_decide; intros Hx Hy; simplify_eq; try lia; try (by eapply Hlo); try (by eapply (Hhi (b - 1)%nat); [lia|]);
    try (eapply Hd; [|done|done]; lia).
Qed.

(** The first entry that is a prefix is a longest one. *)
Lemma find_descending t l e : descending l ->
  List.find (fun e => HasPrefix t (pattern e)) l = Some e ->
  e ∈ l /\ pattern e `prefix_of` t /\
  forall e', e' ∈ l -> pattern e' `prefix_of` t -> (length (pattern e') <= length (pattern e))%nat.
Proof using.
  induction l as [|a l IH]; intros Hd Hf; [done|]. cbn [List.find] in Hf.
  destruct (HasPrefix t (pattern a)) eqn:Ha.
  - simplify_eq. apply HasPrefix_iff in Ha. split; [by constructor|]. split; [done|].
    intros e' [k Hk]%list_elem_of_lookup_1 Hp'. apply (prefix_len t); [done|done|]. by apply (Hd 0%nat k e e'); [lia| |].
  - destruct IH as (He & Hp & Hb); [|done|].
    { intros i j x y Hij. apply (Hd (S i) (S j)). lia. }
    split; [by constructor|]. split; [done|]. intros e' [->|He']%elem_of_cons Hp'; [|by apply Hb].
    apply HasPrefix_iff in Hp'. congruence.
Qed.
(** ** Sequences of calls *)

Inductive mux_call :=
  | CHandle (pattern : gostring) (handler : option Handler)
  | CHandleFunc (pattern : gostring) (handler : option Handler)
  | CUse (ms : list MiddlewareFunc).

Definition recovered (mux : ServeMux) (r : outcome goerror ServeMux) : ServeMux :=
  match r with Ok mux => mux | _ => mux end.

(** A call; when it panics, the multiplexer is as it was. *)
Definition call (mux : ServeMux) (c : mux_call) : ServeMux :=
  match c with
  | CHandle p h => recovered mux (Handle mux p h)
  | CHandleFunc p h => recovered mux (HandleFunc mux p h)
  | CUse ms => Use mux ms
  end.

(** What a program has registered, in order: the first handler of every pattern that is not blank. *)
Definition register (rs : list (gostring * Handler)) (c : mux_call) : list (gostring * Handler) :=
  match c with
  | CHandle p (Some h) | CHandleFunc p (Some h) =>
      if is_blank p || bool_decide (p ∈ rs.*1) then rs else rs ++ [(p, h)]
  | _ => rs
  end.
Definition registered (cs : list mux_call) : list (gostring * Handler) := fold_left register cs [].
Definition used (cs : list mux_call) : list MiddlewareFunc :=
  cs ≫= fun c => match c with CUse ms => ms | _ => [] end.

(** The reference: of the registered patterns that the name begins with, the longest. *)
Definition longer (t : gostring) (best : option (Handler * gostring)) (r : gostring * Handler) : option (Handler * gostring) :=
  let '(p, h) := r in
  if HasPrefix t p && match best with Some (_, q) => (length q <? length p)%nat | None => true end
  then Some (h, p) else best.
Definition longest (t : gostring) (rs : list (gostring * Handler)) : option (Handler * gostring) :=
  fold_left (longer t) rs None.

Definition is_longest (t : gostring) (rs : list (gostring * Handler)) (o : option (Handler * gostring)) : Prop :=
  match o with
  | Some (h, p) => (p, h) ∈ rs /\ p `prefix_of` t /\ forall q g, (q, g) ∈ rs -> q `prefix_of` t -> (length q <= length p)%nat
  | None => forall q g, (q, g) ∈ rs -> ~ q `prefix_of` t
  end.

Lemma longest_spec t rs : is_longest t rs (longest t rs).
Proof using.
  induction rs as [|[p h] rs IH] using rev_ind; [intros q g H; by apply not_elem_of_nil in H|].
  unfold longest in *. rewrite fold_left_app. cbn [fold_left]. unfold longer at 1.
  destruct (fold_left (longer t) rs None) as [[g q]|]; cbn in IH.
  - destruct IH as (Hq & Hp & Hb). destruct (HasPrefix t p) eqn:Ht; cbn [andb].
    + apply HasPrefix_iff in Ht. destruct (Nat.ltb_spec (length q) (length p)); (split; [apply elem_of_app; first [by left|right; by constructor]|split; [done|]]);
        intros q' g' [Hq'|[= -> ->]%list_elem_of_singleton]%elem_of_app Hp'; try done; specialize (Hb _ _ Hq' Hp'); lia.
    + split; [apply elem_of_app; by left|split; [done|]].
      intros q' g' [Hq'|[= -> ->]%list_elem_of_singleton]%elem_of_app Hp'; [by eapply Hb|].
      apply HasPrefix_iff in Hp'. congruence.
  - destruct (HasPrefix t p) eqn:Ht; cbn [andb].
    + apply HasPrefix_iff in Ht. split; [apply elem_of_app; right; by constructor|split; [done|]].
      intros q' g' [Hq'|[= -> ->]%list_elem_of_singleton]%elem_of_app Hp'; [|done]. by destruct (IH _ _ Hq').
    + intros q' g' [Hq'|[= -> ->]%list_elem_of_singleton]%elem_of_app Hp'; [by destruct (IH _ _ Hq')|].
      apply HasPrefix_iff in Hp'. congruence.
Qed.

Lemma is_longest_unique t rs o1 o2 : NoDup rs.*1 -> is_longest t rs o1 -> is_longest t rs o2 -> o1 = o2.
Proof using.
  intros Hnd H1 H2. destruct o1 as [[h1 p1]|], o2 as [[h2 p2]|]; cbn in *.
  - destruct H1 as (Hin1 & Hp1 & Hb1), H2 as (Hin2 & Hp2 & Hb2).
    assert (p1 = p2) as ->.
    { pose proof (Hb1 _ _ Hin2 Hp2). pose proof (Hb2 _ _ Hin1 Hp1).
      destruct Hp1 as [k1 ->], Hp2 as [k2 Hk]. by apply app_inj_1 in Hk as [? ?]; [|lia]. }
    f_equal. f_equal. apply list_elem_of_lookup in Hin1 as [i Hi], Hin2 as [j Hj].
    assert (i = j) as ->; [|congruence].
    eapply NoDup_lookup; [exact Hnd| |]; rewrite list_lookup_fmap; [by rewrite Hi|by rewrite Hj].
  - destruct H1 as (Hin & Hp & _). by destruct (H2 _ _ Hin).
  - destruct H2 as (Hin & Hp & _). by destruct (H1 _ _ Hin).
  - done.
Qed.

(** The invariant: map and slice hold the registered handlers. *)
Definition entry (r : gostring * Handler) : muxEntry := {| h := r.2; pattern := r.1 |}.
Record mux_inv (mux : ServeMux) (rs : list (gostring * Handler)) : Prop := {
  mi_nodup : NoDup rs.*1;
  mi_es : Permutation (es mux) (entry <$> rs);
  mi_desc : descending (es mux);
  mi_map : forall p e, m mux !! p = Some e <-> pattern e = p /\ e ∈ entry <$> rs
}.

Lemma entry_elem e (rs : list (gostring * Handler)) : e ∈ entry <$> rs <-> (pattern e, h e) ∈ rs.
Proof using.
  rewrite list_elem_of_fmap. split; [intros ([p g] & -> & Hin); done|]. intros Hin. exists (pattern e, h e). by destruct e.
Qed.

Lemma mux_inv_none mux rs p : mux_inv mux rs -> m mux !! p = None <-> p ∉ rs.*1.
Proof using.
  intros Hi. split.
  - intros Hn Hin. apply list_elem_of_fmap in Hin as ([q g] & -> & Hin).
    assert (m mux !! q = Some (entry (q, g))); [|cbn in *; congruence].
    apply (mi_map _ _ Hi). split; [done|]. by apply entry_elem.
  - intros Hnin. destruct (m mux !! p) as [e|] eqn:He; [|done]. apply (mi_map _ _ Hi) in He as [<- He].
    apply entry_elem in He. destruct Hnin. apply list_elem_of_fmap. by exists (pattern e, h e).
Qed.

Lemma Handle_inv mux rs p g : mux_inv mux rs -> is_blank p = false -> m mux !! p = None ->
  exists mux', Handle mux p (Some g) = Ok mux' /\ mux_inv mux' (rs ++ [(p, g)]) /\ mws mux' = mws mux.
Proof using.
  intros Hi Hb Hn. unfold Handle. rewrite Hb, Hn. eexists. split; [done|]. split; [|done].
  pose proof (proj1 (mux_inv_none _ _ _ Hi) Hn) as Hnin. pose proof (mi_desc _ _ Hi) as Hd. split; cbn [m es].
  - rewrite fmap_app. apply list.NoDup_app. split; [apply Hi|]. split; [|apply NoDup_singleton]. by intros q Hq ->%list_elem_of_singleton.
  - rewrite appendSorted_perm by done. rewrite fmap_app, (mi_es _ _ Hi). apply Permutation_cons_append.
  - by apply appendSorted_descending.
  - intros q e. rewrite fmap_app, elem_of_app. destruct (decide (q = p)) as [->|Hne].
    + rewrite lookup_insert_eq. split; [intros [= <-]; split; [done|]; right; by constructor|].
      intros [Hp [He|He%list_elem_of_singleton]]; [|by rewrite He]. apply entry_elem in He. destruct Hnin.
      apply list_elem_of_fmap. exists (pattern e, h e). by rewrite <- Hp.
    + rewrite lookup_insert_ne by done. rewrite (mi_map _ _ Hi q e). split; [intros [? ?]; split; [done|by left]|].
      intros [Hp [He|He%list_elem_of_singleton]]; [done|]. rewrite He in Hp. by destruct Hne.
Qed.
Lemma call_inv mux rs c : mux_inv mux rs ->
  mux_inv (call mux c) (register rs c) /\ mws (call mux c) = mws mux ++ used [c].
Proof using.
  assert (Hh : forall p g, mux_inv mux rs ->
    mux_inv (recovered mux (Handle mux p (Some g))) (if is_blank p || bool_decide (p ∈ rs.*1) then rs else rs ++ [(p, g)]) /\
    mws (recovered mux (Handle mux p (Some g))) = mws mux ++ []).
  { intros p g Hi. rewrite app_nil_r. destruct (is_blank p) eqn:Hb; [unfold Handle; by rewrite Hb|]. cbn [orb].
    case_bool_decide as Hin.
    - unfold Handle. rewrite Hb. destruct (m mux !! p) eqn:Hm; [done|]. by apply (mux_inv_none _ _ _ Hi) in Hm.
    - destruct (Handle_inv mux rs p g Hi Hb) as (mux' & -> & Hi' & Hw); [by apply (mux_inv_none _ _ _ Hi)|done]. }
  intros Hi. destruct c as [p [g|]|p [g|]|ms]; cbn [call register used mbind list_bind].
  - by apply Hh.
  - rewrite app_nil_r. unfold Handle. by destruct (is_blank p).
  - by apply Hh.
  - by rewrite app_nil_r.
  - rewrite app_nil_r. split; [|done]. by destruct Hi.
Qed.

Lemma calls_inv cs : forall mux rs, mux_inv mux rs ->
  mux_inv (fold_left call cs mux) (fold_left register cs rs) /\ mws (fold_left call cs mux) = mws mux ++ used cs.
Proof using.
  induction cs as [|c cs IH]; intros mux rs Hi; cbn [fold_left]; [by rewrite app_nil_r|].
  destruct (call_inv mux rs c Hi) as [Hi1 Hw1]. destruct (IH _ _ Hi1) as [Hi2 Hw2]. split; [done|].
  rewrite Hw2, Hw1, <- app_assoc. f_equal. unfold used. by rewrite <- bind_app.
Qed.

Lemma mux_match_longest mux rs t : mux_inv mux rs -> mux_match mux t = longest t rs.
Proof using.
  intros Hi. apply (is_longest_unique t rs); [apply Hi| |apply longest_spec]. unfold mux_match.
  destruct (m mux !! t) as [e|] eqn:Hm.
  - apply (mi_map _ _ Hi) in Hm as [Hp He]. apply entry_elem in He. cbn. rewrite Hp in *.
    split; [done|]. split; [done|]. intros q g _ Hq. by apply prefix_length.
  - destruct (List.find _ (es mux)) as [e|] eqn:Hf; cbn.
    + apply find_descending in Hf as (He & Hp & Hb); [|apply Hi]. rewrite (mi_es _ _ Hi) in He.
      split; [by apply entry_elem|]. split; [done|]. intros q g Hq Hqt. apply (Hb (entry (q, g))); [|done].
      rewrite (mi_es _ _ Hi). by apply entry_elem.
    + intros q g Hq Hqt. assert (Hin : entry (q, g) ∈ es mux) by (rewrite (mi_es _ _ Hi); by apply entry_elem).
      apply list_elem_of_In, (List.find_none _ _ Hf) in Hin. apply HasPrefix_iff in Hqt. cbn in Hin. congruence.
Qed.

Lemma NewServeMux_inv : mux_inv NewServeMux [].
Proof using.
  split; cbn; [constructor|done|by intros i j x y _ H|].
  intros p e. rewrite lookup_empty. split; [done|]. intros [_ H]. by apply not_elem_of_nil in H.
Qed.
End mux.

(** C26: After any sequence of [Handle], [HandleFunc] and [Use] calls (a call that panics changes nothing),
    the map, the sorted slice and the binary search together choose, for every task type, the longest of
    the registered patterns that the type name begins with, and the not-found handler when there is
    none; the chosen handler is wrapped in the middlewares in the order of their registration,
    the first outermost. *)
Theorem mux_longest_pattern {R} (Errorf : gostring -> gostring -> R) (cs : list mux_call) (t : Task) :
  mux_Handler Errorf (fold_left call cs NewServeMux) t =
    let '(h, pattern) := match longest (typename t) (registered cs) with
                         | Some (h, pattern) => (Some h, pattern)
                         | None => (Some (NotFound Errorf), [])
                         end in
    (foldr (fun mw h => mw h) h (used cs), pattern).
Proof.
  destruct (calls_inv cs NewServeMux [] NewServeMux_inv) as [Hi Hw]. unfold mux_Handler.
  rewrite (mux_match_longest _ _ _ Hi), Hw. unfold registered. cbn [app mws NewServeMux].
  destruct (longest _ _) as [[h p]|]; by rewrite <- fold_left_rev_right, rev_involutive.
Qed.

(** A registration fails exactly for a blank pattern, a nil handler or a pattern that has a handler. *)
Theorem Handle_panics_iff {R} (cs : list (mux_call (R := R))) p h :
  let mux := fold_left call cs NewServeMux in
  (exists msg, Handle mux p h = Panic msg) <-> is_blank p = true \/ h = None \/ p ∈ (registered cs).*1.
Proof.
  cbv zeta. destruct (calls_inv cs NewServeMux [] NewServeMux_inv) as [Hi _]. set (mux := fold_left _ _ _) in *.
  unfold Handle. destruct (is_blank p) eqn:Hb; [split; [by left|by eexists]|].
  destruct h as [g|]; [|split; [by right; left|by eexists]]. destruct (m mux !! p) eqn:Hm.
  - split; [|by eexists]. intros _. right. right. destruct (decide (p ∈ (registered cs).*1)) as [|Hn]; [done|].
    apply (mux_inv_none _ _ _ Hi) in Hn. congruence.
  - apply (mux_inv_none _ _ _ Hi) in Hm. split; [by intros [msg ?]|]. by intros [?|[?|?]].
Qed.
