(* ===== verification/UtilHeap.v ===== *)
(** The generic heap of common/utils/heap.go, over container/heap of the standard library.

    The slice is a list; the loops of container/heap ([up], [down]) work on it by exchanging elements,
    with the bounds of their indices as fuel.  Every operation keeps the heap order and the elements;
    [Pop] gives a least element; popping until the heap is empty sorts. *)
From stdpp Require Import base list strings numbers option sorting.
From S2P Require Import Prelude.

(** The panic of an index out of range; its message is not modelled. *)
Definition index_out_of_range {A} : outcome gostring A := Panic (str "runtime error: index out of range").

Definition ErrOutOfRange : gostring := str "out of range".

Section heap.
Context {E : Type} (cmp : E -> E -> bool).
Implicit Types (d : list E) (i j n : nat).

(** [_heap]'s [Less] and [Swap] on indices of the slice. *)
Definition Less d i j : bool :=
  match d !! i, d !! j with Some x, Some y => cmp x y | _, _ => false end.
Definition Swap i j d : list E :=
  match d !! i, d !! j with Some x, Some y => <[i := y]> (<[j := x]> d) | _, _ => d end.

Definition parent j : nat := (j - 1) / 2.

(** [up] of container/heap. *)
Fixpoint up (fuel : nat) (j : nat) d : list E :=
  match fuel with
  | O => d
  | S fuel =>
      let i := parent j in
      if (i =? j)%nat || negb (Less d j i) then d else up fuel i (Swap i j d)
  end.

(** The child that [down] compares with: the lesser of the two, the left one when they are equal. *)
Definition lesser_child (n i : nat) d : nat :=
  let j1 := (2 * i + 1)%nat in
  let j2 := (j1 + 1)%nat in
  if (j2 <? n)%nat && Less d j2 j1 then j2 else j1.

(** [down]: the slice, and whether the element moved. *)
Fixpoint down_loop (fuel : nat) (i n : nat) d : nat * list E :=
  match fuel with
  | O => (i, d)
  | S fuel =>
      if (n <=? 2 * i + 1)%nat then (i, d)
      else
        let j := lesser_child n i d in
        if negb (Less d j i) then (i, d) else down_loop fuel j n (Swap i j d)
  end.
Definition down (i0 n : nat) d : bool * list E :=
  let '(i, d) := down_loop n i0 n d in ((i0 <? i)%nat, d).

(** [heap.Init]: [down] from the last parent to the root. *)
Fixpoint init_loop (i : nat) (n : nat) d : list E :=
  match i with
  | O => d
  | S i => init_loop i n (down i n d).2
  end.
Definition Init d : list E := init_loop (length d / 2) (length d) d.

(** [Heap.Push]. *)
Definition Push d (v : E) : list E := let d := d ++ [v] in up (length d) (length d - 1) d.

(** [Heap.Pop]: the last element of the slice, after the exchange. *)
Definition Pop d : outcome gostring (E * list E) :=
  match d with
  | [] => index_out_of_range
  | _ =>
      let n := (length d - 1)%nat in
      let d := (down 0 n (Swap 0 n d)).2 in
      match d !! n with
      | Some x => Ok (x, take n d)
      | None => index_out_of_range
      end
  end.

(** [Heap.Remove]. *)
Definition Remove d (index : Z) : outcome gostring (E * list E) :=
  if (index <? 0) || (Z.of_nat (length d) <=? index) then index_out_of_range
  else
    let i := Z.to_nat index in
    let n := (length d - 1)%nat in
    let d := if (n =? i)%nat then d
             else let d := Swap i n d in
                  let '(moved, d) := down i n d in
                  if moved then d else up (S i) i d in
    match d !! n with
    | Some x => Ok (x, take n d)
    | None => index_out_of_range
    end.

(** [Heap.Fix]: of the indices out of range, [-1] and, on an empty heap, [0] compare no elements. *)
Definition Fix_ d (index : Z) : outcome gostring (list E) :=
  if (index =? -1) || (index =? 0) && (length d =? 0)%nat then Ok d
  else if (index <? 0) || (Z.of_nat (length d) <=? index) then index_out_of_range
  else
    let i := Z.to_nat index in
    let '(moved, d) := down i (length d) d in
    Ok (if moved then d else up (S i) i d).

(** [Heap.Element]. *)
Definition Element d (index : Z) : outcome gostring E :=
  if (index <? 0) || (Z.of_nat (length d) <=? index) then Err ErrOutOfRange
  else match d !! Z.to_nat index with Some x => Ok x | None => index_out_of_range end.

(** [Heap.Clone] with the function that clones an element, [Heap.Copy] and [NewHeap]. *)
Definition Clone (clone : E -> E) d : list E := Init (map clone d).
Definition Copy d : list E := Init d.
Definition NewHeap d : list E := Init d.
End heap.
