(* ===== verification/UtilHeapSpec.v ===== *)
(** The heap keeps its order and its elements. *)
From stdpp Require Import base list strings numbers option sorting.
From S2P Require Import Prelude.
From S2P Require Import UtilHeap.

(** What the comparison function has to be: a strict weak order. *)
Class StrictWeak {E} (cmp : E -> E -> bool) := {
  cmp_asym : forall x y, cmp x y = true -> cmp y x = false;
  cmp_trans : forall x y z, cmp y x = false -> cmp z y = false -> cmp z x = false
}.

Section spec.
Context {E : Type} (cmp : E -> E -> bool).
Implicit Types (d : list E) (i j n k m : nat).

(** The element at [p] is not greater than the one at [m]. *)
Definition le_at d p m : Prop := forall x y, d !! p = Some x -> d !! m = Some y -> cmp y x = false.

(** The order of the first [n] elements, for parents from [k] on; and with the children of a position, or
    the position itself, left out. *)
Definition heap_from k n d : Prop :=
  forall m, (0 < m < n)%nat -> (k <= parent m)%nat -> le_at d (parent m) m.
Definition is_heap d : Prop := heap_from 0 (length d) d.

Definition hole_down k n i d : Prop :=
  (forall m, (0 < m < n)%nat -> (k <= parent m)%nat -> parent m <> i -> m <> i -> le_at d (parent m) m) /\
  (forall m, (0 < m < n)%nat -> parent m = i -> (0 < i)%nat -> (k <= parent i)%nat -> le_at d (parent i) m).
Definition hole_up n j d : Prop :=
  (forall m, (0 < m < n)%nat -> m <> j -> le_at d (parent m) m) /\
  (forall m, (0 < m < n)%nat -> parent m = j -> (0 < j)%nat -> le_at d (parent j) m).

Lemma parent_lt m : (0 < m)%nat -> (parent m < m)%nat.
Proof. intros Hm. unfold parent. apply Nat.Div0.div_lt_upper_bound. lia. Qed.

Lemma parent_cases m i : (0 < m)%nat -> parent m = i <-> m = (2 * i + 1)%nat \/ m = (2 * i + 2)%nat.
Proof.
  intros Hm. unfold parent. pose proof (Nat.div_mod_eq (m - 1) 2) as Hd.
  pose proof (Nat.mod_upper_bound (m - 1) 2 ltac:(done)). lia.
Qed.

(** *** Exchanging *)

Lemma Swap_lookup i j d x y m :
  d !! i = Some x -> d !! j = Some y ->
  Swap i j d !! m = if decide (m = i) then Some y else if decide (m = j) then Some x else d !! m.
Proof.
  intros Hi Hj. unfold Swap. rewrite Hi, Hj. pose proof (lookup_lt_Some _ _ _ Hi). pose proof (lookup_lt_Some _ _ _ Hj).
  destruct (decide (m = i)) as [->|]; [by rewrite list_lookup_insert_eq by (by rewrite length_insert)|].
  rewrite list_lookup_insert_ne by congruence. destruct (decide (m = j)) as [->|].
  - by rewrite list_lookup_insert_eq.
  - by rewrite list_lookup_insert_ne by congruence.
Qed.

Lemma Swap_length i j d : length (Swap i j d) = length d.
Proof. unfold Swap. repeat case_match; by rewrite ?length_insert. Qed.

Lemma Swap_perm i j d : Permutation (Swap i j d) d.
Proof.
  unfold Swap. destruct (d !! i) as [x|] eqn:Hi; [|done]. destruct (d !! j) as [y|] eqn:Hj; [|done].
  destruct (decide (i = j)) as [->|Hne].
  - rewrite list_insert_insert_eq. assert (x = y) as -> by congruence. by rewrite list_insert_id.
  - apply Permutation_inj. split; [by rewrite !length_insert|].
    exists (fun m => if decide (m = i) then j else if decide (m = j) then i else m). split.
    + intros a b. repeat case_decide; congruence.
    + intros m. pose proof (Swap_lookup i j d x y m Hi Hj) as Hs. unfold Swap in Hs. rewrite Hi, Hj in Hs.
      rewrite Hs. repeat case_decide; congruence.
Qed.

Lemma up_length fuel j d : length (up cmp fuel j d) = length d.
Proof.
  revert j d. induction fuel as [|f IH]; intros j d; [done|]. cbn [up]. case_match; [done|].
  by rewrite IH, Swap_length.
Qed.
Lemma up_perm fuel j d : Permutation (up cmp fuel j d) d.
Proof.
  revert j d. induction fuel as [|f IH]; intros j d; [done|]. cbn [up]. case_match; [done|].
  by rewrite IH, Swap_perm.
Qed.

Lemma down_loop_length fuel i n d : length (down_loop cmp fuel i n d).2 = length d.
Proof.
  revert i d. induction fuel as [|f IH]; intros i d; [done|]. cbn [down_loop]. repeat case_match; try done;
    by rewrite IH, Swap_length.
Qed.
Lemma down_loop_perm fuel i n d : Permutation (down_loop cmp fuel i n d).2 d.
Proof.
  revert i d. induction fuel as [|f IH]; intros i d; [done|]. cbn [down_loop]. repeat case_match; try done;
    by rewrite IH, Swap_perm.
Qed.

Lemma down_length i n d : length (down cmp i n d).2 = length d.
Proof. unfold down. pose proof (down_loop_length n i n d). by destruct (down_loop _ _ _ _ _). Qed.
Lemma down_perm i n d : Permutation (down cmp i n d).2 d.
Proof. unfold down. pose proof (down_loop_perm n i n d). by destruct (down_loop _ _ _ _ _). Qed.

Lemma lesser_child_bounds n i d :
  (2 * i + 1 < n)%nat -> let j := lesser_child cmp n i d in (i < j < n)%nat /\ parent j = i.
Proof.
  intros Hn. unfold lesser_child. cbv zeta.
  destruct (Nat.ltb_spec (2 * i + 1 + 1) n); [destruct (Less _ _ _ _)|]; cbn [andb];
    (split; [lia|]; apply parent_cases; lia).
Qed.

(** [down] on the first [n] elements leaves the others. *)
Lemma down_loop_outside fuel i n d m :
  (i < n)%nat -> (n <= m)%nat -> (down_loop cmp fuel i n d).2 !! m = d !! m.
Proof.
  revert i d. induction fuel as [|f IH]; intros i d Hi Hm; [done|]. cbn [down_loop].
  destruct (Nat.leb_spec n (2 * i + 1)); [done|].
  destruct (lesser_child_bounds n i d) as [Hj _]; [done|]. set (j := lesser_child cmp n i d) in *.
  destruct (negb _); [done|]. rewrite IH by lia. unfold Swap.
  destruct (d !! i); [|done]. destruct (d !! j); [|done]. by rewrite !list_lookup_insert_ne by lia.
Qed.

Lemma down_outside i n d m : (i < n)%nat -> (n <= m)%nat -> (down cmp i n d).2 !! m = d !! m.
Proof. intros Hi Hm. unfold down. pose proof (down_loop_outside n i n d m Hi Hm). by destruct (down_loop _ _ _ _ _). Qed.

Context `{!StrictWeak cmp}.

Lemma le_at_trans d p m q x : d !! m = Some x -> le_at d p m -> le_at d m q -> le_at d p q.
Proof using All. intros Hm H1 H2 a b Ha Hb. eapply cmp_trans; [by apply (H1 a x)|by apply (H2 x b)]. Qed.

Lemma Less_le d i j : Less cmp d i j = true -> le_at d i j.
Proof using All.
  unfold Less. intros Hl x y Hx Hy. rewrite Hx, Hy in Hl. by apply cmp_asym.
Qed.
Lemma not_Less_le d i j : Less cmp d i j = false -> le_at d j i.
Proof using. unfold Less. intros Hl x y Hx Hy. by rewrite Hx, Hy in Hl. Qed.

Lemma lesser_child_le n i d m :
  (2 * i + 1 < n)%nat -> (0 < m < n)%nat -> parent m = i -> le_at d (lesser_child cmp n i d) m.
Proof using All.
  intros Hn Hm Hp. apply parent_cases in Hp; [|lia]. unfold lesser_child.
  destruct (Nat.ltb_spec (2 * i + 1 + 1) n), (Less cmp d (2 * i + 1 + 1) (2 * i + 1)) eqn:Hl; cbn [andb].
  all: destruct Hp as [->| ->].
  all: try (replace (2 * i + 2)%nat with (2 * i + 1 + 1)%nat in * by lia).
  all: try lia; try (by apply Less_le); try (by apply not_Less_le).
  all: intros x y Hx Hy; rewrite Hx in Hy; injection Hy as ->; destruct (cmp y y) eqn:Hc; [|done].
  all: by apply cmp_asym in Hc as Hc'; congruence.
Qed.

(** *** Moving down *)

(** Exchanging a parent with its lesser child moves the hole to the child. *)
Lemma Swap_down k n i d :
  (2 * i + 1 < n)%nat -> (n <= length d)%nat -> (k <= i)%nat -> hole_down k n i d ->
  let j := lesser_child cmp n i d in
  Less cmp d j i = true -> hole_down k n j (Swap i j d) /\ ((0 < j)%nat -> le_at (Swap i j d) (parent j) j) /\
    ((0 < i)%nat -> (k <= parent i)%nat -> le_at (Swap i j d) (parent i) i).
Proof using All.
  intros Hn Hlen Hk [HA HB] j Hl. destruct (lesser_child_bounds n i d Hn) as [Hj Hpj]. fold j in Hj, Hpj.
  destruct (lookup_lt_is_Some_2 d i) as [x Hx]; [lia|]. destruct (lookup_lt_is_Some_2 d j) as [y Hy]; [lia|].
  assert (Hlk : forall m, Swap i j d !! m = if decide (m = i) then Some y else if decide (m = j) then Some x else d !! m)
    by (intros m; by apply Swap_lookup).
  assert (Hyx : cmp x y = false) by (apply (Less_le _ _ _ Hl y x Hy Hx)).
  assert (Hchild : forall m z, (0 < m < n)%nat -> parent m = i -> d !! m = Some z -> cmp z y = false).
  { intros m z Hm Hp Hz. by apply (lesser_child_le n i d m Hn Hm Hp y z Hy Hz). }
  assert (Hpar : forall m, (0 < m)%nat -> (parent m < m)%nat) by apply parent_lt.
  split; [split|split].
  - intros m Hm Hkm Hp Hmj a b. rewrite !Hlk. pose proof (Hpar m ltac:(lia)).
    destruct (decide (m = i)) as [->|Hmi].
    + rewrite (decide_False (P := parent i = i)) by lia. rewrite (decide_False (P := parent i = j)) by lia.
      intros Ha [= <-]. by apply (HB j ltac:(lia) Hpj ltac:(lia) Hkm a y Ha Hy).
    + rewrite (decide_False (P := m = j)) by done. rewrite (decide_False (P := parent m = j)) by done.
      destruct (decide (parent m = i)) as [Hpi|Hpi]; [intros [= <-] Hb; by apply (Hchild m)|].
      intros Ha Hb. by apply (HA m Hm Hkm Hpi Hmi a b).
  - intros m Hm Hp Hj0 Hkj a b. rewrite !Hlk. pose proof (Hpar m ltac:(lia)).
    rewrite Hpj, (decide_True (P := i = i)) by done.
    rewrite (decide_False (P := m = i)), (decide_False (P := m = j)) by lia. intros [= <-] Hb.
    apply (HA m Hm ltac:(lia) ltac:(lia) ltac:(lia) y b); [by rewrite Hp|done].
  - intros _ a b. rewrite !Hlk, Hpj, (decide_True (P := i = i)), (decide_False (P := j = i)), (decide_True (P := j = j))
      by lia. intros [= <-] [= <-]. done.
  - intros Hi Hki a b. rewrite !Hlk, (decide_True (P := i = i)) by done. pose proof (Hpar i Hi).
    rewrite (decide_False (P := parent i = i)), (decide_False (P := parent i = j)) by lia.
    intros Ha [= <-]. by apply (HB j ltac:(lia) Hpj Hi Hki a y Ha Hy).
Qed.

(** The slice after [down]: in order, when the element was not less than its parent or has moved. *)
Lemma down_loop_spec k n : forall fuel i d,
  (n <= fuel + i)%nat -> (i < n)%nat -> (n <= length d)%nat -> (k <= i)%nat -> hole_down k n i d ->
  let '(i', d') := down_loop cmp fuel i n d in
  (i <= i')%nat /\
  (((0 < i)%nat -> (k <= parent i)%nat -> le_at d (parent i) i) \/ (i < i')%nat -> heap_from k n d') /\
  (i' = i -> d' = d /\ forall m, (0 < m < n)%nat -> (k <= parent m)%nat -> m <> i -> le_at d (parent m) m).
Proof using All.
  induction fuel as [|f IH]; intros i d Hf Hi Hlen Hk Hh; [lia|]. cbn [down_loop].
  assert (Hstop : (forall m, (0 < m < n)%nat -> parent m = i -> le_at d i m) ->
    (i <= i)%nat /\ (((0 < i)%nat -> (k <= parent i)%nat -> le_at d (parent i) i) \/ (i < i)%nat -> heap_from k n d) /\
    (i = i -> d = d /\ forall m, (0 < m < n)%nat -> (k <= parent m)%nat -> m <> i -> le_at d (parent m) m)).
  { intros Hc. assert (Hm : forall m, (0 < m < n)%nat -> (k <= parent m)%nat -> m <> i -> le_at d (parent m) m).
    { intros m Hm Hkm Hmi. destruct (decide (parent m = i)) as [Hp|Hp]; [rewrite Hp; by apply Hc|by apply Hh]. }
    split; [done|]. split; [|done]. intros [He|He]; [|lia]. intros m Hmn Hkm.
    destruct (decide (m = i)) as [->|Hmi]; [by apply He; [lia|]|by apply Hm]. }
  destruct (Nat.leb_spec n (2 * i + 1)) as [Hend|Hn].
  { apply Hstop. intros m Hm Hp. apply parent_cases in Hp; lia. }
  destruct (lesser_child_bounds n i d Hn) as [Hj Hpj]. set (j := lesser_child cmp n i d) in *.
  destruct (Less cmp d j i) eqn:Hl; cbn [negb].
  - destruct (Swap_down k n i d Hn Hlen Hk Hh Hl) as (Hh' & Hle & Hle'). fold j in Hh', Hle, Hle'.
    specialize (IH j (Swap i j d)). rewrite Swap_length in IH.
    destruct (down_loop cmp f j n (Swap i j d)) as [i' d'].
    destruct IH as (Hij & Hheap & _); [lia|lia|lia|lia|done|]. split; [lia|]. split; [|lia]. intros _. apply Hheap.
    left. intros _ _. apply Hle. lia.
  - apply Hstop. intros m Hm Hp x y Hx Hy.
    destruct (lookup_lt_is_Some_2 d j) as [z Hz]; [lia|].
    eapply cmp_trans; [by apply (not_Less_le _ _ _ Hl x z)|]. by apply (lesser_child_le n i d m Hn Hm Hp z y).
Qed.

(** *** Moving up *)

Lemma Swap_up n j d :
  (0 < j < n)%nat -> (n <= length d)%nat -> hole_up n j d -> Less cmp d j (parent j) = true ->
  hole_up n (parent j) (Swap (parent j) j d).
Proof using All.
  intros Hj Hlen [HC HD] Hl. pose proof (parent_lt j ltac:(lia)) as Hpj. set (i := parent j) in *.
  destruct (lookup_lt_is_Some_2 d i) as [x Hx]; [lia|]. destruct (lookup_lt_is_Some_2 d j) as [y Hy]; [lia|].
  assert (Hlk : forall m, Swap i j d !! m = if decide (m = i) then Some y else if decide (m = j) then Some x else d !! m)
    by (intros m; by apply Swap_lookup).
  assert (Hyx : cmp x y = false) by (apply (Less_le _ _ _ Hl y x Hy Hx)).
  assert (Hpar : forall m, (0 < m)%nat -> (parent m < m)%nat) by apply parent_lt.
  split.
  - intros m Hm Hmi a b. rewrite !Hlk. pose proof (Hpar m ltac:(lia)). rewrite (decide_False (P := m = i)) by done.
    destruct (decide (m = j)) as [->|Hmj].
    + fold i. rewrite (decide_True (P := i = i)) by done. intros [= <-] [= <-]. done.
    + destruct (decide (parent m = i)) as [Hpi|Hpi].
      * intros [= <-] Hb. eapply cmp_trans; [exact Hyx|].
        apply (HC m Hm Hmj x b); [by rewrite Hpi|done].
      * destruct (decide (parent m = j)) as [Hpm|Hpm].
        -- intros [= <-] Hb. by apply (HD m Hm Hpm ltac:(lia) x b).
        -- intros Ha Hb. by apply (HC m Hm Hmj a b).
  - intros m Hm Hp Hi a b. rewrite !Hlk. pose proof (Hpar m ltac:(lia)). pose proof (Hpar i Hi).
    rewrite (decide_False (P := parent i = i)), (decide_False (P := parent i = j)) by lia.
    rewrite (decide_False (P := m = i)) by lia. intros Ha Hb.
    assert (Hax : cmp x a = false) by (by apply (HC i ltac:(lia) ltac:(lia) a x)).
    destruct (decide (m = j)) as [->|Hmj]; [congruence|].
    eapply cmp_trans; [exact Hax|]. by apply (HC m Hm Hmj x b); [rewrite Hp|].
Qed.

Lemma up_spec n : forall fuel j d,
  (j < fuel)%nat -> (j < n)%nat -> (n <= length d)%nat -> hole_up n j d -> heap_from 0 n (up cmp fuel j d).
Proof using All.
  induction fuel as [|f IH]; intros j d Hf Hj Hlen Hh; [lia|]. cbn [up].
  destruct (Nat.eqb_spec (parent j) j) as [He|He]; cbn [orb].
  - assert (j = 0%nat) as -> by (destruct (decide (0 < j)%nat) as [Hj0|]; [pose proof (parent_lt j Hj0); lia|lia]).
    intros m Hm _. apply Hh; lia.
  - assert (Hj0 : (0 < j)%nat) by (destruct j; [by unfold parent in He|lia]). pose proof (parent_lt j Hj0).
    destruct (Less cmp d j (parent j)) eqn:Hl; cbn [negb].
    + apply IH; [lia|lia|by rewrite Swap_length|]. by apply Swap_up.
    + intros m Hm _. destruct (decide (m = j)) as [->|Hmj]; [by apply not_Less_le|by apply Hh].
Qed.

(** *** The operations *)

Lemma heap_from_ext k n d d' : (forall m, (m < n)%nat -> d' !! m = d !! m) -> heap_from k n d -> heap_from k n d'.
Proof using.
  intros Hd Hh m Hm Hk x y. pose proof (parent_lt m ltac:(lia)). rewrite !Hd by lia. by apply Hh.
Qed.

Lemma is_heap_take n d : (n <= length d)%nat -> heap_from 0 n d -> is_heap (take n d).
Proof using.
  intros Hn Hh. unfold is_heap. rewrite length_take, Nat.min_l by done.
  eapply heap_from_ext; [|exact Hh]. intros m Hm. by rewrite lookup_take_lt.
Qed.

Lemma down_heap k i n d :
  (i < n)%nat -> (n <= length d)%nat -> (k <= i)%nat -> hole_down k n i d ->
  ((0 < i)%nat -> (k <= parent i)%nat -> le_at d (parent i) i) -> heap_from k n (down cmp i n d).2.
Proof using All.
  intros Hi Hlen Hk Hh He. unfold down. pose proof (down_loop_spec k n n i d ltac:(lia) Hi Hlen Hk Hh) as Hs.
  destruct (down_loop cmp n i n d) as [i' d']. apply Hs. by left.
Qed.

(** [down] and then [up], as [Fix] and [Remove] do. *)
Lemma fix_heap i n d :
  (i < n)%nat -> (n <= length d)%nat -> hole_down 0 n i d ->
  let '(moved, d') := down cmp i n d in heap_from 0 n (if moved then d' else up cmp (S i) i d').
Proof using All.
  intros Hi Hlen Hh. unfold down. pose proof (down_loop_spec 0 n n i d ltac:(lia) Hi Hlen ltac:(lia) Hh) as Hs.
  destruct (down_loop cmp n i n d) as [i' d']. destruct Hs as (Hle & Hmoved & Hsame).
  destruct (Nat.ltb_spec i i'); [apply Hmoved; by right|]. destruct Hsame as [-> Hm]; [lia|].
  apply up_spec; [lia|done|done|]. split; [intros m Hm0 Hne; apply Hm; lia|].
  intros m Hm0 Hp Hi0. apply Hh; try done. lia.
Qed.

Lemma init_loop_spec n : forall i d,
  (i <= n)%nat -> (n <= length d)%nat -> heap_from i n d -> heap_from 0 n (init_loop cmp i n d).
Proof using All.
  induction i as [|i IH]; intros d Hi Hlen Hh; [done|]. cbn [init_loop].
  apply IH; [lia|by rewrite down_length|].
  apply down_heap; [lia|done|done| |].
  - split; [|intros m _ _ Hi0 Hp; pose proof (parent_lt i Hi0); lia].
    intros m Hm Hp Hne _. apply Hh; [done|]. lia.
  - intros Hi0 Hp. pose proof (parent_lt i Hi0). lia.
Qed.

Lemma init_loop_perm n : forall i d, Permutation (init_loop cmp i n d) d.
Proof using. induction i as [|i IH]; intros d; [done|]. cbn [init_loop]. by rewrite IH, down_perm. Qed.

Lemma Init_perm d : Permutation (Init cmp d) d.
Proof using. apply init_loop_perm. Qed.

Lemma Init_heap d : is_heap (Init cmp d).
Proof using All.
  unfold is_heap. rewrite (Permutation_length (Init_perm d)).
  apply init_loop_spec; [apply Nat.Div0.div_le_upper_bound; lia|done|].
  intros m Hm Hp. exfalso. unfold parent in Hp.
  assert ((m - 1) / 2 < length d / 2)%nat; [|lia].
  pose proof (Nat.div_mod_eq (m - 1) 2). pose proof (Nat.div_mod_eq (length d) 2).
  pose proof (Nat.mod_upper_bound (m - 1) 2 ltac:(done)). pose proof (Nat.mod_upper_bound (length d) 2 ltac:(done)). lia.
Qed.

Lemma Push_perm d v : Permutation (Push cmp d v) (v :: d).
Proof using. unfold Push. rewrite up_perm. symmetry. apply Permutation_cons_append. Qed.

Lemma Push_heap d v : is_heap d -> is_heap (Push cmp d v).
Proof using All.
  intros Hh. unfold is_heap. rewrite (Permutation_length (Push_perm d v)). unfold Push.
  rewrite length_app. cbn [length]. replace (length d + 1 - 1)%nat with (length d) by lia.
  apply up_spec; [lia|lia|rewrite length_app; cbn; lia|].
  assert (Hin : forall m, (m < length d)%nat -> (d ++ [v]) !! m = d !! m) by (intros m Hm; by apply lookup_app_l).
  split.
  - intros m Hm Hne x y. pose proof (parent_lt m ltac:(lia)). rewrite !Hin by lia. apply Hh; lia.
  - intros m Hm Hp. pose proof (parent_lt m ltac:(lia)). lia.
Qed.

(** The root is a least element. *)
Lemma heap_root_least d x : is_heap d -> d !! 0%nat = Some x -> forall y, y ∈ d -> cmp y x = false.
Proof using All.
  intros Hh H0 y [m Hm]%list_elem_of_lookup_1. revert y Hm.
  induction m as [m IH] using lt_wf_ind. intros y Hm. destruct (decide (m = 0%nat)) as [->|Hne].
  - assert (y = x) as -> by congruence. destruct (cmp x x) eqn:Hc; [|done]. by apply cmp_asym in Hc as Hc'; congruence.
  - pose proof (lookup_lt_Some _ _ _ Hm). pose proof (parent_lt m ltac:(lia)).
    destruct (lookup_lt_is_Some_2 d (parent m)) as [z Hz]; [lia|].
    eapply cmp_trans; [by apply (IH (parent m)); [|exact Hz]|]. by apply (Hh m ltac:(lia) ltac:(lia) z y).
Qed.

(** Taking the last element off the slice. *)
Lemma take_last (d' : list E) n x :
  length d' = S n -> d' !! n = Some x -> Permutation d' (x :: take n d').
Proof using.
  intros Hlen Hx. rewrite <- (take_drop n d') at 1. rewrite (drop_S d' x n Hx), drop_ge by lia.
  symmetry. apply Permutation_cons_append.
Qed.

Lemma Pop_spec d :
  is_heap d -> d <> [] ->
  exists x d', Pop cmp d = Ok (x, d') /\ Permutation d (x :: d') /\ is_heap d' /\ forall y, y ∈ d -> cmp y x = false.
Proof using All.
  intros Hh Hne. assert (Hlen : (0 < length d)%nat) by (destruct d; [done|cbn; lia]).
  destruct (lookup_lt_is_Some_2 d 0) as [x Hx]; [done|].
  destruct (lookup_lt_is_Some_2 d (length d - 1)) as [z Hz]; [lia|].
  set (n := (length d - 1)%nat) in *. set (d1 := (down cmp 0 n (Swap 0 n d)).2).
  assert (Hlk : forall m, Swap 0 n d !! m = if decide (m = 0%nat) then Some z else if decide (m = n) then Some x else d !! m)
    by (intros m; by apply Swap_lookup).
  assert (Hlen1 : length d1 = S n) by (unfold d1; rewrite down_length, Swap_length; lia).
  assert (Hn : d1 !! n = Some x /\ heap_from 0 n d1).
  { destruct (decide (n = 0%nat)) as [Hn0|Hn0].
    - assert (d1 = Swap 0 n d) as -> by (unfold d1, down; by rewrite Hn0). rewrite Hlk. split; [|intros m Hm; lia].
      rewrite Hn0, decide_True by done. rewrite Hn0 in Hz. congruence.
    - split; [unfold d1; rewrite down_outside by lia; rewrite Hlk; by rewrite decide_False, decide_True|].
      apply down_heap; [lia|rewrite Swap_length; lia|lia| |lia]. split; [|lia].
      intros m Hm _ Hp Hm0 a b. pose proof (parent_lt m ltac:(lia)). rewrite !Hlk.
      rewrite !decide_False by lia. by apply Hh; lia. }
  destruct Hn as [Hn Hheap]. exists x, (take n d1).
  assert (Hpop : Pop cmp d = match d1 !! n with Some x => Ok (x, take n d1) | None => index_out_of_range end)
    by (destruct d; [done|reflexivity]).
  rewrite Hpop, Hn. split; [done|]. split; [|split].
  - rewrite <- (take_last d1 n x Hlen1 Hn). unfold d1. by rewrite down_perm, Swap_perm.
  - apply is_heap_take; [lia|done].
  - by apply heap_root_least.
Qed.
(** A slice that differs from a heap at one position only. *)
Lemma hole_of_heap i n d d1 :
  (i < n)%nat -> (n <= length d)%nat -> heap_from 0 n d ->
  (forall m, (m < n)%nat -> m <> i -> d1 !! m = d !! m) -> hole_down 0 n i d1.
Proof using All.
  intros Hi Hlen Hh Hd. split.
  - intros m Hm _ Hp Hne a b. pose proof (parent_lt m ltac:(lia)). rewrite !Hd by lia. apply Hh; lia.
  - intros m Hm Hp Hi0 _ a b. pose proof (parent_lt i Hi0). pose proof (parent_lt m ltac:(lia)).
    rewrite !Hd by lia. destruct (lookup_lt_is_Some_2 d i) as [z Hz]; [lia|].
    apply (le_at_trans d (parent i) i m z Hz); [apply Hh; lia|]. rewrite <- Hp. apply Hh; lia.
Qed.

Lemma up_outside fuel : forall j d m, (j < m)%nat -> up cmp fuel j d !! m = d !! m.
Proof using.
  induction fuel as [|fuel IH]; intros j d m Hj; [done|]. cbn [up].
  destruct (Nat.eqb_spec (parent j) j) as [|Hne]; [done|]. destruct (Less cmp d j (parent j)) eqn:Hl; [|done]. cbn [orb negb].
  assert (parent j < j)%nat by (apply parent_lt; destruct j; [done|lia]). rewrite IH by lia.
  unfold Less in Hl. unfold Swap.
  destruct (d !! j), (d !! parent j); try done. by rewrite !list_lookup_insert_ne by lia.
Qed.

(** [down] and then [up] at a position whose element was replaced. *)
Lemma refit_spec i n d d1 :
  (i < n)%nat -> (n <= length d1)%nat -> length d1 = length d -> heap_from 0 n d ->
  (forall m, (m < n)%nat -> m <> i -> d1 !! m = d !! m) ->
  exists d2, (let '(moved, d') := down cmp i n d1 in if moved then d' else up cmp (S i) i d') = d2 /\
    heap_from 0 n d2 /\ Permutation d2 d1 /\ (forall m, (n <= m)%nat -> d2 !! m = d1 !! m).
Proof using All.
  intros Hi Hn Hlen Hh Hd.
  pose proof (fix_heap i n d1 Hi Hn (hole_of_heap i n d d1 Hi ltac:(lia) Hh Hd)) as Hf.
  pose proof (down_perm i n d1) as Hp. pose proof (fun m => down_outside i n d1 m Hi) as Ho.
  destruct (down cmp i n d1) as [moved d']. cbn in Hp, Ho. eexists. split; [done|].
  destruct moved; [done|]. split; [done|]. split; [by rewrite up_perm|].
  intros m Hm. rewrite up_outside by lia. by apply Ho.
Qed.

Lemma Remove_spec d (index : Z) x :
  is_heap d -> 0 <= index -> d !! Z.to_nat index = Some x ->
  exists d', Remove cmp d index = Ok (x, d') /\ Permutation d (x :: d') /\ is_heap d'.
Proof using All.
  intros Hh H0 Hx. pose proof (lookup_lt_Some _ _ _ Hx) as Hlt. unfold Remove.
  destruct (Z.ltb_spec index 0) as [|_]; [lia|]. destruct (Z.leb_spec (Z.of_nat (length d)) index) as [|_]; [lia|]. cbn [orb].
  set (i := Z.to_nat index) in *. set (n := (length d - 1)%nat).
  destruct (lookup_lt_is_Some_2 d n) as [z Hz]; [lia|].
  assert (Hfin : forall d2, length d2 = S n -> d2 !! n = Some x -> heap_from 0 n d2 -> Permutation d2 d ->
    exists d', match d2 !! n with Some y => Ok (y, take n d2) | None => index_out_of_range end = Ok (x, d') /\
      Permutation d (x :: d') /\ is_heap d').
  { intros d2 Hl Hd2 Hh2 Hp. rewrite Hd2. eexists. split; [done|].
    split; [rewrite <- (take_last d2 n x Hl Hd2); by symmetry|apply is_heap_take; [lia|done]]. }
  destruct (Nat.eqb_spec n i) as [Hni|Hni].
  - apply Hfin; [lia|by rewrite Hni| |done]. intros m Hm. apply Hh. lia.
  - assert (Hlk := Swap_lookup i n d x z). pose proof (Swap_length i n d) as Hsl.
    destruct (refit_spec i n d (Swap i n d)) as (d2 & -> & Hh2 & Hp2 & Ho2); [lia|lia|done| | |].
    + intros m Hm. apply Hh. lia.
    + intros m Hm Hne. rewrite Hlk by done. by rewrite !decide_False by lia.
    + apply Hfin; [rewrite (Permutation_length Hp2); lia| |done|by rewrite Hp2, Swap_perm].
      rewrite Ho2, Hlk by done. rewrite decide_False by lia. by rewrite decide_True.
Qed.

Lemma Fix_spec d i v :
  is_heap d -> (i < length d)%nat ->
  exists d', Fix_ cmp (<[i := v]> d) (Z.of_nat i) = Ok d' /\ Permutation d' (<[i := v]> d) /\ is_heap d'.
Proof using All.
  intros Hh Hi. pose proof (length_insert d i v) as Hl. unfold Fix_. rewrite Hl.
  destruct (Z.eqb_spec (Z.of_nat i) (-1)) as [|_]; [lia|].
  destruct (Nat.eqb_spec (length d) 0) as [|_]; [lia|]. rewrite andb_false_r. cbn [orb].
  destruct (Z.ltb_spec (Z.of_nat i) 0) as [|_]; [lia|].
  destruct (Z.leb_spec (Z.of_nat (length d)) (Z.of_nat i)) as [|_]; [lia|]. cbn [orb]. rewrite Nat2Z.id.
  destruct (refit_spec i (length d) d (<[i := v]> d)) as (d2 & Heq & Hh2 & Hp2 & _); [done|lia|done|done| |].
  - intros m Hm Hne. by rewrite list_lookup_insert_ne.
  - destruct (down cmp i (length d) (<[i:=v]> d)) as [moved d']. exists d2. split; [by f_equal|]. split; [done|].
    unfold is_heap. by rewrite (Permutation_length Hp2), Hl.
Qed.
(** *** The heap as a priority queue *)

(** A client's operations: [OFix i v] stores [v] at index [i] of [Data()] and calls [Fix(i)]. *)
Inductive heap_op :=
  | OPush (v : E)
  | OPop
  | ORemove (index : Z)
  | OFix (index : Z) (v : E)
  | OCopy.

Definition in_range d (index : Z) : bool := (0 <=? index) && (index <? Z.of_nat (length d)).

Definition exec (o : heap_op) d : outcome gostring (option E * list E) :=
  match o with
  | OPush v => Ok (None, Push cmp d v)
  | OPop => ' (x, d') ⇐ Pop cmp d; Ok (Some x, d')
  | ORemove i => ' (x, d') ⇐ Remove cmp d i; Ok (Some x, d')
  | OFix i v =>
      if in_range d i then d' ⇐ Fix_ cmp (<[Z.to_nat i := v]> d) i; Ok (None, d') else index_out_of_range
  | OCopy => Ok (None, Copy cmp d)
  end.

Fixpoint run (os : list heap_op) d : outcome gostring (list (option E) * list E) :=
  match os with
  | [] => Ok ([], d)
  | o :: os => ' (r, d) ⇐ exec o d; ' (rs, d) ⇐ run os d; Ok (r :: rs, d)
  end.

(** What a priority queue promises, on a bag of elements (a list up to permutation). *)
Inductive queue_step : list E -> heap_op -> option E -> list E -> Prop :=
  | q_push b v b' : Permutation b' (v :: b) -> queue_step b (OPush v) None b'
  | q_pop b x b' : Permutation b (x :: b') -> (forall y, y ∈ b -> cmp y x = false) -> queue_step b OPop (Some x) b'
  | q_remove b (i : Z) x b' : Permutation b (x :: b') -> queue_step b (ORemove i) (Some x) b'
  | q_fix b (i : Z) v x r b' : Permutation b (x :: r) -> Permutation b' (v :: r) -> queue_step b (OFix i v) None b'
  | q_copy b b' : Permutation b b' -> queue_step b OCopy None b'.

Inductive queue_run : list E -> list heap_op -> list (option E) -> list E -> Prop :=
  | qr_nil b b' : Permutation b b' -> queue_run b [] [] b'
  | qr_cons b o r b' os rs b'' : queue_step b o r b' -> queue_run b' os rs b'' -> queue_run b (o :: os) (r :: rs) b''.

(** The calls that panic: on an empty heap, or with an index out of range. *)
Definition op_panics (o : heap_op) d : bool :=
  match o with
  | OPush _ | OCopy => false
  | OPop => (length d =? 0)%nat
  | ORemove i | OFix i _ => negb (in_range d i)
  end.

Lemma insert_perm d i x v : d !! i = Some x -> exists r, Permutation d (x :: r) /\ Permutation (<[i := v]> d) (v :: r).
Proof using.
  intros Hx. exists (take i d ++ drop (S i) d). split.
  - rewrite <- (take_drop_middle d i x Hx) at 1. symmetry. apply Permutation_middle.
  - rewrite insert_take_drop by (by eapply lookup_lt_Some). symmetry. apply Permutation_middle.
Qed.

Lemma exec_spec o d :
  is_heap d -> op_panics o d = false ->
  exists r d', exec o d = Ok (r, d') /\ queue_step d o r d' /\ is_heap d'.
Proof using All.
  intros Hh Hv. destruct o as [v| |i|i v|]; cbn [exec op_panics] in *.
  - eexists _, _. split; [done|]. split; [apply q_push, Push_perm|by apply Push_heap].
  - destruct (Pop_spec d Hh) as (x & d' & -> & Hp & Hh' & Hl); [by destruct d|].
    eexists _, _. split; [done|]. split; [by apply q_pop|done].
  - apply negb_false_iff in Hv. unfold in_range in Hv. apply andb_true_iff in Hv as [H0 H1].
    destruct (lookup_lt_is_Some_2 d (Z.to_nat i)) as [x Hx]; [lia|].
    destruct (Remove_spec d i x Hh ltac:(lia) Hx) as (d' & -> & Hp & Hh').
    eexists _, _. split; [done|]. split; [by apply q_remove|done].
  - apply negb_false_iff in Hv. rewrite Hv. unfold in_range in Hv. apply andb_true_iff in Hv as [H0 H1].
    destruct (lookup_lt_is_Some_2 d (Z.to_nat i)) as [x Hx]; [lia|].
    destruct (Fix_spec d (Z.to_nat i) v Hh ltac:(lia)) as (d' & Hf & Hp & Hh').
    rewrite Z2Nat.id in Hf by lia. rewrite Hf. destruct (insert_perm d (Z.to_nat i) x v Hx) as (r & Hr & Hr').
    eexists _, _. split; [done|]. split; [|done]. eapply q_fix; [exact Hr|]. by rewrite Hp.
  - eexists _, _. split; [done|]. split; [apply q_copy; symmetry; apply Init_perm|apply Init_heap].
Qed.

Lemma exec_panics o d : op_panics o d = true -> exec o d = index_out_of_range.
Proof using.
  destruct o as [v| |i|i v|]; cbn [exec op_panics]; [done| | | |done].
  - by destruct d.
  - unfold in_range, Remove. intros H.
    destruct (Z.ltb_spec i 0), (Z.leb_spec (Z.of_nat (length d)) i); try done. lia.
  - intros ->%negb_true_iff. done.
Qed.
Lemma queue_step_perm b b1 o r b' : Permutation b b1 -> queue_step b1 o r b' -> queue_step b o r b'.
Proof using.
  intros Hp Hs. inversion Hs as [? v ? Hv|? x ? Hx Hl|? i x ? Hx|? i v x q ? Hx Hv|? ? Hx]; subst.
  - apply q_push. by rewrite Hv, Hp.
  - apply q_pop; [by rewrite Hp|]. intros y Hy. apply Hl. by rewrite <- Hp.
  - apply q_remove. by rewrite Hp.
  - eapply q_fix; [rewrite Hp; exact Hx|exact Hv].
  - apply q_copy. by rewrite Hp.
Qed.

Lemma queue_run_perm b b1 os rs b' : Permutation b b1 -> queue_run b1 os rs b' -> queue_run b os rs b'.
Proof using.
  intros Hp Hr. destruct Hr as [b1 b' H|b1 o r b2 os rs b' Hs Hr]; [apply qr_nil; by rewrite Hp|].
  eapply qr_cons; [by eapply queue_step_perm|done].
Qed.

(** A run from a heap: it gives what a queue gives, or stops at the first call that panics. *)
Lemma run_spec os : forall d, is_heap d ->
  match run os d with
  | Ok (rs, d') => is_heap d' /\ queue_run d os rs d'
  | Panic _ => exists os1 o os2 rs d', os = os1 ++ o :: os2 /\ queue_run d os1 rs d' /\ op_panics o d' = true
  | _ => False
  end.
Proof using All.
  induction os as [|o os IH]; intros d Hh; cbn [run]; [split; [done|by apply qr_nil]|].
  destruct (op_panics o d) eqn:Hv.
  - rewrite exec_panics by done. cbn. exists [], o, os, [], d. split; [done|]. split; [by apply qr_nil|done].
  - destruct (exec_spec o d Hh Hv) as (r & d1 & -> & Hs & Hh1). cbn [out_bind]. specialize (IH d1 Hh1).
    destruct (run os d1) as [[rs d']|e|msg|]; cbn [out_bind]; [|done| |done].
    + destruct IH as [Hh' Hr]. split; [done|]. by eapply qr_cons.
    + destruct IH as (os1 & o' & os2 & rs & d' & -> & Hr & Hp). exists (o :: os1), o', os2, (r :: rs), d'.
      split; [done|]. split; [by eapply qr_cons|done].
Qed.

(** Popping [n] elements one after the other. *)
Fixpoint drain (n : nat) d : outcome gostring (list E) :=
  match n with
  | O => Ok []
  | S n => ' (x, d) ⇐ Pop cmp d; xs ⇐ drain n d; Ok (x :: xs)
  end.

Lemma drain_spec : forall n d, is_heap d -> length d = n ->
  exists l, drain n d = Ok l /\ Permutation l d /\ StronglySorted (fun x y => cmp y x = false) l.
Proof using All.
  induction n as [|n IH]; intros d Hh Hlen.
  { exists []. destruct d; [|done]. split; [done|]. split; [done|constructor]. }
  destruct (Pop_spec d Hh) as (x & d' & Hpop & Hp & Hh' & Hl); [by destruct d|].
  cbn [drain]. rewrite Hpop. cbn [out_bind].
  apply Permutation_length in Hp as Hlen'. cbn in Hlen'.
  destruct (IH d' Hh' ltac:(lia)) as (l & -> & Hpl & Hs). cbn [out_bind]. exists (x :: l).
  split; [done|]. split; [by rewrite Hpl|]. constructor; [done|].
  apply Forall_forall. intros y Hy. apply Hl. rewrite Hp, <- Hpl. by apply list_elem_of_further.
Qed.

(** A heap is left as it is by [Init], so that [Copy] keeps the indices of the elements. *)
Lemma down_id i n d : heap_from 0 n d -> (n <= length d)%nat -> (down cmp i n d).2 = d.
Proof using All.
  intros Hh Hn. unfold down. destruct n as [|n]; [done|]. cbn [down_loop].
  destruct (Nat.leb_spec (S n) (2 * i + 1)) as [|Hi]; [done|].
  destruct (Less cmp d (lesser_child cmp (S n) i d) i) eqn:Hl; [exfalso|done].
  destruct (lesser_child_bounds (S n) i d ltac:(lia)) as [Hc Hp].
  unfold Less in Hl. destruct (d !! lesser_child cmp (S n) i d) eqn:H1, (d !! i) eqn:H2; try done.
  assert (cmp e e0 = false); [|congruence]. eapply (Hh (lesser_child cmp (S n) i d)); [lia|lia| |done]. by rewrite Hp.
Qed.

Lemma Init_id d : is_heap d -> Init cmp d = d.
Proof using All.
  intros Hh. unfold Init. induction (length d / 2)%nat as [|i IH]; [done|]. cbn [init_loop]. by rewrite down_id.
Qed.
End spec.

(** C27: A heap built by [NewHeap] from any slice, with a comparison function that is a strict weak order,
    is a priority queue under every sequence of its operations: [Push] adds its element; [Pop] removes and
    returns an element no other element is less than; [Remove] removes and returns one element; an element
    replaced in [Data()] and announced by [Fix] is exchanged, all others are kept; [Copy] keeps them all.
    The heap order holds at the end, and a run stops early only with the panic of an index out of range,
    at a call on an empty heap or with an index outside the slice. *)
Theorem heap_is_priority_queue {E} (cmp : E -> E -> bool) (HW : StrictWeak cmp) (t : list E) (os : list heap_op) :
  match run cmp os (NewHeap cmp t) with
  | Ok (rs, d) => is_heap cmp d /\ queue_run cmp t os rs d
  | Panic _ => exists os1 o os2 rs d, os = os1 ++ o :: os2 /\ queue_run cmp t os1 rs d /\ op_panics o d = true
  | _ => False
  end.
Proof.
  pose proof (run_spec cmp os (NewHeap cmp t) (Init_heap cmp t)) as H.
  pose proof (Init_perm cmp t) as Hp. symmetry in Hp.
  destruct (run cmp os (NewHeap cmp t)) as [[rs d]|e|msg|]; [|done| |done].
  - destruct H as [Hh Hr]. split; [done|]. by eapply queue_run_perm.
  - destruct H as (os1 & o & os2 & rs & d & -> & Hr & Hv). exists os1, o, os2, rs, d.
    split; [done|]. split; [by eapply queue_run_perm|done].
Qed.

#[export] Instance Zlt_weak : StrictWeak Z.ltb.
Proof. split; intros *; rewrite ?Z.ltb_lt, ?Z.ltb_ge; lia. Qed.

Definition demo_ops : list heap_op :=
  [OPush 4; OPop; OFix 0 9; ORemove 1; OCopy; OPop; OPop; OPop; OPop].

Lemma heap_is_priority_queue_witness :
  run Z.ltb (take 7 demo_ops) (NewHeap Z.ltb [5; 3; 8]) =
    Ok ([None; Some 3; None; Some 9; None; Some 5; Some 8], []) /\
  exists os1 o os2 rs d, demo_ops = os1 ++ o :: os2 /\
    queue_run Z.ltb [5; 3; 8] os1 rs d /\ op_panics o d = true.
Proof.
  split; [reflexivity|].
  exact (heap_is_priority_queue Z.ltb Zlt_weak [5; 3; 8] demo_ops).
Defined.

(** Popping every element of a heap sorts the slice it was made of. *)
Theorem heap_sorts {E} (cmp : E -> E -> bool) (HW : StrictWeak cmp) (t : list E) :
  exists l, drain cmp (length t) (NewHeap cmp t) = Ok l /\ Permutation l t /\
    StronglySorted (fun x y => cmp y x = false) l.
Proof.
  destruct (drain_spec cmp (length t) (NewHeap cmp t)) as (l & Hd & Hp & Hs).
  - apply Init_heap, HW.
  - apply Permutation_length, Init_perm.
  - exists l. split; [done|]. split; [by rewrite Hp; apply Init_perm|done].
Qed.
