(* ===== verification/RoutineFuture.v ===== *)
(** Futures and promises of routine/future.go and routine/promise.go, with the goroutines that share one.

    A [Future] points to an immutable [futureVal] that is replaced by compare-and-swap.  A [futureVal]
    holds slices of callbacks; slices share backing arrays, and [append] writes into the array
    when there is room, before the compare-and-swap is tried.  The memory of one future is therefore a store of
    [futureVal]s and a store of arrays; the goroutines are threads with a program counter at every
    access of shared memory, and an execution is a sequence of thread numbers.

    Functions are numbered; what a callback does is not modelled, its calls are recorded with the
    argument. *)
From stdpp Require Import base list strings numbers option.
From S2P Require Import Prelude.

Inductive callbackType := CallbackDone | CallbackFail | CallbackAlways | CallbackCancel.
Inductive resultType := ResultSuccess | ResultFailure | ResultCancelled.

#[export] Instance callbackType_eq_dec : EqDecision callbackType.
Proof. solve_decision. Defined.
#[export] Instance resultType_eq_dec : EqDecision resultType.
Proof. solve_decision. Defined.

(** [pipe]: the task for success and the one for failure. *)
Record pipe := { pipeDoneTask : option nat; pipeFailTask : option nat }.
Definition getPipe (p : pipe) (isResolved : bool) : option nat :=
  if isResolved then pipeDoneTask p else pipeFailTask p.

(** What a thread registers: a callback, or a pipe. *)
Inductive reg := Callback (t : callbackType) (f : nat) | Pipe_ (p : pipe).

(** ** Slices *)

Record slice := { s_array : nat; s_len : nat }.
Abbreviation arrays := (list (list (option reg))).

(** The element at an index below the length. *)
Definition get (a : arrays) (s : slice) (i : nat) : option reg :=
  a !! s_array s ≫= fun arr => mjoin (arr !! i).

(** [append], with the capacity that a grown array gets. *)
Definition append (grow : nat -> nat) (a : arrays) (s : slice) (x : reg) : arrays * slice :=
  match a !! s_array s with
  | Some arr =>
      if (s_len s <? length arr)%nat then
        (<[s_array s := <[s_len s := Some x]> arr]> a, {| s_array := s_array s; s_len := S (s_len s) |})
      else
        (a ++ [take (s_len s) arr ++ Some x :: replicate (grow (s_len s) - S (s_len s)) None],
         {| s_array := length a; s_len := S (s_len s) |})
  | None => (a, s)
  end.

Section future.
Context {V : Type}.

Record Result := { Result_ : V; Typ : resultType }.

Record futureVal := { dones : slice; fails : slice; always : slice; cancels : slice; pipes : slice; r : option Result }.

Definition with_r (v : futureVal) (x : Result) : futureVal :=
  {| dones := dones v; fails := fails v; always := always v; cancels := cancels v; pipes := pipes v; r := Some x |}.

(** The slice a registration belongs to. *)
Definition slice_of (v : futureVal) (x : reg) : slice :=
  match x with
  | Callback CallbackDone _ => dones v
  | Callback CallbackFail _ => fails v
  | Callback CallbackAlways _ => always v
  | Callback CallbackCancel _ => cancels v
  | Pipe_ _ => pipes v
  end.
Definition with_slice (v : futureVal) (x : reg) (s : slice) : futureVal :=
  match x with
  | Callback CallbackDone _ => {| dones := s; fails := fails v; always := always v; cancels := cancels v; pipes := pipes v; r := r v |}
  | Callback CallbackFail _ => {| dones := dones v; fails := s; always := always v; cancels := cancels v; pipes := pipes v; r := r v |}
  | Callback CallbackAlways _ => {| dones := dones v; fails := fails v; always := s; cancels := cancels v; pipes := pipes v; r := r v |}
  | Callback CallbackCancel _ => {| dones := dones v; fails := fails v; always := always v; cancels := s; pipes := pipes v; r := r v |}
  | Pipe_ _ => {| dones := dones v; fails := fails v; always := always v; cancels := cancels v; pipes := s; r := r v |}
  end.

(** ** The shared state *)

(** [calls] records the calls of functions, with their argument; [OnCancel]'s have none. *)
Record Future := { mem : list futureVal; val : nat; arrs : arrays; final : bool; calls : list (nat * option V) }.

Definition set_val (s : Future) (v : futureVal) : Future :=
  {| mem := mem s ++ [v]; val := length (mem s); arrs := arrs s; final := final s; calls := calls s |}.
Definition set_arrs (s : Future) (a : arrays) : Future :=
  {| mem := mem s; val := val s; arrs := a; final := final s; calls := calls s |}.
Definition close_final (s : Future) : Future :=
  {| mem := mem s; val := val s; arrs := arrs s; final := true; calls := calls s |}.
Definition record_calls (s : Future) (c : list (nat * option V)) : Future :=
  {| mem := mem s; val := val s; arrs := arrs s; final := final s; calls := calls s ++ c |}.

(** [NewPromise]: five slices with room for 8, 8, 4, 2 and 4 elements. *)
Definition NewPromise : Future :=
  {| mem := [{| dones := {| s_array := 0; s_len := 0 |}; fails := {| s_array := 1; s_len := 0 |};
                always := {| s_array := 2; s_len := 0 |}; cancels := {| s_array := 3; s_len := 0 |};
                pipes := {| s_array := 4; s_len := 0 |}; r := None |}];
     val := 0; arrs := (fun cap => replicate cap None) <$> [8; 8; 4; 2; 4]%nat; final := false; calls := [] |}.

Definition loadVal (s : Future) : option futureVal := mem s !! val s.
Definition loadResult (s : Future) : option Result := loadVal s ≫= r.

Definition IsCancelled (s : Future) : bool :=
  match loadResult s with Some x => bool_decide (Typ x = ResultCancelled) | None => false end.

(** ** Calls when the result is known *)

(** The conditions of [addCallback] on a completed future. *)
Definition due (t : callbackType) (x : Result) : bool :=
  match t, Typ x with
  | CallbackDone, ResultSuccess | CallbackFail, ResultFailure => true
  | CallbackAlways, (ResultSuccess | ResultFailure) => true
  | CallbackCancel, ResultCancelled => true
  | _, _ => false
  end.
Definition argument (t : callbackType) (x : Result) : option V :=
  match t with CallbackCancel => None | _ => Some (Result_ x) end.
Definition call_now (t : callbackType) (f : nat) (x : Result) : list (nat * option V) :=
  if due t x then [(f, argument t x)] else [].

(** The task that [Pipe] calls on a completed future. *)
Definition pipe_now (p : pipe) (x : Result) : list (nat * option V) :=
  match Typ x with
  | ResultSuccess => match pipeDoneTask p with Some f => [(f, Some (Result_ x))] | None => [] end
  | ResultFailure => match pipeFailTask p with Some f => [(f, Some (Result_ x))] | None => [] end
  | ResultCancelled => []
  end.

(** [startPipe]: the task for failure also takes a cancelled result. *)
Definition startPipe (x : Result) (p : pipe) : list (nat * option V) :=
  match getPipe p (bool_decide (Typ x = ResultSuccess)) with
  | Some f => [(f, Some (Result_ x))]
  | None => []
  end.

(** A function that [execCallback] or the pipe goroutine takes out of a slice. *)
Definition exec_one (x : Result) (c : reg) : list (nat * option V) :=
  match c with
  | Callback t f => [(f, argument t x)]
  | Pipe_ p => startPipe x p
  end.

Definition indices (s : slice) : list (slice * nat) := pair s <$> seq 0 (s_len s).

(** The elements that [execCallback] visits, in order. *)
Definition execCallback (x : Result) (v : futureVal) : list (slice * nat) :=
  match Typ x with
  | ResultCancelled => indices (cancels v)
  | ResultSuccess => indices (dones v) ++ indices (always v)
  | ResultFailure => indices (fails v) ++ indices (always v)
  end.

(** ** Threads *)

Inductive add_pc := ALoad | AAppend (v : nat) | ACas (v : nat) (newVal : futureVal).
Inductive set_pc := SLoad | SCas (v : nat) | SClose (v : futureVal).

Inductive thread :=
  | Adder (pc : add_pc) (todo : list reg)            (* addCallback and Pipe, one registration after the other *)
  | Setter (x : Result) (pc : set_pc)                (* setResult *)
  | SetDone (x : Result) (won : bool)                (* setResult returned nil, or its error *)
  | Exec (x : Result) (todo : list (slice * nat))    (* the goroutines that setResult starts *)
  | Getter                                           (* Get, waiting *)
  | Got (x : option Result).                         (* what Get read *)

Definition Resolve (v : V) : thread := Setter {| Result_ := v; Typ := ResultSuccess |} SLoad.
Definition Reject (v : V) : thread := Setter {| Result_ := v; Typ := ResultFailure |} SLoad.
Definition Cancel (ErrCancelled : V) : thread := Setter {| Result_ := ErrCancelled; Typ := ResultCancelled |} SLoad.
Definition OnSuccess (f : nat) : reg := Callback CallbackDone f.
Definition OnFailure (f : nat) : reg := Callback CallbackFail f.
Definition OnComplete (f : nat) : reg := Callback CallbackAlways f.
Definition OnCancel (f : nat) : reg := Callback CallbackCancel f.

(** The goroutines that a successful [setResult] starts. *)
Definition spawned (x : Result) (v : futureVal) : list thread :=
  (if (s_len (dones v) =? 0)%nat && (s_len (fails v) =? 0)%nat && (s_len (always v) =? 0)%nat && (s_len (cancels v) =? 0)%nat
   then [] else [Exec x (execCallback x v)]) ++
  (if (s_len (pipes v) =? 0)%nat then [] else [Exec x (indices (pipes v))]).

Context (grow : nat -> nat).

(** One step of [addCallback] or [Pipe]: the latter does not leave its loop when the future is complete. *)
Definition add_step (s : Future) (pc : add_pc) (c : reg) (todo : list reg) : option (Future * thread) :=
  match pc with
  | ALoad =>
      loadVal s ≫= fun v =>
      match r v, c with
      | None, _ => Some (s, Adder (AAppend (val s)) (c :: todo))
      | Some x, Callback t f => Some (record_calls s (call_now t f x), Adder ALoad todo)
      | Some x, Pipe_ p => Some (record_calls s (pipe_now p x), Adder ALoad (c :: todo))
      end
  | AAppend p =>
      mem s !! p ≫= fun v =>
      let '(a, sl) := append grow (arrs s) (slice_of v c) c in
      Some (set_arrs s a, Adder (ACas p (with_slice v c sl)) (c :: todo))
  | ACas p newVal =>
      if (val s =? p)%nat then Some (set_val s newVal, Adder ALoad todo)
      else Some (s, Adder ALoad (c :: todo))
  end.

(** One step of [setResult]. *)
Definition set_step (s : Future) (x : Result) (pc : set_pc) : option (Future * thread * list thread) :=
  match pc with
  | SLoad =>
      loadVal s ≫= fun v =>
      match r v with
      | Some _ => Some (s, SetDone x false, [])
      | None => Some (s, Setter x (SCas (val s)), [])
      end
  | SCas p =>
      mem s !! p ≫= fun v =>
      if (val s =? p)%nat then Some (set_val s (with_r v x), Setter x (SClose v), [])
      else Some (s, Setter x SLoad, [])
  | SClose v => Some (close_final s, SetDone x true, spawned x v)
  end.

(** One step of a thread: the new state, the thread, and the threads it starts. *)
Definition step (s : Future) (th : thread) : option (Future * thread * list thread) :=
  match th with
  | Adder pc (c :: todo) => (fun '(s, th) => (s, th, [])) <$> add_step s pc c todo
  | Setter x pc => set_step s x pc
  | Exec x ((sl, i) :: todo) =>
      (fun c => (record_calls s (exec_one x c), Exec x todo, [])) <$> get (arrs s) sl i
  | Getter => if final s then Some (s, Got (loadResult s), []) else None
  | _ => None
  end.

Definition config : Type := Future * list thread.

(** The thread with this number takes a step, if it can. *)
Definition step_at (c : config) (i : nat) : config :=
  match c.2 !! i with
  | Some th =>
      match step c.1 th with
      | Some (s, th', new) => (s, <[i := th']> c.2 ++ new)
      | None => c
      end
  | None => c
  end.
Definition exec_schedule (c : config) (schedule : list nat) : config := fold_left step_at schedule c.
End future.
Arguments Result : clear implicits.
Arguments Future : clear implicits.
Arguments thread : clear implicits.
Arguments config : clear implicits.
