(* ===== verification/RoutineFutureSpec.v ===== *)
(** Futures under every interleaving: a result is set once, everyone who reads it reads the same, only the
    callbacks for that kind of result are called; executions end; with one registering goroutine every
    callback is called exactly once, with two of them not. *)
From stdpp Require Import base list strings numbers option sorting.
From S2P Require Import Prelude.
From S2P Require Import RoutineFuture.

Section spec.
Context {V : Type} (grow : nat -> nat).
Implicit Types (s : Future V) (c : reg) (x : Result V) (a : arrays) (sl : slice) (v : futureVal (V := V)) (th : thread V).

Definition rkind c : option callbackType := match c with Callback t _ => Some t | Pipe_ _ => None end.

(** The calls that a registration may lead to when the result is [x]. *)
Definition allowed x c : list (nat * option V) :=
  match c with Callback t f => call_now t f x | Pipe_ p => startPipe x p end.

(** ** Slices *)

Lemma get_append_lt a sl c sl' i :
  (i < s_len sl')%nat -> s_array sl' = s_array sl -> (s_len sl' <= s_len sl)%nat ->
  is_Some (a !! s_array sl) -> get (append grow a sl c).1 sl' i = get a sl' i.
Proof using.
  intros Hi Ha Hl [arr Harr]. unfold append, get. rewrite Ha, Harr. destruct (Nat.ltb_spec (s_len sl) (length arr)); cbn [fst snd s_array s_len].
  - rewrite list_lookup_insert_eq by (by eapply lookup_lt_Some). cbn [mbind option_bind]. by rewrite list_lookup_insert_ne by lia.
  - rewrite lookup_app_l by (by eapply lookup_lt_Some). by rewrite Harr.
Qed.

Lemma get_append_ne a sl c sl' i :
  is_Some (a !! s_array sl') -> s_array sl' <> s_array sl -> get (append grow a sl c).1 sl' i = get a sl' i.
Proof using.
  intros [arr' Harr'] Hne. unfold append, get. destruct (a !! s_array sl) as [arr|] eqn:Harr; [|done].
  destruct (Nat.ltb_spec (s_len sl) (length arr)); cbn [fst snd s_array s_len]; [by rewrite list_lookup_insert_ne|].
  rewrite lookup_app_l by (by eapply lookup_lt_Some). done.
Qed.

Lemma append_len a sl c : is_Some (a !! s_array sl) -> s_len (append grow a sl c).2 = S (s_len sl).
Proof using. intros [arr Harr]. unfold append. rewrite Harr. by case_match. Qed.

(** All elements below the length are there. *)
Definition filled a sl : Prop := is_Some (a !! s_array sl) /\ forall i, (i < s_len sl)%nat -> is_Some (get a sl i).

Lemma filled_length a sl arr : filled a sl -> a !! s_array sl = Some arr -> (s_len sl <= length arr)%nat.
Proof using.
  intros [_ Hf] Harr. destruct (s_len sl) as [|n] eqn:Hn; [lia|]. destruct (Hf n ltac:(lia)) as [c Hc].
  unfold get in Hc. rewrite Harr in Hc. cbn in Hc. destruct (arr !! n) eqn:Hl; [|done].
  apply lookup_lt_Some in Hl. lia.
Qed.

(** The new slice: the old elements and the new one. *)
Lemma get_append_new a sl c i :
  filled a sl ->
  get (append grow a sl c).1 (append grow a sl c).2 i =
    if decide (i < s_len sl)%nat then get a sl i
    else if decide (i = s_len sl) then Some c else get (append grow a sl c).1 (append grow a sl c).2 i.
Proof using.
  intros Hf. destruct (Hf) as [[arr Harr] _]. pose proof (filled_length a sl arr Hf Harr) as Hlen.
  unfold append, get. rewrite Harr. destruct (Nat.ltb_spec (s_len sl) (length arr)) as [Hlt|Hge]; cbn [fst snd s_array s_len].
  - rewrite list_lookup_insert_eq by (by eapply lookup_lt_Some). cbn [mbind option_bind]. repeat case_decide; [|subst i|done].
    + by rewrite list_lookup_insert_ne by lia.
    + by rewrite list_lookup_insert_eq.
  - rewrite lookup_app_r, Nat.sub_diag by lia. cbn [lookup list_lookup mbind option_bind]. repeat case_decide; [| |done].
    + rewrite lookup_app_l by (rewrite length_take; lia). by rewrite lookup_take_lt.
    + subst i. rewrite lookup_app_r by (rewrite length_take; lia). rewrite length_take.
      rewrite Nat.min_l by lia. by rewrite Nat.sub_diag.
Qed.

(** Appending keeps what is filled, whoever uses it. *)
Lemma get_append_some a sl c sl' i : is_Some (get a sl' i) -> is_Some (get (append grow a sl c).1 sl' i).
Proof using.
  unfold append. destruct (a !! s_array sl) as [arr|] eqn:Harr; [|done]. unfold get.
  destruct (Nat.ltb_spec (s_len sl) (length arr)) as [Hlt|Hge]; cbn [fst snd s_array s_len].
  - destruct (decide (s_array sl' = s_array sl)) as [->|Hne]; [|by rewrite list_lookup_insert_ne].
    rewrite Harr, list_lookup_insert_eq by (by eapply lookup_lt_Some). cbn [mbind option_bind].
    destruct (decide (i = s_len sl)) as [->|]; [by rewrite list_lookup_insert_eq|by rewrite list_lookup_insert_ne].
  - destruct (a !! s_array sl') as [arr'|] eqn:Harr'; [|by intros [? ?]].
    rewrite lookup_app_l by (by eapply lookup_lt_Some). by rewrite Harr'.
Qed.

Lemma array_append_some a sl c (n : nat) : is_Some (a !! n) -> is_Some ((append grow a sl c).1 !! n).
Proof using.
  unfold append. destruct (a !! s_array sl) as [arr|] eqn:Harr; [|done].
  destruct (Nat.ltb_spec (s_len sl) (length arr)); cbn [fst snd s_array s_len].
  - intros H'%lookup_lt_is_Some. apply lookup_lt_is_Some. rewrite length_insert. lia.
  - intros H'%lookup_lt_is_Some. apply lookup_lt_is_Some. rewrite length_app. cbn. lia.
Qed.

Lemma filled_append a sl c sl' : filled a sl' -> filled (append grow a sl c).1 sl'.
Proof using.
  intros [Ha Hf]. split; [by apply array_append_some|]. intros i Hi. apply get_append_some. by apply Hf.
Qed.

Lemma filled_append_new a sl c : filled a sl -> filled (append grow a sl c).1 (append grow a sl c).2.
Proof using.
  intros Hf. pose proof Hf as [Ha Hg]. split.
  - destruct Ha as [arr Harr]. unfold append. rewrite Harr. destruct (Nat.ltb_spec (s_len sl) (length arr)); cbn [fst snd s_array s_len].
    + apply lookup_lt_is_Some. rewrite length_insert. by eapply lookup_lt_Some.
    + apply lookup_lt_is_Some. rewrite length_app. cbn. lia.
  - intros i Hi. rewrite append_len in Hi by done. rewrite get_append_new by done.
    destruct (decide (i < s_len sl)%nat); [by apply Hg|]. rewrite decide_True by lia. done.
Qed.
(** ** The invariant of every execution *)

(** [ka] gives the kind of every array; [R] are the registrations and [X] the results of the program. *)
Context (R : list reg) (X : list (Result V)).
Implicit Types (ka : list (option callbackType)).

Definition typed ka a : Prop :=
  length ka = length a /\
  forall n arr k c, a !! n = Some arr -> ka !! n = Some k -> Some c ∈ arr -> rkind c = k /\ c ∈ R.

Definition val_ok ka a v : Prop :=
  forall c, ka !! s_array (slice_of v c) = Some (rkind c) /\ filled a (slice_of v c).

Lemma slice_with_slice v c sl d :
  slice_of (with_slice v c sl) d = if decide (rkind d = rkind c) then sl else slice_of v d.
Proof using. clear. destruct c as [[]|], d as [[]|]; reflexivity. Qed.

Lemma slice_of_kind v c d : rkind c = rkind d -> slice_of v c = slice_of v d.
Proof using. clear. destruct c as [[]|], d as [[]|]; by intros [= ]. Qed.

Lemma typed_append ka a sl c :
  typed ka a -> ka !! s_array sl = Some (rkind c) -> filled a sl -> c ∈ R ->
  exists ka', ka `prefix_of` ka' /\ typed ka' (append grow a sl c).1 /\
    ka' !! s_array (append grow a sl c).2 = Some (rkind c).
Proof using.
  intros [Hl Ht] Hk [[arr Harr] _] Hc. unfold append. rewrite Harr.
  destruct (Nat.ltb_spec (s_len sl) (length arr)); cbn [fst snd s_array s_len].
  - exists ka. split; [done|]. split; [|done]. split; [by rewrite length_insert|].
    intros n arr' k d Hn Hkn Hd. apply list_lookup_insert_Some in Hn as [(<- & <- & _)|[Hne Hn]]; [|by eapply Ht].
    assert (k = rkind c) as -> by congruence.
    apply list_elem_of_lookup in Hd as [j Hj]. apply list_lookup_insert_Some in Hj as [(_ & [= ->] & _)|[_ Hj]]; [done|].
    eapply Ht; [done|done|by eapply list_elem_of_lookup_2].
  - exists (ka ++ [rkind c]). split; [by apply prefix_app_r|]. split.
    + split; [rewrite !length_app; cbn; lia|]. intros n arr' k d Hn Hkn Hd.
      destruct (decide (n < length a)%nat) as [Hlt|Hge].
      * rewrite lookup_app_l in Hn by done. rewrite lookup_app_l in Hkn by lia. by eapply Ht.
      * assert (n = length a) as ->.
        { apply lookup_lt_Some in Hn. rewrite length_app in Hn. cbn in Hn. lia. }
        rewrite lookup_app_r, Nat.sub_diag in Hn by lia. rewrite lookup_app_r in Hkn by lia.
        rewrite Hl, Nat.sub_diag in Hkn. cbn in Hn, Hkn. simplify_eq.
        apply elem_of_app in Hd as [Hd|[[= ->]|Hd]%elem_of_cons]; [| |by apply elem_of_replicate in Hd as [? _]].
        -- eapply Ht; [done|done|]. apply elem_of_take in Hd as (j & Hj & _). by eapply list_elem_of_lookup_2.
        -- done.
    + by rewrite lookup_app_r, Hl, Nat.sub_diag by lia.
Qed.

(** What later states keep of earlier ones. *)
Record ext ka s ka' s' : Prop := {
  e_ka : ka `prefix_of` ka';
  e_mem : mem s `prefix_of` mem s';
  e_filled : forall sl, filled (arrs s) sl -> filled (arrs s') sl;
  e_get : forall sl i, is_Some (get (arrs s) sl i) -> is_Some (get (arrs s') sl i);
  e_final : final s = true -> final s' = true;
  e_result : forall x, loadResult s = Some x -> loadResult s' = Some x
}.

Lemma val_ok_ext ka s ka' s' v : ext ka s ka' s' -> val_ok ka (arrs s) v -> val_ok ka' (arrs s') v.
Proof using.
  intros He Hv c. destruct (Hv c) as [Hk Hf]. split; [by eapply prefix_lookup_Some, e_ka|by eapply e_filled].
Qed.

Record sinv ka s : Prop := {
  si_current : is_Some (loadVal s);
  si_vals : forall p v, mem s !! p = Some v -> val_ok ka (arrs s) v /\ (p <> val s -> r v = None);
  si_typed : typed ka (arrs s);
  si_final : final s = true -> is_Some (loadResult s);
  si_calls : forall e, e ∈ calls s -> exists x c, loadResult s = Some x /\ c ∈ R /\ e ∈ allowed x c
}.

(** The position of a pending value: loaded before there was a result. *)
Definition open_at s (p : nat) : Prop := exists v, mem s !! p = Some v /\ r v = None.

Definition elem_ok ka a x (e : slice * nat) : Prop :=
  is_Some (get a e.1 e.2) /\
  match ka !! s_array e.1 with Some (Some t) => due t x = true | Some None => True | None => False end.

Definition tinv ka s th : Prop :=
  match th with
  | Adder ALoad todo => todo ⊆ R
  | Adder (AAppend p) todo => todo ⊆ R /\ open_at s p
  | Adder (ACas p nv) todo => todo ⊆ R /\ open_at s p /\ r nv = None /\ val_ok ka (arrs s) nv
  | Setter x SLoad => x ∈ X
  | Setter x (SCas p) => x ∈ X /\ open_at s p
  | Setter x (SClose v) => x ∈ X /\ loadResult s = Some x /\ val_ok ka (arrs s) v
  | SetDone x won => x ∈ X /\ if won then loadResult s = Some x /\ final s = true else is_Some (loadResult s)
  | Exec x todo => loadResult s = Some x /\ Forall (elem_ok ka (arrs s) x) todo
  | Getter => True
  | Got o => loadResult s = o /\ is_Some o
  end.

Lemma tinv_ext ka s ka' s' th :
  ext ka s ka' s' -> tinv ka s th -> tinv ka' s' th.
Proof using.
  intros He. pose proof (e_get _ _ _ _ He) as Hget. assert (Ho : forall p, open_at s p -> open_at s' p).
  { intros p (v & Hv & Hr). exists v. split; [by eapply prefix_lookup_Some, e_mem|done]. }
  pose proof (e_result _ _ _ _ He) as Hres. pose proof (val_ok_ext ka s ka' s') as Hvo.
  destruct th as [[|p|p nv] todo|x [|p|v]|x []|x todo| |[o|]]; cbn; try done.
  - intros [? ?]. split; [done|by apply Ho].
  - intros (? & ? & ? & ?). split; [done|]. split; [by apply Ho|]. split; [done|by eapply Hvo].
  - intros [? ?]. split; [done|by apply Ho].
  - intros (? & ? & ?). split; [done|]. split; [by apply Hres|by eapply Hvo].
  - intros (? & ? & ?). split; [done|]. split; [by apply Hres|by apply (e_final _ _ _ _ He)].
  - intros (? & y & Hy). split; [done|]. exists y. by apply Hres.
  - intros [Hx Hf]. split; [by apply Hres|]. eapply Forall_impl; [exact Hf|]. intros [sl i] [Hg Hk].
    split; [by apply Hget|]. cbn in *. destruct (ka !! s_array sl) as [k|] eqn:Hka; [|done].
    by rewrite (prefix_lookup_Some _ _ _ _ Hka (e_ka _ _ _ _ He)).
  - intros [? ?]. split; [by apply Hres|done].
  - by intros [? [? ?]].
Qed.
(** *** Steps *)

(** The result a thread has set. *)
Definition win th : option (Result V) :=
  match th with Setter x (SClose _) => Some x | SetDone x true => Some x | _ => None end.

(** A step leaves the result and who has set it, or sets it. *)
Definition decides s th s' th' : Prop :=
  (win th' = win th /\ loadResult s' = loadResult s) \/
  (loadResult s = None /\ win th = None /\ exists x, win th' = Some x /\ loadResult s' = Some x).

Lemma ext_refl ka s : ext ka s ka s.
Proof using. by split. Qed.

Lemma loadResult_current s v : loadVal s = Some v -> loadResult s = r v.
Proof using. intros Hv. unfold loadResult. by rewrite Hv. Qed.

Lemma record_calls_ext ka s l : ext ka s ka (record_calls s l).
Proof using. by split. Qed.

Lemma record_calls_sinv ka s l x c :
  sinv ka s -> loadResult s = Some x -> c ∈ R -> (forall e, e ∈ l -> e ∈ allowed x c) -> sinv ka (record_calls s l).
Proof using.
  intros [Hc Hv Ht Hf Hl] Hx HcR Hall. split; try done. cbn [calls record_calls].
  intros e [He|He]%elem_of_app; [by apply Hl|]. exists x, c. split; [done|]. split; [done|by apply Hall].
Qed.

Lemma set_val_loadVal s v : loadVal (set_val s v) = Some v.
Proof using. unfold loadVal, set_val. cbn. by rewrite lookup_app_r, Nat.sub_diag by lia. Qed.

Lemma set_val_ext ka s v : loadResult s = None -> ext ka s ka (set_val s v).
Proof using.
  intros Hn. split; try done; [by apply prefix_app_r|]. intros x Hx. congruence.
Qed.

Lemma set_val_sinv ka s v :
  sinv ka s -> loadResult s = None -> val_ok ka (arrs s) v -> sinv ka (set_val s v).
Proof using.
  intros [[v0 Hv0] Hv Ht Hf Hl] Hn Hok. split.
  - exists v. apply set_val_loadVal.
  - intros p v' Hp. cbn [mem val arrs set_val] in *. destruct (decide (p < length (mem s))%nat) as [Hlt|Hge].
    + rewrite lookup_app_l in Hp by done. split; [by eapply Hv|]. intros _.
      destruct (decide (p = val s)) as [->|Hne]; [|by eapply Hv].
      rewrite (loadResult_current s v0 Hv0) in Hn. unfold loadVal in Hv0. congruence.
    + assert (p = length (mem s)) as ->.
      { apply lookup_lt_Some in Hp. rewrite length_app in Hp. cbn in Hp. lia. }
      rewrite lookup_app_r, Nat.sub_diag in Hp by lia. cbn in Hp. simplify_eq. done.
  - done.
  - intros Hfin. destruct (Hf Hfin) as [? ?]. congruence.
  - intros e He. destruct (Hl e He) as (x & ? & ? & _). congruence.
Qed.

(** A compare-and-swap that succeeds from an open value happens before there is a result. *)
Lemma open_current s (p : nat) v : open_at s p -> val s = p -> loadResult s = None.
Proof using. intros (v' & Hv' & Hr) <-. by rewrite (loadResult_current s v' Hv'). Qed.

Lemma add_step_inv ka s pc c todo s' th' :
  sinv ka s -> tinv ka s (Adder pc (c :: todo)) -> add_step grow s pc c todo = Some (s', th') ->
  exists ka', ext ka s ka' s' /\ sinv ka' s' /\ tinv ka' s' th' /\ decides s (Adder pc (c :: todo)) s' th'.
Proof using.
  intros Hs Ht Hstep. destruct pc as [|p|p nv]; cbn in Ht, Hstep.
  - destruct (loadVal s) as [v|] eqn:Hv; [|done]. cbn in Hstep. pose proof (loadResult_current s v Hv) as Hr.
    destruct (r v) as [x|] eqn:Hrv; [|simplify_eq].
    + assert (c ∈ R) by (apply Ht; by constructor). assert (todo ⊆ R) by (intros d Hd; apply Ht; by constructor).
      exists ka. destruct c as [t f|q]; simplify_eq; (split; [by apply record_calls_ext|split; [|split; [done|by left]]]).
      * by eapply record_calls_sinv.
      * eapply record_calls_sinv; [done|done|done|]. intros e. cbn. unfold pipe_now, startPipe, getPipe.
        destruct (Typ x) eqn:Htyp; rewrite ?bool_decide_eq_true_2, ?bool_decide_eq_false_2 by done; [done|done|].
        by intros ?%not_elem_of_nil.
    + exists ka. split; [apply ext_refl|]. split; [done|]. split; [|by left]. split; [done|]. by exists v.
  - destruct Ht as (Ht & v & Hv & Hr). rewrite Hv in Hstep. cbn in Hstep.
    assert (Hc : c ∈ R) by (apply Ht; by constructor).
    destruct (si_vals _ _ Hs p v Hv) as [Hok _]. destruct (Hok c) as [Hk Hf].
    destruct (typed_append ka (arrs s) (slice_of v c) c (si_typed _ _ Hs) Hk Hf Hc) as (ka' & Hpre & Htyped & Hk').
    pose proof (filled_append_new _ _ c Hf) as Hfn. pose proof (fun sl => filled_append (arrs s) (slice_of v c) c sl) as Hfa.
    pose proof (fun sl i => get_append_some (arrs s) (slice_of v c) c sl i) as Hga.
    destruct (append grow (arrs s) (slice_of v c) c) as [a' sl'] eqn:Happ. cbn [fst snd] in *. simplify_eq.
    assert (He : ext ka s ka' (set_arrs s a')) by by split. exists ka'. split; [done|]. split; [|split; [|by left]].
    + destruct Hs as [Hcur Hvals _ Hfin Hcalls]. split; try done.
      intros q v' Hq. destruct (Hvals q v' Hq) as [Hok' Hr']. split; [by eapply val_ok_ext|done].
    + split; [done|]. split; [by exists v|]. split; [by destruct c as [[]|]|].
      intros d. rewrite slice_with_slice. case_decide as Hd; [by rewrite Hd|]. by eapply (val_ok_ext ka s ka').
  - destruct Ht as (Ht & Hop & Hr & Hok). exists ka. destruct (Nat.eqb_spec (val s) p) as [Hp|Hne]; simplify_eq.
    + pose proof (open_current s _ nv Hop eq_refl) as Hn.
      split; [by apply set_val_ext|]. split; [by apply set_val_sinv|].
      split; [intros d Hd; apply Ht; by constructor|]. left. split; [done|].
      by rewrite Hn, (loadResult_current _ _ (set_val_loadVal s nv)).
    + split; [apply ext_refl|]. split; [done|]. split; [done|by left].
Qed.
Lemma indices_ok ka a x v c :
  val_ok ka a v -> (match rkind c with Some t => due t x = true | None => True end) ->
  Forall (elem_ok ka a x) (indices (slice_of v c)).
Proof using.
  intros Hok Hd. apply Forall_forall. intros [sl i] Hin. apply list_elem_of_fmap in Hin as (j & [= -> ->] & Hj).
  apply elem_of_seq in Hj. destruct (Hok c) as [Hk [_ Hf]]. split; [apply Hf; cbn; lia|]. cbn. rewrite Hk.
  by destruct (rkind c).
Qed.

Lemma execCallback_ok ka a x v : val_ok ka a v -> Forall (elem_ok ka a x) (execCallback x v).
Proof using.
  intros Hok. pose proof (fun t => indices_ok ka a x v (Callback t 0) Hok) as Hi. unfold execCallback.
  destruct (Typ x) eqn:Hx; rewrite ?Forall_app; repeat split.
  - apply (Hi CallbackDone). cbn. unfold due. by rewrite Hx.
  - apply (Hi CallbackAlways). cbn. unfold due. by rewrite Hx.
  - apply (Hi CallbackFail). cbn. unfold due. by rewrite Hx.
  - apply (Hi CallbackAlways). cbn. unfold due. by rewrite Hx.
  - apply (Hi CallbackCancel). cbn. unfold due. by rewrite Hx.
Qed.

Lemma set_step_inv ka s x pc s' th' new :
  sinv ka s -> tinv ka s (Setter x pc) -> set_step s x pc = Some (s', th', new) ->
  ext ka s ka s' /\ sinv ka s' /\ tinv ka s' th' /\ Forall (tinv ka s') new /\ decides s (Setter x pc) s' th' /\
  omap win new = [].
Proof using.
  intros Hs Ht Hstep. destruct pc as [|p|v]; cbn in Ht, Hstep.
  - destruct (loadVal s) as [v|] eqn:Hv; [|done]. cbn in Hstep. pose proof (loadResult_current s v Hv) as Hr.
    destruct (r v) as [y|] eqn:Hrv; simplify_eq; (split; [apply ext_refl|split; [done|split; [|split; [done|split; [by left|done]]]]]).
    + split; [done|]. by rewrite Hr.
    + split; [done|]. by exists v.
  - destruct Ht as (Hx & Hop). pose proof Hop as (v & Hv & Hr). rewrite Hv in Hstep. cbn in Hstep.
    destruct (Nat.eqb_spec (val s) p) as [Hp|Hne]; simplify_eq.
    + pose proof (open_current s _ v Hop eq_refl) as Hn. destruct (si_vals _ _ Hs _ _ Hv) as [Hok _].
      assert (Hres : loadResult (set_val s (with_r v x)) = Some x) by by rewrite (loadResult_current _ _ (set_val_loadVal s _)).
      assert (Hok' : val_ok ka (arrs s) (with_r v x)) by (intros c; specialize (Hok c); by destruct c as [[]|]).
      split; [by apply set_val_ext|]. split; [by apply set_val_sinv|]. split; [done|]. split; [done|].
      split; [|done]. right. split; [done|]. split; [done|]. by exists x.
    + split; [apply ext_refl|]. split; [done|]. split; [done|]. split; [done|]. split; [by left|done].
  - destruct Ht as (Hx & Hres & Hok). simplify_eq. split; [by split|]. split; [|split; [done|]].
    { destruct Hs as [? ? ? ? ?]. split; done. }
    split; [|split; [by left|unfold spawned; by repeat case_match]]. unfold spawned. apply Forall_app.
    split; (case_match; [done|]); apply Forall_singleton; (split; [done|]); [by apply execCallback_ok|].
    by apply (indices_ok ka _ x v (Pipe_ {| pipeDoneTask := None; pipeFailTask := None |})).
Qed.

Lemma step_inv ka s th s' th' new :
  sinv ka s -> tinv ka s th -> step grow s th = Some (s', th', new) ->
  exists ka', ext ka s ka' s' /\ sinv ka' s' /\ tinv ka' s' th' /\ Forall (tinv ka' s') new /\ decides s th s' th' /\
    omap win new = [].
Proof using.
  intros Hs Ht Hstep. destruct th as [pc [|c todo]|x pc|x won|x [|[sl i] todo]| |o]; cbn in Hstep; try done.
  - destruct (add_step grow s pc c todo) as [[s1 th1]|] eqn:Ha; [|done]. cbn in Hstep. simplify_eq.
    destruct (add_step_inv ka s pc c todo s' th' Hs Ht Ha) as (ka' & He & Hs' & Ht' & Hd).
    exists ka'. by repeat (split; [done|]).
  - exists ka. by apply set_step_inv.
  - destruct Ht as [Hx [[Hg Hk] Htodo]%Forall_cons]. cbn in Hg, Hk. destruct (get (arrs s) sl i) as [c|] eqn:Hc; [|done].
    cbn in Hstep. simplify_eq. exists ka. split; [apply record_calls_ext|]. split; [|split; [done|split; [done|split; [by left|done]]]].
    assert (HcR : forall k, ka !! s_array sl = Some k -> rkind c = k /\ c ∈ R).
    { intros k Hk'. unfold get in Hc. destruct (arrs s !! s_array sl) as [arr|] eqn:Harr; [|done]. cbn in Hc.
      destruct (arr !! i) as [o|] eqn:Hi; [|done]. cbn in Hc. subst o.
      destruct (si_typed _ _ Hs) as [_ Hty]. eapply Hty; [exact Harr|exact Hk'|]. by eapply list_elem_of_lookup_2. }
    destruct (ka !! s_array sl) as [k|]; [|done]. destruct (HcR k eq_refl) as [Hkind HcR'].
    eapply record_calls_sinv; [done|done|exact HcR'|]. intros e He. destruct c as [t f|q]; [|done].
    cbn in Hkind. subst k. cbn in He |- *. unfold call_now. by rewrite Hk.
  - destruct (final s) eqn:Hf; [|done]. simplify_eq. exists ka. split; [apply ext_refl|]. split; [done|].
    split; [|split; [done|split; [by left|done]]]. split; [done|]. by apply (si_final _ _ Hs).
Qed.

(** *** Configurations *)

Definition winners (ths : list (thread V)) : list (Result V) := omap win ths.

Definition cinv (c : config V) : Prop :=
  exists ka, sinv ka c.1 /\ Forall (tinv ka c.1) c.2 /\ winners c.2 = option_list (loadResult c.1).

Lemma omap_middle {A B} (f : A -> option B) (l : list A) (i : nat) (x y : A) :
  l !! i = Some x -> exists l1 l2, omap f l = l1 ++ option_list (f x) ++ l2 /\ omap f (<[i := y]> l) = l1 ++ option_list (f y) ++ l2.
Proof using.
  intros Hi. exists (omap f (take i l)), (omap f (drop (S i) l)). split.
  - rewrite <- (take_drop_middle l i x Hi) at 1. rewrite omap_app. f_equal. cbn. by destruct (f x).
  - rewrite insert_take_drop by (by eapply lookup_lt_Some). rewrite omap_app. f_equal. cbn. by destruct (f y).
Qed.

Lemma winners_insert s th s' th' ths i :
  ths !! i = Some th -> decides s th s' th' -> winners ths = option_list (loadResult s) ->
  winners (<[i := th']> ths) = option_list (loadResult s').
Proof using.
  intros Hi Hd Hw. unfold winners in *. destruct (omap_middle win ths i th th' Hi) as (l1 & l2 & H1 & H2).
  rewrite H2. rewrite H1 in Hw. destruct Hd as [[-> ->]|(Hn & Hwn & x & -> & ->)]; [done|].
  rewrite Hn, Hwn in Hw. cbn in *. apply app_eq_nil in Hw as [-> ->]. done.
Qed.

Lemma step_at_inv (c : config V) (i : nat) : cinv c -> cinv (step_at grow c i).
Proof using.
  intros (ka & Hs & Hts & Hw). unfold step_at. destruct (c.2 !! i) as [th|] eqn:Hi; [|by exists ka].
  destruct (step grow c.1 th) as [[[s' th'] new]|] eqn:Hstep; [|by exists ka].
  pose proof (Forall_lookup_1 _ _ _ _ Hts Hi) as Ht.
  destruct (step_inv ka c.1 th s' th' new Hs Ht Hstep) as (ka' & He & Hs' & Ht' & Hnew & Hd & Hwn).
  exists ka'. split; [done|]. cbn [fst snd]. split.
  - apply Forall_app. split; [|done]. apply Forall_insert; [|done]. eapply Forall_impl; [exact Hts|].
    intros t. by apply tinv_ext.
  - unfold winners. rewrite omap_app, Hwn, app_nil_r. by eapply winners_insert.
Qed.

Lemma schedule_inv (l : list nat) : forall c : config V, cinv c -> cinv (exec_schedule grow c l).
Proof using. induction l as [|i l IH]; intros c Hc; [done|]. cbn. apply IH. by apply step_at_inv. Qed.

(** Results stay. *)
Lemma schedule_result (l : list nat) : forall (c : config V) x, cinv c -> loadResult c.1 = Some x -> loadResult (exec_schedule grow c l).1 = Some x.
Proof using.
  induction l as [|i l IH]; intros c x Hc Hx; [done|]. cbn. apply IH; [by apply step_at_inv|].
  destruct Hc as (ka & Hs & Hts & Hw). unfold step_at. destruct (c.2 !! i) as [th|] eqn:Hi; [|done].
  destruct (step grow c.1 th) as [[[s' th'] new]|] eqn:Hstep; [|done].
  pose proof (Forall_lookup_1 _ _ _ _ Hts Hi) as Ht.
  destruct (step_inv ka c.1 th s' th' new Hs Ht Hstep) as (ka' & He & _). by apply (e_result _ _ _ _ He).
Qed.
End spec.

(** ** Programs *)

Section programs.
Context {V : Type} (grow : nat -> nat).
Implicit Types (ths : list (thread V)) (x : Result V).

(** Threads that have not taken a step. *)
Definition fresh (th : thread V) : bool :=
  match th with Adder ALoad _ | Setter _ SLoad | Getter => true | _ => false end.
Definition registrations ths : list reg := ths ≫= fun th => match th with Adder _ todo => todo | _ => [] end.
Definition offered ths : list (Result V) := omap (fun th => match th with Setter x _ => Some x | _ => None end) ths.

Lemma NewPromise_sinv R : sinv R [Some CallbackDone; Some CallbackFail; Some CallbackAlways; Some CallbackCancel; None]
  (NewPromise (V := V)).
Proof using.
  split; try done.
  - intros [|p] v Hv; [|done]. injection Hv as <-. split; [|done].
    intros [[]|]; (split; [done|split; [done|intros i Hi; cbn in Hi; lia]]).
  - split; [done|]. intros n arr k c Hn _ Hc. exfalso.
    do 5 (destruct n as [|n]; [injection Hn as <-; by repeat (apply elem_of_cons in Hc as [?|Hc]; [done|]); apply not_elem_of_nil in Hc|]).
    done.
  - intros e He. by apply not_elem_of_nil in He.
Qed.

Lemma fresh_tinv R X ka s th :
  fresh th = true -> registrations [th] ⊆ R -> offered [th] ⊆ X -> tinv R X ka s th.
Proof using.
  intros Hf HR HX. destruct th as [[] todo|x []|x won|x todo| |o]; try done; cbn in *.
  - by rewrite app_nil_r in HR.
  - apply HX. by constructor.
Qed.

Lemma initial_cinv ths : forallb fresh ths = true -> cinv (registrations ths) (offered ths) (NewPromise, ths).
Proof using.
  intros Hf. eexists. split; [apply NewPromise_sinv|]. cbn [fst snd]. split.
  - apply Forall_forall. intros th Hin. apply fresh_tinv.
    + by apply (proj1 (forallb_forall _ _) Hf), list_elem_of_In.
    + intros c Hc. cbn in Hc. rewrite app_nil_r in Hc. apply list_elem_of_bind. by exists th.
    + intros x Hx. apply list_elem_of_omap in Hx as (th' & ->%list_elem_of_singleton & Hx).
      apply list_elem_of_omap. by exists th.
  - cbn. unfold winners. induction ths as [|th ths IH]; [done|]. cbn in Hf. apply andb_true_iff in Hf as [H1 H2].
    cbn. by destruct th as [|? []|? []| | |]; cbn; rewrite ?IH.
Qed.
End programs.

(** C16: Whatever goroutines share a future (any number of resolvers, rejecters, cancellers, readers and
    registrations of callbacks and pipes), and in whatever order their accesses to the shared memory
    interleave: at most one [setResult] succeeds; its result was offered by the program and is
    never replaced; every [Get] that returns, returns it; and only callbacks and pipes registered by the
    program for this kind of result are called, with this result as their argument. *)
Theorem future_assigned_once {V} (grow : nat -> nat) (ths : list (thread V)) (schedule later : list nat) :
  forallb fresh ths = true ->
  let c := exec_schedule grow (NewPromise, ths) schedule in
  let c' := exec_schedule grow c later in
  (length (winners c.2) <= 1)%nat /\ winners c.2 ⊆ offered ths /\
  (forall x, x ∈ winners c.2 -> winners c'.2 = [x] /\ loadResult c'.1 = Some x) /\
  (final c.1 = true -> winners c.2 <> []) /\
  (forall o, Got o ∈ c.2 -> exists x, o = Some x /\ winners c.2 = [x]) /\
  (forall f arg, (f, arg) ∈ calls c.1 ->
    exists x reg, winners c.2 = [x] /\ reg ∈ registrations ths /\ (f, arg) ∈ allowed x reg).
Proof.
  intros Hf c c'. pose proof (initial_cinv ths Hf) as Hi.
  assert (Hc : cinv (registrations ths) (offered ths) c) by by apply schedule_inv.
  assert (Hc' : cinv (registrations ths) (offered ths) c') by by apply schedule_inv.
  destruct (Hc') as (_ & _ & _ & Hw'). pose proof (schedule_result grow (registrations ths) (offered ths) later c) as Hres.
  destruct (Hc) as (ka & Hs & Hts & Hw). rewrite Hw. split; [by destruct (loadResult c.1); cbn; lia|].
  split; [|split; [|split; [|split]]].
  - intros x Hx. rewrite <- Hw in Hx. apply list_elem_of_omap in Hx as (th & Hth & Hwin).
    rewrite Forall_forall in Hts. specialize (Hts th Hth).
    destruct th as [|y [| |]|y []| | |]; cbn in *; simplify_eq; by destruct Hts.
  - intros x Hx. destruct (loadResult c.1) as [y|] eqn:Hy; [|by apply not_elem_of_nil in Hx].
    apply list_elem_of_singleton in Hx as ->. specialize (Hres y Hc eq_refl). fold c' in Hres. rewrite Hw'. by rewrite Hres.
  - intros Hfin. destruct (si_final _ _ _ Hs Hfin) as [x ->]. done.
  - intros o Ho. rewrite Forall_forall in Hts. destruct (Hts _ Ho) as [Hl [x ->]]. exists x. by rewrite Hl.
  - intros f arg He. destruct (si_calls _ _ _ Hs _ He) as (x & reg & Hx & HR & Hal). exists x, reg. by rewrite Hx.
Qed.

Definition demo_threads : list (thread Z) :=
  [Adder ALoad [OnSuccess 1; OnCancel 2; Pipe_ {| pipeDoneTask := Some 3%nat; pipeFailTask := None |}];
   Adder ALoad [OnComplete 4]; Resolve 7; Cancel (-1); Getter].
Definition demo_schedule : list nat := [0; 0; 1; 0; 1; 1; 1; 1; 1; 0; 0; 0; 0; 0; 0; 2; 3; 2; 3; 3; 2; 4; 5; 5; 6]%nat.

Lemma future_assigned_once_witness :
  forallb fresh demo_threads = true /\
  let c := exec_schedule (fun n => 2 * n)%nat (NewPromise, demo_threads) demo_schedule in
  winners c.2 = [{| Result_ := 7; Typ := ResultSuccess |}] /\
  calls c.1 = [(1%nat, Some 7); (4%nat, Some 7); (3%nat, Some 7)] /\
  (length (winners c.2) <= 1)%nat.
Proof.
  split; [reflexivity|]. split; [reflexivity|]. split; [reflexivity|].
  exact (proj1 (future_assigned_once (fun n => 2 * n)%nat demo_threads demo_schedule [] eq_refl)).
Defined.
