(* ===== verification/RoutineFutureEnd.v ===== *)
(** Futures: executions end, and with one registering goroutine every callback is called exactly once. *)
From Stdlib Require Import Relation_Operators Lexicographic_Product.
From stdpp Require Import base list strings numbers option sorting.
From S2P Require Import Prelude.
From S2P Require Import RoutineFuture.
From S2P Require Import RoutineFutureSpec.

Section ends.
Context {V : Type} (grow : nat -> nat) (R : list reg) (X : list (Result V)).
Implicit Types (s : Future V) (th : thread V) (ths : list (thread V)) (x : Result V).

(** A step of one of the threads. *)
Definition moves (c c' : config V) : Prop :=
  exists i th s' th' new, c.2 !! i = Some th /\ step grow c.1 th = Some (s', th', new) /\ c' = (s', <[i := th']> c.2 ++ new).

Lemma moves_step_at c c' : moves c c' -> exists i, c' = step_at grow c i.
Proof using.
  intros (i & th & s' & th' & new & Hi & Hs & ->). exists i. unfold step_at. by rewrite Hi, Hs.
Qed.

Lemma moves_cinv c c' : cinv R X c -> moves c c' -> cinv R X c'.
Proof using. intros Hc (i & ->)%moves_step_at. by apply step_at_inv. Qed.

(** ** Termination *)

(** The compare-and-swaps that can still succeed. *)
Definition swaps_left (c : config V) : nat :=
  length (registrations c.2) + match loadResult c.1 with None => 1 | Some _ => 0 end.

(** The steps of a thread until its next compare-and-swap or its end; more when it works on an old value. *)
Definition local_work (v : nat) th : nat :=
  match th with
  | Adder _ [] => 0
  | Adder ALoad _ => 3
  | Adder (AAppend p) _ => if (p =? v)%nat then 2 else 5
  | Adder (ACas p _) _ => if (p =? v)%nat then 1 else 4
  | Setter _ SLoad => 3
  | Setter _ (SCas p) => if (p =? v)%nat then 2 else 4
  | Setter x (SClose w) => 1 + length (execCallback x w) + s_len (pipes w)
  | Exec _ todo => length todo
  | Getter => 1
  | _ => 0
  end.
Definition work (v : nat) ths : nat := sum_list_with (local_work v) ths.

Definition measure (c : config V) : nat * nat := (swaps_left c, work (val c.1) c.2).

Lemma work_insert v ths i th th' new :
  ths !! i = Some th ->
  (work v (<[i := th']> ths ++ new) + local_work v th = work v ths + local_work v th' + work v new)%nat.
Proof using.
  apply sum_next.
Qed.

Lemma registrations_insert ths i th th' new :
  ths !! i = Some th ->
  (length (registrations (<[i := th']> ths ++ new)) + length (registrations [th]) =
   length (registrations ths) + length (registrations [th']) + length (registrations new))%nat.
Proof using.
  intros Hi. unfold registrations. rewrite <- (take_drop_middle ths i th Hi) at 2.
  rewrite insert_take_drop by (by eapply lookup_lt_Some).
  rewrite !bind_app, !length_app. cbn. rewrite !app_nil_r, !length_app. lia.
Qed.
Definition undecided s : nat := match loadResult s with None => 1 | Some _ => 0 end.
Context (no_pipes : forall c, c ∈ R -> rkind c <> None).

Lemma step_decreases ka s th s' th' new :
  sinv R ka s -> tinv R X ka s th -> step grow s th = Some (s', th', new) ->
  let left t n s := (length (registrations [t]) + length (registrations n) + undecided s)%nat in
  (left th' new s' < left th [] s)%nat \/
  left th' new s' = left th [] s /\ val s' = val s /\ (local_work (val s) th' + work (val s) new < local_work (val s) th)%nat.
Proof using no_pipes.
  intros Hs Ht Hstep left.
  destruct th as [pc [|c todo]|x pc|x won|x [|[sl i] todo]| |o]; cbn [step] in Hstep; try done.
  - destruct (add_step grow s pc c todo) as [[s1 th1]|] eqn:Ha; [|done]. cbn in Hstep. simplify_eq.
    destruct pc as [|p|p nv]; cbn in Ha, Ht.
    + destruct (loadVal s) as [v|] eqn:Hv; [|done]. cbn in Ha. destruct (r v) as [y|]; simplify_eq.
      * destruct c as [t f|q]; [|destruct (no_pipes (Pipe_ q)); [apply Ht; by constructor|done]].
        simplify_eq. left. unfold left. change (undecided (record_calls s _)) with (undecided s). generalize (undecided s).
        intros n. cbn. rewrite !app_nil_r. lia.
      * right. split; [done|]. split; [done|]. cbn. rewrite Nat.eqb_refl. lia.
    + destruct (mem s !! p) as [v|]; [|done]. cbn in Ha. destruct (append _ _ _ _). simplify_eq.
      right. split; [done|]. split; [done|]. cbn. destruct (p =? val s)%nat; lia.
    + destruct Ht as (_ & Hop & _). destruct (Nat.eqb_spec (val s) p) as [Hp|Hne]; simplify_eq.
      * left. unfold left, undecided. cbn. rewrite (open_current s _ nv Hop eq_refl), !app_nil_r.
        case_match; lia.
      * right. split; [done|]. split; [done|]. cbn. destruct (Nat.eqb_spec p (val s')); [congruence|lia].
  - destruct pc as [|p|v]; cbn in Hstep, Ht.
    + destruct (loadVal s) as [v|]; [|done]. cbn in Hstep. destruct (r v); simplify_eq; right;
        (split; [done|split; [done|]]); cbn; [lia|]. rewrite Nat.eqb_refl. lia.
    + destruct Ht as (_ & Hop). destruct (mem s !! p) as [v|]; [|done]. cbn in Hstep.
      destruct (Nat.eqb_spec (val s) p) as [Hp|Hne]; simplify_eq.
      * left. unfold left, undecided. rewrite (open_current s _ v Hop eq_refl).
        rewrite (loadResult_current _ _ (set_val_loadVal s _)). cbn. lia.
      * right. split; [done|]. split; [done|]. cbn. destruct (Nat.eqb_spec p (val s')); [congruence|lia].
    + simplify_eq. right. unfold left, spawned. repeat case_match; cbn;
        (split; [done|split; [done|]]); unfold indices; rewrite ?length_fmap, ?length_seq; lia.
  - destruct (get (arrs s) sl i); [|done]. cbn in Hstep. simplify_eq. right. split; [done|]. split; [done|]. cbn. lia.
  - destruct (final s); [|done]. simplify_eq. right. split; [done|]. split; [done|]. cbn. lia.
Qed.

Lemma moves_decrease c c' : cinv R X c -> moves c c' -> slexprod nat nat lt lt (measure c') (measure c).
Proof using no_pipes.
  intros (ka & Hs & Hts & _) (i & th & s' & th' & new & Hi & Hstep & ->).
  pose proof (Forall_lookup_1 _ _ _ _ Hts Hi) as Ht.
  pose proof (step_decreases ka _ _ _ _ _ Hs Ht Hstep) as Hd. cbv zeta in Hd.
  pose proof (registrations_insert c.2 i th th' new Hi) as Hr.
  unfold measure, swaps_left. cbn [fst snd]. fold (undecided s') (undecided c.1).
  destruct Hd as [Hd|(Heq & -> & Hw)].
  - apply left_slex. change (length (registrations [])) with 0%nat in Hd. lia.
  - change (length (registrations [])) with 0%nat in Heq.
    replace (length (registrations (<[i:=th']> c.2 ++ new)) + undecided s')%nat
      with (length (registrations c.2) + undecided c.1)%nat by lia.
    apply right_slex. pose proof (work_insert (val c.1) c.2 i th th' new Hi). lia.
Qed.

Lemma moves_acc c : cinv R X c -> Acc (fun c' c => moves c c') c.
Proof using no_pipes.
  intros Hc. remember (measure c) as m eqn:Hm. revert c Hc Hm.
  induction m as [m IH] using (well_founded_induction (wf_slexprod nat nat lt lt lt_wf lt_wf)).
  intros c Hc ->. constructor. intros c' Hmv. eapply IH; [by eapply moves_decrease|by eapply moves_cinv|done].
Qed.

(** ** Where executions end *)

Definition stuck (c : config V) : Prop := forall c', ~ moves c c'.

(** A thread at its end. *)
Definition ended th : bool :=
  match th with Adder _ [] | SetDone _ _ | Exec _ [] | Got _ => true | _ => false end.

Lemma stuck_step c i th : stuck c -> c.2 !! i = Some th -> step grow c.1 th = None.
Proof using.
  intros Hst Hi. destruct (step grow c.1 th) as [[[s' th'] new]|] eqn:Hs; [|done].
  destruct (Hst (s', <[i := th']> c.2 ++ new)). by exists i, th, s', th', new.
Qed.

Lemma blocked_thread ka s th :
  sinv R ka s -> tinv R X ka s th -> step grow s th = None -> ended th = true \/ th = Getter /\ final s = false.
Proof using.
  intros Hs Ht Hstep. destruct (si_current _ _ _ Hs) as [v Hv].
  destruct th as [[|p|p nv] [|c todo]|x [|p|w]|x won|x [|[sl i] todo]| |o]; cbn in *; try by left.
  - rewrite Hv in Hstep. cbn in Hstep. destruct (r v); [by destruct c|done].
  - destruct Ht as (_ & w & Hw & _). rewrite Hw in Hstep. cbn in Hstep. by destruct (append _ _ _ _).
  - by destruct (_ =? _)%nat.
  - rewrite Hv in Hstep. cbn in Hstep. by destruct (r v).
  - destruct Ht as (_ & w & Hw & _). rewrite Hw in Hstep. cbn in Hstep. by destruct (_ =? _)%nat.
  - destruct Ht as [_ [[[c Hc] _] _]%Forall_cons]. cbn in Hc. by rewrite Hc in Hstep.
  - right. by destruct (final s).
Qed.
End ends.

(** ** One registering goroutine *)

Section single.
Context {V : Type} (grow : nat -> nat) (regs : list reg) (X : list (Result V)).
Implicit Types (s : Future V) (th : thread V) (ths : list (thread V)) (x : Result V) (a : arrays) (v : futureVal (V := V)).
Context (no_pipes : forall c, c ∈ regs -> rkind c <> None).

Definition content a (sl : slice) : list (option reg) := get a sl <$> seq 0 (s_len sl).
Definition same (d c : reg) : Prop := rkind c = rkind d.
Instance same_dec d c : Decision (same d c).
Proof. apply option_eq_dec. Defined.

(** The calls that a thread of [setResult] still makes. *)
Definition taken a x (e : slice * nat) : list (nat * option V) :=
  match get a e.1 e.2 with Some c => exec_one x c | None => [] end.
Definition pend a th : list (nat * option V) :=
  match th with
  | Setter x (SClose v) => execCallback x v ≫= taken a x
  | Exec x todo => todo ≫= taken a x
  | _ => []
  end.

Lemma indices_taken a x sl : indices sl ≫= taken a x = content a sl ≫= fun o => match o with Some c => exec_one x c | None => [] end.
Proof using. unfold indices, content. by rewrite !list_fmap_bind. Qed.

Lemma contents_taken a x sl (l : list reg) : content a sl = Some <$> l -> indices sl ≫= taken a x = l ≫= exec_one x.
Proof using. intros Hc. rewrite indices_taken, Hc. by rewrite list_fmap_bind. Qed.

(** The callbacks that are due are those in the slices that [execCallback] visits. *)
Lemma due_split x (l : list reg) :
  (forall c, c ∈ l -> rkind c <> None) ->
  Permutation (l ≫= allowed x)
    (match Typ x with
     | ResultSuccess => (filter (same (OnSuccess 0)) l ≫= exec_one x) ++ (filter (same (OnComplete 0)) l ≫= exec_one x)
     | ResultFailure => (filter (same (OnFailure 0)) l ≫= exec_one x) ++ (filter (same (OnComplete 0)) l ≫= exec_one x)
     | ResultCancelled => filter (same (OnCancel 0)) l ≫= exec_one x
     end).
Proof using.
  induction l as [|c l IH]; intros Hnp; [by destruct (Typ x)|].
  destruct c as [t f|p]; [|by destruct (Hnp (Pipe_ p)); [constructor|]].
  rewrite bind_cons, IH by (intros c Hc; apply Hnp; by constructor). cbn [allowed]. unfold call_now, due.
  destruct (Typ x), t; rewrite !filter_cons; unfold same at 1 3; cbn [rkind OnSuccess OnComplete OnFailure OnCancel];
    repeat (first [rewrite decide_True by done|rewrite decide_False by done]); cbn; try done.
  all: by rewrite Permutation_middle.
Qed.
(** The invariant: the adder is the first thread; [done] is registered, [l0] is what the slices hold. *)
Definition exec_ok v th : Prop :=
  match th with
  | Setter _ (SClose w) => forall d, slice_of w d = slice_of v d
  | Exec _ todo => forall e, e ∈ todo -> exists d, e.1 = slice_of v d /\ (e.2 < s_len e.1)%nat
  | Adder _ _ => False
  | _ => True
  end.

Definition pc_ok s v (done todo : list reg) (pc : add_pc (V := V)) : Prop :=
  match pc with
  | ALoad => True
  | AAppend p => exists vp, mem s !! p = Some vp /\ (forall d, slice_of vp d = slice_of v d) /\ (r v = None -> p = val s)
  | ACas p nv => exists c todo', todo = c :: todo' /\
      (r v = None -> p = val s /\ forall d, content (arrs s) (slice_of nv d) = Some <$> filter (same d) (done ++ [c]))
  end.

Record binv (s : Future V) (pc : add_pc (V := V)) (todo : list reg) ths : Prop := {
  b_cinv : cinv regs X (s, Adder pc todo :: ths);
  b_body : exists done v l0,
    regs = done ++ todo /\ loadVal s = Some v /\ pc_ok s v done todo pc /\ Forall (exec_ok v) ths /\
    (forall d, content (arrs s) (slice_of v d) = Some <$> filter (same d) l0) /\
    match r v with
    | None => l0 = done /\ calls s = []
    | Some x => Permutation (calls s ++ (ths ≫= pend (arrs s)) ++ (todo ≫= allowed x)) (regs ≫= allowed x)
    end
}.

Lemma bind_insert_perm {A B} (f : A -> list B) (l : list A) (i : nat) (y z : A) :
  l !! i = Some y -> exists q, Permutation (l ≫= f) (f y ++ q) /\ Permutation (<[i := z]> l ≫= f) (f z ++ q).
Proof using.
  clear. intros Hi. exists ((take i l ≫= f) ++ (drop (S i) l ≫= f)). split.
  - rewrite <- (take_drop_middle l i y Hi) at 1. rewrite bind_app, bind_cons. rewrite !(assoc (++)).
    by rewrite (Permutation_app_comm (_ ≫= _) (f y)).
  - rewrite insert_take_drop by (by eapply lookup_lt_Some). rewrite bind_app, bind_cons. rewrite !(assoc (++)).
    by rewrite (Permutation_app_comm (_ ≫= _) (f z)).
Qed.

(** Before there is a result, nothing is pending. *)
Lemma pend_nil ka s ths : Forall (tinv regs X ka s) ths -> loadResult s = None -> ths ≫= pend (arrs s) = [].
Proof using.
  intros Ht Hn. induction Ht as [|th ths H1 _ IH]; [done|]. rewrite bind_cons, IH, app_nil_r.
  destruct th as [|x [| |w]| |x todo| |]; try done; cbn in H1; naive_solver congruence.
Qed.

Lemma exec_ok_none ka s v w ths : Forall (tinv regs X ka s) ths -> loadResult s = None ->
  Forall (exec_ok v) ths -> Forall (exec_ok w) ths.
Proof using.
  intros Ht Hn. rewrite !Forall_forall in *. intros He th Hth. specialize (Ht th Hth). specialize (He th Hth).
  destruct th as [|x [| |]| |x todo| |]; try done; cbn in Ht; naive_solver congruence.
Qed.

(** Writing into an array behind the slices of [v] leaves what the threads take. *)
Lemma pend_ext a a' v th :
  exec_ok v th -> (forall d i, (i < s_len (slice_of v d))%nat -> get a' (slice_of v d) i = get a (slice_of v d) i) ->
  pend a' th = pend a th.
Proof using.
  intros He Hg. assert (Hl : forall x l, (forall e, e ∈ l -> exists d, e.1 = slice_of v d /\ (e.2 < s_len e.1)%nat) ->
    l ≫= taken a' x = l ≫= taken a x).
  { intros x l. induction l as [|e l IH]; intros Hall; [done|]. rewrite !bind_cons, IH by (intros; apply Hall; by constructor).
    f_equal. destruct (Hall e) as (d & Hd & Hi); [by constructor|]. unfold taken. rewrite Hd in *. by rewrite Hg. }
  destruct th as [|x [| |w]| |x todo| |]; try done; cbn in *; apply Hl; [|done].
  intros e Hin. assert (Hsl : exists d, e ∈ indices (slice_of w d)).
  { unfold execCallback in Hin. destruct (Typ x); rewrite ?elem_of_app in Hin.
    - destruct Hin; [by exists (OnSuccess 0)|by exists (OnComplete 0)].
    - destruct Hin; [by exists (OnFailure 0)|by exists (OnComplete 0)].
    - by exists (OnCancel 0). }
  destruct Hsl as (d & (j & -> & Hj%elem_of_seq)%list_elem_of_fmap). exists d. cbn. rewrite He. split; [done|].
  rewrite <- He. lia.
Qed.
(** What an [append] of the adder changes, seen from the slices of [v]. *)
Lemma append_content ka s v c d :
  sinv regs ka s -> val_ok ka (arrs s) v ->
  let a' := (append grow (arrs s) (slice_of v c) c).1 in
  (forall i, (i < s_len (slice_of v d))%nat -> get a' (slice_of v d) i = get (arrs s) (slice_of v d) i) /\
  content a' (slice_of v d) = content (arrs s) (slice_of v d).
Proof using.
  intros Hs Hok a'.
  assert (Hg : forall i, (i < s_len (slice_of v d))%nat -> get a' (slice_of v d) i = get (arrs s) (slice_of v d) i).
  { intros i Hi. destruct (Hok c) as [Hkc [Hac _]], (Hok d) as [Hkd [Had _]].
    destruct (decide (rkind d = rkind c)) as [Hk|Hk].
    - rewrite (slice_of_kind v d c Hk) in *. by apply get_append_lt.
    - apply get_append_ne; [done|]. intros Heq. rewrite Heq, Hkc in Hkd. congruence. }
  split; [done|]. unfold content. apply list_fmap_ext. intros j i Hi. apply Hg.
  apply lookup_seq in Hi. lia.
Qed.

Lemma append_content_new a sl c : filled a sl ->
  content (append grow a sl c).1 (append grow a sl c).2 = content a sl ++ [Some c].
Proof using.
  intros Hf. unfold content. rewrite append_len by apply Hf. rewrite seq_S, fmap_app. cbn [fmap list_fmap Nat.add].
  f_equal.
  - apply list_fmap_ext. intros j i Hi. rewrite get_append_new by done. apply lookup_seq in Hi. by rewrite decide_True by lia.
  - rewrite get_append_new by done. rewrite decide_False by lia. by rewrite decide_True.
Qed.

Lemma binv_add s pc c todo ths s' th' :
  binv s pc (c :: todo) ths -> add_step grow s pc c todo = Some (s', th') ->
  exists pc' todo', th' = Adder pc' todo' /\ binv s' pc' todo' ths.
Proof using no_pipes.
  intros [Hc (dn & v & l0 & Hregs & Hv & Hpc & Hex & Hcont & Hr)] Hstep.
  assert (Hc' : cinv regs X (s', th' :: ths)).
  { apply (moves_cinv grow) with (c := (s, Adder pc (c :: todo) :: ths)); [done|].
    exists 0%nat, (Adder pc (c :: todo)), s', th', []. split; [done|]. split; [cbn [step fst]; by rewrite Hstep|].
    cbn. by rewrite app_nil_r. }
  destruct (Hc) as (ka & Hs & [Ht Hts]%Forall_cons & _). cbn [fst snd] in *.
  pose proof (loadResult_current s v Hv) as Hres. destruct pc as [|p|p nv]; cbn [add_step] in Hstep.
  - rewrite Hv in Hstep. cbn in Hstep. destruct (r v) as [x|] eqn:Hrv.
    + destruct c as [t f|q]; [|exfalso; apply (no_pipes (Pipe_ q)); [rewrite Hregs; apply elem_of_app; right; by constructor|done]].
      simplify_eq. eexists _, _. split; [done|]. split; [done|]. exists (dn ++ [Callback t f]), v, l0.
      split; [by rewrite <- app_assoc|]. repeat (split; [done|]). rewrite Hrv, <- Hr.
      cbn [calls record_calls arrs]. rewrite bind_cons. cbn [allowed]. rewrite <- !app_assoc.
      apply Permutation_app_head. rewrite !(assoc (++)). apply Permutation_app_tail. apply Permutation_app_comm.
    + simplify_eq. eexists _, _. split; [done|]. split; [done|]. exists dn, v, l0.
      split; [done|]. split; [done|]. split; [by exists v|]. by rewrite Hrv.
  - destruct Hpc as (vp & Hvp & Hsl & Hcur). rewrite Hvp in Hstep. cbn in Hstep. rewrite Hsl in Hstep.
    destruct (si_vals _ _ _ Hs _ _ Hv) as [Hok _]. destruct (Hok c) as [_ Hf].
    pose proof (fun d => append_content ka s v c d Hs Hok) as Hac. cbv zeta in Hac.
    pose proof (append_content_new (arrs s) (slice_of v c) c Hf) as Hnew.
    destruct (append grow (arrs s) (slice_of v c) c) as [a' sl']. cbn [fst snd] in *. simplify_eq.
    eexists _, _. split; [done|]. split; [done|]. exists dn, v, l0. split; [done|]. split; [done|]. split; [|split; [done|split]].
    + exists c, todo. split; [done|]. intros Hn. rewrite Hn in Hr. destruct Hr as [-> _]. split; [by apply Hcur|].
      intros d. rewrite slice_with_slice, filter_app, fmap_app. cbn [arrs set_arrs].
      case_decide as Hd.
      * rewrite Hnew, Hcont. rewrite (filter_cons_True _ c []) by done.
        f_equal. f_equal. apply list_filter_iff. intros y. unfold same. by rewrite Hd.
      * rewrite Hsl. destruct (Hac d) as [_ ->]. rewrite Hcont, (filter_cons_False _ c []) by (unfold same; congruence).
        by rewrite app_nil_r.
    + intros d. destruct (Hac d) as [_ Hd]. cbn [arrs set_arrs]. by rewrite Hd.
    + destruct (r v) as [x|]; [|done]. cbn [calls set_arrs arrs].
      assert (ths ≫= pend a' = ths ≫= pend (arrs s)) as ->; [|done].
      clear -Hex Hac. induction Hex as [|th ths He _ IH]; [done|]. rewrite !bind_cons, IH. f_equal.
      eapply pend_ext; [done|]. intros d i. by apply Hac.
  - destruct Hpc as (c0 & todo0 & [= <- <-] & Hcur). destruct Ht as (_ & Hop & Hrnv & _).
    destruct (Nat.eqb_spec (val s) p) as [Hp|Hne]; simplify_eq.
    + pose proof (open_current s _ nv Hop eq_refl) as Hn. rewrite Hres in Hn. rewrite Hn in Hr. destruct Hr as [-> Hcalls].
      destruct (Hcur Hn) as [_ Hnv]. eexists _, _. split; [done|]. split; [done|]. exists (dn ++ [c]), nv, (dn ++ [c]).
      split; [by rewrite <- app_assoc|]. split; [apply set_val_loadVal|]. split; [done|].
      split; [eapply exec_ok_none; [done|congruence|done]|]. split; [done|]. by rewrite Hrnv.
    + eexists _, _. split; [done|]. split; [done|]. exists dn, v, l0. by repeat (split; [done|]).
Qed.
(** A step of another thread: its pending calls become calls, or pending calls of the threads it starts. *)
Definition accounts s th s' th' new : Prop :=
  arrs s' = arrs s /\ exists l, calls s' = calls s ++ l /\
    Permutation (pend (arrs s) th) (l ++ pend (arrs s) th' ++ (new ≫= pend (arrs s))).

Lemma accounts_nil s th th' : pend (arrs s) th = [] -> pend (arrs s) th' = [] -> accounts s th s th' [].
Proof using. intros H1 H2. split; [done|]. exists []. by rewrite H1, H2, app_nil_r. Qed.

Lemma spawned_pend a x v : s_len (pipes v) = 0%nat -> spawned x v ≫= pend a = execCallback x v ≫= taken a x.
Proof using.
  intros Hp. unfold spawned. rewrite Hp. cbn [Nat.eqb]. rewrite app_nil_r.
  destruct ((s_len (dones v) =? 0)%nat && (s_len (fails v) =? 0)%nat && (s_len (always v) =? 0)%nat && (s_len (cancels v) =? 0)%nat) eqn:Hz.
  - assert (s_len (dones v) = 0 /\ s_len (fails v) = 0 /\ s_len (always v) = 0 /\ s_len (cancels v) = 0)%nat as (H1 & H2 & H3 & H4)
      by (rewrite !andb_true_iff, !Nat.eqb_eq in Hz; tauto).
    unfold execCallback, indices. rewrite H1, H2, H3, H4. by destruct (Typ x).
  - cbn. by rewrite app_nil_r.
Qed.

Lemma other_step ka s v th s' th' new :
  sinv regs ka s -> tinv regs X ka s th -> loadVal s = Some v -> exec_ok v th -> s_len (pipes v) = 0%nat ->
  step grow s th = Some (s', th', new) ->
  (loadVal s' = Some v /\ val s' = val s /\ mem s' = mem s /\ accounts s th s' th' new /\ Forall (exec_ok v) (th' :: new)) \/
  (exists x, r v = None /\ s' = set_val s (with_r v x) /\ th' = Setter x (SClose v) /\ new = []).
Proof using.
  intros Hs Ht Hv He Hp Hstep. pose proof (loadResult_current s v Hv) as Hres.
  destruct th as [pc todo|x [|p|w]|x won|x [|[sl i] todo]| |o]; cbn in Hstep; try done.
  - rewrite Hv in Hstep. cbn in Hstep. left.
    destruct (r v); simplify_eq; do 3 (split; [done|]); (split; [by apply accounts_nil|by repeat constructor]).
  - destruct Ht as (_ & Hop). pose proof Hop as (w & Hw & Hrw). rewrite Hw in Hstep. cbn in Hstep.
    destruct (Nat.eqb_spec (val s) p) as [Hvp|Hne]; simplify_eq.
    + right. assert (w = v) as -> by (unfold loadVal in Hv; congruence). by exists x.
    + left. do 3 (split; [done|]). split; [by apply accounts_nil|by repeat constructor].
  - simplify_eq. left. do 3 (split; [done|]). cbn in He.
    assert (Hpw : s_len (pipes w) = 0%nat) by (pose proof (He (Pipe_ {| pipeDoneTask := None; pipeFailTask := None |})) as Hw; cbn in Hw; by rewrite Hw).
    split; [split; [done|]; exists []; cbn; rewrite app_nil_r, spawned_pend by done; done|].
    constructor; [done|]. unfold spawned. rewrite Hpw. cbn [Nat.eqb]. rewrite app_nil_r. case_match; [done|].
    apply Forall_singleton. cbn. intros e Hin.
    assert (Hsl : exists d, e ∈ indices (slice_of w d)).
    { unfold execCallback in Hin. destruct (Typ x); rewrite ?elem_of_app in Hin.
      - destruct Hin; [by exists (OnSuccess 0)|by exists (OnComplete 0)].
      - destruct Hin; [by exists (OnFailure 0)|by exists (OnComplete 0)].
      - by exists (OnCancel 0). }
    destruct Hsl as (d & (j & -> & Hj%elem_of_seq)%list_elem_of_fmap). exists d. cbn. split; [by rewrite He|lia].
  - destruct (get (arrs s) sl i) as [c|] eqn:Hg; [|done]. cbn in Hstep. simplify_eq. left. do 3 (split; [done|]).
    split; [split; [done|]; exists (exec_one x c); split; [done|]|].
    + cbn. rewrite app_nil_r. unfold taken at 1. cbn. by rewrite Hg.
    + constructor; [|done]. intros e Hin. apply He. by constructor.
  - destruct (final s); [|done]. simplify_eq. left. do 3 (split; [done|]). split; [by apply accounts_nil|by repeat constructor].
Qed.

Lemma no_pipe_slices ka s v : sinv regs ka s -> loadVal s = Some v -> s_len (pipes v) = 0%nat.
Proof using no_pipes.
  intros Hs Hv. destruct (s_len (pipes v)) as [|n] eqn:Hn; [done|]. exfalso.
  destruct (si_vals _ _ _ Hs _ _ Hv) as [Hok _].
  destruct (Hok (Pipe_ {| pipeDoneTask := None; pipeFailTask := None |})) as [Hk [_ Hf]]. cbn in Hk, Hf.
  destruct (Hf 0%nat) as [c Hc]; [lia|]. unfold get in Hc.
  destruct (arrs s !! s_array (pipes v)) as [arr|] eqn:Harr; [|done]. cbn in Hc.
  destruct (arr !! 0%nat) as [o|] eqn:H0; [|done]. cbn in Hc. subst o.
  destruct (si_typed _ _ _ Hs) as [_ Hty]. destruct (Hty _ _ _ c Harr Hk) as [Hkc HcR]; [by eapply list_elem_of_lookup_2|].
  by apply (no_pipes c).
Qed.

Lemma SClose_pend a x v (l : list reg) :
  (forall c, c ∈ l -> rkind c <> None) -> (forall d, content a (slice_of v d) = Some <$> filter (same d) l) ->
  Permutation (execCallback x v ≫= taken a x) (l ≫= allowed x).
Proof using.
  intros Hnp Hc. rewrite (due_split x l Hnp). unfold execCallback. destruct (Typ x); rewrite ?bind_app.
  - by rewrite (contents_taken _ _ _ _ (Hc (OnSuccess 0))), (contents_taken _ _ _ _ (Hc (OnComplete 0))).
  - by rewrite (contents_taken _ _ _ _ (Hc (OnFailure 0))), (contents_taken _ _ _ _ (Hc (OnComplete 0))).
  - by rewrite (contents_taken _ _ _ _ (Hc (OnCancel 0))).
Qed.

Lemma binv_other s pc todo ths i th s' th' new :
  binv s pc todo ths -> ths !! i = Some th -> step grow s th = Some (s', th', new) ->
  binv s' pc todo (<[i := th']> ths ++ new).
Proof using no_pipes.
  intros [Hc (dn & v & l0 & Hregs & Hv & Hpc & Hex & Hcont & Hr)] Hi Hstep.
  assert (Hc' : cinv regs X (s', Adder pc todo :: <[i := th']> ths ++ new)).
  { apply (moves_cinv grow) with (c := (s, Adder pc todo :: ths)); [done|].
    by exists (S i), th, s', th', new. }
  split; [done|]. destruct (Hc) as (ka & Hs & [Ht Hts]%Forall_cons & _). cbn [fst snd] in *.
  pose proof (Forall_lookup_1 _ _ _ _ Hts Hi) as Hth. pose proof (Forall_lookup_1 _ _ _ _ Hex Hi) as He.
  pose proof (loadResult_current s v Hv) as Hres.
  destruct (bind_insert_perm (pend (arrs s)) ths i th th' Hi) as (q & Hq1 & Hq2).
  destruct (other_step ka s v th s' th' new Hs Hth Hv He (no_pipe_slices ka s v Hs Hv) Hstep)
    as [(Hv' & Hval & Hmem & (Harr & l & Hcalls & Hacc) & Hex')|(x & Hrv & -> & -> & ->)].
  - apply Forall_cons in Hex' as [Hth' Hnew]. exists dn, v, l0. split; [done|]. split; [done|]. split; [|split; [|split]].
    + unfold pc_ok in *. by rewrite Hmem, Hval, Harr.
    + apply Forall_app. split; [by apply Forall_insert|done].
    + by rewrite Harr.
    + rewrite Harr, Hcalls. destruct (r v) as [x|] eqn:Hrv.
      * rewrite <- Hr, Hq1, bind_app, Hq2, Hacc. rewrite <- !app_assoc. apply Permutation_app_head, Permutation_app_head.
        apply Permutation_app_head. rewrite !(assoc (++)). apply Permutation_app_tail. apply Permutation_app_comm.
      * destruct Hr as [-> Hnil]. split; [done|]. rewrite Hnil. pose proof (pend_nil ka s ths Hts Hres) as Hpn.
        rewrite Hpn in Hq1. apply Permutation_nil_l in Hq1. symmetry in Hq1. apply app_eq_nil in Hq1 as [Hq1 _].
        rewrite Hq1 in Hacc. apply Permutation_nil_l in Hacc. symmetry in Hacc. by apply app_eq_nil in Hacc as [-> _].
  - rewrite Hrv in Hr. destruct Hr as [-> Hcalls]. exists dn, (with_r v x), dn. rewrite app_nil_r.
    assert (Hsl : forall d, slice_of (with_r v x) d = slice_of v d) by by intros [[]|].
    split; [done|]. split; [apply set_val_loadVal|]. split; [|split; [|split]].
    + destruct pc as [|p|p nv]; [done| |].
      * destruct Hpc as (vp & Hvp & Hvs & _). exists vp. cbn. split; [|split; [|done]].
        -- rewrite lookup_app_l; [done|]. by eapply lookup_lt_Some.
        -- intros d. by rewrite Hsl.
      * destruct Hpc as (c & todo' & -> & _). by exists c, todo'.
    + apply Forall_insert; [|cbn; intros d; by rewrite Hsl]. eapply exec_ok_none; [done|congruence|done].
    + intros d. by rewrite Hsl.
    + cbn [r with_r calls set_val arrs]. rewrite Hcalls, Hq2, Hregs, bind_app. cbn [pend app].
      pose proof (pend_nil ka s ths Hts ltac:(congruence)) as Hpn. rewrite Hpn in Hq1.
      apply Permutation_nil_l in Hq1. symmetry in Hq1. apply app_eq_nil in Hq1 as [_ ->]. rewrite app_nil_r.
      rewrite (SClose_pend _ x v dn); [done| |done].
      intros c Hcin. apply no_pipes. rewrite Hregs. apply elem_of_app. by left.
Qed.
End single.

(** ** Executions *)

Section executions.
Context {V : Type} (grow : nat -> nat).
Implicit Types (c : config V) (x : Result V) (ths : list (thread V)).

Definition is_setter (th : thread V) : bool := match th with Setter _ _ | SetDone _ _ => true | _ => false end.
Definition is_adder (th : thread V) : bool := match th with Adder _ _ => true | _ => false end.

Lemma step_setter s th s' th' new : step grow s th = Some (s', th', new) -> is_setter th = true -> is_setter th' = true.
Proof using.
  destruct th as [| x [|p|v]| | | |]; cbn; try done.
  - destruct (loadVal s) as [v|]; [|done]. cbn. by destruct (r v); intros [= _ <- _].
  - destruct (mem s !! p); [|done]. cbn. by destruct (_ =? _)%nat; intros [= _ <- _].
  - by intros [= _ <- _].
Qed.

Lemma schedule_setter l : forall c (i : nat) th, c.2 !! i = Some th -> is_setter th = true ->
  exists th', (exec_schedule grow c l).2 !! i = Some th' /\ is_setter th' = true.
Proof using.
  induction l as [|j l IH]; intros c i th Hi Hth; [by exists th|]. cbn.
  assert (exists th', (step_at grow c j).2 !! i = Some th' /\ is_setter th' = true) as (th' & Hi' & Hth'); [|by eapply IH].
  unfold step_at. destruct (c.2 !! j) as [tj|] eqn:Hj; [|by exists th].
  destruct (step grow c.1 tj) as [[[s' tj'] new]|] eqn:Hs; [|by exists th]. cbn [snd].
  rewrite lookup_app_l by (rewrite length_insert; by eapply lookup_lt_Some).
  destruct (decide (i = j)) as [->|Hne]; [|rewrite list_lookup_insert_ne by done; by exists th].
  rewrite list_lookup_insert_eq by (by eapply lookup_lt_Some). exists tj'. split; [done|].
  simplify_eq. by eapply step_setter.
Qed.

(** With a [setResult] in the program, all threads are at their end when nothing can move. *)
Lemma stuck_ended R X c (i : nat) th :
  cinv R X c -> stuck grow c -> c.2 !! i = Some th -> is_setter th = true ->
  Forall (fun th => ended th = true) c.2 /\ exists x, winners c.2 = [x] /\ loadResult c.1 = Some x.
Proof using.
  intros (ka & Hs & Hts & Hw) Hst Hi Hth.
  assert (Hbl : forall j t, c.2 !! j = Some t -> ended t = true \/ t = Getter /\ final c.1 = false).
  { intros j t Hj. eapply blocked_thread; [done|by eapply Forall_lookup_1|by eapply stuck_step]. }
  assert (Hres : is_Some (loadResult c.1)).
  { pose proof (Forall_lookup_1 _ _ _ _ Hts Hi) as Hti.
    destruct (Hbl i th Hi) as [He|[-> _]]; [|done]. destruct th as [|? []|x []| | |]; try done.
    - destruct Hti as (_ & Hr & _). by exists x.
    - by destruct Hti as [_ ?]. }
  destruct Hres as [x Hx]. rewrite Hx in Hw. split; [|by exists x].
  assert (Hfin : final c.1 = true).
  { assert (Hin : x ∈ winners c.2) by (rewrite Hw; by constructor).
    apply list_elem_of_omap in Hin as (t & Ht & Hwin). apply list_elem_of_lookup in Ht as [j Hj].
    pose proof (Forall_lookup_1 _ _ _ _ Hts Hj) as Htj. destruct (Hbl j t Hj) as [He|[-> _]]; [|done].
    destruct t as [|? [| |]|y []| | |]; try done. by destruct Htj as (_ & _ & ?). }
  apply Forall_lookup. intros j t Hj. destruct (Hbl j t Hj) as [|[_ Hf]]; [done|congruence].
Qed.

Definition single regs X c : Prop :=
  exists pc todo ths, c.2 = Adder pc todo :: ths /\ binv regs X c.1 pc todo ths.

Lemma step_at_single regs X c i :
  (forall d, d ∈ regs -> rkind d <> None) -> single regs X c -> single regs X (step_at grow c i).
Proof using.
  intros Hnp (pc & todo & ths & Hc & Hb). unfold step_at. destruct (c.2 !! i) as [th|] eqn:Hi; [|by exists pc, todo, ths].
  destruct (step grow c.1 th) as [[[s' th'] new]|] eqn:Hs; [|by exists pc, todo, ths].
  rewrite Hc in *. destruct i as [|i]; cbn in Hi.
  - simplify_eq. destruct todo as [|d todo]; [done|]. cbn in Hs.
    destruct (add_step grow c.1 pc d todo) as [[s1 th1]|] eqn:Ha; [|done]. cbn in Hs. simplify_eq.
    destruct (binv_add grow regs X Hnp c.1 pc d todo ths s' th' Hb Ha) as (pc' & todo' & -> & Hb').
    exists pc', todo', ths. cbn. by rewrite app_nil_r.
  - exists pc, todo, (<[i := th']> ths ++ new). split; [done|]. by eapply binv_other.
Qed.

Lemma schedule_single regs X l : forall c,
  (forall d, d ∈ regs -> rkind d <> None) -> single regs X c -> single regs X (exec_schedule grow c l).
Proof using. induction l as [|i l IH]; intros c Hnp Hc; [done|]. cbn. apply IH; [done|]. by apply step_at_single. Qed.

Lemma single_registrations regs ths :
  forallb (fun th => negb (is_adder th)) ths = true -> registrations (Adder ALoad regs :: ths) = regs.
Proof using.
  intros Ha. unfold registrations. rewrite bind_cons. induction ths as [|th ths IH]; [by rewrite app_nil_r|].
  cbn in Ha. apply andb_true_iff in Ha as [H1 H2]. rewrite bind_cons. destruct th; try done; by apply IH.
Qed.

Lemma stuck_intro c :
  forallb (fun th => match step grow c.1 th with None => true | Some _ => false end) c.2 = true -> stuck grow c.
Proof using.
  intros Hf c' (i & th & s' & th' & new & Hi & Hs & _). apply list_elem_of_lookup_2, list_elem_of_In in Hi.
  apply (proj1 (forallb_forall _ _) Hf) in Hi. by rewrite Hs in Hi.
Qed.

Lemma initial_single regs ths :
  forallb fresh ths = true -> forallb (fun th => negb (is_adder th)) ths = true ->
  single (registrations (Adder ALoad regs :: ths)) (offered (Adder ALoad regs :: ths)) (NewPromise, Adder ALoad regs :: ths).
Proof using.
  intros Hf Ha. pose proof (single_registrations regs ths Ha) as Hreg.
  exists ALoad, regs, ths. split; [done|]. split; [by apply initial_cinv|].
  exists [], (default {| dones := {| s_array := 0; s_len := 0 |}; fails := {| s_array := 0; s_len := 0 |};
    always := {| s_array := 0; s_len := 0 |}; cancels := {| s_array := 0; s_len := 0 |}; pipes := {| s_array := 0; s_len := 0 |};
    r := None |} (loadVal (NewPromise (V := V)))), [].
  rewrite Hreg. repeat (split; [done|]). split.
  - apply Forall_forall. intros th Hin%list_elem_of_In. apply (proj1 (forallb_forall _ _) Hf) in Hin as Hfr.
    apply (proj1 (forallb_forall _ _) Ha) in Hin. by destruct th as [|? []| | | |].
  - split; [by intros [[]|]|done].
Qed.
End executions.


Definition once_others : list (thread Z) := [Resolve 7; Cancel (-1); Getter].
Definition once_regs : list reg := [OnSuccess 1; OnCancel 2; OnComplete 3].
Definition once_schedule : list nat := [0; 0; 0; 0; 1; 0; 2; 1; 0; 2; 2; 1; 0; 3; 0; 4; 4; 0]%nat.


(** What a slice holds. *)
Definition contents (a : arrays) (s : slice) : list (option reg) := get a s <$> seq 0 (s_len s).

Lemma contents_next a s arr x :
  a !! s_array s = Some arr -> (s_len s < length arr)%nat ->
  contents (<[s_array s := <[s_len s := Some x]> arr]> a) {| s_array := s_array s; s_len := S (s_len s) |} = contents a s ++ [Some x].
Proof.
  intros Ha Hlen. assert (s_array s < length a)%nat as Hlt by (by eapply lookup_lt_Some).
  unfold contents. cbn [s_len]. rewrite seq_S, fmap_app. cbn. f_equal.
  - apply list_fmap_ext. intros i k [-> Hk]%lookup_seq. unfold get. cbn [s_array].
    rewrite list_lookup_insert_eq, Ha by done. cbn. by rewrite list_lookup_insert_ne by lia.
  - unfold get. cbn [s_array]. rewrite list_lookup_insert_eq by done. cbn. by rewrite list_lookup_insert_eq.
Qed.

Lemma contents_next2 a s arr x y :
  a !! s_array s = Some arr -> (S (s_len s) < length arr)%nat ->
  contents (<[s_array s := <[S (s_len s) := Some y]> (<[s_len s := Some x]> arr)]> a) {| s_array := s_array s; s_len := S (S (s_len s)) |}
    = contents a s ++ [Some x; Some y].
Proof.
  intros Ha Hlen. assert (s_array s < length a)%nat as Hlt by (by eapply lookup_lt_Some).
  pose proof (contents_next (<[s_array s := <[s_len s := Some x]> arr]> a) {| s_array := s_array s; s_len := S (s_len s) |}
    (<[s_len s := Some x]> arr) y) as H. cbn [s_array s_len] in H. rewrite list_insert_insert_eq in H.
  rewrite H, contents_next, <- (assoc_L (++)); [done|done|lia|by rewrite list_lookup_insert_eq|by rewrite length_insert].
Qed.

Lemma slice_of_with {V} (v : futureVal (V := V)) c s : slice_of (with_slice v c s) c = s.
Proof. by destruct c as [[]|]. Qed.

Lemma r_with_slice {V} (v : futureVal (V := V)) c s : RoutineFuture.r (with_slice v c s) = RoutineFuture.r v.
Proof. by destruct c as [[]|]. Qed.

Lemma step_at_adder {V} grow (s s' : Future V) ths i pc c todo th' :
  ths !! i = Some (Adder pc (c :: todo)) -> add_step grow s pc c todo = Some (s', th') ->
  step_at grow (s, ths) i = (s', <[i := th']> ths).
Proof. intros Hi Hs. unfold step_at. cbn [fst snd]. rewrite Hi. cbn [step]. rewrite Hs. cbn. by rewrite app_nil_r. Qed.

Lemma append_room grow a s arr x :
  a !! s_array s = Some arr -> (s_len s < length arr)%nat ->
  append grow a s x = (<[s_array s := <[s_len s := Some x]> arr]> a, {| s_array := s_array s; s_len := S (s_len s) |}).
Proof. intros Ha Hlen. unfold append. rewrite Ha. by destruct (Nat.ltb_spec (s_len s) (length arr)); [|lia]. Qed.

(** The state after a registration that has room. *)
Definition registered {V} (s : Future V) (v : futureVal) (c : reg) (arr : list (option reg)) : Future V :=
  let sl := slice_of v c in
  set_val (set_arrs s (<[s_array sl := <[s_len sl := Some c]> arr]> (arrs s)))
    (with_slice v c {| s_array := s_array sl; s_len := S (s_len sl) |}).

Lemma loadVal_set_val {V} (s : Future V) w : loadVal (set_val s w) = Some w.
Proof. unfold loadVal. cbn. by rewrite list_lookup_middle. Qed.

(** A registration that is not disturbed. *)
Lemma register_alone {V} grow (s : Future V) v ths i c todo arr :
  loadVal s = Some v -> RoutineFuture.r v = None -> arrs s !! s_array (slice_of v c) = Some arr -> (s_len (slice_of v c) < length arr)%nat ->
  ths !! i = Some (Adder ALoad (c :: todo)) ->
  exec_schedule grow (s, ths) [i; i; i] = (registered s v c arr, <[i := Adder ALoad todo]> ths).
Proof.
  intros Hv Hr Ha Hlen Hi. assert (i < length ths)%nat as Hlt by (by eapply lookup_lt_Some). unfold exec_schedule. cbn [fold_left].
  erewrite (step_at_adder grow s s ths i ALoad) by (first [done|cbn; rewrite Hv; cbn; by rewrite Hr]).
  erewrite step_at_adder; [|by rewrite list_lookup_insert_eq|cbn; unfold loadVal in Hv; rewrite Hv; cbn; by erewrite append_room].
  rewrite list_insert_insert_eq. erewrite step_at_adder; [|by rewrite list_lookup_insert_eq|cbn; by rewrite Nat.eqb_refl].
  by rewrite list_insert_insert_eq.
Qed.

(** A registration whose first attempt comes too late: it works on the value [v] at [p], while [v2] is current. *)
Lemma register_late {V} grow (s : Future V) p v v2 ths i c todo arr :
  mem s !! p = Some v -> val s <> p -> loadVal s = Some v2 -> RoutineFuture.r v2 = None ->
  arrs s !! s_array (slice_of v c) = Some arr ->
  slice_of v2 c = {| s_array := s_array (slice_of v c); s_len := S (s_len (slice_of v c)) |} ->
  (S (s_len (slice_of v c)) < length arr)%nat -> ths !! i = Some (Adder (AAppend p) (c :: todo)) ->
  let arr' := <[s_len (slice_of v c) := Some c]> arr in
  exec_schedule grow (s, ths) [i; i; i; i; i] =
    (registered (set_arrs s (<[s_array (slice_of v c) := arr']> (arrs s))) v2 c arr', <[i := Adder ALoad todo]> ths).
Proof.
  intros Hp Hne Hv2 Hr Ha Hsl Hlen Hi arr'. assert (i < length ths)%nat as Hlt by (by eapply lookup_lt_Some).
  assert (s_array (slice_of v c) < length (arrs s))%nat as Halt by (by eapply lookup_lt_Some).
  change [i; i; i; i; i] with ([i; i] ++ [i; i; i]). unfold exec_schedule. rewrite fold_left_app. cbn [fold_left].
  erewrite (step_at_adder grow s _ ths i (AAppend p)); [|done|unfold add_step; rewrite Hp; cbn [option_bind mbind];
    rewrite (append_room _ _ _ arr) by (done || lia); reflexivity].
  erewrite step_at_adder; [|by rewrite list_lookup_insert_eq|unfold add_step; cbn [val set_arrs]; by rewrite (proj2 (Nat.eqb_neq _ _) Hne)].
  rewrite list_insert_insert_eq. fold arr'. set (s3 := set_arrs s _).
  pose proof (register_alone grow s3 v2 (<[i := Adder ALoad (c :: todo)]> ths) i c todo arr' Hv2 Hr) as Hreg.
  rewrite Hsl in Hreg. unfold exec_schedule in Hreg. cbn [fold_left s_array s_len] in Hreg. rewrite Hreg, list_insert_insert_eq; [done|..].
  - cbn [arrs set_arrs s3]. by rewrite list_lookup_insert_eq.
  - unfold arr'. by rewrite length_insert.
  - by rewrite list_lookup_insert_eq.
Qed.

Lemma exec_schedule_app {V} grow (c : config V) l1 l2 : exec_schedule grow c (l1 ++ l2) = exec_schedule grow (exec_schedule grow c l1) l2.
Proof. apply fold_left_app. Qed.

(** C32: Registering callbacks concurrently loses some: for any open future with room in the slice of a kind of
    callback, and any two goroutines about to register callbacks of this kind, there is an interleaving of
    the two registrations, both of which return, after which the slice holds the callback of the first one
    twice and that of the second one not at all: both write the same cell of the array, and the one whose
    compare-and-swap fails writes last. One after the other, both callbacks are registered. *)
Theorem concurrent_registration_loses_callback {V} grow (s : Future V) v ths i j t f1 f2 todo1 todo2 arr :
  let c1 := Callback t f1 in
  let c2 := Callback t f2 in
  let sl := slice_of v c1 in
  loadVal s = Some v -> RoutineFuture.r v = None -> arrs s !! s_array sl = Some arr -> (S (s_len sl) < length arr)%nat -> i <> j ->
  ths !! i = Some (Adder ALoad (c1 :: todo1)) -> ths !! j = Some (Adder ALoad (c2 :: todo2)) ->
  let registers schedule added :=
    exists s' v', exec_schedule grow (s, ths) schedule = (s', <[j := Adder ALoad todo2]> (<[i := Adder ALoad todo1]> ths)) /\
      loadVal s' = Some v' /\ RoutineFuture.r v' = None /\
      contents (arrs s') (slice_of v' c1) = contents (arrs s) sl ++ (Some <$> added) in
  registers [i; j; j; j; i; i; i; i; i] [c1; c1] /\ registers [i; i; i; j; j; j] [c1; c2].
Proof.
  intros c1 c2 sl Hv Hr Ha Hlen Hne Hi Hj registers.
  assert (i < length ths /\ j < length ths)%nat as [Hilt Hjlt] by (split; by eapply lookup_lt_Some).
  assert (s_array sl < length (arrs s))%nat as Hsl by (by eapply lookup_lt_Some).
  assert (Hsame : forall w : futureVal (V := V), slice_of w c2 = slice_of w c1) by (intros w; by destruct t).
  assert (Hlen1 : (s_len sl < length arr)%nat) by lia.
  set (sl1 := {| s_array := s_array sl; s_len := S (s_len sl) |}).
  assert (Hsame' : forall w c, slice_of (with_slice w c1 c) c2 = c /\ slice_of (with_slice w c2 c) c1 = c)
    by (intros w c; split; [rewrite Hsame|rewrite <- Hsame]; apply slice_of_with).
  split; eexists _, _.
  - change [i; j; j; j; i; i; i; i; i] with ([i] ++ [j; j; j] ++ [i; i; i; i; i]). rewrite !exec_schedule_app.
    unfold exec_schedule at 3. cbn [fold_left].
    rewrite (step_at_adder grow s s ths i ALoad c1 todo1 (Adder (AAppend (val s)) (c1 :: todo1)))
      by (done || (cbn; rewrite Hv; cbn; by rewrite Hr)).
    rewrite (register_alone grow s v _ j c2 todo2 arr) by (rewrite ?Hsame; done || by rewrite list_lookup_insert_ne).
    rewrite (register_late grow _ (val s) v (with_slice v c2 sl1) _ i c1 todo1 (<[s_len sl := Some c2]> arr)).
    + fold sl. rewrite !list_insert_insert_eq, (list_insert_insert_ne _ i j), list_insert_insert_eq by done.
      split_and!; [reflexivity|apply loadVal_set_val|by rewrite !r_with_slice|].
      rewrite slice_of_with. unfold registered at 1. cbn [arrs set_val set_arrs]. destruct (Hsame' v sl1) as [_ ->].
      unfold registered. cbn [arrs set_val set_arrs]. rewrite Hsame. fold sl. rewrite !list_insert_insert_eq. by apply contents_next2.
    + unfold registered. cbn [mem set_val set_arrs]. by apply lookup_app_l_Some.
    + unfold loadVal in Hv. apply lookup_lt_Some in Hv. change (length (mem s) <> val s). clear -Hv. lia.
    + unfold registered. by rewrite loadVal_set_val, Hsame.
    + by rewrite r_with_slice.
    + unfold registered. cbn [arrs set_val set_arrs]. rewrite Hsame. fold sl. by rewrite list_lookup_insert_eq.
    + by destruct (Hsame' v sl1) as [_ ->].
    + fold sl. rewrite length_insert. lia.
    + by rewrite list_lookup_insert_ne, list_lookup_insert_eq.
  - change [i; i; i; j; j; j] with ([i; i; i] ++ [j; j; j]). rewrite exec_schedule_app.
    rewrite (register_alone grow s v ths i c1 todo1 arr) by done.
    rewrite (register_alone grow _ (with_slice v c1 sl1) _ j c2 todo2 (<[s_len sl := Some c1]> arr)).
    + split_and!; [reflexivity|apply loadVal_set_val|by rewrite !r_with_slice|].
      unfold registered at 1. cbn [arrs set_val set_arrs]. rewrite <- Hsame, slice_of_with. destruct (Hsame' v sl1) as [-> _].
      unfold registered. cbn [arrs set_val set_arrs]. fold sl. rewrite list_insert_insert_eq. by apply contents_next2.
    + unfold registered. by rewrite loadVal_set_val.
    + by rewrite r_with_slice.
    + destruct (Hsame' v sl1) as [-> _]. unfold registered. cbn [arrs set_val set_arrs]. by rewrite list_lookup_insert_eq.
    + destruct (Hsame' v sl1) as [-> _]. rewrite length_insert. exact Hlen.
    + by rewrite list_lookup_insert_ne.
Qed.

Lemma concurrent_registration_loses_callback_witness :
  exists s' v', exec_schedule (fun n => 2 * n)%nat (NewPromise, [Adder ALoad [OnSuccess 1]; Adder ALoad [OnSuccess 2]; Resolve 7])
      [0; 1; 1; 1; 0; 0; 0; 0; 0]%nat = (s', [Adder ALoad []; Adder ALoad []; Resolve 7]) /\
    loadVal s' = Some v' /\ RoutineFuture.r v' = None /\ contents (arrs s') (dones v') = [Some (OnSuccess 1); Some (OnSuccess 1)].
Proof.
  refine (proj1 (concurrent_registration_loses_callback (fun n => 2 * n)%nat NewPromise _
    [Adder ALoad [OnSuccess 1]; Adder ALoad [OnSuccess 2]; Resolve 7] 0 1 CallbackDone 1 2 [] [] (replicate 8 None) eq_refl eq_refl eq_refl _ _ eq_refl eq_refl)).
  - cbn. lia.
  - done.
Defined.

(** [Pipe] on a completed future never returns: the loop calls the task again and again. *)
Theorem Pipe_on_completed_spins {V} grow (s : Future V) x p todo n :
  loadResult s = Some x ->
  let c := exec_schedule grow (s, [Adder ALoad (Pipe_ p :: todo)]) (replicate n 0%nat) in
  c.2 = [Adder ALoad (Pipe_ p :: todo)] /\ calls c.1 = calls s ++ mjoin (replicate n (pipe_now p x)).
Proof.
  revert s. induction n as [|n IH]; intros s Hx; [cbn; by rewrite app_nil_r|].
  unfold loadResult in Hx. destruct (loadVal s) as [v|] eqn:Hv; [|done]. cbn in Hx.
  cbn [replicate exec_schedule fold_left mjoin list_join].
  assert (step_at grow (s, [Adder ALoad (Pipe_ p :: todo)]) 0 = (record_calls s (pipe_now p x), [Adder ALoad (Pipe_ p :: todo)])) as ->.
  { unfold step_at. cbn. rewrite Hv. cbn. by rewrite Hx. }
  destruct (IH (record_calls s (pipe_now p x))) as [H1 H2].
  { unfold loadResult. change (loadVal (record_calls s _)) with (loadVal s). by rewrite Hv. }
  split; [exact H1|]. cbv zeta in H2. unfold exec_schedule in H2. rewrite H2. cbn. by rewrite <- app_assoc.
Qed.
