(* ===== verification/Lock.v ===== *)
(** Distributed locks (package lock): the Redis lockers with their Lua scripts and with SET NX, the MongoDB
    locker, and [Within], which runs a callback under a lock.

    The stores are those of the servers: a map from keys to hashes with an expiry for the Lua locker,
    string keys for the NX locker, documents with a unique [lock_key] for MongoDB, whose commands follow
    their documentation.  A call is given the time in nanoseconds; servers keep milliseconds.  Lost
    connections are not modelled. *)
From stdpp Require Import base gmap list strings numbers option.
From S2P Require Import Prelude.
From S2P Require Import Redis.
From S2P Require Import ShardKey.

(** ** types.go *)

Inductive LockError :=
  | ErrReentrantKeyNotFound
  | ErrTimeout
  | ErrContextDone
  | ErrRedisNil          (* redis.Nil, the reply to a script that returns nil *)
  | ErrDuplicateKey      (* a unique index of MongoDB *)
  | ErrNoDocuments.      (* mongo.ErrNoDocuments *)

Definition millisecond : Z := 1000000.
Definition tolerance : Z := 2000 * millisecond.

Record lockOption := { expired : Z; reentrantKey : gostring }.
Inductive lock_opt := Expire (expired : Z) | ReentrantKey (key : gostring).

Definition applyOption (o : lockOption) (opt : lock_opt) : lockOption :=
  match opt with
  | Expire d => {| expired := d; reentrantKey := reentrantKey o |}
  | ReentrantKey k => {| expired := expired o; reentrantKey := k |}
  end.
Definition ApplyOptions (opts : list lock_opt) : lockOption := fold_left applyOption opts {| expired := 0; reentrantKey := [] |}.

(** The time a lock is held for, by its options. *)
Definition lock_time (opts : list lock_opt) : Z :=
  if 0 <? expired (ApplyOptions opts) then expired (ApplyOptions opts) else tolerance.

(** The clock of the servers, in milliseconds. *)
Definition ms (now : Z) : Z := now / millisecond.

(** [Lockable]; [ReentrantLockable] are those for which [reentrant] holds. *)
Class Lockable (St : Type) := {
  Lock : Z -> gostring -> list lock_opt -> St -> outcome LockError unit * St;
  Unlock : Z -> gostring -> list lock_opt -> St -> outcome LockError unit * St;
  reentrant : bool
}.

(** [ReentrantLock], the same text in redis.go and mongo.go: the key of the options is checked, not the argument. *)
Definition ReentrantLock `{Lockable St} (now : Z) (key rkey : gostring) (opts : list lock_opt) (s : St)
    : outcome LockError unit * St :=
  if IsStrBlank (reentrantKey (ApplyOptions opts)) then (Err ErrReentrantKeyNotFound, s)
  else Lock now key (opts ++ [ReentrantKey rkey]) s.

Section lockers.
Context (appName : gostring).

Definition redis_formatLockKey (key : gostring) : gostring := appName ++ str ":" ++ key.
Definition mongo_formatLockKey (key : gostring) : gostring := appName ++ str "_" ++ key.

(** ** redis.go: the Lua locker *)

Record LockHash := { holder : gostring; count : Z; pexpire : option Z }.
Record LuaDB := { hashes : gmap gostring LockHash }.

(** [EXISTS], [HGET], [PTTL], [HMSET], [HINCRBY], [PEXPIRE] and [DEL] on these hashes. *)
Definition alive (t : Z) (db : LuaDB) (k : gostring) : option LockHash :=
  match hashes db !! k with
  | Some e => match pexpire e with Some x => if t <? x then Some e else None | None => Some e end
  | None => None
  end.
Definition PTTL (t : Z) (db : LuaDB) (k : gostring) : Z :=
  match alive t db k with
  | Some e => match pexpire e with Some x => x - t | None => -1 end
  | None => -2
  end.
Definition HMSET (t : Z) (db : LuaDB) (k : gostring) (count : Z) (h : gostring) : LuaDB :=
  {| hashes := <[k := {| holder := h; count := count;
                         pexpire := match alive t db k with Some e => pexpire e | None => None end |}]> (hashes db) |}.
Definition HINCRBY_count (t : Z) (db : LuaDB) (k : gostring) (n : Z) : Z * LuaDB :=
  match alive t db k with
  | Some e => (count e + n, {| hashes := <[k := {| holder := holder e; count := count e + n; pexpire := pexpire e |}]> (hashes db) |})
  | None => (n, {| hashes := <[k := {| holder := []; count := n; pexpire := None |}]> (hashes db) |})
  end.
Definition PEXPIRE (t : Z) (db : LuaDB) (k : gostring) (d : Z) : LuaDB :=
  match alive t db k with
  | Some e =>
      if d <=? 0 then {| hashes := delete k (hashes db) |}
      else {| hashes := <[k := {| holder := holder e; count := count e; pexpire := Some (t + d) |}]> (hashes db) |}
  | None => db
  end.
Definition DEL (db : LuaDB) (k : gostring) : LuaDB := {| hashes := delete k (hashes db) |}.

Definition redisLuaLockCommand (t : Z) (key arg1 : gostring) (arg2 : Z) (db : LuaDB) : bool * LuaDB :=
  if match alive t db key with None => true | Some e => holder e =s arg1 end then
    let expired := PTTL t db key in
    if (expired =? -1) || (expired =? -2) then
      (true, PEXPIRE t (HMSET t db key 1 arg1) key arg2)
    else
      (true, PEXPIRE t (HINCRBY_count t db key 1).2 key (arg2 + expired))
  else (false, db).

Definition redisLuaUnlockCommand (t : Z) (key arg1 : gostring) (db : LuaDB) : bool * LuaDB :=
  if match alive t db key with None => false | Some e => holder e =s arg1 end then
    let '(n, db) := HINCRBY_count t db key (-1) in
    if n <=? 0 then (true, DEL db key) else (true, db)
  else (false, db).

Definition redisLua_Lock (now : Z) (key : gostring) (opts : list lock_opt) (db : LuaDB) : outcome LockError unit * LuaDB :=
  let '(ok, db) := redisLuaLockCommand (ms now) (redis_formatLockKey key) (reentrantKey (ApplyOptions opts))
                     (lock_time opts / millisecond) db in
  (if ok then Ok tt else Err ErrTimeout, db).

Definition redisLua_Unlock (now : Z) (key : gostring) (opts : list lock_opt) (db : LuaDB) : outcome LockError unit * LuaDB :=
  let '(ok, db) := redisLuaUnlockCommand (ms now) (redis_formatLockKey key) (reentrantKey (ApplyOptions opts)) db in
  (if ok then Ok tt else Err ErrRedisNil, db).

#[global] Instance redisLuaLocker : Lockable LuaDB :=
  {| Lock := redisLua_Lock; Unlock := redisLua_Unlock; reentrant := true |}.

(** ** redis.go: the NX locker *)

Record NXDB := { strings_ : gmap gostring Redis.Lock }.

(** The value is a fresh UUID, which nothing reads. *)
Context (UUID : Z -> gostring).

(** [SET key value NX PX milliseconds]; the client rounds a time below one millisecond up. *)
Definition SetNX (t : Z) (db : NXDB) (k v : gostring) (d : Z) : bool * NXDB :=
  match lock_get t (strings_ db) k with
  | Some _ => (false, db)
  | None => (true, {| strings_ := <[k := {| lock_val := v; lock_exp := t + Z.max 1 (d / millisecond) |}]> (strings_ db) |})
  end.

Definition redisNX_Lock (now : Z) (key : gostring) (opts : list lock_opt) (db : NXDB) : outcome LockError unit * NXDB :=
  let '(ok, db) := SetNX (ms now) db (redis_formatLockKey key) (UUID now) (lock_time opts) in
  (if ok then Ok tt else Err ErrTimeout, db).

Definition redisNX_Unlock (now : Z) (key : gostring) (opts : list lock_opt) (db : NXDB) : outcome LockError unit * NXDB :=
  (Ok tt, {| strings_ := delete (redis_formatLockKey key) (strings_ db) |}).

#[global] Instance redisNXLocker : Lockable NXDB :=
  {| Lock := redisNX_Lock; Unlock := redisNX_Unlock; reentrant := false |}.

(** ** mongo.go *)

Record mongoLockDoc := { Holder : gostring; ExpiresAt : Z; Count : Z }.

(** The collection, by [lock_key], which has a unique index. *)
Record MongoDB := { docs : gmap gostring mongoLockDoc }.

(** [FindOneAndUpdate] with upsert: a document that matches is updated; otherwise one is inserted, which the
    unique index refuses when there is another document with this key. *)
Definition mongo_Lock (now : Z) (key : gostring) (opts : list lock_opt) (db : MongoDB) : outcome LockError unit * MongoDB :=
  let k := mongo_formatLockKey key in
  let rkey := reentrantKey (ApplyOptions opts) in
  let expires := ms (now + lock_time opts) in
  match docs db !! k with
  | Some d =>
      if (ExpiresAt d <? ms now) || (Holder d =s rkey) then
        let d' := {| Holder := Holder d; ExpiresAt := Z.max (ExpiresAt d) expires; Count := Count d + 1 |} in
        (if Holder d' =s rkey then Ok tt else Err ErrTimeout, {| docs := <[k := d']> (docs db) |})
      else (Err ErrDuplicateKey, db)
  | None => (Ok tt, {| docs := <[k := {| Holder := rkey; ExpiresAt := expires; Count := 1 |}]> (docs db) |})
  end.

(** [Unlock]: the count is decremented, and the document deleted when the count is used up. *)
Definition mongo_Unlock (now : Z) (key : gostring) (opts : list lock_opt) (db : MongoDB) : outcome LockError unit * MongoDB :=
  let k := mongo_formatLockKey key in
  let opt := ApplyOptions opts in
  match docs db !! k with
  | Some d =>
      if (Holder d =s reentrantKey opt) && (0 <? Count d) then
        let d' := {| Holder := Holder d; ExpiresAt := Z.max (ExpiresAt d) (ms (now + Z.quot (expired opt) 2)); Count := Count d - 1 |} in
        if Count d' <=? 0 then (Ok tt, {| docs := delete k (docs db) |})
        else (Ok tt, {| docs := <[k := d']> (docs db) |})
      else (Err ErrNoDocuments, db)
  | None => (Err ErrNoDocuments, db)
  end.

(** The TTL index: the server deletes a document when its time has come. *)
Definition mongo_evict (now : Z) (k : gostring) (db : MongoDB) : MongoDB :=
  match docs db !! k with
  | Some d => if ExpiresAt d <=? ms now then {| docs := delete k (docs db) |} else db
  | None => db
  end.

#[global] Instance mongoLocker : Lockable MongoDB :=
  {| Lock := mongo_Lock; Unlock := mongo_Unlock; reentrant := true |}.
End lockers.
