(* ===== verification/LockSpec.v ===== *)
(** What a locker promises ([LockableLaws]), the mutual exclusion that follows from it, and the lockers
    that keep the promise: the Lua locker and the MongoDB locker, but not the NX locker. *)
From stdpp Require Import base gmap list strings numbers option.
From S2P Require Import Prelude.
From S2P Require Import Redis.
From S2P Require Import ShardKey.
From S2P Require Import Lock.

Abbreviation rk opts := (reentrantKey (ApplyOptions opts)).

(** [held s k h u n]: until [u] (in milliseconds), [k] is held by [h], who has locked it [n] times.  [tick] is
    what the server does by itself; [sound] are the states that calls lead to. *)
Class LockableLaws (St : Type) `{Lockable St} := {
  held : St -> gostring -> gostring -> Z -> Z -> Prop;
  tick : Z -> St -> St -> Prop;
  sound : St -> Prop;
  lock_sound now k opts s : sound s -> sound (Lock now k opts s).2;
  unlock_sound now k opts s : sound s -> sound (Unlock now k opts s).2;
  tick_sound now s s' : sound s -> tick now s s' -> sound s';
  lock_acquires now k opts s s' :
    sound s -> millisecond <= lock_time opts -> Lock now k opts s = (Ok tt, s') ->
    held s' k (rk opts) (ms now + lock_time opts / millisecond) 1;
  lock_keeps now k' opts s r s' k h u n :
    held s k h u n -> ms now < u -> Lock now k' opts s = (r, s') ->
    held s' k h u n /\ (k' = k -> rk opts = h -> held s' k h u (n + 1)) /\ (k' = k -> rk opts <> h -> r <> Ok tt);
  unlock_keeps now k' opts s r s' k h u n :
    held s k h u n -> ms now < u -> Unlock now k' opts s = (r, s') ->
    (2 <= n -> held s' k h u (n - 1)) /\ (k' <> k \/ rk opts <> h -> held s' k h u n);
  tick_keeps now s s' k h u n : held s k h u n -> ms now < u -> tick now s s' -> held s' k h u n;
  held_unique s k h u n h' u' n' : held s k h u n -> held s k h' u' n' -> h = h'
}.

(** ** Histories *)

Section histories.
Context `{LockableLaws St}.
Implicit Types (s : St) (k h : gostring) (opts : list lock_opt).

Inductive event :=
  | ELock (now : Z) (k : gostring) (opts : list lock_opt) (r : outcome LockError unit)
  | EUnlock (now : Z) (k : gostring) (opts : list lock_opt) (r : outcome LockError unit)
  | ETick (now : Z).
Definition time (e : event) : Z := match e with ELock now _ _ _ | EUnlock now _ _ _ | ETick now => now end.

Inductive happens : St -> event -> St -> Prop :=
  | h_lock now k opts s r s' : Lock now k opts s = (r, s') -> happens s (ELock now k opts r) s'
  | h_unlock now k opts s r s' : Unlock now k opts s = (r, s') -> happens s (EUnlock now k opts r) s'
  | h_tick now s s' : tick now s s' -> happens s (ETick now) s'.

Inductive history : St -> list event -> St -> Prop :=
  | h_nil s : history s [] s
  | h_cons s e s1 es s2 : happens s e s1 -> history s1 es s2 -> history s (e :: es) s2.

Lemma history_app s es1 es2 s' : history s (es1 ++ es2) s' -> exists s1, history s es1 s1 /\ history s1 es2 s'.
Proof using.
  revert s. induction es1 as [|e es1 IH]; intros s Hr; [exists s; split; [constructor|done]|].
  inversion Hr as [|? ? s1 ? ? He Hr']; subst. destruct (IH _ Hr') as (s2 & H1 & H2).
  exists s2. split; [by econstructor|done].
Qed.

Lemma history_sound s es s' : history s es s' -> sound s -> sound s'.
Proof using.
  induction 1 as [s|s e s1 es s2 He Hr IH]; intros Hs; [done|]. apply IH.
  destruct He as [now k opts s r s' Hl|now k opts s r s' Hl|now s s' Hl].
  - pose proof (lock_sound now k opts s Hs) as Hs'. by rewrite Hl in Hs'.
  - pose proof (unlock_sound now k opts s Hs) as Hs'. by rewrite Hl in Hs'.
  - by eapply tick_sound.
Qed.

(** What an event adds to the locks of [h] on [k]: a call of its own, or nothing. *)
Definition own k h (k' : gostring) opts : bool := (k' =s k) && (rk opts =s h).
Definition gain k h (e : event) : Z :=
  match e with
  | ELock _ k' opts _ => if own k h k' opts then 1 else 0
  | EUnlock _ k' opts _ => if own k h k' opts then -1 else 0
  | ETick _ => 0
  end.
Definition balance k h (es : list event) : Z := foldr (fun e n => gain k h e + n) 0 es.

Lemma happens_held s e s' k h u n :
  happens s e s' -> held s k h u n -> ms (time e) < u -> 1 <= n + gain k h e -> 1 <= n -> held s' k h u (n + gain k h e).
Proof using.
  intros He Hh Ht Hn Hn1. destruct He as [now k' opts s r s' Hl|now k' opts s r s' Hl|now s s' Hl]; cbn [gain time] in *.
  - destruct (lock_keeps _ _ _ _ _ _ _ _ _ _ Hh Ht Hl) as (Hk & Ho & _). unfold own, streqb.
    do 2 case_bool_decide; subst; cbn [andb]; rewrite ?Z.add_0_r; try done. by apply Ho.
  - destruct (unlock_keeps _ _ _ _ _ _ _ _ _ _ Hh Ht Hl) as (Ho & Hk). unfold own, streqb in *.
    do 2 case_bool_decide; subst; cbn [andb] in *; rewrite ?Z.add_0_r; try (apply Hk; tauto).
    change (n + -1) with (n - 1). apply Ho. lia.
  - rewrite Z.add_0_r. by eapply tick_keeps.
Qed.

Lemma history_held s es s' k h u n :
  history s es s' -> held s k h u n -> 1 <= n ->
  (forall e, e ∈ es -> ms (time e) < u) ->
  (forall p, p `prefix_of` es -> 1 <= n + balance k h p) -> held s' k h u (n + balance k h es).
Proof using.
  intros Hr. revert n. induction Hr as [s|s e s1 es s2 He Hr IH]; intros n Hh Hn Ht Hb; [cbn; by rewrite Z.add_0_r|].
  assert (Hg : 1 <= n + gain k h e).
  { specialize (Hb [e]). cbn in Hb. rewrite Z.add_0_r in Hb. apply Hb. exists es. done. }
  cbn [balance foldr]. rewrite Z.add_assoc. apply IH; [|done| |].
  - eapply happens_held; [done|done| |done|done]. apply Ht. by constructor.
  - intros e' He'. apply Ht. by constructor.
  - intros p Hp. specialize (Hb (e :: p)). cbn in Hb. rewrite <- Z.add_assoc. apply Hb. by apply prefix_cons.
Qed.
End histories.

(** C23: A locker that keeps its laws excludes: when [Lock] has succeeded, then until its time is over, and
    as long as its holder has not called [Unlock] as often as it has locked (counting its later locks:
    the lock is reentrant), no [Lock] of the same key with another reentrant key succeeds, whatever
    calls come before and in between, from whomever. *)
Theorem lock_exclusion `{LockableLaws St} (s s' : St) before now k opts es now' opts' r :
  sound s ->
  history s (before ++ ELock now k opts (Ok tt) :: es ++ [ELock now' k opts' r]) s' ->
  millisecond <= lock_time opts -> rk opts' <> rk opts ->
  (forall e, e ∈ es -> ms (time e) < ms now + lock_time opts / millisecond) ->
  ms now' < ms now + lock_time opts / millisecond ->
  (forall p, p `prefix_of` es -> 1 <= 1 + balance k (rk opts) p) ->
  r <> Ok tt.
Proof.
  intros Hsound (s1 & Hr0 & Hr)%history_app Ht Hne Hes Hnow Hb. apply history_sound in Hr0; [|done].
  inversion Hr as [|? ? s2 ? ? Hl Hr']; subst. inversion Hl as [? ? ? ? ? ? Hlock| |]; subst.
  pose proof (lock_acquires _ _ _ _ _ Hr0 Ht Hlock) as Hheld.
  apply history_app in Hr' as (s3 & Hr3 & Hr4).
  inversion Hr4 as [|? ? s4 ? ? Hl4 _]; subst. inversion Hl4 as [? ? ? ? ? ? Hlock4| |]; subst.
  pose proof (history_held _ _ _ _ _ _ _ Hr3 Hheld ltac:(lia) Hes Hb) as Hh3.
  destruct (lock_keeps _ _ _ _ _ _ _ _ _ _ Hh3 Hnow Hlock4) as (_ & _ & Hx). by apply Hx.
Qed.

(** ** The Lua locker *)

Section lua.
Context (appName : gostring).
Implicit Types (db : LuaDB) (k h : gostring).

Definition lua_held db k h (u n : Z) : Prop :=
  exists e, hashes db !! redis_formatLockKey appName k = Some e /\ holder e = h /\ n <= count e /\
    exists x, pexpire e = Some x /\ u <= x.

Lemma redis_key_inj k k' : redis_formatLockKey appName k = redis_formatLockKey appName k' -> k = k'.
Proof using. unfold redis_formatLockKey. intros Heq. by apply app_inv_head in Heq as [=]. Qed.

Lemma lua_alive db t fk e :
  hashes db !! fk = Some e -> match pexpire e with Some x => t < x | None => True end -> alive t db fk = Some e.
Proof using. clear. intros He Hx. unfold alive. rewrite He. destruct (pexpire e); [|done]. apply Z.ltb_lt in Hx. by rewrite Hx. Qed.

Lemma lua_held_alive db k h u n t : lua_held db k h u n -> t < u ->
  exists e, alive t db (redis_formatLockKey appName k) = Some e /\ hashes db !! redis_formatLockKey appName k = Some e /\
    holder e = h /\ n <= count e /\ exists x, pexpire e = Some x /\ u <= x.
Proof using.
  intros (e & He & Hh & Hn & x & Hx & Hu) Ht. exists e. split; [|by eauto 10]. apply lua_alive; [done|]. rewrite Hx. lia.
Qed.

Lemma alive_lookup t db fk e : alive t db fk = Some e -> hashes db !! fk = Some e /\ match pexpire e with Some x => t < x | None => True end.
Proof using.
  clear. unfold alive. destruct (hashes db !! fk) as [e'|]; [|done]. destruct (pexpire e') as [x|] eqn:Hx.
  - destruct (Z.ltb_spec t x); [|done]. intros [= <-]. by rewrite Hx.
  - intros [= <-]. by rewrite Hx.
Qed.

(** The script sets, counts or refuses. *)
Lemma lua_lock_spec t fk arg1 d db ok db' :
  0 <= d -> redisLuaLockCommand t fk arg1 d db = (ok, db') ->
  (ok = false /\ db' = db /\ exists e, alive t db fk = Some e /\ holder e <> arg1) \/
  (ok = true /\ (forall fk', fk' <> fk -> hashes db' !! fk' = hashes db !! fk') /\
   match alive t db fk with
   | Some {| holder := h; count := c; pexpire := Some x |} =>
       h = arg1 /\ hashes db' !! fk = Some {| holder := h; count := c + 1; pexpire := Some (x + d) |}
   | _ => 0 < d -> hashes db' !! fk = Some {| holder := arg1; count := 1; pexpire := Some (t + d) |}
   end).
Proof using.
  clear. intros Hd. unfold redisLuaLockCommand, PTTL. destruct (alive t db fk) as [[h c o]|] eqn:Ha.
  - destruct (alive_lookup _ _ _ _ Ha) as [Hl Hx]. cbn [holder pexpire] in *. unfold streqb. case_bool_decide as Hh.
    2:{ intros [= <- <-]. left. split; [done|]. split; [done|]. by eexists. }
    destruct o as [x|].
    + destruct ((x - t =? -1) || (x - t =? -2)) eqn:Hz; [lia|]. unfold HINCRBY_count. rewrite Ha. cbn [snd holder count pexpire].
      unfold PEXPIRE. erewrite lua_alive; [|cbn [hashes]; by rewrite lookup_insert_eq|done].
      destruct (Z.leb_spec (d + (x - t)) 0); [lia|]. intros [= <- <-]. right. split; [done|]. cbn [hashes holder count].
      split; [intros fk' Hne; by rewrite !lookup_insert_ne|]. split; [done|]. rewrite lookup_insert_eq. by replace (t + (d + (x - t))) with (x + d) by lia.
    + cbn [Z.eqb orb]. unfold PEXPIRE, HMSET. rewrite Ha. cbn [pexpire].
      erewrite lua_alive; [|cbn [hashes]; by rewrite lookup_insert_eq|done]. cbn [hashes holder count].
      destruct (Z.leb_spec d 0); intros [= <- <-]; right; (split; [done|]); cbn [hashes];
        (split; [intros fk' Hne; by rewrite ?lookup_delete_ne, ?lookup_insert_ne by done|]); [lia|].
      intros _. by rewrite lookup_insert_eq.
  - cbn [Z.eqb orb]. unfold PEXPIRE, HMSET. rewrite Ha. cbn [pexpire].
    erewrite lua_alive; [|cbn [hashes]; by rewrite lookup_insert_eq|done]. cbn [hashes holder count].
    destruct (Z.leb_spec d 0); intros [= <- <-]; right; (split; [done|]); cbn [hashes];
      (split; [intros fk' Hne; by rewrite ?lookup_delete_ne, ?lookup_insert_ne by done|]); [lia|].
    intros _. by rewrite lookup_insert_eq.
Qed.

Lemma lua_unlock_spec t fk arg1 db ok db' :
  redisLuaUnlockCommand t fk arg1 db = (ok, db') ->
  db' = db \/
  (forall fk', fk' <> fk -> hashes db' !! fk' = hashes db !! fk') /\
  exists e, alive t db fk = Some e /\ holder e = arg1 /\
    (1 < count e -> hashes db' !! fk = Some {| holder := holder e; count := count e - 1; pexpire := pexpire e |}).
Proof using.
  clear. unfold redisLuaUnlockCommand. destruct (alive t db fk) as [e|] eqn:Ha; [|intros [= <- <-]; by left].
  unfold streqb. case_bool_decide as Hh; [|intros [= <- <-]; by left].
  unfold HINCRBY_count. rewrite Ha. right. destruct (Z.leb_spec (count e + -1) 0); simplify_eq; cbn [hashes DEL].
  - split; [intros fk' Hne; by rewrite lookup_delete_ne, lookup_insert_ne by done|]. exists e. split; [done|]. split; [done|lia].
  - split; [intros fk' Hne; by rewrite lookup_insert_ne by done|]. exists e. split; [done|]. split; [done|].
    intros _. by rewrite lookup_insert_eq.
Qed.

Lemma lock_time_pos opts : 0 < lock_time opts.
Proof using. clear. unfold lock_time. destruct (Z.ltb_spec 0 (expired (ApplyOptions opts))); [done|]. done. Qed.

(** Every lock has been taken at least once and has an expiry, when no script is running. *)
Definition lua_sound db : Prop := forall fk e, hashes db !! fk = Some e -> 1 <= count e /\ is_Some (pexpire e).

Lemma lua_lock_sound t fk arg1 d db : 0 <= d -> lua_sound db -> lua_sound (redisLuaLockCommand t fk arg1 d db).2.
Proof using.
  clear. intros Hd Hs. destruct (redisLuaLockCommand t fk arg1 d db) as [ok db'] eqn:Hl. cbn [snd].
  pose proof Hl as [(_ & -> & _)|(-> & Ho & Hres)]%lua_lock_spec; [done| |done].
  intros fk' e He. destruct (decide (fk' = fk)) as [->|Hne]; [|rewrite Ho in He by done; by eapply Hs].
  destruct (alive t db fk) as [[h c [x|]]|] eqn:Ha.
  - destruct Hres as [_ Hres]. apply alive_lookup in Ha as [Ha _]. apply Hs in Ha as [Ha _]. rewrite He in Hres.
    simplify_eq. cbn in *. split; [lia|done].
  - apply alive_lookup in Ha as [Ha _]. by apply Hs in Ha as [_ [? ?]].
  - destruct (decide (0 < d)) as [Hpos|]; [rewrite Hres in He by done; by simplify_eq|].
    exfalso. assert (d = 0) as -> by lia. revert Hl. unfold redisLuaLockCommand, PTTL. rewrite Ha. cbn [Z.eqb orb].
    unfold PEXPIRE, HMSET. rewrite Ha. erewrite lua_alive; [|cbn [hashes]; by rewrite lookup_insert_eq|done]. cbn.
    intros [= <-]. cbn in He. by rewrite lookup_delete_eq in He.
Qed.

Lemma lua_unlock_sound t fk arg1 db : lua_sound db -> lua_sound (redisLuaUnlockCommand t fk arg1 db).2.
Proof using.
  clear. intros Hs. destruct (redisLuaUnlockCommand t fk arg1 db) as [ok db'] eqn:Hu. cbn [snd].
  revert Hu. unfold redisLuaUnlockCommand, HINCRBY_count. destruct (alive t db fk) as [e|] eqn:Ha; [|by intros [= _ <-]].
  destruct (holder e =s arg1); [|by intros [= _ <-]].
  destruct (Z.leb_spec (count e + -1) 0); intros [= _ <-]; intros fk' e' Hl; cbn [hashes DEL] in Hl.
  - apply lookup_delete_Some in Hl as [Hne Hl]. rewrite lookup_insert_ne in Hl by done. by eapply Hs.
  - apply lookup_insert_Some in Hl as [[_ <-]|[_ Hl]]; [|by eapply Hs]. apply alive_lookup in Ha as [Ha _].
    apply Hs in Ha as [_ ?]. cbn. split; [lia|done].
Qed.

Lemma expiry_nonneg opts : 0 <= lock_time opts / millisecond.
Proof using. clear. apply Z.div_pos; [|done]. pose proof (lock_time_pos opts). lia. Qed.

Lemma lua_lock_keeps now k' opts s r s' k h u n :
  lua_held s k h u n -> ms now < u -> redisLua_Lock appName now k' opts s = (r, s') ->
  lua_held s' k h u n /\ (k' = k -> rk opts = h -> lua_held s' k h u (n + 1)) /\ (k' = k -> rk opts <> h -> r <> Ok tt).
Proof using.
  intros Hh Ht. unfold redisLua_Lock. destruct (redisLuaLockCommand _ _ _ _ s) as [ok db'] eqn:Hl. intros [= <- <-].
  pose proof (expiry_nonneg opts). apply lua_lock_spec in Hl; [|done].
  destruct (lua_held_alive _ _ _ _ _ _ Hh Ht) as (e & Ha & Hlk & He & Hn & x & Hx & Hu).
  destruct Hl as [(-> & -> & e' & Ha' & Hne)|(-> & Hother & Hres)].
  - split; [done|]. split; [|done]. intros -> Hrk. rewrite Ha in Ha'. congruence.
  - destruct (decide (k' = k)) as [->|Hk].
    + rewrite Ha in Hres. destruct e as [h0 c o]. cbn in *. subst o. destruct Hres as [-> Hres].
      assert (Hheld : lua_held db' k h u (n + 1)).
      { eexists. split; [exact Hres|]. cbn. split; [done|]. split; [lia|]. eexists. split; [done|lia]. }
      split; [|split; [done|by intros _ Hne; subst]]. destruct Hheld as (e & H1 & H2 & H3 & H4). exists e. by repeat (split; [first [done|lia]|]).
    + split; [|split; by intros ->]. exists e. rewrite Hother; [by eauto 10|].
      intros Heq. by apply redis_key_inj in Heq.
Qed.

Lemma lua_unlock_keeps now k' opts s r s' k h u n :
  lua_held s k h u n -> ms now < u -> redisLua_Unlock appName now k' opts s = (r, s') ->
  (2 <= n -> lua_held s' k h u (n - 1)) /\ (k' <> k \/ rk opts <> h -> lua_held s' k h u n).
Proof using.
  intros Hh Ht. unfold redisLua_Unlock. destruct (redisLuaUnlockCommand _ _ _ s) as [ok db'] eqn:Hl. intros [= <- <-].
  assert (Hle : forall n', n' <= n -> lua_held s k h u n').
  { intros n' Hn'. destruct Hh as (e & H1 & H2 & H3 & H4). exists e. by repeat (split; [first [done|lia]|]). }
  destruct (lua_held_alive _ _ _ _ _ _ Hh Ht) as (e & Ha & Hlk & He & Hn & Hx).
  apply lua_unlock_spec in Hl as [->|(Hother & e' & Ha' & Hh' & Hres)]; [split; intros; apply Hle; lia|].
  destruct (decide (k' = k)) as [->|Hk].
  - rewrite Ha in Ha'. simplify_eq. split; [|intros [?|?]; congruence].
    intros H2. eexists. split; [apply Hres; lia|]. cbn. split; [done|]. split; [lia|done].
  - assert (Hk' : redis_formatLockKey appName k <> redis_formatLockKey appName k')
      by (intros Heq; by apply redis_key_inj in Heq).
    split; intros _; exists e; rewrite Hother by done; by repeat (split; [first [done|lia]|]).
Qed.

#[global] Instance lua_laws : @LockableLaws LuaDB (redisLuaLocker appName).
Proof.
  refine {| held := lua_held; tick := fun _ s s' => s' = s; sound := lua_sound |}.
  - intros now k opts s Hs. cbn. unfold redisLua_Lock. pose proof (lua_lock_sound (ms now) (redis_formatLockKey appName k)
      (rk opts) (lock_time opts / millisecond) s (expiry_nonneg opts) Hs) as H'. by destruct (redisLuaLockCommand _ _ _ _ s).
  - intros now k opts s Hs. cbn. unfold redisLua_Unlock. pose proof (lua_unlock_sound (ms now) (redis_formatLockKey appName k)
      (rk opts) s Hs) as H'. by destruct (redisLuaUnlockCommand _ _ _ s).
  - by intros now s s' Hs ->.
  - intros now k opts s s' Hs Ht. cbn [Lock redisLuaLocker]. unfold redisLua_Lock.
    destruct (redisLuaLockCommand _ _ _ _ s) as [ok db'] eqn:Hl. destruct ok; [|done]. intros [= ->].
    assert (0 < lock_time opts / millisecond) by (apply Z.div_str_pos; unfold millisecond in *; lia).
    apply lua_lock_spec in Hl as [(? & _)|(_ & _ & Hres)]; [done| |lia].
    destruct (alive _ s _) as [[h c [x|]]|] eqn:Ha;
      [|eexists; (split; [by apply Hres|]); cbn; (split; [done|]); (split; [lia|]); eexists; (split; [done|lia])..].
    destruct Hres as [<- Hres]. apply alive_lookup in Ha as [Hl Hx]. apply Hs in Hl as [Hl _]. cbn in Hl, Hx.
    eexists. split; [exact Hres|]. cbn. split; [done|]. split; [lia|]. eexists. split; [done|lia].
  - intros. by eapply lua_lock_keeps.
  - intros. by eapply lua_unlock_keeps.
  - by intros now s s' k h u n Hh _ ->.
  - intros s k h u n h' u' n' (e & He & Hh & _) (e' & He' & Hh' & _). congruence.
Defined.
End lua.

(** ** The MongoDB locker *)

Section mongo.
Context (appName : gostring).
Implicit Types (db : MongoDB) (k h : gostring).

Definition mongo_held db k h (u n : Z) : Prop :=
  exists d, docs db !! mongo_formatLockKey appName k = Some d /\ Holder d = h /\ n <= Count d /\ u <= ExpiresAt d.
Definition mongo_sound db : Prop := forall fk d, docs db !! fk = Some d -> 1 <= Count d.

Lemma mongo_key_inj k k' : mongo_formatLockKey appName k = mongo_formatLockKey appName k' -> k = k'.
Proof using. unfold mongo_formatLockKey. intros Heq. by apply app_inv_head in Heq as [=]. Qed.

Lemma mongo_held_le db k h u n n' : mongo_held db k h u n -> n' <= n -> mongo_held db k h u n'.
Proof using. intros (d & H1 & H2 & H3 & H4) Hn. exists d. by repeat (split; [first [done|lia]|]). Qed.

Lemma mongo_held_other db k k' h u n o :
  k' <> k -> mongo_held db k h u n ->
  mongo_held {| docs := partial_alter (fun _ => o) (mongo_formatLockKey appName k') (docs db) |} k h u n.
Proof using.
  intros Hk (d & H1 & H2). exists d. cbn. rewrite lookup_partial_alter_ne; [done|].
  intros Heq. by apply mongo_key_inj in Heq.
Qed.

Lemma mongo_sound_put db fk o : mongo_sound db -> (forall d, o = Some d -> 1 <= Count d) ->
  mongo_sound {| docs := partial_alter (fun _ => o) fk (docs db) |}.
Proof using.
  clear. intros Hs Ho fk' d Hl. cbn in Hl. destruct (decide (fk' = fk)) as [->|Hne].
  - rewrite lookup_partial_alter_eq in Hl. by apply Ho.
  - rewrite lookup_partial_alter_ne in Hl by done. by eapply Hs.
Qed.

Lemma mongo_lock_sound now k opts db : mongo_sound db -> mongo_sound (mongo_Lock appName now k opts db).2.
Proof using.
  intros Hs. unfold mongo_Lock. destruct (docs db !! _) as [d|] eqn:Hd.
  - destruct (_ || _); [|done]. apply mongo_sound_put; [done|]. intros d' [= <-]. apply Hs in Hd. cbn. lia.
  - apply mongo_sound_put; [done|]. by intros d' [= <-].
Qed.

Lemma mongo_unlock_sound now k opts db : mongo_sound db -> mongo_sound (mongo_Unlock appName now k opts db).2.
Proof using.
  intros Hs. unfold mongo_Unlock. destruct (docs db !! _) as [d|] eqn:Hd; [|done].
  destruct (_ && _); [|done]. cbn [Count]. destruct (Z.leb_spec (Count d - 1) 0); (apply mongo_sound_put; [done|]); [done|].
  intros d' [= <-]. cbn. lia.
Qed.

Lemma mongo_acquires now k opts s s' :
  mongo_sound s -> mongo_Lock appName now k opts s = (Ok tt, s') ->
  mongo_held s' k (rk opts) (ms now + lock_time opts / millisecond) 1.
Proof using.
  intros Hs. assert (Hms : ms now + lock_time opts / millisecond <= ms (now + lock_time opts)).
  { unfold ms, millisecond. pose proof (Z.div_mod now 1000000 ltac:(done)). pose proof (Z.div_mod (lock_time opts) 1000000 ltac:(done)).
    pose proof (Z.mod_pos_bound now 1000000 ltac:(done)). pose proof (Z.mod_pos_bound (lock_time opts) 1000000 ltac:(done)).
    apply Z.div_le_lower_bound; [done|]. lia. }
  unfold mongo_Lock. destruct (docs s !! _) as [d|] eqn:Hd.
  - destruct (_ || _); [|done]. cbn [Holder]. unfold streqb. case_bool_decide as Hh; [|done]. intros [= <-].
    apply Hs in Hd. eexists. cbn. split; [by rewrite lookup_insert_eq|]. cbn. repeat split; [done|lia|lia].
  - intros [= <-]. eexists. cbn. split; [by rewrite lookup_insert_eq|]. done.
Qed.

Lemma mongo_lock_keeps now k' opts s r s' k h u n :
  mongo_held s k h u n -> ms now < u -> mongo_Lock appName now k' opts s = (r, s') ->
  mongo_held s' k h u n /\ (k' = k -> rk opts = h -> mongo_held s' k h u (n + 1)) /\ (k' = k -> rk opts <> h -> r <> Ok tt).
Proof using.
  intros Hh Ht Hl. destruct (decide (k' = k)) as [->|Hk].
  - pose proof Hh as (d & Hd & Hholder & Hn & Hu). unfold mongo_Lock in Hl. rewrite Hd in Hl.
    destruct (Z.ltb_spec (ExpiresAt d) (ms now)); [lia|]. cbn [orb Holder] in Hl. unfold streqb in Hl.
    case_bool_decide as Hrk; simplify_eq; [|split; [done|split; [by intros _ Heq; destruct Hrk|done]]].
    assert (Hheld : mongo_held {| docs := <[mongo_formatLockKey appName k :=
      {| Holder := Holder d; ExpiresAt := Z.max (ExpiresAt d) (ms (now + lock_time opts)); Count := Count d + 1 |}]> (docs s) |} k (Holder d) u (n + 1)).
    { eexists. cbn. split; [by rewrite lookup_insert_eq|]. cbn. split; [done|]. split; lia. }
    split; [eapply mongo_held_le; [exact Hheld|lia]|]. split; [done|]. congruence.
  - split; [|by split]. unfold mongo_Lock in Hl. destruct (docs s !! mongo_formatLockKey appName k') as [d|].
    + destruct (_ || _); simplify_eq; [by apply mongo_held_other|done].
    + simplify_eq. by apply mongo_held_other.
Qed.

Lemma mongo_unlock_keeps now k' opts s r s' k h u n :
  mongo_held s k h u n -> ms now < u -> mongo_Unlock appName now k' opts s = (r, s') ->
  (2 <= n -> mongo_held s' k h u (n - 1)) /\ (k' <> k \/ rk opts <> h -> mongo_held s' k h u n).
Proof using.
  intros Hh Ht Hl. destruct (decide (k' = k)) as [->|Hk].
  - pose proof Hh as (d & Hd & Hholder & Hn & Hu). unfold mongo_Unlock in Hl. rewrite Hd in Hl. unfold streqb in Hl.
    case_bool_decide as Hrk; cbn [andb] in Hl; [|simplify_eq; split; [intros; eapply mongo_held_le; [done|lia]|done]].
    split; [|intros [?|?]; congruence]. intros H2. destruct (Z.ltb_spec 0 (Count d)); [|lia]. cbn [Count] in Hl.
    destruct (Z.leb_spec (Count d - 1) 0); [lia|]. simplify_eq.
    eexists. cbn. split; [by rewrite lookup_insert_eq|]. cbn. repeat split; lia.
  - assert (Hkeep : mongo_held s' k h u n); [|split; [intros; eapply mongo_held_le; [done|lia]|done]].
    unfold mongo_Unlock in Hl. destruct (docs s !! mongo_formatLockKey appName k') as [d|]; [|by simplify_eq].
    destruct (_ && _); [|by simplify_eq]. destruct (_ <=? _); simplify_eq; by apply mongo_held_other.
Qed.

#[global] Instance mongo_laws : @LockableLaws MongoDB (mongoLocker appName).
Proof.
  refine {| held := mongo_held; tick := fun now s s' => exists fk, s' = mongo_evict now fk s; sound := mongo_sound |}.
  - intros. by apply mongo_lock_sound.
  - intros. by apply mongo_unlock_sound.
  - intros now s s' Hs [fk ->]. unfold mongo_evict. destruct (docs s !! fk) as [d|]; [|done].
    destruct (_ <=? _); [|done]. by apply mongo_sound_put.
  - intros now k opts s s' Hs _. by apply mongo_acquires.
  - intros. by eapply mongo_lock_keeps.
  - intros. by eapply mongo_unlock_keeps.
  - intros now s s' k h u n (d & Hd & Hholder & Hn & Hu) Ht [fk ->]. exists d. unfold mongo_evict.
    destruct (docs s !! fk) as [d'|] eqn:Hfk; [|done]. destruct (Z.leb_spec (ExpiresAt d') (ms now)); [|done].
    cbn. rewrite lookup_delete_ne; [done|]. intros ->. rewrite Hd in Hfk. simplify_eq. lia.
  - intros s k h u n h' u' n' (d & Hd & <- & _) (d' & Hd' & <- & _). congruence.
Defined.
End mongo.

(** ** Examples and limits *)

Definition app : gostring := str "app".
Definition empty_lua : LuaDB := {| hashes := ∅ |}.
Definition by_ (h : gostring) : list lock_opt := [ReentrantKey h; Expire (1000 * millisecond)].

(** The outcome of a call of the Lua locker, and the state after it. *)
Definition lua_lock (now : Z) (k h : gostring) : LuaDB -> outcome LockError unit * LuaDB := redisLua_Lock app now k (by_ h).
Definition lua_unlock (now : Z) (k h : gostring) : LuaDB -> outcome LockError unit * LuaDB := redisLua_Unlock app now k (by_ h).

(** Another client is refused while the holder has locked twice and unlocked once. *)
Lemma lock_exclusion_witness :
  let s1 := (lua_lock 0 (str "k") (str "a") empty_lua).2 in
  let s2 := (lua_lock 5 (str "k") (str "a") s1).2 in
  let s3 := (lua_unlock 7 (str "k") (str "a") s2).2 in
  (lua_lock 9 (str "k") (str "b") s3).1 <> Ok tt.
Proof.
  cbv zeta.
  refine (@lock_exclusion LuaDB (redisLuaLocker app) (lua_laws app) empty_lua _ [] 0 (str "k") (by_ (str "a"))
    [ELock 5 (str "k") (by_ (str "a")) (Ok tt); EUnlock 7 (str "k") (by_ (str "a")) (Ok tt)] 9 (by_ (str "b")) _ _ _ _ _ _ _ _).
  - intros fk e He. cbn in He. by rewrite lookup_empty in He.
  - eapply h_cons; [apply h_lock; vm_compute; reflexivity|].
    eapply h_cons; [apply h_lock; vm_compute; reflexivity|].
    eapply h_cons; [apply h_unlock; vm_compute; reflexivity|].
    eapply h_cons; [apply h_lock; vm_compute; reflexivity|]. apply h_nil.
  - vm_compute. discriminate.
  - vm_compute. discriminate.
  - intros e He. repeat (apply elem_of_cons in He as [->|He]; [reflexivity|]). by apply not_elem_of_nil in He.
  - reflexivity.
  - intros p [q Hq]. destruct p as [|e1 [|e2 [|e3 p]]]; cbn in Hq; simplify_eq; vm_compute; discriminate.
Defined.

(** Calls of the Lua locker without a reentrant key do not exclude each other: they share the empty one. *)
Theorem lua_lock_without_key now now' k opts opts' (db : LuaDB) :
  rk opts = [] -> rk opts' = [] -> lua_sound db ->
  (redisLua_Lock app now k opts db).1 = Ok tt -> ms now' < ms now + lock_time opts / millisecond ->
  millisecond <= lock_time opts ->
  (redisLua_Lock app now' k opts' (redisLua_Lock app now k opts db).2).1 = Ok tt.
Proof.
  intros Hk Hk' Hs Hok Ht Hms. destruct (redisLua_Lock app now k opts db) as [r s1] eqn:H1. cbn [fst snd] in Hok |- *. subst r.
  pose proof (@lock_acquires _ _ (lua_laws app) now k opts db s1 Hs Hms H1) as Hh.
  destruct (lua_held_alive _ _ _ _ _ _ _ Hh Ht) as (e & Ha & _ & He & _).
  unfold redisLua_Lock. destruct (redisLuaLockCommand _ _ _ _ s1) as [ok db'] eqn:Hl.
  apply lua_lock_spec in Hl as [(_ & _ & e' & Ha' & Hne)|(-> & _)]; [|done|apply expiry_nonneg].
  rewrite Ha in Ha'. congruence.
Qed.

(** C31: The NX locker does not exclude. After a successful [Lock], and until its time is over, every [Lock] of the
    key is refused; but [Unlock] deletes the key whoever calls it and with whatever options, so that after
    any [Unlock], also a late one of a client whose own lock has expired, the next [Lock] of anybody
    succeeds while the holder still relies on its lock. *)
Theorem nx_unlock_frees_other (UUID : Z -> gostring) now k opts (db : NXDB) s1 :
  redisNX_Lock app UUID now k opts db = (Ok tt, s1) ->
  (forall now' opts', ms now' < ms now + Z.max 1 (lock_time opts / millisecond) ->
     redisNX_Lock app UUID now' k opts' s1 = (Err ErrTimeout, s1)) /\
  (forall now1 opts1 now' opts', exists s2 s3,
     redisNX_Unlock app now1 k opts1 s1 = (Ok tt, s2) /\ redisNX_Lock app UUID now' k opts' s2 = (Ok tt, s3)).
Proof.
  unfold redisNX_Lock, redisNX_Unlock, SetNX. destruct (lock_get (ms now) (strings_ db) _) eqn:Hg; [done|].
  intros [= <-]. split.
  - intros now' opts' Hlt. cbn. unfold lock_get at 1. rewrite lookup_insert_eq. cbn.
    by destruct (Z.ltb_spec (ms now') (ms now + Z.max 1 (lock_time opts / millisecond))); [|lia].
  - intros now1 opts1 now' opts'. eexists _, _. split; [reflexivity|]. cbn. unfold lock_get. by rewrite lookup_delete_eq.
Qed.

(** A client locks at 1500; a late unlock of another one at 1700 lets a third one in at 1800. *)
Lemma nx_unlock_frees_other_witness :
  let lock now := redisNX_Lock app (fun _ => str "uuid") (now * millisecond) (str "k") (by_ []) in
  let s1 := snd (lock 1500 {| strings_ := ∅ |}) in
  exists s2 s3, redisNX_Unlock app (1700 * millisecond) (str "k") [] s1 = (Ok tt, s2) /\ lock 1800 s2 = (Ok tt, s3).
Proof.
  cbv zeta. refine (proj2 (nx_unlock_frees_other (fun _ => str "uuid") (1500 * millisecond) (str "k") (by_ []) {| strings_ := ∅ |} _ _)
    (1700 * millisecond) [] (1800 * millisecond) (by_ [])).
  reflexivity.
Defined.

(** The MongoDB locker never hands over the lock of a holder that is gone: another client's [Lock] fails as
    long as the document exists, and when the lock has expired, the attempt itself extends it. *)
Theorem mongo_expired_lock_extended now k opts (db : MongoDB) d :
  docs db !! mongo_formatLockKey app k = Some d -> Holder d <> rk opts -> ExpiresAt d < ms now ->
  mongo_Lock app now k opts db =
    (Err ErrTimeout, {| docs := <[mongo_formatLockKey app k :=
       {| Holder := Holder d; ExpiresAt := ms (now + lock_time opts); Count := Count d + 1 |}]> (docs db) |}).
Proof.
  intros Hd Hh He. unfold mongo_Lock. rewrite Hd. apply Z.ltb_lt in He as Hlt. rewrite Hlt. cbn [orb Holder].
  unfold streqb. rewrite bool_decide_false by done. repeat f_equal. apply Z.max_r.
  assert (ms now <= ms (now + lock_time opts)); [|lia]. pose proof (lock_time_pos opts).
  apply Z.div_le_mono; [done|lia].
Qed.
