(* ===== verification/LockWithin.v ===== *)
(** [Within] (lock/candy.go): a callback runs under a lock; a goroutine retries until it has the lock, the
    caller gives up after a timeout or when its context is done.

    The callers that share a store are a step relation; what they promise holds for every locker that
    keeps [LockableLaws]. *)
From stdpp Require Import base gmap list strings numbers option relations.
From S2P Require Import Prelude.
From S2P Require Import ShardKey.
From S2P Require Import Lock.
From S2P Require Import LockSpec.

(** ** The program *)

(** Where a call of [Within] is; with the time at which it got the lock. *)
Inductive wstate :=
  | WTrying                 (* the goroutine retries, the caller waits *)
  | WLocked (t : Z)         (* the goroutine has the lock and has reported it *)
  | WCallback (t : Z)       (* the callback runs *)
  | WReturned               (* unlocked *)
  | WOrphan                 (* the caller has given up, the goroutine has not noticed *)
  | WLeaked (t : Z)         (* the goroutine got the lock, the caller has given up *)
  | WStopped.               (* given up, the goroutine has ended *)

(** A call, with its reentrant key: the one given, or a fresh ULID. *)
Record Within := { w_key : gostring; w_rkey : gostring; w_expired : Z; w_state : wstate }.
Definition set_state (w : Within) (st : wstate) : Within :=
  {| w_key := w_key w; w_rkey := w_rkey w; w_expired := w_expired w; w_state := st |}.

Definition optionals (w : Within) : list lock_opt :=
  ReentrantKey (w_rkey w) :: if 0 <? w_expired w then [Expire (w_expired w)] else [].

Section within.
Context `{LockableLaws St}.
Implicit Types (s : St) (w : Within) (ws : list Within).

(** One attempt of the goroutine. *)
Definition attempt (now : Z) w s : outcome LockError unit * St :=
  if reentrant then ReentrantLock now (w_key w) (w_rkey w) (optionals w) s
  else Lock now (w_key w) (optionals w) s.
Definition tried (now : Z) w (r : outcome LockError unit) : Within :=
  match w_state w, r with
  | WTrying, Ok _ => set_state w (WLocked now)
  | WOrphan, Ok _ => set_state w (WLeaked now)
  | _, _ => w
  end.

(** The caller's select on the timeout or the context. *)
Definition stop_trying w : Within :=
  match w_state w with
  | WTrying => set_state w WOrphan
  | WLocked t => set_state w (WLeaked t)
  | _ => w
  end.

Record world := { now : Z; store : St; calls : list Within }.

Inductive wstep : world -> world -> Prop :=
  | w_time n t s ws : n <= t -> wstep {| now := n; store := s; calls := ws |} {| now := t; store := s; calls := ws |}
  | w_server n s s' ws : tick n s s' -> wstep {| now := n; store := s; calls := ws |} {| now := n; store := s'; calls := ws |}
  | w_try n s ws i w r s' :
      ws !! i = Some w -> w_state w = WTrying \/ w_state w = WOrphan -> attempt n w s = (r, s') ->
      wstep {| now := n; store := s; calls := ws |} {| now := n; store := s'; calls := <[i := tried n w r]> ws |}
  | w_stop_trying n s ws i w :
      ws !! i = Some w -> wstep {| now := n; store := s; calls := ws |} {| now := n; store := s; calls := <[i := stop_trying w]> ws |}
  | w_stop n s ws i w :
      ws !! i = Some w -> w_state w = WOrphan ->
      wstep {| now := n; store := s; calls := ws |} {| now := n; store := s; calls := <[i := set_state w WStopped]> ws |}
  | w_enter n s ws i w t :
      ws !! i = Some w -> w_state w = WLocked t ->
      wstep {| now := n; store := s; calls := ws |} {| now := n; store := s; calls := <[i := set_state w (WCallback t)]> ws |}
  | w_leave n s ws i w t r s' :
      ws !! i = Some w -> w_state w = WCallback t -> Unlock n (w_key w) (optionals w) s = (r, s') ->
      wstep {| now := n; store := s; calls := ws |} {| now := n; store := s'; calls := <[i := set_state w WReturned]> ws |}
  | w_other_lock n s ws k opts r s' :
      (forall w, w ∈ ws -> w_rkey w <> rk opts) -> Lock n k opts s = (r, s') ->
      wstep {| now := n; store := s; calls := ws |} {| now := n; store := s'; calls := ws |}
  | w_other_unlock n s ws k opts r s' :
      (forall w, w ∈ ws -> w_rkey w <> rk opts) -> Unlock n k opts s = (r, s') ->
      wstep {| now := n; store := s; calls := ws |} {| now := n; store := s'; calls := ws |}.

(** ** The invariant *)

Definition call_time w : Z := lock_time (optionals w).
Definition until w (t : Z) : Z := ms t + call_time w / millisecond.
Definition has_lock w : option Z :=
  match w_state w with WLocked t | WCallback t | WLeaked t => Some t | _ => None end.

(** A call that has the lock, holds it until its time is over. *)
Definition call_inv (n : Z) s w : Prop :=
  forall t, has_lock w = Some t -> ms n < until w t -> held s (w_key w) (w_rkey w) (until w t) 1.

Definition distinct ws : Prop := forall i j w w', ws !! i = Some w -> ws !! j = Some w' ->
  w_key w = w_key w' -> w_rkey w = w_rkey w' -> i = j.

Record winv (x : world) : Prop := {
  wi_sound : sound (store x);
  wi_distinct : distinct (calls x);
  wi_times : forall w, w ∈ calls x -> millisecond <= call_time w;
  wi_calls : forall w, w ∈ calls x -> call_inv (now x) (store x) w
}.

Lemma optionals_rk w : rk (optionals w) = w_rkey w.
Proof using. clear. unfold optionals. by destruct (0 <? w_expired w). Qed.

(** Setting the state of a call keeps what the call is. *)
Lemma distinct_insert ws i w st : ws !! i = Some w -> distinct ws -> distinct (<[i := set_state w st]> ws).
Proof using.
  clear. intros Hi Hd j k a b Hj Hk.
  assert (Hget : forall j a, <[i := set_state w st]> ws !! j = Some a -> exists a0, ws !! j = Some a0 /\ w_key a = w_key a0 /\ w_rkey a = w_rkey a0).
  { intros j' a' Hl. apply list_lookup_insert_Some in Hl as [(<- & <- & _)|[_ Hl]]; [by exists w|by exists a']. }
  destruct (Hget _ _ Hj) as (a0 & Ha & -> & ->), (Hget _ _ Hk) as (b0 & Hb & -> & ->). by apply (Hd j k a0 b0).
Qed.

(** A step of the store that keeps what the other calls hold. *)
Lemma winv_update n s ws i w st s' :
  winv {| now := n; store := s; calls := ws |} -> ws !! i = Some w -> sound s' ->
  (forall j w' t, ws !! j = Some w' -> j <> i -> has_lock w' = Some t -> ms n < until w' t ->
     held s (w_key w') (w_rkey w') (until w' t) 1 -> held s' (w_key w') (w_rkey w') (until w' t) 1) ->
  call_inv n s' (set_state w st) ->
  winv {| now := n; store := s'; calls := <[i := set_state w st]> ws |}.
Proof using.
  intros [Hs Hd Ht Hc] Hi Hs' Hk Hnew. cbn in *. split; cbn; [done|by apply distinct_insert| |].
  - intros w' [j Hj]%list_elem_of_lookup_1. apply list_lookup_insert_Some in Hj as [(_ & <- & _)|[_ Hj]].
    + apply (Ht w). by eapply list_elem_of_lookup_2.
    + apply Ht. by eapply list_elem_of_lookup_2.
  - intros w' [j Hj]%list_elem_of_lookup_1. apply list_lookup_insert_Some in Hj as [(_ & <- & _)|[Hne Hj]]; [done|].
    intros t Hl Hu. eapply Hk; [done|done|done|done|]. apply Hc; [|done|done]. by eapply list_elem_of_lookup_2.
Qed.

(** A step that changes neither the time nor the store. *)
Lemma winv_state n s ws i w st :
  winv {| now := n; store := s; calls := ws |} -> ws !! i = Some w ->
  (forall t, has_lock (set_state w st) = Some t -> has_lock w = Some t) ->
  winv {| now := n; store := s; calls := <[i := set_state w st]> ws |}.
Proof using.
  intros Hw Hi Hl. apply (winv_update n s ws i w st s Hw Hi); [apply Hw|done|].
  intros t Ht Hu. apply Hl in Ht. eapply (wi_calls _ Hw w); [by eapply list_elem_of_lookup_2|done|done].
Qed.

Lemma winv_store n s ws s' :
  winv {| now := n; store := s; calls := ws |} -> sound s' ->
  (forall w t, w ∈ ws -> has_lock w = Some t -> ms n < until w t ->
     held s (w_key w) (w_rkey w) (until w t) 1 -> held s' (w_key w) (w_rkey w) (until w t) 1) ->
  winv {| now := n; store := s'; calls := ws |}.
Proof using.
  intros [Hs Hd Ht Hc] Hs' Hk. split; [done|done|done|]. cbn in *. intros w Hw t Hl Hu. apply Hk; [done|done|done|]. by apply Hc.
Qed.

Lemma attempt_lock n w s r s' : attempt n w s = (r, s') ->
  (s' = s /\ r <> Ok tt) \/
  exists opts, Lock n (w_key w) opts s = (r, s') /\ rk opts = w_rkey w /\ lock_time opts = call_time w.
Proof using.
  unfold attempt, ReentrantLock. destruct reentrant.
  - destruct (IsStrBlank _); [intros [= <- <-]; by left|]. intros Hl. right. eexists. split; [exact Hl|].
    unfold call_time, lock_time, ApplyOptions. rewrite !fold_left_app. done.
  - intros Hl. right. exists (optionals w). split; [done|]. split; [apply optionals_rk|done].
Qed.

Lemma attempt_winv n s ws i w r s' :
  winv {| now := n; store := s; calls := ws |} -> ws !! i = Some w -> w_state w = WTrying \/ w_state w = WOrphan ->
  attempt n w s = (r, s') -> winv {| now := n; store := s'; calls := <[i := tried n w r]> ws |}.
Proof using.
  intros Hw Hi Hst Ha. assert (Hself : set_state w (w_state w) = w) by by destruct w.
  assert (Hin : w ∈ ws) by by eapply list_elem_of_lookup_2.
  apply attempt_lock in Ha as [[-> Hr]|(opts & Hl & Hrk & Ht)].
  { assert (tried n w r = set_state w (w_state w)) as ->; [|by apply winv_state].
    rewrite Hself. unfold tried. destruct (w_state w), r as [[]| | |]; done. }
  pose proof (lock_sound n (w_key w) opts s (wi_sound _ Hw)) as Hs'. rewrite Hl in Hs'. cbn in Hs'.
  assert (exists st, tried n w r = set_state w st /\ (has_lock (set_state w st) = None \/ has_lock (set_state w st) = Some n /\ r = Ok tt))
    as (st & -> & Hhas).
  { assert (Hnone : has_lock w = None) by (unfold has_lock; destruct Hst as [Hst|Hst]; by rewrite Hst).
    unfold tried. destruct Hst as [Hst|Hst]; rewrite Hst; destruct r as [[]| | |]; try (eexists; split; [done|by right]);
      exists (w_state w); rewrite Hself; (split; [done|by left]). }
  apply (winv_update n s ws i w st s' Hw Hi); [done| |].
  - intros j w' t Hj Hne _ Hu Hh. by eapply (lock_keeps n (w_key w) opts s r s').
  - intros t Hl' Hu. destruct Hhas as [Hn|[Hn ->]]; rewrite Hn in Hl'; [done|]. injection Hl' as <-.
    change (until (set_state w st) n) with (until w n). unfold until. cbn [w_key w_rkey set_state]. rewrite <- Ht, <- Hrk.
    apply (lock_acquires n (w_key w) opts s s'); [apply Hw| |done]. rewrite Ht. by apply (wi_times _ Hw).
Qed.

Lemma wstep_winv x y : wstep x y -> winv x -> winv y.
Proof using.
  intros Hst Hw. destruct Hst as [n t s ws Hle|n s s' ws Htick|n s ws i w r s' Hi Hw0 Ha|n s ws i w Hi|n s ws i w Hi Hw0|n s ws i w t Hi Hw0|n s ws i w t r s' Hi Hw0 Hu|n s ws k opts r s' Hne Hl|n s ws k opts r s' Hne Hu].
  - destruct Hw as [Hs Hd Ht Hc]. split; [done|done|done|]. cbn in *. intros w Hin u Hl Hu. apply Hc; [done|done|].
    assert (ms n <= ms t) by (apply Z.div_le_mono; [done|lia]). lia.
  - eapply winv_store; [done|eapply tick_sound; [apply Hw|done]|]. intros w t Hin Hl Hu Hh. by eapply tick_keeps.
  - by eapply attempt_winv.
  - assert (exists st, stop_trying w = set_state w st /\ forall t, has_lock (set_state w st) = Some t -> has_lock w = Some t) as (st & -> & Hl).
    { unfold stop_trying. destruct w as [k h e st]. destruct st; cbn; try (by eexists _; split; [reflexivity|]); eexists; (split; [reflexivity|done]). }
    by apply winv_state.
  - by apply winv_state.
  - apply winv_state; [done|done|]. intros u. unfold has_lock. cbn. by rewrite Hw0.
  - pose proof (unlock_sound n (w_key w) (optionals w) s (wi_sound _ Hw)) as Hs'. rewrite Hu in Hs'. cbn in Hs'.
    apply (winv_update n s ws i w WReturned s' Hw Hi); [done| |by intros ? ?].
    intros j w' u Hj Hne Hl Hlt Hh. eapply (unlock_keeps n (w_key w) (optionals w) s r s'); [done|done|done|].
    rewrite optionals_rk. destruct (decide (w_key w = w_key w')) as [Hk|Hk]; [right|by left].
    intros Hr. destruct Hne. symmetry. by apply (wi_distinct _ Hw i j w w').
  - pose proof (lock_sound n k opts s (wi_sound _ Hw)) as Hs'. rewrite Hl in Hs'. cbn in Hs'.
    eapply winv_store; [done|done|]. intros w t Hin Hl' Hu Hh. by eapply (lock_keeps n k opts s r s').
  - pose proof (unlock_sound n k opts s (wi_sound _ Hw)) as Hs'. rewrite Hu in Hs'. cbn in Hs'.
    eapply winv_store; [done|done|]. intros w t Hin Hl' Hlt Hh. eapply (unlock_keeps n k opts s r s'); [done|done|done|].
    right. intros Heq. by apply (Hne w Hin).
Qed.
End within.

(** C24: Two calls of [Within] for the same key, with different reentrant keys, never run their callbacks at the
    same time while the time of both locks is not over, whichever locker that keeps its laws they use,
    however calls, retries, timeouts, other users of the lock and the clean-up of the server
    interleave. *)
Theorem within_exclusion `{LockableLaws St} (s0 : St) (n0 : Z) ws0 (x : world) (i j : nat) w w' t t' :
  sound s0 -> distinct ws0 ->
  (forall w, w ∈ ws0 -> w_state w = WTrying /\ millisecond <= call_time w) ->
  rtc wstep {| now := n0; store := s0; calls := ws0 |} x ->
  calls x !! i = Some w -> calls x !! j = Some w' -> i <> j -> w_key w = w_key w' ->
  w_state w = WCallback t -> w_state w' = WCallback t' ->
  ~ (ms (now x) < until w t /\ ms (now x) < until w' t').
Proof.
  intros Hs Hd Hw0 Hr Hi Hj Hne Hk Hst Hst' [Hu Hu'].
  assert (Hinv : winv x).
  { assert (Hx0 : winv {| now := n0; store := s0; calls := ws0 |}).
    { split; [done|done| |]; cbn; intros a Ha; destruct (Hw0 a Ha) as [Hta Hma]; [done|].
      intros u Hl. unfold has_lock in Hl. by rewrite Hta in Hl. }
    clear -Hr Hx0. induction Hr as [|x y z Hxy Hr IH]; [done|]. apply IH. by eapply wstep_winv. }
  assert (Hh : held (store x) (w_key w) (w_rkey w) (until w t) 1).
  { eapply (wi_calls _ Hinv w); [by eapply list_elem_of_lookup_2| |done]. unfold has_lock. by rewrite Hst. }
  assert (Hh' : held (store x) (w_key w') (w_rkey w') (until w' t') 1).
  { eapply (wi_calls _ Hinv w'); [by eapply list_elem_of_lookup_2| |done]. unfold has_lock. by rewrite Hst'. }
  destruct Hne. apply (wi_distinct _ Hinv i j w w'); [done|done|done|].
  rewrite Hk in Hh. by eapply held_unique.
Qed.

(** Two calls on the Lua locker: the second one gets in when the time of the first one is over. *)
Definition sample_call (h : gostring) : Within :=
  {| w_key := str "k"; w_rkey := h; w_expired := 1000 * millisecond; w_state := WTrying |}.
Definition sample_calls : list Within := [sample_call (str "a"); sample_call (str "b")].
Definition late : Z := 1500 * millisecond.
Definition sample_store : LuaDB :=
  let lock n h db := (@attempt LuaDB (redisLuaLocker app) n (sample_call (str h)) db).2 in
  lock late "b" (lock 0 "b" (lock 0 "a" empty_lua)).

#[local] Instance lua_app : Lockable LuaDB := redisLuaLocker app.
#[local] Instance lua_app_laws : LockableLaws LuaDB := lua_laws app.

Lemma sample_reachable :
  rtc (wstep (St := LuaDB)) {| now := 0; store := empty_lua; calls := sample_calls |}
    {| now := late; store := sample_store;
       calls := [set_state (sample_call (str "a")) (WCallback 0); set_state (sample_call (str "b")) (WCallback late)] |}.
Proof.
  eapply rtc_l; [eapply (w_try 0 _ _ 0); [reflexivity|by left|vm_compute; reflexivity]|].
  eapply rtc_l; [eapply (w_enter _ _ _ 0); [reflexivity|reflexivity]|].
  eapply rtc_l; [eapply (w_try 0 _ _ 1); [reflexivity|by left|vm_compute; reflexivity]|].
  eapply rtc_l; [eapply (w_time 0 late); by vm_compute|].
  eapply rtc_l; [eapply (w_try late _ _ 1); [reflexivity|by left|vm_compute; reflexivity]|].
  eapply rtc_once. eapply eq_rect; [eapply (w_enter late _ _ 1 _ late); reflexivity|vm_compute; reflexivity].
Qed.

Lemma within_exclusion_witness :
  ~ (ms late < until (set_state (sample_call (str "a")) (WCallback 0)) 0 /\
     ms late < until (set_state (sample_call (str "b")) (WCallback late)) late).
Proof.
  refine (within_exclusion (St := LuaDB) empty_lua 0 sample_calls _ 0 1 _ _ 0 late _ _ _ sample_reachable _ _ _ _ _ _).
  - intros fk e He. cbn in He. by rewrite lookup_empty in He.
  - intros a b w w' Ha Hb _. destruct a as [|[|a]], b as [|[|b]]; cbn in *; simplify_eq; done.
  - intros w Hw. repeat (apply elem_of_cons in Hw as [->|Hw]; [by split|]). by apply not_elem_of_nil in Hw.
  - reflexivity.
  - reflexivity.
  - discriminate.
  - reflexivity.
  - reflexivity.
  - reflexivity.
Defined.

(** A call that gives up may leave the lock behind: its goroutine gets it afterwards, nobody unlocks it. *)
Lemma timeout_leaks_lock :
  let w := sample_call (str "a") in
  exists s, rtc (wstep (St := LuaDB)) {| now := 0; store := empty_lua; calls := [w] |}
    {| now := 0; store := s; calls := [set_state w (WLeaked 0)] |} /\
  (lua_lock (999 * millisecond) (str "k") (str "b") s).1 = Err ErrTimeout.
Proof.
  exists (attempt 0 (sample_call (str "a")) empty_lua).2. split; [|vm_compute; reflexivity].
  eapply rtc_l; [eapply (w_stop_trying 0 _ _ 0); reflexivity|].
  eapply rtc_once. eapply eq_rect; [eapply (w_try 0 _ _ 0); [reflexivity|by right|vm_compute; reflexivity]|vm_compute; reflexivity].
Qed.
