(* ===== verification/Payload.v ===== *)
(** Sealed payloads (internal/util/payload): the framing of messages with a context, a type name and data that
    may be serialized and compressed.

    Bytes are [Z]; lengths are little-endian.  Serialization, compression, the context and the registry
    of types are libraries or work by reflection: the class [Codecs], whose round-trip laws are [CodecLaws]. *)
From stdpp Require Import base list strings numbers option.
From S2P Require Import Prelude.

(** ** encoding/binary, little-endian *)

Abbreviation bytes := (list Z).

Fixpoint le_bytes (width : nat) (n : Z) : bytes :=
  match width with O => [] | S width => n mod 256 :: le_bytes width (n / 256) end.
Fixpoint le_value (b : bytes) : Z := match b with [] => 0 | x :: b => x + 256 * le_value b end.
Definition PutUint32 (n : Z) : bytes := le_bytes 4 n.
Definition PutUint64 (n : Z) : bytes := le_bytes 8 n.

(** ** types.go *)

Definition sealMagicNumber : Z := 0xFFFFFFFB.
Definition sealTypeNumber : bytes := [1; 0; 0; 0; 0; 0; 0; 0].
Definition sealPrefixLength : Z := 4 + Z.of_nat (length sealTypeNumber).

(** [IsValid] of the enumerations of serialize and compress. *)
Definition serialize_IsValid (a : Z) : bool := (1 <=? a) && (a <=? 4).
Definition compress_IsValid (a : Z) : bool := (1 <=? a) && (a <=? 5).

(** The values and contexts of a program, the types it names, and the libraries. *)
Class Codecs (D C T : Type) := {
  type_name : D -> bytes;                       (* the package and the name of the type of a value *)
  TypeOf : bytes -> option T;                   (* inspect.TypeOf *)
  any_type : T;
  marshal : Z -> D -> option bytes;             (* the stream functions of serialize, for a valid algorithm *)
  unmarshal : Z -> T -> bytes -> option D;
  compress : Z -> bytes -> option bytes;
  decompress : Z -> bytes -> option bytes;
  flatten_marshal : C -> bytes;                 (* Flatten and Marshal of the context *)
  new_context : bytes -> C
}.

Section payload.
Context `{Codecs D C T}.

Record option_ := { ctx : option C; serializeType : Z; compressType : Z; dataType : option T; version : Z }.

(** What is sealed: bytes, a string, or another value. *)
Inductive data := DBytes (b : bytes) | DString (s : bytes) | DValue (v : D).

Inductive PayloadError := ErrCodec.

Definition lift (o : option bytes) : outcome PayloadError bytes := match o with Some b => Ok b | None => Err ErrCodec end.

(** ** seal.go *)

Definition isRaw (d : data) : bool := match d with DBytes _ | DString _ => true | DValue _ => false end.

Definition seal_info (d : data) (opt : option_) : bytes :=
  [if 0 <? version opt then version opt else 1;
   if isRaw d then 0 else serializeType opt; compressType opt; if isRaw d then 1 else 0; 0; 0; 0; 0].

(** [dt.PkgPath() + "." + dt.Name()]. *)
Definition structName (d : data) : bytes :=
  match d with DBytes _ => str "." | DString _ => str ".string" | DValue v => type_name v end.

Definition seal_marshal (d : data) (opt : option_) : outcome PayloadError bytes :=
  match d with
  | DBytes b | DString b => Ok b
  | DValue v =>
      if serialize_IsValid (serializeType opt) then lift (marshal (serializeType opt) v)
      else Panic (str "unknown serialize algorithm type")
  end.

Definition framed (b : bytes) : bytes := PutUint64 (Z.of_nat (length b)) ++ b.

Definition seal_context (opt : option_) : bytes :=
  match ctx opt with None => PutUint64 0 | Some c => framed (flatten_marshal c) end.

Definition Seal (d : data) (opt : option_) : outcome PayloadError bytes :=
  marshaled ⇐ seal_marshal d opt;
  encoded ⇐ (if compress_IsValid (compressType opt) then lift (compress (compressType opt) marshaled) else Ok marshaled);
  Ok (PutUint32 sealMagicNumber ++ seal_info d opt ++ seal_context opt ++ framed (structName d) ++ framed encoded).

(** ** unseal.go *)

(** [src[:n], src[n:]]. *)
Definition split_at (n : Z) (src : bytes) : outcome PayloadError (bytes * bytes) :=
  if n <=? Z.of_nat (length src) then Ok (take (Z.to_nat n) src, drop (Z.to_nat n) src)
  else Panic (str "runtime error: slice bounds out of range").
Definition byte_at (i : nat) (b : bytes) : outcome PayloadError Z :=
  match b !! i with Some x => Ok x | None => Panic (str "runtime error: index out of range") end.

Definition override (valid : Z -> bool) (opt sealed : Z) : Z := if valid opt then opt else sealed.

Definition read_frame (src : bytes) : outcome PayloadError (bytes * bytes) :=
  ' (len, src) ⇐ split_at 8 src; split_at (le_value len) src.

(** The context of a payload, if it is not empty. *)
Definition read_context (src : bytes) : outcome PayloadError (option C * bytes) :=
  ' (c, src) ⇐ read_frame src; Ok (match c with [] => None | _ => Some (new_context c) end, src).

Definition decode (compressType : Z) (src : bytes) : outcome PayloadError bytes :=
  if compress_IsValid compressType then lift (decompress compressType src) else Ok src.

(** The parts of a payload of version 1 behind its information: context, type name and data. *)
Definition parts (inf src : bytes) : outcome PayloadError (option C * bytes * bytes) :=
  ' (_, src) ⇐ split_at (le_value (drop 4 inf)) src;
  ' (c, src) ⇐ read_context src;
  ' (structName, src) ⇐ read_frame src;
  ' (_, src) ⇐ split_at 8 src;
  Ok (c, structName, src).

Definition unsealV1 (inf src : bytes) (opt : option_) : outcome PayloadError (option C * data * bool) :=
  serialized ⇐ byte_at 1 inf;
  compressed ⇐ byte_at 2 inf;
  raw ⇐ byte_at 3 inf;
  ' (c, structName, src) ⇐ parts inf src;
  decoded ⇐ decode (override compress_IsValid (compressType opt) compressed) src;
  let serializeType := override serialize_IsValid (serializeType opt) serialized in
  if negb (serialize_IsValid serializeType) then Ok (c, DBytes decoded, true)
  else
    match (if (raw =? 1) then dataType opt
           else match dataType opt with
                | Some t => Some t
                | None => Some (default any_type (TypeOf structName))
                end) with
    | None => Panic (str "reflect: New(nil)")
    | Some t => match unmarshal serializeType t decoded with Some v => Ok (c, DValue v, true) | None => Err ErrCodec end
    end.

(** The test that [Unseal] and [UnsealRaw] share: not sealed, or the information and the rest. *)
Definition unseal_prefix (src : bytes) : option (bytes * bytes) :=
  if Z.of_nat (length src) <=? sealPrefixLength then None
  else if le_value (take 4 src) =? sealMagicNumber then Some (take 8 (drop 4 src), drop 8 (drop 4 src))
  else None.

(** What [Unseal] makes of bytes that are not sealed works by reflection and is an argument. *)
Definition Unseal (defaultUnseal : bytes -> option_ -> outcome PayloadError (option C * data * bool)) (src : bytes) (opt : option_)
    : outcome PayloadError (option C * data * bool) :=
  match unseal_prefix src with
  | None => defaultUnseal src opt
  | Some (inf, next) =>
      v ⇐ byte_at 0 inf;
      if v =? 1 then unsealV1 inf next opt else Panic (str "unsupported message version for unseal")
  end.

(** [unsealRawV1]: the flag is read from the rest of the payload, not from the information. *)
Definition unsealRawV1 (inf src : bytes) (opt : option_) : outcome PayloadError (option C * bytes * bool) :=
  compressed ⇐ byte_at 2 inf;
  raw ⇐ byte_at 3 src;
  ' (c, _, src) ⇐ parts inf src;
  dst ⇐ decode (override compress_IsValid (compressType opt) compressed) src;
  Ok (c, dst, raw =? 1).

Definition UnsealRaw (src : bytes) (opt : option_) : outcome PayloadError (option C * bytes * bool) :=
  match unseal_prefix src with
  | None => Ok (None, src, true)
  | Some (inf, next) =>
      v ⇐ byte_at 0 inf;
      if v =? 1 then unsealRawV1 inf next opt else Panic (str "unsupported message version for unseal raw")
  end.
End payload.
Arguments data : clear implicits.
Arguments option_ : clear implicits.
