(* ===== verification/PayloadSpec.v ===== *)
(** Sealing and unsealing a payload gives back its context and its data. *)
From stdpp Require Import base list strings numbers option.
From S2P Require Import Prelude.
From S2P Require Import Payload.

Class CodecLaws (D C T : Type) `{Codecs D C T} := {
  decompress_compress a b b' : compress a b = Some b' -> decompress a b' = Some b;
  unmarshal_marshal a v b t : marshal a v = Some b -> TypeOf (type_name v) = Some t -> unmarshal a t b = Some v
}.

Lemma le_bytes_length w n : length (le_bytes w n) = w.
Proof. revert n. induction w as [|w IH]; intros n; [done|]. cbn. by rewrite IH. Qed.

Lemma le_roundtrip w n : 0 <= n < 256 ^ Z.of_nat w -> le_value (le_bytes w n) = n.
Proof.
  revert n. induction w as [|w IH]; intros n Hn; [change (256 ^ Z.of_nat 0) with 1 in Hn; cbn; lia|].
  cbn [le_bytes le_value]. rewrite IH.
  - pose proof (Z.div_mod n 256 ltac:(done)). lia.
  - rewrite Nat2Z.inj_succ, Z.pow_succ_r in Hn by lia.
    split; [apply Z.div_pos; lia|]. apply Z.div_lt_upper_bound; lia.
Qed.

Section spec.
Context {D C T : Type} `{!Codecs D C T} `{!CodecLaws D C T}.
Implicit Types (src b rest : bytes) (opt u : option_ C T) (d : data D).

Lemma split_at_app b rest : split_at (Z.of_nat (length b)) (b ++ rest) = Ok (b, rest).
Proof using.
  unfold split_at. rewrite length_app. destruct (Z.leb_spec (Z.of_nat (length b)) (Z.of_nat (length b + length rest))); [|lia].
  by rewrite Nat2Z.id, take_app_length, drop_app_length.
Qed.

Definition short b : Prop := Z.of_nat (length b) < 2 ^ 64.

Lemma read_framed b rest : short b -> read_frame (framed b ++ rest) = Ok (b, rest).
Proof using.
  intros Hb. unfold read_frame, framed, PutUint64. rewrite <- app_assoc.
  pose proof (split_at_app (le_bytes 8 (Z.of_nat (length b))) (b ++ rest)) as Hs. rewrite le_bytes_length in Hs. change (Z.of_nat 8) with 8 in Hs.
  rewrite Hs. cbn [out_bind]. rewrite le_roundtrip by (split; [lia|exact Hb]). apply split_at_app.
Qed.

(** The context that arrives. *)
Definition received (c : option C) : option C :=
  match c with
  | None => None
  | Some c => match flatten_marshal c with [] => None | b => Some (new_context b) end
  end.
Definition short_context opt : Prop := match ctx opt with None => True | Some c => short (flatten_marshal c) end.

Lemma read_seal_context opt rest : short_context opt ->
  read_context (D := D) (T := T) (seal_context (D := D) opt ++ rest) = Ok (received (ctx opt), rest).
Proof using.
  unfold short_context, seal_context, read_context, received. destruct (ctx opt) as [c|]; intros Hc.
  - rewrite read_framed by done. cbn [out_bind]. by destruct (flatten_marshal c).
  - change (PutUint64 0) with (framed []). rewrite read_framed by done. done.
Qed.

(** The parts of a payload. *)
Lemma parts_sealed opt d e :
  short_context opt -> short (structName d) ->
  parts (D := D) (T := T) (seal_info d opt) (seal_context (D := D) opt ++ framed (structName d) ++ framed e) =
    Ok (received (ctx opt), structName d, e).
Proof using.
  intros Hc Hn. unfold parts, seal_info. cbn [drop]. change (le_value [0; 0; 0; 0]) with 0.
  pose proof (split_at_app [] (seal_context (D := D) opt ++ framed (structName d) ++ framed e)) as H0. cbn [app] in H0.
  change (Z.of_nat (length (A := Z) [])) with 0 in H0. rewrite H0. cbn [out_bind].
  rewrite read_seal_context by done. cbn [out_bind]. rewrite read_framed by done. cbn [out_bind].
  unfold framed. pose proof (split_at_app (PutUint64 (Z.of_nat (length e))) e) as H8.
  unfold PutUint64 in *. rewrite le_bytes_length in H8. change (Z.of_nat 8) with 8 in H8. rewrite H8. done.
Qed.

Definition sealed d opt e : bytes :=
  PutUint32 sealMagicNumber ++ seal_info d opt ++ seal_context (D := D) opt ++ framed (structName d) ++ framed e.

Lemma prefix_sealed d opt e :
  unseal_prefix (sealed d opt e) = Some (seal_info d opt, seal_context (D := D) opt ++ framed (structName d) ++ framed e).
Proof using.
  unfold unseal_prefix, sealed.
  assert (Hl : (16 <= length (seal_context (D := D) opt ++ framed (structName d) ++ framed e))%nat).
  { rewrite !length_app. unfold framed. rewrite !length_app. unfold PutUint64. rewrite !le_bytes_length. lia. }
  generalize dependent (seal_context (D := D) opt ++ framed (structName d) ++ framed e). intros rest Hl.
  rewrite !length_app. unfold PutUint32. rewrite le_bytes_length. change (length (seal_info d opt)) with 8%nat.
  change sealPrefixLength with 12. destruct (Z.leb_spec (Z.of_nat (4 + (8 + length rest))) 12); [lia|].
  change (take 4 (le_bytes 4 sealMagicNumber ++ seal_info d opt ++ rest)) with (le_bytes 4 sealMagicNumber).
  by rewrite le_roundtrip.
Qed.

(** [Seal] builds such a payload from bytes that decode to what was marshaled. *)
Lemma Seal_sealed d opt s : Seal d opt = Ok s ->
  exists m e, s = sealed d opt e /\ seal_marshal d opt = Ok m /\ decode (D := D) (C := C) (T := T) (compressType opt) e = Ok m.
Proof using All.
  unfold Seal. destruct (seal_marshal d opt) as [m| | |] eqn:Hm; [|done..]. cbn [out_bind]. unfold decode.
  destruct (compress_IsValid (compressType opt)).
  - destruct (compress (compressType opt) m) as [e|] eqn:He; [|done]. cbn. intros [= <-]. exists m, e.
    by rewrite (decompress_compress _ _ _ He).
  - cbn. intros [= <-]. by exists m, m.
Qed.

(** The options of the reader: the writer's algorithms, or none of its own. *)
Definition agrees (valid : Z -> bool) (mine sealed : Z) : Prop := valid mine = false \/ mine = sealed.

Lemma override_agrees valid mine sealed : agrees valid mine sealed -> override valid mine sealed = sealed.
Proof using. unfold override. intros [-> | ->]; [done|by case_match]. Qed.
End spec.

(** What arrives of the data: a string arrives as its bytes. *)
Definition arrived {D} (d : data D) : data D := match d with DBytes b | DString b => DBytes b | DValue v => DValue v end.

(** C34: A payload that [Seal] made (of version 1) is unsealed to its context and its data, whatever the data,
    the algorithms and the contents of the frames, when serialization and compression are inverted by
    their counterparts and the type of a value is registered under its name. *)
Theorem seal_unseal_roundtrip {D C T} `{!Codecs D C T} `{!CodecLaws D C T} defaultUnseal (d : data D) (opt u : option_ C T) s :
  Seal d opt = Ok s -> version opt = 0 \/ version opt = 1 ->
  short_context (D := D) opt -> short (structName d) ->
  agrees compress_IsValid (compressType u) (compressType opt) ->
  agrees serialize_IsValid (serializeType u) (if isRaw d then 0 else serializeType opt) ->
  match d with DValue v => exists t, TypeOf (type_name v) = Some t /\ (dataType u = None \/ dataType u = Some t) | _ => True end ->
  Unseal defaultUnseal s u = Ok (received (D := D) (T := T) (ctx opt), arrived d, true).
Proof.
  intros (m & e & -> & Hm & He)%Seal_sealed Hv Hc Hn Hcomp Hser Hty. unfold Unseal. rewrite prefix_sealed.
  assert (Hver : byte_at 0 (seal_info d opt) = Ok 1) by (unfold seal_info; cbn; by destruct Hv as [-> | ->]).
  rewrite Hver. cbn [out_bind]. unfold unsealV1.
  change (byte_at 1 (seal_info d opt)) with (Ok (E := PayloadError) (if isRaw d then 0 else serializeType opt)).
  change (byte_at 2 (seal_info d opt)) with (Ok (E := PayloadError) (compressType opt)).
  change (byte_at 3 (seal_info d opt)) with (Ok (E := PayloadError) (if isRaw d then 1 else 0)). cbn [out_bind].
  rewrite parts_sealed by done. cbn [out_bind]. rewrite (override_agrees _ _ _ Hcomp), (override_agrees _ _ _ Hser), He.
  cbn [out_bind]. destruct d as [b|b|v]; cbn [isRaw arrived] in *.
  - cbn in *. by injection Hm as ->.
  - cbn in *. by injection Hm as ->.
  - cbn in Hm. destruct (serialize_IsValid (serializeType opt)); [|done]. cbn [negb Z.eqb].
    destruct (marshal _ v) as [b|] eqn:Hmar; [|done]. cbn in Hm. injection Hm as ->.
    destruct Hty as (t & Ht & Hdt). cbn [structName]. rewrite Ht. pose proof (unmarshal_marshal _ _ _ _ Hmar Ht) as Hum.
    destruct Hdt as [-> | ->]; cbn; by rewrite Hum.
Qed.

(** The flag that [UnsealRaw] returns is a byte of the length of the context: for a context shorter than
    2^24 bytes it says that no payload is raw. *)
Theorem UnsealRaw_flag_wrong {D C T} `{!Codecs D C T} `{!CodecLaws D C T} (d : data D) (opt u : option_ C T) s :
  Seal d opt = Ok s -> version opt = 0 \/ version opt = 1 -> short (structName d) ->
  match ctx opt with Some c => Z.of_nat (length (flatten_marshal c)) < 2 ^ 24 | None => True end ->
  agrees compress_IsValid (compressType u) (compressType opt) ->
  exists m, seal_marshal d opt = Ok m /\ UnsealRaw s u = Ok (received (D := D) (T := T) (ctx opt), m, false).
Proof.
  intros (m & e & -> & Hm & He)%Seal_sealed Hv Hn Hlen Hcomp. exists m. split; [done|]. unfold UnsealRaw. rewrite prefix_sealed.
  assert (Hc : short_context (D := D) opt) by (unfold short_context, short; destruct (ctx opt); [lia|done]).
  assert (Hver : byte_at 0 (seal_info d opt) = Ok 1) by (unfold seal_info; cbn; by destruct Hv as [-> | ->]).
  rewrite Hver. cbn [out_bind]. unfold unsealRawV1.
  change (byte_at 2 (seal_info d opt)) with (Ok (E := PayloadError) (compressType opt)). cbn [out_bind].
  assert (Hb : byte_at 3 (seal_context (D := D) opt ++ framed (structName d) ++ framed e) = Ok 0).
  { unfold seal_context. destruct (ctx opt) as [c|]; [|done]. unfold framed at 1. rewrite <- app_assoc. cbn.
    set (n := Z.of_nat _) in *. f_equal. rewrite !Z.div_div by lia. rewrite Z.div_small by lia. done. }
  rewrite Hb. cbn [out_bind]. rewrite parts_sealed by done. cbn [out_bind]. rewrite (override_agrees _ _ _ Hcomp), He. done.
Qed.

(** ** A concrete program: two kinds of values, with a serialization that tells them apart. *)

Inductive shape := Circle (r : Z) | Square (a : Z).
Definition shape_bytes (v : shape) : bytes := match v with Circle r => [0; r] | Square a => [1; a] end.
#[local] Instance shape_codecs : Codecs shape (list Z) bool := {|
  type_name v := match v with Circle _ => str "shape.Circle" | Square _ => str "shape.Square" end;
  TypeOf n := if n =s str "shape.Circle" then Some false else if n =s str "shape.Square" then Some true else None;
  any_type := false;
  marshal _ v := Some (shape_bytes v);
  unmarshal _ t b := match t, b with false, [0; r] => Some (Circle r) | true, [1; a] => Some (Square a) | _, _ => None end;
  compress _ b := Some (rev b);
  decompress _ b := Some (rev b);
  flatten_marshal c := c;
  new_context b := b
|}.
#[local] Instance shape_laws : CodecLaws shape (list Z) bool.
Proof.
  split.
  - intros a b b' [= <-]. cbn. by rewrite rev_involutive.
  - intros a [r|r] b t [= <-] Ht; vm_compute in Ht; by injection Ht as <-.
Qed.

Definition no_options : option_ (list Z) bool :=
  {| ctx := None; serializeType := 0; compressType := 0; dataType := None; version := 0 |}.
Definition sample_options : option_ (list Z) bool :=
  {| ctx := Some [7; 8; 9]; serializeType := 2; compressType := 1; dataType := None; version := 1 |}.

Lemma seal_unseal_roundtrip_witness :
  exists s, Seal (DValue (Square 5)) sample_options = Ok s /\
    Unseal (fun _ _ => Err ErrCodec) s no_options = Ok (Some [7; 8; 9], DValue (Square 5), true).
Proof.
  eexists. split; [reflexivity|].
  refine (seal_unseal_roundtrip (fun _ _ => Err ErrCodec) (DValue (Square 5)) sample_options no_options _ eq_refl _ _ _ _ _ _).
  - by right.
  - reflexivity.
  - reflexivity.
  - by left.
  - by left.
  - exists true. split; [reflexivity|by left].
Defined.
