(* ===== verification/RoutinePool.v ===== *)
(** The accounting of goroutines (routine/pool.go, and [Go], [Loop] and the exit of construct.go): a budget
    of goroutines per application, taken by [allocate] and given back by [release].

    Goroutines, loops and pools are threads that share the counters [idles] and [ignored], the map of
    pools and the read-write lock; they interleave at every access of these.  [allocate] holds the
    lock for reading while it waits; sections under the write lock are one step, which is possible
    when nobody holds the lock. *)
From stdpp Require Import base gmap list strings numbers option relations.
From S2P Require Import Prelude.

(** What asks for goroutines: [Go], [Loop], or [NewPool] with a name, a size and its [ApplyTimeout]. *)
Inductive user :=
  | UGo
  | ULoop
  | UPool (name : gostring) (size : Z) (timeout : Z).

Definition demands (u : user) : Z := match u with UGo | ULoop => 1 | UPool _ size _ => size end.

(** [ApplyTimeout]; [Go] and [Loop] wait without one. *)
Definition applyTimeout (u : user) : Z := match u with UGo | ULoop => -1 | UPool _ _ t => t end.

Inductive pc :=
  | Start
  | Validated            (* the name of a pool is free *)
  | Locked               (* allocate has the read lock *)
  | Waiting              (* in the loop of allocate *)
  | Loaded (minuend : Z) (* before the compare-and-swap *)
  | Swapped              (* the goroutines are allocated, the read lock is still held *)
  | Allocated            (* allocate has returned *)
  | Running
  | Ended
  | Panicked.

Record thread := { who : user; at_ : pc }.
Definition goto (th : thread) (p : pc) : thread := {| who := who th; at_ := p |}.

(** The shared state of an application. *)
Record Shared := { idles : Z; ignored : Z; pools : gmap gostring Z }.
Definition set_idles (s : Shared) (n : Z) : Shared := {| idles := n; ignored := ignored s; pools := pools s |}.

(** Whether a thread holds the lock for reading. *)
Definition reads (th : thread) : bool :=
  match at_ th with Locked | Waiting | Loaded _ | Swapped => true | _ => false end.
Definition unlocked (ths : list thread) : Prop := Forall (fun th => reads th = false) ths.

(** [validate]. *)
Definition validate (s : Shared) (u : user) : bool :=
  match u with UPool name _ _ => bool_decide (pools s !! name = None) | _ => true end.

(** The first test of [allocate]. *)
Definition overloaded (s : Shared) (u : user) : bool := (idles s - demands u <? 0) && (applyTimeout u =? 0).

(** What [allocate] does after its compare-and-swap. *)
Definition count_ignored (s : Shared) (u : user) : Shared :=
  match u with
  | ULoop => {| idles := idles s; ignored := ignored s + demands u; pools := pools s |}
  | _ => s
  end.

(** [addPool]. *)
Definition addPool (s : Shared) (u : user) : Shared :=
  match u with
  | UPool name size _ => {| idles := idles s; ignored := ignored s; pools := <[name := size]> (pools s) |}
  | _ => s
  end.

(** [release]: a pool gives back its capacity, a goroutine one; for a loop the one is taken back again. *)
Definition release (s : Shared) (u : user) : Shared :=
  match u with
  | UPool name size _ => {| idles := idles s + size; ignored := ignored s; pools := delete name (pools s) |}
  | UGo => set_idles s (idles s + 1)
  | ULoop => set_idles s (idles s + 1 - 1)
  end.

(** A step of a thread; [alone] says that nobody holds the lock. *)
Inductive tstep (alone : Prop) : Shared -> thread -> Shared -> thread -> Prop :=
  | t_validate s th : at_ th = Start -> tstep alone s th s (goto th (if validate s (who th) then Validated else Panicked))
  | t_lock s th : at_ th = Validated -> tstep alone s th s (goto th Locked)
  | t_check s th : at_ th = Locked -> tstep alone s th s (goto th (if overloaded s (who th) then Panicked else Waiting))
  | t_timeout s th : at_ th = Waiting -> 0 <= applyTimeout (who th) -> tstep alone s th s (goto th Panicked)
  | t_load s th : at_ th = Waiting -> tstep alone s th s (goto th (if idles s - demands (who th) <=? 0 then Waiting else Loaded (idles s)))
  | t_swap s th m : at_ th = Loaded m -> idles s = m -> tstep alone s th (set_idles s (m - demands (who th))) (goto th Swapped)
  | t_retry s th m : at_ th = Loaded m -> idles s <> m -> tstep alone s th s (goto th Waiting)
  | t_unlock s th : at_ th = Swapped -> tstep alone s th (count_ignored s (who th)) (goto th Allocated)
  | t_run s th : at_ th = Allocated -> match who th with UPool _ _ _ => alone | _ => True end ->
      tstep alone s th (addPool s (who th)) (goto th Running)
  | t_release s th : at_ th = Running -> match who th with UPool _ _ _ => alone | _ => True end ->
      tstep alone s th (release s (who th)) (goto th Ended).

Definition system : Type := Shared * list thread.

Inductive sstep : system -> system -> Prop :=
  | s_step s ths i th s' th' :
      ths !! i = Some th -> tstep (unlocked ths) s th s' th' -> sstep (s, ths) (s', <[i := th']> ths).

(** [Construct]: the budget; [allExited], the test at the end. *)
Definition defaultMaxPoolSize : Z := 10000000.
Definition Construct (MaxRoutineAmount : Z) : Shared :=
  {| idles := if MaxRoutineAmount <=? 0 then defaultMaxPoolSize else MaxRoutineAmount; ignored := 0; pools := ∅ |}.
Definition allExited (max : Z) (s : Shared) : bool := idles s =? max - ignored s.

(** ** The names of running goroutines (types.go) *)

Abbreviation routines := (gmap gostring (gmap gostring Z)).

Definition addRoutine (appName name : gostring) (r : routines) : routines :=
  let m := default ∅ (r !! appName) in <[appName := <[name := default 0 (m !! name) + 1]> m]> r.

(** The count is decremented; at zero, an entry of the outer map is deleted. *)
Definition delRoutine (appName name : gostring) (r : routines) : routines :=
  match r !! appName with
  | None => r
  | Some m =>
      let n := default 0 (m !! name) - 1 in
      let r := <[appName := <[name := n]> m]> r in
      if n <=? 0 then delete name r else r
  end.

Definition running (appName name : gostring) (r : routines) : option Z := r !! appName ≫= (.!! name).

(** ** The budget *)

(** The goroutines that a thread has taken and not given back; those of a loop are never given back. *)
Definition cost (th : thread) : Z :=
  match at_ th, who th with
  | (Swapped | Allocated | Running), u => demands u
  | Ended, ULoop => 1
  | _, _ => 0
  end.
(** Those that have been counted as ignored. *)
Definition forgotten (th : thread) : Z :=
  match at_ th, who th with (Allocated | Running | Ended), ULoop => 1 | _, _ => 0 end.
Definition total (f : thread -> Z) (ths : list thread) : Z := foldr (fun th n => f th + n) 0 ths.

Lemma total_cons f th l : total f (th :: l) = f th + total f l.
Proof. done. Qed.

Lemma total_app f l1 l2 : total f (l1 ++ l2) = total f l1 + total f l2.
Proof. unfold total. induction l1 as [|x l1 IH]; cbn in *; lia. Qed.

Lemma total_insert f ths i th th' : ths !! i = Some th -> total f (<[i := th']> ths) = total f ths - f th + f th'.
Proof.
  intros Hi. rewrite insert_take_drop by (by eapply lookup_lt_Some).
  rewrite <- (take_drop_middle ths i th Hi) at 3. rewrite !total_app, !total_cons. lia.
Qed.

Record pool_inv (max : Z) (x : system) : Prop := {
  pi_idles : idles x.1 = max - total cost x.2;
  pi_positive : 0 < idles x.1;
  pi_ignored : ignored x.1 = total forgotten x.2;
  pi_demands : forall th, th ∈ x.2 -> 1 <= demands (who th);
  pi_loaded : forall th m, th ∈ x.2 -> at_ th = Loaded m -> 0 < m - demands (who th)
}.

(** The counters follow the threads in every step. *)
Lemma tstep_counts alone s th s' th' : tstep alone s th s' th' ->
  who th' = who th /\ idles s' = idles s + cost th - cost th' /\ ignored s' = ignored s + forgotten th' - forgotten th.
Proof.
  intros Hst. destruct Hst as [s th H|s th H|s th H|s th H H2|s th H|s th m H H2|s th m H H2|s th H|s th H H2|s th H H2];
    destruct th as [u p]; cbn in *; subst p; unfold cost, forgotten, validate, overloaded; cbn.
  - repeat case_match; simplify_eq/=; repeat split; lia.
  - repeat split; lia.
  - repeat case_match; simplify_eq/=; repeat split; lia.
  - repeat split; lia.
  - repeat case_match; simplify_eq/=; repeat split; lia.
  - subst m. repeat split; [|destruct u]; lia.
  - repeat split; lia.
  - destruct u; cbn; repeat split; lia.
  - destruct u; cbn; repeat split; lia.
  - destruct u; cbn; repeat split; lia.
Qed.

Lemma cost_nonneg th : 1 <= demands (who th) -> 0 <= cost th.
Proof. destruct th as [[] []]; cbn; lia. Qed.

Lemma tstep_positive alone s th s' th' :
  tstep alone s th s' th' -> 0 < idles s -> 1 <= demands (who th) ->
  (forall m, at_ th = Loaded m -> 0 < m - demands (who th)) ->
  0 < idles s' /\ forall m, at_ th' = Loaded m -> 0 < m - demands (who th').
Proof.
  intros Hst Hi Hd Hm. destruct Hst as [s th H|s th H|s th H|s th H H2|s th H|s th m H H2|s th m H H2|s th H|s th H H2|s th H H2];
    cbn [goto at_ who]; try (split; [done|by try case_match]).
  - destruct (Z.leb_spec (idles s - demands (who th)) 0); split; try done. intros m [= <-]. lia.
  - split; [|done]. cbn. by apply Hm.
  - destruct (who th); done.
  - destruct (who th); done.
  - destruct th as [u p]. cbn in *. split; [|done]. destruct u; cbn in *; lia.
Qed.

Lemma sstep_inv max x y : sstep x y -> pool_inv max x -> pool_inv max y.
Proof.
  intros [s ths i th s' th' Hi Hst] [Hid Hpos Hig Hdem Hlo]. cbn [fst snd] in *.
  assert (Hin : th ∈ ths) by by eapply list_elem_of_lookup_2.
  destruct (tstep_counts _ _ _ _ _ Hst) as (Hwho & Hc & Hf).
  destruct (tstep_positive _ _ _ _ _ Hst Hpos (Hdem th Hin) (fun m => Hlo th m Hin)) as [Hpos' Hlo'].
  assert (Hmem : forall a, a ∈ <[i := th']> ths -> a = th' \/ a ∈ ths).
  { intros a [j Hj]%list_elem_of_lookup_1. apply list_lookup_insert_Some in Hj as [(_ & <- & _)|[_ Hj]]; [by left|].
    right. by eapply list_elem_of_lookup_2. }
  split; cbn [fst snd].
  - rewrite (total_insert cost ths i th th' Hi). lia.
  - done.
  - rewrite (total_insert forgotten ths i th th' Hi). lia.
  - intros a [-> |Ha]%Hmem; [rewrite Hwho|]; by apply Hdem.
  - intros a m [-> |Ha]%Hmem; [by apply Hlo'|by apply Hlo].
Qed.

Lemma start_inv max ths :
  0 < max -> (forall th, th ∈ ths -> at_ th = Start /\ 1 <= demands (who th)) -> pool_inv max (Construct max, ths).
Proof.
  intros Hmax Hth. assert (Hz : total cost ths = 0 /\ total forgotten ths = 0).
  { induction ths as [|th ths IH]; [done|]. rewrite !total_cons. destruct IH as [-> ->].
    - intros a Ha. apply Hth. by constructor.
    - destruct (Hth th) as [H1 _]; [by constructor|]. unfold cost, forgotten. by rewrite H1. }
  destruct Hz as [Hz1 Hz2]. unfold Construct. destruct (Z.leb_spec max 0); [lia|].
  split; cbn [fst snd idles ignored]; [lia|done|lia|by intros a Ha; apply Hth|].
  intros a m Ha Hl. destruct (Hth a Ha) as [Hs _]. congruence.
Qed.

(** When nobody is inside [allocate], the loops account for all that is ignored. *)
Lemma loops_forgotten ths :
  unlocked ths -> (forall th, th ∈ ths -> 1 <= demands (who th)) ->
  total forgotten ths <= total cost ths /\
  (total cost ths = total forgotten ths <-> forall th, th ∈ ths -> who th <> ULoop -> cost th = 0).
Proof.
  induction 1 as [|th ths Hr Hun IH]; intros Hd; [split; [done|]; split; [intros _ th Hth; by apply not_elem_of_nil in Hth|done]|].
  destruct IH as [Hle Hiff]; [intros a Ha; apply Hd; by constructor|]. rewrite !total_cons.
  assert (Hdt : 1 <= demands (who th)) by (apply Hd; by constructor).
  assert (Hone : forgotten th <= cost th /\ (cost th = forgotten th <-> (who th <> ULoop -> cost th = 0))).
  { destruct th as [[] []]; cbn in *; try done; (split; [lia|]); split; try done; intros; try lia; naive_solver lia. }
  destruct Hone as [Hle1 Hiff1]. split; [lia|]. split.
  - intros Heq a [-> |Ha]%elem_of_cons Hne; [apply Hiff1; [lia|done]|]. apply Hiff; [lia|done|done].
  - intros Hall. assert (cost th = forgotten th) by (apply Hiff1, Hall; by constructor).
    assert (total cost ths = total forgotten ths) by (apply Hiff; intros a Ha; apply Hall; by constructor). lia.
Qed.

(** C25: However goroutines, loops and pools interleave: the goroutines allocated at any time are fewer than the
    budget (the main one is never given away); and when nobody is inside [allocate], the test
    [allExited] of the exit holds exactly when every goroutine and every pool has been released
    (loops, which are not waited for, do not count). *)
Theorem pool_accounting max ths x :
  0 < max -> (forall th, th ∈ ths -> at_ th = Start /\ 1 <= demands (who th)) ->
  rtc sstep (Construct max, ths) x ->
  total cost x.2 < max /\ 0 < idles x.1 /\
  (unlocked x.2 ->
   allExited max x.1 = true <-> forall th, th ∈ x.2 -> who th <> ULoop -> cost th = 0).
Proof.
  intros Hmax Hth Hr. assert (Hinv : pool_inv max x).
  { pose proof (start_inv max ths Hmax Hth) as H0.
    clear -Hr H0. induction Hr as [|a b c Hab Hr IH]; [done|]. apply IH. by eapply sstep_inv. }
  destruct Hinv as [Hid Hpos Hig Hdem _]. split; [lia|]. split; [done|]. intros Hun.
  unfold allExited. rewrite Z.eqb_eq, Hid, Hig. destruct (loops_forgotten x.2 Hun Hdem) as [_ <-]. lia.
Qed.

Definition sample_threads : list thread :=
  [{| who := UGo; at_ := Start |}; {| who := UPool (str "p") 3 0; at_ := Start |}; {| who := ULoop; at_ := Start |}].

(** One thread goes from its start to [Running] when nobody else is inside [allocate]. *)
Lemma run_thread s ths i th :
  ths !! i = Some th -> at_ th = Start -> unlocked (<[i := goto th Allocated]> ths) ->
  validate s (who th) = true -> 0 < idles s - demands (who th) -> 1 <= demands (who th) ->
  rtc sstep (s, ths) (addPool (count_ignored (set_idles s (idles s - demands (who th))) (who th)) (who th), <[i := goto th Running]> ths).
Proof.
  intros Hi Hst Hun Hval Hpos Hd. pose proof (lookup_lt_Some _ _ _ Hi) as Hlt.
  assert (Hstep : forall p s1 s2 p2, tstep (unlocked (<[i := goto th p]> ths)) s1 (goto th p) s2 (goto th p2) ->
    sstep (s1, <[i := goto th p]> ths) (s2, <[i := goto th p2]> ths)).
  { intros p s1 s2 p2 Ht. rewrite <- (list_insert_insert_eq ths i (goto th p2) (goto th p)).
    eapply s_step; [by apply list_lookup_insert_eq|done]. }
  assert (Heq : <[i := goto th Start]> ths = ths).
  { apply list_insert_id. rewrite Hi. f_equal. destruct th. cbn in *. by rewrite Hst. }
  set (s1 := set_idles s (idles s - demands (who th))).
  assert (H1 : sstep (s, <[i := goto th Start]> ths) (s, <[i := goto th Validated]> ths)).
  { apply (Hstep Start s s Validated). pose proof (t_validate (unlocked (<[i := goto th Start]> ths)) s (goto th Start) eq_refl) as Ht.
    cbn [who goto] in Ht. by rewrite Hval in Ht. }
  assert (H2 : sstep (s, <[i := goto th Validated]> ths) (s, <[i := goto th Locked]> ths))
    by exact (Hstep Validated s s Locked (t_lock _ s (goto th Validated) eq_refl)).
  assert (H3 : sstep (s, <[i := goto th Locked]> ths) (s, <[i := goto th Waiting]> ths)).
  { apply (Hstep Locked s s Waiting). pose proof (t_check (unlocked (<[i := goto th Locked]> ths)) s (goto th Locked) eq_refl) as Ht.
    cbn [who goto] in Ht. unfold overloaded in Ht. by destruct (Z.ltb_spec (idles s - demands (who th)) 0); [lia|]. }
  assert (H4 : sstep (s, <[i := goto th Waiting]> ths) (s, <[i := goto th (Loaded (idles s))]> ths)).
  { apply (Hstep Waiting s s (Loaded (idles s))). pose proof (t_load (unlocked (<[i := goto th Waiting]> ths)) s (goto th Waiting) eq_refl) as Ht.
    cbn [who goto] in Ht. by destruct (Z.leb_spec (idles s - demands (who th)) 0); [lia|]. }
  assert (H5 : sstep (s, <[i := goto th (Loaded (idles s))]> ths) (s1, <[i := goto th Swapped]> ths))
    by exact (Hstep (Loaded (idles s)) s s1 Swapped (t_swap _ s (goto th (Loaded (idles s))) (idles s) eq_refl eq_refl)).
  assert (H6 : sstep (s1, <[i := goto th Swapped]> ths) (count_ignored s1 (who th), <[i := goto th Allocated]> ths))
    by exact (Hstep Swapped s1 _ Allocated (t_unlock _ s1 (goto th Swapped) eq_refl)).
  rewrite Heq in H1. do 6 (eapply rtc_l; [eassumption|]). eapply rtc_once.
  refine (Hstep Allocated _ _ Running (t_run _ (count_ignored s1 (who th)) (goto th Allocated) eq_refl _)).
  cbn. by destruct (who th).
Qed.

Lemma run_at s ths i th s' ths' :
  ths !! i = Some th -> at_ th = Start -> unlocked (<[i := goto th Allocated]> ths) ->
  validate s (who th) = true -> 0 < idles s - demands (who th) -> 1 <= demands (who th) ->
  s' = addPool (count_ignored (set_idles s (idles s - demands (who th))) (who th)) (who th) ->
  ths' = <[i := goto th Running]> ths -> rtc sstep (s, ths) (s', ths').
Proof. intros H1 H2 H3 H4 H5 H6 -> ->. by apply run_thread. Qed.

Lemma end_at s ths i th s' ths' :
  ths !! i = Some th -> at_ th = Running -> unlocked ths ->
  s' = release s (who th) -> ths' = <[i := goto th Ended]> ths -> sstep (s, ths) (s', ths').
Proof. intros Hi Hr Hu -> ->. eapply s_step; [exact Hi|]. apply t_release; [done|]. by destruct (who th). Qed.

(** The goroutine and the pool have ended, the loop runs: all have exited. *)
Definition sample_end : system :=
  ({| idles := 9; ignored := 1; pools := ∅ |},
   [{| who := UGo; at_ := Ended |}; {| who := UPool (str "p") 3 0; at_ := Ended |}; {| who := ULoop; at_ := Running |}]).

Ltac unlocked_tac := repeat constructor.

Lemma sample_end_reachable : rtc sstep (Construct 10, sample_threads) sample_end.
Proof.
  etransitivity; [eapply (run_at _ _ 0); [reflexivity|reflexivity|unlocked_tac|reflexivity|done|done|reflexivity|reflexivity]|].
  etransitivity; [eapply (run_at _ _ 1); [reflexivity|reflexivity|unlocked_tac|reflexivity|done|done|reflexivity|reflexivity]|].
  etransitivity; [eapply (run_at _ _ 2); [reflexivity|reflexivity|unlocked_tac|reflexivity|done|done|reflexivity|reflexivity]|].
  eapply rtc_l; [eapply (end_at _ _ 0); [reflexivity|reflexivity|unlocked_tac|reflexivity|reflexivity]|].
  eapply rtc_once. eapply (end_at _ _ 1); [reflexivity|reflexivity|unlocked_tac|reflexivity|reflexivity].
Qed.

Lemma pool_accounting_witness : allExited 10 sample_end.1 = true.
Proof.
  apply (pool_accounting 10 sample_threads sample_end).
  - done.
  - intros th Hth. repeat (apply elem_of_cons in Hth as [->|Hth]; [by split|]). by apply not_elem_of_nil in Hth.
  - exact sample_end_reachable.
  - unlocked_tac.
  - intros th Hth Hne. repeat (apply elem_of_cons in Hth as [->|Hth]; [first [reflexivity|by destruct Hne]|]).
    by apply not_elem_of_nil in Hth.
Defined.

(** A pool that waits in [allocate] without a timeout keeps the lock for reading, so that the pool whose
    goroutines it waits for can never be released: nothing moves any more. *)
Theorem waiting_allocation_blocks_release s n1 size1 t1 n2 size2 t2 x :
  t2 < 0 -> idles s - size2 <= 0 ->
  let ths := [{| who := UPool n1 size1 t1; at_ := Running |}; {| who := UPool n2 size2 t2; at_ := Waiting |}] in
  rtc sstep (s, ths) x -> x = (s, ths).
Proof.
  intros Ht Hs ths Hr. remember (s, ths) as c eqn:Hc. revert Hc.
  induction Hr as [c|c y z Hcy Hr IH]; intros ->; [done|].
  assert (Hy : y = (s, ths)); [|by rewrite IH].
  inversion Hcy as [s0 ths0 i th s' th' Hi Hst]; subst. destruct i as [|[|i]]; cbn in Hi; simplify_eq.
  - inversion Hst as [| | | | | | | | |s1 th1 Hrun Hal]; subst; try done. cbn in Hal.
    apply Forall_cons in Hal as [_ Hal]. by apply Forall_cons in Hal as [Hal _].
  - inversion Hst as [| | |s1 th1 Hw Hto|s1 th1 Hw| | | | |]; subst; try done; cbn in *; [lia|].
    by destruct (Z.leb_spec (idles s' - size2) 0); [|lia].
Qed.

(** The count is kept by a goroutine that begins and ends, but the name of a goroutine that was not there
    before stays, with the count 0. *)
Theorem ended_routine_stays (appName name : gostring) (r : routines) :
  name <> appName -> running appName name r = None ->
  running appName name (delRoutine appName name (addRoutine appName name r)) = Some 0.
Proof.
  intros Hne Hr. unfold running, delRoutine, addRoutine in *. rewrite lookup_insert_eq.
  assert (default ∅ (r !! appName) !! name = None) as Hm by (destruct (r !! appName); [done|apply lookup_empty]).
  rewrite Hm, lookup_insert_eq. change (default 0 (Some (default 0 None + 1)) - 1) with 0. change (0 <=? 0) with true. cbv iota.
  rewrite lookup_delete_ne, lookup_insert_eq by done. cbn [mbind option_bind]. by rewrite lookup_insert_eq.
Qed.
