(* ===== verification/WmMessage.v ===== *)
(** Messages of common/infra/watermill/message: message.go, metadata.go, messages.go, the values of a
    message's context (router_context.go), and the bulk readers of subscriber/read.go.

    A channel of type [chan struct{}] is its state: nil, open or closed.  A metadata map may be nil,
    as in a message that is written as a struct literal. *)
From stdpp Require Import base list strings numbers option gmap.
From S2P Require Import Prelude.

(** ** Channels that are only closed *)

Inductive signal := nil_chan | open_chan | closed_chan.
#[export] Instance signal_eq_dec : EqDecision signal.
Proof. solve_decision. Defined.

(** [close]. *)
Definition close_signal {E : Type} (c : signal) : outcome E signal :=
  match c with
  | nil_chan => Panic (str "close of nil channel")
  | open_chan => Ok closed_chan
  | closed_chan => Panic (str "close of closed channel")
  end.

(** ** Metadata *)

Abbreviation Metadata := (option (gmap gostring gostring)).

Definition Get (m : Metadata) (key : gostring) : gostring := default [] (m ≫= fun m => m !! key).

Definition Set_ {E : Type} (m : Metadata) (key value : gostring) : outcome E Metadata :=
  match m with
  | Some m => Ok (Some (<[key := value]> m))
  | None => Panic (str "assignment to entry in nil map")
  end.

(** The number of entries, and the entries in the order of an iteration. *)
Definition size (m : Metadata) : nat := from_option size 0%nat m.
Definition entries (m : Metadata) : list (gostring * gostring) := from_option map_to_list [] m.

(** ** Contexts *)

Inductive ctxKey := handlerNameKey | publisherNameKey | subscriberNameKey | subscribeTopicKey | publishTopicKey.
#[export] Instance ctxKey_eq_dec : EqDecision ctxKey.
Proof. solve_decision. Defined.

(** A context: its values, the latest first, and the scopes it was made in; a scope that is cancelled (or
    whose time is over) cancels every context made in it. *)
Record Context_ := { values : list (ctxKey * gostring); scopes : list nat }.
#[export] Instance Context_eq_dec : EqDecision Context_.
Proof. solve_decision. Defined.

Definition Background : Context_ := {| values := []; scopes := [] |}.

Definition WithValue (c : Context_) (key : ctxKey) (v : gostring) : Context_ :=
  {| values := (key, v) :: values c; scopes := scopes c |}.
Definition WithCancel (c : Context_) (scope : nat) : Context_ := {| values := values c; scopes := scope :: scopes c |}.

(** [ctx.Done()] is closed, given the scopes that ended. *)
Definition Done (ended : gset nat) (c : Context_) : bool := existsb (fun i => bool_decide (i ∈ ended)) (scopes c).

Fixpoint value_of (vs : list (ctxKey * gostring)) (key : ctxKey) : gostring :=
  match vs with
  | [] => []
  | (k, v) :: vs => if decide (k = key) then v else value_of vs key
  end.
Definition valFromCtx (c : Context_) (key : ctxKey) : gostring := value_of (values c) key.

Definition HandlerNameFromCtx (ctx : Context_) : gostring := valFromCtx ctx handlerNameKey.
Definition PublisherNameFromCtx (ctx : Context_) : gostring := valFromCtx ctx publisherNameKey.
Definition SubscriberNameFromCtx (ctx : Context_) : gostring := valFromCtx ctx subscriberNameKey.
Definition SubscribeTopicFromCtx (ctx : Context_) : gostring := valFromCtx ctx subscribeTopicKey.
Definition PublishTopicFromCtx (ctx : Context_) : gostring := valFromCtx ctx publishTopicKey.

(** ** Messages *)

Inductive ackType := noAckSent | ack | nack.
#[export] Instance ackType_eq_dec : EqDecision ackType.
Proof. solve_decision. Defined.

Record Message := {
  UUID : gostring;
  metadata : Metadata;
  payload : list Z;
  ack_chan : signal;
  noAck_chan : signal;
  ackSentType : ackType;
  ctx : option Context_;
}.

#[export] Instance Message_eq_dec : EqDecision Message.
Proof. solve_decision. Defined.

Definition NewMessage (uuid : gostring) (payload : list Z) : Message :=
  {| UUID := uuid; metadata := Some ∅; payload := payload; ack_chan := open_chan; noAck_chan := open_chan;
     ackSentType := noAckSent; ctx := None |}.

Definition with_metadata (m : Message) (md : Metadata) : Message :=
  {| UUID := UUID m; metadata := md; payload := payload m; ack_chan := ack_chan m; noAck_chan := noAck_chan m;
     ackSentType := ackSentType m; ctx := ctx m |}.

(** The loop of [Equals] over the entries of the first message. *)
Fixpoint Equals_entries (es : list (gostring * gostring)) (toCompare : Metadata) : bool :=
  match es with
  | [] => true
  | (key, value) :: es => if value =s Get toCompare key then Equals_entries es toCompare else false
  end.

Definition Equals (m toCompare : Message) : bool :=
  if negb (UUID m =s UUID toCompare) then false
  else if negb (Nat.eqb (size (metadata m)) (size (metadata toCompare))) then false
  else if negb (Equals_entries (entries (metadata m)) (metadata toCompare)) then false
  else bool_decide (payload m = payload toCompare).

(** [Ack] and [Nack], the part under the mutex. *)
Definition send_ack {E : Type} (m : Message) : outcome E Message :=
  c ⇐ match ack_chan m with nil_chan => Ok closed_chan | c => close_signal c end;
  Ok {| UUID := UUID m; metadata := metadata m; payload := payload m; ack_chan := c; noAck_chan := noAck_chan m;
        ackSentType := ack; ctx := ctx m |}.

Definition Ack {E : Type} (m : Message) : outcome E (bool * Message) :=
  if bool_decide (ackSentType m = nack) then Ok (false, m)
  else if bool_decide (ackSentType m <> noAckSent) then Ok (true, m)
  else m ⇐ send_ack m; Ok (true, m).

Definition send_nack {E : Type} (m : Message) : outcome E Message :=
  c ⇐ match noAck_chan m with nil_chan => Ok closed_chan | c => close_signal c end;
  Ok {| UUID := UUID m; metadata := metadata m; payload := payload m; ack_chan := ack_chan m; noAck_chan := c;
        ackSentType := nack; ctx := ctx m |}.

Definition Nack {E : Type} (m : Message) : outcome E (bool * Message) :=
  if bool_decide (ackSentType m = ack) then Ok (false, m)
  else if bool_decide (ackSentType m <> noAckSent) then Ok (true, m)
  else m ⇐ send_nack m; Ok (true, m).

Definition Acked (m : Message) : signal := ack_chan m.
Definition Nacked (m : Message) : signal := noAck_chan m.

Definition Context (m : Message) : Context_ := default Background (ctx m).
Definition SetContext (m : Message) (c : Context_) : Message :=
  {| UUID := UUID m; metadata := metadata m; payload := payload m; ack_chan := ack_chan m; noAck_chan := noAck_chan m;
     ackSentType := ackSentType m; ctx := Some c |}.

(** The loop of [Copy]: the map of the new message is not nil, so that [Set] succeeds. *)
Fixpoint Copy_entries {E : Type} (es : list (gostring * gostring)) (md : Metadata) : outcome E Metadata :=
  match es with
  | [] => Ok md
  | (k, v) :: es => md ⇐ Set_ md k v; Copy_entries es md
  end.

Definition Copy {E : Type} (m : Message) : outcome E Message :=
  let msg := NewMessage (UUID m) (payload m) in
  md ⇐ Copy_entries (entries (metadata m)) (metadata msg);
  Ok (with_metadata msg md).

Definition IDs (ms : list Message) : list gostring := map UUID ms.

(** ** Bulk reads *)

(** What the channel gives a reader next. *)
Inductive received := Received (m : Message) | ChannelClosed | TimedOut.

(** [BulkRead]: the loop, over what the channel gives, with the number of messages still wanted. *)
Fixpoint BulkRead_loop {E : Type} (evs : list received) (limit : nat) (acc : list Message) : outcome E (list Message) :=
  match limit, evs with
  | O, _ => Ok acc
  | S limit, Received msg :: evs => ' (_, msg) ⇐ Ack msg; BulkRead_loop evs limit (acc ++ [msg])
  | S _, (ChannelClosed | TimedOut) :: _ => Ok acc
  | S _, [] => Ok acc
  end.

Definition BulkRead {E : Type} (evs : list received) (limit : Z) : outcome E (list Message * bool) :=
  ms ⇐ BulkRead_loop evs (Z.to_nat limit) []; Ok (ms, Z.of_nat (length ms) =? limit).

(** [BulkReadWithDeduplication]: messages whose UUID was received are acknowledged and dropped. *)
Fixpoint BulkReadWithDeduplication_loop {E : Type} (evs : list received) (limit : nat) (ids : gset gostring)
    (acc : list Message) : outcome E (list Message) :=
  if (limit <=? length acc)%nat then Ok acc
  else match evs with
  | Received msg :: evs =>
      if bool_decide (UUID msg ∈ ids) then ' (_, _) ⇐ Ack (E := E) msg; BulkReadWithDeduplication_loop evs limit ids acc
      else ' (_, m) ⇐ Ack msg; BulkReadWithDeduplication_loop evs limit ({[UUID msg]} ∪ ids) (acc ++ [m])
  | (ChannelClosed | TimedOut) :: _ => Ok acc
  | [] => Ok acc
  end.

Definition BulkReadWithDeduplication {E : Type} (evs : list received) (limit : Z) : outcome E (list Message * bool) :=
  ms ⇐ BulkReadWithDeduplication_loop evs (Z.to_nat limit) ∅ []; Ok (ms, Z.of_nat (length ms) =? limit).

(** ** Theorems *)

(** A message whose channels say what was sent: the channel of what was sent is closed, the others are not.
    Every message the program makes is of this kind. *)
Definition wf_message (m : Message) : Prop :=
  match ackSentType m with
  | noAckSent => ack_chan m <> closed_chan /\ noAck_chan m <> closed_chan
  | ack => ack_chan m = closed_chan /\ noAck_chan m <> closed_chan
  | nack => ack_chan m <> closed_chan /\ noAck_chan m = closed_chan
  end.

#[export] Instance wf_message_dec m : Decision (wf_message m).
Proof. unfold wf_message. destruct (ackSentType m); apply _. Defined.

(** A message after an acknowledgement of the given kind was tried: the first one counts. *)
Definition settled (t : ackType) (m : Message) : ackType :=
  match ackSentType m with noAckSent => t | s => s end.

Lemma NewMessage_wf uuid p : wf_message (NewMessage uuid p).
Proof. done. Qed.

Lemma SetContext_wf m c : wf_message m -> wf_message (SetContext m c).
Proof. done. Qed.

Lemma with_metadata_wf m md : wf_message m -> wf_message (with_metadata m md).
Proof. done. Qed.

(** [Ack] and [Nack] of a well-formed message never panic, answer whether the message is settled their
    way, keep everything but the acknowledgement, and are decided by the first call. *)
Lemma Ack_spec {E} m :
  wf_message m ->
  exists m', Ack (E := E) m = Ok (bool_decide (settled ack m = ack), m') /\ wf_message m' /\
    ackSentType m' = settled ack m /\ UUID m' = UUID m /\ metadata m' = metadata m /\ payload m' = payload m /\
    ctx m' = ctx m.
Proof.
  unfold wf_message, Ack, settled, send_ack. destruct m as [u md p a n t c]; cbn.
  destruct t, a, n; cbn; intros [? ?]; try done; eexists; (split; [reflexivity|]); done.
Qed.

Lemma Nack_spec {E} m :
  wf_message m ->
  exists m', Nack (E := E) m = Ok (bool_decide (settled nack m = nack), m') /\ wf_message m' /\
    ackSentType m' = settled nack m /\ UUID m' = UUID m /\ metadata m' = metadata m /\ payload m' = payload m /\
    ctx m' = ctx m.
Proof.
  unfold wf_message, Nack, settled, send_nack. destruct m as [u md p a n t c]; cbn.
  destruct t, a, n; cbn; intros [? ?]; try done; eexists; (split; [reflexivity|]); done.
Qed.

Lemma Copy_entries_spec {E : Type} (es : list (gostring * gostring)) (md : gmap gostring gostring) :
  Copy_entries (E := E) es (Some md) = Ok (Some (list_to_map (reverse es) ∪ md)).
Proof.
  revert md. induction es as [|[k v] es IH]; intros md; cbn [Copy_entries Set_ out_bind].
  { by rewrite reverse_nil, list_to_map_nil, (left_id_L ∅ (∪)). }
  rewrite IH. do 2 f_equal. rewrite reverse_cons, list_to_map_app, list_to_map_cons, list_to_map_nil, insert_empty.
  by rewrite <- (assoc_L (∪)), <- insert_union_singleton_l.
Qed.

(** A copy has the identifier, the metadata and the payload, and nothing of the acknowledgement and the
    context. *)
Lemma Copy_spec {E : Type} m :
  Copy (E := E) m = Ok (with_metadata (NewMessage (UUID m) (payload m)) (Some (default ∅ (metadata m)))).
Proof.
  unfold Copy. cbn [metadata NewMessage]. rewrite Copy_entries_spec. cbn. do 3 f_equal.
  rewrite (right_id_L ∅ (∪)). destruct (metadata m) as [md|]; cbn; [|done].
  rewrite <- (list_to_map_proper (map_to_list md)); [apply list_to_map_to_list| |].
  - apply NoDup_fst_map_to_list.
  - symmetry. apply reverse_Permutation.
Qed.

Lemma Equals_entries_spec es toCompare :
  Equals_entries es toCompare = true <-> Forall (fun e => snd e = Get toCompare (fst e)) es.
Proof.
  induction es as [|[k v] es IH]; cbn; [naive_solver|]. unfold streqb. rewrite Forall_cons. cbn.
  case_bool_decide; naive_solver.
Qed.

(** What [Equals] compares: identifiers, payloads, the number of entries, and the values of the first
    message's entries. *)
Lemma Equals_spec m n :
  Equals m n = true <->
  UUID m = UUID n /\ payload m = payload n /\ size (metadata m) = size (metadata n) /\
  forall k v, default ∅ (metadata m) !! k = Some v -> Get (metadata n) k = v.
Proof.
  unfold Equals, streqb.
  assert (Forall (fun e => snd e = Get (metadata n) (fst e)) (entries (metadata m)) <->
    forall k v, default ∅ (metadata m) !! k = Some v -> Get (metadata n) k = v) as <-.
  { rewrite Forall_forall. unfold entries. destruct (metadata m) as [md|]; cbn.
    - split.
      + intros H k v Hk. symmetry. apply (H (k, v)), elem_of_map_to_list, Hk.
      + intros H [k v] Hk. symmetry. by apply H, elem_of_map_to_list.
    - split; [by intros _ k v ?%lookup_empty_Some|set_solver]. }
  rewrite <- Equals_entries_spec.
  destruct (Equals_entries _ _); repeat case_bool_decide; destruct (Nat.eqb_spec (size (metadata m)) (size (metadata n)));
    naive_solver.
Qed.

(** On messages without empty values, [Equals] is equality of identifier, metadata and payload. *)
Lemma Equals_exact m n :
  (forall k, default ∅ (metadata m) !! k <> Some []) ->
  Equals m n = true <->
  UUID m = UUID n /\ payload m = payload n /\ default ∅ (metadata m) = (default ∅ (metadata n) : gmap gostring gostring).
Proof.
  intros Hne. rewrite Equals_spec.
  assert (forall k, Get (metadata n) k = default [] ((default ∅ (metadata n) : gmap gostring gostring) !! k)) as Hget.
  { intros k. unfold Get. destruct (metadata n); cbn; [done|by rewrite lookup_empty]. }
  assert (forall md : Metadata, size md = base.size (default ∅ md : gmap gostring gostring)) as Hsize.
  { intros [md|]; cbn; [done|by rewrite map_size_empty]. }
  rewrite !Hsize.
  split; intros (-> & -> & H); (split; [done|]); (split; [done|]).
  - destruct H as [Hs H]. apply map_subseteq_size_eq; [|lia].
    apply map_subseteq_spec. intros k v Hk. specialize (H k v Hk). rewrite Hget in H.
    destruct (_ !! k) as [v'|] eqn:Hn; cbn in H; [by subst|]. subst. by destruct (Hne k).
  - rewrite H. split; [done|]. intros k v Hk. by rewrite Hget, Hk.
Qed.

(** A message equals its copy. *)
Lemma Equals_Copy {E : Type} m m' : Copy (E := E) m = Ok m' -> Equals m m' = true.
Proof.
  rewrite Copy_spec. intros [= <-]. apply Equals_spec. cbn. split; [done|]. split; [done|]. split.
  - destruct (metadata m); cbn; [done|by rewrite map_size_empty].
  - intros k v. unfold Get. cbn. by intros ->.
Qed.

(** An entry with an empty value is not told from a missing one: two messages with different metadata are
    equal in one direction and different in the other. *)
Lemma Equals_not_symmetric :
  exists m n, Equals m n = true /\ Equals n m = false /\ metadata m <> metadata n.
Proof.
  exists (with_metadata (NewMessage [] []) (Some {[str "a" := []]})),
    (with_metadata (NewMessage [] []) (Some {[str "b" := str "x"]})).
  split; [by vm_compute|]. split; [by vm_compute|].
  intros H. by apply (f_equal (fun md => Get md (str "b"))) in H.
Qed.

(** ** Bulk reads acknowledge what they return *)

Lemma Ack_new {E : Type} m :
  wf_message m -> ackSentType m <> nack -> exists m', Ack (E := E) m = Ok (true, m') /\ ackSentType m' = ack /\ UUID m' = UUID m /\ payload m' = payload m.
Proof.
  intros Hwf Hn. destruct (Ack_spec (E := E) m Hwf) as (m' & H & _ & Ht & Hu & _ & Hp & _). unfold settled in *.
  exists m'. destruct (ackSentType m); [| |done]; by rewrite H, Ht.
Qed.

Lemma BulkRead_loop_spec {E : Type} (ms : list Message) evs limit acc :
  Forall (fun m => wf_message m /\ ackSentType m <> nack) ms ->
  (forall m, head evs <> Some (Received m)) ->
  exists ms', BulkRead_loop (E := E) (map Received ms ++ evs) limit acc = Ok (acc ++ ms') /\
    Forall2 (fun m m' => UUID m' = UUID m /\ payload m' = payload m /\ ackSentType m' = ack) (take limit ms) ms'.
Proof.
  intros Hms Hevs. revert limit acc. induction Hms as [|m ms [Hwf Hn] Hms IH]; intros [|limit] acc; cbn.
  1,3: exists []; rewrite app_nil_r; by split; [destruct evs|constructor].
  - exists []. rewrite app_nil_r. split; [|constructor]. destruct evs as [|[m| |]]; try done. by destruct (Hevs m).
  - destruct (Ack_new (E := E) m Hwf Hn) as (m' & -> & Ht & Hu & Hp). cbn.
    destruct (IH limit (acc ++ [m'])) as (ms' & -> & H). exists (m' :: ms'). rewrite <- (assoc_L (++)). cbn.
    split; [done|]. by constructor.
Qed.

(** [BulkRead] returns the first [limit] messages that the channel gives before it is closed or times
    out, acknowledged, and says whether these were all that were asked for. *)
Lemma BulkRead_spec {E : Type} ms evs limit :
  Forall (fun m => wf_message m /\ ackSentType m <> nack) ms -> (forall m, head evs <> Some (Received m)) -> 0 <= limit ->
  exists ms', BulkRead (E := E) (map Received ms ++ evs) limit = Ok (ms', bool_decide (limit <= Z.of_nat (length ms))) /\
    Forall2 (fun m m' => UUID m' = UUID m /\ payload m' = payload m /\ ackSentType m' = ack) (take (Z.to_nat limit) ms) ms'.
Proof.
  intros Hms Hevs Hl. unfold BulkRead.
  destruct (BulkRead_loop_spec (E := E) ms evs (Z.to_nat limit) [] Hms Hevs) as (ms' & -> & H). exists ms'.
  split; [|done]. cbn. apply Forall2_length in H. rewrite length_take in H.
  destruct (Z.eqb_spec (Z.of_nat (length ms')) limit); case_bool_decide; (done || lia).
Qed.

Lemma BulkReadWithDeduplication_ids {E : Type} evs limit ids acc r :
  BulkReadWithDeduplication_loop (E := E) evs limit ids acc = Ok r ->
  NoDup (IDs acc) -> (forall m, m ∈ acc -> UUID m ∈ ids) ->
  NoDup (IDs r) /\ (length r <= length acc `max` limit)%nat.
Proof.
  revert ids acc. induction evs as [|ev evs IH]; intros ids acc; cbn.
  { repeat case_match; intros [= <-]; split; (done || lia). }
  destruct (Nat.leb_spec limit (length acc)) as [Hle|Hle].
  { intros [= <-]; split; (done || lia). }
  destruct ev as [m| |]; [|intros [= <-]; split; (done || lia)..].
  assert (forall b m', Ack (E := E) m = Ok (b, m') -> UUID m' = UUID m) as Hu.
  { intros b m'. unfold Ack, send_ack. repeat case_bool_decide; [naive_solver..|].
    destruct (ack_chan m); cbn; naive_solver. }
  case_bool_decide as Hin; destruct (Ack m) as [[b m']|e|msg|]; cbn; try done; intros Hr Hnd Hids.
  - by apply (IH ids acc).
  - apply IH in Hr as [Hnd' Hlen].
    + split; [done|]. rewrite length_app in Hlen. cbn in Hlen. lia.
    + unfold IDs. rewrite map_app. apply list.NoDup_app. split; [done|]. cbn. rewrite (Hu _ _ eq_refl). split.
      * intros u (m'' & -> & Hm'')%list_elem_of_fmap. intros Hx%list_elem_of_singleton.
        apply Hin. rewrite <- Hx. by apply Hids.
      * apply NoDup_singleton.
    + intros m'' [?| ->%list_elem_of_singleton]%elem_of_app; [set_solver|]. rewrite (Hu _ _ eq_refl). set_solver.
Qed.
