(* ===== verification/WmRouter.v ===== *)
(** The message router of common/infra/watermill/message/router.go and its middlewares
    (message/router/middleware): how a handler is wrapped, what a handler gets to see, and how a message is
    settled when the handler returns.

    Messages are shared by pointer: a message is a number, and the messages are a store in the state of the
    program.  A handler may do anything to the state; it returns messages and an error, or panics.
    Cancelled contexts are a set of ended scopes. *)
From stdpp Require Import base list strings numbers option gmap.
From S2P Require Import Prelude.
From S2P Require Import WmMessage.

(** ** Errors *)

(** Errors of the router and the middlewares; [Plain] is any other error, by its text. *)
Inductive MError :=
  | ErrOutputInNoPublisherHandler
  | ErrInvalidPoisonQueueTopic
  | RecoveredPanicError (V Stacktrace : gostring)
  | Plain (text : gostring)
  | WithStack (e : MError)
  | Wrap (msg : gostring) (e : MError)
  | Multi (es : list MError).

Fixpoint Error (e : MError) : gostring :=
  match e with
  | ErrOutputInNoPublisherHandler => str "returned output messages in a handler without publisher"
  | ErrInvalidPoisonQueueTopic => str "invalid poison queue topic"
  | RecoveredPanicError v st => str "panic occurred: " ++ v ++ str ", stacktrace: " ++ [10] ++ st
  | Plain t => t
  | WithStack e => Error e
  | Wrap msg e => msg ++ str ": " ++ Error e
  | Multi es =>
      (fix join es := match es with [] => [] | [e] => Error e | e :: es => Error e ++ str "; " ++ join es end) es
  end.

(** [errors.Cause]. *)
Fixpoint Cause (e : MError) : MError :=
  match e with WithStack e | Wrap _ e => Cause e | e => e end.

(** [multierr.Append] of two errors. *)
Definition flatten (e : MError) : list MError := match e with Multi es => es | e => [e] end.
Definition Append (l r : MError) : MError := Multi (flatten l ++ flatten r).

(** ** State *)

Section router.
Context {Ext : Type}.

Record World := {
  messages : gmap nat Message;
  ended : gset nat;      (* the scopes of contexts that are cancelled *)
  scope : nat;           (* the next scope *)
  ext : Ext;             (* everything else *)
}.

Definition with_messages (w : World) (ms : gmap nat Message) : World :=
  {| messages := ms; ended := ended w; scope := scope w; ext := ext w |}.

(** Code that runs on the state: it returns or panics. *)
Abbreviation code A := (stE World Empty_set A).

Definition done_ {A : Type} (a : A) : code A := elift (Ok a).

(** Reading and writing a message through its pointer. *)
Definition load (id : nat) : code Message := fun w =>
  (match messages w !! id with
   | Some m => Ok m
   | None => Panic (str "invalid memory address or nil pointer dereference")
   end, w).
Definition store (id : nat) (m : Message) : code unit := fun w =>
  (Ok tt, with_messages w (<[id := m]> (messages w))).

Definition msg_Ack (id : nat) : code bool :=
  m ↞ load id; ' (b, m) ↞ elift (Ack m); _ ↞ store id m; done_ b.
Definition msg_Nack (id : nat) : code bool :=
  m ↞ load id; ' (b, m) ↞ elift (Nack m); _ ↞ store id m; done_ b.
Definition msg_Set (id : nat) (key value : gostring) : code unit :=
  m ↞ load id; md ↞ elift (Set_ (metadata m) key value); store id (with_metadata m md).
Definition msg_Context (id : nat) : code Context_ := m ↞ load id; done_ (Context m).
Definition msg_SetContext (id : nat) (c : Context_) : code unit := m ↞ load id; store id (SetContext m c).

(** [context.WithTimeout] or [WithCancel]: a new scope; and its cancel function. *)
Definition new_scope : code nat := fun w =>
  (Ok (scope w), {| messages := messages w; ended := ended w; scope := S (scope w); ext := ext w |}).
Definition cancel (i : nat) : code unit := fun w =>
  (Ok tt, {| messages := messages w; ended := {[i]} ∪ ended w; scope := scope w; ext := ext w |}).

(** [defer]: the deferred code runs when the call returned and when it panicked. *)
Definition defer {A : Type} (m : code A) (d : code unit) : code A := fun w =>
  let '(r, w) := m w in
  match d w with
  | (Ok _, w) => (r, w)
  | (Panic v, w) => (Panic v, w)
  | (OutOfFuel, w) => (OutOfFuel, w)
  | (Err e, w) => (Err e, w)
  end.

(** [defer] with [recover]: what a panic is turned into. *)
Definition recover {A : Type} (m : code A) (f : gostring -> code A) : code A := fun w =>
  match m w with
  | (Panic v, w) => f v w
  | r => r
  end.

(** ** Handlers, publishers and middlewares *)

Definition HandlerFunc : Type := nat -> code (list nat * option MError).
Definition NoPublishHandlerFunc : Type := nat -> code (option MError).
Definition HandlerMiddleware : Type := HandlerFunc -> HandlerFunc.

Record Publisher := {
  Publish : Context_ -> gostring -> list nat -> code (option MError);
  PublisherName : gostring;   (* [pkg.StructName] of it *)
}.

Definition disabledPublisher : Publisher :=
  {| Publish _ _ _ := done_ (Some ErrOutputInNoPublisherHandler); PublisherName := str "message.disabledPublisher" |}.

Definition PassthroughHandler : HandlerFunc := fun msg => done_ ([msg], None).

Record middleware := { Handler : HandlerMiddleware; HandlerName : gostring; IsRouterLevel : bool }.

Record handler := {
  name : gostring;
  subscribeTopic : gostring;
  subscriberName : gostring;
  publisher : option Publisher;
  publishTopic : gostring;
  publisherName : gostring;
  handlerFunc : HandlerFunc;
}.

Record Router := {
  middlewares : list middleware;
  publisherDecorators : list (option Publisher -> sum MError (option Publisher));
  handlers : gmap gostring handler;
}.

Definition NewRouter : Router := {| middlewares := []; publisherDecorators := []; handlers := ∅ |}.

Definition addRouterLevelMiddleware (r : Router) (m : list HandlerMiddleware) : Router :=
  {| middlewares := middlewares r ++ map (fun h => {| Handler := h; HandlerName := []; IsRouterLevel := true |}) m;
     publisherDecorators := publisherDecorators r; handlers := handlers r |}.
Definition addHandlerLevelMiddleware (r : Router) (handlerName : gostring) (m : list HandlerMiddleware) : Router :=
  {| middlewares := middlewares r ++ map (fun h => {| Handler := h; HandlerName := handlerName; IsRouterLevel := false |}) m;
     publisherDecorators := publisherDecorators r; handlers := handlers r |}.

Definition AddHandler (r : Router) (handlerName subscribeTopic subscriberName publishTopic : gostring)
    (publisher : option Publisher) (f : HandlerFunc) : outcome Empty_set Router :=
  match handlers r !! handlerName with
  | Some _ => Panic (str "handler with name " ++ handlerName ++ str " already exists")
  | None =>
      let newHandler := {| name := handlerName; subscribeTopic := subscribeTopic; subscriberName := subscriberName;
        publisher := publisher; publishTopic := publishTopic;
        publisherName := from_option PublisherName [] publisher; handlerFunc := f |} in
      Ok {| middlewares := middlewares r; publisherDecorators := publisherDecorators r;
            handlers := <[handlerName := newHandler]> (handlers r) |}
  end.

Definition AddNoPublisherHandler (r : Router) (handlerName subscribeTopic subscriberName : gostring)
    (f : NoPublishHandlerFunc) : outcome Empty_set Router :=
  let handlerFuncAdapter : HandlerFunc := fun msg => err ↞ f msg; done_ ([], err) in
  AddHandler r handlerName subscribeTopic subscriberName [] (Some disabledPublisher) handlerFuncAdapter.

(** [decorateHandlerPublisher]: the loop from the last decorator to the first. *)
Definition decorateHandlerPublisher (r : Router) (h : handler) : sum MError handler :=
  let pub := foldr (fun decorator pub => match pub with inl e => inl e | inr pub => decorator pub end)
               (inr (publisher h)) (publisherDecorators r) in
  match pub with
  | inl e => inl (Wrap (str "could not apply publisher decorator") e)
  | inr pub => inr {| name := name h; subscribeTopic := subscribeTopic h; subscriberName := subscriberName h;
                      publisher := pub; publishTopic := publishTopic h; publisherName := publisherName h;
                      handlerFunc := handlerFunc h |}
  end.

(** [run], the wrapping of the handler: a loop from the last middleware to the first. *)
Definition wrapHandler (h : handler) (ms : list middleware) : HandlerFunc :=
  foldr (fun m f => if IsRouterLevel m || (HandlerName m =s name h) then Handler m f else f) (handlerFunc h) ms.

(** ** Handling of one message *)

Definition add_value (c : Context_) (key : ctxKey) (v : gostring) : Context_ :=
  if v =s [] then c else WithValue c key v.

(** [addHandlerContext]: the values for one message, and the loop. *)
Definition handlerContext (h : handler) (c : Context_) : Context_ :=
  add_value (add_value (add_value (add_value (add_value c handlerNameKey (name h)) publisherNameKey (publisherName h))
    subscriberNameKey (subscriberName h)) subscribeTopicKey (subscribeTopic h)) publishTopicKey (publishTopic h).

Fixpoint addHandlerContext (h : handler) (ids : list nat) : code unit :=
  match ids with
  | [] => done_ tt
  | id :: ids => c ↞ msg_Context id; _ ↞ msg_SetContext id (handlerContext h c); addHandlerContext h ids
  end.

Fixpoint publish_loop (p : Publisher) (c : Context_) (topic : gostring) (ids : list nat) : code (option MError) :=
  match ids with
  | [] => done_ None
  | id :: ids =>
      err ↞ Publish p c topic [id];
      match err with Some e => done_ (Some e) | None => publish_loop p c topic ids end
  end.

Definition publishProducedMessages (h : handler) (c : Context_) (ids : list nat) : code (option MError) :=
  match ids, publisher h with
  | [], _ => done_ None
  | _, None => done_ (Some ErrOutputInNoPublisherHandler)
  | _, Some p => publish_loop p c (publishTopic h) ids
  end.

Definition MessageRouterAck : gostring := str "watermill:router_ack".

(** A message that says that the router shall not acknowledge. *)
Definition marked (m : Message) : bool := bool_decide (is_Some (metadata m ≫= fun md => md !! MessageRouterAck)).

(** [handleMessage]: the loop over the produced messages.  [range] walks the original slice, whose array
    [arr] the calls of [append] change; [plen] is the length of [producedMessages], [i] the index and [k]
    the number of iterations left. *)
Fixpoint drop_marked (k i : nat) (arr : list nat) (plen : nat) (disableAck : bool) : code (list nat * bool) :=
  match k with
  | O => done_ (take plen arr, disableAck)
  | S k =>
      match arr !! i with
      | None => elift (Panic (str "index out of range"))
      | Some id =>
          m ↞ load id;
          if marked m then
            if (S i <=? plen)%nat then
              drop_marked k (S i) (take i arr ++ take (plen - S i) (drop (S i) arr) ++ drop (plen - 1) arr) (plen - 1) true
            else elift (Panic (str "slice bounds out of range"))
          else drop_marked k (S i) arr plen false
      end
  end.

Definition handleMessage_body (h : handler) (msg : nat) (f : HandlerFunc) : code unit :=
  ' (produced, err) ↞ f msg;
  match err with
  | Some _ => _ ↞ msg_Nack msg; done_ tt
  | None =>
      ' (produced, disableAck) ↞ drop_marked (length produced) 0 produced (length produced) false;
      _ ↞ addHandlerContext h produced;
      c ↞ msg_Context msg;
      err ↞ publishProducedMessages h c produced;
      match err with
      | Some _ => if negb disableAck then _ ↞ msg_Nack msg; done_ tt else done_ tt
      | None => if negb disableAck then _ ↞ msg_Ack msg; done_ tt else done_ tt
      end
  end.

Definition handleMessage (h : handler) (msg : nat) (f : HandlerFunc) : code unit :=
  _ ↞ load msg;
  recover (handleMessage_body h msg f) (fun _ => _ ↞ msg_Nack msg; done_ tt).

(** ** Middlewares *)

(** [Recoverer]; the argument is the text of the stack. *)
Definition Recoverer (Stack : gostring) : HandlerMiddleware := fun h msg =>
  recover (h msg) (fun v => done_ ([], Some (WithStack (RecoveredPanicError v Stack)))).

Definition CorrelationIDMetadataKey : gostring := str "correlation_id".

Definition MessageCorrelationID (m : Message) : gostring := Get (metadata m) CorrelationIDMetadataKey.

Definition SetCorrelationID (id : gostring) (msg : nat) : code unit :=
  m ↞ load msg;
  if negb (MessageCorrelationID m =s []) then done_ tt else msg_Set msg CorrelationIDMetadataKey id.

Fixpoint SetCorrelationIDs (id : gostring) (msgs : list nat) : code unit :=
  match msgs with
  | [] => done_ tt
  | msg :: msgs => _ ↞ SetCorrelationID id msg; SetCorrelationIDs id msgs
  end.

Definition CorrelationID : HandlerMiddleware := fun h msg =>
  ' (produced, err) ↞ h msg;
  m ↞ load msg;
  _ ↞ SetCorrelationIDs (MessageCorrelationID m) produced;
  done_ (produced, err).

Definition InstantAck : HandlerMiddleware := fun h msg => _ ↞ msg_Ack msg; h msg.

Definition Duplicator : HandlerMiddleware := fun h msg =>
  ' (first, err) ↞ h msg;
  match err with
  | Some e => done_ ([], Some e)
  | None =>
      ' (second, err) ↞ h msg;
      match err with
      | Some e => done_ ([], Some e)
      | None => done_ (first ++ second, None)
      end
  end.

(** [IgnoreErrors], with the texts of the errors to ignore. *)
Definition NewIgnoreErrors (errs : list MError) : gset gostring := list_to_set (map Error errs).

Definition IgnoreErrors (ignoredErrors : gset gostring) : HandlerMiddleware := fun h msg =>
  ' (events, err) ↞ h msg;
  match err with
  | Some e => if bool_decide (Error (Cause e) ∈ ignoredErrors) then done_ (events, None) else done_ (events, Some e)
  | None => done_ (events, None)
  end.

(** [Timeout]: the context of the message is replaced, and cancelled when the handler returns. *)
Definition Timeout : HandlerMiddleware := fun h msg =>
  c ↞ msg_Context msg;
  i ↞ new_scope;
  defer (_ ↞ msg_SetContext msg (WithCancel c i); h msg) (cancel i).

(** [poisonQueue]. *)
Definition ReasonForPoisonedKey : gostring := str "reason_poisoned".
Definition PoisonedTopicKey : gostring := str "topic_poisoned".
Definition PoisonedHandlerKey : gostring := str "handler_poisoned".
Definition PoisonedSubscriberKey : gostring := str "subscriber_poisoned".

Record poisonQueue := { topic : gostring; pub : Publisher; shouldGoToPoisonQueue : MError -> bool }.

Definition publishPoisonMessage (pq : poisonQueue) (msg : nat) (err : MError) : code (option MError) :=
  _ ↞ msg_Set msg ReasonForPoisonedKey (Error err);
  c ↞ msg_Context msg;
  _ ↞ msg_Set msg PoisonedTopicKey (SubscribeTopicFromCtx c);
  _ ↞ msg_Set msg PoisonedHandlerKey (HandlerNameFromCtx c);
  _ ↞ msg_Set msg PoisonedSubscriberKey (SubscriberNameFromCtx c);
  Publish (pub pq) c (topic pq) [msg].

(** Its middleware: the deferred function has nothing to do when the handler panics, since [err] is nil. *)
Definition poisonQueue_Middleware (pq : poisonQueue) : HandlerMiddleware := fun h msg =>
  ' (events, err) ↞ h msg;
  match err with
  | None => done_ (events, None)
  | Some e =>
      if negb (shouldGoToPoisonQueue pq e) then done_ (events, Some e)
      else
        publishErr ↞ publishPoisonMessage pq msg e;
        match publishErr with
        | Some pe => done_ (events, Some (Append e (Wrap (str "cannot publish message to poison queue") pe)))
        | None => done_ (events, None)
        end
  end.

Definition PoisonQueueWithFilter (p : Publisher) (t : gostring) (filter : MError -> bool) : outcome MError HandlerMiddleware :=
  if t =s [] then Err ErrInvalidPoisonQueueTopic
  else Ok (poisonQueue_Middleware {| topic := t; pub := p; shouldGoToPoisonQueue := filter |}).

Definition PoisonQueue (p : Publisher) (t : gostring) : outcome MError HandlerMiddleware :=
  if t =s [] then Err ErrInvalidPoisonQueueTopic
  else Ok (poisonQueue_Middleware {| topic := t; pub := p; shouldGoToPoisonQueue := fun _ => true |}).

(** [Retry].  What the clock decides is given by functions of the retry: its waiting time, and whether the
    context ends before that time is over. *)
Record Retry := {
  MaxRetries : Z;
  OnRetryHook : option (Z -> Z -> World -> World);
  NextBackOff : Z -> Z;
  interrupted : Z -> World -> bool;
}.

(** [retryLoop], from retry number [retryNum], with what the last call returned. *)
Fixpoint retryLoop (fuel : nat) (r : Retry) (h : HandlerFunc) (msg : nat) (retryNum : Z)
    (produced : list nat) (err : MError) : code (list nat * option MError) := fun w =>
  match fuel with
  | O => (OutOfFuel, w)
  | S fuel =>
      if interrupted r retryNum w then (Ok (produced, Some err), w)
      else
        (' (produced, res) ↞ h msg;
         match res with
         | None => done_ (produced, None)
         | Some err => fun w =>
             let w := match OnRetryHook r with Some f => f retryNum (NextBackOff r retryNum) w | None => w end in
             let retryNum := retryNum + 1 in
             if MaxRetries r <? retryNum then (Ok ([], Some err), w)
             else retryLoop fuel r h msg retryNum produced err w
         end) w
  end.

Definition retryFuel (r : Retry) : nat := S (Z.to_nat (MaxRetries r)).

Definition Retry_Middleware (r : Retry) : HandlerMiddleware := fun h msg =>
  ' (produced, err) ↞ h msg;
  match err with
  | None => done_ (produced, None)
  | Some err => _ ↞ msg_Context msg; retryLoop (retryFuel r) r h msg 1 produced err
  end.
End router.
