(* ===== verification/WmRouterSpec.v ===== *)
(** Theorems about the message router and its middlewares: every message that is handled is settled the way the
    outcome says, whatever the handler does; where the marker for own acknowledgement has an effect;
    retries; and what the order of the middlewares does to panics and contexts. *)
From stdpp Require Import base list strings numbers option gmap.
From S2P Require Import Prelude.
From S2P Require Import WmMessage.
From S2P Require Import WmRouter.

Lemma elem_of_take_1 {A : Type} (x : A) n l : x ∈ take n l -> x ∈ l.
Proof. intros H. rewrite <- (take_drop n l). apply elem_of_app. by left. Qed.
Lemma elem_of_drop_1 {A : Type} (x : A) n l : x ∈ drop n l -> x ∈ l.
Proof. intros H. rewrite <- (take_drop n l). apply elem_of_app. by right. Qed.

Section spec.
Context {Ext : Type}.
Implicit Types (w : World (Ext := Ext)) (msg id : nat).
Abbreviation code A := (stE (World (Ext := Ext)) Empty_set A).

(** ** Code that respects messages *)

(** Every message is well-formed. *)
Definition heap_ok w : Prop := map_Forall (fun _ m => wf_message m) (messages w).

(** Messages stay, and what was sent for one stays sent. *)
Definition evolves w w' : Prop :=
  forall id m, messages w !! id = Some m ->
    exists m', messages w' !! id = Some m' /\ (ackSentType m <> noAckSent -> ackSentType m' = ackSentType m).

#[export] Instance evolves_preorder : PreOrder evolves.
Proof.
  split.
  - intros w id m Hm. by exists m.
  - intros w1 w2 w3 H12 H23 id m Hm. destruct (H12 id m Hm) as (m2 & Hm2 & H2).
    destruct (H23 id m2 Hm2) as (m3 & Hm3 & H3). exists m3. split; [done|]. intros Hne.
    rewrite H3; auto. by rewrite H2.
Qed.

(** Code that keeps messages well-formed and settled, and ends (in a result or in a panic). *)
Definition behaved {A : Type} (c : code A) : Prop :=
  forall w, heap_ok w ->
    match c w with
    | (OutOfFuel, _) => False
    | (_, w') => heap_ok w' /\ evolves w w'
    end.

Definition behaved_handler (f : HandlerFunc (Ext := Ext)) : Prop := forall msg, behaved (f msg).
Definition behaved_middleware (mw : HandlerMiddleware (Ext := Ext)) : Prop :=
  forall f, behaved_handler f -> behaved_handler (mw f).
Definition behaved_publisher (p : Publisher (Ext := Ext)) : Prop := forall c t ids, behaved (Publish p c t ids).

Lemma behaved_done {A : Type} (a : A) : behaved (done_ a).
Proof. intros w Hw. by cbn. Qed.

Lemma behaved_panic {A : Type} v : behaved (A := A) (elift (Panic v)).
Proof. intros w Hw. by cbn. Qed.

Lemma behaved_bind {A B : Type} (c : code A) (k : A -> code B) :
  behaved c -> (forall a, behaved (k a)) -> behaved (ebind c k).
Proof.
  intros Hc Hk w Hw. unfold ebind. specialize (Hc w Hw). destruct (c w) as [[a|[]|v|] w1]; try done.
  destruct Hc as [Hw1 Hle]. specialize (Hk a w1 Hw1).
  destruct (k a w1) as [[b|[]|v|] w2]; try done; destruct Hk; (split; [done|]); by etrans.
Qed.

Lemma behaved_load id : behaved (load id).
Proof. intros w Hw. unfold load. by destruct (messages w !! id). Qed.

(** Loading a message and storing a changed one that is well-formed and as settled. *)
Lemma behaved_update {A : Type} id (k : Message -> code A) :
  (forall m, wf_message m -> exists m' r, wf_message m' /\ (ackSentType m <> noAckSent -> ackSentType m' = ackSentType m) /\
     r <> OutOfFuel /\ forall w, k m w = (r, with_messages w (<[id := m']> (messages w)))) ->
  behaved (m ↞ load id; k m).
Proof.
  intros Hk w Hw. unfold ebind, load. destruct (messages w !! id) as [m|] eqn:Hm; [|done].
  destruct (Hk m (Hw id m Hm)) as (m' & r & Hwf & Hs & Hr & ->).
  assert (heap_ok (with_messages w (<[id := m']> (messages w))) /\ evolves w (with_messages w (<[id := m']> (messages w)))).
  { split; [by apply map_Forall_insert_2|]. intros id2 m2 Hm2. cbn.
    destruct (decide (id2 = id)) as [->|Hne].
    - rewrite lookup_insert_eq. exists m'. split; [done|]. by simplify_eq.
    - rewrite lookup_insert_ne by done. by exists m2. }
  by destruct r.
Qed.

Lemma behaved_Ack id : behaved (msg_Ack id).
Proof.
  unfold msg_Ack. apply behaved_update. intros m Hwf. destruct (Ack_spec (E := Empty_set) m Hwf) as (m' & Heq & Hwf' & Ht & _).
  exists m', (Ok (bool_decide (settled ack m = ack))). split; [done|]. split; [by rewrite Ht; unfold settled; destruct (ackSentType m)|].
  split; [done|]. intros w. unfold ebind, elift. by rewrite Heq.
Qed.

Lemma behaved_Nack id : behaved (msg_Nack id).
Proof.
  unfold msg_Nack. apply behaved_update. intros m Hwf. destruct (Nack_spec (E := Empty_set) m Hwf) as (m' & Heq & Hwf' & Ht & _).
  exists m', (Ok (bool_decide (settled nack m = nack))). split; [done|]. split; [by rewrite Ht; unfold settled; destruct (ackSentType m)|].
  split; [done|]. intros w. unfold ebind, elift. by rewrite Heq.
Qed.

Lemma behaved_SetContext id c : behaved (msg_SetContext id c).
Proof.
  unfold msg_SetContext. apply behaved_update. intros m Hwf. by exists (SetContext m c), (Ok tt).
Qed.

Lemma behaved_Set id k v : behaved (msg_Set id k v).
Proof.
  intros w Hw. unfold msg_Set, ebind, load. destruct (messages w !! id) as [m|] eqn:Hm; [|done].
  destruct (metadata m) as [md|] eqn:Hmd; [|by cbn]. cbn.
  pose proof (behaved_update id (fun m => store id (with_metadata m (Some (<[k := v]> md))))) as H.
  specialize (H ltac:(intros m0 H0; by exists (with_metadata m0 (Some (<[k := v]> md))), (Ok tt)) w Hw).
  unfold ebind, load in H. rewrite Hm in H. exact H.
Qed.

Lemma behaved_Context id : behaved (msg_Context id).
Proof. apply behaved_bind; [apply behaved_load|]. intros m. apply behaved_done. Qed.

Lemma behaved_new_scope : behaved new_scope.
Proof. intros w Hw. split; [done|]. intros id m Hm; by exists m. Qed.

Lemma behaved_cancel i : behaved (cancel i).
Proof. intros w Hw. split; [done|]. intros id m Hm; by exists m. Qed.

Lemma behaved_recover {A : Type} (c : code A) f : behaved c -> (forall v, behaved (f v)) -> behaved (recover c f).
Proof.
  intros Hc Hf w Hw. unfold recover. specialize (Hc w Hw). destruct (c w) as [[a|[]|v|] w1]; try done.
  destruct Hc as [Hw1 Hle]. specialize (Hf v w1 Hw1).
  destruct (f v w1) as [[b|[]|v2|] w2]; try done; destruct Hf; (split; [done|]); by etrans.
Qed.

Lemma behaved_defer {A : Type} (c : code A) d : behaved c -> behaved d -> behaved (defer c d).
Proof.
  intros Hc Hd w Hw. unfold defer. specialize (Hc w Hw). destruct (c w) as [r w1].
  assert (r <> OutOfFuel /\ heap_ok w1 /\ evolves w w1) as (Hr & Hw1 & Hle) by (by destruct r as [|[]| |]).
  specialize (Hd w1 Hw1). destruct (d w1) as [[[]|[]|v|] w2]; try done; destruct Hd as [Hw2 Hle2].
  - destruct r as [|[]| |]; try done; (split; [done|]); by etrans.
  - split; [done|]. by etrans.
Qed.
End spec.

Create HintDb behaved.
#[export] Hint Resolve behaved_done behaved_panic behaved_bind behaved_load behaved_Ack behaved_Nack behaved_SetContext
  behaved_Set behaved_Context behaved_new_scope behaved_cancel behaved_recover behaved_defer : behaved.

(** Decides the shape of straight-line code, step by step. *)
Ltac behaved_auto :=
  repeat first
    [ match goal with
      | |- behaved_handler _ => intros ?
      | |- forall _, _ => intros ?
      | |- behaved (let '(_, _) := ?x in _) => destruct x
      | |- behaved (match ?x with _ => _ end) => destruct x
      | H : behaved_handler ?f |- behaved (?f _) => apply H
      | H : behaved_publisher ?p |- behaved (Publish ?p _ _ _) => apply H
      end
    | solve [eauto with behaved]
    | apply behaved_bind | apply behaved_recover | apply behaved_defer ].

Section middlewares.
Context {Ext : Type}.
Implicit Types (w : World (Ext := Ext)) (msg id : nat).

Lemma behaved_SetCorrelationIDs (c : gostring) ids : behaved (Ext := Ext) (SetCorrelationIDs c ids).
Proof. induction ids as [|id ids IH]; cbn; unfold SetCorrelationID; behaved_auto. Qed.

Lemma behaved_Recoverer Stack : behaved_middleware (Ext := Ext) (Recoverer Stack).
Proof. intros f Hf msg. unfold Recoverer. behaved_auto. Qed.

Lemma behaved_CorrelationID : behaved_middleware (Ext := Ext) CorrelationID.
Proof. intros f Hf msg. unfold CorrelationID. pose proof behaved_SetCorrelationIDs. behaved_auto. Qed.

Lemma behaved_InstantAck : behaved_middleware (Ext := Ext) InstantAck.
Proof. intros f Hf msg. unfold InstantAck. behaved_auto. Qed.

Lemma behaved_Duplicator : behaved_middleware (Ext := Ext) Duplicator.
Proof. intros f Hf msg. unfold Duplicator. behaved_auto. Qed.

Lemma behaved_IgnoreErrors errs : behaved_middleware (Ext := Ext) (IgnoreErrors errs).
Proof. intros f Hf msg. unfold IgnoreErrors. behaved_auto. Qed.

Lemma behaved_Timeout : behaved_middleware (Ext := Ext) Timeout.
Proof. intros f Hf msg. unfold Timeout. behaved_auto. Qed.

Lemma behaved_poisonQueue pq : behaved_publisher (Ext := Ext) (pub pq) -> behaved_middleware (poisonQueue_Middleware pq).
Proof. intros Hp f Hf msg. unfold poisonQueue_Middleware, publishPoisonMessage. behaved_auto. Qed.
End middlewares.

Lemma behaved_present {A : Type} {Ext : Type} (c : stE (World (Ext := Ext)) Empty_set A) w w' r msg :
  behaved c -> heap_ok w -> is_Some (messages w !! msg) -> c w = (r, w') ->
  r <> OutOfFuel /\ heap_ok w' /\ is_Some (messages w' !! msg).
Proof.
  intros Hc Hw [m Hm] Heq. specialize (Hc w Hw). rewrite Heq in Hc.
  assert (r <> OutOfFuel /\ heap_ok w' /\ evolves w w') as (? & ? & Hle) by (by destruct r as [|[]| |]).
  destruct (Hle msg m Hm) as (m' & ? & _). eauto.
Qed.

(** ** Retries *)

Section retry.
Context {Ext : Type}.
Implicit Types (w : World (Ext := Ext)) (msg id : nat).
Variable r : Retry (Ext := Ext).

Definition hook (n : Z) w : World := match OnRetryHook r with Some f => f n (NextBackOff r n) w | None => w end.

Definition behaved_hook : Prop := forall n w, heap_ok w -> heap_ok (hook n w) /\ evolves w (hook n w).

Lemma behaved_retryLoop h msg fuel n ids e :
  behaved_hook -> behaved_handler h -> (1 <= fuel)%nat -> (Z.to_nat (MaxRetries r + 1 - n) <= fuel)%nat ->
  behaved (retryLoop fuel r h msg n ids e).
Proof.
  intros Hh Hf. revert n ids e. induction fuel as [|fuel IH]; intros n ids e H1 Hfuel; [lia|]. intros w Hw. cbn.
  destruct (interrupted r n w); [by split|].
  apply (behaved_bind (h msg)); [apply Hf| |done]. clear w Hw. intros [ids' [e'|]]; [|behaved_auto]. intros w Hw.
  destruct (Hh n w Hw) as [Hw' Hle]. unfold hook in *.
  destruct (Z.ltb_spec (MaxRetries r) (n + 1)) as [Hlt|Hge]; [by split|].
  specialize (IH (n + 1) ids' e' ltac:(lia) ltac:(lia) _ Hw').
  destruct (retryLoop _ _ _ _ _ _ _ _) as [[|[]| |] w2]; try done; destruct IH; (split; [done|]); by etrans.
Qed.

Lemma behaved_Retry : behaved_hook -> behaved_middleware (Retry_Middleware r).
Proof.
  intros Hh f Hf msg. unfold Retry_Middleware, retryFuel. behaved_auto.
  apply behaved_retryLoop; (done || lia).
Qed.

(** The calls of a handler that fails, from a state: the first call and a number of retries that the
    context did not interrupt; what the last one returned, and the state then. *)
Inductive attempts (h : HandlerFunc (Ext := Ext)) (msg : nat) w : nat -> list nat -> MError -> World (Ext := Ext) -> Prop :=
  | attempts_first ids e w1 : h msg w = (Ok (ids, Some e), w1) -> attempts h msg w 0 ids e w1
  | attempts_next k ids e w1 ids' e' w2 :
      attempts h msg w k ids e w1 -> interrupted r (Z.of_nat k + 1) w1 = false ->
      h msg w1 = (Ok (ids', Some e'), w2) -> attempts h msg w (S k) ids' e' (hook (Z.of_nat k + 1) w2).

Lemma Retry_attempts h msg w k ids e w1 :
  behaved_handler h -> heap_ok w -> is_Some (messages w !! msg) ->
  attempts h msg w k ids e w1 -> Z.of_nat k < Z.max 1 (MaxRetries r) ->
  Retry_Middleware r h msg w = retryLoop (retryFuel r - k) r h msg (Z.of_nat k + 1) ids e w1.
Proof.
  intros Hf Hw [m Hm] Ha. induction Ha as [ids e w1 H|k ids e w1 ids' e' w2 Ha IH Hi H]; intros Hk.
  - unfold Retry_Middleware, ebind at 1. rewrite H. rewrite Nat.sub_0_r.
    specialize (Hf msg w Hw). rewrite H in Hf. destruct Hf as [_ Hle]. destruct (Hle msg m Hm) as (m1 & Hm1 & _).
    unfold msg_Context, ebind, load. by rewrite Hm1.
  - rewrite IH by lia. destruct (retryFuel r - k)%nat as [|fuel] eqn:Hfuel; [unfold retryFuel in *; lia|].
    replace (retryFuel r - S k)%nat with fuel by lia. cbn [retryLoop]. rewrite Hi. unfold ebind. rewrite H.
    destruct (Z.ltb_spec (MaxRetries r) (Z.of_nat k + 1 + 1)); [lia|].
    by replace (Z.of_nat (S k) + 1) with (Z.of_nat k + 1 + 1) by lia.
Qed.

(** What a handler under [Retry] ends with: the first call that succeeds or panics, unless the context of the
    message ends before, or the last of [MaxRetries] retries (of one, if that is 0) fails. *)
Inductive retried (h : HandlerFunc) (msg : nat) w :
    outcome Empty_set (list nat * option MError) -> World (Ext := Ext) -> Prop :=
  | retried_none res w1 :
      h msg w = (res, w1) -> (forall ids e, res <> Ok (ids, Some e)) -> retried h msg w res w1
  | retried_until k ids e w1 res w2 :
      attempts h msg w k ids e w1 -> Z.of_nat k < Z.max 1 (MaxRetries r) -> interrupted r (Z.of_nat k + 1) w1 = false ->
      h msg w1 = (res, w2) -> (forall ids e, res <> Ok (ids, Some e)) -> retried h msg w res w2
  | retried_interrupted k ids e w1 :
      attempts h msg w k ids e w1 -> Z.of_nat k < Z.max 1 (MaxRetries r) -> interrupted r (Z.of_nat k + 1) w1 = true ->
      retried h msg w (Ok (ids, Some e)) w1
  | retried_exhausted k ids e w1 :
      attempts h msg w k ids e w1 -> Z.of_nat k = Z.max 1 (MaxRetries r) -> retried h msg w (Ok ([], Some e)) w1.

Lemma attempts_ok h msg w k ids e w1 :
  behaved_hook -> behaved_handler h -> heap_ok w -> attempts h msg w k ids e w1 -> heap_ok w1.
Proof.
  intros Hh Hf Hw Ha. induction Ha as [ids e w1 H|k ids e w1 ids' e' w2 Ha IH Hi H].
  - specialize (Hf msg w Hw). rewrite H in Hf. apply Hf.
  - specialize (Hf msg w1 IH). rewrite H in Hf. destruct Hf as [Hw2 _]. by destruct (Hh (Z.of_nat k + 1) w2 Hw2).
Qed.

(** The attempts that failed so far, followed by the rest of the loop. *)
Lemma retried_rest h msg w n : forall k ids e w1,
  behaved_hook -> behaved_handler h -> heap_ok w -> is_Some (messages w !! msg) -> attempts h msg w k ids e w1 ->
  (Z.to_nat (Z.max 1 (MaxRetries r)) - k = n)%nat -> Z.of_nat k <= Z.max 1 (MaxRetries r) ->
  exists res w', Retry_Middleware r h msg w = (res, w') /\ retried h msg w res w'.
Proof.
  induction n as [|n IH]; intros k ids e w1 Hh Hf Hw Hm Ha Hn Hk.
  { assert (Z.of_nat k = Z.max 1 (MaxRetries r)) as Hmax by lia.
    exists (Ok ([], Some e)), w1. split; [|by eapply retried_exhausted].
    inversion Ha as [? ? ? H|k' ids0 e0 w0 ? ? w2 Ha' Hi H]; subst; [lia|].
    rewrite (Retry_attempts h msg w k' ids0 e0 w0) by (done || lia).
    destruct (retryFuel r - k')%nat as [|fuel] eqn:Hfuel; [unfold retryFuel in *; lia|]. cbn [retryLoop]. rewrite Hi.
    unfold ebind. rewrite H. destruct (Z.ltb_spec (MaxRetries r) (Z.of_nat k' + 1 + 1)); [done|lia]. }
  pose proof (Retry_attempts h msg w k ids e w1 Hf Hw Hm Ha ltac:(lia)) as Hrun.
  destruct (retryFuel r - k)%nat as [|fuel] eqn:Hfuel; [unfold retryFuel in *; lia|]. cbn [retryLoop] in Hrun.
  destruct (interrupted r (Z.of_nat k + 1) w1) eqn:Hi.
  { exists (Ok (ids, Some e)), w1. split; [done|]. eapply retried_interrupted; (done || lia). }
  destruct (h msg w1) as [res w2] eqn:Hcall. pose proof (Hf msg w1 (attempts_ok _ _ _ _ _ _ _ Hh Hf Hw Ha)) as Hb.
  rewrite Hcall in Hb. unfold ebind in Hrun. rewrite Hcall in Hrun. destruct res as [[ids' [e'|]]|[]|v|]; [| | |done].
  - by apply (IH (S k) ids' e' (hook (Z.of_nat k + 1) w2)); try done; try lia; eapply attempts_next.
  - exists (Ok (ids', None)), w2. split; [done|]. by eapply retried_until; [exact Ha|lia|..].
  - exists (Panic v), w2. split; [done|]. by eapply retried_until; [exact Ha|lia|..].
Qed.

(** C22: [Retry] ends, and with what [retried] says: it calls the handler again while it fails, with the hook after
    each retry that failed, at most [MaxRetries] times (once, if that is 0), and stops before a retry when
    the context of the message has ended; the first success (with its messages) or panic is handed on, an
    interruption returns the last error and messages, and after the last retry only the error is left. *)
Theorem retry_outcome h msg w :
  behaved_hook -> behaved_handler h -> heap_ok w -> is_Some (messages w !! msg) ->
  exists res w', Retry_Middleware r h msg w = (res, w') /\ retried h msg w res w'.
Proof.
  intros Hh Hf Hw Hm. destruct (h msg w) as [res w1] eqn:Hcall.
  destruct (behaved_present _ _ _ _ msg (Hf msg) Hw Hm Hcall) as (Hr & Hw1 & [m1 Hm1]).
  destruct res as [[ids [e|]]|[]|v|]; [| | |done].
  - eapply (retried_rest h msg w _ 0 ids e w1); try done; [by constructor|lia].
  - exists (Ok (ids, None)), w1. split; [|by constructor]. unfold Retry_Middleware, ebind. by rewrite Hcall.
  - exists (Panic v), w1. split; [|by constructor]. unfold Retry_Middleware, ebind. by rewrite Hcall.
Qed.
End retry.

(** ** The router *)

Section handling.
Context {Ext : Type}.
Implicit Types (w : World (Ext := Ext)) (msg id : nat) (h : handler (Ext := Ext)).

Lemma behaved_addHandlerContext h ids : behaved (addHandlerContext h ids).
Proof. induction ids as [|id ids IH]; cbn; behaved_auto. Qed.

Lemma behaved_publish_loop p c t ids : behaved_publisher (Ext := Ext) p -> behaved (publish_loop p c t ids).
Proof. intros Hp. induction ids as [|id ids IH]; cbn; behaved_auto. Qed.

Definition behaved_publisher_of h : Prop := forall p, publisher h = Some p -> behaved_publisher p.

Lemma behaved_publishProduced h c ids : behaved_publisher_of h -> behaved (publishProducedMessages h c ids).
Proof.
  intros Hp. unfold publishProducedMessages, behaved_publisher_of in *. destruct ids; [behaved_auto|].
  destruct (publisher h) as [p|]; [|behaved_auto]. apply behaved_publish_loop. by apply Hp.
Qed.

Lemma behaved_drop_marked k i arr plen d : behaved (Ext := Ext) (drop_marked k i arr plen d).
Proof. revert i arr plen d. induction k as [|k IH]; intros i arr plen d; cbn; behaved_auto; apply IH. Qed.

Lemma behaved_wrapHandler h ms :
  behaved_handler (handlerFunc h) -> Forall (fun m => behaved_middleware (Handler m)) ms ->
  behaved_handler (wrapHandler h ms).
Proof. intros Hf Hms. induction Hms as [|m ms Hm Hms IH]; cbn; [done|]. case_match; [by apply Hm|done]. Qed.

(** Nothing but the acknowledgement of one message changes, and that to [t] unless something was sent. *)
Definition settle_as (t : ackType) (msg : nat) w w' : Prop :=
  exists m m', messages w !! msg = Some m /\ w' = with_messages w (<[msg := m']> (messages w)) /\
    ackSentType m' = settled t m /\ wf_message m' /\
    UUID m' = UUID m /\ metadata m' = metadata m /\ payload m' = payload m /\ ctx m' = ctx m.

Lemma msg_Ack_settles msg w :
  heap_ok w -> is_Some (messages w !! msg) -> exists b w', msg_Ack msg w = (Ok b, w') /\ settle_as ack msg w w'.
Proof.
  intros Hw [m Hm]. unfold msg_Ack, ebind, load, elift. rewrite Hm.
  destruct (Ack_spec (E := Empty_set) m (Hw msg m Hm)) as (m' & -> & ? & ? & ? & ? & ? & ?).
  eexists _, _. split; [reflexivity|]. by exists m, m'.
Qed.

Lemma msg_Nack_settles msg w :
  heap_ok w -> is_Some (messages w !! msg) -> exists b w', msg_Nack msg w = (Ok b, w') /\ settle_as nack msg w w'.
Proof.
  intros Hw [m Hm]. unfold msg_Nack, ebind, load, elift. rewrite Hm.
  destruct (Nack_spec (E := Empty_set) m (Hw msg m Hm)) as (m' & -> & ? & ? & ? & ? & ? & ?).
  eexists _, _. split; [reflexivity|]. by exists m, m'.
Qed.

(** A handler that returns an error or panics. *)
Lemma handleMessage_failed h msg f w r w1 :
  heap_ok w1 -> is_Some (messages w !! msg) -> is_Some (messages w1 !! msg) -> f msg w = (r, w1) ->
  (exists v, r = Panic v) \/ (exists ids e, r = Ok (ids, Some e)) ->
  exists w', handleMessage h msg f w = (Ok tt, w') /\ settle_as nack msg w1 w'.
Proof.
  intros Hw1 [m Hm] Hm1 Hf Hr. destruct (msg_Nack_settles msg w1 Hw1 Hm1) as (b & w' & HN & Hs). exists w'. split; [|done].
  unfold handleMessage, handleMessage_body, ebind, load, recover. rewrite Hm, Hf.
  destruct Hr as [[v ->]|(ids & e & ->)]; by rewrite HN.
Qed.

(** What the router sends when publishing came to a result. *)
Definition verdict (res : outcome Empty_set (option MError)) : ackType :=
  match res with Ok None => ack | _ => nack end.

(** A handler that succeeds: the kept messages get the handler's context and are published; then the
    message is settled, unless that was switched off and publishing did not panic. *)
Lemma handleMessage_succeeded h msg f w ids w1 kept d :
  behaved_publisher_of h -> heap_ok w1 -> is_Some (messages w !! msg) -> is_Some (messages w1 !! msg) ->
  f msg w = (Ok (ids, None), w1) ->
  drop_marked (length ids) 0 ids (length ids) false w1 = (Ok (kept, d), w1) ->
  (forall id, id ∈ kept -> is_Some (messages w1 !! id)) ->
  exists w2 c res w3 w', addHandlerContext h kept w1 = (Ok tt, w2) /\ msg_Context msg w2 = (Ok c, w2) /\
    publishProducedMessages h c kept w2 = (res, w3) /\ handleMessage h msg f w = (Ok tt, w') /\
    if d then match res with Panic _ => settle_as nack msg w3 w' | _ => w' = w3 end
    else settle_as (verdict res) msg w3 w'.
Proof.
  intros Hp Hw1 [m Hm] Hm1 Hf Hd Hkept.
  assert (exists w2, addHandlerContext h kept w1 = (Ok tt, w2)) as [w2 Hctx].
  { clear Hd Hf Hm1. revert w1 Hw1 Hkept. induction kept as [|id kept IH]; intros w1 Hw1 Hkept; [by eexists|].
    destruct (Hkept id ltac:(set_solver)) as [m1 Hm1]. cbn. unfold msg_Context, msg_SetContext, ebind, load. rewrite Hm1. cbn. rewrite Hm1. cbn.
    apply IH; [by apply map_Forall_insert_2; [apply (Hw1 id m1 Hm1)|]|]. intros id' Hid'. cbn.
    apply lookup_insert_is_Some'. right. apply Hkept. set_solver. }
  destruct (behaved_present _ _ _ _ msg (behaved_addHandlerContext h kept) Hw1 Hm1 Hctx) as (_ & Hw2 & [m2 Hm2]).
  destruct (publishProducedMessages h (Context m2) kept w2) as [res w3] eqn:Hpub.
  destruct (behaved_present _ _ _ _ msg (behaved_publishProduced h _ kept Hp) Hw2 (mk_is_Some _ _ Hm2) Hpub) as (Hres & Hw3 & Hm3).
  destruct (msg_Nack_settles msg w3 Hw3 Hm3) as (b & w' & HN & Hs).
  destruct (msg_Ack_settles msg w3 Hw3 Hm3) as (b' & w'' & HA & Hs').
  assert (msg_Context msg w2 = (Ok (Context m2), w2)) as Hc by (unfold msg_Context, ebind, load; by rewrite Hm2).
  exists w2, (Context m2), res, w3, (match res with Panic _ => w' | Ok (Some _) => if d then w3 else w' | _ => if d then w3 else w'' end).
  do 3 (split; [done|]). split.
  - unfold handleMessage, handleMessage_body, recover, ebind, load. rewrite Hm, Hf, Hd, Hctx, Hc, Hpub.
    destruct res as [[e|]|[]|v|]; [| |by rewrite HN|done]; destruct d; cbn [negb]; rewrite ?HN, ?HA; done.
  - destruct res as [[e|]|[]|v|]; destruct d; done.
Qed.

(** ** The loop over the produced messages *)

Definition mark_of w id (b : bool) : Prop := exists m, messages w !! id = Some m /\ marked m = b.

Lemma drop_marked_skip w j k i arr plen d :
  (forall n id, (i <= n < i + j)%nat -> arr !! n = Some id -> mark_of w id false) -> (i + j <= length arr)%nat ->
  drop_marked (j + k) i arr plen d w = drop_marked k (i + j) arr plen (match j with O => d | _ => false end) w.
Proof.
  revert i d. induction j as [|j IH]; intros i d Hun Hlen; [by rewrite Nat.add_0_r|].
  destruct (lookup_lt_is_Some_2 arr i ltac:(lia)) as [id Hid].
  destruct (Hun i id ltac:(lia) Hid) as (m & Hm & Hmark).
  cbn [drop_marked plus]. rewrite Hid. unfold ebind at 1, load. rewrite Hm, Hmark.
  rewrite IH by (try lia; intros n id' Hn; apply Hun; lia).
  replace (S i + j)%nat with (i + S j)%nat by lia. by destruct j.
Qed.

(** No marked message: nothing is dropped, and the router settles the message. *)
Lemma drop_marked_none w ids :
  (forall id, id ∈ ids -> mark_of w id false) ->
  drop_marked (length ids) 0 ids (length ids) false w = (Ok (ids, false), w).
Proof.
  intros Hun. pose proof (drop_marked_skip w (length ids) 0 0 ids (length ids) false) as H.
  rewrite Nat.add_0_r in H. rewrite H; [|intros n id _ Hid; by eapply Hun, list_elem_of_lookup_2|lia]. cbn.
  rewrite take_ge by lia. by destruct (length ids).
Qed.

(** What the loop makes of the produced messages: a marked message is dropped, and the message after it is
    kept unseen; the kept messages, how many were dropped, and whether the last message was dropped as such. *)
Fixpoint scan (mark : nat -> bool) (ids : list nat) : list nat * nat * bool :=
  match ids with
  | [] => ([], 0%nat, false)
  | x :: rest =>
      if mark x then
        match rest with
        | [] => ([], 1%nat, true)
        | y :: rest => let '(kept, n, fin) := scan mark rest in (y :: kept, S n, fin)
        end
      else let '(kept, n, fin) := scan mark rest in (x :: kept, n, fin)
  end.

Definition mark_in w (id : nat) : bool := from_option marked false (messages w !! id).

(** The messages to publish, and whether the router leaves the handled message alone; [None]: the loop
    panics. *)
Definition marks_outcome w (ids : list nat) : option (list nat * bool) :=
  let '(kept, n, fin) := scan (mark_in w) ids in
  if (n =? 0)%nat then Some (kept, false)
  else if from_option (mark_in w) false (last ids) then
    if fin && (n =? 1)%nat then Some (kept, true) else None
  else Some (kept, false).

Definition present w (ids : list nat) : Prop := forall id, id ∈ ids -> is_Some (messages w !! id).

(** The iterations over the stale end of the array. *)
Lemma drop_marked_stale w d pre y plen flag :
  present w [y] -> (plen <= length pre)%nat -> (0 < d)%nat ->
  let r := drop_marked d (length pre) (pre ++ replicate d y) plen flag w in
  if mark_in w y then exists v, r = (Panic v, w) else r = (Ok (take plen pre, false), w).
Proof.
  intros Hy Hplen. destruct (Hy y ltac:(set_solver)) as [m Hm]. unfold mark_in. rewrite Hm. cbn [from_option].
  revert pre Hplen flag. induction d as [|d IH]; intros pre Hplen flag Hd; [lia|]. cbn [replicate drop_marked].
  rewrite list_lookup_middle by done. unfold ebind at 1 2, load at 1 2. rewrite Hm.
  destruct (marked m) eqn:Hmark.
  { destruct (Nat.leb_spec (S (length pre)) plen); [lia|]. by eexists. }
  destruct d as [|d].
  { cbn [drop_marked]. by rewrite take_app_le. }
  specialize (IH (pre ++ [y])). rewrite length_app in IH. cbn [length] in IH.
  specialize (IH ltac:(lia) false ltac:(lia)). rewrite <- (assoc_L (++)) in IH. cbn [app] in IH.
  rewrite Nat.add_1_r in IH. rewrite IH. by rewrite take_app_le.
Qed.

(** The result of the loop, when [d] messages were dropped before and [k] are dropped in the rest. *)
Definition loop_result w (y : nat) (kept : list nat) (dropped : nat) (fin flag : bool)
    (r : outcome Empty_set (list nat * bool) * World (Ext := Ext)) : Prop :=
  if (dropped =? 0)%nat then r = (Ok (kept, flag), w)
  else if mark_in w y then
    if fin && (dropped =? 1)%nat then r = (Ok (kept, true), w) else exists v, r = (Panic v, w)
  else r = (Ok (kept, false), w).

Lemma drop_marked_end w pre d y flag :
  ((0 < d)%nat -> present w [y]) ->
  loop_result w y pre d false flag (drop_marked d (length pre) (pre ++ replicate d y) (length pre) flag w).
Proof.
  intros Hy. unfold loop_result. destruct d as [|d]; [by cbn; rewrite app_nil_r, take_ge|].
  pose proof (drop_marked_stale w (S d) pre y (length pre) flag (Hy ltac:(lia)) ltac:(lia) ltac:(lia)) as Hst.
  cbv zeta in Hst. cbn [Nat.eqb andb]. by rewrite (take_ge pre) in Hst by lia.
Qed.

(** The array after a message is dropped at its index. *)
Lemma shifted_array (pre rest : list nat) x y d :
  (forall z, last (x :: rest) = Some z -> z = y) ->
  let arr := pre ++ x :: rest ++ replicate d y in
  let plen := (length pre + S (length rest))%nat in
  take (length pre) arr ++ take (plen - S (length pre)) (drop (S (length pre)) arr) ++ drop (plen - 1) arr
    = pre ++ rest ++ replicate (S d) y.
Proof.
  intros Hlast arr plen. subst arr plen. rewrite take_app_length. f_equal.
  replace (length pre + S (length rest) - S (length pre))%nat with (length rest) by lia.
  replace (length pre + S (length rest) - 1)%nat with (length pre + length rest)%nat by lia.
  change (x :: rest ++ replicate d y) with ([x] ++ rest ++ replicate d y).
  rewrite (assoc_L (++) pre). rewrite (drop_app_length' (pre ++ [x])) by (rewrite length_app; cbn; lia).
  rewrite take_app_length. f_equal. rewrite <- (assoc_L (++)), <- drop_drop, drop_app_length.
  rewrite (assoc_L (++)). destruct (exists_last (l := [x] ++ rest) ltac:(done)) as (l & z & Hl). rewrite Hl.
  assert (length rest = length l) as ->.
  { apply (f_equal length) in Hl. rewrite !length_app in Hl. cbn in Hl. lia. }
  rewrite <- (assoc_L (++)), drop_app_length. cbn [app replicate]. f_equal. apply Hlast.
  change (x :: rest) with ([x] ++ rest). rewrite Hl. by rewrite last_snoc.
Qed.

(** The loop at index [length pre]: the rest of the messages lies there, then [d] copies of the last one. *)
Lemma drop_marked_scan w n : forall rest pre d y flag, (length rest <= n)%nat ->
  present w rest -> ((0 < d)%nat -> present w [y]) -> (forall z, last rest = Some z -> z = y) ->
  let '(kept, k, fin) := scan (mark_in w) rest in
  loop_result w y (pre ++ kept) (d + k) fin (match rest with [] => flag | _ => false end)
    (drop_marked (length rest + d) (length pre) (pre ++ rest ++ replicate d y)
       (length pre + length rest) flag w).
Proof.
  induction n as [|n IH]; intros rest pre d y flag Hn Hp Hy Hlast; (destruct rest as [|x rest];
    [cbn [scan length app]; rewrite app_nil_r, !Nat.add_0_r; by apply drop_marked_end|]); [cbn in Hn; lia|].
  cbn [length] in Hn. destruct (Hp x ltac:(set_solver)) as [m Hm].
  assert (Hlast' : forall z, last rest = Some z -> z = y) by (intros z Hz; apply Hlast; by destruct rest).
  cbn [scan length plus drop_marked app]. rewrite list_lookup_middle by done.
  unfold ebind, load. rewrite Hm. unfold mark_in at 1. rewrite Hm. cbn [from_option].
  destruct (marked m) eqn:Hmark.
  2:{ specialize (IH rest (pre ++ [x]) d y false ltac:(lia)). rewrite length_app in IH. cbn [length] in IH.
      rewrite <- (assoc_L (++)) in IH. cbn [app] in IH. rewrite Nat.add_1_r in IH.
      replace (length pre + S (length rest))%nat with (S (length pre) + length rest)%nat by lia.
      specialize (IH ltac:(intros i Hi; apply Hp; set_solver) Hy Hlast').
      destruct (scan (mark_in w) rest) as [[kept k] fin].
      rewrite <- (assoc_L (++)) in IH. cbn [app] in IH. by destruct rest. }
  destruct (Nat.leb_spec (S (length pre)) (length pre + S (length rest))); [|lia].
  rewrite shifted_array by done. replace (length pre + S (length rest) - 1)%nat with (length pre + length rest)%nat by lia.
  destruct rest as [|z rest].
  - assert (x = y) as -> by (by apply Hlast). cbn [length app plus]. rewrite Nat.add_0_r, app_nil_r.
    unfold loop_result. rewrite Nat.add_1_r. cbn [Nat.eqb]. unfold mark_in at 1. rewrite Hm. cbn [from_option].
    rewrite Hmark. destruct d as [|d]; [by cbn; rewrite take_app_length|]. cbn [Nat.eqb andb].
    pose proof (drop_marked_stale w (S d) (pre ++ [y]) y (length pre) true) as Hst. rewrite length_app in Hst.
    cbn [length] in Hst. unfold mark_in in Hst. rewrite Hm in Hst. cbn [from_option] in Hst. rewrite Hmark in Hst.
    rewrite <- (assoc_L (++)), Nat.add_1_r in Hst. apply Hst; [by apply Hy; lia|lia|lia].
  - specialize (IH rest (pre ++ [z]) (S d) y true ltac:(cbn in Hn; lia)). rewrite length_app in IH. cbn [length] in IH.
    rewrite <- (assoc_L (++)) in IH. cbn [app] in IH. rewrite Nat.add_1_r in IH.
    specialize (IH ltac:(intros i Hi; apply Hp; set_solver)).
    assert (Hyp : present w [y]).
    { intros i ->%list_elem_of_singleton. apply Hp. right.
      destruct (last (z :: rest)) as [y'|] eqn:Hl; [|by apply last_None in Hl].
      rewrite <- (Hlast' y' eq_refl). apply last_Some in Hl as [l ->]. set_solver. }
    specialize (IH (fun _ => Hyp) ltac:(intros z' Hz; apply Hlast'; by destruct rest)).
    destruct (scan (mark_in w) rest) as [[kept k] fin]. rewrite <- (assoc_L (++)) in IH. cbn [app length] in *.
    replace (d + S k)%nat with (S d + k)%nat by lia.
    replace (S (length rest) + d)%nat with (length rest + S d)%nat by lia.
    replace (length pre + S (length rest))%nat with (S (length pre) + length rest)%nat by lia.
    unfold loop_result in *. exact IH.
Qed.

Lemma drop_marked_outcome w ids :
  present w ids ->
  match marks_outcome w ids with
  | Some (kept, d) => drop_marked (length ids) 0 ids (length ids) false w = (Ok (kept, d), w)
  | None => exists v, drop_marked (length ids) 0 ids (length ids) false w = (Panic v, w)
  end.
Proof.
  intros Hp. destruct (last ids) as [y|] eqn:Hl; [|by apply last_None in Hl as ->].
  pose proof (drop_marked_scan w (length ids) ids [] 0 y false
    ltac:(lia) Hp ltac:(lia)) as H. unfold marks_outcome.
  specialize (H ltac:(intros z Hz; congruence)).
  destruct (scan (mark_in w) ids) as [[kept k] fin]. cbn [app length plus replicate] in H.
  rewrite app_nil_r, Nat.add_0_r in H. unfold loop_result in H. cbn [plus] in H.
  assert ((match ids with [] => false | _ :: _ => false end) = false) as Hflag by by destruct ids. rewrite Hflag in H.
  destruct (Nat.eqb_spec k 0) as [->|Hk]; [exact H|].
  rewrite Hl. cbn [from_option]. destruct (mark_in w y); [|exact H]. destruct (fin && _); exact H.
Qed.

Lemma scan_kept mark : forall n ids, (length ids <= n)%nat ->
  forall x, x ∈ (scan mark ids).1.1 -> x ∈ ids.
Proof.
  induction n as [|n IH]; intros [|z rest] Hn x; cbn [scan]; try (by cbn); [cbn in Hn; lia|]. cbn [length] in Hn.
  destruct (mark z).
  - destruct rest as [|y rest]; [by cbn; set_solver|]. cbn [length] in Hn. specialize (IH rest ltac:(lia) x).
    destruct (scan mark rest) as [[kept k] fin]. cbn in *. set_solver.
  - specialize (IH rest ltac:(lia) x). destruct (scan mark rest) as [[kept k] fin]. cbn in *. set_solver.
Qed.

Lemma marks_outcome_kept w ids kept d : marks_outcome w ids = Some (kept, d) -> forall x, x ∈ kept -> x ∈ ids.
Proof.
  intros H x Hx. apply (scan_kept (mark_in w) (length ids) ids ltac:(lia)). unfold marks_outcome in H.
  destruct (scan (mark_in w) ids) as [[kept' k] fin]. cbn. repeat case_match; simplify_eq; done.
Qed.

Lemma scan_unmarked mark ids : (forall x, x ∈ ids -> mark x = false) -> scan mark ids = (ids, 0%nat, false).
Proof.
  intros H. induction ids as [|x ids IH]; cbn [scan]; [done|].
  rewrite (H x) by set_solver. by rewrite IH by (intros; apply H; set_solver).
Qed.

Lemma scan_last mark ids x :
  (forall z, z ∈ ids -> mark z = false) -> mark x = true -> scan mark (ids ++ [x]) = (ids, 1%nat, true).
Proof.
  intros H Hx. induction ids as [|z ids IH]; cbn [scan app]; [by rewrite Hx|].
  rewrite (H z) by set_solver. by rewrite IH by (intros; apply H; set_solver).
Qed.

(** Nothing dropped: nothing was marked; one message, at the end: only that one was. *)
Lemma scan_few mark : forall ids,
  match scan mark ids with
  | (kept, O, fin) => fin = false /\ kept = ids /\ forall z, z ∈ ids -> mark z = false
  | (kept, 1%nat, true) => exists x, ids = kept ++ [x] /\ mark x = true /\ forall z, z ∈ kept -> mark z = false
  | _ => True
  end.
Proof.
  fix IH 1. intros [|x rest]; cbn [scan]; [set_solver|]. destruct (mark x) eqn:Hx.
  - destruct rest as [|y rest]; [exists x; set_solver|]. specialize (IH rest).
    destruct (scan mark rest) as [[kept [|k]] fin]; [|by destruct k, fin]. by destruct IH as [-> _].
  - specialize (IH rest). destruct (scan mark rest) as [[kept [|[|k]]] [|]]; try done.
    + by destruct IH as [? _].
    + destruct IH as (_ & -> & H). split_and!; [done|done|]. intros z [->|Hz]%elem_of_cons; [done|by apply H].
    + destruct IH as (z & -> & Hz & H). exists z. split_and!; [done|done|]. intros z' [->|Hz']%elem_of_cons; [done|by apply H].
Qed.

(** The router leaves a message alone exactly when only the last produced message is marked. *)
Lemma marks_outcome_left w ids kept :
  marks_outcome w ids = Some (kept, true) <->
  exists x, ids = kept ++ [x] /\ mark_in w x = true /\ forall z, z ∈ kept -> mark_in w z = false.
Proof.
  split.
  - unfold marks_outcome. pose proof (scan_few (mark_in w) ids) as H.
    destruct (scan (mark_in w) ids) as [[kept' [|[|k]]] [|]]; cbn [Nat.eqb andb]; repeat case_match; try done; by intros [= <-].
  - intros (x & -> & Hx & H). unfold marks_outcome. rewrite scan_last by done. cbn [Nat.eqb andb]. by rewrite last_snoc; cbn; rewrite Hx.
Qed.

(** ** Every handled message is settled *)


(** C29: A handler may mark a produced message to tell the router not to settle the handled one. For every list of
    produced messages, [marks_outcome] says what becomes of it: the loop over the list panics, and then the
    message is refused and nothing is published; or some messages are kept and published, and the
    message is left unsettled (unless publishing panics) exactly when the last of the produced messages
    is marked and no other one is, and settled by the result of publishing in all other cases, so also
    when marked messages were dropped from other places. *)
Theorem marker_only_at_the_end h msg f w ids w1 :
  behaved_handler f -> behaved_publisher_of h -> heap_ok w -> is_Some (messages w !! msg) ->
  f msg w = (Ok (ids, None), w1) -> present w1 ids ->
  match marks_outcome w1 ids with
  | Some (kept, d) =>
      exists w2 c res w3 w', addHandlerContext h kept w1 = (Ok tt, w2) /\ msg_Context msg w2 = (Ok c, w2) /\
        publishProducedMessages h c kept w2 = (res, w3) /\ handleMessage h msg f w = (Ok tt, w') /\
        (if d then match res with Panic _ => settle_as nack msg w3 w' | _ => w' = w3 end
         else settle_as (verdict res) msg w3 w') /\
        (d = true <-> (exists x, ids = kept ++ [x] /\ mark_in w1 x = true /\ forall z, z ∈ kept -> mark_in w1 z = false))
  | None => exists w', handleMessage h msg f w = (Ok tt, w') /\ settle_as nack msg w1 w'
  end.
Proof.
  intros Hf Hp Hw Hm Heq Hids. destruct (behaved_present _ _ _ _ msg (Hf msg) Hw Hm Heq) as (_ & Hw1 & Hm1).
  pose proof (drop_marked_outcome w1 ids Hids) as Hd. destruct (marks_outcome w1 ids) as [[kept d]|] eqn:Ho.
  - destruct (handleMessage_succeeded h msg f w ids w1 kept d) as (w2 & c & res & w3 & w' & ? & ? & ? & ? & ?); try done.
    { intros id Hid. by eapply Hids, marks_outcome_kept. }
    exists w2, c, res, w3, w'. split_and!; try done; rewrite <- marks_outcome_left, Ho; naive_solver.
  - destruct Hd as [v Hv], (msg_Nack_settles msg w1 Hw1 Hm1) as (b & w' & HN & Hs), Hm as [m Hm]. exists w'. split; [|done].
    unfold handleMessage, handleMessage_body, recover, ebind, load. by rewrite Hm, Heq, Hv, HN.
Qed.

(** ** Chains of middlewares *)

(** The middlewares of the package, with publishers and hooks that respect messages. *)
Inductive known_middleware : HandlerMiddleware (Ext := Ext) -> Prop :=
  | known_Recoverer Stack : known_middleware (Recoverer Stack)
  | known_CorrelationID : known_middleware CorrelationID
  | known_InstantAck : known_middleware InstantAck
  | known_Duplicator : known_middleware Duplicator
  | known_IgnoreErrors errs : known_middleware (IgnoreErrors errs)
  | known_Timeout : known_middleware Timeout
  | known_poisonQueue pq : behaved_publisher (pub pq) -> known_middleware (poisonQueue_Middleware pq)
  | known_Retry r : behaved_hook r -> known_middleware (Retry_Middleware r).

Lemma known_behaved mw : known_middleware mw -> behaved_middleware mw.
Proof.
  destruct 1; eauto using behaved_Recoverer, behaved_CorrelationID, behaved_InstantAck, behaved_Duplicator,
    behaved_IgnoreErrors, behaved_Timeout, behaved_poisonQueue, behaved_Retry.
Qed.

(** A handler that is wrapped in middlewares of the package still ends (retries included), never makes a message
    ill-formed, and never takes back an acknowledgement, if the handler itself does none of this; so the
    router can handle its messages as it can those of the handler. *)
Theorem wrapped_handler_behaved h ms :
  behaved_handler (handlerFunc h) -> Forall (fun m => known_middleware (Handler m)) ms ->
  behaved_handler (wrapHandler h ms).
Proof.
  intros Hf Hms. apply behaved_wrapHandler; [done|]. eapply Forall_impl; [exact Hms|]. intros m. apply known_behaved.
Qed.

(** ** The order of middlewares *)

(** Middlewares that a panic of the handler passes. *)
Definition panic_passes (mw : HandlerMiddleware (Ext := Ext)) : Prop :=
  forall f msg w v w1, f msg w = (Panic v, w1) -> mw f msg w = (Panic v, w1).

Lemma panic_passes_CorrelationID : panic_passes CorrelationID.
Proof. intros f msg w v w1 H. unfold CorrelationID, ebind. by rewrite H. Qed.
Lemma panic_passes_Duplicator : panic_passes Duplicator.
Proof. intros f msg w v w1 H. unfold Duplicator, ebind. by rewrite H. Qed.
Lemma panic_passes_IgnoreErrors errs : panic_passes (IgnoreErrors errs).
Proof. intros f msg w v w1 H. unfold IgnoreErrors, ebind. by rewrite H. Qed.
Lemma panic_passes_poisonQueue pq : panic_passes (poisonQueue_Middleware pq).
Proof. intros f msg w v w1 H. unfold poisonQueue_Middleware, ebind. by rewrite H. Qed.
Lemma panic_passes_Retry r : panic_passes (Retry_Middleware r).
Proof. intros f msg w v w1 H. unfold Retry_Middleware, ebind. by rewrite H. Qed.

(** With [Recoverer] added before the others, as newRouter of mq/router.go does, a panic is neither retried nor sent to
    the poison queue: the other middlewares never see it. *)
Theorem panic_not_salvaged h mws msg w v w1 Stack :
  Forall panic_passes mws -> handlerFunc h msg w = (Panic v, w1) ->
  let r := addRouterLevelMiddleware NewRouter (Recoverer Stack :: mws) in
  wrapHandler h (middlewares r) msg w = (Ok ([], Some (WithStack (RecoveredPanicError v Stack))), w1).
Proof.
  intros Hmws Hf r. set (ms := map (fun m => {| Handler := m; HandlerName := []; IsRouterLevel := true |}) mws).
  assert (wrapHandler h ms msg w = (Panic v, w1)) as Hms.
  { unfold ms. induction Hmws as [|mw mws Hmw Hmws IH]; [done|]. by apply Hmw. }
  transitivity (Recoverer Stack (wrapHandler h ms) msg w); [done|]. unfold Recoverer, recover. by rewrite Hms.
Qed.

(** Added after the poison queue instead, [Recoverer] makes the panic an error, which goes to the queue. *)
Lemma panic_salvaged h pq msg w v w1 Stack :
  handlerFunc h msg w = (Panic v, w1) -> shouldGoToPoisonQueue pq (WithStack (RecoveredPanicError v Stack)) = true ->
  let r := addRouterLevelMiddleware NewRouter [poisonQueue_Middleware pq; Recoverer Stack] in
  forall w2, publishPoisonMessage pq msg (WithStack (RecoveredPanicError v Stack)) w1 = (Ok None, w2) ->
  wrapHandler h (middlewares r) msg w = (Ok ([], None), w2).
Proof.
  intros Hf Hs r w2 Hp. cbn. unfold poisonQueue_Middleware, Recoverer, recover, ebind. rewrite Hf. cbn [done_ elift]. unfold done_, elift.
  rewrite Hs. cbn [negb]. by rewrite Hp.
Qed.

(** ** Contexts *)

Lemma add_value_scopes c k v : scopes (add_value c k v) = scopes c.
Proof. unfold add_value. by case_match. Qed.

Lemma handlerContext_scopes h c : scopes (handlerContext h c) = scopes c.
Proof. unfold handlerContext. by rewrite !add_value_scopes. Qed.

(** The handler's context leaves the scopes of every message's context. *)
Lemma addHandlerContext_scopes h ids w w2 r msg m :
  addHandlerContext h ids w = (r, w2) -> messages w !! msg = Some m ->
  ended w2 = ended w /\ exists m2, messages w2 !! msg = Some m2 /\
    scopes (Context m2) = scopes (Context m) /\ ackSentType m2 = ackSentType m.
Proof.
  revert w m. induction ids as [|id ids IH]; intros w m; cbn; [by intros [= <- <-] ?; eauto|].
  unfold msg_Context, msg_SetContext, ebind, load. destruct (messages w !! id) as [mi|] eqn:Hmi; cbn; [|by intros [= <- <-] ?; eauto].
  rewrite Hmi. cbn. intros Hrun Hm. destruct (decide (id = msg)) as [->|Hne].
  - simplify_eq. eapply IH in Hrun as (-> & m2 & Hm2 & Hs & Ht); [|cbn; apply lookup_insert_eq].
    split; [done|]. exists m2. split; [done|]. rewrite Hs, Ht. cbn. split; [apply handlerContext_scopes|done].
  - eapply IH in Hrun as (-> & m2 & Hm2 & Hs); [|cbn; by rewrite lookup_insert_ne]. eauto.
Qed.

Lemma addHandlerContext_ext h ids w w2 r : addHandlerContext h ids w = (r, w2) -> ext w2 = ext w.
Proof.
  revert w. induction ids as [|id ids IH]; intros w; cbn; [by intros [= <- <-]|].
  unfold msg_Context, msg_SetContext, ebind, load. destruct (messages w !! id) as [mi|] eqn:Hmi; cbn; [|by intros [= <- <-]].
  rewrite Hmi. cbn. intros Hrun. by apply IH in Hrun.
Qed.

(** A publisher that does not publish for a cancelled context. *)
Definition refuses_done (p : Publisher (Ext := Ext)) : Prop :=
  forall c t ids w, Done (ended w) c = true -> exists e, Publish p c t ids w = (Ok (Some e), w).

(** A handler that leaves the context of its message. *)
Definition keeps_context (f : HandlerFunc (Ext := Ext)) : Prop :=
  forall msg w r w1 m, f msg w = (r, w1) -> messages w !! msg = Some m ->
    exists m1, messages w1 !! msg = Some m1 /\ ctx m1 = ctx m.

(** C30: Under [Timeout] the context of the message is cancelled when the handler returns, before its messages are
    published with it: with a publisher that heeds its context and a handler that leaves the context of its
    message alone, a handler that succeeds in time and returns messages (unmarked ones) has none of them
    published, and its message ends as what the handler sent for it, or else as refused. *)
Theorem timeout_refuses_output h p msg f w :
  behaved_handler f -> behaved_publisher p -> publisher h = Some p -> refuses_done p -> keeps_context f -> heap_ok w ->
  forall m ids w1, messages w !! msg = Some m ->
  let w0 := {| messages := <[msg := SetContext m (WithCancel (Context m) (scope w))]> (messages w); ended := ended w;
               scope := S (scope w); ext := ext w |} in
  f msg w0 = (Ok (ids, None), w1) -> ids <> [] -> (forall id, id ∈ ids -> mark_of w1 id false) ->
  exists w' m1 m', handleMessage h msg (Timeout f) w = (Ok tt, w') /\ ext w' = ext w1 /\
    messages w1 !! msg = Some m1 /\ messages w' !! msg = Some m' /\ ackSentType m' = settled nack m1.
Proof.
  intros Hf Hp Hpub Href Hkeep Hw m ids w1 Hm w0 Hrun Hne Hun.
  set (w1' := {| messages := messages w1; ended := {[scope w]} ∪ ended w1; scope := scope w1; ext := ext w1 |}).
  assert (Timeout f msg w = (Ok (ids, None), w1')) as Ht.
  { unfold Timeout, msg_Context, msg_SetContext, defer, ebind, load. rewrite Hm. cbn. rewrite Hm. cbn.
    unfold with_messages. cbn. unfold w0 in Hrun. by rewrite Hrun. }
  destruct (Hkeep msg w0 _ w1 _ Hrun (lookup_insert_eq _ _ _)) as (m1 & Hm1 & Hctx).
  assert (heap_ok w1) as Hw1.
  { assert (heap_ok w0) as Hw0 by (apply map_Forall_insert_2; [exact (Hw msg m Hm)|done]).
    specialize (Hf msg w0 Hw0). rewrite Hrun in Hf. apply Hf. }
  destruct (handleMessage_succeeded h msg (Timeout f) w ids w1' ids false) as (w2 & c & res & w3 & w' & Hadd & Hc & Hpp & Hh & Hs).
  1-7: try (done || by eexists).
  - intros p' Hp'. by simplify_eq.
  - by apply drop_marked_none.
  - intros id Hid. destruct (Hun id Hid) as (mi & ? & _). by exists mi.
  - destruct (addHandlerContext_scopes h ids w1' w2 _ msg m1 Hadd Hm1) as (Hended & m2 & Hm2 & Hscopes & Hsent).
    assert (Done (ended w2) c = true) as Hdone.
    { unfold msg_Context, ebind, load in Hc. rewrite Hm2 in Hc. injection Hc as <-. unfold Done. rewrite Hscopes, Hended.
      unfold Context. rewrite Hctx. cbn. rewrite bool_decide_true by set_solver. done. }
    assert (exists e, res = Ok (Some e) /\ w3 = w2) as (e & -> & ->).
    { destruct ids as [|id ids]; [done|]. unfold publishProducedMessages in Hpp. rewrite Hpub in Hpp. cbn in Hpp.
      destruct (Href c (publishTopic h) [id] w2 Hdone) as [e He]. unfold ebind in Hpp. rewrite He in Hpp. injection Hpp as <- <-. by exists e. }
    destruct Hs as (m2' & m' & Hm2' & -> & Hsettled & _). simplify_eq. eexists _, m1, m'. split; [exact Hh|].
    apply addHandlerContext_ext in Hadd. cbn. rewrite lookup_insert_eq. split_and!; try done.
    rewrite Hsettled. unfold settled. by rewrite Hsent.
Qed.
End handling.

(** ** An example: a publisher that records what it publishes, and messages of which number 2 is marked *)

Definition sample_publisher : Publisher (Ext := list nat) :=
  {| Publish c _ ids w :=
       if Done (ended w) c then (Ok (Some (Plain (str "context canceled"))), w)
       else (Ok None, {| messages := messages w; ended := ended w; scope := scope w; ext := ext w ++ ids |});
     PublisherName := str "sample" |}.

Definition sample_handler : handler (Ext := list nat) :=
  {| name := str "h"; subscribeTopic := str "in"; subscriberName := str "s"; publisher := Some sample_publisher;
     publishTopic := str "out"; publisherName := str "sample"; handlerFunc := PassthroughHandler |}.

Definition sample_messages : gmap nat Message :=
  {[0%nat := NewMessage (str "0") []; 1%nat := NewMessage (str "1") [];
    2%nat := with_metadata (NewMessage (str "2") []) (Some {[MessageRouterAck := []]})]}.

Definition sample_world : World (Ext := list nat) :=
  {| messages := sample_messages; ended := ∅; scope := 0; ext := [] |}.

(** A handler that returns the given messages. *)
Definition returning (ids : list nat) : HandlerFunc (Ext := list nat) := fun _ => done_ (ids, None).

Lemma sample_publisher_behaved : behaved_publisher sample_publisher.
Proof. intros c t ids w Hw. cbn. destruct (Done _ _); [done|]. split; [done|]. intros id m Hm; by exists m. Qed.

Lemma sample_handler_publisher : behaved_publisher_of sample_handler.
Proof. intros p [= <-]. apply sample_publisher_behaved. Qed.

Lemma returning_behaved ids : behaved_handler (returning ids).
Proof. intros msg. apply behaved_done. Qed.

Lemma sample_world_ok : heap_ok sample_world.
Proof. apply (bool_decide_unpack _). by vm_compute. Qed.

Lemma sample_unmarked : mark_of sample_world 1 false.
Proof. eexists. by split. Qed.

Lemma sample_marked : mark_of sample_world 2 true.
Proof. eexists. by split. Qed.


Lemma marker_only_at_the_end_witness :
  (exists w', handleMessage sample_handler 0 (returning [1%nat; 2%nat]) sample_world = (Ok tt, w')) /\
  marks_outcome sample_world [1%nat; 2%nat] = Some ([1%nat], true) /\
  marks_outcome sample_world [2%nat; 1%nat] = Some ([1%nat], false) /\
  marks_outcome sample_world [2%nat; 2%nat; 1%nat] = Some ([2%nat; 1%nat], false) /\
  marks_outcome sample_world [2%nat; 1%nat; 2%nat] = None.
Proof.
  split; [|by vm_compute].
  destruct (marker_only_at_the_end sample_handler 0 (returning [1%nat; 2%nat]) sample_world [1%nat; 2%nat] sample_world
    (returning_behaved _) sample_handler_publisher sample_world_ok ltac:(by eexists) ltac:(done)) as (w2 & c & res & w3 & w' & H).
  - intros id Hid. apply (bool_decide_unpack _). rewrite !elem_of_cons in Hid. by destruct Hid as [->|[->|?%not_elem_of_nil]].
  - exists w'. apply H.
Defined.

Definition timed_world : World (Ext := list nat) :=
  {| messages := <[0%nat := SetContext (NewMessage (str "0") []) (WithCancel Background 0)]> sample_messages;
     ended := ∅; scope := 1; ext := [] |}.

Lemma timeout_refuses_output_witness :
  exists w' m1 m', handleMessage sample_handler 0 (Timeout (returning [1%nat])) sample_world = (Ok tt, w') /\ 
    ext w' = ext timed_world /\ messages timed_world !! 0%nat = Some m1 /\
    messages w' !! 0%nat = Some m' /\ ackSentType m' = settled nack m1.
Proof.
  apply (timeout_refuses_output sample_handler sample_publisher 0 (returning [1%nat]) sample_world
    (returning_behaved _) sample_publisher_behaved eq_refl) with (m := NewMessage (str "0") []) (ids := [1%nat])
    (w1 := timed_world); try done.
  - intros c t ids w Hd. exists (Plain (str "context canceled")). cbn. by rewrite Hd.
  - intros msg w r w1 m [= <- <-] Hm. eauto.
  - apply sample_world_ok.
  - intros id ->%list_elem_of_singleton. eexists. by split.
Defined.


(** A handler that fails until something was published. *)
Definition flaky (ids : list nat) : HandlerFunc (Ext := list nat) := fun _ w =>
  match ext w with
  | [] => (Ok ([], Some (Plain (str "not yet"))), w)
  | _ => (Ok (ids, None), w)
  end.

(** Two retries, with a hook that publishes at the second. *)
Definition sample_retry : Retry (Ext := list nat) :=
  {| MaxRetries := 3;
     OnRetryHook := Some (fun n _ w => {| messages := messages w; ended := ended w; scope := scope w;
                                          ext := if n =? 1 then ext w else [9%nat] |});
     NextBackOff := fun n => n; interrupted := fun _ _ => false |}.

Lemma retry_outcome_witness :
  (exists res w', Retry_Middleware sample_retry (flaky [1%nat]) 0%nat sample_world = (res, w') /\
     retried sample_retry (flaky [1%nat]) 0%nat sample_world res w') /\
  fst (Retry_Middleware sample_retry (flaky [1%nat]) 0%nat sample_world) = Ok ([1%nat], None).
Proof.
  split; [|by vm_compute]. apply (retry_outcome sample_retry (flaky [1%nat]) 0%nat sample_world).
  - intros n w Hw. split; [done|]. intros id m Hm; by exists m.
  - intros msg w Hw. unfold flaky. destruct (ext w); (split; [done|]); intros id m Hm; by exists m.
  - apply sample_world_ok.
  - by eexists.
Defined.
