(* ===== verification/WmGoChannel.v ===== *)
(** The in-process Pub/Sub of common/infra/watermill/pubsub/gochannel/pubsub.go, with the goroutines that share it.

    A goroutine is a thread with a program counter ([pc]) at every point where it waits or touches what others
    touch; [exec] is one step of a thread, which may block, panic, or go on and start threads.  What the Go
    runtime and the environment decide (the branch of a [select], the choice of [rand.Shuffle], the
    identifier of a delivery) is the argument [choice].  Subscribers, messages and deliveries (the copies that are
    sent) are numbered in the order in which they are made.

    Locks that are taken together are taken in one step, and what a thread does under [subscribersLock] without
    waiting is one step.  A goroutine of [sendMessage] keeps the groups it was started with.  A mutex holds the number of its owner, which Go does not store; so does the
    subscriber for the goroutine that closes it. *)
From stdpp Require Import base list strings numbers option gmap.
From S2P Require Import Prelude.
From S2P Require Import WmMessage.

Record Config := {
  OutputChannelBuffer : nat;
  Persistent : bool;
  BlockPublishUntilSubscriberAck : bool;
  ConsumerGroup : gostring;
  AppID : gostring;
}.

Record subscriber := {
  output : list nat;        (* the deliveries in [outputChannel] *)
  out_closed : bool;        (* [outputChannel] is closed *)
  closed : bool;
  closing : signal;
  sending : option nat;     (* the owner of the mutex [sending] *)
  ctx_done : bool;          (* the context of the subscription ended *)
  closer : nat;             (* the goroutine that closes the subscriber *)
}.

(** One copy of a message for a subscriber, and whether the consumer took it out of the channel. *)
Record delivery := { d_sub : nat; d_msg : nat; d_copy : Message; d_received : bool }.

Record GoChannel := {
  config : Config;
  subscribers : gmap gostring (gmap gostring (list nat));   (* by topic and group *)
  subs : list subscriber;
  msgs : list Message;                                      (* the messages to publish *)
  deliveries : list delivery;
  g_closed : bool;
  g_closing : signal;
  closedLock : bool;                                        (* [closedLock] is held by [Close] while it waits *)
  persistedMessages : option (gmap gostring (list nat));
  subscribersWg : nat;
  readers : nat;                                            (* [subscribersLock] *)
  writer : option nat;
  topicLocks : gset gostring;                               (* [subscribersByTopicLock] *)
}.

Definition NewGoChannel (c : Config) : GoChannel :=
  {| config := c; subscribers := ∅; subs := []; msgs := []; deliveries := []; g_closed := false; g_closing := open_chan;
     closedLock := false; persistedMessages := Some ∅; subscribersWg := 0; readers := 0; writer := None; topicLocks := ∅ |}.

(** ** Updates *)

Definition set_subscribers g x : GoChannel :=
  {| config := config g; subscribers := x; subs := subs g; msgs := msgs g; deliveries := deliveries g; g_closed := g_closed g;
     g_closing := g_closing g; closedLock := closedLock g; persistedMessages := persistedMessages g;
     subscribersWg := subscribersWg g; readers := readers g; writer := writer g; topicLocks := topicLocks g |}.
Definition set_subs g x : GoChannel :=
  {| config := config g; subscribers := subscribers g; subs := x; msgs := msgs g; deliveries := deliveries g; g_closed := g_closed g;
     g_closing := g_closing g; closedLock := closedLock g; persistedMessages := persistedMessages g;
     subscribersWg := subscribersWg g; readers := readers g; writer := writer g; topicLocks := topicLocks g |}.
Definition set_msgs g x : GoChannel :=
  {| config := config g; subscribers := subscribers g; subs := subs g; msgs := x; deliveries := deliveries g; g_closed := g_closed g;
     g_closing := g_closing g; closedLock := closedLock g; persistedMessages := persistedMessages g;
     subscribersWg := subscribersWg g; readers := readers g; writer := writer g; topicLocks := topicLocks g |}.
Definition set_deliveries g x : GoChannel :=
  {| config := config g; subscribers := subscribers g; subs := subs g; msgs := msgs g; deliveries := x; g_closed := g_closed g;
     g_closing := g_closing g; closedLock := closedLock g; persistedMessages := persistedMessages g;
     subscribersWg := subscribersWg g; readers := readers g; writer := writer g; topicLocks := topicLocks g |}.
Definition set_closed g c cl l p : GoChannel :=
  {| config := config g; subscribers := subscribers g; subs := subs g; msgs := msgs g; deliveries := deliveries g; g_closed := c;
     g_closing := cl; closedLock := l; persistedMessages := p;
     subscribersWg := subscribersWg g; readers := readers g; writer := writer g; topicLocks := topicLocks g |}.
Definition set_wg g n : GoChannel :=
  {| config := config g; subscribers := subscribers g; subs := subs g; msgs := msgs g; deliveries := deliveries g; g_closed := g_closed g;
     g_closing := g_closing g; closedLock := closedLock g; persistedMessages := persistedMessages g;
     subscribersWg := n; readers := readers g; writer := writer g; topicLocks := topicLocks g |}.
Definition set_locks g r w t : GoChannel :=
  {| config := config g; subscribers := subscribers g; subs := subs g; msgs := msgs g; deliveries := deliveries g; g_closed := g_closed g;
     g_closing := g_closing g; closedLock := closedLock g; persistedMessages := persistedMessages g;
     subscribersWg := subscribersWg g; readers := r; writer := w; topicLocks := t |}.

Definition set_output s x : subscriber :=
  {| output := x; out_closed := out_closed s; closed := closed s; closing := closing s; sending := sending s;
     ctx_done := ctx_done s; closer := closer s |}.
Definition set_sending s x : subscriber :=
  {| output := output s; out_closed := out_closed s; closed := closed s; closing := closing s; sending := x;
     ctx_done := ctx_done s; closer := closer s |}.
Definition set_closing s x : subscriber :=
  {| output := output s; out_closed := out_closed s; closed := closed s; closing := x; sending := sending s;
     ctx_done := ctx_done s; closer := closer s |}.
Definition close_output s : subscriber :=
  {| output := output s; out_closed := true; closed := true; closing := closing s; sending := sending s;
     ctx_done := ctx_done s; closer := closer s |}.
Definition end_ctx s : subscriber :=
  {| output := output s; out_closed := out_closed s; closed := closed s; closing := closing s; sending := sending s;
     ctx_done := true; closer := closer s |}.

Definition upd_sub g s (f : subscriber -> subscriber) : GoChannel := set_subs g (alter f s (subs g)).

Definition mark_received (d : delivery) : delivery :=
  {| d_sub := d_sub d; d_msg := d_msg d; d_copy := d_copy d; d_received := true |}.
Definition set_copy (d : delivery) (m : Message) : delivery :=
  {| d_sub := d_sub d; d_msg := d_msg d; d_copy := m; d_received := d_received d |}.

(** ** The map of subscribers *)

Definition addSubscriber (g : GoChannel) (topic group : gostring) (s : nat) : GoChannel :=
  let groups := default ∅ (subscribers g !! topic) in
  set_subscribers g (<[topic := <[group := default [] (groups !! group) ++ [s]]> groups]> (subscribers g)).

(** The first index of a subscriber in a group. *)
Fixpoint index_of (s : nat) (l : list nat) : option nat :=
  match l with
  | [] => None
  | x :: l => if Nat.eqb x s then Some O else S <$> index_of s l
  end.

(** [removeSubscriber]: the loop over the groups of the topic; what is found in any group is removed from [group]. *)
Fixpoint remove_loop (keys : list gostring) (group : gostring) (s : nat) (groups : gmap gostring (list nat)) (removed : bool) :
    outcome Empty_set (gmap gostring (list nat) * bool) :=
  match keys with
  | [] => Ok (groups, removed)
  | k :: keys =>
      match index_of s (default [] (groups !! k)) with
      | None => remove_loop keys group s groups removed
      | Some i =>
          let l := default [] (groups !! group) in
          if (S i <=? length l)%nat then remove_loop keys group s (<[group := take i l ++ drop (S i) l]> groups) true
          else Panic (str "slice bounds out of range")
      end
  end.

Definition removeSubscriber (g : GoChannel) (topic group : gostring) (s : nat) : outcome Empty_set GoChannel :=
  let groups := default ∅ (subscribers g !! topic) in
  ' (groups', removed) ⇐ remove_loop (map fst (map_to_list groups)) group s groups false;
  if removed then Ok (set_subscribers g (<[topic := groups']> (subscribers g)))
  else Panic (str "cannot remove subscriber, not found").

(** [topicSubscribers]: the groups of a topic, copied. *)
Definition topicSubscribers (g : GoChannel) (topic : gostring) : list (gostring * list nat) :=
  map_to_list (default ∅ (subscribers g !! topic)).

(** ** Goroutines *)

Inductive pc :=
  (* Publish *)
  | PubStart (topic : gostring) (ms : list Message)
  | PubLocks (topic : gostring) (ids : list nat)
  | PubLoop (topic : gostring) (ids : list nat)
  | PubWait (topic : gostring) (fan m : nat) (ids : list nat)
  | PubEnd (ok : bool)
  (* the goroutine of sendMessage *)
  | Fan (m : nat) (groups : list (gostring * list nat))
  | FanWait (m : nat) (groups : list (gostring * list nat)) (senders : list nat)
  | FanEnd (m : nat) (groups : list (gostring * list nat)) (senders : list nat)
  (* sendMessageToSubscriber *)
  | SendLock (m s : nat)
  | SendLoop (m s : nat)
  | SendOffer (m s d : nat)
  | SendAck (m s d : nat)
  | SendEnd (m s : nat)
  (* Subscribe, and its goroutine that sends persisted messages *)
  | SubStart (topic : gostring)
  | SubLocks (topic : gostring)
  | SubEnd (s : option nat)
  | Replay (topic : gostring) (s : nat)
  | ReplayEnd
  (* the goroutine of Subscribe that closes the subscriber *)
  | CloserWait (topic : gostring) (s : nat)
  | CloserSignal (topic : gostring) (s : nat)
  | CloserOutput (topic : gostring) (s : nat)
  | CloserRemove (topic : gostring) (s : nat)
  | CloserEnd (topic : gostring) (s : nat)
  (* Close *)
  | CloseStart
  | CloseWait
  | CloseEnd.

Inductive result :=
  | Blocked
  | Panics (msg : gostring)
  | Goes (t : pc) (started : list pc) (g : GoChannel).

Record choice := { branch : nat; rawMessageID : gostring }.

Definition lift_out {A : Type} (o : outcome Empty_set A) (k : A -> result) : result :=
  match o with
  | Ok a => k a
  | Err e => match e with end
  | Panic msg => Panics msg
  | OutOfFuel => Blocked
  end.

(** ** Publish *)

(** [isClosed], and the copies. *)
Definition pub_start (g : GoChannel) (topic : gostring) (ms : list Message) : result :=
  if closedLock g then Blocked
  else if g_closed g then Goes (PubEnd false) [] g
  else
    lift_out (foldr (fun m acc => acc ⇐ acc; m ⇐ Copy m; Ok (m :: acc)) (Ok []) ms) (fun ms =>
      Goes (PubLocks topic (seq (length (msgs g)) (length ms))) [] (set_msgs g (msgs g ++ ms))).

(** The locks are free for a writer of a topic, or for a reader. *)
Definition can_write (g : GoChannel) (topic : gostring) : bool :=
  bool_decide (writer g = None) && Nat.eqb (readers g) 0 && bool_decide (topic ∉ topicLocks g).
Definition can_read (g : GoChannel) (topic : gostring) : bool :=
  bool_decide (writer g = None) && bool_decide (topic ∉ topicLocks g).

(** The locks, and the persisted messages. *)
Definition persist (g : GoChannel) (topic : gostring) (ids : list nat) : outcome Empty_set GoChannel :=
  if Persistent (config g) then
    match persistedMessages g with
    | Some p => Ok (set_closed g (g_closed g) (g_closing g) (closedLock g) (Some (<[topic := default [] (p !! topic) ++ ids]> p)))
    | None => Panic (str "assignment to entry in nil map")
    end
  else Ok g.

Definition pub_locks (g : GoChannel) (topic : gostring) (ids : list nat) : result :=
  if can_read g topic then
    lift_out (persist g topic ids) (fun g =>
      Goes (PubLoop topic ids) [] (set_locks g (S (readers g)) (writer g) ({[topic]} ∪ topicLocks g)))
  else Blocked.

(** [sendMessage] for the next message, or the return; [n] is the number of the next thread. *)
Definition pub_loop (n : nat) (g : GoChannel) (topic : gostring) (ids : list nat) : result :=
  match ids with
  | [] => Goes (PubEnd true) [] (set_locks g (readers g - 1) (writer g) (topicLocks g ∖ {[topic]}))
  | m :: ids =>
      match topicSubscribers g topic with
      | [] => Goes (PubLoop topic ids) [] g
      | groups =>
          Goes (if BlockPublishUntilSubscriberAck (config g) then PubWait topic n m ids else PubLoop topic ids) [Fan m groups] g
      end
  end.

(** [waitForAckFromSubscribers]. *)
Definition pub_wait (ts : list pc) (g : GoChannel) (topic : gostring) (fan : nat) (ids : list nat) : result :=
  match ts !! fan, g_closing g with
  | Some (FanEnd _ _ _), _ => Goes (PubLoop topic ids) [] g
  | _, closed_chan => Goes (PubLoop topic ids) [] g
  | _, _ => Blocked
  end.

(** The goroutine of [sendMessage]: a sender for every subscriber of the group without a name, and for a subscriber of
    every other group; [pick] is what [rand.Shuffle] puts in front. *)
Fixpoint fan_senders (pick m : nat) (groups : list (gostring * list nat)) : outcome Empty_set (list pc) :=
  match groups with
  | [] => Ok []
  | (k, l) :: groups =>
      if k =s [] then rest ⇐ fan_senders pick m groups; Ok (map (SendLock m) l ++ rest)
      else
        match l !! (pick mod length l)%nat with
        | Some s => rest ⇐ fan_senders pick m groups; Ok (SendLock m s :: rest)
        | None => Panic (str "index out of range [0] with length 0")
        end
  end.

Definition fan_start (n : nat) (c : choice) (g : GoChannel) (m : nat) (groups : list (gostring * list nat)) : result :=
  lift_out (fan_senders (branch c) m groups) (fun senders => Goes (FanWait m groups (seq n (length senders))) senders g).

Definition send_done (t : pc) : bool := match t with SendEnd _ _ => true | _ => false end.

Definition fan_wait (ts : list pc) (g : GoChannel) (m : nat) (groups : list (gostring * list nat)) (senders : list nat) : result :=
  if forallb (fun i => from_option send_done false (ts !! i)) senders then Goes (FanEnd m groups senders) [] g else Blocked.

(** ** sendMessageToSubscriber *)

Definition ContextKeyMessageUUID : gostring := str "watermill:message_uuid".
Definition ContextKeyRawMessageID : gostring := str "watermill:raw_message_id".
Definition MessageHeaderAppID : gostring := str "appid".

(** The entries that a sender writes into the message it shares with the other senders. *)
Definition stamp (g : GoChannel) (raw : gostring) (m : Message) : outcome Empty_set Message :=
  md ⇐ Set_ (metadata m) ContextKeyMessageUUID (UUID m);
  md ⇐ Set_ md ContextKeyRawMessageID raw;
  md ⇐ Set_ md MessageHeaderAppID (AppID (config g));
  Ok (with_metadata m md).

Definition send_lock (i : nat) (c : choice) (g : GoChannel) (m s : nat) : result :=
  match subs g !! s, msgs g !! m with
  | Some sub, Some msg =>
      match sending sub with
      | Some _ => Blocked
      | None =>
          lift_out (stamp g (rawMessageID c) msg) (fun msg =>
            Goes (SendLoop m s) [] (upd_sub (set_msgs g (<[m := msg]> (msgs g))) s (fun sub => set_sending sub (Some i))))
      end
  | _, _ => Panics (str "nil pointer dereference")
  end.

(** The return of a sender. *)
Definition send_end (g : GoChannel) (m s : nat) : result :=
  Goes (SendEnd m s) [] (upd_sub g s (fun sub => set_sending sub None)).

Definition send_loop (g : GoChannel) (m s : nat) : result :=
  match subs g !! s, msgs g !! m with
  | Some sub, Some msg =>
      lift_out (Copy msg) (fun msgToSend =>
        if closed sub then send_end g m s
        else Goes (SendOffer m s (length (deliveries g))) []
               (set_deliveries g (deliveries g ++ [{| d_sub := s; d_msg := m; d_copy := msgToSend; d_received := false |}])))
  | _, _ => Panics (str "nil pointer dereference")
  end.

(** The first [select]: into the buffer, into the hands of a receiver that waits, or not at all. *)
Definition send_offer (c : choice) (g : GoChannel) (m s d : nat) : result :=
  match subs g !! s with
  | None => Panics (str "nil pointer dereference")
  | Some sub =>
      match branch c with
      | 0%nat =>
          if out_closed sub then Panics (str "send on closed channel")
          else if (length (output sub) <? OutputChannelBuffer (config g))%nat then
            Goes (SendAck m s d) [] (upd_sub g s (fun sub => set_output sub (output sub ++ [d])))
          else Blocked
      | 1%nat =>
          if out_closed sub then Panics (str "send on closed channel")
          else match output sub with
          | [] => Goes (SendAck m s d) [] (set_deliveries g (alter mark_received d (deliveries g)))
          | _ => Blocked
          end
      | _ => match closing sub with closed_chan => send_end g m s | _ => Blocked end
      end
  end.

(** The second [select]. *)
Definition send_ack_wait (c : choice) (g : GoChannel) (m s d : nat) : result :=
  match subs g !! s, deliveries g !! d with
  | Some sub, Some dl =>
      match branch c with
      | 0%nat => match Acked (d_copy dl) with closed_chan => send_end g m s | _ => Blocked end
      | 1%nat => match Nacked (d_copy dl) with closed_chan => Goes (SendLoop m s) [] g | _ => Blocked end
      | _ => match closing sub with closed_chan => send_end g m s | _ => Blocked end
      end
  | _, _ => Panics (str "nil pointer dereference")
  end.

(** ** Subscribe *)

Definition sub_start (g : GoChannel) (topic : gostring) : result :=
  if closedLock g then Blocked
  else if g_closed g then Goes (SubEnd None) [] g
  else Goes (SubLocks topic) [] (set_wg g (S (subscribersWg g))).

Definition new_subscriber (n : nat) : subscriber :=
  {| output := []; out_closed := false; closed := false; closing := open_chan; sending := None; ctx_done := false; closer := n |}.

Definition sub_locks (n : nat) (g : GoChannel) (topic : gostring) : result :=
  if can_write g topic then
    let s := length (subs g) in
    let g := set_subs g (subs g ++ [new_subscriber n]) in
    if Persistent (config g) then
      Goes (SubEnd (Some s)) [CloserWait topic s; Replay topic s] (set_locks g (readers g) (Some (S n)) ({[topic]} ∪ topicLocks g))
    else Goes (SubEnd (Some s)) [CloserWait topic s] (addSubscriber g topic (ConsumerGroup (config g)) s)
  else Blocked.

(** The goroutine for persisted messages, which holds the locks. *)
Definition replay (g : GoChannel) (topic : gostring) (s : nat) : result :=
  let messages := persistedMessages g ≫= fun p => p !! topic in
  let senders := if ConsumerGroup (config g) =s [] then map (fun m => SendLock m s) (default [] messages) else [] in
  let g := addSubscriber g topic (ConsumerGroup (config g)) s in
  Goes ReplayEnd senders (set_locks g (readers g) None (topicLocks g ∖ {[topic]})).

(** The goroutine that waits for the end of the context or of the Pub/Sub. *)
Definition closer_wait (g : GoChannel) (topic : gostring) (s : nat) : result :=
  match subs g !! s with
  | Some sub => if ctx_done sub || bool_decide (g_closing g = closed_chan) then Goes (CloserSignal topic s) [] g else Blocked
  | None => Panics (str "nil pointer dereference")
  end.

(** [subscriber.Close], up to the lock and under the lock. *)
Definition closer_signal (g : GoChannel) (topic : gostring) (s : nat) : result :=
  match subs g !! s with
  | Some sub =>
      if closed sub then Goes (CloserRemove topic s) [] g
      else lift_out (close_signal (closing sub)) (fun c => Goes (CloserOutput topic s) [] (upd_sub g s (fun sub => set_closing sub c)))
  | None => Panics (str "nil pointer dereference")
  end.

Definition closer_output (g : GoChannel) (topic : gostring) (s : nat) : result :=
  match subs g !! s with
  | Some sub =>
      match sending sub with
      | Some _ => Blocked
      | None =>
          if out_closed sub then Panics (str "close of closed channel")
          else Goes (CloserRemove topic s) [] (upd_sub g s close_output)
      end
  | None => Panics (str "nil pointer dereference")
  end.

Definition closer_remove (g : GoChannel) (topic : gostring) (s : nat) : result :=
  if can_write g topic then
    lift_out (removeSubscriber g topic (ConsumerGroup (config g)) s) (fun g =>
      match subscribersWg g with
      | O => Panics (str "sync: negative WaitGroup counter")
      | S n => Goes (CloserEnd topic s) [] (set_wg g n)
      end)
  else Blocked.

(** ** Close *)

Definition close_start (g : GoChannel) : result :=
  if closedLock g then Blocked
  else if g_closed g then Goes CloseEnd [] g
  else lift_out (close_signal (g_closing g)) (fun c => Goes CloseWait [] (set_closed g true c true (persistedMessages g))).

Definition close_wait (g : GoChannel) : result :=
  if Nat.eqb (subscribersWg g) 0 then Goes CloseEnd [] (set_closed g (g_closed g) (g_closing g) false None) else Blocked.

(** ** One step of thread [i] *)

Definition exec (ts : list pc) (i : nat) (c : choice) (g : GoChannel) (t : pc) : result :=
  match t with
  | PubStart topic ms => pub_start g topic ms
  | PubLocks topic ids => pub_locks g topic ids
  | PubLoop topic ids => pub_loop (length ts) g topic ids
  | PubWait topic fan _ ids => pub_wait ts g topic fan ids
  | Fan m groups => fan_start (length ts) c g m groups
  | FanWait m groups senders => fan_wait ts g m groups senders
  | SendLock m s => send_lock i c g m s
  | SendLoop m s => send_loop g m s
  | SendOffer m s d => send_offer c g m s d
  | SendAck m s d => send_ack_wait c g m s d
  | SubStart topic => sub_start g topic
  | SubLocks topic => sub_locks (length ts) g topic
  | Replay topic s => replay g topic s
  | CloserWait topic s => closer_wait g topic s
  | CloserSignal topic s => closer_signal g topic s
  | CloserOutput topic s => closer_output g topic s
  | CloserRemove topic s => closer_remove g topic s
  | CloseStart => close_start g
  | CloseWait => close_wait g
  | PubEnd _ | FanEnd _ _ _ | SendEnd _ _ | SubEnd _ | ReplayEnd | CloserEnd _ _ | CloseEnd => Blocked
  end.

(** ** The whole system *)

Record system := { chan : GoChannel; threads : list pc }.

(** The calls that a user can make. *)
Definition call (t : pc) : bool :=
  match t with PubStart _ _ | SubStart _ | CloseStart => true | _ => false end.

(** A step: a thread runs, a call is made, a context ends, a consumer takes the next message of its
    channel, or acknowledges a message it has. *)
Inductive gstep : system -> system -> Prop :=
  | gs_run g ts i c t t' started g' :
      ts !! i = Some t -> exec ts i c g t = Goes t' started g' ->
      gstep {| chan := g; threads := ts |} {| chan := g'; threads := <[i := t']> ts ++ started |}
  | gs_call g ts t : call t = true -> gstep {| chan := g; threads := ts |} {| chan := g; threads := ts ++ [t] |}
  | gs_ctx g ts s : gstep {| chan := g; threads := ts |} {| chan := upd_sub g s end_ctx; threads := ts |}
  | gs_receive g ts s sub d rest :
      subs g !! s = Some sub -> output sub = d :: rest ->
      gstep {| chan := g; threads := ts |}
        {| chan := set_deliveries (upd_sub g s (fun sub => set_output sub rest)) (alter mark_received d (deliveries g)); threads := ts |}
  | gs_ack g ts d dl b m :
      deliveries g !! d = Some dl -> d_received dl = true -> Ack (E := Empty_set) (d_copy dl) = Ok (b, m) ->
      gstep {| chan := g; threads := ts |} {| chan := set_deliveries g (<[d := set_copy dl m]> (deliveries g)); threads := ts |}
  | gs_nack g ts d dl b m :
      deliveries g !! d = Some dl -> d_received dl = true -> Nack (E := Empty_set) (d_copy dl) = Ok (b, m) ->
      gstep {| chan := g; threads := ts |} {| chan := set_deliveries g (<[d := set_copy dl m]> (deliveries g)); threads := ts |}.

Definition reachable (c : Config) (x : system) : Prop := rtc gstep {| chan := NewGoChannel c; threads := [] |} x.

(** A thread can panic. *)
Definition panics (x : system) : Prop :=
  exists i c t msg, threads x !! i = Some t /\ exec (threads x) i c (chan x) t = Panics msg.
