(* ===== verification/WmGoChannelSpec.v ===== *)
(** Theorems about the in-process Pub/Sub: which panics are possible, that a subscriber is handed one message at a
    time until it acknowledges, that a publisher that waits has its message acknowledged, and that a
    consumer group whose members left makes a publisher panic. *)
From stdpp Require Import base list strings numbers option gmap.
From S2P Require Import Prelude.
From S2P Require Import WmMessage.
From S2P Require Import WmGoChannel.

Implicit Types (g : GoChannel) (i j s d : nat) (t : pc) (topic : gostring) (l : list nat) (sub : subscriber) (c : choice).

(** ** The invariant of one thread and of the data *)

(** The subscriber that a thread closes. *)
Definition closer_of (t : pc) : option (gostring * nat) :=
  match t with
  | CloserWait topic s | CloserSignal topic s | CloserOutput topic s | CloserRemove topic s | CloserEnd topic s => Some (topic, s)
  | _ => None
  end.

(** What the closing of a subscriber has done at a point of its goroutine. *)
Definition closer_flags (t : pc) (sub : subscriber) : Prop :=
  match t with
  | CloserOutput _ _ => closing sub = closed_chan /\ closed sub = false
  | CloserRemove _ _ | CloserEnd _ _ => closing sub = closed_chan /\ closed sub = true
  | _ => closing sub = open_chan /\ closed sub = false
  end.

Definition msg_ids (g : GoChannel) (ids : list nat) : Prop := Forall (fun m => (m < length (msgs g))%nat) ids.
Definition sub_ids (g : GoChannel) (l : list nat) : Prop := Forall (fun s => (s < length (subs g))%nat) l.

Definition holds_sending (g : GoChannel) (i s : nat) (P : subscriber -> Prop) : Prop :=
  exists sub, subs g !! s = Some sub /\ sending sub = Some i /\ P sub.

Definition delivery_of (g : GoChannel) (m s d : nat) : Prop :=
  exists dl, deliveries g !! d = Some dl /\ d_sub dl = s /\ d_msg dl = m.

Definition thread_ok (g : GoChannel) (i : nat) (t : pc) : Prop :=
  match t with
  | PubLocks _ ids | PubLoop _ ids | PubWait _ _ _ ids => msg_ids g ids
  | Fan m groups => msg_ids g [m] /\ Forall (fun kl => fst kl = ConsumerGroup (config g) /\ sub_ids g (snd kl)) groups
  | SendLock m s => msg_ids g [m] /\ sub_ids g [s]
  | SendLoop m s => msg_ids g [m] /\ holds_sending g i s (fun _ => True)
  | SendOffer m s d => msg_ids g [m] /\ holds_sending g i s (fun sub => closed sub = false) /\ delivery_of g m s d
  | SendAck m s d => msg_ids g [m] /\ holds_sending g i s (fun _ => True) /\ delivery_of g m s d
  | Replay _ s => sub_ids g [s] /\ writer g = Some i
  | _ => match closer_of t with
         | Some (_, s) => exists sub, subs g !! s = Some sub /\ closer sub = i /\ closer_flags t sub
         | None => True
         end
  end.

(** The data at rest. *)
Record g_ok (g : GoChannel) : Prop := {
  ok_msgs : Forall (fun m => is_Some (metadata m)) (msgs g);
  ok_subs : Forall (fun sub => out_closed sub = closed sub /\ (closed sub = true -> closing sub = closed_chan)) (subs g);
  ok_closing : g_closing g = if g_closed g then closed_chan else open_chan;
  ok_persisted : forall p topic ids, persistedMessages g = Some p -> p !! topic = Some ids -> msg_ids g ids;
  ok_groups : forall topic groups k l, subscribers g !! topic = Some groups -> groups !! k = Some l ->
                k = ConsumerGroup (config g) /\ sub_ids g l;
  ok_copies : Forall (fun dl => wf_message (d_copy dl)) (deliveries g);
}.

(** What a step of thread [i] leaves to the other threads. *)
Record sub_le (i : nat) (sub sub' : subscriber) : Prop := {
  le_sending : forall j, j <> i -> sending sub = Some j -> sending sub' = Some j /\ closed sub' = closed sub;
  le_closer : closer sub' = closer sub;
  le_flags : closer sub <> i -> closing sub' = closing sub /\ closed sub' = closed sub;
}.

Record g_le (i : nat) (g g' : GoChannel) : Prop := {
  le_config : config g' = config g;
  le_subs : forall s sub, subs g !! s = Some sub -> exists sub', subs g' !! s = Some sub' /\ sub_le i sub sub';
  le_msgs : (length (msgs g) <= length (msgs g'))%nat;
  le_deliveries : forall d dl, deliveries g !! d = Some dl ->
    exists dl', deliveries g' !! d = Some dl' /\ d_sub dl' = d_sub dl /\ d_msg dl' = d_msg dl;
  le_writer : forall j, j <> i -> writer g = Some j -> writer g' = Some j;
}.

Lemma sub_le_refl i sub : sub_le i sub sub.
Proof. by split. Qed.

Lemma g_le_refl i g : g_le i g g.
Proof. split; try done; eauto using sub_le_refl. Qed.

Lemma g_le_length i g g' : g_le i g g' -> (length (subs g) <= length (subs g'))%nat.
Proof.
  intros H. destruct (length (subs g)) as [|n] eqn:Hn; [lia|].
  destruct (lookup_lt_is_Some_2 (subs g) n ltac:(lia)) as [sub Hs]. destruct (le_subs _ _ _ H n sub Hs) as (sub' & Hs' & _).
  apply lookup_lt_Some in Hs'. lia.
Qed.

Lemma msg_ids_mono i g g' ids : g_le i g g' -> msg_ids g ids -> msg_ids g' ids.
Proof. intros H Hids. eapply Forall_impl; [exact Hids|]. intros m Hm. pose proof (le_msgs _ _ _ H). cbn in *. lia. Qed.

Lemma sub_ids_mono i g g' l : g_le i g g' -> sub_ids g l -> sub_ids g' l.
Proof. intros H Hl. eapply Forall_impl; [exact Hl|]. intros m Hm. pose proof (g_le_length _ _ _ H). cbn in *. lia. Qed.

Lemma delivery_of_mono i g g' m s d : g_le i g g' -> delivery_of g m s d -> delivery_of g' m s d.
Proof.
  intros H (dl & Hd & <- & <-). destruct (le_deliveries _ _ _ H d dl Hd) as (dl' & ? & ? & ?). by exists dl'.
Qed.

Lemma holds_sending_mono i j g g' s (P : subscriber -> Prop) :
  g_le i g g' -> j <> i -> (forall sub sub', closed sub' = closed sub -> P sub -> P sub') ->
  holds_sending g j s P -> holds_sending g' j s P.
Proof.
  intros H Hne HP (sub & Hs & Hj & Hsub). destruct (le_subs _ _ _ H s sub Hs) as (sub' & Hs' & Hle).
  destruct (le_sending _ _ _ Hle j Hne Hj) as [? Hc]. exists sub'. split; [done|]. split; [done|]. by eapply HP.
Qed.

Lemma closer_flags_same t sub sub' :
  closing sub' = closing sub -> closed sub' = closed sub -> closer_flags t sub -> closer_flags t sub'.
Proof. intros H1 H2. unfold closer_flags. rewrite H1, H2. by destruct t. Qed.

(** A step of a thread leaves the invariant of the other threads. *)
Lemma thread_ok_mono i j g g' t : g_le i g g' -> j <> i -> thread_ok g j t -> thread_ok g' j t.
Proof.
  intros Hle Hne. assert (forall topic s, (exists sub, subs g !! s = Some sub /\ closer sub = j /\ closer_flags (t) sub) ->
    closer_of t = Some (topic, s) -> exists sub, subs g' !! s = Some sub /\ closer sub = j /\ closer_flags t sub) as Hcl.
  { intros topic s (sub & Hs & Hj & Hfl) _. destruct (le_subs _ _ _ Hle s sub Hs) as (sub' & Hs' & Hsub).
    exists sub'. split; [done|]. split; [by rewrite (le_closer _ _ _ Hsub)|].
    destruct (le_flags _ _ _ Hsub) as [H1 H2]; [congruence|]. by eapply closer_flags_same. }
  destruct t; cbn [thread_ok closer_of] in *; try done;
    try (by eapply msg_ids_mono); try (intros H; by eapply Hcl).
  - intros [H1 H2]. split; [by eapply msg_ids_mono|]. eapply Forall_impl; [exact H2|]. intros kl [? ?].
    split; [by rewrite (le_config _ _ _ Hle)|by eapply sub_ids_mono].
  - intros [H1 H2]. split; [by eapply msg_ids_mono|by eapply sub_ids_mono].
  - intros [H1 H2]. split; [by eapply msg_ids_mono|by eapply holds_sending_mono].
  - intros (H1 & H2 & H3). split; [by eapply msg_ids_mono|]. split; [|by eapply delivery_of_mono].
    eapply holds_sending_mono; [done..| |done]. intros ? ? ->. done.
  - intros (H1 & H2 & H3). split; [by eapply msg_ids_mono|]. split; [by eapply holds_sending_mono|by eapply delivery_of_mono].
  - intros [H1 H2]. split; [by eapply sub_ids_mono|]. by eapply le_writer.
Qed.

(** ** Updates of the data *)

Lemma sub_le_trans i sub1 sub2 sub3 : sub_le i sub1 sub2 -> sub_le i sub2 sub3 -> sub_le i sub1 sub3.
Proof.
  intros [A1 B1 C1] [A2 B2 C2]. split.
  - intros j Hj Hs. destruct (A1 j Hj Hs) as [H1 H2]. destruct (A2 j Hj H1). split; [done|congruence].
  - congruence.
  - intros Hc. destruct (C1 Hc). destruct C2; [congruence|]. split; congruence.
Qed.

Lemma g_le_trans i g1 g2 g3 : g_le i g1 g2 -> g_le i g2 g3 -> g_le i g1 g3.
Proof.
  intros H1 H2. split.
  - etrans; apply le_config with i; done.
  - intros s sub Hs. destruct (le_subs _ _ _ H1 s sub Hs) as (sub2 & Hs2 & ?). destruct (le_subs _ _ _ H2 s sub2 Hs2) as (sub3 & Hs3 & ?).
    exists sub3. split; [done|]. by eapply sub_le_trans.
  - pose proof (le_msgs _ _ _ H1). pose proof (le_msgs _ _ _ H2). lia.
  - intros d dl Hd. destruct (le_deliveries _ _ _ H1 d dl Hd) as (dl2 & Hd2 & <- & <-).
    destruct (le_deliveries _ _ _ H2 d dl2 Hd2) as (dl3 & Hd3 & <- & <-). by exists dl3.
  - intros j Hj Hw. by eapply le_writer, le_writer.
Qed.

(** An update of one subscriber. *)
Lemma upd_sub_ok i g s f :
  g_ok g ->
  (forall sub, subs g !! s = Some sub -> out_closed sub = closed sub /\ (closed sub = true -> closing sub = closed_chan) ->
     sub_le i sub (f sub) /\ out_closed (f sub) = closed (f sub) /\ (closed (f sub) = true -> closing (f sub) = closed_chan)) ->
  g_le i g (upd_sub g s f) /\ g_ok (upd_sub g s f).
Proof.
  intros Hg Hf. assert (length (subs (upd_sub g s f)) = length (subs g)) as Hlen by apply length_alter.
  pose proof (ok_subs _ Hg) as Hsubs. rewrite Forall_lookup in Hsubs. split.
  - split; cbn; try done; eauto.
    intros s' sub Hs'. destruct (decide (s' = s)) as [->|Hne].
    + exists (f sub). rewrite list_lookup_alter_eq, Hs'. split; [done|]. by destruct (Hf sub Hs' (Hsubs s sub Hs')).
    + exists sub. rewrite list_lookup_alter_ne by done. split; [done|]. apply sub_le_refl.
  - destruct Hg as [? _ ? ? Hgr ?]. split; try done.
    + apply Forall_lookup. intros s' sub' Hs'. cbn in Hs'. destruct (decide (s' = s)) as [->|Hne].
      * rewrite list_lookup_alter_eq in Hs'. destruct (subs g !! s) as [sub|] eqn:Hs; [|done]. injection Hs' as <-.
        by destruct (Hf sub eq_refl (Hsubs s sub Hs)) as (_ & ? & ?).
      * rewrite list_lookup_alter_ne in Hs' by done. by apply (Hsubs s' sub').
    + intros topic groups k l H1 H2. destruct (Hgr topic groups k l H1 H2) as [-> H]. split; [done|]. unfold sub_ids. by rewrite Hlen.
Qed.

Lemma set_msgs_ok i g ms :
  g_ok g -> (length (msgs g) <= length ms)%nat -> Forall (fun m => is_Some (metadata m)) ms ->
  g_le i g (set_msgs g ms) /\ g_ok (set_msgs g ms).
Proof.
  intros [? ? ? Hp ? ?] Hlen Hms. split; split; cbn; try done; eauto using sub_le_refl.
  intros p topic ids H1 H2. eapply Forall_impl; [exact (Hp p topic ids H1 H2)|]. cbn. lia.
Qed.

Lemma set_deliveries_ok i g ds :
  g_ok g -> (forall d dl, deliveries g !! d = Some dl -> exists dl', ds !! d = Some dl' /\ d_sub dl' = d_sub dl /\ d_msg dl' = d_msg dl) ->
  Forall (fun dl => wf_message (d_copy dl)) ds ->
  g_le i g (set_deliveries g ds) /\ g_ok (set_deliveries g ds).
Proof. intros [? ? ? ? ? ?] Hds Hwf. split; split; cbn; try done; eauto using sub_le_refl. Qed.

Lemma set_locks_ok i g r w ls :
  g_ok g -> (forall j, j <> i -> writer g = Some j -> w = Some j) -> g_le i g (set_locks g r w ls) /\ g_ok (set_locks g r w ls).
Proof. intros [? ? ? ? ? ?] Hw. split; split; cbn; try done; eauto using sub_le_refl. Qed.

Lemma set_wg_ok i g n : g_ok g -> g_le i g (set_wg g n) /\ g_ok (set_wg g n).
Proof. intros [? ? ? ? ? ?]. split; split; cbn; try done; eauto using sub_le_refl. Qed.

Lemma set_closed_ok i g (c : bool) (cl : signal) (l : bool) (p : option (gmap gostring (list nat))) :
  g_ok g -> cl = (if c then closed_chan else open_chan) ->
  (forall p', p = Some p' -> forall topic ids, p' !! topic = Some ids -> msg_ids g ids) ->
  g_le i g (set_closed g c cl l p) /\ g_ok (set_closed g c cl l p).
Proof. intros [? ? ? ? ? ?] Hc Hp. split; split; cbn; try done; eauto using sub_le_refl. Qed.

Lemma set_subscribers_ok i g (x : gmap gostring (gmap gostring (list nat))) :
  g_ok g ->
  (forall topic groups k l, x !! topic = Some groups -> groups !! k = Some l -> k = ConsumerGroup (config g) /\ sub_ids g l) ->
  g_le i g (set_subscribers g x) /\ g_ok (set_subscribers g x).
Proof. intros [? ? ? ? ? ?] Hx. split; split; cbn; try done; eauto using sub_le_refl. Qed.

Lemma addSubscriber_ok i g topic s :
  g_ok g -> sub_ids g [s] ->
  g_le i g (addSubscriber g topic (ConsumerGroup (config g)) s) /\ g_ok (addSubscriber g topic (ConsumerGroup (config g)) s).
Proof.
  intros Hg Hs. apply set_subscribers_ok; [done|]. intros topic' groups k l Htopic Hk.
  assert (forall k l, default ∅ (subscribers g !! topic) !! k = Some l -> k = ConsumerGroup (config g) /\ sub_ids g l) as Hold.
  { intros k' l' Hk'. destruct (subscribers g !! topic) as [gr|] eqn:Hgr; cbn in Hk'; [|by rewrite lookup_empty in Hk']. by eapply ok_groups. }
  apply lookup_insert_Some in Htopic as [[<- <-]|[? ?]]; [|by eapply ok_groups].
  apply lookup_insert_Some in Hk as [[<- <-]|[? ?]]; [|by apply Hold].
  split; [done|]. apply Forall_app. split; [|done].
  destruct (default ∅ (subscribers g !! topic) !! ConsumerGroup (config g)) as [l|] eqn:Hl; [by eapply Hold|]. constructor.
Qed.

(** ** Removing a subscriber *)

Lemma index_of_Some s l : s ∈ l -> exists i, index_of s l = Some i /\ l !! i = Some s.
Proof.
  induction l as [|x l IH]; [by intros ?%not_elem_of_nil|]. cbn. destruct (Nat.eqb_spec x s) as [->|Hne]; [by exists O|].
  intros [?|Hin]%elem_of_cons; [congruence|]. destruct (IH Hin) as (i & -> & Hi). by exists (S i).
Qed.

Lemma index_of_None s l : s ∉ l -> index_of s l = None.
Proof.
  induction l as [|x l IH]; [done|]. cbn. rewrite not_elem_of_cons. intros [Hne Hin]. destruct (Nat.eqb_spec x s); [congruence|].
  by rewrite IH.
Qed.

Lemma index_of_lookup s l i : index_of s l = Some i -> l !! i = Some s.
Proof.
  revert i. induction l as [|x l IH]; intros i; cbn; [done|]. destruct (Nat.eqb_spec x s) as [->|]; [by intros [= <-]|].
  destruct (index_of s l); [|done]. intros [= <-]. by apply IH.
Qed.

(** The members of a topic. *)
Definition members (g : GoChannel) (topic : gostring) : list nat :=
  default [] (default ∅ (subscribers g !! topic) !! ConsumerGroup (config g)).

(** With one group, removing a member takes its first occurrence out of that group. *)
Lemma removeSubscriber_member g topic s :
  g_ok g -> s ∈ members g topic ->
  exists i, members g topic !! i = Some s /\
    removeSubscriber g topic (ConsumerGroup (config g)) s =
    Ok (set_subscribers g (<[topic := {[ConsumerGroup (config g) := take i (members g topic) ++ drop (S i) (members g topic)]}]> (subscribers g))).
Proof.
  intros Hg Hs. destruct (index_of_Some s _ Hs) as (i & Hi & Hlook). exists i. split; [done|].
  unfold removeSubscriber. unfold members in *. set (grp := ConsumerGroup (config g)) in *.
  set (groups := default ∅ (subscribers g !! topic)) in *.
  assert (groups = {[grp := default [] (groups !! grp)]}) as Hsingle.
  { destruct (groups !! grp) as [l|] eqn:Hl; [|by apply not_elem_of_nil in Hs].
    apply map_eq. intros k. destruct (decide (k = grp)) as [->|Hne]; [by rewrite lookup_singleton_eq|].
    rewrite lookup_singleton_ne by done. destruct (groups !! k) as [l'|] eqn:Hk; [|done].
    unfold groups in Hk. destruct (subscribers g !! topic) as [gr|] eqn:Hgr; cbn in Hk; [|by rewrite lookup_empty in Hk].
    destruct (ok_groups _ Hg topic gr k l' Hgr Hk). done. }
  assert (map fst (map_to_list groups) = [grp]) as ->.
  { rewrite Hsingle, map_to_list_singleton. done. }
  unfold remove_loop. rewrite Hi. apply lookup_lt_Some in Hlook as Hlt.
  destruct (Nat.leb_spec (S i) (length (default [] (groups !! grp)))); [|lia]. cbn [out_bind].
  do 3 f_equal. generalize (take i (default [] (groups !! grp)) ++ drop (S i) (default [] (groups !! grp))). intros x.
  rewrite Hsingle. apply insert_singleton_eq.
Qed.

Lemma removeSubscriber_ok i g g' topic s :
  g_ok g -> s ∈ members g topic -> removeSubscriber g topic (ConsumerGroup (config g)) s = Ok g' ->
  g_le i g g' /\ g_ok g'.
Proof.
  intros Hg Hs. destruct (removeSubscriber_member g topic s Hg Hs) as (j & Hj & ->). intros [= <-].
  apply set_subscribers_ok; [done|]. intros topic' groups k l Htopic Hk.
  apply lookup_insert_Some in Htopic as [[<- <-]|[? ?]]; [|by eapply ok_groups].
  apply lookup_singleton_Some in Hk as [<- <-]. split; [done|].
  assert (sub_ids g (members g topic)) as Hm.
  { unfold members. destruct (subscribers g !! topic) as [gr|] eqn:Hgr; cbn; [|rewrite lookup_empty; constructor].
    destruct (gr !! ConsumerGroup (config g)) as [l|] eqn:Hl; cbn; [by eapply ok_groups|constructor]. }
  apply Forall_app. split; [by apply Forall_take|by apply Forall_drop].
Qed.

(** ** Steps of threads *)

(** A step keeps the data in order, leaves the others alone, and leaves its own thread and the new ones in order. *)
Definition step_ok (n i : nat) (g : GoChannel) (t' : pc) (started : list pc) (g' : GoChannel) : Prop :=
  g_le i g g' /\ g_ok g' /\ thread_ok g' i t' /\ forall k u, started !! k = Some u -> thread_ok g' (n + k) u.

Lemma step_ok_alone n i g t' g' : g_le i g g' /\ g_ok g' -> thread_ok g' i t' -> step_ok n i g t' [] g'.
Proof. intros [? ?] ?. done. Qed.

Lemma step_ok_same n i g t' : g_ok g -> thread_ok g i t' -> step_ok n i g t' [] g.
Proof. intros. apply step_ok_alone; [|done]. split; [apply g_le_refl|done]. Qed.

Lemma g_ok_step i g g' g'' : g_le i g g' /\ g_ok g' -> (g_ok g' -> g_le i g' g'' /\ g_ok g'') -> g_le i g g'' /\ g_ok g''.
Proof. intros [H1 H2] H. destruct (H H2). split; [by eapply g_le_trans|done]. Qed.

Lemma copies_metadata ms ms' :
  foldr (fun m acc => acc ⇐ acc; m ⇐ Copy m; Ok (m :: acc)) (Ok []) ms = Ok (E := Empty_set) ms' ->
  Forall (fun m => is_Some (metadata m)) ms'.
Proof.
  revert ms'. induction ms as [|m ms IH]; intros ms'; cbn [foldr]; [by intros [= <-]|].
  destruct (foldr _ _ ms) as [acc| | |]; cbn [out_bind]; try done. rewrite Copy_spec. cbn [out_bind]. intros [= <-].
  constructor; [by eexists|]. by apply IH.
Qed.

Lemma copies_total ms :
  exists ms', foldr (fun m acc => acc ⇐ acc; m ⇐ Copy m; Ok (m :: acc)) (Ok []) ms = Ok (E := Empty_set) ms' /\ length ms' = length ms.
Proof.
  induction ms as [|m ms (ms' & IH & Hlen)]; cbn [foldr]; [by exists []|]. rewrite IH. cbn [out_bind]. rewrite Copy_spec. cbn [out_bind].
  eexists. split; [reflexivity|]. cbn. by rewrite Hlen.
Qed.

Lemma pub_start_ok n i g topic ms t' st g' : g_ok g -> pub_start g topic ms = Goes t' st g' -> step_ok n i g t' st g'.
Proof.
  intros Hg. unfold pub_start. destruct (closedLock g); [done|]. destruct (g_closed g); [intros [= <- <- <-]; by apply step_ok_same|].
  destruct (copies_total ms) as (ms' & Heq & _). rewrite Heq. cbn [lift_out]. intros [= <- <- <-].
  apply step_ok_alone.
  - apply set_msgs_ok; [done|rewrite length_app; lia|]. apply Forall_app. split; [by apply ok_msgs|by eapply copies_metadata].
  - cbn. apply Forall_lookup. intros k m Hm. apply lookup_seq in Hm as [-> ?]. cbn. rewrite length_app. lia.
Qed.

Lemma pub_locks_ok n i g topic ids t' st g' :
  g_ok g -> msg_ids g ids -> pub_locks g topic ids = Goes t' st g' -> step_ok n i g t' st g'.
Proof.
  intros Hg Hids. unfold pub_locks, persist. destruct (can_read g topic); [|done].
  destruct (Persistent (config g)); [destruct (persistedMessages g) as [p|] eqn:Hp; [|done]|]; cbn [lift_out]; intros [= <- <- <-].
  - apply step_ok_alone; [|done]. eapply g_ok_step; [apply set_closed_ok|intros; apply set_locks_ok]; try done; [by apply ok_closing|].
    intros p' [= <-] topic' ids' Hl. apply lookup_insert_Some in Hl as [[<- <-]|[_ Hl]]; [|by eapply ok_persisted].
    apply Forall_app. split; [|done]. destruct (p !! topic) eqn:Hpt; [by eapply ok_persisted|constructor].
  - apply step_ok_alone; [|done]. by apply set_locks_ok.
Qed.

Lemma topicSubscribers_ids g topic : g_ok g -> Forall (fun kl => fst kl = ConsumerGroup (config g) /\ sub_ids g (snd kl)) (topicSubscribers g topic).
Proof.
  intros Hg. apply Forall_forall. intros [k l] Hin%elem_of_map_to_list. cbn.
  destruct (subscribers g !! topic) as [groups|] eqn:Hgr; cbn in Hin; [by eapply ok_groups|by rewrite lookup_empty in Hin].
Qed.

Lemma pub_loop_ok n i g topic ids t' st g' :
  g_ok g -> msg_ids g ids -> pub_loop n g topic ids = Goes t' st g' -> step_ok n i g t' st g'.
Proof.
  intros Hg Hids. unfold pub_loop. destruct ids as [|m ids].
  - intros [= <- <- <-]. apply step_ok_alone; [|done]. by apply set_locks_ok.
  - pose proof (topicSubscribers_ids g topic Hg) as Hts. apply Forall_cons in Hids as [Hm Hids].
    destruct (topicSubscribers g topic) as [|kl groups]; intros [= <- <- <-]; [by apply step_ok_same|].
    split; [apply g_le_refl|]. split; [done|]. split; [by destruct (BlockPublishUntilSubscriberAck _)|].
    intros k u Hu. destruct k as [|k]; [|done]. injection Hu as <-. split; [by constructor|done].
Qed.

(** The senders of a goroutine of [sendMessage] are for members of its groups. *)
Lemma fan_senders_shape pick m groups senders :
  fan_senders pick m groups = Ok senders ->
  Forall (fun u => exists s k l, u = SendLock m s /\ (k, l) ∈ groups /\ s ∈ l) senders.
Proof.
  revert senders. induction groups as [|[k l] groups IH]; intros senders; cbn; [by intros [= <-]|].
  assert (forall rest, fan_senders pick m groups = Ok rest ->
    Forall (fun u => exists s k' l', u = SendLock m s /\ (k', l') ∈ (k, l) :: groups /\ s ∈ l') rest) as Hrest.
  { intros rest Hr. eapply Forall_impl; [exact (IH rest Hr)|]. intros u (s & k' & l' & -> & ? & ?). exists s, k', l'. set_solver. }
  destruct (k =s []); [|destruct (l !! _) as [s|] eqn:Hs; [|done]]; destruct (fan_senders pick m groups) as [rest| | |];
    cbn; try done; intros [= <-].
  - apply Forall_app. split; [|by apply Hrest]. apply Forall_forall. intros u (s & -> & Hs)%list_elem_of_fmap.
    exists s, k, l. set_solver.
  - constructor; [|by apply Hrest]. exists s, k, l. split; [done|]. split; [set_solver|by eapply list_elem_of_lookup_2].
Qed.

Lemma fan_senders_ok g pick m groups senders :
  Forall (fun kl => fst kl = ConsumerGroup (config g) /\ sub_ids g (snd kl)) groups -> fan_senders pick m groups = Ok senders ->
  Forall (fun u => exists s, u = SendLock m s /\ sub_ids g [s]) senders.
Proof.
  intros Hgr Hs. eapply Forall_impl; [exact (fan_senders_shape _ _ _ _ Hs)|]. intros u (s & k & l & -> & Hkl & Hl).
  exists s. split; [done|]. rewrite Forall_forall in Hgr. specialize (Hgr _ Hkl) as [_ Hgr]. cbn in Hgr. unfold sub_ids in *.
  rewrite Forall_forall in Hgr. constructor; [by apply Hgr|constructor].
Qed.

Lemma fan_start_ok n i c g m groups t' st g' :
  g_ok g -> thread_ok g i (Fan m groups) -> fan_start n c g m groups = Goes t' st g' -> step_ok n i g t' st g'.
Proof.
  intros Hg [Hm Hgr]. unfold fan_start. destruct (fan_senders _ _ _) as [senders| | |] eqn:Hs; cbn [lift_out]; try done.
  - intros [= <- <- <-]. split; [apply g_le_refl|]. split; [done|]. split; [done|]. intros k u Hu.
    pose proof (fan_senders_ok g _ _ _ _ Hgr Hs) as Hall. rewrite Forall_lookup in Hall.
    destruct (Hall k u Hu) as (s & -> & ?). done.
Qed.

Lemma stamp_ok g raw m : is_Some (metadata m) -> exists m', stamp g raw m = Ok m' /\ is_Some (metadata m').
Proof. intros [md Hmd]. unfold stamp. rewrite Hmd. cbn. eexists. split; [reflexivity|]. by eexists. Qed.

Lemma ids_lookup {A : Type} (l : list A) x : Forall (fun y => (y < length l)%nat) [x] -> exists a, l !! x = Some a.
Proof. intros [H _]%Forall_cons. by apply lookup_lt_is_Some_2 in H. Qed.

Lemma send_lock_ok n i c g m s t' st g' :
  g_ok g -> thread_ok g i (SendLock m s) -> send_lock i c g m s = Goes t' st g' -> step_ok n i g t' st g'.
Proof.
  intros Hg [Hm Hs]. unfold send_lock. destruct (ids_lookup _ _ Hs) as [sub Hsub]. destruct (ids_lookup _ _ Hm) as [msg Hmsg].
  rewrite Hsub, Hmsg. destruct (sending sub) eqn:Hsend; [done|].
  pose proof (ok_msgs _ Hg) as Hmsgs. pose proof (proj1 (Forall_lookup _ _) Hmsgs m msg Hmsg) as Hmd.
  destruct (stamp_ok g (rawMessageID c) msg Hmd) as (msg' & -> & Hmd'). cbn [lift_out]. intros [= <- <- <-].
  apply step_ok_alone.
  - eapply g_ok_step; [apply set_msgs_ok|intros Hg2; apply upd_sub_ok]; try done.
    + by rewrite length_insert.
    + by apply Forall_insert.
    + cbn. intros sub' Hsub' [? ?]. simplify_eq. split; [|done]. split; cbn; [|done|done]. intros j Hj. congruence.
  - cbn. split.
    + unfold msg_ids in *. cbn. by rewrite length_insert.
    + eexists. cbn. rewrite list_lookup_alter_eq, Hsub. split; [reflexivity|]. done.
Qed.

Lemma send_end_ok n i g m s P t' st g' :
  g_ok g -> holds_sending g i s P -> send_end g m s = Goes t' st g' -> step_ok n i g t' st g'.
Proof.
  intros Hg (sub & Hs & Hi & _). unfold send_end. intros [= <- <- <-]. apply step_ok_alone; [|done].
  apply upd_sub_ok; [done|]. intros sub' Hsub' [? ?]. simplify_eq. split; [|done]. split; cbn; [|done|done]. intros j Hj. congruence.
Qed.

Lemma send_loop_ok n i g m s t' st g' :
  g_ok g -> thread_ok g i (SendLoop m s) -> send_loop g m s = Goes t' st g' -> step_ok n i g t' st g'.
Proof.
  intros Hg [Hm Hs]. unfold send_loop. pose proof Hs as (sub & Hsub & Hi & _). rewrite Hsub.
  destruct (ids_lookup _ _ Hm) as [msg Hmsg]. rewrite Hmsg, Copy_spec. cbn [lift_out].
  destruct (closed sub) eqn:Hcl; [by eapply send_end_ok|]. intros [= <- <- <-].
  apply step_ok_alone.
  - apply set_deliveries_ok; [done| |].
    + intros d dl Hd. exists dl. rewrite lookup_app_l by (by eapply lookup_lt_Some). done.
    + apply Forall_app. split; [by apply ok_copies|]. by constructor.
  - cbn. split; [done|]. split; [by exists sub|]. eexists. cbn. rewrite list_lookup_middle by done. split; [reflexivity|]. done.
Qed.

Lemma alter_received_ok i g d : g_ok g -> g_le i g (set_deliveries g (alter mark_received d (deliveries g))) /\ g_ok (set_deliveries g (alter mark_received d (deliveries g))).
Proof.
  intros Hg. apply set_deliveries_ok; [done| |].
  - intros d' dl Hd. destruct (decide (d' = d)) as [->|Hne].
    + exists (mark_received dl). by rewrite list_lookup_alter_eq, Hd.
    + exists dl. by rewrite list_lookup_alter_ne.
  - apply Forall_alter; [by apply ok_copies|]. done.
Qed.

Lemma set_output_ok i g s x :
  g_ok g -> g_le i g (upd_sub g s (fun sub => set_output sub (x sub))) /\ g_ok (upd_sub g s (fun sub => set_output sub (x sub))).
Proof. intros Hg. apply upd_sub_ok; [done|]. intros sub Hs [? ?]. by split. Qed.

Lemma send_offer_ok n i c g m s d t' st g' :
  g_ok g -> thread_ok g i (SendOffer m s d) -> send_offer c g m s d = Goes t' st g' -> step_ok n i g t' st g'.
Proof.
  intros Hg (Hm & Hs & Hd). unfold send_offer. pose proof Hs as (sub & Hsub & Hi & Hcl). rewrite Hsub.
  destruct (branch c) as [|[|b]].
  - destruct (out_closed sub); [done|]. destruct (_ <? _)%nat; [|done]. intros [= <- <- <-].
    apply step_ok_alone; [by apply (set_output_ok _ _ _ (fun sub => output sub ++ [d]))|]. split; [done|]. split; [|done].
    eexists. cbn. rewrite list_lookup_alter_eq, Hsub. split; [reflexivity|]. done.
  - destruct (out_closed sub); [done|]. destruct (output sub); [|done]. intros [= <- <- <-].
    pose proof (alter_received_ok i g d Hg) as [Hle Hg']. apply step_ok_alone; [done|]. split; [done|]. split; [by exists sub|].
    by eapply delivery_of_mono.
  - destruct (closing sub); try done. by eapply send_end_ok.
Qed.

Lemma send_ack_wait_ok n i c g m s d t' st g' :
  g_ok g -> thread_ok g i (SendAck m s d) -> send_ack_wait c g m s d = Goes t' st g' -> step_ok n i g t' st g'.
Proof.
  intros Hg (Hm & Hs & Hd). unfold send_ack_wait. pose proof Hs as (sub & Hsub & Hi & _). pose proof Hd as (dl & Hdl & _).
  rewrite Hsub, Hdl. destruct (branch c) as [|[|b]].
  - destruct (Acked _); try done. by eapply send_end_ok.
  - destruct (Nacked _); try done. intros [= <- <- <-]. by apply step_ok_same.
  - destruct (closing sub); try done. by eapply send_end_ok.
Qed.

Lemma sub_locks_ok n i g topic t' st g' : g_ok g -> sub_locks n g topic = Goes t' st g' -> step_ok n i g t' st g'.
Proof.
  intros Hg. unfold sub_locks. destruct (can_write g topic) eqn:Hw; [|done].
  set (g1 := set_subs g (subs g ++ [new_subscriber n])).
  assert (g_le i g g1 /\ g_ok g1) as H1.
  { destruct Hg as [? ? ? ? Hgr ?]. split; split; cbn; try done; eauto using sub_le_refl.
    - intros s sub Hs. exists sub. rewrite lookup_app_l by (by eapply lookup_lt_Some). split; [done|apply sub_le_refl].
    - apply Forall_app. split; [done|]. by constructor.
    - intros topic' groups k l Ht Hk. destruct (Hgr topic' groups k l Ht Hk) as [-> Hl]. split; [done|].
      eapply Forall_impl; [exact Hl|]. intros s Hs. cbn in *. rewrite length_app. lia. }
  assert (subs g1 !! length (subs g) = Some (new_subscriber n)) as Hnew by (cbn; by apply list_lookup_middle).
  assert (sub_ids g1 [length (subs g)]) as Hid by (constructor; [|constructor]; by eapply lookup_lt_Some).
  change (config g1) with (config g). destruct (Persistent (config g)); intros [= <- <- <-].
  - assert (writer g = None) as Hnone by (unfold can_write in Hw; destruct (bool_decide_reflect (writer g = None)); done).
    destruct (g_ok_step i g g1 (set_locks g1 (readers g1) (Some (S n)) ({[topic]} ∪ topicLocks g1)) H1) as [Hle Hok].
    { intros Hg1. apply set_locks_ok; [done|]. intros j _. cbn. congruence. }
    split; [done|]. split; [done|]. split; [done|]. intros k u Hu. destruct k as [|[|k]]; [| |done]; injection Hu as <-.
    + cbn. exists (new_subscriber n). rewrite Nat.add_0_r. done.
    + split; [done|]. cbn. f_equal. lia.
  - destruct (g_ok_step i g g1 (addSubscriber g1 topic (ConsumerGroup (config g1)) (length (subs g))) H1) as [Hle Hok].
    { intros Hg1. by apply addSubscriber_ok. }
    split; [done|]. split; [done|]. split; [done|]. intros k u Hu. destruct k as [|k]; [|done]. injection Hu as <-.
    cbn. exists (new_subscriber n). rewrite Nat.add_0_r. done.
Qed.

Lemma replay_ok n i g topic s t' st g' :
  g_ok g -> thread_ok g i (Replay topic s) -> replay g topic s = Goes t' st g' -> step_ok n i g t' st g'.
Proof.
  intros Hg [Hs Hw]. unfold replay. intros [= <- <- <-].
  destruct (addSubscriber_ok i g topic s Hg Hs) as [Hle Hok].
  destruct (g_ok_step i g _ (set_locks (addSubscriber g topic (ConsumerGroup (config g)) s) (readers g) None (topicLocks g ∖ {[topic]})) (conj Hle Hok)) as [Hle' Hok'].
  { intros Hg1. apply set_locks_ok; [done|]. cbn. congruence. }
  split; [done|]. split; [done|]. split; [done|]. intros k u Hu.
  destruct (_ =s _); [|done]. apply list_lookup_fmap_Some in Hu as (m & -> & Hm).
  split; [|done]. destruct (persistedMessages g) as [p|] eqn:Hp; cbn in Hm; [|done].
  destruct (p !! topic) as [ids|] eqn:Hids; cbn in Hm; [|done].
  pose proof (ok_persisted _ Hg p topic ids Hp Hids) as H. unfold msg_ids in H. rewrite Forall_lookup in H.
  constructor; [by eapply H|constructor].
Qed.

Lemma closer_steps_ok n i g topic s t t' st g' :
  g_ok g -> thread_ok g i t ->
  (t = CloserWait topic s /\ closer_wait g topic s = Goes t' st g') \/
  (t = CloserSignal topic s /\ closer_signal g topic s = Goes t' st g') \/
  (t = CloserOutput topic s /\ closer_output g topic s = Goes t' st g') -> step_ok n i g t' st g'.
Proof.
  intros Hg Ht Hstep.
  assert (exists sub, subs g !! s = Some sub /\ closer sub = i /\ closer_flags t sub) as (sub & Hs & Hi & Hfl).
  { destruct Hstep as [[-> _]|[[-> _]|[-> _]]]; exact Ht. }
  assert (forall (f : subscriber -> subscriber) t0, closer (f sub) = i -> closer_flags t0 (f sub) ->
    exists sub', subs (upd_sub g s f) !! s = Some sub' /\ closer sub' = i /\ closer_flags t0 sub') as Hnext.
  { intros f t0 Hc Hf. exists (f sub). cbn. by rewrite list_lookup_alter_eq, Hs. }
  destruct Hstep as [[-> Hstep]|[[-> Hstep]|[-> Hstep]]]; cbn in Hfl; destruct Hfl as [Hc1 Hc2].
  - unfold closer_wait in Hstep. rewrite Hs in Hstep. destruct (_ || _); [|done]. injection Hstep as <- <- <-.
    apply step_ok_same; [done|]. by exists sub.
  - unfold closer_signal in Hstep. rewrite Hs, Hc2, Hc1 in Hstep. cbn in Hstep. injection Hstep as <- <- <-.
    apply step_ok_alone.
    + apply upd_sub_ok; [done|]. intros sub' Hsub' [? ?]. simplify_eq. split; [|done]. by split.
    + by apply (Hnext (fun sub => set_closing sub closed_chan) (CloserOutput topic s)).
  - unfold closer_output in Hstep. rewrite Hs in Hstep. destruct (sending sub) eqn:Hsend; [done|].
    destruct (out_closed sub); [done|]. injection Hstep as <- <- <-. apply step_ok_alone.
    + apply upd_sub_ok; [done|]. intros sub' Hsub' [? ?]. simplify_eq. split; [|done]. split; cbn; [|done|done]. intros j Hj. congruence.
    + by apply (Hnext close_output (CloserRemove topic s)).
Qed.

Lemma closer_remove_ok n i g topic s t' st g' :
  g_ok g -> thread_ok g i (CloserRemove topic s) -> (writer g = None -> s ∈ members g topic) ->
  closer_remove g topic s = Goes t' st g' -> step_ok n i g t' st g'.
Proof.
  intros Hg Ht Hin. unfold closer_remove. destruct (can_write g topic) eqn:Hw; [|done].
  assert (writer g = None) as Hnone by (unfold can_write in Hw; destruct (bool_decide_reflect (writer g = None)); done).
  specialize (Hin Hnone). destruct (removeSubscriber _ _ _ _) as [g1|[]| |] eqn:Hrm; cbn [lift_out]; try done.
  destruct (subscribersWg g1) as [|k] eqn:Hwg; [done|]. intros [= <- <- <-].
  destruct (removeSubscriber_ok i g g1 topic s Hg Hin Hrm) as [Hle Hok].
  destruct (g_ok_step i g g1 (set_wg g1 k) (conj Hle Hok) ltac:(intros; by apply set_wg_ok)) as [Hle' Hok'].
  split; [done|]. split; [done|]. split; [|done].
  destruct (removeSubscriber_member g topic s Hg Hin) as (j & _ & Heq). rewrite Heq in Hrm. injection Hrm as <-. exact Ht.
Qed.

Lemma exec_ok ts i c g t t' st g' :
  g_ok g -> thread_ok g i t -> (forall topic s, t = CloserRemove topic s -> writer g = None -> s ∈ members g topic) ->
  exec ts i c g t = Goes t' st g' -> step_ok (length ts) i g t' st g'.
Proof.
  intros Hg Ht Hreg Hex. destruct t; cbn [exec] in Hex; try done.
  - by eapply pub_start_ok.
  - by eapply pub_locks_ok.
  - by eapply pub_loop_ok.
  - unfold pub_wait in Hex. cbn in Ht. assert (t' = PubLoop topic ids /\ st = [] /\ g' = g) as (-> & -> & ->).
    { destruct (ts !! fan) as [[]|], (g_closing g); first [discriminate Hex|by injection Hex as <- <- <-]. }
    by apply step_ok_same.
  - by eapply fan_start_ok.
  - unfold fan_wait in Hex. destruct (forallb _ _); [|done]. injection Hex as <- <- <-. by apply step_ok_same.
  - by eapply send_lock_ok.
  - by eapply send_loop_ok.
  - by eapply send_offer_ok.
  - by eapply send_ack_wait_ok.
  - unfold sub_start in Hex. destruct (closedLock g); [done|]. destruct (g_closed g); injection Hex as <- <- <-; [by apply step_ok_same|].
    apply step_ok_alone; [|done]. by apply set_wg_ok.
  - by eapply sub_locks_ok.
  - by eapply replay_ok.
  - eapply closer_steps_ok; eauto.
  - eapply closer_steps_ok; eauto.
  - eapply closer_steps_ok; eauto.
  - eapply closer_remove_ok; eauto.
  - unfold close_start in Hex. destruct (closedLock g); [done|]. pose proof (ok_closing _ Hg) as Hcl.
    destruct (g_closed g); [injection Hex as <- <- <-; by apply step_ok_same|]. rewrite Hcl in Hex. cbn in Hex. injection Hex as <- <- <-.
    apply step_ok_alone; [|done]. apply set_closed_ok; [done|done|]. intros p' Hp'. intros. by eapply ok_persisted.
  - unfold close_wait in Hex. destruct (Nat.eqb _ _); [|done]. injection Hex as <- <- <-. apply step_ok_alone; [|done].
    apply set_closed_ok; [done|by apply ok_closing|done].
Qed.

(** ** The invariant of the system *)

(** A goroutine that has to remove its subscriber. *)
Definition removing (t : pc) : option (gostring * nat) := match t with CloserEnd _ _ => None | _ => closer_of t end.

(** It finds the subscriber in the map, or the goroutine started after it still has to add it. *)
Definition registered (g : GoChannel) (ts : list pc) : Prop :=
  forall i t topic s, ts !! i = Some t -> removing t = Some (topic, s) ->
    s ∈ members g topic \/ (writer g = Some (S i) /\ ts !! S i = Some (Replay topic s)).

(** The threads that the wait group counts. *)
Definition counted (t : pc) : nat :=
  match t with SubLocks _ => 1 | _ => match removing t with Some _ => 1 | None => 0 end end.

Record system_ok (x : system) : Prop := {
  sys_data : g_ok (chan x);
  sys_threads : forall i t, threads x !! i = Some t -> thread_ok (chan x) i t;
  sys_registered : registered (chan x) (threads x);
  sys_wg : subscribersWg (chan x) = sum_list_with counted (threads x);
}.

(** The steps that change the map of subscribers, the writer or the wait group. *)
Definition registers (t : pc) : bool :=
  match t with SubStart _ | SubLocks _ | Replay _ _ | CloserRemove _ _ => true | _ => false end.

(** What the other steps leave: the map of subscribers, the writer, the wait group, and who closes what. *)
Lemma exec_frame ts i c g t t' st g' :
  registers t = false -> exec ts i c g t = Goes t' st g' ->
  subscribers g' = subscribers g /\ writer g' = writer g /\ config g' = config g /\ subscribersWg g' = subscribersWg g /\
  removing t' = removing t /\ counted t' = counted t /\
  Forall (fun u => removing u = None /\ counted u = 0%nat) st /\
  (forall topic s, t' = Replay topic s -> False).
Proof.
  intros Hnot Hex. destruct t; cbn [exec] in Hex; try done;
    unfold pub_start, pub_locks, persist, pub_loop, pub_wait, fan_start, fan_wait, send_lock, send_loop, send_offer, send_ack_wait, send_end,
      closer_wait, closer_signal, closer_output, close_start, close_wait, lift_out in Hex;
    repeat (case_match; try done); simplify_eq; try done.
  all: split_and!; try done.
  - by constructor.
  - by constructor.
  - eapply Forall_impl; [by eapply fan_senders_shape|]. by intros u (s & k & l & -> & _).
Qed.

(** ** The invariant holds *)

Lemma members_add g topic s topic' :
  members (addSubscriber g topic (ConsumerGroup (config g)) s) topic' =
  members g topic' ++ (if decide (topic' = topic) then [s] else []).
Proof.
  unfold members. cbn. destruct (decide (topic' = topic)) as [->|Hne].
  - by rewrite lookup_insert_eq; cbn; rewrite lookup_insert_eq.
  - by rewrite lookup_insert_ne, app_nil_r.
Qed.

Lemma members_remove g g' topic s topic' s' :
  g_ok g -> s ∈ members g topic -> removeSubscriber g topic (ConsumerGroup (config g)) s = Ok g' ->
  s' <> s -> s' ∈ members g topic' -> s' ∈ members g' topic'.
Proof.
  intros Hg Hs. destruct (removeSubscriber_member g topic s Hg Hs) as (i & Hi & ->). intros [= <-] Hne Hs'.
  unfold members at 1. cbn. destruct (decide (topic' = topic)) as [->|Hne']; [|by rewrite lookup_insert_ne].
  rewrite lookup_insert_eq. cbn. rewrite lookup_singleton_eq. cbn.
  rewrite <- (take_drop_middle _ _ _ Hi) in Hs'. set_solver.
Qed.

(** Steps that leave the map, the writer and the closing goroutines. *)
Lemma registered_frame g g' ts st i t t' :
  registered g ts -> ts !! i = Some t -> (forall topic s, t <> Replay topic s) ->
  subscribers g' = subscribers g -> writer g' = writer g -> config g' = config g -> removing t' = removing t ->
  Forall (fun u => removing u = None) st ->
  registered g' (<[i := t']> ts ++ st).
Proof.
  intros Hreg Hi Hnr Hsub Hw Hc Hrm Hst j u topic s Hj Hu.
  assert (members g' topic = members g topic) as Hm by (unfold members; by rewrite Hsub, Hc).
  assert (exists u0, ts !! j = Some u0 /\ removing u0 = Some (topic, s)) as (u0 & Hj0 & Hu0).
  { apply (lookup_next _ _ _ _ _ _ _ Hi) in Hj as [[-> ->]|[[Hne Hj]|(k & -> & Hk)]].
    - exists t. split; [done|congruence].
    - by exists u.
    - rewrite Forall_lookup in Hst. rewrite (Hst k u Hk) in Hu. done. }
  destruct (Hreg j u0 topic s Hj0 Hu0) as [?|[? Hr]]; [left; by rewrite Hm|]. right. split; [congruence|].
  apply lookup_next_other; [|done]. intros Heq. rewrite Heq, Hi in Hr. injection Hr as ->. by eapply Hnr.
Qed.

Lemma registered_run g g' ts st i c t t' :
  system_ok {| chan := g; threads := ts |} -> ts !! i = Some t -> exec ts i c g t = Goes t' st g' ->
  registered g' (<[i := t']> ts ++ st).
Proof.
  intros Hok Hi Hex. pose proof (sys_registered _ Hok) as Hreg. pose proof (sys_threads _ Hok) as Hth. cbn in Hreg, Hth.
  pose proof (sys_data _ Hok) as Hg. cbn in Hg.
  assert (match t with SubLocks _ | Replay _ _ | CloserRemove _ _ => False | _ => True end -> registered g' (<[i := t']> ts ++ st)) as Hframe.
  { intros Hnot. assert ((exists topic, t = SubStart topic) \/ registers t = false)
      as [[topic ->]|Hnot'] by (destruct t; first [done|by right|left; by eexists]).
    - cbn in Hex. unfold sub_start in Hex. repeat (case_match; try done); simplify_eq; by eapply registered_frame.
    - destruct (exec_frame _ _ _ _ _ _ _ _ Hnot' Hex) as (? & ? & ? & ? & ? & ? & Hst & ?).
      eapply registered_frame; try done; [by intros topic s ->|]. eapply Forall_impl; [exact Hst|]. by intros u [? _]. }
  destruct t; try (by apply Hframe); clear Hframe; cbn in Hex.
  - (* SubLocks *)
    unfold sub_locks in Hex. destruct (can_write g topic) eqn:Hw; [|done].
    assert (writer g = None) as Hnone by (unfold can_write in Hw; destruct (bool_decide_reflect (writer g = None)); done).
    assert (forall (u : pc) j topic' s', ts !! j = Some u -> removing u = Some (topic', s') -> s' ∈ members g topic') as Hold.
    { intros u j topic' s' Hj Hu. destruct (Hreg j u topic' s' Hj Hu) as [?|[? _]]; [done|congruence]. }
    cbn [config set_subs] in Hex. destruct (Persistent (config g)) eqn:Hp; injection Hex as <- <- <-; intros j u topic' s' Hj Hu.
    + apply (lookup_next _ _ _ _ _ _ _ Hi) in Hj as [[-> ->]|[[Hne Hj]|(k & -> & Hk)]]; [done|left; by eapply Hold|].
      destruct k as [|[|k]]; [| |done]; injection Hk as <-; [|done]. injection Hu as <- <-. right. rewrite Nat.add_0_r. split; [done|].
      replace (S (length ts)) with (length ts + 1)%nat by lia. by apply lookup_next_started.
    + set (g1 := set_subs g _). left. change (ConsumerGroup (config g)) with (ConsumerGroup (config g1)). rewrite members_add.
      change (members g1) with (members g).
      apply (lookup_next _ _ _ _ _ _ _ Hi) in Hj as [[-> ->]|[[Hne Hj]|(k & -> & Hk)]]; [done|apply elem_of_app; left; by eapply Hold|].
      destruct k as [|k]; [|done]. injection Hk as <-. injection Hu as <- <-. rewrite decide_True by done. set_solver.
  - (* Replay *)
    unfold replay in Hex. simplify_eq. intros j u topic' s' Hj Hu. left. unfold set_locks, members; cbn.
    change (s' ∈ members (addSubscriber g topic (ConsumerGroup (config g)) s) topic'). rewrite members_add.
    apply (lookup_next _ _ _ _ _ _ _ Hi) in Hj as [[-> ->]|[[Hne Hj]|(k & -> & Hk)]]; [done| |].
    + destruct (Hreg j u topic' s' Hj Hu) as [?|[Hwr Hr]]; [set_solver|].
      destruct (Hth i _ Hi) as [_ Hwi]. rewrite Hwi in Hwr. injection Hwr as ->. rewrite Hi in Hr. injection Hr as -> ->.
      rewrite decide_True by done. set_solver.
    + exfalso. destruct (_ =s _); [|done]. apply list_lookup_fmap_Some in Hk as (m & -> & _). done.
  - (* CloserRemove *)
    unfold closer_remove in Hex. destruct (can_write g topic) eqn:Hw; [|done].
    assert (writer g = None) as Hnone by (unfold can_write in Hw; destruct (bool_decide_reflect (writer g = None)); done).
    assert (s ∈ members g topic) as Hin by (destruct (Hreg i _ topic s Hi eq_refl) as [?|[? _]]; [done|congruence]).
    destruct (removeSubscriber _ _ _ _) as [g1|[]| |] eqn:Hrm; cbn [lift_out] in Hex; try done.
    destruct (subscribersWg g1) as [|k] eqn:Hwg; [done|]. simplify_eq. intros j u topic' s' Hj Hu. left.
    change (s' ∈ members g1 topic').
    apply (lookup_next _ _ _ _ _ _ _ Hi) in Hj as [[-> ->]|[[Hne Hj]|(k' & -> & Hk)]]; [done| |done].
    assert (s' <> s) as Hs.
    { intros ->. destruct (Hth i _ Hi) as (sub & Hsub & Hci & _).
      assert (exists sub', subs g !! s = Some sub' /\ closer sub' = j) as (sub' & Hsub' & Hcj).
      { specialize (Hth j u Hj). destruct u; try done; cbn in Hu; injection Hu as <- <-; destruct Hth as (sub' & ? & ? & _); eauto. }
      congruence. }
    eapply members_remove; try done. destruct (Hreg j u topic' s' Hj Hu) as [?|[? _]]; [done|congruence].
Qed.

Lemma wg_run g g' ts st i c t t' :
  system_ok {| chan := g; threads := ts |} -> ts !! i = Some t -> exec ts i c g t = Goes t' st g' ->
  subscribersWg g' = sum_list_with counted (<[i := t']> ts ++ st).
Proof.
  intros Hok Hi Hex. pose proof (sys_wg _ Hok) as Hwg. cbn in Hwg. pose proof (sum_next counted ts st i t t' Hi) as Hsum.
  destruct (registers t) eqn:Hnot; cycle 1.
  - destruct (exec_frame _ _ _ _ _ _ _ _ Hnot Hex) as (_ & _ & _ & Heq & _ & Hct & Hst & _).
    assert (sum_list_with counted st = 0%nat); [|lia]. clear -Hst. induction Hst as [|u st [_ Hu] Hst IH]; cbn; lia.
  - destruct t; cbn in Hnot; try done; clear Hnot; cbn in Hex.
    + unfold sub_start in Hex. repeat (case_match; try done); simplify_eq; cbn in *; lia.
    + unfold sub_locks in Hex. repeat (case_match; try done); simplify_eq; cbn in *; lia.
    + assert (forall l, sum_list_with counted (map (fun m => SendLock m s) l) = 0%nat) as H0.
      { intros l. induction l as [|m l IH]; [done|]. cbn. exact IH. }
      unfold replay in Hex. injection Hex as <- <- <-. destruct (_ =s _); rewrite ?H0 in Hsum; cbn in *; lia.
    + unfold closer_remove in Hex. destruct (can_write g topic); [|done].
      destruct (removeSubscriber _ _ _ _) as [g1|[]| |] eqn:Hrm; cbn [lift_out] in Hex; try done.
      assert (subscribersWg g1 = subscribersWg g) as Hg1.
      { unfold removeSubscriber in Hrm. destruct (remove_loop _ _ _ _ _) as [[gr b]| | |]; cbn in Hrm; try done.
        destruct b; [|done]. by injection Hrm as <-. }
      destruct (subscribersWg g1) as [|k] eqn:Hk; [done|]. simplify_eq. cbn in *. lia.
Qed.

Lemma step_ok_threads ts i g t t' st g' :
  (forall j u, ts !! j = Some u -> thread_ok g j u) -> ts !! i = Some t -> step_ok (length ts) i g t' st g' ->
  forall j u, (<[i := t']> ts ++ st) !! j = Some u -> thread_ok g' j u.
Proof.
  intros Hth Hi (Hle & _ & Ht' & Hst) j u Hj.
  apply (lookup_next _ _ _ _ _ _ _ Hi) in Hj as [[-> ->]|[[Hne Hj]|(k & -> & Hk)]]; [done| |by apply Hst].
  eapply thread_ok_mono; [done..|]. by apply Hth.
Qed.

(** Steps of the environment. *)
Lemma system_ok_env g g' ts :
  system_ok {| chan := g; threads := ts |} -> g_le (length ts) g g' /\ g_ok g' ->
  subscribers g' = subscribers g -> writer g' = writer g -> subscribersWg g' = subscribersWg g ->
  system_ok {| chan := g'; threads := ts |}.
Proof.
  intros [Hg Hth Hreg Hwg] [Hle Hg'] Hs Hw Hn. cbn in *. split; cbn; [done| | |congruence].
  - intros i t Hi. apply (thread_ok_mono (length ts) i g); [done| |by apply Hth]. apply lookup_lt_Some in Hi. lia.
  - intros i t topic s Hi Ht. unfold members. rewrite Hs, Hw, (le_config _ _ _ Hle). by apply (Hreg i t topic s).
Qed.

Lemma settle_ok i g d dl m' :
  g_ok g -> deliveries g !! d = Some dl -> wf_message m' ->
  g_le i g (set_deliveries g (<[d := set_copy dl m']> (deliveries g))) /\ g_ok (set_deliveries g (<[d := set_copy dl m']> (deliveries g))).
Proof.
  intros Hg Hd Hm'. apply set_deliveries_ok; [done| |].
  - intros d' dl' Hd'. destruct (decide (d' = d)) as [->|Hne].
    + exists (set_copy dl m'). rewrite list_lookup_insert_eq by (by eapply lookup_lt_Some). by simplify_eq.
    + exists dl'. by rewrite list_lookup_insert_ne.
  - apply Forall_insert; [by apply ok_copies|done].
Qed.

Lemma copy_wf g d dl : g_ok g -> deliveries g !! d = Some dl -> wf_message (d_copy dl).
Proof. intros Hg Hd. pose proof (ok_copies _ Hg) as H. rewrite Forall_lookup in H. by apply (H d dl). Qed.

Lemma system_ok_step x y : system_ok x -> gstep x y -> system_ok y.
Proof.
  intros Hok Hstep. destruct Hstep as [g ts i c t t' st g' Hi Hex|g ts t Hc|g ts s|g ts s sub d rest Hs Ho|g ts d dl b m Hd Hr Ha|g ts d dl b m Hd Hr Ha].
  - assert (step_ok (length ts) i g t' st g') as Hstep.
    { eapply exec_ok; [apply (sys_data _ Hok)|by apply (sys_threads _ Hok)| |done]. intros topic s -> Hw.
      destruct (sys_registered _ Hok i _ topic s Hi eq_refl) as [?|[Hw' _]]; [done|]. cbn in Hw'. congruence. }
    split; cbn; [apply Hstep| | |].
    + eapply step_ok_threads; [apply (sys_threads _ Hok)|done..].
    + by eapply registered_run.
    + by eapply wg_run.
  - destruct Hok as [Hg Hth Hreg Hwg]. cbn in *. assert (closer_of t = None /\ counted t = 0%nat) as [Hcl Hct] by (by destruct t).
    split; cbn; [done| | |].
    + intros i u [Hi|[_ [_ <-]%list_lookup_singleton_Some]]%lookup_app_Some; [by apply Hth|]. by destruct t.
    + intros i u topic s Hi Hu. apply lookup_app_Some in Hi as [Hi|[_ [_ <-]%list_lookup_singleton_Some]]; [|by destruct t].
      destruct (Hreg i u topic s Hi Hu) as [?|[? Hr]]; [by left|]. right. split; [done|].
      by rewrite lookup_app_l by (by eapply lookup_lt_Some).
    + rewrite sum_list_with_app. cbn. lia.
  - apply (system_ok_env g); try done. apply upd_sub_ok; [apply (sys_data _ Hok)|]. intros sub _ [? ?]. by split.
  - apply (system_ok_env g); try done. eapply g_ok_step; [by apply (set_output_ok _ _ s (fun _ => rest)), (sys_data _ Hok)|].
    intros Hg. exact (alter_received_ok _ _ d Hg).
  - apply (system_ok_env g); try done. destruct (Ack_spec (E := Empty_set) (d_copy dl)) as (m' & Heq & Hwf & _).
    { by eapply copy_wf; [apply (sys_data _ Hok)|]. }
    rewrite Heq in Ha. injection Ha as _ <-. apply settle_ok; [apply (sys_data _ Hok)|done..].
  - apply (system_ok_env g); try done. destruct (Nack_spec (E := Empty_set) (d_copy dl)) as (m' & Heq & Hwf & _).
    { by eapply copy_wf; [apply (sys_data _ Hok)|]. }
    rewrite Heq in Ha. injection Ha as _ <-. apply settle_ok; [apply (sys_data _ Hok)|done..].
Qed.

Lemma gstep_config x y : system_ok x -> gstep x y -> config (chan y) = config (chan x).
Proof.
  intros Hok Hstep. destruct Hstep as [g ts i c t t' st g' Hi Hex| | | | |]; try done. cbn.
  eapply le_config, exec_ok; [apply (sys_data _ Hok)|by apply (sys_threads _ Hok)| |done]. intros topic s -> Hw.
  destruct (sys_registered _ Hok i _ topic s Hi eq_refl) as [?|[Hw' _]]; [done|]. cbn in Hw'. congruence.
Qed.

Lemma initial_ok conf : system_ok {| chan := NewGoChannel conf; threads := [] |}.
Proof.
  split; cbn; [|done|done|done]. split; cbn; try done.
  intros p topic ids [= <-]. by rewrite lookup_empty.
Qed.

Lemma reachable_ok conf x : reachable conf x -> system_ok x /\ config (chan x) = conf.
Proof.
  intros H. refine (rtc_ind_r (fun x => system_ok x /\ config (chan x) = conf) _ _ _ _ H).
  - split; [apply initial_ok|done].
  - intros y z _ Hyz [Hy Hc]. split; [by eapply system_ok_step|]. by rewrite (gstep_config _ _ Hy Hyz).
Qed.

(** ** Panics *)

Lemma fan_senders_panics pick m groups msg :
  fan_senders pick m groups = Panic msg -> exists k, (k, []) ∈ groups /\ k <> [].
Proof.
  induction groups as [|[k l] groups IH]; cbn; [done|]. unfold streqb. case_bool_decide as Hk.
  - destruct (fan_senders pick m groups); cbn; try done. intros [= ->]. destruct (IH eq_refl) as (k' & ? & ?). exists k'. set_solver.
  - destruct (l !! _) as [s|] eqn:Hs.
    + destruct (fan_senders pick m groups); cbn; try done. intros [= ->]. destruct (IH eq_refl) as (k' & ? & ?). exists k'. set_solver.
    + intros _. exists k. split; [|done]. destruct l as [|x l]; [set_solver|].
      apply lookup_ge_None in Hs. pose proof (Nat.mod_upper_bound pick (length (x :: l))). cbn in *. lia.
Qed.

(** C19: In every reachable state of the Pub/Sub, whatever is published, subscribed, acknowledged, cancelled and closed
    concurrently, a goroutine panics only in two places: the one that sends a message to a named consumer
    group all of whose members left, and a publisher of a persistent Pub/Sub that stores its messages after
    [Close] has finished. In particular no channel is closed twice or written to after it was closed, every
    subscriber is found when it is removed, and the wait group never becomes negative. *)
Theorem gochannel_panics conf x i c t msg :
  reachable conf x -> threads x !! i = Some t -> exec (threads x) i c (chan x) t = Panics msg ->
  (exists m groups, t = Fan m groups /\ (ConsumerGroup conf, []) ∈ groups /\ ConsumerGroup conf <> []) \/
  (exists topic ids, t = PubLocks topic ids /\ Persistent conf = true /\ persistedMessages (chan x) = None).
Proof.
  intros Hr Hi Hex. destruct (reachable_ok conf x Hr) as [Hok Hc]. destruct x as [g ts]. cbn in *.
  pose proof (sys_data _ Hok) as Hg. pose proof (sys_threads _ Hok i t Hi) as Ht. cbn in Hg, Ht.
  pose proof (ok_subs _ Hg) as Hsubs. rewrite Forall_lookup in Hsubs.
  destruct t; cbn [exec] in Hex; try done.
  - exfalso. unfold pub_start in Hex. destruct (copies_total ms) as (ms' & Heq & _). rewrite Heq in Hex. repeat (case_match; try done).
  - right. exists topic, ids. unfold pub_locks, persist in Hex. rewrite Hc in Hex. destruct (can_read g topic); [|done].
    destruct (Persistent conf); [|done]. destruct (persistedMessages g); done.
  - exfalso. unfold pub_loop in Hex. repeat (case_match; try done).
  - exfalso. unfold pub_wait in Hex. repeat (case_match; try done).
  - left. exists m, groups. split; [done|]. unfold fan_start in Hex. destruct (fan_senders _ _ _) as [|[]|msg'|] eqn:Hs; try done.
    destruct (fan_senders_panics _ _ _ _ Hs) as (k & Hk & Hne). destruct Ht as [_ Hgr]. rewrite Forall_forall in Hgr.
    destruct (Hgr _ Hk) as [Heq _]. cbn in Heq. rewrite Hc in Heq. by subst k.
  - exfalso. unfold fan_wait in Hex. by case_match.
  - exfalso. destruct Ht as [Hm Hs]. destruct (ids_lookup _ _ Hs) as [sub Hsub]. destruct (ids_lookup _ _ Hm) as [msg' Hmsg].
    unfold send_lock in Hex. rewrite Hsub, Hmsg in Hex. destruct (sending sub); [done|].
    pose proof (ok_msgs _ Hg) as Hmsgs. pose proof (proj1 (Forall_lookup _ _) Hmsgs m msg' Hmsg) as Hmd.
    destruct (stamp_ok g (rawMessageID c) msg' Hmd) as (msg'' & Heq & _). by rewrite Heq in Hex.
  - exfalso. destruct Ht as [Hm (sub & Hsub & _)]. destruct (ids_lookup _ _ Hm) as [msg' Hmsg].
    unfold send_loop in Hex. rewrite Hsub, Hmsg, Copy_spec in Hex. cbn in Hex. by case_match.
  - exfalso. destruct Ht as (_ & (sub & Hsub & _ & Hcl) & _). unfold send_offer in Hex. rewrite Hsub in Hex.
    destruct (Hsubs s sub Hsub) as [Ho _]. rewrite Ho, Hcl in Hex. repeat (case_match; try done).
  - exfalso. destruct Ht as (_ & (sub & Hsub & _) & (dl & Hdl & _)). unfold send_ack_wait in Hex. rewrite Hsub, Hdl in Hex.
    repeat (case_match; try done).
  - exfalso. unfold sub_start in Hex. repeat (case_match; try done).
  - exfalso. unfold sub_locks in Hex. repeat (case_match; try done).
  - exfalso. destruct Ht as (sub & Hsub & _). unfold closer_wait in Hex. rewrite Hsub in Hex. by case_match.
  - exfalso. destruct Ht as (sub & Hsub & _ & Hcl & Hcd). unfold closer_signal in Hex. by rewrite Hsub, Hcd, Hcl in Hex.
  - exfalso. destruct Ht as (sub & Hsub & _ & Hcl & Hcd). destruct (Hsubs s sub Hsub) as [Ho _].
    unfold closer_output in Hex. rewrite Hsub, Ho, Hcd in Hex. by case_match.
  - exfalso. unfold closer_remove in Hex. destruct (can_write g topic) eqn:Hw; [|done].
    assert (writer g = None) as Hnone by (unfold can_write in Hw; destruct (bool_decide_reflect (writer g = None)); done).
    assert (s ∈ members g topic) as Hin by (destruct (sys_registered _ Hok i _ topic s Hi eq_refl) as [?|[Hw' _]]; [done|cbn in Hw'; congruence]).
    destruct (removeSubscriber_member g topic s Hg Hin) as (j & _ & Heq). rewrite Heq in Hex. cbn in Hex.
    pose proof (sys_wg _ Hok) as Hwg. cbn in Hwg. pose proof (sum_next counted ts [] i _ CloseEnd Hi) as Hsum. cbn in Hsum.
    destruct (subscribersWg g); [lia|done].
  - exfalso. unfold close_start in Hex. pose proof (ok_closing _ Hg) as Hcl. repeat (case_match; try done). by rewrite Hcl in Hex.
  - exfalso. unfold close_wait in Hex. by case_match.
Qed.
