(* ===== verification/WmGoChannelDelivery.v ===== *)
(** Delivery by the in-process Pub/Sub: a subscriber is handed one message at a time, a sender stops only when its
    message was acknowledged or the subscriber is closing, and a publisher that waits for its subscribers
    goes on only then, with its locks keeping the subscribers of the topic; what publishing to a group without
    members does. *)
From stdpp Require Import base list strings numbers option gmap.
From S2P Require Import Prelude.
From S2P Require Import WmMessage.
From S2P Require Import WmGoChannel.
From S2P Require Import WmGoChannelSpec.

Implicit Types (g : GoChannel) (i j s d : nat) (t : pc) (topic : gostring) (l : list nat) (sub : subscriber) (c : choice).

Definition sub_closing g s : Prop := exists sub, subs g !! s = Some sub /\ closing sub = closed_chan.

(** The delivery that a sender waits for. *)
Definition waits_for (t : pc) : option nat := match t with SendOffer _ _ d | SendAck _ _ d => Some d | _ => None end.
(** The message and the subscriber of a sender. *)
Definition sends (t : pc) : option (nat * nat) :=
  match t with SendLock m s | SendLoop m s | SendOffer m s _ | SendAck m s _ | SendEnd m s => Some (m, s) | _ => None end.
(** The message and the groups of a goroutine of [sendMessage]. *)
Definition fans (t : pc) : option (nat * list (gostring * list nat)) :=
  match t with Fan m groups | FanWait m groups _ | FanEnd m groups _ => Some (m, groups) | _ => None end.

(** A copy of a message was acknowledged by a subscriber. *)
Definition acknowledged g m s : Prop :=
  exists d dl, deliveries g !! d = Some dl /\ d_sub dl = s /\ d_msg dl = m /\ ackSentType (d_copy dl) = ack.

Definition unsettled (dl : delivery) : Prop := ackSentType (d_copy dl) = noAckSent.

Definition delivered g m s : Prop := sub_closing g s \/ acknowledged g m s.

(** A property holds of all members of the group without a name, and of one member of every other group. *)
Definition covers (groups : list (gostring * list nat)) (P : nat -> Prop) : Prop :=
  Forall (fun kl => if fst kl =s [] then Forall P (snd kl) else Exists P (snd kl)) groups.

Definition sender_of (ts : list pc) (senders : list nat) m s : Prop :=
  exists j t, j ∈ senders /\ ts !! j = Some t /\ sends t = Some (m, s).

Record delivery_ok (x : system) : Prop := {
  del_copies : forall d dl, deliveries (chan x) !! d = Some dl ->
    unsettled dl -> sub_closing (chan x) (d_sub dl) \/ exists i t, threads x !! i = Some t /\ waits_for t = Some d;
  del_ends : forall i m s, threads x !! i = Some (SendEnd m s) -> delivered (chan x) m s;
  del_fans : forall i m groups senders,
    (threads x !! i = Some (FanWait m groups senders) \/ threads x !! i = Some (FanEnd m groups senders)) ->
    covers groups (sender_of (threads x) senders m);
  del_fan_ends : forall i m groups senders, threads x !! i = Some (FanEnd m groups senders) ->
    forall j, j ∈ senders -> exists m' s', threads x !! j = Some (SendEnd m' s');
  del_waits : forall i topic f m ids, threads x !! i = Some (PubWait topic f m ids) ->
    exists t groups, threads x !! f = Some t /\ fans t = Some (m, groups);
}.

Lemma covers_impl groups (P Q : nat -> Prop) : (forall s, P s -> Q s) -> covers groups P -> covers groups Q.
Proof.
  intros HPQ HP. eapply Forall_impl; [exact HP|]. intros [k l]. cbn. destruct (k =s []); intros H.
  - eapply Forall_impl; [exact H|done].
  - eapply Exists_impl; [exact H|done].
Qed.

(** ** What a step of a thread does to deliveries *)

(** The points at which a thread waits for other threads. *)
Definition waits_for_threads (t : pc) : bool := match t with FanWait _ _ _ | FanEnd _ _ _ | PubWait _ _ _ _ => true | _ => false end.
Definition sender_ended (t : pc) : bool := match t with SendEnd _ _ => true | _ => false end.

Record exec_effect (g g' : GoChannel) (t t' : pc) : Prop := {
  eff_sends : sends t' = sends t;
  eff_fans : fans t' = fans t;
  eff_closing : forall s, sub_closing g s -> sub_closing g' s;
  eff_old : forall d dl, deliveries g !! d = Some dl -> exists dl', deliveries g' !! d = Some dl' /\
    d_sub dl' = d_sub dl /\ d_msg dl' = d_msg dl /\ d_copy dl' = d_copy dl;
  eff_new : forall d dl, deliveries g' !! d = Some dl -> deliveries g !! d = None -> waits_for t' = Some d;
  eff_waits : forall d dl, waits_for t = Some d -> deliveries g !! d = Some dl -> unsettled dl ->
    waits_for t' = Some d \/ sub_closing g' (d_sub dl);
  eff_end : forall m s, t' = SendEnd m s -> delivered g' m s;
}.

Lemma sub_closing_upd g s f s' :
  (forall sub, subs g !! s = Some sub -> closing sub = closed_chan -> closing (f sub) = closed_chan) ->
  sub_closing g s' -> sub_closing (upd_sub g s f) s'.
Proof.
  intros Hf (sub & Hs & Hc). destruct (decide (s' = s)) as [->|Hne].
  - exists (f sub). cbn. rewrite list_lookup_alter_eq, Hs. split; [done|]. by apply Hf.
  - exists sub. cbn. by rewrite list_lookup_alter_ne.
Qed.

(** Steps that change neither deliveries nor what is closing. *)
Lemma exec_effect_quiet g g' t t' :
  sends t' = sends t -> fans t' = fans t -> (forall s, sub_closing g s -> sub_closing g' s) -> deliveries g' = deliveries g ->
  waits_for t = None -> sender_ended t' = false ->
  exec_effect g g' t t'.
Proof.
  intros Hs Hf Hc Hd Hw Ht'. split; try done.
  - intros d dl Hdl. exists dl. by rewrite Hd.
  - intros d dl. rewrite Hd. congruence.
  - congruence.
  - by intros m s ->.
Qed.

Lemma upd_sending_closing g s x s' : sub_closing g s' -> sub_closing (upd_sub g s (fun sub => set_sending sub x)) s'.
Proof. by apply sub_closing_upd. Qed.

(** The return of a sender that has a reason to return. *)
Lemma send_end_effect g g' t t' st m s :
  sends t = Some (m, s) -> fans t = None ->
  (delivered g m s) -> (forall d dl, waits_for t = Some d -> deliveries g !! d = Some dl -> unsettled dl -> d_sub dl = s /\ sub_closing g s) ->
  send_end g m s = Goes t' st g' -> exec_effect g g' t t'.
Proof.
  intros Hs Hf Hdel Hw. unfold send_end. intros [= <- <- <-]. split; try done.
  - by intros s' ?%(upd_sending_closing _ s None).
  - intros d dl Hd. by exists dl.
  - intros d dl Hd Hn. cbn in Hd. congruence.
  - intros d dl Hwd Hd Hu. right. destruct (Hw d dl Hwd Hd Hu) as [-> H]. by apply upd_sending_closing.
  - intros m' s' [= <- <-]. destruct Hdel as [?|?]; [left; by apply upd_sending_closing|by right].
Qed.

Lemma wf_acked msg : wf_message msg -> ack_chan msg = closed_chan -> ackSentType msg = ack.
Proof. unfold wf_message. intros Hwf Ha. destruct (ackSentType msg); [|done|]; by destruct Hwf. Qed.

Lemma wf_nacked msg : wf_message msg -> noAck_chan msg = closed_chan -> ackSentType msg = nack.
Proof. unfold wf_message. intros Hwf Ha. destruct (ackSentType msg); [| |done]; by destruct Hwf. Qed.

Lemma exec_effects ts i c g t t' st g' :
  g_ok g -> thread_ok g i t -> exec ts i c g t = Goes t' st g' ->
  waits_for_threads t' = false -> exec_effect g g' t t'.
Proof.
  intros Hg Ht Hex Hnf. destruct t; cbn [exec] in Hex; try done.
  - unfold pub_start in Hex. destruct (copies_total ms) as (ms' & Heq & _). rewrite Heq in Hex. cbn [lift_out] in Hex.
    repeat (case_match; try done); simplify_eq; by apply exec_effect_quiet.
  - unfold pub_locks, persist, lift_out in Hex. repeat (case_match; try done); simplify_eq; by apply exec_effect_quiet.
  - unfold pub_loop in Hex. repeat (case_match; try done); simplify_eq; by apply exec_effect_quiet.
  - unfold pub_wait in Hex. repeat (case_match; try done); simplify_eq; by apply exec_effect_quiet.
  - unfold fan_start, lift_out in Hex. by repeat (case_match; try done); simplify_eq.
  - unfold fan_wait in Hex. by repeat (case_match; try done); simplify_eq.
  - unfold send_lock, lift_out in Hex. repeat (case_match; try done); simplify_eq. apply exec_effect_quiet; try done.
    intros s' Hs'. by apply upd_sending_closing.
  - unfold send_loop in Hex. destruct Ht as [Hm (sub & Hsub & Hi & _)]. destruct (ids_lookup _ _ Hm) as [msg Hmsg].
    rewrite Hsub, Hmsg, Copy_spec in Hex. cbn [lift_out] in Hex. destruct (closed sub) eqn:Hcl.
    + pose proof (ok_subs _ Hg) as Hsubs. rewrite Forall_lookup in Hsubs. destruct (Hsubs s sub Hsub) as [_ Hclosing].
      eapply send_end_effect; try done. left. exists sub. auto.
    + simplify_eq. split; try done; cbn.
      * intros d dl Hd. exists dl. by rewrite lookup_app_l by (by eapply lookup_lt_Some).
      * intros d dl Hd Hn. apply lookup_app_Some in Hd as [?|[Hge Hd]]; [congruence|].
        apply list_lookup_singleton_Some in Hd as [Hd _]. f_equal. lia.
  - unfold send_offer in Hex. destruct Ht as (Hm & (sub & Hsub & Hi & Hcl) & (dl & Hdl & Hds & Hdm)). rewrite Hsub in Hex.
    destruct (branch c) as [|[|b]]; [destruct (out_closed sub); [done|]; destruct (_ <? _)%nat; [|done]; simplify_eq|destruct (out_closed sub); [done|]; destruct (output sub); [|done]; simplify_eq|].
    + split; try done; cbn; [intros s'; by apply sub_closing_upd|intros d' dl' Hd; by exists dl'|congruence|].
      intros d' dl' [= <-]. by left.
    + split; try done; cbn.
      * intros d' dl' Hd. destruct (decide (d' = d)) as [->|Hne]; [exists (mark_received dl'); by rewrite list_lookup_alter_eq, Hd|].
        exists dl'. by rewrite list_lookup_alter_ne.
      * intros d' dl' Hd Hn. destruct (decide (d' = d)) as [->|Hne]; [congruence|]. rewrite list_lookup_alter_ne in Hd by done. congruence.
      * intros d' dl' [= <-]. by left.
    + destruct (closing sub) eqn:Hc; try done. assert (sub_closing g s) as Hsc by (by exists sub).
      eapply send_end_effect; try done; [by left|]. intros d' dl' [= <-] Hd _. simplify_eq. done.
  - unfold send_ack_wait in Hex. destruct Ht as (Hm & (sub & Hsub & Hi & Hcl) & (dl & Hdl & Hds & Hdm)). rewrite Hsub, Hdl in Hex.
    pose proof (copy_wf g d dl Hg Hdl) as Hwf.
    destruct (branch c) as [|[|b]].
    + destruct (Acked (d_copy dl)) eqn:Ha; try done. pose proof (wf_acked _ Hwf Ha) as Hack.
      eapply send_end_effect; try done; [right; by exists d, dl|]. intros d' dl' [= <-] Hd Hu. unfold unsettled in Hu. simplify_eq. congruence.
    + destruct (Nacked (d_copy dl)) eqn:Ha; try done. pose proof (wf_nacked _ Hwf Ha) as Hnack. simplify_eq.
      split; try done; cbn; [intros d' dl' Hd; by exists dl'|congruence|].
      intros d' dl' [= <-] Hd Hu. unfold unsettled in Hu. simplify_eq. congruence.
    + destruct (closing sub) eqn:Hc; try done. assert (sub_closing g s) as Hsc by (by exists sub).
      eapply send_end_effect; try done; [by left|]. intros d' dl' [= <-] Hd _. simplify_eq. done.
  - unfold sub_start in Hex. repeat (case_match; try done); simplify_eq; by apply exec_effect_quiet.
  - unfold sub_locks in Hex. repeat (case_match; try done); simplify_eq; apply exec_effect_quiet; try done; cbn;
      intros s (sub & Hs & Hc); exists sub; cbn; by rewrite lookup_app_l by (by eapply lookup_lt_Some).
  - unfold replay in Hex. simplify_eq. by apply exec_effect_quiet.
  - unfold closer_wait in Hex. repeat (case_match; try done); simplify_eq; by apply exec_effect_quiet.
  - unfold closer_signal, lift_out in Hex. repeat (case_match; try done); simplify_eq; apply exec_effect_quiet; try done.
    intros s'. apply sub_closing_upd. intros sub Hs Hc. cbn. unfold close_signal in *. repeat (case_match; try done); simplify_eq; done.
  - unfold closer_output in Hex. repeat (case_match; try done); simplify_eq; apply exec_effect_quiet; try done.
    intros s'. by apply sub_closing_upd.
  - unfold closer_remove in Hex. destruct (can_write g topic); [|done].
    unfold removeSubscriber in Hex. destruct (remove_loop _ _ _ _ _) as [[gr b]|[]| |]; cbn in Hex; try done.
    destruct b; [|done]. cbn in Hex. destruct (subscribersWg g); [done|]. simplify_eq. by apply exec_effect_quiet.
  - unfold close_start, lift_out in Hex. repeat (case_match; try done); simplify_eq; by apply exec_effect_quiet.
  - unfold close_wait in Hex. repeat (case_match; try done); simplify_eq; by apply exec_effect_quiet.
Qed.

(** ** The invariant holds *)

Lemma started_plain ts i c g t t' st g' :
  exec ts i c g t = Goes t' st g' -> Forall (fun u => waits_for_threads u = false /\ sender_ended u = false) st.
Proof.
  intros Hex. destruct t; cbn [exec] in Hex; try done;
    unfold pub_start, pub_locks, persist, pub_loop, pub_wait, fan_start, fan_wait, send_lock, send_loop, send_offer, send_ack_wait, send_end,
      sub_start, sub_locks, replay, closer_wait, closer_signal, closer_output, closer_remove, close_start, close_wait, lift_out in Hex;
    repeat (case_match; try done); simplify_eq; try done; try (by repeat constructor).
  - eapply Forall_impl; [by eapply fan_senders_shape|]. by intros u (s & k & l & -> & _).
  - apply Forall_map, Forall_true. done.
Qed.

Lemma sender_of_next ts st i t t' senders m s :
  ts !! i = Some t -> sends t' = sends t -> sender_of ts senders m s -> sender_of (<[i := t']> ts ++ st) senders m s.
Proof.
  intros Hi Hs (j & u & Hj & Hu & Hsu). destruct (decide (j = i)) as [->|Hne].
  - exists i, t'. split; [done|]. split; [by eapply lookup_next_self|]. simplify_eq. congruence.
  - exists j, u. split; [done|]. split; [by apply lookup_next_other|done].
Qed.

Lemma fans_next ts st i t t' f m :
  ts !! i = Some t -> fans t' = fans t ->
  (exists u groups, ts !! f = Some u /\ fans u = Some (m, groups)) ->
  exists u groups, (<[i := t']> ts ++ st) !! f = Some u /\ fans u = Some (m, groups).
Proof.
  intros Hi Hf (u & groups & Hu & Hfu). destruct (decide (f = i)) as [->|Hne].
  - exists t', groups. split; [by eapply lookup_next_self|]. simplify_eq. congruence.
  - exists u, groups. split; [by apply lookup_next_other|done].
Qed.

(** A thread that waits for others, or a sender that ended, was there before the step or is the result of it. *)
Lemma next_old ts st i t t' j u :
  ts !! i = Some t -> Forall (fun u => waits_for_threads u = false /\ sender_ended u = false) st ->
  (<[i := t']> ts ++ st) !! j = Some u -> waits_for_threads u = true \/ sender_ended u = true ->
  (j = i /\ u = t') \/ (j <> i /\ ts !! j = Some u).
Proof.
  intros Hi Hst Hj Hu. apply (lookup_next _ _ _ _ _ _ _ Hi) in Hj as [?|[?|(k & -> & Hk)]]; [by left|by right|].
  rewrite Forall_lookup in Hst. destruct (Hst k u Hk). destruct Hu; congruence.
Qed.

Lemma delivered_effect g g' t t' m s : exec_effect g g' t t' -> delivered g m s -> delivered g' m s.
Proof.
  intros Heff [?|(d & dl & Hd & <- & <- & Ha)]; [left; by eapply eff_closing|]. right.
  destruct (eff_old _ _ _ _ Heff d dl Hd) as (dl' & Hd' & Hs & Hm & Hc). exists d, dl'. rewrite Hc. done.
Qed.

(** The threads keep what they say about other threads, when a thread keeps what it sends and fans out. *)
Lemma del_threads ts st i t t' g c g' :
  delivery_ok {| chan := g; threads := ts |} -> ts !! i = Some t -> exec ts i c g t = Goes t' st g' ->
  sends t' = sends t -> fans t' = fans t ->
  (forall j m groups senders, j <> i ->
    (ts !! j = Some (FanWait m groups senders) \/ ts !! j = Some (FanEnd m groups senders)) ->
    covers groups (sender_of (<[i := t']> ts ++ st) senders m)) /\
  (forall j m groups senders, j <> i -> ts !! j = Some (FanEnd m groups senders) ->
    forall k, k ∈ senders -> exists m' s', (<[i := t']> ts ++ st) !! k = Some (SendEnd m' s')) /\
  (forall j topic f m ids, j <> i -> ts !! j = Some (PubWait topic f m ids) ->
    exists u groups, (<[i := t']> ts ++ st) !! f = Some u /\ fans u = Some (m, groups)).
Proof.
  intros Hok Hi Hex Hs Hf. pose proof (started_plain _ _ _ _ _ _ _ _ Hex) as Hst. split_and!.
  - intros j m groups senders Hne Hj. eapply covers_impl; [|by eapply (del_fans _ Hok)]. intros s Hsend. by eapply sender_of_next.
  - intros j m groups senders Hne Hj k Hk. destruct (del_fan_ends _ Hok j m groups senders Hj k Hk) as (m' & s' & Hv).
    exists m', s'. apply lookup_next_other; [|done]. intros ->. cbn in Hv. rewrite Hi in Hv. injection Hv as ->. done.
  - intros j topic f m ids Hne Hj. eapply fans_next; [done..|]. by eapply (del_waits _ Hok).
Qed.

(** A step of a thread that does not come to wait for others. *)
Lemma delivery_run ts st i t t' g c g' :
  system_ok {| chan := g; threads := ts |} -> delivery_ok {| chan := g; threads := ts |} ->
  ts !! i = Some t -> exec ts i c g t = Goes t' st g' -> waits_for_threads t' = false ->
  delivery_ok {| chan := g'; threads := <[i := t']> ts ++ st |}.
Proof.
  intros Hsys Hok Hi Hex Hplain. pose proof (started_plain _ _ _ _ _ _ _ _ Hex) as Hst.
  pose proof (exec_effects _ _ _ _ _ _ _ _ (sys_data _ Hsys) (sys_threads _ Hsys i t Hi) Hex Hplain) as Heff.
  destruct (del_threads _ _ _ _ _ _ _ _ Hok Hi Hex (eff_sends _ _ _ _ Heff) (eff_fans _ _ _ _ Heff)) as (H1 & H2 & H3).
  split; cbn [chan threads].
  - intros d dl' Hd' Hu. destruct (deliveries g !! d) as [dl|] eqn:Hd.
    + destruct (eff_old _ _ _ _ Heff d dl Hd) as (dl2 & Hd2 & Hs & Hm & Hc). rewrite Hd' in Hd2. injection Hd2 as <-.
      assert (unsettled dl) as Hu' by (unfold unsettled in *; congruence). rewrite Hs.
      destruct (del_copies _ Hok d dl Hd Hu') as [Hcl|(j & u & Hj & Hw)]; [left; by eapply eff_closing|].
      cbn in Hj. destruct (decide (j = i)) as [->|Hne].
      * rewrite Hi in Hj. injection Hj as <-. destruct (eff_waits _ _ _ _ Heff d dl Hw Hd Hu') as [Hw'|?]; [|by left].
        right. exists i, t'. split; [by eapply lookup_next_self|done].
      * right. exists j, u. split; [by apply lookup_next_other|done].
    + right. exists i, t'. split; [by eapply lookup_next_self|]. by eapply eff_new.
  - intros j m s Hj. destruct (next_old _ _ _ _ _ _ _ Hi Hst Hj) as [[-> <-]|[Hne Hj']]; [by right| |].
    + by eapply eff_end.
    + eapply delivered_effect; [done|]. by apply (del_ends _ Hok j).
  - intros j m groups senders Hj.
    assert (exists u, (<[i := t']> ts ++ st) !! j = Some u /\ waits_for_threads u = true) as (u & Hu & Hw) by (destruct Hj; eauto).
    destruct (next_old _ _ _ _ _ _ _ Hi Hst Hu (or_introl Hw)) as [[-> ->]|[Hne Hj']]; [congruence|].
    apply (H1 j m groups senders Hne). destruct Hj as [Hj|Hj]; rewrite Hj in Hu; injection Hu as <-; eauto.
  - intros j m groups senders Hj. destruct (next_old _ _ _ _ _ _ _ Hi Hst Hj (or_introl eq_refl)) as [[-> <-]|[Hne Hj']]; [done|].
    by apply (H2 j m groups senders Hne).
  - intros j topic f m ids Hj. destruct (next_old _ _ _ _ _ _ _ Hi Hst Hj (or_introl eq_refl)) as [[-> <-]|[Hne Hj']]; [done|].
    by apply (H3 j topic f m ids Hne).
Qed.

Lemma fan_senders_covers pick m groups senders :
  fan_senders pick m groups = Ok senders -> covers groups (fun s => exists k, senders !! k = Some (SendLock m s)).
Proof.
  revert senders. induction groups as [|[k l] groups IH]; intros senders; cbn; [constructor|].
  assert (forall rest pre, fan_senders pick m groups = Ok rest -> covers groups (fun s => exists k, (pre ++ rest) !! k = Some (SendLock m s))) as Hrest.
  { intros rest pre Hr. eapply covers_impl; [|exact (IH rest Hr)]. intros s [k' Hk']. exists (length pre + k')%nat.
    rewrite lookup_app_r by lia. by replace (length pre + k' - length pre)%nat with k' by lia. }
  destruct (k =s []) eqn:Hk; [|destruct (l !! _) as [s|] eqn:Hs; [|done]]; destruct (fan_senders pick m groups) as [rest| | |];
    cbn; try done; intros [= <-]; (constructor; [cbn; rewrite Hk|]).
  - apply Forall_lookup. intros k' s Hs. exists k'. apply lookup_app_l_Some. by rewrite list_lookup_fmap, Hs.
  - by apply Hrest.
  - apply Exists_exists. exists s. split; [by eapply list_elem_of_lookup_2|]. by exists O.
  - by apply (Hrest rest [SendLock m s]).
Qed.

(** The goroutine of [sendMessage] starts its senders. *)
Lemma delivery_fan_start ts i m groups g c t' st g' :
  delivery_ok {| chan := g; threads := ts |} -> ts !! i = Some (Fan m groups) -> exec ts i c g (Fan m groups) = Goes t' st g' ->
  delivery_ok {| chan := g'; threads := <[i := t']> ts ++ st |}.
Proof.
  intros Hok Hi Hex. pose proof (started_plain _ _ _ _ _ _ _ _ Hex) as Hst. pose proof Hex as Hex'.
  cbn [exec] in Hex. unfold fan_start in Hex. destruct (fan_senders _ _ _) as [senders|[]| |] eqn:Hs; cbn [lift_out] in Hex; try done.
  injection Hex as <- <- <-. destruct (del_threads _ _ _ _ _ _ _ _ Hok Hi Hex' eq_refl eq_refl) as (H1 & H2 & H3).
  split; cbn [chan threads].
  - intros d dl Hd Hu. destruct (del_copies _ Hok d dl Hd Hu) as [Hcl|(j & u & Hj & Hw)]; [by left|]. right. exists j, u.
    split; [|done]. apply lookup_next_other; [|done]. intros ->. cbn in Hj. rewrite Hi in Hj. by injection Hj as <-.
  - intros j m' s Hj. destruct (next_old _ _ _ _ _ _ _ Hi Hst Hj) as [[-> ?]|[Hne Hj']]; [by right|done|]. by apply (del_ends _ Hok j).
  - intros j m' groups' senders' Hj.
    assert (exists u, (<[i := FanWait m groups (seq (length ts) (length senders))]> ts ++ senders) !! j = Some u /\ waits_for_threads u = true)
      as (u & Hu & Hw) by (destruct Hj; eauto).
    destruct (next_old _ _ _ _ _ _ _ Hi Hst Hu (or_introl Hw)) as [[-> ->]|[Hne Hj']].
    + destruct Hj as [Hj|Hj]; rewrite Hj in Hu; [|done]. injection Hu as -> -> ->.
      eapply covers_impl; [|by eapply fan_senders_covers]. intros s [k Hk]. exists (length ts + k)%nat, (SendLock m s).
      split; [|split; [by apply lookup_next_started|done]]. apply elem_of_seq. apply lookup_lt_Some in Hk. lia.
    + apply (H1 j m' groups' senders' Hne). destruct Hj as [Hj|Hj]; rewrite Hj in Hu; injection Hu as <-; eauto.
  - intros j m' groups' senders' Hj. destruct (next_old _ _ _ _ _ _ _ Hi Hst Hj (or_introl eq_refl)) as [[-> ?]|[Hne Hj']]; [done|].
    by apply (H2 j m' groups' senders' Hne).
  - intros j topic f m' ids Hj. destruct (next_old _ _ _ _ _ _ _ Hi Hst Hj (or_introl eq_refl)) as [[-> ?]|[Hne Hj']]; [done|].
    by apply (H3 j topic f m' ids Hne).
Qed.

(** The steps after which a thread waits for others, or has waited for them, leave the data. *)
Lemma delivery_wait ts st i t t' g c :
  delivery_ok {| chan := g; threads := ts |} -> ts !! i = Some t -> exec ts i c g t = Goes t' st g ->
  sends t' = sends t -> fans t' = fans t -> waits_for t = None -> sender_ended t' = false ->
  (forall m groups senders, t' = FanWait m groups senders \/ t' = FanEnd m groups senders -> covers groups (sender_of ts senders m)) ->
  (forall m groups senders, t' = FanEnd m groups senders -> forall j, j ∈ senders -> exists m' s', ts !! j = Some (SendEnd m' s')) ->
  (forall topic f m ids, t' = PubWait topic f m ids -> exists k groups, f = (length ts + k)%nat /\ st !! k = Some (Fan m groups)) ->
  delivery_ok {| chan := g; threads := <[i := t']> ts ++ st |}.
Proof.
  intros Hok Hi Hex Hs Hf Hw Hse Hcov Hend Hpub. pose proof (started_plain _ _ _ _ _ _ _ _ Hex) as Hst.
  destruct (del_threads _ _ _ _ _ _ _ _ Hok Hi Hex Hs Hf) as (H1 & H2 & H3).
  split; cbn [chan threads].
  - intros d dl Hd Hu. destruct (del_copies _ Hok d dl Hd Hu) as [Hcl|(j & u & Hj & Hwj)]; [by left|]. right. exists j, u.
    split; [|done]. apply lookup_next_other; [|done]. intros ->. cbn in Hj. congruence.
  - intros j m s Hj. destruct (next_old _ _ _ _ _ _ _ Hi Hst Hj) as [[-> <-]|[Hne Hj']]; [by right|done|]. by apply (del_ends _ Hok j).
  - intros j m groups senders Hj.
    assert (exists u, (<[i := t']> ts ++ st) !! j = Some u /\ waits_for_threads u = true) as (u & Hu & Hwu) by (destruct Hj; eauto).
    destruct (next_old _ _ _ _ _ _ _ Hi Hst Hu (or_introl Hwu)) as [[-> ->]|[Hne Hj']].
    + assert (t' = FanWait m groups senders \/ t' = FanEnd m groups senders) as Ht' by (destruct Hj as [Hj|Hj]; rewrite Hj in Hu; injection Hu as <-; eauto).
      eapply covers_impl; [|by apply Hcov]. intros s. by apply sender_of_next with t.
    + apply (H1 j m groups senders Hne). destruct Hj as [Hj|Hj]; rewrite Hj in Hu; injection Hu as <-; eauto.
  - intros j m groups senders Hj. destruct (next_old _ _ _ _ _ _ _ Hi Hst Hj (or_introl eq_refl)) as [[-> <-]|[Hne Hj']].
    + intros k Hk. destruct (Hend m groups senders eq_refl k Hk) as (m' & s' & Hk'). exists m', s'. apply lookup_next_other; [|done].
      intros ->. rewrite Hi in Hk'. injection Hk' as ->. done.
    + by apply (H2 j m groups senders Hne).
  - intros j topic f m ids Hj. destruct (next_old _ _ _ _ _ _ _ Hi Hst Hj (or_introl eq_refl)) as [[-> <-]|[Hne Hj']].
    + destruct (Hpub topic f m ids eq_refl) as (k & groups & -> & Hk). exists (Fan m groups), groups.
      split; [by apply lookup_next_started|done].
    + by apply (H3 j topic f m ids Hne).
Qed.

(** Steps of the environment. *)
Lemma delivery_env g g' ts :
  delivery_ok {| chan := g; threads := ts |} -> (forall s, sub_closing g s -> sub_closing g' s) ->
  (forall d dl', deliveries g' !! d = Some dl' -> exists dl, deliveries g !! d = Some dl /\ d_sub dl' = d_sub dl /\ (unsettled dl' -> unsettled dl)) ->
  (forall m s, acknowledged g m s -> acknowledged g' m s) ->
  delivery_ok {| chan := g'; threads := ts |}.
Proof.
  intros Hok Hcl Hnew Hack. split; cbn [chan threads].
  - intros d dl' Hd' Hu. destruct (Hnew d dl' Hd') as (dl & Hd & -> & Hu'). destruct (del_copies _ Hok d dl Hd (Hu' Hu)) as [?|?]; [left; by apply Hcl|by right].
  - intros i m s Hi. destruct (del_ends _ Hok i m s Hi) as [?|?]; [left; by apply Hcl|right; by apply Hack].
  - apply (del_fans _ Hok).
  - apply (del_fan_ends _ Hok).
  - apply (del_waits _ Hok).
Qed.

(** An acknowledgement of a delivery, of either kind. *)
Lemma delivery_settle g ts d dl m (a : ackType) :
  delivery_ok {| chan := g; threads := ts |} -> deliveries g !! d = Some dl -> ackSentType m = settled a (d_copy dl) ->
  delivery_ok {| chan := set_deliveries g (<[d := set_copy dl m]> (deliveries g)); threads := ts |}.
Proof.
  intros Hok Hd Ht. assert (d < length (deliveries g))%nat as Hlt by (by eapply lookup_lt_Some).
  apply (delivery_env g); try done; cbn.
  - intros d' dl' Hd'. apply list_lookup_insert_Some in Hd' as [(-> & <- & _)|[Hne Hd']]; [|by exists dl'].
    exists dl. split; [done|]. split; [done|]. unfold unsettled. cbn. rewrite Ht. unfold settled. by destruct (ackSentType (d_copy dl)).
  - intros m' s (d' & dl' & Hd' & Hs & Hm & Ha). destruct (decide (d' = d)) as [->|Hne].
    + exists d, (set_copy dl m). cbn. rewrite list_lookup_insert_eq by done. simplify_eq. split; [done|]. split; [done|]. split; [done|].
      rewrite Ht. unfold settled. by rewrite Ha.
    + exists d', dl'. cbn. by rewrite list_lookup_insert_ne.
Qed.

Lemma delivery_ok_step x y : system_ok x -> delivery_ok x -> gstep x y -> delivery_ok y.
Proof.
  intros Hsys Hok Hstep. destruct Hstep as [g ts i c t t' st g' Hi Hex|g ts t Hc|g ts s|g ts s sub d rest Hs Ho|g ts d dl b m Hd Hr Ha|g ts d dl b m Hd Hr Ha].
  - destruct (waits_for_threads t') eqn:Hw; [|by eapply delivery_run].
    destruct t; cbn [exec] in Hex; try done;
      try (by unfold pub_start, pub_locks, persist, pub_wait, send_lock, send_loop, send_offer, send_ack_wait, send_end,
        sub_start, sub_locks, replay, closer_wait, closer_signal, closer_output, closer_remove, close_start, close_wait, lift_out in Hex;
        repeat (case_match; try done); simplify_eq).
    + pose proof Hex as Hex'. unfold pub_loop in Hex. destruct ids as [|m ids]; [by simplify_eq|].
      destruct (topicSubscribers g topic) as [|kl groups] eqn:Hts; [by simplify_eq|].
      destruct (BlockPublishUntilSubscriberAck (config g)); simplify_eq.
      eapply (delivery_wait _ _ _ _ _ _ c); try done; [by intros ? ? ? [?|?]|]. intros topic' f m' ids' [= <- <- <- <-]. exists O, (kl :: groups).
      by rewrite Nat.add_0_r.
    + by eapply (delivery_fan_start _ _ _ _ _ c).
    + pose proof Hex as Hex'. unfold fan_wait in Hex. destruct (forallb _ senders) eqn:Hall; [|done]. injection Hex as <- <- <-.
      eapply (delivery_wait _ _ _ _ _ _ c); try done.
      * intros m' groups' senders' [?|[= <- <- <-]]; [done|]. apply (del_fans _ Hok i). by left.
      * intros m' groups' senders' [= <- <- <-] j Hj. rewrite forallb_forall in Hall. apply list_elem_of_In in Hj. specialize (Hall j Hj).
        destruct (ts !! j) as [[]|]; try done. eauto.
  - assert (waits_for_threads t = false /\ sender_ended t = false) as [H1 H2] by (by destruct t).
    assert (forall j u, (ts ++ [t]) !! j = Some u -> waits_for_threads u = true \/ sender_ended u = true -> ts !! j = Some u) as Hold.
    { intros j u [?|[_ [_ <-]%list_lookup_singleton_Some]]%lookup_app_Some Hu; [done|]. destruct Hu; congruence. }
    assert (forall j u, ts !! j = Some u -> (ts ++ [t]) !! j = Some u) as Hnew.
    { intros j u Hj. rewrite lookup_app_l by (by eapply lookup_lt_Some). done. }
    split; cbn [chan threads].
    + intros d dl Hd Hu. destruct (del_copies _ Hok d dl Hd Hu) as [?|(j & u & Hj & Hw)]; [by left|]. right. exists j, u. split; [by apply Hnew|done].
    + intros j m s Hj. apply (del_ends _ Hok j). apply Hold; [done|by right].
    + intros j m groups senders Hj. eapply covers_impl; [|apply (del_fans _ Hok j m groups senders)].
      * intros s (k & u & Hk & Hu & Hsu). exists k, u. split; [done|]. split; [by apply Hnew|done].
      * destruct Hj as [Hj|Hj]; [left|right]; (apply Hold; [done|by left]).
    + intros j m groups senders Hj k Hk. destruct (del_fan_ends _ Hok j m groups senders (Hold _ _ Hj (or_introl eq_refl)) k Hk) as (m' & s' & H).
      exists m', s'. by apply Hnew.
    + intros j topic f m ids Hj. destruct (del_waits _ Hok j topic f m ids (Hold _ _ Hj (or_introl eq_refl))) as (u & groups & Hu & Hfu).
      exists u, groups. split; [by apply Hnew|done].
  - apply (delivery_env g); try done; [by intros s'; apply sub_closing_upd|]. intros d dl Hd. by exists dl.
  - apply (delivery_env g); try done.
    + intros s' (sub' & Hs' & Hc'). exact (sub_closing_upd g s (fun sub => set_output sub rest) s' ltac:(done) (ex_intro _ sub' (conj Hs' Hc'))).
    + cbn. intros d' dl' Hd'. destruct (decide (d' = d)) as [->|Hne].
      * rewrite list_lookup_alter_eq in Hd'. destruct (deliveries g !! d) as [dl|]; [|done]. injection Hd' as <-. by exists dl.
      * rewrite list_lookup_alter_ne in Hd' by done. by exists dl'.
    + intros m s' (d' & dl' & Hd' & Hs' & Hm & Ha). destruct (decide (d' = d)) as [->|Hne].
      * exists d, (mark_received dl'). cbn. by rewrite list_lookup_alter_eq, Hd'.
      * exists d', dl'. cbn. by rewrite list_lookup_alter_ne.
  - destruct (Ack_spec (E := Empty_set) (d_copy dl)) as (m' & Heq & _ & Ht & _); [by eapply copy_wf; [apply (sys_data _ Hsys)|]|].
    rewrite Heq in Ha. injection Ha as _ <-. by eapply delivery_settle.
  - destruct (Nack_spec (E := Empty_set) (d_copy dl)) as (m' & Heq & _ & Ht & _); [by eapply copy_wf; [apply (sys_data _ Hsys)|]|].
    rewrite Heq in Ha. injection Ha as _ <-. by eapply delivery_settle.
Qed.

Lemma reachable_delivery conf x : reachable conf x -> delivery_ok x.
Proof.
  intros H. assert (system_ok x /\ delivery_ok x) as [_ Hd]; [|done].
  refine (rtc_ind_r (fun x => system_ok x /\ delivery_ok x) _ _ _ _ H).
  - split; [apply initial_ok|]. by split; cbn; naive_solver.
  - intros y z _ Hyz [Hy Hd]. split; [by eapply system_ok_step|by eapply delivery_ok_step].
Qed.

(** ** Theorems *)

Lemma waits_for_delivery g i t d dl :
  thread_ok g i t -> waits_for t = Some d -> deliveries g !! d = Some dl -> holds_sending g i (d_sub dl) (fun _ => True).
Proof.
  intros Ht Hw Hd. destruct t; cbn in Hw; try done; injection Hw as ->; destruct Ht as (_ & (sub & ? & ? & _) & (dl' & Hdl' & <- & _));
    simplify_eq; by exists sub.
Qed.

(** C20: A subscriber is handed one message at a time: of all the copies that were ever sent to a subscriber that is not
    closing, at most one is neither acknowledged nor refused. So a consumer that does neither with a
    copy gets no other message, whatever is published. *)
Theorem one_delivery_at_a_time conf x d1 d2 dl1 dl2 :
  reachable conf x -> deliveries (chan x) !! d1 = Some dl1 -> deliveries (chan x) !! d2 = Some dl2 -> d_sub dl1 = d_sub dl2 ->
  ackSentType (d_copy dl1) = noAckSent -> ackSentType (d_copy dl2) = noAckSent ->
  (forall sub, subs (chan x) !! d_sub dl1 = Some sub -> closing sub <> closed_chan) -> d1 = d2.
Proof.
  intros Hr Hd1 Hd2 Hs Hu1 Hu2 Hopen. destruct (reachable_ok conf x Hr) as [Hok _]. pose proof (reachable_delivery conf x Hr) as Hdel.
  destruct (del_copies _ Hdel d1 dl1 Hd1 Hu1) as [(sub & ? & ?)|(i & t & Hi & Hw1)]; [by edestruct Hopen|].
  destruct (del_copies _ Hdel d2 dl2 Hd2 Hu2) as [(sub & ? & ?)|(j & u & Hj & Hw2)]; [rewrite Hs in Hopen; by edestruct Hopen|].
  destruct (waits_for_delivery _ _ _ _ _ (sys_threads _ Hok i t Hi) Hw1 Hd1) as (sub1 & Hsub1 & Hs1 & _).
  destruct (waits_for_delivery _ _ _ _ _ (sys_threads _ Hok j u Hj) Hw2 Hd2) as (sub2 & Hsub2 & Hs2 & _).
  rewrite Hs in Hsub1. simplify_eq. congruence.
Qed.

(** ** The locks of a publisher *)

(** The threads that hold a read lock of the subscribers. *)
Definition reading (t : pc) : nat := match t with PubLoop _ _ | PubWait _ _ _ _ => 1 | _ => 0 end.

(** The read locks are counted, a writer excludes them, and a publisher that waits has sent to the subscribers that
    the topic still has. *)
Record locks_ok (x : system) : Prop := {
  lk_readers : readers (chan x) = sum_list_with reading (threads x);
  lk_writer : writer (chan x) <> None -> readers (chan x) = 0%nat;
  lk_waits : forall i topic f m ids, threads x !! i = Some (PubWait topic f m ids) ->
    exists t, threads x !! f = Some t /\ fans t = Some (m, topicSubscribers (chan x) topic);
}.

Lemma removeSubscriber_locks g topic group s g' :
  removeSubscriber g topic group s = Ok g' -> readers g' = readers g /\ writer g' = writer g.
Proof.
  unfold removeSubscriber. destruct (remove_loop _ _ _ _ _) as [[gr b]|[]| |]; cbn; try done.
  destruct b; [|done]. by intros [= <-].
Qed.

Lemma can_write_free g topic : can_write g topic = true -> writer g = None /\ readers g = 0%nat.
Proof. unfold can_write. intros [[?%bool_decide_eq_true ?%Nat.eqb_eq]%andb_true_iff _]%andb_true_iff. done. Qed.

Lemma can_read_free g topic : can_read g topic = true -> writer g = None.
Proof. unfold can_read. by intros [?%bool_decide_eq_true _]%andb_true_iff. Qed.

(** What a step does to the locks; the subscribers change only under the write lock. *)
Lemma exec_read_locks ts i c g t t' st g' :
  thread_ok g i t -> (writer g <> None -> readers g = 0%nat) -> (reading t <= readers g)%nat ->
  exec ts i c g t = Goes t' st g' ->
  (readers g' + reading t = readers g + reading t')%nat /\ (writer g' <> None -> readers g' = 0%nat) /\
  sum_list_with reading st = 0%nat /\ (subscribers g' = subscribers g \/ readers g = 0%nat).
Proof.
  intros Ht Hw Hr Hex. destruct t; cbn [exec] in Hex; try done.
  - unfold pub_start, lift_out in Hex. repeat (case_match; try done); simplify_eq; cbn in *; split_and!; auto; lia.
  - unfold pub_locks, persist in Hex. destruct (can_read g topic) eqn:Hc; [|done]. apply can_read_free in Hc.
    unfold lift_out in Hex. repeat (case_match; try done); simplify_eq; cbn in *; split_and!; auto; try lia; congruence.
  - assert (writer g = None) as Hn by (destruct (writer g); [specialize (Hw ltac:(done)); cbn in *; lia|done]).
    unfold pub_loop in Hex. repeat (case_match; try done); simplify_eq; cbn in *; split_and!; auto; try lia; congruence.
  - unfold pub_wait in Hex. repeat (case_match; try done); simplify_eq; cbn in *; split_and!; auto; lia.
  - unfold fan_start, lift_out in Hex. destruct (fan_senders _ _ _) as [senders| | |] eqn:Hs; try done; simplify_eq. cbn.
    split_and!; auto. pose proof (fan_senders_shape _ _ _ _ Hs) as Hsh. clear -Hsh.
    induction Hsh as [|u l (k & ? & ? & -> & _) Hl IH]; [done|]. cbn. exact IH.
  - unfold fan_wait in Hex. repeat (case_match; try done); simplify_eq; cbn in *; split_and!; auto; lia.
  - unfold send_lock, lift_out in Hex. repeat (case_match; try done); simplify_eq; cbn in *; split_and!; auto; lia.
  - unfold send_loop, send_end, lift_out in Hex. repeat (case_match; try done); simplify_eq; cbn in *; split_and!; auto; lia.
  - unfold send_offer, send_end in Hex. repeat (case_match; try done); simplify_eq; cbn in *; split_and!; auto; lia.
  - unfold send_ack_wait, send_end in Hex. repeat (case_match; try done); simplify_eq; cbn in *; split_and!; auto; lia.
  - unfold sub_start in Hex. repeat (case_match; try done); simplify_eq; cbn in *; split_and!; auto; lia.
  - unfold sub_locks in Hex. destruct (can_write g topic) eqn:Hc; [|done]. apply can_write_free in Hc as [Hn H0].
    repeat (case_match; try done); simplify_eq; cbn in *; split_and!; auto; lia.
  - destruct Ht as [_ Hwr]. unfold replay in Hex. pose proof (Hw ltac:(congruence)) as H0. simplify_eq. cbn in *. split_and!; auto.
    destruct (_ =s _); [|done]. by induction (default [] _).
  - unfold closer_wait in Hex. repeat (case_match; try done); simplify_eq; cbn in *; split_and!; auto; lia.
  - unfold closer_signal, lift_out in Hex. repeat (case_match; try done); simplify_eq; cbn in *; split_and!; auto; lia.
  - unfold closer_output in Hex. repeat (case_match; try done); simplify_eq; cbn in *; split_and!; auto; lia.
  - unfold closer_remove in Hex. destruct (can_write g topic) eqn:Hc; [|done]. apply can_write_free in Hc as [Hn H0].
    destruct (removeSubscriber _ _ _ _) as [g1|[]| |] eqn:Hrm; cbn in Hex; try done.
    destruct (removeSubscriber_locks _ _ _ _ _ Hrm) as [H1 H2].
    destruct (subscribersWg g1); [done|]. simplify_eq. cbn. cbn in *. split_and!; auto; lia.
  - unfold close_start, lift_out in Hex. repeat (case_match; try done); simplify_eq; cbn in *; split_and!; auto; lia.
  - unfold close_wait in Hex. repeat (case_match; try done); simplify_eq; cbn in *; split_and!; auto; lia.
Qed.

Lemma exec_fans ts i c g t t' st g' x : exec ts i c g t = Goes t' st g' -> fans t = Some x -> fans t' = Some x.
Proof.
  intros Hex Hf. destruct t; try done; cbn [exec] in Hex; unfold fan_start, fan_wait, lift_out in Hex;
    repeat (case_match; try done); by simplify_eq.
Qed.

(** A publisher comes to wait by sending to the subscribers of its topic. *)
Lemma exec_waits ts i c g t topic f m ids st g' :
  exec ts i c g t = Goes (PubWait topic f m ids) st g' ->
  g' = g /\ f = length ts /\ st = [Fan m (topicSubscribers g topic)].
Proof.
  intros Hex. destruct t; cbn [exec] in Hex; try done;
    try (by unfold pub_start, pub_locks, persist, pub_wait, fan_start, fan_wait, send_lock, send_loop, send_offer, send_ack_wait, send_end,
      sub_start, sub_locks, replay, closer_wait, closer_signal, closer_output, closer_remove, close_start, close_wait, lift_out in Hex;
      repeat (case_match; try done); simplify_eq).
  unfold pub_loop in Hex. destruct ids0 as [|m0 ids0]; [done|].
  destruct (topicSubscribers g topic0) as [|kl groups] eqn:Hts; [done|]. destruct (BlockPublishUntilSubscriberAck _); [|done].
  injection Hex as <- <- <- <- <- <-. by rewrite Hts.
Qed.

Lemma reading_le ts i t : ts !! i = Some t -> (reading t <= sum_list_with reading ts)%nat.
Proof. intros Hi. rewrite <- (take_drop_middle ts i t Hi), sum_list_with_app. cbn. lia. Qed.

Lemma locks_ok_run ts st i t t' g c g' :
  system_ok {| chan := g; threads := ts |} -> locks_ok {| chan := g; threads := ts |} ->
  ts !! i = Some t -> exec ts i c g t = Goes t' st g' ->
  locks_ok {| chan := g'; threads := <[i := t']> ts ++ st |}.
Proof.
  intros Hsys [Hrd Hwr Hwt] Hi Hex. cbn [chan threads] in *.
  assert (reading t <= readers g)%nat as Hle by (rewrite Hrd; by eapply reading_le).
  destruct (exec_read_locks _ _ _ _ _ _ _ _ (sys_threads _ Hsys i t Hi) Hwr Hle Hex)
    as (H1 & H2 & H3 & H4).
  split; cbn [chan threads]; [pose proof (sum_next reading ts st i t t' Hi) as Hsum; cbn in *; lia|done|].
  intros j topic f m ids Hj. pose proof (started_plain _ _ _ _ _ _ _ _ Hex) as Hst.
  destruct (next_old _ _ _ _ _ _ _ Hi Hst Hj (or_introl eq_refl)) as [[-> <-]|[Hne Hj']].
  - destruct (exec_waits _ _ _ _ _ _ _ _ _ _ _ Hex) as (-> & -> & ->). exists (Fan m (topicSubscribers g topic)).
    split; [|done]. replace (length ts) with (length ts + 0)%nat by lia. by apply lookup_next_started.
  - destruct H4 as [H4|H4]; [|pose proof (reading_le _ _ _ Hj'); cbn in *; lia].
    destruct (Hwt j topic f m ids Hj') as (u & Hu & Hfu).
    assert (topicSubscribers g' topic = topicSubscribers g topic) as -> by (unfold topicSubscribers; by rewrite H4).
    destruct (decide (f = i)) as [->|Hnf].
    + exists t'. split; [by eapply lookup_next_self|]. eapply exec_fans; [done|]. by simplify_eq.
    + exists u. split; [by apply lookup_next_other|done].
Qed.

Lemma locks_ok_step x y : system_ok x -> locks_ok x -> gstep x y -> locks_ok y.
Proof.
  intros Hsys Hok Hstep. destruct Hstep as [g ts i c t t' st g' Hi Hex|g ts t Hc|g ts s|g ts s sub d rest Hs Ho|g ts d dl b m Hd Hr Ha|g ts d dl b m Hd Hr Ha];
    [by eapply locks_ok_run| |destruct Hok; by split..].
  destruct Hok as [Hrd Hwr Hwt]. cbn in *. assert (reading t = 0%nat) as H0 by (by destruct t).
  split; cbn; [rewrite sum_list_with_app; cbn; lia|done|].
  intros j topic f m ids Hj0. apply lookup_app_Some in Hj0 as [Hj|[_ Hj]]; [|apply list_lookup_singleton_Some in Hj as [_ ->]; done].
  destruct (Hwt j topic f m ids Hj) as (u & Hu & Hfu). exists u. split; [by apply lookup_app_l_Some|done].
Qed.

Lemma reachable_locks conf x : reachable conf x -> locks_ok x.
Proof.
  intros H. assert (system_ok x /\ locks_ok x) as [_ Hd]; [|done].
  refine (rtc_ind_r (fun x => system_ok x /\ locks_ok x) _ _ _ _ H).
  - split; [apply initial_ok|]. by split; cbn; naive_solver.
  - intros y z _ Hyz [Hy Hd]. split; [by eapply system_ok_step|by eapply locks_ok_step].
Qed.

(** Every subscriber of a topic without a group, and one of every group of the topic, has the property. *)
Definition each_subscriber g topic (P : nat -> Prop) : Prop :=
  forall groups k l, subscribers g !! topic = Some groups -> groups !! k = Some l ->
    if k =s [] then Forall P l else Exists P l.

(** C21: A publisher that waits for its subscribers goes on only when the Pub/Sub is closing, or when every subscriber of
    the topic without a group, and one of every group of the topic, acknowledged a copy of the message or
    is closing. The subscribers are those that the Pub/Sub has for the topic at that time, which are
    those it had when the message was sent: the publisher holds the locks. *)
Theorem waiting_publisher_served conf x i topic f m ids c t' st g' :
  reachable conf x -> threads x !! i = Some (PubWait topic f m ids) ->
  exec (threads x) i c (chan x) (PubWait topic f m ids) = Goes t' st g' ->
  g_closing (chan x) = closed_chan \/ each_subscriber (chan x) topic (delivered (chan x) m).
Proof.
  intros Hr Hi Hex. pose proof (reachable_delivery conf x Hr) as Hdel.
  destruct (lk_waits _ (reachable_locks conf x Hr) i topic f m ids Hi) as (t & Hf & Hfans).
  destruct (g_closing (chan x)) eqn:Hcl; [| |by left]; right;
    cbn in Hex; unfold pub_wait in Hex; rewrite Hf, Hcl in Hex; destruct t; try done; cbn in Hfans; injection Hfans as -> ->;
    (assert (covers (topicSubscribers (chan x) topic) (delivered (chan x) m)) as Hcov;
      [eapply covers_impl; [|apply (del_fans _ Hdel f m _ senders); by right]; intros s (j & u & Hj & Hu & Hsu);
       destruct (del_fan_ends _ Hdel f m _ senders Hf j Hj) as (m' & s' & Hj'); rewrite Hu in Hj'; injection Hj' as ->;
       injection Hsu as -> ->; by apply (del_ends _ Hdel j)|]);
    intros groups k l Hgr Hk; unfold covers, topicSubscribers in Hcov; rewrite Hgr in Hcov; rewrite Forall_forall in Hcov;
    by apply (Hcov (k, l)), elem_of_map_to_list.
Qed.

(** ** Groups that lost their members *)

Lemma fan_senders_empty pick m groups k :
  (k, []) ∈ groups -> k <> [] -> exists msg, fan_senders pick m groups = Panic msg.
Proof.
  intros Hin Hk. induction groups as [|[k' l] groups IH]; [by apply not_elem_of_nil in Hin|]. cbn [fan_senders].
  apply elem_of_cons in Hin as [[= <- <-]|Hin].
  - destruct (k =s []) eqn:He; [by apply bool_decide_eq_true in He|]. cbn. by eexists.
  - destruct (IH Hin) as [msg ->]. destruct (k' =s []); [by eexists|]. destruct (l !! _); by eexists.
Qed.

(** C28: With a consumer group, publishing after the last member of the group left panics: the subscriber that leaves
    stays in the map as an empty group, and as long as the group is empty, the goroutine that is
    started for the next message published to the topic has nothing it can do but panic. *)
Theorem empty_group_panics conf x i c topic s t' st g' :
  reachable conf x -> ConsumerGroup conf <> [] -> threads x !! i = Some (CloserRemove topic s) ->
  members (chan x) topic = [s] -> exec (threads x) i c (chan x) (CloserRemove topic s) = Goes t' st g' ->
  members g' topic = [] /\
  forall y j m ids c1, reachable conf y -> subscribers (chan y) !! topic = subscribers g' !! topic ->
    threads y !! j = Some (PubLoop topic (m :: ids)) ->
    exists t1 fan, exec (threads y) j c1 (chan y) (PubLoop topic (m :: ids)) = Goes t1 [fan] (chan y) /\
      forall ts k c2 g2, exists msg, exec ts k c2 g2 fan = Panics msg.
Proof.
  intros Hr Hne Hi Hm Hex. destruct (reachable_ok conf x Hr) as [Hok Hc].
  cbn [exec] in Hex. unfold closer_remove in Hex. destruct (can_write _ _); [|done].
  destruct (removeSubscriber_member (chan x) topic s (sys_data _ Hok) ltac:(rewrite Hm; set_solver)) as (n & Hn & Heq).
  rewrite Heq in Hex. rewrite Hm in Hn, Hex. apply list_lookup_singleton_Some in Hn as [-> _].
  cbn [lift_out] in Hex. destruct (subscribersWg _); [done|]. injection Hex as _ _ <-. cbn [subscribers set_subscribers set_wg].
  rewrite Hc. unfold members. cbn. rewrite Hc, lookup_insert_eq. cbn. rewrite lookup_singleton_eq. split; [done|].
  intros y j m ids c1 Hy Hsub Hj. assert (topicSubscribers (chan y) topic = [(ConsumerGroup conf, [])]) as Hts.
  { unfold topicSubscribers. rewrite Hsub. cbn. by rewrite map_to_list_singleton. }
  unfold pub_loop. rewrite Hts. eexists _, _. split; [reflexivity|]. intros ts k c2 g2.
  cbn [exec]. unfold fan_start. destruct (fan_senders_empty (branch c2) m [(ConsumerGroup conf, [])] (ConsumerGroup conf) ltac:(by left) Hne) as [msg ->].
  by exists msg.
Qed.

(** ** Executions *)

(** Events of an execution, and their effect. *)
Inductive event := ERun (i : nat) (c : choice) | ECall (t : pc) | ECtx (s : nat) | EAck (d : nat).

Definition do_event (e : event) (x : system) : option system :=
  match e with
  | ERun i c =>
      match threads x !! i with
      | Some t => match exec (threads x) i c (chan x) t with
                  | Goes t' st g' => Some {| chan := g'; threads := <[i := t']> (threads x) ++ st |}
                  | _ => None
                  end
      | None => None
      end
  | ECall t => if call t then Some {| chan := chan x; threads := threads x ++ [t] |} else None
  | ECtx s => Some {| chan := upd_sub (chan x) s end_ctx; threads := threads x |}
  | EAck d =>
      match deliveries (chan x) !! d with
      | Some dl =>
          if d_received dl then
            match Ack (E := Empty_set) (d_copy dl) with
            | Ok (_, m) => Some {| chan := set_deliveries (chan x) (<[d := set_copy dl m]> (deliveries (chan x))); threads := threads x |}
            | _ => None
            end
          else None
      | None => None
      end
  end.

Fixpoint do_events (es : list event) (x : system) : option system :=
  match es with
  | [] => Some x
  | e :: es => match do_event e x with Some y => do_events es y | None => None end
  end.

Lemma do_event_gstep e x y : do_event e x = Some y -> gstep x y.
Proof.
  destruct x as [g ts]. destruct e as [i c|t|s|d]; cbn.
  - destruct (ts !! i) as [t|] eqn:Hi; [|done]. destruct (exec ts i c g t) as [| |t' st g'] eqn:Hex; try done.
    intros [= <-]. by econstructor.
  - destruct (call t) eqn:Hc; [|done]. intros [= <-]. by constructor.
  - intros [= <-]. constructor.
  - destruct (deliveries g !! d) as [dl|] eqn:Hd; [|done]. destruct (d_received dl) eqn:Hr; [|done].
    destruct (Ack (d_copy dl)) as [[b m]|[]| |] eqn:Ha; try done. intros [= <-]. by eapply gs_ack.
Qed.

Lemma do_events_rtc es x y : do_events es x = Some y -> rtc gstep x y.
Proof.
  revert x. induction es as [|e es IH]; intros x; cbn; [by intros [= <-]|].
  destruct (do_event e x) as [z|] eqn:He; [|done]. intros Hes. eapply rtc_l; [by eapply do_event_gstep|by apply IH].
Qed.

(** The state after the events, and a boolean test of it. *)
Lemma reach_by conf es (P : system -> bool) :
  match do_events es {| chan := NewGoChannel conf; threads := [] |} with Some y => P y | None => false end = true ->
  exists x, reachable conf x /\ P x = true.
Proof.
  destruct (do_events _ _) as [y|] eqn:Hy; [|done]. intros HP. exists y. split; [by eapply do_events_rtc|done].
Qed.

Definition panics_at (i : nat) (c : choice) (x : system) : bool :=
  match threads x !! i with
  | Some t => match exec (threads x) i c (chan x) t with Panics _ => true | _ => false end
  | None => false
  end.

Lemma panics_at_spec i c x : panics_at i c x = true -> panics x.
Proof.
  unfold panics_at, panics. intros H. destruct (threads x !! i) as [t|] eqn:Hi; [|done].
  destruct (exec _ _ _ _ _) as [|msg|] eqn:Hex; try done. eauto 10.
Qed.

Definition first_branch : choice := {| branch := 0; rawMessageID := [] |}.
Definition run (i : nat) : event := ERun i first_branch.

Definition group_config (group : gostring) (persistent : bool) : Config :=
  {| OutputChannelBuffer := 1; Persistent := persistent; BlockPublishUntilSubscriberAck := false; ConsumerGroup := group; AppID := [] |}.

(** A publisher that found a persistent Pub/Sub open panics when [Close] finishes before it stores its messages. *)
Theorem publish_after_close_panics : exists x, reachable (group_config [] true) x /\ panics x.
Proof.
  assert (exists x, reachable (group_config [] true) x /\ panics_at 0 first_branch x = true) as (x & Hr & Hp).
  { apply (reach_by _ [ECall (PubStart (str "t") [NewMessage [] []]); run 0; ECall CloseStart; run 1; run 1]). by vm_compute. }
  exists x. split; [done|]. by eapply panics_at_spec.
Qed.

(** The senders of a message write their entries into the message they share: the first subscriber gets the delivery
    identifier of the second. *)
Theorem raw_id_of_other :
  exists x, reachable (group_config [] false) x /\
    bool_decide ((fun dl => (d_sub dl, Get (metadata (d_copy dl)) ContextKeyRawMessageID)) <$> (deliveries (chan x) !! 0%nat) = Some (0%nat, str "second")) = true /\
    threads x !! 6%nat = Some (SendOffer 0 0 0).
Proof.
  assert (exists x, reachable (group_config [] false) x /\
    (bool_decide ((fun dl => (d_sub dl, Get (metadata (d_copy dl)) ContextKeyRawMessageID)) <$> (deliveries (chan x) !! 0%nat) = Some (0%nat, str "second")) &&
     match threads x !! 6%nat with Some (SendOffer 0 0 0) => true | _ => false end) = true) as (x & Hr & Hp).
  { apply (reach_by _ [ECall (SubStart (str "t")); run 0; run 0; ECall (SubStart (str "t")); run 2; run 2;
                       ECall (PubStart (str "t") [NewMessage [] []]); run 4; run 4; run 4; run 5;
                       ERun 6 {| branch := 0; rawMessageID := str "first" |}; ERun 7 {| branch := 0; rawMessageID := str "second" |}; run 6]).
    by vm_compute. }
  exists x. split; [done|]. apply andb_true_iff in Hp as [? Hp]. split; [done|].
  repeat case_match; simplify_eq; done.
Qed.

(** ** Witnesses *)

Definition after (conf : Config) (es : list event) : system :=
  default {| chan := NewGoChannel conf; threads := [] |} (do_events es {| chan := NewGoChannel conf; threads := [] |}).

Lemma after_reachable conf es :
  match do_events es {| chan := NewGoChannel conf; threads := [] |} with Some _ => true | None => false end = true -> reachable conf (after conf es).
Proof. unfold after. destruct (do_events _ _) as [y|] eqn:Hy; [|done]. intros _. by eapply do_events_rtc. Qed.

Definition sample_left : system :=
  after (group_config (str "workers") false)
    [ECall (SubStart (str "t")); run 0; run 0; ECtx 0; run 1; run 1; run 1; run 1;
     ECall (PubStart (str "t") [NewMessage [] []]); run 2; run 2; run 2].

Definition blocking_config : Config :=
  {| OutputChannelBuffer := 0; Persistent := false; BlockPublishUntilSubscriberAck := true; ConsumerGroup := []; AppID := [] |}.

(** A subscriber that has a message, and one that has acknowledged it. *)
Definition to_delivery : list event :=
  [ECall (SubStart (str "t")); run 0; run 0; ECall (PubStart (str "t") [NewMessage [] []]); run 2; run 2; run 2; run 3; run 4; run 4;
   ERun 4 {| branch := 1; rawMessageID := [] |}].
Definition sample_delivery : system := after blocking_config to_delivery.
Definition sample_acked : system := after blocking_config (to_delivery ++ [EAck 0; run 4; run 3]).

Lemma gochannel_panics_witness :
  (exists m groups, Fan 0 [(str "workers", [])] = Fan m groups /\ (str "workers", []) ∈ groups /\ str "workers" <> []) \/
  (exists topic ids, Fan 0 [(str "workers", [])] = PubLocks topic ids /\ false = true /\ persistedMessages (chan sample_left) = None).
Proof.
  apply (gochannel_panics (group_config (str "workers") false) sample_left 3 first_branch (Fan 0 [(str "workers", [])])
    (str "index out of range [0] with length 0")).
  - by apply after_reachable; vm_compute.
  - by vm_compute.
  - by vm_compute.
Defined.

Definition sample_copy : delivery :=
  default {| d_sub := 1; d_msg := 0; d_copy := NewMessage [] []; d_received := false |} (deliveries (chan sample_delivery) !! 0%nat).

Lemma one_delivery_at_a_time_witness : deliveries (chan sample_delivery) !! 0%nat = Some sample_copy /\ 0%nat = 0%nat.
Proof.
  assert (deliveries (chan sample_delivery) !! 0%nat = Some sample_copy) as Hd by (vm_cast_no_check (eq_refl (Some sample_copy))). split; [exact Hd|].
  apply (one_delivery_at_a_time blocking_config sample_delivery 0 0 sample_copy sample_copy); try exact Hd.
  - by apply after_reachable; vm_compute.
  - reflexivity.
  - by vm_compute.
  - by vm_compute.
  - intros sub. vm_compute. by intros [= <-].
Defined.

Lemma waiting_publisher_served_witness :
  g_closing (chan sample_acked) = closed_chan \/ each_subscriber (chan sample_acked) (str "t") (delivered (chan sample_acked) 0).
Proof.
  apply (waiting_publisher_served blocking_config sample_acked 2 (str "t") 3 0 [] first_branch (PubLoop (str "t") []) [] (chan sample_acked)).
  - by apply after_reachable; vm_compute.
  - by vm_compute.
  - vm_cast_no_check (eq_refl (Goes (PubLoop (str "t") []) [] (chan sample_acked))).
Defined.

(** The only subscriber of a group, about to leave. *)
Definition sample_leaving : system :=
  after (group_config (str "workers") false)
    [ECall (SubStart (str "t")); run 0; run 0; ECtx 0; run 1; run 1; run 1].

Lemma empty_group_panics_witness : members (set_wg (set_subscribers (chan sample_leaving) {[str "t" := {[str "workers" := []]}]}) 0) (str "t") = [].
Proof.
  destruct (empty_group_panics (group_config (str "workers") false) sample_leaving 1 first_branch (str "t") 0 (CloserEnd (str "t") 0) []
    (set_wg (set_subscribers (chan sample_leaving) {[str "t" := {[str "workers" := []]}]}) 0)) as [H _].
  - by apply after_reachable; vm_compute.
  - done.
  - by vm_compute.
  - by vm_compute.
  - by vm_compute.
  - exact H.
Defined.
